(* ===== verification/_CoqProject ===== *)
-Q . S2P
Prelude.v
Effects.v
SList.v
STask.v
SchedSpec.v
SchedInv.v
SchedTheorems.v
SchedLive.v
SeTask.v
SeTheorems.v
RateLimit.v
RateRace.v
Protocol.v
Client.v
ClientMain.v
MsgStream.v
PidfdEvent.v
MainLoop.v
BpfMaps.v
Netlink.v
Rtnl.v
TcSetup.v
TcNet.v
SdBus.v
SdBusInv.v
SdBusTheorems.v
Logging.v
Handler.v
Startup.v
Daemon.v
DaemonInv.v
DaemonTheorems.v
EndToEnd.v
