(* ===== verification/Prelude.v ===== *)
(** * Verification of traffic-limitd

    traffic-limitd runs commands under a limit on their network traffic. A
    client (src/client.c) asks a daemon (src/main.c and its helpers) over a
    Unix socket for a byte rate and a packet rate; the daemon moves the
    client's process into a systemd scope of its own, writes the limit for the
    scope's cgroup into a kernel map, and tells the client to start the
    command; an eBPF program (src/cgroup_rate_limit.bpf.c), run by the kernel
    for every outgoing packet, dates the packets of limited cgroups so that
    the fq queueing discipline sends them at the right rate, or drops them.
    When the process ends the daemon kills the scope and removes the limit.
    The daemon serves its clients with coroutines (s_task/), which it ties to
    systemd's event loop (src/se_libs.c).

    ** How the program is modelled

    Memory that is shared through pointers is an explicit store, and touching
    what is not there is a fault ([None] of the monad [ST] below). Machine
    integers are [Z] with their wrap-around written out where it can happen.
    A coroutine is cut where it can be suspended. System calls, the kernel's
    maps, systemd and the event loop are not part of the program: their
    results are arguments of the definitions, or functions with documented
    laws (type classes [LruHash], [KernelMap] and [KernelMapLaws] and the
    record [rtnetlink], each with an instance that shows the laws can hold).
    Code that is mostly a sequence of such calls is a program over questions
    ([Effects]), and its theorems are about all traces of questions and
    answers. Assertions of the code are faults where they can fail. The calls
    of the logger have no effect on their callers; the logger itself is in
    [Logging].

    ** Files

    - [Prelude]: machine integers, the fault monad, lists. [Effects]: programs
      over questions, their runs and the rules to reason about them.
    - [SList] models s_task/s_list.c, the intrusive circular lists, over a
      store of nodes; [rings] says which sequences a store holds.
    - [STask] models s_task/s_task.c and s_event.c: tasks with their contexts
      (not started, suspended, ended), the run queue and the queues of events
      as lists of [SList]. [SchedSpec] is the abstract machine, queues as plain
      lists, with the contract of the interface; [SchedInv] relates the two,
      [SchedTheorems] states that the code refines the abstract machine
      without a fault, [SchedLive] order and progress.
    - [SeTask] and [SeTheorems] model the first part of src/se_libs.c, tasks
      of the event loop: creation, end, release, interrupts and cleanups, on
      top of [STask]; the class [KeepsRoster] is what their lemmas need of the
      scheduler.
    - [MsgStream], [PidfdEvent] and [MainLoop] model the rest of
      src/se_libs.c and the main loop: a connection with its owner and its
      timeouts as a state machine, waiting for a process, sleeping, and when
      the daemon exits. There the scheduler appears as what
      [SchedTheorems] and [SeTheorems] show of it: setting an event makes the
      waiting owner runnable, an interrupt makes it runnable and its wait
      return -1.
    - [RateLimit] models the eBPF program for one CPU and sequences of
      packets, configuration changes and evictions; [RateRace] the same
      program on several CPUs, cut at its accesses to shared memory.
    - [Protocol] has the messages of include/protocol.h as bytes and the
      daemon's view of a request; [Client] the client: options, request,
      replies and the receive loop; [ClientMain] its main function up to the
      command.
    - [BpfMaps] models the functions of src/tcbpf_util.c that set, remove and
      look up limits, and the size of the maps.
    - [Handler] is [client_handler_async] of src/main.c as a program over
      questions to the daemon's state, to the system, and to blocking calls.
      [Daemon] runs any number of handlers, interleaved at their blocking
      calls, with the answers of the system arbitrary; the one assumption on
      them, in [valid], is that the id of a new scope's cgroup is not the id of
      another cgroup that has a limit (ids are unique in the kernel, names of
      scopes are random). [DaemonInv] is the proof calculus: each handler owns
      the places and limits its cleanups release, and the others may change
      what it does not own while it is suspended, and a handler that has let
      its client start changes no limit until it ends. [DaemonTheorems] has
      the theorems.
    - [EndToEnd] puts the daemon and the packet scheduler together: packets and
      evictions between the daemon's steps, each of which changes the map the
      scheduler reads to the daemon's new limits ([meanwhile]).
    - [Netlink] has the requests and answers of src/tcbpf_util.c as bytes:
      attributes, requests, and reading the properties of an interface;
      [Rtnl] models src/rtnl_util.c, talking to the kernel over a queue of
      datagrams; [TcSetup] the rest of the set-up of traffic control
      ([tc_setup_inferface] and what it calls); [TcNet] runs [TcSetup] over
      [Rtnl] and a kernel.
    - [SdBus] models src/sd_bus.c, calls to systemd and the wait for a job;
      [SdBusInv] counts the messages, slots, strings and references each
      function holds and says which calls with which arguments and replies a
      result rests on, [SdBusTheorems] has the theorems.
    - [Startup] models src/cgroup_util.c, src/unix_sock.c, the BPF object of
      src/tcbpf_util.c and [main] of src/main.c around its loop.
    - [Logging] models src/log.c and [libbpf_print] of src/tcbpf_util.c.

    ** What the theorems show

    - Lists: the link manipulations implement sequences; connecting and
      disconnecting are inverse.
    - Scheduler: no call within the contract faults; no task is ever lost;
      setting an event and cancelling a wait move the right tasks in the right
      order; waiting is first come, first served; a runnable task gets its
      turn; who joined a task returns when it ends.
    - Tasks: within the contract (which leaves out interrupts of tasks that
      have ended and are not released) they are created and released without
      use of freed memory; the list of all tasks is exact; interrupts reach
      everybody; cleanups run once each in reverse order.
    - Streams, process events, main loop: operations leave the stream clean,
      unless one fails to start, return what ended them, leak nothing; the end
      of a process is not missed; the daemon exits only when it is idle, and
      then it does.
    - Packet scheduler: delays are exact; on one CPU, and as long as the kernel
      keeps a cgroup's entry, departures are spaced and throughput is bounded
      by the rates; drops happen exactly beyond the horizon; races between
      CPUs stay bounded and lose no charge while the queue is busy.
    - Client and protocol: requests and replies are understood, numbers are
      read as documented, the command starts exactly on the daemon's word.
    - Daemon, for every interleaving: it never aborts; at most 1000 tasks and
      room in the maps for each; every limit belongs to one handler that
      removes it; a client runs only while its limit is in the kernel; systemd
      is asked to kill its scope at the end; the unit of a process that gets a
      scope has no limit itself; a full daemon refuses.
    - End to end: as long as its handler runs, the scheduler reads the limit
      of a started client, and the client's traffic is bounded by its request
      (on one CPU, while the kernel keeps the entry).
    - Netlink: requests fit in their structs and read back as meant, answers
      are understood wherever the attributes stand, the loops end, no byte
      outside of a buffer is touched, the answer to a request is found among
      other messages, nothing leaks.
    - Traffic control: every interface of the list is set up in order, fq on
      every queue, clsact, the filter, or the first failure is reported; with
      the socket and a kernel below it, what counts as accepted is what the
      kernel granted.
    - systemd: starting a scope and the other calls never crash, ask for the
      right slice and send the right request, and hold exactly what they
      return (one string apart, when the bus is lost at a bad time).
    - Start: the daemon serves only when everything is set up; the listening
      socket and its argument have one owner; the cgroup root is a cgroup2.
    - Logging: the array of callbacks is a list, and messages go where they
      are asked to.

    Some theorems show where the code does not do what it means to:
    [event_set_leaves_stale_pointer], [exit_signal_revives_ended_task],
    [race_store_loses_charge], [odd_rates], [nowait_flag_inverted],
    [hangup_counts_as_written], [eagain_drops_timeout], [hangup_forgotten],
    [failed_start_leaves_timer],
    [large_datagram_rejected], [multi_flag_hides_answer],
    [ack_leaves_answer_unset], [only_commas_succeed],
    [disconnect_leaks_result], [accept_error_stops_service],
    [create_error_loses_client], [socket_error_accepted],
    [long_wait_sets_no_timer], [long_path_reads_junk].

    ** Bounds and fuel

    - [s_list_size] and the loops over lists of tasks and events run with the
      number of nodes in the store as fuel; a ring cannot have more, and the
      theorems show that the loops end with their result.
    - [s_task_main_loop_once] has fuel for two iterations up to the next
      switch: the main task is not on the run queue when it calls it, so the
      first iteration either finds the queue empty and returns or switches to
      another task. Running out is a fault, and [scheduler_safe] shows that
      there is none.
    - [props_loop] and [talk_loop] have one iteration for each byte a message
      or a datagram can have, and every iteration takes at least four bytes;
      [setup_tokens] one for each byte of the list. Running out would be a
      crash or an answer of its own, which the theorems exclude.
    - The theorems on packets assume a clock below [2 ^ 62] ns (146 years) and
      packets below [2 ^ 32] bytes, as the kernel's types give; on several CPUs
      that the number of CPUs times the longest delay is below [2 ^ 62] ns.

    ** Not modelled

    The assembly that switches contexts and the stack-size helper of
    s_task.c; libbpf's generated loader, libsystemd, the kernel and libc,
    whose results are arguments; getopt_long and the text of the client's
    usage message; the rendering of times, numbers and format strings in log
    lines, which are left symbolic. Sending of a request larger than the
    socket's buffer, and signals that interrupt the daemon's own system calls,
    are results like any other. *)

From stdpp Require Export base tactics option list gmap strings.
From Stdlib Require Export ZArith Lia.

#[global] Set Default Goal Selector "!".

(** Facts the components share for automation: ranges of machine words, and
    what a component's lemmas need again and again. *)
Create HintDb traffic discriminated.

(** ** Machine integers *)

(** Unsigned wrap-around at width [w]. *)
Definition wrapu (w z : Z) : Z := z mod 2 ^ w.

(** Two's complement reading of the low [w] bits. *)
Definition wraps (w z : Z) : Z := (z + 2 ^ (w - 1)) mod 2 ^ w - 2 ^ (w - 1).

Abbreviation u8 := (wrapu 8).
Abbreviation u16 := (wrapu 16).
Abbreviation u32 := (wrapu 32).
Abbreviation u64 := (wrapu 64).
Abbreviation s32 := (wraps 32).
Abbreviation s64 := (wraps 64).

Definition in_u (w z : Z) : Prop := (0 <= z < 2 ^ w)%Z.
Definition INT_MAX : Z := 2147483647.

Lemma wrapu_range w z : (0 <= w)%Z -> in_u w (wrapu w z).
Proof. intros Hw. apply Z.mod_pos_bound. lia. Qed.

#[export] Hint Resolve wrapu_range : traffic.

Lemma wrapu_small w z : in_u w z -> wrapu w z = z.
Proof. apply Z.mod_small. Qed.

(** ** Error numbers of the Linux ABI *)

Definition EPERM : Z := 1.
Definition ENOENT : Z := 2.
Definition EINTR : Z := 4.
Definition EIO : Z := 5.
Definition EAGAIN : Z := 11.
Definition ENOMEM : Z := 12.
Definition EACCES : Z := 13.
Definition ENODEV : Z := 19.
Definition EINVAL : Z := 22.
Definition EPIPE : Z := 32.
Definition ELOOP : Z := 40.
Definition ENOMSG : Z := 42.
Definition ENODATA : Z := 61.
Definition EPROTO : Z := 71.
Definition EOPNOTSUPP : Z := 95.
Definition ECONNRESET : Z := 104.
Definition ETIMEDOUT : Z := 110.
Definition ESTALE : Z := 116.
Definition ECANCELED : Z := 125.
Definition ENOKEY : Z := 126.
Definition EWOULDBLOCK : Z := EAGAIN.

(** ** Stateful computations that may fault

    [ST S A] is a C function over the store [S]: [None] is undefined
    behaviour (a dereference of something that is not there, an abort),
    [Some (a, s)] a normal return. *)

Definition ST (S A : Type) : Type := S → option (A * S).

#[export] Instance ST_ret S : MRet (ST S) := λ A a s, Some (a, s).
#[export] Instance ST_bind S : MBind (ST S) := λ A B f m s,
  match m s with Some (a, s') => f a s' | None => None end.

Definition fault {S A} : ST S A := λ _, None.
Definition get {S} : ST S S := λ s, Some (s, s).
Definition put {S} (s : S) : ST S unit := λ _, Some (tt, s).
Definition modify {S} (f : S → S) : ST S unit := λ s, Some (tt, f s).
Definition gets {S A} (f : S → option A) : ST S A := λ s,
  match f s with Some a => Some (a, s) | None => None end.

Lemma ST_bind_run {S A B} (m : ST S A) (f : A → ST S B) s a s' :
  m s = Some (a, s') → (m ≫= f) s = f a s'.
Proof. intros H. unfold mbind, ST_bind. by rewrite H. Qed.

Lemma ST_ret_bind {S A B} (x : A) (f : A → ST S B) s :
  ((mret x : ST S A) ≫= f) s = f x s.
Proof. done. Qed.

Lemma ST_bind_inv {S A B} (m : ST S A) (f : A → ST S B) s r :
  (m ≫= f) s = Some r → ∃ a s', m s = Some (a, s') ∧ f a s' = Some r.
Proof.
  unfold mbind, ST_bind. destruct (m s) as [[a s']|]; [eauto|done].
Qed.

(** Run one step of a computation whose result is known. *)
Ltac st_step H := rewrite (ST_bind_run _ _ _ _ _ H).

(** ** Lists *)

(** [l] without its occurrences of [x]. *)
Definition remove {A} `{EqDecision A} (x : A) (l : list A) : list A :=
  filter (λ y, y ≠ x) l.

Lemma remove_notin {A} `{EqDecision A} (x : A) l : x ∉ l → remove x l = l.
Proof.
  unfold remove. induction l as [|y l IH]; intros Hx; [done|].
  rewrite filter_cons_True, IH by set_solver. done.
Qed.

Lemma remove_middle {A} `{EqDecision A} (x : A) l1 l2 :
  x ∉ l1 → x ∉ l2 → remove x (l1 ++ x :: l2) = l1 ++ l2.
Proof.
  intros H1 H2. unfold remove. rewrite filter_app, filter_cons_False by naive_solver.
  fold (remove x l1) (remove x l2). by rewrite !remove_notin.
Qed.

Lemma elem_of_remove {A} `{EqDecision A} (x y : A) l : y ∈ remove x l ↔ y ∈ l ∧ y ≠ x.
Proof. unfold remove. rewrite list_elem_of_filter. tauto. Qed.

Lemma remove_head {A} `{EqDecision A} (x : A) l : x ∉ l → remove x (x :: l) = l.
Proof. intros H. by apply (remove_middle x []); [apply not_elem_of_nil|]. Qed.
