(* ===== verification/Effects.v ===== *)
(** * Programs over questions to the system

    Code that is a sequence of calls into the kernel or a library, with its
    own decisions in between: a program asks questions and goes on with the
    answers. What the calls may answer is a relation; the trace of questions
    and answers is what the outside sees of a run. A failed assertion, an
    invalid [free] or a dereference of NULL is [Crash]. *)

From S2P Require Import Prelude.

Section Programs.
Context {io : Type → Type}.

Inductive prog (A : Type) : Type :=
  | Ret (x : A)
  | Crash
  | Ask {B : Type} (q : io B) (k : B → prog A).

(** A question and its answer. *)
Inductive ev : Type :=
  | Ev {B : Type} (q : io B) (b : B).

End Programs.

Arguments prog : clear implicits.
Arguments ev : clear implicits.
Arguments Ret {io A} x.
Arguments Crash {io A}.
Arguments Ask {io A B} q k.
Arguments Ev {io B} q b.

Definition ask {io A} (q : io A) : prog io A := Ask q Ret.

Fixpoint pbind {io A B} (p : prog io A) (f : A → prog io B) : prog io B :=
  match p with Ret x => f x | Crash => Crash | Ask q k => Ask q (λ b, pbind (k b) f) end.

#[export] Instance prog_ret {io} : MRet (prog io) := @Ret io.
#[export] Instance prog_bind {io} : MBind (prog io) := λ A B f p, pbind p f.

(** ** Runs *)

(** [None] is a crash. *)
Inductive runs {io} (ok : ∀ B, io B → B → Prop) {A} : prog io A → list (ev io) → option A → Prop :=
  | runs_ret x : runs ok (Ret x) [] (Some x)
  | runs_crash : runs ok Crash [] None
  | runs_ask {B} (q : io B) k b tr r :
      ok B q b → runs ok (k b) tr r → runs ok (Ask q k) (Ev q b :: tr) r.

(** A run with given answers, which may depend on how many questions there
    were. *)
Fixpoint exec {io A} (env : nat → ∀ B, io B → B) (n : nat) (p : prog io A)
  : list (ev io) * option A :=
  match p with
  | Ret x => ([], Some x)
  | Crash => ([], None)
  | Ask q k =>
      let b := env n _ q in
      let '(tr, r) := exec env (S n) (k b) in (Ev q b :: tr, r)
  end.

Lemma exec_runs {io A} (ok : ∀ B, io B → B → Prop) env n (p : prog io A) tr r :
  (∀ n B (q : io B), ok B q (env n B q)) → exec env n p = (tr, r) → runs ok p tr r.
Proof.
  intros Henv. revert n tr r. induction p as [x| |B q k IH]; intros n tr r; cbn [exec].
  - intros [= <- <-]. constructor.
  - intros [= <- <-]. constructor.
  - destruct (exec env (S n) (k (env n B q))) as [tr' r'] eqn:E. intros [= <- <-].
    constructor; [apply Henv|]. by eapply IH.
Qed.

(** ** Proof rules *)

(** [wp ok p Q tr]: after the trace [tr], every run of [p] ends, without a
    crash, with a result and a trace for which [Q] holds. *)
Fixpoint wp {io} (ok : ∀ B, io B → B → Prop) {A} (p : prog io A) (Q : list (ev io) → A → Prop)
    (tr : list (ev io)) : Prop :=
  match p with
  | Ret x => Q tr x
  | Crash => False
  | Ask q k => ∀ b, ok _ q b → wp ok (k b) Q (tr ++ [Ev q b])
  end.

Section Rules.
Context {io : Type → Type} (ok : ∀ B, io B → B → Prop).

Lemma wp_mono {A} (p : prog io A) (Q Q' : list (ev io) → A → Prop) tr :
  wp ok p Q tr → (∀ tr x, Q tr x → Q' tr x) → wp ok p Q' tr.
Proof.
  intros H HQ. revert tr H. induction p as [x| |B q k IH]; intros tr; cbn; [apply HQ|done|].
  intros H b Hb. apply IH, H, Hb.
Qed.

Lemma wp_bind {A B} (p : prog io A) (f : A → prog io B) Q tr :
  wp ok p (λ tr x, wp ok (f x) Q tr) tr → wp ok (p ≫= f) Q tr.
Proof.
  revert tr. induction p as [x| |C q k IH]; intros tr; cbn; [done|done|].
  intros H b Hb. apply IH, H, Hb.
Qed.

Lemma wp_sound {A} (p : prog io A) Q tr0 tr r :
  wp ok p Q tr0 → runs ok p tr r → ∃ x, r = Some x ∧ Q (tr0 ++ tr) x.
Proof.
  intros H Hr. revert tr0 H. induction Hr as [x| |B q k b tr r Hb Hr IH]; intros tr0; cbn.
  - intros H. exists x. by rewrite app_nil_r.
  - done.
  - intros H. specialize (H b Hb). destruct (IH _ H) as (x & -> & HQ). exists x. split; [done|].
    by rewrite <-(assoc_L (++)) in HQ.
Qed.

(** There is always a run, if every question can be answered. *)
Lemma runs_exist {A} (p : prog io A) :
  (∀ B (q : io B), ∃ b, ok B q b) → ∃ tr r, runs ok p tr r.
Proof.
  intros Hok. induction p as [x| |B q k IH]; [eexists _, _; constructor..|].
  destruct (Hok B q) as [b Hb]. destruct (IH b) as (tr & r & Hr). eexists _, _. by constructor.
Qed.

End Rules.

(** Every question that can come up meets [pre]. *)
Fixpoint asks {io} (ok : ∀ B, io B → B → Prop) (pre : ∀ B, io B → Prop) {A} (p : prog io A) : Prop :=
  match p with
  | Ret _ | Crash => True
  | Ask q k => pre _ q ∧ ∀ b, ok _ q b → asks ok pre (k b)
  end.

Lemma asks_bind {io A B} ok pre (p : prog io A) (f : A → prog io B) :
  asks ok pre p → (∀ x, asks ok pre (f x)) → asks ok pre (p ≫= f).
Proof.
  intros Hp Hf. induction p as [x| |C q k IH]; cbn in *; [apply Hf|done|].
  destruct Hp as [Hq Hk]. split; [done|]. intros b Hb. by apply IH, Hk.
Qed.

Lemma asks_ask {io A B} ok pre (q : io B) (f : B → prog io A) :
  pre B q → (∀ b, ok B q b → asks ok pre (f b)) → asks ok pre (ask q ≫= f).
Proof. by split. Qed.

(** ** Programs by the traces they add

    [spec ok p Q]: every run of [p] ends, without a crash, and [Q] holds of
    the trace it adds and of its result. *)
Definition spec {io} (ok : ∀ B, io B → B → Prop) {A} (p : prog io A) (Q : list (ev io) → A → Prop) : Prop :=
  ∀ tr, wp ok p (λ tr' x, ∃ l, tr' = tr ++ l ∧ Q l x) tr.

Section Specs.
Context {io : Type → Type} (ok : ∀ B, io B → B → Prop).

Lemma spec_ret {A} (x : A) (Q : list (ev io) → A → Prop) : Q [] x → spec ok (mret x) Q.
Proof. intros H tr. exists []. by rewrite app_nil_r. Qed.

Lemma spec_bind {A B} (p : prog io A) (f : A → prog io B) Q1 Q :
  spec ok p Q1 → (∀ l x, Q1 l x → spec ok (f x) (λ l' y, Q (l ++ l') y)) → spec ok (p ≫= f) Q.
Proof.
  intros Hp Hf tr. apply wp_bind. eapply wp_mono; [apply Hp|]. cbn.
  intros tr1 x (l & -> & H). eapply wp_mono; [by apply Hf|]. cbn.
  intros tr2 y (l' & -> & H'). exists (l ++ l'). by rewrite (assoc_L (++)).
Qed.

Lemma spec_ask {A B} (q : io B) (f : B → prog io A) Q :
  (∀ b, ok B q b → spec ok (f b) (λ l y, Q (Ev q b :: l) y)) → spec ok (ask q ≫= f) Q.
Proof.
  intros H tr b Hb. eapply wp_mono; [by apply H|]. cbn.
  intros tr' y (l & -> & HQ). exists (Ev q b :: l). by rewrite <-(assoc_L (++)).
Qed.

Lemma spec_ask_last {B} (q : io B) (Q : list (ev io) → B → Prop) :
  (∀ b, ok B q b → Q [Ev q b] b) → spec ok (ask q) Q.
Proof. intros H tr b Hb. eexists. split; [done|]. by apply H. Qed.

Lemma spec_mono {A} (p : prog io A) (Q Q' : list (ev io) → A → Prop) :
  spec ok p Q → (∀ l x, Q l x → Q' l x) → spec ok p Q'.
Proof. intros H HQ tr. eapply wp_mono; [apply H|]. cbn. naive_solver. Qed.

Lemma spec_ret_bind {A B} (x : A) (f : A → prog io B) Q : spec ok (f x) Q → spec ok (mret x ≫= f) Q.
Proof. done. Qed.

Lemma spec_assoc {A B C} (p : prog io A) (f : A → prog io B) (g : B → prog io C) Q :
  spec ok (p ≫= λ x, f x ≫= g) Q → spec ok ((p ≫= f) ≫= g) Q.
Proof.
  intros H tr. specialize (H tr). revert H. generalize tr at 2 4. revert tr.
  induction p as [x| |D q k IH]; intros tr0 tr; cbn; [done|done|].
  intros H b Hb. apply IH, H, Hb.
Qed.

Lemma spec_runs {A} (p : prog io A) Q tr r :
  spec ok p Q → runs ok p tr r → ∃ x, r = Some x ∧ Q tr x.
Proof.
  intros H Hr. destruct (wp_sound ok p _ [] tr r (H []) Hr) as (x & -> & l & Heq & HQ).
  cbn in Heq. subst l. eauto.
Qed.

End Specs.
