(* ===== verification/SList.v ===== *)
(** * Intrusive circular doubly linked lists (s_task/s_list.c) *)

From S2P Require Import Prelude.

Section SList.
Context {A : Type} `{Countable A}.

(** [s_list_t]: the two links embedded in every list member. *)
Record s_list_t : Type := mk_s_list { next : A; prev : A }.

(** The store of list nodes, by address. *)
Abbreviation heap := (gmap A s_list_t).

Implicit Types (h : heap) (a b c x y : A) (xs ys : list A).

Definition s_list_get_prev (list : A) : ST heap A := λ h,
  n ← h !! list; Some (prev n, h).

Definition s_list_get_next (list : A) : ST heap A := λ h,
  n ← h !! list; Some (next n, h).

Definition s_list_set_prev (list other : A) : ST heap unit := λ h,
  n ← h !! list; Some (tt, <[list := mk_s_list (next n) other]> h).

Definition s_list_set_next (list other : A) : ST heap unit := λ h,
  n ← h !! list; Some (tt, <[list := mk_s_list other (prev n)]> h).

(** Initialise a list: a node linked to itself. *)
Definition s_list_init (list : A) : ST heap unit :=
  s_list_set_prev list list;;
  s_list_set_next list list.

(** Connect two lists, or disconnect one list at two of its nodes. *)
Definition s_list_toggle_connect (list1 list2 : A) : ST heap unit :=
  prev1 ← s_list_get_prev list1;
  prev2 ← s_list_get_prev list2;
  s_list_set_next prev1 list2;;
  s_list_set_next prev2 list1;;
  s_list_set_prev list1 prev2;;
  s_list_set_prev list2 prev1.

Definition s_list_connect (list1 list2 : A) : ST heap unit :=
  s_list_toggle_connect list1 list2.

Definition s_list_disconnect (list1 list2 : A) : ST heap unit :=
  s_list_toggle_connect list1 list2.

Definition s_list_attach (node1 node2 : A) : ST heap unit :=
  s_list_connect node1 node2.

Definition s_list_detach (node : A) : ST heap unit :=
  nxt ← s_list_get_next node;
  s_list_disconnect node nxt.

Definition s_list_is_empty (list : A) : ST heap bool :=
  nxt ← s_list_get_next list;
  mret (bool_decide (nxt = list)).

(** The [for] loop of [s_list_size]: [fuel] bounds the number of nodes
    visited, the counter is an [int] whose overflow is undefined. *)
Fixpoint s_list_size_loop (fuel : nat) (list nxt : A) (n : Z) : ST heap Z :=
  match fuel with
  | O => fault
  | S fuel =>
      if bool_decide (nxt = list) then mret n
      else if (INT_MAX <? n + 1)%Z then fault
      else nxt' ← s_list_get_next nxt;
           s_list_size_loop fuel list nxt' (n + 1)
  end.

(** A ring of the store has at most [size h] nodes, so [S (size h)]
    iterations reach the head again. *)
Definition s_list_size (list : A) : ST heap Z := λ h,
  (nxt ← s_list_get_next list;
   s_list_size_loop (S (size h)) list nxt 0) h.

(** ** Rings *)

Definition nxt_of h x : option A := next <$> h !! x.
Definition prv_of h x : option A := prev <$> h !! x.

(** [y] follows [x], and both nodes agree on it. *)
Definition link h x y : Prop := nxt_of h x = Some y ∧ prv_of h y = Some x.

(** Last element of the non-empty sequence [a :: xs]. *)
Definition lst a xs : A := default a (last xs).

(** [a :: xs] are linked in this order. *)
Fixpoint chain h a xs : Prop :=
  match xs with
  | [] => True
  | b :: xs' => link h a b ∧ chain h b xs'
  end.

(** The circular list through [a] whose other members are [xs]. *)
Definition ring h a xs : Prop := chain h a xs ∧ link h (lst a xs) a.

(** A set of rings, each given by a distinguished node and the others. *)
Definition nodes (L : list (A * list A)) : list A :=
  L ≫= λ r, r.1 :: r.2.

#[global] Arguments nodes : simpl never.

(** The store holds exactly-separated rings [L]: every one of them is
    closed and no node belongs to two of them. *)
Definition rings h (L : list (A * list A)) : Prop :=
  NoDup (nodes L) ∧ Forall (λ r, ring h r.1 r.2) L.

(** ** Effect of the field updates *)

Lemma set_next_run h x y :
  is_Some (h !! x) →
  ∃ h', s_list_set_next x y h = Some (tt, h') ∧ dom h' = dom h ∧
    (∀ z, nxt_of h' z = if decide (z = x) then Some y else nxt_of h z) ∧
    (∀ z, prv_of h' z = prv_of h z).
Proof.
  intros [n Hn]. unfold s_list_set_next. rewrite Hn. eexists; split; [done|].
  split; [apply dom_insert_lookup_L; eauto|].
  split; intros z; unfold nxt_of, prv_of; rewrite lookup_insert;
    repeat case_decide; subst; try done; by rewrite ?Hn.
Qed.

Lemma set_prev_run h x y :
  is_Some (h !! x) →
  ∃ h', s_list_set_prev x y h = Some (tt, h') ∧ dom h' = dom h ∧
    (∀ z, prv_of h' z = if decide (z = x) then Some y else prv_of h z) ∧
    (∀ z, nxt_of h' z = nxt_of h z).
Proof.
  intros [n Hn]. unfold s_list_set_prev. rewrite Hn. eexists; split; [done|].
  split; [apply dom_insert_lookup_L; eauto|].
  split; intros z; unfold nxt_of, prv_of; rewrite lookup_insert;
    repeat case_decide; subst; try done; by rewrite ?Hn.
Qed.

Lemma nxt_of_dom h x y : nxt_of h x = Some y → x ∈ dom h.
Proof. unfold nxt_of. rewrite fmap_Some, elem_of_dom. naive_solver. Qed.

Lemma prv_of_dom h x y : prv_of h x = Some y → x ∈ dom h.
Proof. unfold prv_of. rewrite fmap_Some, elem_of_dom. naive_solver. Qed.

Lemma get_prev_run h x y : prv_of h x = Some y → s_list_get_prev x h = Some (y, h).
Proof.
  unfold prv_of, s_list_get_prev. rewrite fmap_Some. intros (n & -> & ->). done.
Qed.

Lemma get_next_run h x y : nxt_of h x = Some y → s_list_get_next x h = Some (y, h).
Proof.
  unfold nxt_of, s_list_get_next. rewrite fmap_Some. intros (n & -> & ->). done.
Qed.

(** The four assignments of [s_list_toggle_connect] exchange the
    predecessors of its two arguments. *)
Lemma toggle_run h a b p q :
  prv_of h a = Some p → prv_of h b = Some q → p ∈ dom h → q ∈ dom h →
  ∃ h', s_list_toggle_connect a b h = Some (tt, h') ∧ dom h' = dom h ∧
    (∀ z, nxt_of h' z =
       if decide (z = q) then Some a else
       if decide (z = p) then Some b else nxt_of h z) ∧
    (∀ z, prv_of h' z =
       if decide (z = b) then Some p else
       if decide (z = a) then Some q else prv_of h z).
Proof.
  intros Ha Hb Hp Hq.
  pose proof (prv_of_dom _ _ _ Ha) as Da. pose proof (prv_of_dom _ _ _ Hb) as Db.
  destruct (set_next_run h p b) as (h1 & R1 & D1 & N1 & P1); [by apply elem_of_dom|].
  destruct (set_next_run h1 q a) as (h2 & R2 & D2 & N2 & P2);
    [apply elem_of_dom; by rewrite D1|].
  destruct (set_prev_run h2 a q) as (h3 & R3 & D3 & P3 & N3);
    [apply elem_of_dom; by rewrite D2, D1|].
  destruct (set_prev_run h3 b p) as (h4 & R4 & D4 & P4 & N4);
    [apply elem_of_dom; by rewrite D3, D2, D1|].
  exists h4. split_and!.
  - unfold s_list_toggle_connect. st_step (get_prev_run _ _ _ Ha).
    st_step (get_prev_run _ _ _ Hb). st_step R1. st_step R2. st_step R3. exact R4.
  - by rewrite D4, D3, D2, D1.
  - intros z. by rewrite N4, N3, N2, N1.
  - intros z. by rewrite P4, P3, P2, P1.
Qed.

(** ** Chains *)

Lemma lst_app a b xs ys : lst a (xs ++ b :: ys) = lst b ys.
Proof.
  unfold lst. rewrite last_app, last_cons. by destruct (last ys).
Qed.

Lemma lst_cons a b xs : lst a (b :: xs) = lst b xs.
Proof. apply (lst_app a b []). Qed.

Lemma lst_elem a xs : lst a xs ∈ a :: xs.
Proof.
  revert a; induction xs as [|b xs IH]; intros a; [set_solver|].
  rewrite lst_cons. specialize (IH b). set_solver.
Qed.

Lemma chain_app h a b xs ys :
  chain h a (xs ++ b :: ys) ↔ chain h a xs ∧ link h (lst a xs) b ∧ chain h b ys.
Proof.
  revert a; induction xs as [|c xs IH]; intros a; simpl.
  - tauto.
  - rewrite IH, lst_cons. tauto.
Qed.

(** A chain survives any change that keeps the forward links of its nodes
    but the last and the backward links of its nodes but the first. *)
Lemma chain_frame h h' a xs :
  NoDup (a :: xs) → chain h a xs →
  (∀ z, z ∈ a :: xs → z ≠ lst a xs → nxt_of h' z = nxt_of h z) →
  (∀ z, z ∈ xs → prv_of h' z = prv_of h z) →
  chain h' a xs.
Proof.
  revert a; induction xs as [|b xs IH]; intros a Hnd Hc Hn Hp; simpl in *; [done|].
  destruct Hc as [[Hnx Hpv] Hc]. rewrite lst_cons in Hn.
  apply NoDup_cons in Hnd as [Ha Hnd].
  assert (a ≠ lst b xs) by (intros ->; by apply Ha, lst_elem).
  split; [split|].
  - rewrite Hn; [done|set_solver|done].
  - rewrite Hp; [done|set_solver].
  - apply IH; [done|done| |set_solver].
    intros z Hz Hne. apply Hn; [set_solver|done].
Qed.

Lemma ring_app h a b xs ys :
  ring h a (xs ++ b :: ys) ↔
  chain h a xs ∧ link h (lst a xs) b ∧ chain h b ys ∧ link h (lst b ys) a.
Proof. unfold ring. rewrite chain_app, lst_app. tauto. Qed.

(** A ring has no distinguished node: it may be entered anywhere. *)
Lemma ring_rotate h a b xs ys :
  ring h a (xs ++ b :: ys) ↔ ring h b (ys ++ a :: xs).
Proof. rewrite !ring_app. tauto. Qed.

Lemma ring_frame h h' a xs :
  NoDup (a :: xs) → ring h a xs →
  (∀ z, z ∈ a :: xs → nxt_of h' z = nxt_of h z ∧ prv_of h' z = prv_of h z) →
  ring h' a xs.
Proof.
  intros Hnd [Hc Hl] Hz. split.
  - eapply chain_frame; eauto; intros z ?; [|apply Hz; set_solver].
    intros _. by apply Hz.
  - destruct Hl as [Hn Hp]. split.
    + rewrite (proj1 (Hz _ (lst_elem a xs))). done.
    + rewrite (proj2 (Hz a ltac:(set_solver))). done.
Qed.

Lemma ring_prv h a xs : ring h a xs → prv_of h a = Some (lst a xs).
Proof. by intros [_ [_ ?]]. Qed.

Lemma chain_dom h a xs z : chain h a xs → z ∈ xs → z ∈ dom h.
Proof.
  revert a; induction xs as [|b xs IH]; intros a Hc Hz; [set_solver|].
  destruct Hc as [[_ Hp] Hc].
  apply elem_of_cons in Hz as [->|Hz]; [by eapply prv_of_dom|eauto].
Qed.

Lemma ring_dom h a xs z : ring h a xs → z ∈ a :: xs → z ∈ dom h.
Proof.
  intros [Hc [_ Hp]] Hz.
  apply elem_of_cons in Hz as [->|Hz]; [by eapply prv_of_dom|by eapply chain_dom].
Qed.

(** ** Separated rings *)

Lemma nodes_cons a xs L : nodes ((a, xs) :: L) = a :: xs ++ nodes L.
Proof. done. Qed.

#[global] Instance nodes_perm : Proper ((≡ₚ) ==> (≡ₚ)) nodes.
Proof. intros L L' HL. unfold nodes. by rewrite HL. Qed.

#[global] Instance rings_perm h : Proper ((≡ₚ) ==> iff) (rings h).
Proof. intros L L' HL. unfold rings. by rewrite HL. Qed.

Lemma elem_of_nodes z L : z ∈ nodes L ↔ ∃ r, r ∈ L ∧ z ∈ r.1 :: r.2.
Proof. unfold nodes. rewrite list_elem_of_bind. naive_solver. Qed.

Lemma elem_of_nodes_incl z L L' : z ∈ nodes L' → L' ⊆ L → z ∈ nodes L.
Proof. rewrite !elem_of_nodes. naive_solver. Qed.

Lemma rings_rotate h a b xs ys L :
  rings h ((a, xs ++ b :: ys) :: L) ↔ rings h ((b, ys ++ a :: xs) :: L).
Proof.
  unfold rings. rewrite !Forall_cons, !nodes_cons; simpl. rewrite ring_rotate.
  assert (a :: (xs ++ b :: ys) ++ nodes L ≡ₚ b :: (ys ++ a :: xs) ++ nodes L) as ->;
    [|done].
  rewrite !app_comm_cons. f_equiv. solve_Permutation.
Qed.

Lemma nodes_member_NoDup L r : NoDup (nodes L) → r ∈ L → NoDup (r.1 :: r.2).
Proof.
  intros Hnd Hr. induction L as [|r' L IH]; [set_solver|].
  apply (NoDup_app (r'.1 :: r'.2)) in Hnd as (H1 & _ & H2).
  apply elem_of_cons in Hr as [->|Hr]; [done|auto].
Qed.

Lemma Forall_ring_frame h h' L :
  NoDup (nodes L) → Forall (λ r, ring h r.1 r.2) L →
  (∀ z, z ∈ nodes L → nxt_of h' z = nxt_of h z ∧ prv_of h' z = prv_of h z) →
  Forall (λ r, ring h' r.1 r.2) L.
Proof.
  intros Hnd Hf Hz. apply Forall_forall. intros r Hr. rewrite Forall_forall in Hf.
  eapply ring_frame; [by eapply nodes_member_NoDup|by apply Hf|].
  intros z ?. apply Hz, elem_of_nodes; eauto.
Qed.

Lemma nodes_app L1 L2 : nodes (L1 ++ L2) = nodes L1 ++ nodes L2.
Proof. apply bind_app. Qed.

Lemma rings_notin h a xs L z : rings h ((a, xs) :: L) → z ∈ a :: xs → z ∉ nodes L.
Proof.
  intros [Hnd _] Hz. rewrite nodes_cons, app_comm_cons in Hnd.
  apply NoDup_app in Hnd as (_ & Hd & _). by apply Hd.
Qed.

Lemma lst_dom h a xs : chain h a xs → a ∈ dom h → lst a xs ∈ dom h.
Proof.
  intros Hc Ha. destruct (elem_of_cons xs (lst a xs) a) as [He _].
  destruct (He (lst_elem a xs)) as [->|Hx]; [done|by eapply chain_dom].
Qed.

(** What [s_list_toggle_connect] does to two chains whose ends precede
    [a] and [b] in one of the two possible ways: it swaps the closing
    links and leaves every other ring alone. *)
Section Toggle.
Context (h : heap) (a b p q : A) (xs ys : list A) (L : list (A * list A)).
Context (Hnd : NoDup (nodes ((a, xs) :: (b, ys) :: L))).
Context (Hpq : p = lst a xs ∧ q = lst b ys ∨ p = lst b ys ∧ q = lst a xs).

Lemma toggle_disjoint :
  NoDup (a :: xs) ∧ NoDup (b :: ys) ∧ NoDup (nodes L) ∧
  (∀ z, z ∈ a :: xs → (z ∉ b :: ys) ∧ z ∉ nodes L) ∧
  (∀ z, z ∈ b :: ys → z ∉ nodes L).
Proof using Hnd.
  clear Hpq.
  change (nodes ((a, xs) :: (b, ys) :: L)) with ((a :: xs) ++ (b :: ys) ++ nodes L) in Hnd.
  apply NoDup_app in Hnd as (Hndx & Hdx & Hnd').
  apply NoDup_app in Hnd' as (Hndy & Hdy & HndL).
  split_and!; try done. intros z Hz. apply Hdx in Hz. set_solver.
Qed.

Lemma toggle_ends : p ≠ q ∧ a ≠ b ∧ p ∈ (a :: xs) ++ b :: ys ∧ q ∈ (a :: xs) ++ b :: ys.
Proof using Hnd Hpq.
  destruct toggle_disjoint as (_ & _ & _ & Hd & _).
  pose proof (lst_elem a xs) as Lx. pose proof (lst_elem b ys) as Ly.
  assert (lst a xs ≠ lst b ys)
    by (intros E; destruct (Hd _ Lx) as [Hx _]; rewrite E in Hx; done).
  assert (a ≠ b) by (intros ->; destruct (Hd b) as [Hx _]; [left|]; apply Hx; left).
  rewrite !elem_of_app. destruct Hpq as [[-> ->]|[-> ->]]; split_and!; auto.
Qed.

Lemma toggle_inside z :
  (z ∈ xs → z ≠ a ∧ z ≠ b) ∧ (z ∈ ys → z ≠ a ∧ z ≠ b) ∧
  (z ∈ nodes L → z ≠ a ∧ z ≠ b ∧ z ≠ p ∧ z ≠ q).
Proof using Hnd Hpq.
  destruct toggle_disjoint as (Hx & Hy & _ & Hdx & Hdy).
  destruct toggle_ends as (_ & _ & Ep & Eq).
  apply NoDup_cons in Hx as [Hx _]. apply NoDup_cons in Hy as [Hy _].
  setoid_rewrite elem_of_cons in Hdx. setoid_rewrite elem_of_cons in Hdy.
  rewrite elem_of_app, !elem_of_cons in Ep, Eq.
  split_and!; intros Hz; split_and!; intros ->; naive_solver.
Qed.

Lemma toggle_chains :
  chain h a xs → chain h b ys → Forall (λ r, ring h r.1 r.2) L →
  prv_of h a = Some p → prv_of h b = Some q →
  ∃ h', s_list_toggle_connect a b h = Some (tt, h') ∧ dom h' = dom h ∧
    chain h' a xs ∧ chain h' b ys ∧ link h' p b ∧ link h' q a ∧
    Forall (λ r, ring h' r.1 r.2) L.
Proof using Hnd Hpq.
  intros Ha Hb HL Hp Hq.
  destruct toggle_disjoint as (Hndx & Hndy & HndL & Hdx & Hdy).
  destruct toggle_ends as (Hne & Hab & Ep & Eq).
  pose proof (lst_elem a xs) as Lx. pose proof (lst_elem b ys) as Ly.
  pose proof (lst_dom _ _ _ Ha (prv_of_dom _ _ _ Hp)) as Dx.
  pose proof (lst_dom _ _ _ Hb (prv_of_dom _ _ _ Hq)) as Dy.
  destruct (toggle_run h a b p q) as (h' & Hrun & Hdom & Hn & Hv); [done..| | |];
    [by destruct Hpq as [[-> ->]|[-> ->]]..|].
  exists h'. split_and!; [done..| | | | |].
  - apply (chain_frame h); [done..| |]; intros z Hz; [intros Hzl; rewrite Hn|rewrite Hv].
    + assert (z ≠ lst b ys) by (intros ->; naive_solver).
      by destruct Hpq as [[-> ->]|[-> ->]]; rewrite !decide_False.
    + destruct (toggle_inside z) as (Hx & Hy & _). by rewrite !decide_False by tauto.
  - apply (chain_frame h); [done..| |]; intros z Hz; [intros Hzl; rewrite Hn|rewrite Hv].
    + assert (z ≠ lst a xs) by (intros ->; naive_solver).
      by destruct Hpq as [[-> ->]|[-> ->]]; rewrite !decide_False.
    + destruct (toggle_inside z) as (Hx & Hy & _). by rewrite !decide_False by tauto.
  - split; [by rewrite Hn, decide_False, decide_True|by rewrite Hv, decide_True].
  - split; [by rewrite Hn, decide_True|by rewrite Hv, decide_False, decide_True].
  - apply (Forall_ring_frame h); [done..|]. intros z Hz. rewrite Hn, Hv.
    destruct (toggle_inside z) as (_ & _ & Hin). destruct (Hin Hz) as (?&?&?&?).
    by rewrite !decide_False.
Qed.
End Toggle.

(** ** The operations on separated rings *)

(** Connecting two different rings appends the second to the first. *)
Lemma connect_rings h a b xs ys L :
  rings h ((a, xs) :: (b, ys) :: L) →
  ∃ h', s_list_connect a b h = Some (tt, h') ∧ dom h' = dom h ∧
    rings h' ((a, xs ++ b :: ys) :: L).
Proof.
  intros [Hnd Hf]. apply Forall_cons in Hf as [[Ha La] Hf].
  apply Forall_cons in Hf as [[Hb Lb] HL]; simpl in *.
  destruct (toggle_chains h a b (lst a xs) (lst b ys) xs ys L) as
    (h' & Hrun & Hdom & Ha' & Hb' & Hl1 & Hl2 & HL'); [tauto..|apply La|apply Lb|].
  exists h'. split_and!; [done..|]. split.
  - rewrite nodes_cons, <-app_assoc. done.
  - constructor; [|done]. simpl. by rewrite ring_app.
Qed.

(** Toggling two nodes of one ring cuts it in two. *)
Lemma disconnect_rings h a b xs ys L :
  rings h ((a, xs ++ b :: ys) :: L) →
  ∃ h', s_list_disconnect a b h = Some (tt, h') ∧ dom h' = dom h ∧
    rings h' ((a, xs) :: (b, ys) :: L).
Proof.
  intros [Hnd Hf]. apply Forall_cons in Hf as [Hr HL]; simpl in *.
  apply ring_app in Hr as (Ha & Lab & Hb & Lba).
  rewrite nodes_cons, <-app_assoc in Hnd.
  destruct (toggle_chains h a b (lst b ys) (lst a xs) xs ys L) as
    (h' & Hrun & Hdom & Ha' & Hb' & Hl1 & Hl2 & HL'); [tauto..|apply Lba|apply Lab|].
  exists h'. split_and!; [done..|]. split; [done|].
  constructor; [by split|constructor; [by split|done]].
Qed.

Lemma ring_next h a xs : ring h a xs → nxt_of h a = Some (default a (head xs)).
Proof. destruct xs as [|b xs]; intros [Hc Hl]; [apply Hl|apply Hc]. Qed.

Lemma get_next_rings h a xs L :
  rings h ((a, xs) :: L) → s_list_get_next a h = Some (default a (head xs), h).
Proof. intros [_ Hf]. apply get_next_run, (ring_next _ _ _ (Forall_inv Hf)). Qed.

Lemma get_next_rings_cons h a b xs L :
  rings h ((a, b :: xs) :: L) → s_list_get_next a h = Some (b, h).
Proof. apply get_next_rings. Qed.

(** Toggling a node with itself changes nothing. *)
Lemma toggle_self h a : ring h a [] → s_list_toggle_connect a a h = Some (tt, h).
Proof.
  intros [_ [Hn Hp]]. unfold lst, nxt_of, prv_of in Hn, Hp; simpl in Hn, Hp.
  destruct (h !! a) as [[n p]|] eqn:Ha; [|done]. simplify_eq/=.
  unfold s_list_toggle_connect, s_list_get_prev, s_list_set_next, s_list_set_prev,
    mbind, ST_bind.
  repeat (rewrite Ha || rewrite lookup_insert_eq || simpl).
  rewrite !insert_insert_eq, insert_id; done.
Qed.

(** Detaching a member takes it out and leaves it linked to itself. *)
Lemma detach_rings h a b xs ys L :
  rings h ((a, xs ++ b :: ys) :: L) →
  ∃ h', s_list_detach b h = Some (tt, h') ∧ dom h' = dom h ∧
    rings h' ((a, xs ++ ys) :: (b, []) :: L).
Proof.
  rewrite rings_rotate. intros Hr.
  assert (ring h b (ys ++ a :: xs)) as Hb by apply (Forall_inv (proj2 Hr)).
  pose proof (ring_next _ _ _ Hb) as Hn. unfold s_list_detach.
  st_step (get_next_run _ _ _ Hn).
  destruct ys as [|c ys]; simpl in *.
  - destruct (disconnect_rings h b a [] xs L Hr) as (h' & Hrun & Hdom & Hr').
    exists h'. split_and!; [done..|]. by rewrite app_nil_r, Permutation_swap.
  - destruct (disconnect_rings h b c [] (ys ++ a :: xs) L Hr) as (h' & Hrun & Hdom & Hr').
    exists h'. split_and!; [done..|].
    by rewrite rings_rotate, Permutation_swap.
Qed.

(** Detaching a node that is alone is a no-op. *)
Lemma detach_alone h a L :
  rings h ((a, []) :: L) → s_list_detach a h = Some (tt, h).
Proof.
  intros [_ Hf]. apply Forall_inv in Hf. unfold s_list_detach.
  st_step (get_next_run _ _ _ (ring_next _ _ _ Hf)). by apply toggle_self.
Qed.

Lemma is_empty_rings h a xs L :
  rings h ((a, xs) :: L) →
  s_list_is_empty a h = Some (bool_decide (xs = []), h).
Proof.
  intros [Hnd Hf]. apply Forall_inv in Hf. unfold s_list_is_empty.
  st_step (get_next_run _ _ _ (ring_next _ _ _ Hf)). unfold mret, ST_ret.
  do 2 f_equal. apply bool_decide_ext. destruct xs as [|b xs]; simpl; [done|].
  split; [intros ->|done]. rewrite nodes_cons, NoDup_cons in Hnd. set_solver.
Qed.

(** Initialising a fresh node adds a ring of one. *)
Lemma init_rings h a L :
  a ∈ dom h → a ∉ nodes L → rings h L →
  ∃ h', s_list_init a h = Some (tt, h') ∧ dom h' = dom h ∧ rings h' ((a, []) :: L).
Proof.
  intros Ha Hn [Hnd Hf].
  destruct (set_prev_run h a a) as (h1 & R1 & D1 & P1 & N1); [by apply elem_of_dom|].
  destruct (set_next_run h1 a a) as (h2 & R2 & D2 & N2 & P2);
    [apply elem_of_dom; by rewrite D1|].
  exists h2. split_and!; [by unfold s_list_init; st_step R1|by rewrite D2|].
  split; [by apply NoDup_cons|]. constructor.
  - split; [done|]. split; simpl.
    + by rewrite N2, decide_True.
    + by rewrite P2, P1, decide_True.
  - apply (Forall_ring_frame h); [done..|]. intros z Hz.
    rewrite N2, P2, N1, P1. rewrite !decide_False by (by intros ->). done.
Qed.

(** ** Stores made of rings only *)

(** The store holds the rings [L] and nothing else. *)
Definition store h L : Prop := rings h L ∧ dom h = list_to_set (nodes L).

#[global] Instance store_perm h : Proper ((≡ₚ) ==> iff) (store h).
Proof. intros L L' HL. unfold store. by rewrite HL. Qed.

Lemma store_step h h' L L' :
  store h L → dom h' = dom h → nodes L' ≡ₚ nodes L → rings h' L' → store h' L'.
Proof. intros [_ Hd] Hd' Hn Hr. split; [done|]. by rewrite Hd', Hd, Hn. Qed.

Lemma connect_store h a b xs ys L :
  store h ((a, xs) :: (b, ys) :: L) →
  ∃ h', s_list_attach a b h = Some (tt, h') ∧ store h' ((a, xs ++ b :: ys) :: L).
Proof.
  intros Hs. destruct (connect_rings _ _ _ _ _ _ (proj1 Hs)) as (h' & ? & ? & ?).
  exists h'. split; [done|]. eapply store_step; eauto.
  by rewrite !nodes_cons, <-app_assoc.
Qed.

Lemma detach_store h a b xs ys L :
  store h ((a, xs ++ b :: ys) :: L) →
  ∃ h', s_list_detach b h = Some (tt, h') ∧ store h' ((a, xs ++ ys) :: (b, []) :: L).
Proof.
  intros Hs. destruct (detach_rings _ _ _ _ _ _ (proj1 Hs)) as (h' & ? & ? & ?).
  exists h'. split; [done|]. eapply store_step; eauto.
  rewrite !nodes_cons. f_equiv. rewrite app_nil_l. solve_Permutation.
Qed.

Lemma detach_store_alone h a L :
  store h ((a, []) :: L) → s_list_detach a h = Some (tt, h).
Proof. intros [Hr _]. by eapply detach_alone. Qed.

Lemma is_empty_store h a xs L :
  store h ((a, xs) :: L) → s_list_is_empty a h = Some (bool_decide (xs = []), h).
Proof. intros [Hr _]. by eapply is_empty_rings. Qed.

(** Memory for a node appears with arbitrary contents [n] and goes away. *)
Definition alloc_node (x : A) (n : s_list_t) : ST heap unit := λ h,
  if bool_decide (x ∈ dom h) then None else Some (tt, <[x := n]> h).
Definition free_node (x : A) : ST heap unit := λ h,
  if bool_decide (x ∈ dom h) then Some (tt, delete x h) else None.

Lemma rings_frame h h' L :
  rings h L → (∀ z, z ∈ nodes L → h' !! z = h !! z) → rings h' L.
Proof.
  intros [Hnd Hf] Hz. split; [done|]. apply (Forall_ring_frame h); [done..|].
  intros z Hin. unfold nxt_of, prv_of. by rewrite Hz.
Qed.

Lemma alloc_rings h a n L :
  rings h L → a ∉ nodes L → rings (<[a := n]> h) L.
Proof.
  intros Hr Ha. eapply rings_frame; [done|]. intros z Hz.
  rewrite lookup_insert_ne; [done|by intros ->].
Qed.

(** Initialising nodes of fresh memory, one after the other. *)
Lemma init_store h a L U :
  rings h L → dom h = {[a]} ∪ U ∪ list_to_set (nodes L) → a ∉ nodes L → a ∉ U →
  ∃ h', s_list_init a h = Some (tt, h') ∧ rings h' ((a, []) :: L) ∧
    dom h' = U ∪ list_to_set (nodes ((a, []) :: L)).
Proof.
  intros Hr Hd Ha HU. destruct (init_rings h a L) as (h' & ? & Hd' & ?); [set_solver|done..|].
  exists h'. split_and!; [done..|]. rewrite Hd', Hd, nodes_cons. set_solver.
Qed.

Lemma free_store h a L :
  store h ((a, []) :: L) → free_node a h = Some (tt, delete a h) ∧ store (delete a h) L.
Proof.
  intros [Hr Hd]. assert (a ∉ nodes L) as Ha by (eapply rings_notin; [done|left]).
  rewrite nodes_cons in Hd. split.
  - unfold free_node. rewrite bool_decide_eq_true_2; [done|]. rewrite Hd. set_solver.
  - split; [|rewrite dom_delete_L, Hd; set_solver].
    destruct Hr as [Hnd Hf]. apply (rings_frame h).
    + split; [by apply NoDup_cons in Hnd as [_ ?]|by apply Forall_cons in Hf as [_ ?]].
    + intros z Hz. rewrite lookup_delete_ne; [done|by intros ->].
Qed.

Lemma ring_size_bound h a xs :
  NoDup (a :: xs) → ring h a xs → (length (a :: xs) ≤ size h)%nat.
Proof.
  intros Hnd Hr. rewrite <-size_dom, <-(size_list_to_set (C:=gset A)) by done.
  apply subseteq_size. intros z Hz. apply elem_of_list_to_set in Hz.
  by eapply ring_dom.
Qed.

Lemma size_loop_run h a ys c n fuel :
  chain h c ys → link h (lst c ys) a → a ∉ c :: ys →
  (length (c :: ys) < fuel)%nat → (n + Z.of_nat (length (c :: ys)) <= INT_MAX)%Z →
  s_list_size_loop fuel a c n h = Some (n + Z.of_nat (length (c :: ys)), h)%Z.
Proof.
  revert c n fuel. induction ys as [|d ys IH]; intros c n fuel Hc Hl Ha Hf Hn;
    (destruct fuel as [|fuel]; [simpl in Hf; lia|]); cbn [s_list_size_loop];
    rewrite bool_decide_eq_false_2 by set_solver; simpl length in *;
    rewrite (proj2 (Z.ltb_ge _ _)) by lia.
  - st_step (get_next_run _ _ _ (proj1 Hl)).
    destruct fuel as [|fuel]; [lia|]. cbn [s_list_size_loop].
    by rewrite bool_decide_eq_true_2.
  - destruct Hc as [Hcd Hc]. st_step (get_next_run _ _ _ (proj1 Hcd)).
    rewrite lst_cons in Hl. rewrite (IH d); [|done..|set_solver|simpl; lia|simpl; lia].
    do 2 f_equal. simpl. lia.
Qed.

Lemma size_run h a xs L :
  rings h ((a, xs) :: L) → (Z.of_nat (length xs) <= INT_MAX)%Z →
  s_list_size a h = Some (Z.of_nat (length xs), h).
Proof.
  intros [Hnd Hf] Hle. apply Forall_inv in Hf as Hr; simpl in Hr.
  assert (NoDup (a :: xs)) as Ha
    by (eapply (nodes_member_NoDup _ (a, xs)); [done|left]).
  pose proof (ring_size_bound _ _ _ Ha Hr) as Hb. unfold s_list_size.
  st_step (get_next_run _ _ _ (ring_next _ _ _ Hr)).
  destruct xs as [|b xs].
  - simpl. by rewrite bool_decide_eq_true_2.
  - destruct Hr as [[_ Hc] Hl]. rewrite lst_cons in Hl.
    apply NoDup_cons in Ha as [Ha _]. cbn [head default].
    change (default a (Some b)) with b.
    rewrite (size_loop_run h a xs b 0); [done..|simpl in *; lia|simpl in *; lia].
Qed.

(** A store of nodes is determined by its links. *)
Lemma heap_ext h h' :
  (∀ z, nxt_of h z = nxt_of h' z) → (∀ z, prv_of h z = prv_of h' z) → h = h'.
Proof.
  intros Hn Hp. apply map_eq. intros z. specialize (Hn z). specialize (Hp z).
  unfold nxt_of, prv_of in *.
  destruct (h !! z) as [[]|], (h' !! z) as [[]|]; simpl in *; congruence.
Qed.

(** Toggling twice restores the store, link for link. *)
Lemma toggle_twice h a b p q :
  prv_of h a = Some p → prv_of h b = Some q →
  nxt_of h p = Some a → nxt_of h q = Some b →
  ∃ h', s_list_toggle_connect a b h = Some (tt, h') ∧
        s_list_toggle_connect a b h' = Some (tt, h).
Proof.
  intros Ha Hb Hp Hq.
  pose proof (nxt_of_dom _ _ _ Hp) as Dp. pose proof (nxt_of_dom _ _ _ Hq) as Dq.
  destruct (toggle_run h a b p q) as (h1 & R1 & D1 & N1 & P1); [done..|].
  exists h1. split; [done|].
  destruct (toggle_run h1 a b q p) as (h2 & R2 & _ & N2 & P2).
  - rewrite P1. repeat case_decide; congruence.
  - rewrite P1. repeat case_decide; congruence.
  - by rewrite D1.
  - by rewrite D1.
  - rewrite R2. do 2 f_equal. apply heap_ext; intros z.
    + rewrite N2, N1. repeat case_decide; congruence.
    + rewrite P2, P1. repeat case_decide; congruence.
Qed.

End SList.

Arguments s_list_t : clear implicits.
Arguments mk_s_list {A} _ _.

(** ** Claims *)

(** C34. The circular list is a sequence: with the head's other members [xs],
    emptiness and size are those of [xs] (the loop of [s_list_size] ends),
    attaching a second ring appends it at the end of [xs], and detaching a
    member removes just this member and leaves it linked to itself; the other
    rings of the store keep their members. *)
Theorem list_is_a_sequence {A} `{Countable A} (h : gmap A (s_list_t A)) a xs L :
  rings h ((a, xs) :: L) →
  s_list_is_empty a h = Some (bool_decide (xs = []), h) ∧
  ((Z.of_nat (length xs) <= INT_MAX)%Z → s_list_size a h = Some (Z.of_nat (length xs), h)) ∧
  (∀ b ys L', L = (b, ys) :: L' →
    ∃ h', s_list_attach a b h = Some (tt, h') ∧ rings h' ((a, xs ++ b :: ys) :: L')) ∧
  (∀ xs1 b xs2, xs = xs1 ++ b :: xs2 →
    ∃ h', s_list_detach b h = Some (tt, h') ∧ rings h' ((a, xs1 ++ xs2) :: (b, []) :: L)).
Proof.
  intros Hr. split_and!.
  - by eapply is_empty_rings.
  - by eapply size_run.
  - intros b ys L' ->. destruct (connect_rings _ _ _ _ _ _ Hr) as (h' & ? & _ & ?). by exists h'.
  - intros xs1 b xs2 ->. destruct (detach_rings _ _ _ _ _ _ Hr) as (h' & ? & _ & ?). by exists h'.
Qed.

(** A store of three nodes: 2 is a member of the list 1, and 3 is alone. *)
Definition example_heap : gmap Z (s_list_t Z) :=
  {[ 1%Z := mk_s_list 2%Z 2%Z; 2%Z := mk_s_list 1%Z 1%Z; 3%Z := mk_s_list 3%Z 3%Z ]}.

Lemma example_rings : rings example_heap [(1, [2]); (3, [])]%Z.
Proof.
  split; [apply (bool_decide_unpack (NoDup [1; 2; 3]%Z)); vm_compute; exact I|].
  repeat constructor; vm_compute; reflexivity.
Qed.

Lemma list_is_a_sequence_witness :
  s_list_size 1%Z example_heap = Some (1%Z, example_heap) ∧
  ∃ h', s_list_attach 1%Z 3%Z example_heap = Some (tt, h') ∧ rings h' [(1, [2; 3])]%Z.
Proof.
  destruct (list_is_a_sequence example_heap 1 [2] [(3, [])] example_rings)%Z as (_ & Hs & Ha & _).
  split; [apply Hs; vm_compute; discriminate|apply (Ha 3%Z [] [] eq_refl)].
Defined.

(** Disconnecting two lists undoes connecting them: the store is the one
    before, link for link. *)
Theorem disconnect_undoes_connect {A} `{Countable A} (h : gmap A (s_list_t A)) a xs b ys L :
  rings h ((a, xs) :: (b, ys) :: L) →
  ∃ h', s_list_connect a b h = Some (tt, h') ∧ s_list_disconnect a b h' = Some (tt, h).
Proof.
  intros [_ Hf]. apply Forall_cons in Hf as [[_ [Ha Ha']] Hf].
  apply Forall_cons in Hf as [[_ [Hb Hb']] _]. by eapply toggle_twice.
Qed.

Lemma disconnect_undoes_connect_witness :
  ∃ h', s_list_connect 1%Z 3%Z example_heap = Some (tt, h') ∧
    s_list_disconnect 1%Z 3%Z h' = Some (tt, example_heap).
Proof. exact (disconnect_undoes_connect example_heap 1 [2] 3 [] [] example_rings)%Z. Defined.
