(* ===== verification/STask.v ===== *)
(** * Coroutines and wait events (s_task/s_task.c, s_task/s_event.c)

    The scheduler state over the list store of [SList], one definition per
    C function; functions that switch contexts return [Jumped], and the code
    after their [jump_fcontext] is [resume]. *)

From S2P Require Import Prelude SList.

(** ** Objects and the list nodes embedded in them *)

(** A pointer to an [s_task_t]: [g_globals.main_task] or the bottom of the
    [n]-th coroutine stack. *)
Inductive task_ptr : Type := main_task | Stack (n : nat).

(** A pointer to an [s_event_t]: the [join_event] of a task, or an event
    embedded in some other object (a timer, a stream, a bus call). *)
Inductive event_ptr : Type := join_event (t : task_ptr) | Event (n : nat).

(** A pointer to an [s_list_t], named by the object that embeds it. *)
Inductive lnode : Type :=
  | active_tasks | waiting_events | all_tasks
  | task_node (t : task_ptr)
  | wait_list (e : event_ptr) | self (e : event_ptr)
  | list_node (n : nat).

#[export] Instance task_ptr_eq : EqDecision task_ptr.
Proof. solve_decision. Defined.
#[export] Instance event_ptr_eq : EqDecision event_ptr.
Proof. solve_decision. Defined.
#[export] Instance lnode_eq : EqDecision lnode.
Proof. solve_decision. Defined.

#[export] Instance task_ptr_countable : Countable task_ptr.
Proof.
  refine (inj_countable' (λ t, match t with main_task => None | Stack n => Some n end)
    (λ o, match o with None => main_task | Some n => Stack n end) _).
  by intros [].
Defined.
#[export] Instance event_ptr_countable : Countable event_ptr.
Proof.
  refine (inj_countable' (λ e, match e with join_event t => inl t | Event n => inr n end)
    (λ o, match o with inl t => join_event t | inr n => Event n end) _).
  by intros [].
Defined.
#[export] Instance lnode_countable : Countable lnode.
Proof.
  refine (inj_countable'
    (λ x, match x with
          | active_tasks => inl 0 | waiting_events => inl 1 | all_tasks => inl 2
          | task_node t => inr (inl t)
          | wait_list e => inr (inr (inl e)) | self e => inr (inr (inr (inl e)))
          | list_node n => inr (inr (inr (inr n)))
          end)
    (λ o, match o with
          | inl 0 => active_tasks | inl 1 => waiting_events | inl _ => all_tasks
          | inr (inl t) => task_node t
          | inr (inr (inl e)) => wait_list e | inr (inr (inr (inl e))) => self e
          | inr (inr (inr (inr n))) => list_node n
          end) _).
  by intros [].
Defined.

(** ** State *)

(** What [fc], the saved context of a task, resumes. *)
Inductive fcontext : Type :=
  | FcRunning                (* in use, or overwritten *)
  | FcEntry                  (* made by create_fcontext, not started *)
  | FcWait                   (* in s_task_next, called by s_event_wait *)
  | FcYield                  (* in s_task_next, called by s_task_yield *)
  | FcMainLoop               (* in s_task_call_next, called by s_task_main_loop_once *)
  | FcExit.                  (* in the last s_task_next of s_task_context_entry *)

#[export] Instance fcontext_eq : EqDecision fcontext.
Proof. solve_decision. Defined.

Record s_task_t : Type := mk_task {
  task_entry : Z;
  task_arg : Z;
  waiting_event : option event_ptr;
  fc : fcontext;
  stack_size : Z;
  waiting_cancelled : bool;
  closed : bool;
}.

Definition set_waiting_event (e : option event_ptr) (t : s_task_t) : s_task_t :=
  mk_task (task_entry t) (task_arg t) e (fc t) (stack_size t) (waiting_cancelled t) (closed t).
Definition set_fc (c : fcontext) (t : s_task_t) : s_task_t :=
  mk_task (task_entry t) (task_arg t) (waiting_event t) c (stack_size t)
    (waiting_cancelled t) (closed t).
Definition set_waiting_cancelled (b : bool) (t : s_task_t) : s_task_t :=
  mk_task (task_entry t) (task_arg t) (waiting_event t) (fc t) (stack_size t) b (closed t).
Definition set_closed (b : bool) (t : s_task_t) : s_task_t :=
  mk_task (task_entry t) (task_arg t) (waiting_event t) (fc t) (stack_size t)
    (waiting_cancelled t) b.

(** [g_globals], with the tasks it reaches and the store of list nodes. *)
Record s_task_globals_t : Type := mk_globals {
  mem : gmap lnode (s_list_t lnode);
  tasks : gmap task_ptr s_task_t;
  current_task : task_ptr;
}.

Abbreviation SM := (ST s_task_globals_t).

(** Run a list operation on the store. *)
Definition on_mem {A} (m : ST (gmap lnode (s_list_t lnode)) A) : SM A := λ g,
  match m (mem g) with
  | Some (a, h) => Some (a, mk_globals h (tasks g) (current_task g))
  | None => None
  end.

(** [task->f = ...] and [g_globals.current_task = ...]. *)
Definition upd_task (t : task_ptr) (f : s_task_t → s_task_t) : SM unit := λ g,
  r ← tasks g !! t; Some (tt, mk_globals (mem g) (<[t := f r]> (tasks g)) (current_task g)).
Definition get_task (t : task_ptr) : SM s_task_t := gets (λ g, tasks g !! t).
Definition cur : SM task_ptr := gets (λ g, Some (current_task g)).
Definition set_cur (t : task_ptr) : SM unit := λ g, Some (tt, mk_globals (mem g) (tasks g) t).

(** [GET_PARENT_ADDR] for the two embeddings the scheduler walks. *)
Definition task_of_node (x : lnode) : SM task_ptr :=
  match x with task_node t => mret t | _ => fault end.
Definition event_of_self (x : lnode) : SM event_ptr :=
  match x with self e => mret e | _ => fault end.

(** ** s_task.c: switching *)

(** How a function that may switch contexts leaves: it returned to its
    caller, or it jumped and the new current task's context continues. *)
Inductive switch : Type := Returned | Jumped.

(** [k] is the point at which the old task will be resumed. *)
Definition s_task_call_next (k : fcontext) : SM switch :=
  empty ← on_mem (s_list_is_empty active_tasks);
  if empty : bool then mret Returned else
  old_task ← cur;
  nxt ← on_mem (s_list_get_next active_tasks);
  t ← task_of_node nxt;
  set_cur t;;
  on_mem (s_list_detach nxt);;
  if bool_decide (old_task ≠ t)
  then upd_task old_task (set_fc k);; mret Jumped
  else mret Returned.

Definition s_task_next (k : fcontext) : SM switch :=
  c ← cur;
  upd_task c (set_waiting_cancelled false);;
  s_task_call_next k.

(** One iteration of the loop of [s_task_main_loop_once]; [None] when the
    loop exits. *)
Definition s_task_main_loop_iter : SM (option switch) :=
  empty ← on_mem (s_list_is_empty active_tasks);
  if empty : bool then mret None else
  c ← cur;
  on_mem (s_list_attach active_tasks (task_node c));;
  s ← s_task_call_next FcMainLoop;
  mret (Some s).

Definition s_task_yield_begin : SM switch :=
  c ← cur;
  on_mem (s_list_attach active_tasks (task_node c));;
  s_task_next FcYield.

Definition s_task_yield_end : SM unit :=
  c ← cur; upd_task c (set_waiting_cancelled false).

(** ** s_event.c *)

Definition s_event_init (event : event_ptr) : SM unit :=
  on_mem (s_list_init (wait_list event));;
  on_mem (s_list_init (self event)).

Definition s_event_add_to_waiting_list (event : event_ptr) : SM unit :=
  empty ← on_mem (s_list_is_empty (wait_list event));
  if empty : bool then
    on_mem (s_list_detach (self event));;
    on_mem (s_list_attach waiting_events (self event))
  else mret tt.

Definition s_event_remove_from_waiting_list (event : event_ptr) : SM unit :=
  empty ← on_mem (s_list_is_empty (wait_list event));
  if empty : bool then on_mem (s_list_detach (self event)) else mret tt.

(** [s_event_wait] up to the switch. *)
Definition s_event_wait_begin (event : event_ptr) : SM switch :=
  s_event_add_to_waiting_list event;;
  c ← cur;
  on_mem (s_list_detach (task_node c));;
  on_mem (s_list_attach (wait_list event) (task_node c));;
  upd_task c (set_waiting_event (Some event));;
  s_task_next FcWait.

(** [s_event_wait] after the switch back: the value it returns. *)
Definition s_event_wait_end : SM Z :=
  c ← cur;
  r ← get_task c;
  upd_task c (set_waiting_cancelled false);;
  mret (if waiting_cancelled r then (-1)%Z else 0%Z).

Definition s_event_set (event : event_ptr) : SM unit :=
  on_mem (s_list_attach active_tasks (wait_list event));;
  on_mem (s_list_detach (wait_list event));;
  c ← cur;
  upd_task c (set_waiting_event None);;
  s_event_remove_from_waiting_list event.

(** ** s_task.c: task management *)

Definition s_task_init_system_ : SM unit :=
  on_mem (s_list_init active_tasks);;
  on_mem (s_list_init waiting_events);;
  on_mem (s_list_init (task_node main_task));;
  s_event_init (join_event main_task);;
  upd_task main_task (λ r, mk_task (task_entry r) (task_arg r) (waiting_event r) (fc r) 0
    false false);;
  set_cur main_task.

(** [stack] is freshly allocated: its fields, [task_entry] to [closed], are
    all written here. *)
Definition s_task_create (stack : task_ptr) (size entry arg : Z) : SM unit :=
  on_mem (s_list_init (task_node stack));;
  s_event_init (join_event stack);;
  upd_task stack (λ r, mk_task entry arg None (fc r) size false false);;
  on_mem (s_list_attach active_tasks (task_node stack));;
  upd_task stack (set_fc FcEntry).

Definition s_task_cancel_wait (stack : task_ptr) : SM unit :=
  upd_task stack (set_waiting_cancelled true);;
  on_mem (s_list_detach (task_node stack));;
  on_mem (s_list_attach active_tasks (task_node stack));;
  r ← get_task stack;
  c ← cur;
  upd_task c (set_waiting_event None);;
  match waiting_event r with
  | Some e => s_event_remove_from_waiting_list e
  | None => mret tt
  end.

(** The end of [s_task_context_entry], once the entry function returned. *)
Definition s_task_context_exit : SM switch :=
  task ← cur;
  upd_task task (set_closed true);;
  s_event_set (join_event task);;
  s_task_next FcExit.

Definition s_task_kill__remove (stack : task_ptr) : SM unit :=
  on_mem (s_list_detach (task_node stack)).

Definition s_task_get_current_stack : SM task_ptr := cur.

(** The inner loop of [s_event_cancel_dead_waiting_tasks_], over the tasks
    blocked on one event; [ret] is an [unsigned int]. *)
Fixpoint cancel_tasks_loop (fuel : nat) (event : event_ptr) (this_task : lnode) (ret : Z)
    : SM Z :=
  match fuel with
  | O => fault
  | S fuel =>
      if bool_decide (this_task = wait_list event) then mret ret else
      next_task ← on_mem (s_list_get_next this_task);
      task ← task_of_node this_task;
      s_task_cancel_wait task;;
      cancel_tasks_loop fuel event next_task (u32 (ret + 1))
  end.

(** Its outer loop, over the events somebody waits for. *)
Fixpoint cancel_events_loop (fuel : nat) (this_event : lnode) (ret : Z) : SM Z :=
  match fuel with
  | O => fault
  | S fuel' =>
      if bool_decide (this_event = waiting_events) then mret ret else
      next_event ← on_mem (s_list_get_next this_event);
      on_mem (s_list_detach this_event);;
      event ← event_of_self this_event;
      first ← on_mem (s_list_get_next (wait_list event));
      ret' ← cancel_tasks_loop fuel event first ret;
      cancel_events_loop fuel' next_event ret'
  end.

(** Every ring of the store has at most [size (mem g)] nodes. *)
Definition s_event_cancel_dead_waiting_tasks_ : SM Z := λ g,
  (first ← on_mem (s_list_get_next waiting_events);
   cancel_events_loop (S (size (mem g))) first 0) g.

Definition s_task_cancel_dead : SM Z := s_event_cancel_dead_waiting_tasks_.

(** ** Whole calls: a function up to its return, through the switches *)

(** What the code that runs next observes. *)
Inductive outcome : Type :=
  | Started (entry arg : Z)      (* a fresh task enters its entry function *)
  | WaitReturned (rc : Z)        (* s_event_wait returns rc *)
  | YieldReturned                (* s_task_yield returns *)
  | LoopReturned                 (* s_task_main_loop_once returns *)
  | CallReturned.                (* a function that does not switch returns *)

(** The context of a coroutine continues after a jump to it. A context that
    is in use, or whose entry function is over, cannot be resumed. *)
Definition resume_coroutine : SM outcome :=
  c ← cur;
  r ← get_task c;
  upd_task c (set_fc FcRunning);;
  match fc r with
  | FcEntry => mret (Started (task_entry r) (task_arg r))
  | FcWait => rc ← s_event_wait_end; mret (WaitReturned rc)
  | FcYield => s_task_yield_end;; mret YieldReturned
  | FcRunning | FcMainLoop | FcExit => fault
  end.

(** [s_task_main_loop_once] from the test of its loop; an iteration that
    does not switch goes round again. *)
Fixpoint s_task_main_loop (fuel : nat) : SM outcome :=
  match fuel with
  | O => fault
  | S fuel =>
      s ← s_task_main_loop_iter;
      match s with
      | None => mret LoopReturned
      | Some Jumped => resume_coroutine
      | Some Returned => s_task_main_loop fuel
      end
  end.

(** One iteration is enough when the caller is not queued itself: the head
    of the run queue is then another task, and the loop switches to it. *)
Definition s_task_main_loop_once : SM outcome := s_task_main_loop 2.

(** The context of any task continues after a jump to it. *)
Definition resume : SM outcome :=
  c ← cur;
  r ← get_task c;
  if bool_decide (fc r = FcMainLoop)
  then upd_task c (set_fc FcRunning);; s_task_main_loop_once
  else resume_coroutine.

Definition s_event_wait (event : event_ptr) : SM outcome :=
  s ← s_event_wait_begin event;
  match s with
  | Jumped => resume
  | Returned => rc ← s_event_wait_end; mret (WaitReturned rc)
  end.

Definition s_task_yield : SM outcome :=
  s ← s_task_yield_begin;
  match s with
  | Jumped => resume
  | Returned => s_task_yield_end;; mret YieldReturned
  end.

(** [s_task_join] from the test of its loop: [inl] is its result, otherwise
    it waits for the end of [stack]. *)
Definition s_task_join (stack : task_ptr) : SM (Z + outcome) :=
  task ← get_task stack;
  if closed task then mret (inl 0%Z)
  else o ← s_event_wait (join_event stack); mret (inr o).

(** [s_task_join] once its wait has returned [ret]. *)
Definition s_task_join_resumed (stack : task_ptr) (ret : Z) : SM (Z + outcome) :=
  if (ret =? 0)%Z then s_task_join stack else mret (inl ret).

(** The entry function of a task returned; coming back to a finished
    context has no meaning. *)
Definition s_task_context_entry_return : SM outcome :=
  s ← s_task_context_exit;
  match s with Jumped => resume | Returned => fault end.

(** ** Objects coming and going

    The memory an event or a task lives in is allocated by its owner (a
    structure, a coroutine stack) with arbitrary contents, initialised by the
    functions above, and goes away with the owner. *)

Definition new_event (junk : s_list_t lnode) (e : event_ptr) : SM unit :=
  on_mem (alloc_node (wait_list e) junk);;
  on_mem (alloc_node (self e) junk);;
  s_event_init e.

Definition free_event (e : event_ptr) : SM unit :=
  on_mem (free_node (wait_list e));;
  on_mem (free_node (self e)).

Definition alloc_task (t : task_ptr) (junk : s_task_t) : SM unit := λ g,
  if bool_decide (t ∈ dom (tasks g)) then None
  else Some (tt, mk_globals (mem g) (<[t := junk]> (tasks g)) (current_task g)).
Definition free_task_record (t : task_ptr) : SM unit := λ g,
  if bool_decide (t ∈ dom (tasks g))
  then Some (tt, mk_globals (mem g) (delete t (tasks g)) (current_task g)) else None.

Definition new_task (junk : s_list_t lnode) (junk_task : s_task_t) (t : task_ptr)
    (size entry arg : Z) : SM unit :=
  on_mem (alloc_node (task_node t) junk);;
  on_mem (alloc_node (wait_list (join_event t)) junk);;
  on_mem (alloc_node (self (join_event t)) junk);;
  alloc_task t junk_task;;
  s_task_create t size entry arg.

Definition free_task (t : task_ptr) : SM unit :=
  on_mem (free_node (task_node t));;
  free_event (join_event t);;
  free_task_record t.
