(* ===== verification/SchedSpec.v ===== *)
(** * The scheduler as queues

    An abstract machine in which the run queue, the queue of every event and
    the list of waited-for events are plain lists, and the refinement that
    the linked lists of s_task.c and s_event.c implement it. *)

From S2P Require Import Prelude SList STask.

(** ** Abstract state *)

Record astate : Type := mk_astate {
  runq : list task_ptr;                        (* g_globals.active_tasks *)
  waitq : gmap event_ptr (list task_ptr);      (* wait_list of every live event *)
  wevs : list event_ptr;                       (* g_globals.waiting_events *)
  idle : gset task_ptr;                        (* nodes that are on no list *)
  acur : task_ptr;
  ainfo : gmap task_ptr s_task_t;
}.

Abbreviation AM := (ST astate).

Definition a_runq (f : list task_ptr → list task_ptr) (a : astate) : astate :=
  mk_astate (f (runq a)) (waitq a) (wevs a) (idle a) (acur a) (ainfo a).
Definition a_waitq (f : gmap event_ptr (list task_ptr) → gmap event_ptr (list task_ptr))
    (a : astate) : astate :=
  mk_astate (runq a) (f (waitq a)) (wevs a) (idle a) (acur a) (ainfo a).
Definition a_wevs (f : list event_ptr → list event_ptr) (a : astate) : astate :=
  mk_astate (runq a) (waitq a) (f (wevs a)) (idle a) (acur a) (ainfo a).
Definition a_idle (f : gset task_ptr → gset task_ptr) (a : astate) : astate :=
  mk_astate (runq a) (waitq a) (wevs a) (f (idle a)) (acur a) (ainfo a).
Definition a_info (f : gmap task_ptr s_task_t → gmap task_ptr s_task_t)
    (a : astate) : astate :=
  mk_astate (runq a) (waitq a) (wevs a) (idle a) (acur a) (f (ainfo a)).

(** ** The rings that represent an abstract state *)

Definition erings (w : list event_ptr) (p : event_ptr * list task_ptr) :
    list (lnode * list lnode) :=
  (wait_list p.1, task_node <$> p.2) ::
  (if bool_decide (p.1 ∈ w) then [] else [(self p.1, [])]).

Definition events (w : list event_ptr) (m : gmap event_ptr (list task_ptr)) :
    list (lnode * list lnode) :=
  map_to_list m ≫= erings w.

Definition idles (i : gset task_ptr) : list (lnode * list lnode) :=
  (λ t, (task_node t, [])) <$> elements i.

Definition layout (a : astate) : list (lnode * list lnode) :=
  (active_tasks, task_node <$> runq a) ::
  (waiting_events, self <$> wevs a) ::
  events (wevs a) (waitq a) ++ idles (idle a).

(** Nodes that belong to the clients of the scheduler. *)
Definition foreign_node (x : lnode) : Prop :=
  match x with all_tasks | list_node _ => True | _ => False end.

(** [g] represents [a]; [F] are rings of the store the scheduler does not
    own. *)
Record sim (F : list (lnode * list lnode)) (g : s_task_globals_t) (a : astate) : Prop :=
  mk_sim {
    sim_store : store (mem g) (layout a ++ F);
    sim_foreign : Forall foreign_node (nodes F);
    sim_wevs : ∀ e, e ∈ wevs a → is_Some (waitq a !! e);
    sim_tasks : tasks g = ainfo a;
    sim_cur : current_task g = acur a;
  }.

(** [m] implements [f]: wherever [f] is defined, [m] runs without a fault,
    returns the same value and ends in a related state. *)
Class Refines {A} (m : SM A) (f : AM A) : Prop :=
  refines : ∀ F g a x a', sim F g a → f a = Some (x, a') →
    ∃ g', m g = Some (x, g') ∧ sim F g' a'.

#[export] Hint Mode Refines - ! - : typeclass_instances.

#[export] Instance refines_ret {A} (x : A) : Refines (mret x) (mret x).
Proof. intros F g a y a' Hs Hr. injection Hr as <- <-. by exists g. Qed.

#[export] Instance refines_bind {A B} (m : SM A) (f : AM A) (k : A → SM B) (k' : A → AM B) :
  Refines m f → (∀ x, Refines (k x) (k' x)) → Refines (m ≫= k) (f ≫= k').
Proof.
  intros Hm Hk F g a y a' Hs Hr. apply ST_bind_inv in Hr as (x & a1 & Hf & Hr).
  destruct (Hm F g a x a1 Hs Hf) as (g1 & Hg & Hs1). rewrite (ST_bind_run _ _ _ _ _ Hg).
  by eapply Hk.
Qed.

#[export] Instance refines_fault {A} (m : SM A) : Refines m fault.
Proof. by intros F g a x a' Hs. Qed.

#[export] Instance refines_if {A} (b : bool) (m n : SM A) (f h : AM A) :
  Refines m f → Refines n h → Refines (if b then m else n) (if b then f else h).
Proof. by destruct b. Qed.

(** ** Abstract primitives *)

Definition a_upd (t : task_ptr) (f : s_task_t → s_task_t) : AM unit := λ a,
  r ← ainfo a !! t; Some (tt, a_info <[t := f r]> a).
Definition a_get (t : task_ptr) : AM s_task_t := gets (λ a, ainfo a !! t).
Definition a_cur : AM task_ptr := gets (λ a, Some (acur a)).

#[export] Instance refines_upd t f : Refines (upd_task t f) (a_upd t f).
Proof.
  intros F g a x a' [Hr Hfo Hw Ht Hc] Hf. unfold a_upd in Hf. unfold upd_task. rewrite Ht.
  destruct (ainfo a !! t) as [r|]; [|done]. simpl in *. simplify_eq.
  eexists; split; [done|]. split; simpl; congruence || done.
Qed.

#[export] Instance refines_get t : Refines (get_task t) (a_get t).
Proof.
  intros F g a x a' [Hr Hfo Hw Ht Hc] Hf. unfold a_get, get_task, gets in *. rewrite Ht.
  destruct (ainfo a !! t) as [r|]; [|done]. simplify_eq. by eexists.
Qed.

#[export] Instance refines_cur : Refines cur a_cur.
Proof.
  intros F g a x a' [Hr Hfo Hw Ht Hc] Hf. unfold a_cur, cur, gets in *. simplify_eq.
  by exists g; rewrite Hc.
Qed.

(** ** Manipulating layouts *)

Lemma events_delete w m e ws :
  m !! e = Some ws → events w m ≡ₚ erings w (e, ws) ++ events w (delete e m).
Proof. intros Hm. unfold events. by rewrite <-(map_to_list_delete m e ws Hm). Qed.

Lemma events_insert w m e ws :
  events w (<[e := ws]> m) ≡ₚ erings w (e, ws) ++ events w (delete e m).
Proof.
  rewrite (events_delete _ _ e ws) by apply lookup_insert_eq.
  by rewrite delete_insert_eq.
Qed.

Lemma events_wevs w w' m :
  (∀ e, is_Some (m !! e) → e ∈ w ↔ e ∈ w') → events w m = events w' m.
Proof.
  intros Hw. unfold events. apply Forall_bind_ext, Forall_forall.
  intros [e ws] He. apply elem_of_map_to_list in He. unfold erings; simpl.
  by rewrite (bool_decide_ext (e ∈ w) (e ∈ w')) by eauto.
Qed.

Lemma idles_add i t : t ∉ i → idles ({[t]} ∪ i) ≡ₚ (task_node t, []) :: idles i.
Proof. intros Ht. unfold idles. by rewrite elements_union_singleton. Qed.

Lemma idles_remove i t : t ∈ i → idles i ≡ₚ (task_node t, []) :: idles (i ∖ {[t]}).
Proof.
  intros Ht. rewrite <-idles_add by set_solver. f_equiv. by apply union_difference_L; set_solver.
Qed.

Lemma elem_of_idles_nodes i t L L' :
  t ∈ i → task_node t ∈ nodes (L ++ idles i ++ L').
Proof.
  intros Ht. apply elem_of_nodes. exists (task_node t, []). simpl. split; [|left].
  rewrite !elem_of_app. right; left. unfold idles. apply list_elem_of_fmap.
  exists t. by rewrite elem_of_elements.
Qed.

Lemma on_mem_run {A} (m : ST (gmap lnode (s_list_t lnode)) A) g x h :
  m (mem g) = Some (x, h) →
  on_mem m g = Some (x, mk_globals h (tasks g) (current_task g)).
Proof. intros Hm. unfold on_mem. by rewrite Hm. Qed.

Lemma cur_bind {A} (k : task_ptr → SM A) g : (cur ≫= k) g = k (current_task g) g.
Proof. done. Qed.

Lemma set_cur_bind {A} t (k : unit → SM A) g :
  (set_cur t ≫= k) g = k tt (mk_globals (mem g) (tasks g) t).
Proof. done. Qed.

Lemma upd_task_run t f g r :
  tasks g !! t = Some r →
  upd_task t f g = Some (tt, mk_globals (mem g) (<[t := f r]> (tasks g)) (current_task g)).
Proof. intros Ht. unfold upd_task. by rewrite Ht. Qed.

(** Execute one list operation of the program. *)
Ltac sm_mem H :=
  match goal with
  | |- context [mbind ?k (on_mem ?m) ?g] =>
      rewrite (ST_bind_run (on_mem m) k g _ _ (on_mem_run m g _ _ H))
  end; cbn [mem tasks current_task].
Ltac sm_upd H :=
  match goal with
  | |- context [mbind ?k (upd_task ?t ?f) ?g] =>
      rewrite (ST_bind_run (upd_task t f) k g _ _ (upd_task_run t f g _ H))
  end; cbn [mem tasks current_task].
Ltac sm_cur := rewrite ?cur_bind, ?set_cur_bind; cbn [mem tasks current_task].

(** [s_task_call_next]: the head of the run queue becomes current. *)
Definition a_call_next (k : fcontext) : AM switch := λ a,
  match runq a with
  | [] => Some (Returned, a)
  | t :: q =>
      let a' i := mk_astate q (waitq a) (wevs a) ({[t]} ∪ idle a) t i in
      if bool_decide (acur a ≠ t)
      then r ← ainfo a !! acur a; Some (Jumped, a' (<[acur a := set_fc k r]> (ainfo a)))
      else Some (Returned, a' (ainfo a))
  end.

(** The layout seen from the run queue, from one event, from one idle task. *)
Lemma layout_event a e ws :
  waitq a !! e = Some ws →
  layout a ≡ₚ (wait_list e, task_node <$> ws) :: (active_tasks, task_node <$> runq a) ::
    (waiting_events, self <$> wevs a) ::
    (if bool_decide (e ∈ wevs a) then [] else [(self e, [])]) ++
    events (wevs a) (delete e (waitq a)) ++ idles (idle a).
Proof.
  intros He. unfold layout. rewrite (events_delete _ _ _ _ He). unfold erings; simpl.
  solve_Permutation.
Qed.

Lemma layout_idle a t :
  t ∈ idle a →
  layout a ≡ₚ (task_node t, []) :: (active_tasks, task_node <$> runq a) ::
    (waiting_events, self <$> wevs a) ::
    events (wevs a) (waitq a) ++ idles (idle a ∖ {[t]}).
Proof.
  intros Ht. unfold layout. rewrite (idles_remove _ _ Ht). solve_Permutation.
Qed.

(** Reduce projections of states only. *)
Ltac proj :=
  cbn [mem tasks current_task runq waitq wevs idle acur ainfo
       a_idle a_runq a_waitq a_info a_wevs] in *.

(** Use a permutation of the current layout. *)
Ltac use_perm H L' HP :=
  assert (store _ L') as HP by (refine (proj1 (store_perm _ _ _ _) H); solve_Permutation).

(** Close a goal on a permuted layout. *)
Ltac by_perm H := refine (proj1 (store_perm _ _ _ _) H); solve_Permutation.

#[export] Instance refines_call_next k : Refines (s_task_call_next k) (a_call_next k).
Proof.
  intros F [h ts c] a x a' [Hr Hfo Hw Ht Hc] Hf; proj; subst ts c.
  unfold a_call_next in Hf. unfold s_task_call_next.
  unfold layout in Hr. cbn [app] in Hr.
  sm_mem (is_empty_store _ _ _ _ Hr).
  destruct (runq a) as [|t q] eqn:Hq; rewrite ?fmap_nil, ?fmap_cons in *.
  { rewrite bool_decide_eq_true_2 by done. simplify_eq. eexists; split; [done|].
    split; [|done..]. unfold layout. by rewrite Hq. }
  rewrite bool_decide_eq_false_2 by done. sm_cur.
  destruct (detach_store _ _ _ [] _ _ Hr) as (h' & Hd & Hr').
  sm_mem (get_next_rings_cons _ _ _ _ _ (proj1 Hr)).
  cbn [task_of_node]. rewrite ST_ret_bind. sm_cur.
  sm_mem Hd.
  assert (t ∉ idle a) as Hti.
  { intros Hti. eapply rings_notin; [exact (proj1 Hr)|right; left|].
    rewrite <-app_assoc. apply (elem_of_idles_nodes _ _ ((_, _) :: events _ _) F Hti). }
  assert (∀ i, store h' (layout (mk_astate q (waitq a) (wevs a) ({[t]} ∪ idle a) t i) ++ F)) as Hl.
  { intros i. unfold layout; simpl. rewrite idles_add by done.
    eapply store_perm; [|exact Hr']. simpl. f_equiv. solve_Permutation. }
  case_bool_decide as Hne.
  - destruct (ainfo a !! acur a) as [r|] eqn:Hi; simpl in Hf; [|done]. simplify_eq.
    sm_upd Hi. eexists; split; [done|]. by split.
  - simplify_eq. eexists; split; [done|]. by split.
Qed.

(** [s_list_attach(&g_globals.active_tasks, &t->node)] for a task on no list. *)
Definition a_attach_active (t : task_ptr) : AM unit := λ a,
  if bool_decide (t ∈ idle a)
  then Some (tt, a_idle (λ i, i ∖ {[t]}) (a_runq (λ q, q ++ [t]) a)) else None.

#[export] Instance refines_attach_active t :
  Refines (on_mem (s_list_attach active_tasks (task_node t))) (a_attach_active t).
Proof.
  intros F [h ts c] a x a' [Hr Hfo Hw Ht Hc] Hf; proj; subst ts c.
  unfold a_attach_active in Hf. case_bool_decide as Hi; [|done]. simplify_eq.
  rewrite (layout_idle _ _ Hi), Permutation_swap in Hr. simpl in Hr.
  destruct (connect_store _ _ _ _ _ _ Hr) as (h' & Hrun & Hr').
  eexists. split; [by apply on_mem_run|]. split; proj; [|done..].
  unfold layout; proj. by rewrite fmap_app.
Qed.

(** [s_list_attach(&e->wait_list, &t->node)] for a task on no list. *)
Definition a_attach_wait (e : event_ptr) (t : task_ptr) : AM unit := λ a,
  ws ← waitq a !! e;
  if bool_decide (t ∈ idle a)
  then Some (tt, a_idle (λ i, i ∖ {[t]}) (a_waitq <[e := ws ++ [t]]> a)) else None.

Lemma sim_wevs_insert a e ws :
  (∀ e', e' ∈ wevs a → is_Some (waitq a !! e')) →
  ∀ e', e' ∈ wevs a → is_Some (<[e := ws]> (waitq a) !! e').
Proof. intros Hw e' He. rewrite lookup_insert. case_decide; eauto. Qed.

#[export] Instance refines_attach_wait e t :
  Refines (on_mem (s_list_attach (wait_list e) (task_node t))) (a_attach_wait e t).
Proof.
  intros F [h ts c] a x a' [Hr Hfo Hw Ht Hc] Hf; proj; subst ts c.
  unfold a_attach_wait in Hf. destruct (waitq a !! e) as [ws|] eqn:He; [|done]; simpl in Hf.
  case_bool_decide as Hi; [|done]. simplify_eq.
  rewrite (layout_event _ _ _ He), (idles_remove _ _ Hi) in Hr. simpl in Hr.
  use_perm Hr ((wait_list e, task_node <$> ws) :: (task_node t, []) ::
    (active_tasks, task_node <$> runq a) :: (waiting_events, self <$> wevs a) ::
    (if bool_decide (e ∈ wevs a) then [] else [(self e, [])]) ++
    events (wevs a) (delete e (waitq a)) ++ idles (idle a ∖ {[t]}) ++ F) Hr'.
  destruct (connect_store _ _ _ _ _ _ Hr') as (h' & Hrun & Hr'').
  eexists. split; [by apply on_mem_run|]. split; proj; [|done| |done..].
  - rewrite (layout_event _ e (ws ++ [t])) by apply lookup_insert_eq. proj.
    rewrite delete_insert_eq, fmap_app. by_perm Hr''.
  - by apply sim_wevs_insert.
Qed.

(** ** Where a task is *)

Lemma in_runq_nodes t q L : t ∈ q → task_node t ∈ nodes ((active_tasks, task_node <$> q) :: L).
Proof.
  intros Ht. rewrite nodes_cons, elem_of_cons, elem_of_app. right; left.
  by apply list_elem_of_fmap_2.
Qed.

Lemma in_events_nodes t e ws w m :
  m !! e = Some ws → t ∈ ws → task_node t ∈ nodes (events w m).
Proof.
  intros He Ht. apply elem_of_nodes. exists (wait_list e, task_node <$> ws). split.
  - apply list_elem_of_bind. exists (e, ws). split; [left|by apply elem_of_map_to_list].
  - right. simpl. by apply list_elem_of_fmap_2.
Qed.

Lemma in_idles_nodes t i : t ∈ i → task_node t ∈ nodes (idles i).
Proof.
  intros Ht. pose proof (elem_of_idles_nodes i t [] [] Ht) as Hx.
  by rewrite app_nil_l, app_nil_r in Hx.
Qed.

(** Find a node of a part of the layout in the whole. *)
Ltac in_nodes H :=
  refine (elem_of_nodes_incl _ _ _ H _); intros ?;
  repeat rewrite ?elem_of_cons, ?elem_of_app; tauto.

(** A task is on at most one of the lists. *)
Record only_at (t : task_ptr) (a : astate) (q : bool) (e : option event_ptr) (i : bool) : Prop := {
  oa_runq : q = false → t ∉ runq a;
  oa_wait : ∀ e' ws, waitq a !! e' = Some ws → e ≠ Some e' → t ∉ ws;
  oa_idle : i = false → t ∉ idle a;
}.

Lemma idle_only_at h F a t :
  store h (layout a ++ F) → t ∈ idle a → only_at t a false None true.
Proof.
  intros [Hr _] Hi. rewrite (layout_idle _ _ Hi) in Hr.
  pose proof (rings_notin _ _ _ _ (task_node t) Hr ltac:(left)) as Hn.
  split; [| |done].
  - intros _ Hq. apply Hn. by apply in_runq_nodes.
  - intros e ws He _ Hws. apply Hn. in_nodes (in_events_nodes _ _ _ (wevs a) _ He Hws).
Qed.

Lemma runq_only_at h F a t l1 l2 :
  store h (layout a ++ F) → runq a = l1 ++ t :: l2 →
  (t ∉ l1) ∧ (t ∉ l2) ∧ only_at t a true None false.
Proof.
  intros [Hr _] Hq. unfold layout in Hr. rewrite Hq, fmap_app in Hr. cbn [app] in Hr.
  pose proof (rings_notin _ _ _ _ (task_node t) Hr ltac:(set_solver)) as Hn.
  destruct Hr as [Hnd _]. rewrite nodes_cons in Hnd.
  apply NoDup_cons in Hnd as [_ Hnd]. apply NoDup_app in Hnd as (Hnd & _ & _).
  apply (NoDup_app (task_node <$> l1)) in Hnd as (_ & Hd & Hnd).
  rewrite fmap_cons in Hd, Hnd. apply NoDup_cons in Hnd as [Hnd _].
  split_and!; [| |split; [done| |]].
  - intros Hin. apply (Hd (task_node t)); [by apply list_elem_of_fmap_2|left].
  - intros Hin. apply Hnd. by apply list_elem_of_fmap_2.
  - intros e ws He _ Hws. apply Hn. in_nodes (in_events_nodes _ _ _ (wevs a) _ He Hws).
  - intros _ Hi. apply Hn. in_nodes (in_idles_nodes _ _ Hi).
Qed.

Lemma wait_only_at h F a e t l1 l2 :
  store h (layout a ++ F) → waitq a !! e = Some (l1 ++ t :: l2) →
  (t ∉ l1) ∧ (t ∉ l2) ∧ only_at t a false (Some e) false.
Proof.
  intros [Hr _] He. rewrite (layout_event _ _ _ He) in Hr. rewrite fmap_app in Hr.
  pose proof (rings_notin _ _ _ _ (task_node t) Hr ltac:(set_solver)) as Hn.
  destruct Hr as [Hnd _]. cbn [app] in Hnd. rewrite nodes_cons in Hnd.
  apply NoDup_cons in Hnd as [_ Hnd]. apply NoDup_app in Hnd as (Hnd & _ & _).
  apply (NoDup_app (task_node <$> l1)) in Hnd as (_ & Hd & Hnd).
  rewrite fmap_cons in Hd, Hnd. apply NoDup_cons in Hnd as [Hnd _].
  split_and!; [| |split].
  - intros Hin. apply (Hd (task_node t)); [by apply list_elem_of_fmap_2|left].
  - intros Hin. apply Hnd. by apply list_elem_of_fmap_2.
  - intros _ Hq. apply Hn. by apply in_runq_nodes.
  - intros e' ws He' Hne Hws. apply Hn.
    pose proof (in_events_nodes t e' ws (wevs a) (delete e (waitq a))) as Hx.
    rewrite lookup_delete_ne in Hx by congruence. in_nodes (Hx He' Hws).
  - intros _ Hi. apply Hn. in_nodes (in_idles_nodes _ _ Hi).
Qed.

Definition known (t : task_ptr) (a : astate) : Prop :=
  t ∈ idle a ∨ t ∈ runq a ∨ map_Exists (λ _ ws, t ∈ ws) (waitq a).

#[export] Instance known_dec t a : Decision (known t a).
Proof. apply _. Defined.

(** [s_list_detach(&t->node)]: off whatever list it is on. *)
Definition a_detach (t : task_ptr) : AM unit := λ a,
  if bool_decide (known t a) then
    Some (tt, mk_astate (remove t (runq a)) (remove t <$> waitq a) (wevs a)
      ({[t]} ∪ idle a) (acur a) (ainfo a))
  else None.

Lemma remove_waitq_none t a e :
  (∀ e' ws, waitq a !! e' = Some ws → e ≠ Some e' → t ∉ ws) → e = None →
  remove t <$> waitq a = waitq a.
Proof.
  intros Hn ->. apply map_eq. intros e'. rewrite lookup_fmap.
  destruct (waitq a !! e') as [ws|] eqn:He; [|done]. simpl. f_equal.
  by apply remove_notin, (Hn e').
Qed.

Lemma remove_waitq_some t a e l1 l2 :
  (∀ e' ws, waitq a !! e' = Some ws → Some e ≠ Some e' → t ∉ ws) →
  waitq a !! e = Some (l1 ++ t :: l2) → t ∉ l1 → t ∉ l2 →
  remove t <$> waitq a = <[e := l1 ++ l2]> (waitq a).
Proof.
  intros Hn He H1 H2. apply map_eq. intros e'. rewrite lookup_fmap, lookup_insert.
  case_decide as Hee; [subst e'; rewrite He; simpl; by rewrite remove_middle|].
  destruct (waitq a !! e') as [ws|] eqn:He'; [|done]. simpl. f_equal.
  apply remove_notin, (Hn e'); congruence.
Qed.

#[export] Instance refines_detach t :
  Refines (on_mem (s_list_detach (task_node t))) (a_detach t).
Proof.
  intros F [h ts c] a x a' [Hr Hfo Hw Ht Hc] Hf; proj; subst ts c.
  unfold a_detach in Hf. case_bool_decide as Hk; [|done]. simplify_eq.
  destruct Hk as [Hi|[Hq|(e & ws & He & Hws)]].
  - destruct (idle_only_at _ _ _ _ Hr Hi) as [Oq Ow _].
    rewrite (remove_notin t (runq a)), (remove_waitq_none _ _ None) by eauto.
    assert ({[t]} ∪ idle a = idle a) as -> by set_solver.
    pose proof Hr as Hr0. rewrite (layout_idle _ _ Hi) in Hr. cbn [app] in Hr.
    eexists. split; [by eapply on_mem_run, detach_store_alone|]. by split; destruct a.
  - apply list_elem_of_split in Hq as (l1 & l2 & Hq).
    destruct (runq_only_at _ _ _ _ _ _ Hr Hq) as (H1 & H2 & [_ Ow Oi]).
    rewrite Hq, remove_middle, (remove_waitq_none _ _ None) by eauto.
    unfold layout in Hr. rewrite Hq, fmap_app in Hr. cbn [app] in Hr.
    destruct (detach_store _ _ _ _ _ _ Hr) as (h' & Hrun & Hr').
    eexists. split; [by apply on_mem_run|]. split; proj; [|done..].
    unfold layout; proj. rewrite idles_add by auto. rewrite fmap_app. by_perm Hr'.
  - apply list_elem_of_split in Hws as (l1 & l2 & ->).
    destruct (wait_only_at _ _ _ _ _ _ _ Hr He) as (H1 & H2 & [Oq Ow Oi]).
    rewrite (remove_notin t (runq a)), (remove_waitq_some _ _ e l1 l2) by eauto.
    rewrite (layout_event _ _ _ He), fmap_app in Hr. cbn [app] in Hr.
    destruct (detach_store _ _ _ _ _ _ Hr) as (h' & Hrun & Hr').
    eexists. split; [by apply on_mem_run|]. split; proj; [|done| |done..].
    + rewrite (layout_event _ e (l1 ++ l2)) by apply lookup_insert_eq. proj.
      rewrite delete_insert_eq, idles_add by auto. rewrite fmap_app. by_perm Hr'.
    + by apply sim_wevs_insert.
Qed.

(** ** Events *)

Definition a_event_empty (e : event_ptr) : AM bool :=
  gets (λ a, ws ← waitq a !! e; Some (bool_decide (ws = []))).

#[export] Instance refines_event_empty e :
  Refines (on_mem (s_list_is_empty (wait_list e))) (a_event_empty e).
Proof.
  intros F [h ts c] a x a' [Hr Hfo Hw Ht Hc] Hf; proj; subst ts c.
  unfold a_event_empty, gets in Hf. destruct (waitq a !! e) as [ws|] eqn:He; [|done].
  simpl in Hf. simplify_eq. pose proof Hr as Hr0.
  rewrite (layout_event _ _ _ He) in Hr. cbn [app] in Hr.
  exists (mk_globals h (ainfo a') (acur a')). split; [|by split].
  apply on_mem_run; proj. rewrite (is_empty_store _ _ _ _ Hr). do 2 f_equal.
  apply bool_decide_ext. by destruct ws.
Qed.

(** [s_list_detach(&e->self)] and [s_list_attach(&g_globals.waiting_events, &e->self)]. *)
Definition a_detach_self (e : event_ptr) : AM unit := λ a,
  ws ← waitq a !! e; Some (tt, a_wevs (remove e) a).
Definition a_attach_self (e : event_ptr) : AM unit := λ a,
  ws ← waitq a !! e;
  if bool_decide (e ∈ wevs a) then None else Some (tt, a_wevs (λ w, w ++ [e]) a).

Lemma events_wevs_delete w w' m e :
  (∀ e', e' ≠ e → e' ∈ w ↔ e' ∈ w') → events w (delete e m) = events w' (delete e m).
Proof.
  intros Hw. apply events_wevs. intros e' [ws He']. apply Hw.
  intros ->. by rewrite lookup_delete_eq in He'.
Qed.

(** An event is at most once on the list of waited-for events. *)
Lemma wevs_split h F a e :
  store h (layout a ++ F) → e ∈ wevs a →
  ∃ l1 l2, wevs a = l1 ++ e :: l2 ∧ (e ∉ l1) ∧ e ∉ l2.
Proof.
  intros [[Hnd _] _] He. apply list_elem_of_split in He as (l1 & l2 & He).
  exists l1, l2. split; [done|]. unfold layout in Hnd.
  rewrite He, Permutation_swap, fmap_app in Hnd. cbn [app] in Hnd. rewrite nodes_cons in Hnd.
  apply NoDup_cons in Hnd as [_ Hnd]. apply NoDup_app in Hnd as (Hnd & _ & _).
  apply (NoDup_app (self <$> l1)) in Hnd as (_ & Hd & Hnd).
  rewrite fmap_cons in Hd, Hnd. apply NoDup_cons in Hnd as [Hnd _]. split.
  - intros Hin. apply (Hd (self e)); [by apply list_elem_of_fmap_2|left].
  - intros Hin. apply Hnd. by apply list_elem_of_fmap_2.
Qed.

#[export] Instance refines_detach_self e :
  Refines (on_mem (s_list_detach (self e))) (a_detach_self e).
Proof.
  intros F [h ts c] a x a' [Hr Hfo Hw Ht Hc] Hf; proj; subst ts c.
  unfold a_detach_self in Hf. destruct (waitq a !! e) as [ws|] eqn:He; [|done].
  simpl in Hf. simplify_eq. destruct (decide (e ∈ wevs a)) as [Hin|Hin].
  - destruct (wevs_split _ _ _ _ Hr Hin) as (l1 & l2 & Hl & H1 & H2).
    rewrite (layout_event _ _ _ He), (bool_decide_eq_true_2 _ Hin), Hl, fmap_app in Hr.
    cbn [app] in Hr.
    use_perm Hr ((waiting_events, (self <$> l1) ++ self e :: (self <$> l2)) ::
      (wait_list e, task_node <$> ws) :: (active_tasks, task_node <$> runq a) ::
      events (l1 ++ e :: l2) (delete e (waitq a)) ++ idles (idle a) ++ F) Hr'.
    destruct (detach_store _ _ _ _ _ _ Hr') as (h' & Hrun & Hr'').
    eexists. split; [by apply on_mem_run|]. split; proj; [|done| |done..].
    + rewrite (layout_event _ e ws) by done. proj. rewrite Hl, remove_middle by done.
      rewrite bool_decide_eq_false_2 by set_solver.
      rewrite (events_wevs_delete (l1 ++ l2) (l1 ++ e :: l2)) by set_solver.
      rewrite fmap_app. by_perm Hr''.
    + intros e' He'. apply elem_of_remove in He' as [??]. auto.
  - assert (a_wevs (remove e) a = a) as ->.
    { unfold a_wevs. rewrite remove_notin by done. by destruct a. }
    pose proof Hr as Hr0.
    rewrite (layout_event _ _ _ He), bool_decide_eq_false_2 in Hr by done. cbn [app] in Hr.
    eexists. split.
    + eapply on_mem_run, (detach_store_alone _ _ ((wait_list e, task_node <$> ws) ::
        (active_tasks, task_node <$> runq a) :: (waiting_events, self <$> wevs a) ::
        events (wevs a) (delete e (waitq a)) ++ idles (idle a) ++ F)). by_perm Hr.
    + by split.
Qed.

#[export] Instance refines_attach_self e :
  Refines (on_mem (s_list_attach waiting_events (self e))) (a_attach_self e).
Proof.
  intros F [h ts c] a x a' [Hr Hfo Hw Ht Hc] Hf; proj; subst ts c.
  unfold a_attach_self in Hf. destruct (waitq a !! e) as [ws|] eqn:He; [|done].
  simpl in Hf. case_bool_decide as Hin; [done|]. simplify_eq.
  rewrite (layout_event _ _ _ He), bool_decide_eq_false_2 in Hr by done. cbn [app] in Hr.
  use_perm Hr ((waiting_events, self <$> wevs a) :: (self e, []) ::
    (wait_list e, task_node <$> ws) :: (active_tasks, task_node <$> runq a) ::
    events (wevs a) (delete e (waitq a)) ++ idles (idle a) ++ F) Hr'.
  destruct (connect_store _ _ _ _ _ _ Hr') as (h' & Hrun & Hr'').
  eexists. split; [by apply on_mem_run|]. split; proj; [|done| |done..].
  - rewrite (layout_event _ e ws) by done. proj.
    rewrite bool_decide_eq_true_2 by set_solver.
    rewrite (events_wevs_delete (wevs a ++ [e]) (wevs a)) by set_solver.
    rewrite fmap_app. by_perm Hr''.
  - intros e' He'. apply elem_of_app in He' as [?|He']; [auto|].
    apply list_elem_of_singleton in He' as ->. eauto.
Qed.

(** The splice of [s_event_set]: the whole wait queue, in order, goes to the
    end of the run queue. *)
Definition a_wake (e : event_ptr) : AM unit := λ a,
  ws ← waitq a !! e; Some (tt, a_waitq <[e := []]> (a_runq (λ q, q ++ ws) a)).

#[export] Instance refines_wake e :
  Refines (on_mem (s_list_attach active_tasks (wait_list e));;
           on_mem (s_list_detach (wait_list e))) (a_wake e).
Proof.
  intros F [h ts c] a x a' [Hr Hfo Hw Ht Hc] Hf; proj; subst ts c.
  unfold a_wake in Hf. destruct (waitq a !! e) as [ws|] eqn:He; [|done].
  simpl in Hf. simplify_eq.
  rewrite (layout_event _ _ _ He), Permutation_swap in Hr. cbn [app] in Hr.
  destruct (connect_store _ _ _ _ _ _ Hr) as (h' & Hrun & Hr'). sm_mem Hrun.
  destruct (detach_store _ _ _ _ _ _ Hr') as (h'' & Hrun' & Hr'').
  eexists. split; [by apply on_mem_run|]. split; proj; [|done| |done..].
  - rewrite (layout_event _ e []) by apply lookup_insert_eq. proj.
    rewrite delete_insert_eq, fmap_app. by_perm Hr''.
  - by apply sim_wevs_insert.
Qed.

(** Two statements implemented by one abstract step. *)
Lemma refines_seq2 {A B C} (m : SM A) (n : SM B) (k : SM C) (f : AM B) (k' : AM C) :
  Refines (m;; n) f → Refines k k' → Refines (m;; n;; k) (f;; k').
Proof.
  intros Hm Hk F g a y a' Hs Hr. apply ST_bind_inv in Hr as (x & a1 & Hf & Hr).
  destruct (Hm F g a x a1 Hs Hf) as (g2 & Hg & Hs1).
  apply ST_bind_inv in Hg as (z & g1 & Hg1 & Hg2).
  rewrite (ST_bind_run _ _ _ _ _ Hg1), (ST_bind_run _ _ _ _ _ Hg2). by eapply Hk.
Qed.

(** ** The functions of s_task.c and s_event.c over queues

    Each is the C function with its list operations replaced by the queue
    operations they implement; the instances are the refinement. *)

Definition a_active_empty : AM bool := gets (λ a, Some (bool_decide (runq a = []))).

#[export] Instance refines_active_empty :
  Refines (on_mem (s_list_is_empty active_tasks)) a_active_empty.
Proof.
  intros F [h ts c] a x a' [Hr Hfo Hw Ht Hc] Hf; proj; subst ts c.
  unfold a_active_empty, gets in Hf. simplify_eq. pose proof Hr as Hr0.
  unfold layout in Hr. cbn [app] in Hr.
  exists (mk_globals h (ainfo a') (acur a')). split; [|by split].
  apply on_mem_run; proj. rewrite (is_empty_store _ _ _ _ Hr). do 2 f_equal.
  apply bool_decide_ext. by destruct (runq a').
Qed.

Definition a_next (k : fcontext) : AM switch :=
  c ← a_cur; a_upd c (set_waiting_cancelled false);; a_call_next k.

Definition a_main_loop_iter : AM (option switch) :=
  empty ← a_active_empty;
  if empty : bool then mret None else
  c ← a_cur; a_attach_active c;; s ← a_call_next FcMainLoop; mret (Some s).

Definition a_yield_begin : AM switch := c ← a_cur; a_attach_active c;; a_next FcYield.
Definition a_yield_end : AM unit := c ← a_cur; a_upd c (set_waiting_cancelled false).

Definition a_add_waiting (e : event_ptr) : AM unit :=
  empty ← a_event_empty e;
  if empty : bool then a_detach_self e;; a_attach_self e else mret tt.
Definition a_remove_waiting (e : event_ptr) : AM unit :=
  empty ← a_event_empty e;
  if empty : bool then a_detach_self e else mret tt.

Definition a_wait_begin (e : event_ptr) : AM switch :=
  a_add_waiting e;; c ← a_cur; a_detach c;; a_attach_wait e c;;
  a_upd c (set_waiting_event (Some e));; a_next FcWait.
Definition a_wait_end : AM Z :=
  c ← a_cur; r ← a_get c; a_upd c (set_waiting_cancelled false);;
  mret (if waiting_cancelled r then (-1)%Z else 0%Z).
Definition a_set (e : event_ptr) : AM unit :=
  a_wake e;; c ← a_cur; a_upd c (set_waiting_event None);; a_remove_waiting e.

Definition a_cancel_wait (t : task_ptr) : AM unit :=
  a_upd t (set_waiting_cancelled true);; a_detach t;; a_attach_active t;;
  r ← a_get t; c ← a_cur; a_upd c (set_waiting_event None);;
  match waiting_event r with Some e => a_remove_waiting e | None => mret tt end.

Definition a_context_exit : AM switch :=
  t ← a_cur; a_upd t (set_closed true);; a_set (join_event t);; a_next FcExit.

Definition a_resume_coroutine : AM outcome :=
  c ← a_cur; r ← a_get c; a_upd c (set_fc FcRunning);;
  match fc r with
  | FcEntry => mret (Started (task_entry r) (task_arg r))
  | FcWait => rc ← a_wait_end; mret (WaitReturned rc)
  | FcYield => a_yield_end;; mret YieldReturned
  | FcRunning | FcMainLoop | FcExit => fault
  end.

Definition a_main_loop_once : AM outcome :=
  s ← a_main_loop_iter;
  match s with
  | None => mret LoopReturned
  | Some Jumped => a_resume_coroutine
  | Some Returned => fault
  end.

Definition a_resume : AM outcome :=
  c ← a_cur; r ← a_get c;
  if bool_decide (fc r = FcMainLoop)
  then a_upd c (set_fc FcRunning);; a_main_loop_once else a_resume_coroutine.

Definition a_wait (e : event_ptr) : AM outcome :=
  s ← a_wait_begin e; match s with Jumped => a_resume | Returned => fault end.
Definition a_yield : AM outcome :=
  s ← a_yield_begin; match s with Jumped => a_resume | Returned => fault end.
Definition a_exit : AM outcome :=
  s ← a_context_exit; match s with Jumped => a_resume | Returned => fault end.

#[export] Instance refines_next k : Refines (s_task_next k) (a_next k).
Proof. unfold s_task_next, a_next. apply _. Qed.
#[export] Instance refines_main_loop_iter : Refines s_task_main_loop_iter a_main_loop_iter.
Proof. unfold s_task_main_loop_iter, a_main_loop_iter. apply _. Qed.
#[export] Instance refines_yield_begin : Refines s_task_yield_begin a_yield_begin.
Proof. unfold s_task_yield_begin, a_yield_begin. apply _. Qed.
#[export] Instance refines_yield_end : Refines s_task_yield_end a_yield_end.
Proof. unfold s_task_yield_end, a_yield_end. apply _. Qed.
#[export] Instance refines_add_waiting e :
  Refines (s_event_add_to_waiting_list e) (a_add_waiting e).
Proof. unfold s_event_add_to_waiting_list, a_add_waiting. apply _. Qed.
#[export] Instance refines_remove_waiting e :
  Refines (s_event_remove_from_waiting_list e) (a_remove_waiting e).
Proof. unfold s_event_remove_from_waiting_list, a_remove_waiting. apply _. Qed.
#[export] Instance refines_wait_begin e : Refines (s_event_wait_begin e) (a_wait_begin e).
Proof. unfold s_event_wait_begin, a_wait_begin. apply _. Qed.
#[export] Instance refines_wait_end : Refines s_event_wait_end a_wait_end.
Proof. unfold s_event_wait_end, a_wait_end. apply _. Qed.
#[export] Instance refines_set e : Refines (s_event_set e) (a_set e).
Proof. unfold s_event_set, a_set. apply refines_seq2; apply _. Qed.
#[export] Instance refines_cancel_wait t : Refines (s_task_cancel_wait t) (a_cancel_wait t).
Proof.
  unfold s_task_cancel_wait, a_cancel_wait.
  repeat (apply refines_bind; [apply _|intros ?]). case_match; apply _.
Qed.
#[export] Instance refines_context_exit : Refines s_task_context_exit a_context_exit.
Proof. unfold s_task_context_exit, a_context_exit. apply _. Qed.
#[export] Instance refines_resume_coroutine : Refines resume_coroutine a_resume_coroutine.
Proof.
  unfold resume_coroutine, a_resume_coroutine.
  repeat (apply refines_bind; [apply _|intros ?]). case_match; apply _.
Qed.
#[export] Instance refines_main_loop_once : Refines s_task_main_loop_once a_main_loop_once.
Proof.
  unfold s_task_main_loop_once, a_main_loop_once. cbn [s_task_main_loop].
  apply refines_bind; [apply _|]. intros [[]|]; apply _.
Qed.
#[export] Instance refines_resume : Refines resume a_resume.
Proof. unfold resume, a_resume. apply _. Qed.
#[export] Instance refines_wait e : Refines (s_event_wait e) (a_wait e).
Proof.
  unfold s_event_wait, a_wait. apply refines_bind; [apply _|]. intros []; apply _.
Qed.
#[export] Instance refines_yield : Refines s_task_yield a_yield.
Proof.
  unfold s_task_yield, a_yield. apply refines_bind; [apply _|]. intros []; apply _.
Qed.
#[export] Instance refines_exit : Refines s_task_context_entry_return a_exit.
Proof.
  unfold s_task_context_entry_return, a_exit. apply refines_bind; [apply _|].
  intros []; apply _.
Qed.

(** ** Objects coming and going *)

Definition a_new_event (e : event_ptr) : AM unit := λ a,
  match waitq a !! e with None => Some (tt, a_waitq <[e := []]> a) | Some _ => None end.

Definition a_free_event (e : event_ptr) : AM unit := λ a,
  if bool_decide (waitq a !! e = Some [] ∧ e ∉ wevs a)
  then Some (tt, a_waitq (delete e) a) else None.

Definition a_new_task (t : task_ptr) (size entry arg : Z) : AM unit := λ a,
  if bool_decide (¬ known t a ∧ waitq a !! join_event t = None ∧ ainfo a !! t = None)
  then Some (tt, a_runq (λ q, q ++ [t]) (a_waitq <[join_event t := []]>
    (a_info <[t := mk_task entry arg None FcEntry size false false]> a)))
  else None.

Definition a_free_task (t : task_ptr) : AM unit := λ a,
  if bool_decide (t ∈ idle a ∧ waitq a !! join_event t = Some [] ∧
                  (join_event t ∉ wevs a) ∧ is_Some (ainfo a !! t))
  then Some (tt, a_idle (λ i, i ∖ {[t]}) (a_waitq (delete (join_event t))
    (a_info (delete t) a)))
  else None.

(** Which nodes a layout has. *)
Lemma nodes_events w m x :
  x ∈ nodes (events w m) ↔
  ∃ e ws, m !! e = Some ws ∧
    (x = wait_list e ∨ (∃ t, t ∈ ws ∧ x = task_node t) ∨ ((e ∉ w) ∧ x = self e)).
Proof.
  rewrite elem_of_nodes. unfold events. setoid_rewrite list_elem_of_bind. split.
  - intros (r & ([e ws] & Hr & Hm) & Hx). apply elem_of_map_to_list in Hm.
    exists e, ws. split; [done|]. unfold erings in Hr; simpl in Hr.
    apply elem_of_cons in Hr as [->|Hr].
    + apply elem_of_cons in Hx as [->|Hx]; [by left|]. right; left.
      simpl in Hx. apply list_elem_of_fmap in Hx as (t & -> & ?). eauto.
    + case_bool_decide; [set_solver|]. apply list_elem_of_singleton in Hr as ->.
      simpl in Hx. apply list_elem_of_singleton in Hx as ->. auto.
  - intros (e & ws & Hm & Hx). apply elem_of_map_to_list in Hm.
    destruct Hx as [->|[(t & Ht & ->)|[He ->]]].
    + exists (wait_list e, task_node <$> ws). split; [exists (e, ws); split; [left|done]|left].
    + exists (wait_list e, task_node <$> ws). split; [exists (e, ws); split; [left|done]|].
      right. by apply list_elem_of_fmap_2.
    + exists (self e, []). split; [exists (e, ws); split; [|done]|left].
      unfold erings; simpl. rewrite bool_decide_eq_false_2 by done. right; left.
Qed.

Lemma nodes_idles i x : x ∈ nodes (idles i) ↔ ∃ t, t ∈ i ∧ x = task_node t.
Proof.
  rewrite elem_of_nodes. unfold idles. setoid_rewrite list_elem_of_fmap.
  setoid_rewrite elem_of_elements. split.
  - intros (r & (t & -> & Ht) & Hx). simpl in Hx. apply list_elem_of_singleton in Hx. eauto.
  - intros (t & Ht & ->). exists (task_node t, []). split; [eauto|left].
Qed.

Lemma nodes_layout a F x :
  x ∈ nodes (layout a ++ F) ↔
  x = active_tasks ∨ (∃ t, t ∈ runq a ∧ x = task_node t) ∨
  x = waiting_events ∨ (∃ e, e ∈ wevs a ∧ x = self e) ∨
  x ∈ nodes (events (wevs a) (waitq a)) ∨ x ∈ nodes (idles (idle a)) ∨ x ∈ nodes F.
Proof.
  unfold layout. rewrite nodes_app, !nodes_cons, nodes_app, elem_of_app, elem_of_cons,
    elem_of_app, elem_of_cons, elem_of_app, elem_of_app, !list_elem_of_fmap.
  naive_solver.
Qed.

Lemma fresh_wait_list F g a e :
  sim F g a → waitq a !! e = None → wait_list e ∉ nodes (layout a ++ F).
Proof.
  intros [_ Hfo _ _ _] He. rewrite nodes_layout, nodes_events, nodes_idles.
  rewrite Forall_forall in Hfo. intros Hx.
  destruct Hx as [?|[?|[?|[?|[?|[?|Hx]]]]]]; [naive_solver..|]. by apply Hfo in Hx.
Qed.

Lemma fresh_self F g a e :
  sim F g a → waitq a !! e = None → self e ∉ nodes (layout a ++ F).
Proof.
  intros [_ Hfo Hw _ _] He. rewrite nodes_layout, nodes_events, nodes_idles.
  rewrite Forall_forall in Hfo. intros Hx.
  destruct Hx as [?|[?|[?|[(e' & Hin & [= <-])|[?|[?|Hx]]]]]]; [naive_solver..| | | |].
  - destruct (Hw _ Hin). congruence.
  - naive_solver.
  - naive_solver.
  - by apply Hfo in Hx.
Qed.

Lemma fresh_task_node F g a t :
  sim F g a → ¬ known t a → task_node t ∉ nodes (layout a ++ F).
Proof.
  intros [_ Hfo _ _ _] Hk. rewrite nodes_layout, nodes_events, nodes_idles.
  rewrite Forall_forall in Hfo. intros Hx. unfold known in Hk.
  destruct Hx as [?|[(t' & ? & ?)|[?|[(e & _ & ?)|[(e & ws & He & Hx)|[(t' & ? & ?)|Hx]]]]]];
    simplify_eq; [tauto| |tauto|by apply Hfo in Hx].
  destruct Hx as [?|[(t' & Hin & ?)|[_ ?]]]; simplify_eq.
  apply Hk. right; right. by exists e, ws.
Qed.

Lemma alloc_run {A} (k : unit → SM A) x n h ts c :
  x ∉ dom h →
  (on_mem (alloc_node x n) ≫= k) (mk_globals h ts c) = k tt (mk_globals (<[x := n]> h) ts c).
Proof.
  intros Hx. unfold mbind, ST_bind, on_mem, alloc_node. proj.
  by rewrite bool_decide_eq_false_2.
Qed.

Lemma free_run {A} (k : unit → SM A) x h ts c L :
  store h ((x, []) :: L) →
  (on_mem (free_node x) ≫= k) (mk_globals h ts c) = k tt (mk_globals (delete x h) ts c).
Proof.
  intros Hs. unfold mbind, ST_bind, on_mem. proj. by rewrite (proj1 (free_store _ _ _ Hs)).
Qed.

(** [s_event_init] on fresh memory; [U] is fresh memory for other uses. *)
Lemma event_init_run h ts c e L U :
  rings h L → dom h = {[wait_list e; self e]} ∪ U ∪ list_to_set (nodes L) →
  wait_list e ∉ nodes L → self e ∉ nodes L → wait_list e ∉ U → self e ∉ U →
  ∃ h', s_event_init e (mk_globals h ts c) = Some (tt, mk_globals h' ts c) ∧
    rings h' ((self e, []) :: (wait_list e, []) :: L) ∧
    dom h' = U ∪ list_to_set (nodes ((self e, []) :: (wait_list e, []) :: L)).
Proof.
  intros Hr Hd Hw Hs HwU HsU. unfold s_event_init.
  destruct (init_store h (wait_list e) L ({[self e]} ∪ U)) as (h1 & R1 & Hr1 & Hd1);
    [done|set_solver|done|set_solver|]. sm_mem R1.
  destruct (init_store h1 (self e) ((wait_list e, []) :: L) U) as (h2 & R2 & Hr2 & Hd2);
    [done|set_solver|rewrite nodes_cons; set_solver|done|].
  exists h2. split_and!; [by apply on_mem_run|done..].
Qed.

#[export] Instance refines_new_event junk e : Refines (new_event junk e) (a_new_event e).
Proof.
  intros F [h ts c] a x a' Hsim Hf. pose proof (fresh_wait_list _ _ _ e Hsim) as Hwl.
  pose proof (fresh_self _ _ _ e Hsim) as Hse.
  destruct Hsim as [Hr Hfo Hw Ht Hc]; proj; subst ts c.
  unfold a_new_event in Hf. destruct (waitq a !! e) eqn:He; simplify_eq.
  specialize (Hwl eq_refl). specialize (Hse eq_refl). destruct Hr as [Hr Hd].
  unfold new_event. rewrite alloc_run by by rewrite Hd, elem_of_list_to_set.
  rewrite alloc_run by (rewrite dom_insert_L, Hd, elem_of_union, elem_of_singleton,
    elem_of_list_to_set; by intros [|]).
  destruct (event_init_run (<[self e := junk]> (<[wait_list e := junk]> h)) (ainfo a) (acur a)
    e (layout a ++ F) ∅) as (h' & Hrun & Hr' & Hd').
  - by apply alloc_rings; [apply alloc_rings|].
  - rewrite !dom_insert_L, Hd. generalize (list_to_set (C:=gset lnode) (nodes (layout a ++ F))).
    clear. set_solver.
  - done.
  - done.
  - apply not_elem_of_empty.
  - apply not_elem_of_empty.
  - eexists. split; [done|]. split; proj; [|done| |done..].
    + assert (store h' ((self e, []) :: (wait_list e, []) :: layout a ++ F)) as Hs'
        by (split; [done|by rewrite Hd', (left_id_L ∅ (∪))]).
      rewrite (layout_event _ e []) by apply lookup_insert_eq. proj.
      rewrite delete_insert_eq, (delete_id _ _ He).
      rewrite bool_decide_eq_false_2 by (intros Hin; destruct (Hw _ Hin); congruence).
      unfold layout in Hs'. by_perm Hs'.
    + by apply sim_wevs_insert.
Qed.

#[export] Instance refines_free_event e : Refines (free_event e) (a_free_event e).
Proof.
  intros F [h ts c] a x a' [Hr Hfo Hw Ht Hc] Hf; proj; subst ts c.
  unfold a_free_event in Hf. case_bool_decide as He; [|done]. destruct He as [He Hn].
  simplify_eq. rewrite (layout_event _ _ _ He), bool_decide_eq_false_2 in Hr by done.
  cbn [app] in Hr. pose proof (proj2 (free_store _ _ _ Hr)) as Hr1.
  use_perm Hr1 ((self e, []) :: (active_tasks, task_node <$> runq a) ::
    (waiting_events, self <$> wevs a) ::
    events (wevs a) (delete e (waitq a)) ++ idles (idle a) ++ F) Hr2.
  unfold free_event. rewrite (free_run _ _ _ _ _ _ Hr).
  eexists. split.
  - apply on_mem_run; proj. apply (free_store _ _ _ Hr2).
  - split; proj; [|done| |done..].
    + unfold layout; proj. pose proof (proj2 (free_store _ _ _ Hr2)) as Hr3. by_perm Hr3.
    + intros e' He'. rewrite lookup_delete_ne; [auto|]. by intros ->.
Qed.

(** The list part of [s_task_create] on fresh memory. *)
Lemma task_create_run h ts c t size entry arg r q L :
  store h ((active_tasks, q) :: L) → ts !! t = Some r →
  task_node t ∉ dom h → wait_list (join_event t) ∉ dom h → self (join_event t) ∉ dom h →
  ∀ junk, ∃ h',
    s_task_create t size entry arg (mk_globals
      (<[self (join_event t) := junk]> (<[wait_list (join_event t) := junk]>
        (<[task_node t := junk]> h))) ts c) =
    Some (tt, mk_globals h' (<[t := mk_task entry arg None FcEntry size false false]> ts) c) ∧
    store h' ((active_tasks, q ++ [task_node t]) ::
      (self (join_event t), []) :: (wait_list (join_event t), []) :: L).
Proof.
  intros [Hr Hd] Hts Ht Hw Hs junk. set (L0 := (active_tasks, q) :: L) in *.
  rewrite Hd, elem_of_list_to_set in Ht, Hw, Hs. unfold s_task_create.
  destruct (init_store (<[self (join_event t) := junk]> (<[wait_list (join_event t) := junk]>
    (<[task_node t := junk]> h))) (task_node t) L0
    {[wait_list (join_event t); self (join_event t)]}) as (h1 & R1 & Hr1 & Hd1);
    [by repeat apply alloc_rings| |done|rewrite elem_of_union, !elem_of_singleton; naive_solver|].
  { rewrite !dom_insert_L, Hd. generalize (list_to_set (C:=gset lnode) (nodes L0)).
    clear. set_solver. }
  sm_mem R1.
  destruct (event_init_run h1 ts c (join_event t) ((task_node t, []) :: L0) ∅) as
    (h2 & R2 & Hr2 & Hd2).
  { done. }
  { by rewrite Hd1, (right_id_L ∅ (∪)). }
  { rewrite nodes_cons. by intros [|]%elem_of_cons. }
  { rewrite nodes_cons. by intros [|]%elem_of_cons. }
  { apply not_elem_of_empty. }
  { apply not_elem_of_empty. }
  st_step R2. sm_upd Hts. rewrite (left_id_L ∅ (∪)) in Hd2.
  assert (store h2 ((active_tasks, q) :: (task_node t, []) :: (self (join_event t), []) ::
    (wait_list (join_event t), []) :: L)) as Hs2.
  { refine (proj1 (store_perm _ _ _ _) (conj Hr2 Hd2)). subst L0. solve_Permutation. }
  destruct (connect_store _ _ _ _ _ _ Hs2) as (h3 & R3 & Hs3). sm_mem R3.
  exists h3. split; [|done].
  erewrite upd_task_run by apply lookup_insert_eq. proj. by rewrite insert_insert_eq.
Qed.

#[export] Instance refines_new_task junk junk_task t size entry arg :
  Refines (new_task junk junk_task t size entry arg) (a_new_task t size entry arg).
Proof.
  intros F [h ts c] a x a' Hsim Hf. unfold a_new_task in Hf.
  case_bool_decide as Hfresh; [|done]. destruct Hfresh as (Hk & He & Hi). simplify_eq.
  pose proof (fresh_task_node _ _ _ _ Hsim Hk) as Ftn.
  pose proof (fresh_wait_list _ _ _ _ Hsim He) as Fwl.
  pose proof (fresh_self _ _ _ _ Hsim He) as Fse.
  destruct Hsim as [Hr Hfo Hw Ht Hc]; proj; subst ts c.
  rewrite <-(elem_of_list_to_set (C:=gset lnode)), <-(proj2 Hr) in Ftn, Fwl, Fse.
  unfold layout in Hr. cbn [app] in Hr. unfold new_task.
  rewrite alloc_run by done.
  rewrite alloc_run by (rewrite dom_insert_L, elem_of_union, elem_of_singleton; by intros [|]).
  rewrite alloc_run by (rewrite !dom_insert_L, !elem_of_union, !elem_of_singleton;
    by intros [|[|]]).
  destruct (task_create_run h (<[t := junk_task]> (ainfo a)) (acur a) t size entry arg junk_task
    _ _ Hr (lookup_insert_eq _ _ _) Ftn Fwl Fse junk) as (h' & Hrun & Hr').
  unfold alloc_task, mbind at 1, ST_bind. proj.
  rewrite bool_decide_eq_false_2 by by apply not_elem_of_dom.
  rewrite Hrun, insert_insert_eq. eexists. split; [done|]. split; proj; [|done| |done..].
  - rewrite (layout_event _ (join_event t) []) by apply lookup_insert_eq. proj.
    rewrite delete_insert_eq, (delete_id _ _ He), fmap_app.
    rewrite bool_decide_eq_false_2 by (intros Hin; destruct (Hw _ Hin); congruence).
    by_perm Hr'.
  - by apply sim_wevs_insert.
Qed.

#[export] Instance refines_free_task t : Refines (free_task t) (a_free_task t).
Proof.
  intros F [h ts c] a x a' Hsim Hf. unfold a_free_task in Hf.
  case_bool_decide as Hok; [|done]. destruct Hok as (Hi & He & Hn & [r Hr]). simplify_eq.
  pose proof Hsim as [Hs Hfo Hw Ht Hc]; proj; subst ts c.
  rewrite (layout_idle _ _ Hi) in Hs. cbn [app] in Hs. unfold free_task.
  rewrite (free_run _ _ _ _ _ _ Hs). pose proof (proj2 (free_store _ _ _ Hs)) as Hs1.
  destruct (refines_free_event (join_event t) F
    (mk_globals (delete (task_node t) h) (ainfo a) (acur a)) (a_idle (λ i, i ∖ {[t]}) a) tt
    (a_waitq (delete (join_event t)) (a_idle (λ i, i ∖ {[t]}) a))) as (g' & Hrun & Hs2).
  - split; proj; [|done..]. unfold layout; proj. by_perm Hs1.
  - unfold a_free_event. proj. by rewrite bool_decide_eq_true_2.
  - st_step Hrun. destruct g' as [h' ts' c'], Hs2 as [Hst Hfo2 Hw2 Ht2 Hc2]; proj; subst ts' c'.
    unfold free_task_record. proj. rewrite bool_decide_eq_true_2 by (apply elem_of_dom; eauto).
    eexists. split; [done|]. by split; proj.
Qed.
