(* ===== verification/SchedInv.v ===== *)
(** * The scheduler never faults

    The invariant of the scheduler's queues, and that every call of its
    interface that respects its contract is defined and keeps it. *)

From S2P Require Import Prelude SList STask SchedSpec.

(** ** Invariant *)

(** A task on the run queue can be jumped to. *)
Definition runnable (t : task_ptr) (r : s_task_t) : Prop :=
  closed r = false ∧
  match t with
  | main_task => fc r = FcMainLoop
  | Stack _ => fc r = FcEntry ∨ fc r = FcWait ∨ fc r = FcYield
  end.

(** A task blocked on [e]. *)
Definition blocked (e : event_ptr) (t : task_ptr) (r : s_task_t) : Prop :=
  t ≠ main_task ∧ closed r = false ∧ fc r = FcWait ∧
  waiting_event r = Some e ∧ waiting_cancelled r = false.

Definition running (t : task_ptr) (r : s_task_t) : Prop :=
  closed r = false ∧ fc r = FcRunning.

Definition finished (r : s_task_t) : Prop := closed r = true ∧ fc r = FcExit.

(** The memory of a task is there: its record and its join event. *)
Definition present (t : task_ptr) (a : astate) : Prop :=
  is_Some (ainfo a !! t) ∧ is_Some (waitq a !! join_event t).

(** Presence survives updates of records and queues. *)
Ltac solve_present H :=
  destruct H as [? ?]; split; simpl;
  repeat (rewrite lookup_insert || rewrite lookup_fmap || rewrite fmap_is_Some || case_decide);
  eauto.

(** [P] is what holds of the current task: [running] between calls,
    [runnable] when it was just switched to, [finished] or nothing while it
    is being left. *)
Record inv (P : task_ptr → s_task_t → Prop) (a : astate) : Prop := mk_inv {
  inv_wevs : ∀ e, e ∈ wevs a ↔ ∃ ws, waitq a !! e = Some ws ∧ ws ≠ [];
  inv_main : acur a = main_task ∨ main_task ∈ runq a;
  inv_cur : acur a ∈ idle a;
  inv_known : ∀ t, known t a → present t a;
  inv_run : ∀ t r, t ∈ runq a → ainfo a !! t = Some r → runnable t r;
  inv_wait : ∀ e ws t r, waitq a !! e = Some ws → t ∈ ws → ainfo a !! t = Some r → blocked e t r;
  inv_idle : ∀ t r, t ∈ idle a → t ≠ acur a → ainfo a !! t = Some r → finished r;
  inv_this : ∀ r, ainfo a !! acur a = Some r → P (acur a) r;
  inv_all : ∀ t, is_Some (ainfo a !! t) → known t a;
}.

(** Updating the record of a task that has one adds no task. *)
Lemma insert_present {A} (m : gmap task_ptr A) t t' x y :
  m !! t = Some x → is_Some (<[t := y]> m !! t') → is_Some (m !! t').
Proof. intros Hm. rewrite lookup_insert. case_decide; naive_solver. Qed.

Lemma known_wait t a e ws : waitq a !! e = Some ws → t ∈ ws → known t a.
Proof. intros He Ht. right; right. by exists e, ws. Qed.

(** No task is on two lists; a consequence of the representation. *)
Record uniq (a : astate) : Prop := mk_uniq {
  uniq_idle : ∀ t, t ∈ idle a → t ∉ runq a;
  uniq_idle_wait : ∀ t e ws, t ∈ idle a → waitq a !! e = Some ws → t ∉ ws;
  uniq_run : NoDup (runq a);
  uniq_run_wait : ∀ t e ws, t ∈ runq a → waitq a !! e = Some ws → t ∉ ws;
  uniq_wait : ∀ t e e' ws ws', waitq a !! e = Some ws → waitq a !! e' = Some ws' →
    t ∈ ws → t ∈ ws' → e = e';
}.

Lemma sim_uniq F g a : sim F g a → uniq a.
Proof.
  intros [Hs _ _ _ _]. split.
  - intros t Hi. by apply (idle_only_at _ _ _ _ Hs Hi).
  - intros t e ws Hi He. by eapply (idle_only_at _ _ _ _ Hs Hi).
  - destruct Hs as [[Hnd _] _]. unfold layout in Hnd. cbn [app] in Hnd.
    rewrite nodes_cons in Hnd. apply NoDup_cons in Hnd as [_ Hnd].
    apply NoDup_app in Hnd as (Hnd & _ & _). by apply NoDup_fmap_1 in Hnd.
  - intros t e ws Hq He Hin. apply list_elem_of_split in Hin as (l1 & l2 & ->).
    by apply (wait_only_at _ _ _ _ _ _ _ Hs He).
  - intros t e e' ws ws' He He' Hin Hin'.
    apply list_elem_of_split in Hin as (l1 & l2 & ->).
    destruct (wait_only_at _ _ _ _ _ _ _ Hs He) as (_ & _ & [_ Hw _]).
    destruct (decide (e = e')) as [|Hne]; [done|].
    exfalso. by apply (Hw e' ws' He'); [congruence|].
Qed.

(** The state between two calls of the running code. *)
Definition ok (F : list (lnode * list lnode)) (g : s_task_globals_t) (a : astate) : Prop :=
  sim F g a ∧ inv running a.

(** ** Being switched to *)

Lemma a_upd_run t f a r :
  ainfo a !! t = Some r → a_upd t f a = Some (tt, a_info <[t := f r]> a).
Proof. intros Ht. unfold a_upd. by rewrite Ht. Qed.

Lemma a_get_run t a r : ainfo a !! t = Some r → a_get t a = Some (r, a).
Proof. intros Ht. unfold a_get, gets. by rewrite Ht. Qed.

Lemma a_cur_bind {A} (k : task_ptr → AM A) a : (a_cur ≫= k) a = k (acur a) a.
Proof. done. Qed.

(** Changing the record of the current task only. *)
Lemma inv_upd_cur P Q a f :
  inv P a → (∀ t r, P t r → Q t (f r)) →
  ∀ r, ainfo a !! acur a = Some r → uniq a → inv Q (a_info <[acur a := f r]> a).
Proof.
  intros [Hw Hm Hc Hk Hr Hwt Hi Ht Hall] HPQ r Hcr Hu.
  split; proj; [done..| | | | | |].
  - intros t Hkn. solve_present (Hk t Hkn).
  - intros t r' Hq. rewrite lookup_insert_ne; [by apply Hr|].
    intros <-. by apply (uniq_idle _ Hu _ Hc).
  - intros e ws t r' He Hin. rewrite lookup_insert_ne; [by eapply Hwt|].
    intros <-. by eapply (uniq_idle_wait _ Hu).
  - intros t r' Hid Hne. rewrite lookup_insert_ne by done. by apply Hi.
  - intros r'. rewrite lookup_insert_eq. intros [= <-]. by apply HPQ, Ht.
  - intros t Hs. apply (Hall t). by eapply insert_present.
Qed.

(** What a coroutine that is switched to observes, and its record then. *)
Definition observed (r : s_task_t) : outcome :=
  match fc r with
  | FcEntry => Started (task_entry r) (task_arg r)
  | FcWait => WaitReturned (if waiting_cancelled r then -1 else 0)
  | _ => YieldReturned
  end.
Definition resumed (r : s_task_t) : s_task_t :=
  match fc r with
  | FcEntry => set_fc FcRunning r
  | _ => set_waiting_cancelled false (set_fc FcRunning r)
  end.

Lemma a_wait_end_run a r :
  ainfo a !! acur a = Some r →
  a_wait_end a = Some (if waiting_cancelled r then -1 else 0,
                       a_info <[acur a := set_waiting_cancelled false r]> a)%Z.
Proof.
  intros Hr. unfold a_wait_end. rewrite a_cur_bind. st_step (a_get_run _ _ _ Hr).
  by st_step (a_upd_run _ (set_waiting_cancelled false) _ _ Hr).
Qed.

Lemma a_info_twice f g t a :
  a_info <[t := f]> (a_info <[t := g]> a) = a_info <[t := f]> a.
Proof. unfold a_info; proj. by rewrite insert_insert_eq. Qed.

Lemma a_resume_coroutine_run a r :
  acur a ≠ main_task → ainfo a !! acur a = Some r → runnable (acur a) r →
  a_resume_coroutine a = Some (observed r, a_info <[acur a := resumed r]> a).
Proof.
  intros Hm Hr [_ Hf]. destruct (acur a) as [|n] eqn:Hc; [done|].
  unfold a_resume_coroutine. rewrite a_cur_bind, Hc.
  st_step (a_get_run _ _ _ Hr). st_step (a_upd_run _ (set_fc FcRunning) _ _ Hr).
  set (a1 := a_info _ a).
  assert (ainfo a1 !! acur a1 = Some (set_fc FcRunning r)) as Hr1
    by (subst a1; proj; rewrite Hc; apply lookup_insert_eq).
  unfold observed, resumed. destruct Hf as [Hf|[Hf|Hf]]; rewrite Hf; [done|..].
  - st_step (a_wait_end_run _ _ Hr1). subst a1; proj. rewrite Hc, a_info_twice. done.
  - st_step (a_upd_run _ (set_waiting_cancelled false) _ _ Hr1 : a_yield_end a1 = Some (tt, _)).
    subst a1; proj. rewrite Hc, a_info_twice. done.
Qed.

Lemma resume_coroutine_inv a r :
  inv runnable a → uniq a → ainfo a !! acur a = Some r →
  acur a ≠ main_task → inv running (a_info <[acur a := resumed r]> a).
Proof.
  intros Hi Hu Hr Hm. eapply inv_upd_cur; eauto.
  intros t r' [Hcl _]. unfold resumed. by destruct (fc r').
Qed.

(** [s_task_main_loop_once] switches to the head of the run queue, the
    caller going to its end. *)
Definition main_switched (a : astate) (rm : s_task_t) (t : task_ptr) (q : list task_ptr) : astate :=
  mk_astate (q ++ [main_task]) (waitq a) (wevs a) ({[t]} ∪ idle a ∖ {[main_task]}) t
    (<[main_task := set_fc FcMainLoop rm]> (ainfo a)).

Lemma a_main_loop_once_nil a :
  runq a = [] → a_main_loop_once a = Some (LoopReturned, a).
Proof.
  intros Hq. unfold a_main_loop_once, a_main_loop_iter, a_active_empty, mbind, ST_bind, gets.
  by rewrite Hq.
Qed.

Lemma a_main_loop_once_cons a rm t q :
  acur a = main_task → main_task ∈ idle a → ainfo a !! main_task = Some rm →
  runq a = t :: q → t ≠ main_task →
  a_main_loop_once a = a_resume_coroutine (main_switched a rm t q).
Proof.
  intros Hc Hi Hr Hq Ht.
  unfold a_main_loop_once, a_main_loop_iter, a_active_empty, mbind at 1 2, ST_bind, gets.
  rewrite Hq. simpl bool_decide. rewrite bool_decide_eq_false_2 by done.
  rewrite a_cur_bind, Hc. unfold a_attach_active, mbind, ST_bind.
  rewrite bool_decide_eq_true_2 by done. unfold a_call_next. proj. rewrite Hq; simpl.
  rewrite bool_decide_eq_true_2 by congruence. proj. rewrite Hc, Hr. done.
Qed.

Lemma main_switched_inv a rm t q :
  inv running a → uniq a → acur a = main_task → ainfo a !! main_task = Some rm →
  runq a = t :: q → inv runnable (main_switched a rm t q) ∧ t ≠ main_task.
Proof.
  intros [Hw Hm Hc Hk Hr Hwt Hi Ht Hall] Hu Hcm Hrm Hq.
  rewrite Hcm in *.
  assert (main_task ∉ runq a) as Hnm by by apply (uniq_idle _ Hu).
  assert (t ≠ main_task) as Htm by (intros ->; apply Hnm; rewrite Hq; left).
  assert (∀ t', t' ∈ q → t' ≠ main_task) as Hqm
    by (intros t' Hin ->; apply Hnm; rewrite Hq; by right).
  split; [|done]. unfold main_switched. split; proj.
  - done.
  - right. set_solver.
  - set_solver.
  - intros t' Hkn. assert (known t' a) as Hka; [|solve_present (Hk t' Hka)].
    unfold known in *; proj. rewrite Hq. destruct Hkn as [?|[?|?]]; set_solver.
  - intros t' r Hin. apply elem_of_app in Hin as [Hin|Hin].
    + rewrite lookup_insert_ne by (intros <-; by apply (Hqm main_task)).
      apply Hr. rewrite Hq. by right.
    + apply list_elem_of_singleton in Hin as ->. rewrite lookup_insert_eq.
      intros [= <-]. destruct (Ht _ Hrm). done.
  - intros e ws t' r He Hin. rewrite lookup_insert_ne; [by eapply Hwt|].
    intros <-. by eapply (uniq_idle_wait _ Hu).
  - intros t' r Hid Hne. rewrite lookup_insert_ne by set_solver. apply Hi; set_solver.
  - intros r. rewrite lookup_insert_ne by done. apply Hr. rewrite Hq. left.
  - intros t' Hs. apply (insert_present _ _ _ _ _ Hrm), Hall in Hs.
    destruct Hs as [Hin|[Hin|(e & ws & He & Hin)]]; [| |by eapply (known_wait _ _ e)].
    + destruct (decide (t' = main_task)); [right; left|left]; proj; set_solver.
    + rewrite Hq in Hin. apply elem_of_cons in Hin as [->|Hin]; [left|right; left]; proj; set_solver.
Qed.

Lemma main_switched_uniq a rm t q :
  uniq a → main_task ∈ idle a → runq a = t :: q → uniq (main_switched a rm t q).
Proof.
  intros [Hi Hiw Hr Hrw Hw] Hm Hq. rewrite Hq in *. apply NoDup_cons in Hr as [Htq Hr].
  assert (main_task ∉ t :: q) as Hmq by by apply Hi.
  apply not_elem_of_cons in Hmq as [Hmt Hmq]. unfold main_switched. split; proj.
  - intros t' Ht' Hin. rewrite elem_of_union, elem_of_singleton, elem_of_difference,
      not_elem_of_singleton in Ht'.
    apply elem_of_app in Hin as [Hin|Hin]; [|apply list_elem_of_singleton in Hin as ->; naive_solver].
    destruct Ht' as [->|[Ht' _]]; [done|]. apply (Hi t' Ht'). by right.
  - intros t' e ws Ht' He. rewrite elem_of_union, elem_of_singleton, elem_of_difference in Ht'.
    destruct Ht' as [->|[Ht' _]]; [eapply Hrw; [left|done]|by eapply Hiw].
  - apply NoDup_app. split_and!; [done| |apply NoDup_singleton].
    intros t' Hin Hm'. apply list_elem_of_singleton in Hm' as ->. done.
  - intros t' e ws Hin He. apply elem_of_app in Hin as [Hin|Hin];
      [eapply Hrw; [by right|done]|].
    apply list_elem_of_singleton in Hin as ->. by eapply Hiw.
  - done.
Qed.

(** [s_task_main_loop_once], called by the main task. *)
Lemma main_loop_inv a rm :
  inv running a → uniq a → acur a = main_task → ainfo a !! main_task = Some rm →
  ∃ o a', a_main_loop_once a = Some (o, a') ∧ inv running a' ∧
    (o = LoopReturned → a' = a ∧ runq a = []).
Proof.
  intros Hi Hu Hc Hr. destruct (runq a) as [|t q] eqn:Hq.
  - rewrite (a_main_loop_once_nil _ Hq). eexists _, _. by split_and!.
  - destruct (main_switched_inv _ _ _ _ Hi Hu Hc Hr Hq) as [Hi' Ht].
    pose proof (inv_cur _ _ Hi) as Hci. rewrite Hc in Hci.
    rewrite (a_main_loop_once_cons _ _ _ _ Hc Hci Hr Hq Ht).
    destruct (inv_known _ _ Hi' t) as [[r Htr] _]; [left; apply (inv_cur _ _ Hi')|].
    rewrite (a_resume_coroutine_run (main_switched a rm t q) r Ht Htr (inv_this _ _ Hi' _ Htr)).
    eexists _, _. split; [done|]. split.
    + apply resume_coroutine_inv; [done|by apply main_switched_uniq|done|done].
    + intros Ho. exfalso. revert Ho. unfold observed. by destruct (fc r).
Qed.

Lemma resume_inv a :
  inv runnable a → uniq a →
  ∃ o a', a_resume a = Some (o, a') ∧ inv running a'.
Proof.
  intros Hi Hu.
  destruct (inv_known _ _ Hi (acur a)) as [[r Hr] _]; [left; apply (inv_cur _ _ Hi)|].
  pose proof (inv_this _ _ Hi _ Hr) as Hrr.
  unfold a_resume. rewrite a_cur_bind. st_step (a_get_run _ _ _ Hr).
  destruct (decide (acur a = main_task)) as [Hm|Hm].
  - rewrite Hm in *. destruct Hrr as [Hcl Hf]. rewrite bool_decide_eq_true_2 by done.
    st_step (a_upd_run _ (set_fc FcRunning) _ _ Hr).
    destruct (main_loop_inv (a_info <[main_task := set_fc FcRunning r]> a) (set_fc FcRunning r))
      as (o & a' & ? & ? & _); [| | |apply lookup_insert_eq|eauto].
    + rewrite <-Hm. eapply inv_upd_cur; [done| |by rewrite Hm|done]. by intros t ? [? _].
    + by destruct Hu; split.
    + done.
  - rewrite bool_decide_eq_false_2.
    + rewrite (a_resume_coroutine_run _ _ Hm Hr Hrr).
      eexists _, _. split; [done|]. by apply resume_coroutine_inv.
    + destruct (acur a); [done|]. destruct Hrr as [_ Hrr]. intros E. rewrite E in Hrr. by destruct Hrr as [|[|]].
Qed.

(** ** Giving up the processor *)

Lemma a_next_run k a r t q :
  ainfo a !! acur a = Some r → runq a = t :: q → acur a ≠ t →
  a_next k a = Some (Jumped, mk_astate q (waitq a) (wevs a) ({[t]} ∪ idle a) t
    (<[acur a := set_fc k (set_waiting_cancelled false r)]> (ainfo a))).
Proof.
  intros Hr Hq Ht. unfold a_next. rewrite a_cur_bind.
  st_step (a_upd_run _ (set_waiting_cancelled false) _ _ Hr).
  unfold a_call_next. proj. rewrite Hq, bool_decide_eq_true_2 by done.
  rewrite lookup_insert_eq. simpl. by rewrite insert_insert_eq.
Qed.

(** Detaching a task that is on no list changes nothing. *)
Lemma a_detach_idle a t : uniq a → t ∈ idle a → a_detach t a = Some (tt, a).
Proof.
  intros Hu Hi. unfold a_detach. rewrite bool_decide_eq_true_2 by by left.
  rewrite remove_notin by by apply (uniq_idle _ Hu).
  rewrite (remove_waitq_none _ _ None); [|intros e ws He _; by eapply (uniq_idle_wait _ Hu)|done].
  assert ({[t]} ∪ idle a = idle a) as -> by set_solver. by destruct a.
Qed.

Lemma a_add_waiting_run a e ws :
  inv running a → waitq a !! e = Some ws →
  a_add_waiting e a =
    Some (tt, a_wevs (λ w, if bool_decide (ws = []) then w ++ [e] else w) a).
Proof.
  intros Hi He. unfold a_add_waiting, a_event_empty, gets, mbind at 1, ST_bind.
  rewrite He. simpl. case_bool_decide as Hws; [|by destruct a].
  assert (e ∉ wevs a) as Hin by (rewrite (inv_wevs _ _ Hi); naive_solver).
  unfold a_detach_self, a_attach_self, mbind, ST_bind. rewrite He. simpl. rewrite He. simpl.
  rewrite remove_notin, bool_decide_eq_false_2 by done.
  unfold a_wevs; proj. by rewrite remove_notin.
Qed.

(** The record of a task that goes to wait for [e]. *)
Definition to_blocked (e : event_ptr) (r : s_task_t) : s_task_t :=
  set_fc FcWait (set_waiting_cancelled false (set_waiting_event (Some e) r)).

(** The queues after the current task went to wait for [e]. *)
Definition waited (a : astate) (e : event_ptr) (ws : list task_ptr) (r : s_task_t)
    (t : task_ptr) (q : list task_ptr) : astate :=
  mk_astate q (<[e := ws ++ [acur a]]> (waitq a))
    (if bool_decide (ws = []) then wevs a ++ [e] else wevs a)
    ({[t]} ∪ idle a ∖ {[acur a]}) t (<[acur a := to_blocked e r]> (ainfo a)).

Lemma a_wait_begin_run a e ws r t q :
  inv running a → uniq a → waitq a !! e = Some ws → ainfo a !! acur a = Some r →
  runq a = t :: q → acur a ≠ t →
  a_wait_begin e a = Some (Jumped, waited a e ws r t q).
Proof.
  intros Hi Hu He Hr Hq Ht. unfold a_wait_begin.
  st_step (a_add_waiting_run _ _ _ Hi He). set (a1 := a_wevs _ a).
  rewrite a_cur_bind. pose proof (inv_cur _ _ Hi) as Hc.
  assert (uniq a1) as Hu1 by (destruct Hu; by split).
  st_step (a_detach_idle a1 (acur a1) Hu1 Hc).
  unfold a_attach_wait, mbind at 1, ST_bind. subst a1; proj. rewrite He. simpl.
  rewrite bool_decide_eq_true_2 by done.
  st_step (a_upd_run (acur a) (set_waiting_event (Some e)) (a_idle (λ i, i ∖ {[acur a]})
    (a_waitq <[e := ws ++ [acur a]]>
      (a_wevs (λ w, if bool_decide (ws = []) then w ++ [e] else w) a))) r Hr).
  rewrite (a_next_run _ _ (set_waiting_event (Some e) r) t q); proj;
    [|apply lookup_insert_eq|done|done].
  by rewrite insert_insert_eq.
Qed.

Lemma known_waited a e ws r t q t' :
  waitq a !! e = Some ws → runq a = t :: q → acur a ∈ idle a →
  known t' (waited a e ws r t q) → known t' a.
Proof.
  intros He Hq Hc. unfold known, waited; proj. rewrite Hq.
  intros [Hi|[Hi|(e' & ws' & He' & Hin)]].
  - rewrite elem_of_union, elem_of_singleton, elem_of_difference in Hi.
    destruct Hi as [->|[? _]]; [right; left; left|by left].
  - right; left; by right.
  - rewrite lookup_insert in He'. case_decide as Hee.
    + simplify_eq. apply elem_of_app in Hin as [Hin|Hin].
      * right; right. by exists e', ws.
      * apply list_elem_of_singleton in Hin as ->. by left.
    + right; right. by exists e', ws'.
Qed.

Lemma waited_inv a e ws r t q :
  inv running a → uniq a → waitq a !! e = Some ws → ainfo a !! acur a = Some r →
  runq a = t :: q → acur a ≠ main_task →
  inv runnable (waited a e ws r t q).
Proof.
  intros Hi Hu He Hr Hq Hm. pose proof Hi as [Hw Hmn Hc Hk Hrn Hwt Hid Ht Hall].
  assert (acur a ∉ runq a) as Hcq by by apply (uniq_idle _ Hu).
  assert (acur a ≠ t) as Hct by (intros E; apply Hcq; rewrite Hq, E; left).
  split; cbn [waited runq waitq wevs idle acur ainfo].
  - intros e'. setoid_rewrite lookup_insert. destruct (decide (e = e')) as [<-|Hne].
    + split; [intros _|intros _]; [exists (ws ++ [acur a]); split; [done|]; by destruct ws|].
      case_bool_decide as Hws; [set_solver|]. apply Hw. eauto.
    + rewrite <-(Hw e'). case_bool_decide; set_solver.
  - destruct Hmn as [?|Hmn]; [done|]. rewrite Hq in Hmn. by apply elem_of_cons in Hmn as [?|?]; auto.
  - set_solver.
  - intros t' Hkn. assert (known t' a) as Hka by (eapply known_waited; eauto).
    solve_present (Hk t' Hka).
  - intros t' r' Hin. rewrite lookup_insert_ne; [|intros E; apply Hcq; rewrite Hq, E; by right].
    apply Hrn. rewrite Hq. by right.
  - intros e' ws' t' r' He' Hin. rewrite lookup_insert in He'.
    destruct (decide (acur a = t')) as [<-|Hne'].
    + rewrite lookup_insert_eq. intros [= <-]. case_decide as Hee.
      * subst e'. destruct (Ht r Hr). by split_and!.
      * exfalso. by eapply (uniq_idle_wait _ Hu).
    + rewrite lookup_insert_ne by done. case_decide as Hee; [|by eapply Hwt].
      simplify_eq. eapply Hwt; [done|]. set_solver.
  - intros t' r' Hin Hne. rewrite lookup_insert_ne by set_solver. apply Hid; set_solver.
  - intros r'. rewrite lookup_insert_ne by done. apply Hrn. rewrite Hq. left.
  - intros t' Hs. apply (insert_present _ _ _ _ _ Hr), Hall in Hs.
    destruct Hs as [Hin|[Hin|(e' & ws' & He' & Hin)]].
    + destruct (decide (t' = acur a)) as [->|]; [|left; cbn; set_solver].
      apply (known_wait _ _ e (ws ++ [acur a])); [apply lookup_insert_eq|set_solver].
    + rewrite Hq in Hin. apply elem_of_cons in Hin as [->|Hin]; [left|right; left]; cbn; set_solver.
    + destruct (decide (e = e')) as [<-|Hne].
      * apply (known_wait _ _ e (ws ++ [acur a])); [apply lookup_insert_eq|].
        simplify_eq. set_solver.
      * apply (known_wait _ _ e' ws'); [|done]. cbn. by rewrite lookup_insert_ne.
Qed.

(** The queues after the current task yielded. *)
Definition yielded (a : astate) (r : s_task_t) (t : task_ptr) (q : list task_ptr) : astate :=
  mk_astate (q ++ [acur a]) (waitq a) (wevs a) ({[t]} ∪ idle a ∖ {[acur a]}) t
    (<[acur a := set_fc FcYield (set_waiting_cancelled false r)]> (ainfo a)).

Lemma a_yield_begin_run a r t q :
  inv running a → ainfo a !! acur a = Some r → runq a = t :: q → acur a ≠ t →
  a_yield_begin a = Some (Jumped, yielded a r t q).
Proof.
  intros Hi Hr Hq Ht. unfold a_yield_begin. rewrite a_cur_bind.
  unfold a_attach_active, mbind, ST_bind.
  rewrite bool_decide_eq_true_2 by apply (inv_cur _ _ Hi).
  rewrite (a_next_run _ _ r t (q ++ [acur a])); proj; [done|done|by rewrite Hq|done].
Qed.

Lemma yielded_inv a r t q :
  inv running a → uniq a → ainfo a !! acur a = Some r → runq a = t :: q →
  acur a ≠ main_task → inv runnable (yielded a r t q).
Proof.
  intros Hi Hu Hr Hq Hm. pose proof Hi as [Hw Hmn Hc Hk Hrn Hwt Hid Ht Hall].
  assert (acur a ∉ runq a) as Hcq by by apply (uniq_idle _ Hu).
  assert (acur a ≠ t) as Hct by (intros E; apply Hcq; rewrite Hq, E; left).
  split; cbn [yielded runq waitq wevs idle acur ainfo].
  - done.
  - destruct Hmn as [?|Hmn]; [done|]. rewrite Hq in Hmn. set_solver.
  - set_solver.
  - intros t' Hkn. assert (known t' a) as Hka; [|solve_present (Hk t' Hka)].
    unfold known in *; proj. rewrite Hq. destruct Hkn as [?|[?|?]]; set_solver.
  - intros t' r' Hin. destruct (decide (acur a = t')) as [<-|Hne].
    + rewrite lookup_insert_eq. intros [= <-]. destruct (Ht r Hr).
      split; [done|]. destruct (acur a); [done|]. simpl. auto.
    + rewrite lookup_insert_ne by done. apply Hrn. rewrite Hq. set_solver.
  - intros e ws t' r' He Hin. rewrite lookup_insert_ne; [by eapply Hwt|].
    intros <-. by eapply (uniq_idle_wait _ Hu).
  - intros t' r' Hin Hne. rewrite lookup_insert_ne by set_solver. apply Hid; set_solver.
  - intros r'. rewrite lookup_insert_ne by done. apply Hrn. rewrite Hq. left.
  - intros t' Hs. apply (insert_present _ _ _ _ _ Hr), Hall in Hs.
    destruct Hs as [Hin|[Hin|(e & ws & He & Hin)]]; [| |by eapply (known_wait _ _ e)].
    + destruct (decide (t' = acur a)); [right; left|left]; cbn; set_solver.
    + rewrite Hq in Hin. apply elem_of_cons in Hin as [->|Hin]; [left|right; left]; cbn; set_solver.
Qed.

(** ** Setting an event *)

(** The queues after [s_event_set e]. *)
Definition was_set (a : astate) (e : event_ptr) (ws : list task_ptr) (r : s_task_t) : astate :=
  mk_astate (runq a ++ ws) (<[e := []]> (waitq a)) (remove e (wevs a)) (idle a) (acur a)
    (<[acur a := set_waiting_event None r]> (ainfo a)).

Lemma a_set_run a e ws r :
  waitq a !! e = Some ws → ainfo a !! acur a = Some r →
  a_set e a = Some (tt, was_set a e ws r).
Proof.
  intros He Hr. unfold a_set, a_wake, mbind at 1, ST_bind. rewrite He. simpl.
  rewrite a_cur_bind. proj. unfold a_upd, mbind at 1, ST_bind. proj. rewrite Hr. simpl.
  unfold a_remove_waiting, a_event_empty, gets, mbind, ST_bind. proj.
  rewrite lookup_insert_eq. simpl. unfold a_detach_self. proj.
  by rewrite lookup_insert_eq.
Qed.

Lemma known_was_set a e ws r t :
  waitq a !! e = Some ws → known t (was_set a e ws r) → known t a.
Proof.
  intros He. unfold known, was_set; proj. intros [Hi|[Hi|(e' & ws' & He' & Hin)]].
  - by left.
  - apply elem_of_app in Hi as [Hi|Hi]; right; [by left|right]. by exists e, ws.
  - rewrite lookup_insert in He'. case_decide; simplify_eq; [set_solver|].
    right; right. by exists e', ws'.
Qed.

(** Waking the tasks blocked on an event keeps the invariant, whatever holds
    of the current task. *)
Lemma was_set_inv (P : task_ptr → s_task_t → Prop) a e ws r :
  (∀ t r, P t r → P t (set_waiting_event None r)) →
  inv P a → uniq a → waitq a !! e = Some ws → ainfo a !! acur a = Some r →
  inv P (was_set a e ws r).
Proof.
  intros HP [Hw Hmn Hc Hk Hrn Hwt Hid Ht Hall] Hu He Hr.
  split; cbn [was_set runq waitq wevs idle acur ainfo].
  - intros e'. rewrite elem_of_remove, Hw. setoid_rewrite lookup_insert.
    case_decide as Hee; [subst e'|]; naive_solver.
  - destruct Hmn as [?|?]; [by left|right]. set_solver.
  - done.
  - intros t Hkn. assert (known t a) as Hka by (eapply known_was_set; eauto).
    solve_present (Hk t Hka).
  - intros t r' Hin. apply elem_of_app in Hin as [Hin|Hin].
    + rewrite lookup_insert_ne; [by apply Hrn|]. intros <-. by apply (uniq_idle _ Hu _ Hc).
    + rewrite lookup_insert_ne by (intros <-; by eapply (uniq_idle_wait _ Hu)).
      intros Hr'. destruct (Hwt _ _ _ _ He Hin Hr') as (Hm & Hcl & Hf & _).
      split; [done|]. destruct t; [done|auto].
  - intros e' ws' t r' He' Hin. rewrite lookup_insert in He'. case_decide; [set_solver|].
    rewrite lookup_insert_ne by (intros <-; by eapply (uniq_idle_wait _ Hu)). by eapply Hwt.
  - intros t r' Hin Hne. rewrite lookup_insert_ne by done. by apply Hid.
  - intros r'. rewrite lookup_insert_eq. intros [= <-]. auto.
  - intros t Hs. apply (insert_present _ _ _ _ _ Hr), Hall in Hs.
    destruct Hs as [Hin|[Hin|(e' & ws' & He' & Hin)]]; [by left|right; left; cbn; set_solver|].
    destruct (decide (e = e')) as [<-|Hne]; [right; left; cbn; set_solver|].
    apply (known_wait _ _ e' ws'); [|done]. cbn. by rewrite lookup_insert_ne.
Qed.

(** ** The end of a task *)

Definition leaving (t : task_ptr) (r : s_task_t) : Prop := closed r = true.

(** The queues after a finished task switched away for good. *)
Definition left_behind (a : astate) (r : s_task_t) (t : task_ptr) (q : list task_ptr) : astate :=
  mk_astate q (waitq a) (wevs a) ({[t]} ∪ idle a) t
    (<[acur a := set_fc FcExit (set_waiting_cancelled false r)]> (ainfo a)).

Lemma left_behind_inv a r t q :
  inv leaving a → uniq a → ainfo a !! acur a = Some r → runq a = t :: q →
  acur a ≠ main_task → inv runnable (left_behind a r t q).
Proof.
  intros Hi Hu Hr Hq Hm. pose proof Hi as [Hw Hmn Hc Hk Hrn Hwt Hid Ht Hall].
  assert (acur a ∉ runq a) as Hcq by by apply (uniq_idle _ Hu).
  assert (acur a ≠ t) as Hct by (intros E; apply Hcq; rewrite Hq, E; left).
  split; cbn [left_behind runq waitq wevs idle acur ainfo].
  - done.
  - destruct Hmn as [?|Hmn]; [done|]. rewrite Hq in Hmn. apply elem_of_cons in Hmn as [?|?]; auto.
  - set_solver.
  - intros t' Hkn. assert (known t' a) as Hka; [|solve_present (Hk t' Hka)].
    unfold known in *; proj. rewrite Hq. destruct Hkn as [?|[?|?]]; set_solver.
  - intros t' r' Hin. rewrite lookup_insert_ne; [|intros E; apply Hcq; rewrite Hq, E; by right].
    apply Hrn. rewrite Hq. by right.
  - intros e ws t' r' He Hin. rewrite lookup_insert_ne; [by eapply Hwt|].
    intros <-. by eapply (uniq_idle_wait _ Hu).
  - intros t' r' Hin Hne. destruct (decide (acur a = t')) as [<-|Hne'].
    + rewrite lookup_insert_eq. intros [= <-]. split; [by apply (Ht r)|done].
    + rewrite lookup_insert_ne by done. apply Hid; set_solver.
  - intros r'. rewrite lookup_insert_ne by done. apply Hrn. rewrite Hq. left.
  - intros t' Hs. apply (insert_present _ _ _ _ _ Hr), Hall in Hs.
    destruct Hs as [Hin|[Hin|(e & ws & He & Hin)]]; [left; cbn; set_solver| |].
    + rewrite Hq in Hin. apply elem_of_cons in Hin as [->|Hin]; [left|right; left]; cbn; set_solver.
    + by eapply (known_wait _ _ e).
Qed.

(** ** Cancelling a wait *)

(** [e] loses its last waiter. *)
Definition drop_event (e : option event_ptr) (a : astate) : list event_ptr :=
  match e with
  | Some e => if bool_decide (waitq a !! e = Some []) then remove e (wevs a) else wevs a
  | None => wevs a
  end.

(** The queues after [s_task_cancel_wait t]. *)
Definition cancelled (a : astate) (t : task_ptr) (r rc : s_task_t) : astate :=
  let a1 := mk_astate (remove t (runq a) ++ [t]) (remove t <$> waitq a) (wevs a) (idle a)
    (acur a) (<[acur a := set_waiting_event None rc]>
               (<[t := set_waiting_cancelled true r]> (ainfo a))) in
  a_wevs (λ _, drop_event (waiting_event r) a1) a1.

(** A task that may be cancelled: not the caller, not finished, and the event
    it last waited for, if any, still in memory. *)
Definition cancellable (a : astate) (t : task_ptr) : Prop :=
  t ≠ acur a ∧ known t a ∧ (t ∉ idle a) ∧
  ∀ r e, ainfo a !! t = Some r → waiting_event r = Some e → is_Some (waitq a !! e).

Lemma a_remove_waiting_run a e :
  is_Some (waitq a !! e) →
  a_remove_waiting e a = Some (tt, a_wevs (λ _, drop_event (Some e) a) a).
Proof.
  intros [ws He]. unfold a_remove_waiting, a_event_empty, gets, mbind, ST_bind, drop_event.
  rewrite He. simpl. repeat case_bool_decide; simplify_eq; [|by destruct a].
  unfold a_detach_self. by rewrite He.
Qed.

Lemma a_cancel_wait_run a t r rc :
  cancellable a t → ainfo a !! t = Some r → ainfo a !! acur a = Some rc →
  a_cancel_wait t a = Some (tt, cancelled a t r rc).
Proof.
  intros (Hne & Hk & Hi & Hev) Hr Hc. unfold a_cancel_wait.
  st_step (a_upd_run _ (set_waiting_cancelled true) _ _ Hr).
  unfold a_detach, mbind at 1, ST_bind. rewrite bool_decide_eq_true_2 by done.
  unfold a_attach_active, mbind at 1, ST_bind. proj.
  rewrite bool_decide_eq_true_2 by set_solver. unfold a_idle, a_runq; proj.
  assert (({[t]} ∪ idle a) ∖ {[t]} = idle a) as -> by set_solver.
  unfold a_get, gets, mbind at 1, ST_bind. proj. rewrite lookup_insert_eq.
  rewrite a_cur_bind. unfold a_upd, mbind at 1, ST_bind. proj.
  rewrite lookup_insert_ne by done. rewrite Hc. cbn [option_bind mbind].
  change (waiting_event (set_waiting_cancelled true r)) with (waiting_event r).
  unfold cancelled. destruct (waiting_event r) as [e|] eqn:He; [|done].
  rewrite a_remove_waiting_run; [done|]. proj. rewrite lookup_fmap.
  destruct (Hev r e Hr He) as [ws ->]. by eexists.
Qed.

Lemma remove_fmap_Some t (m : gmap event_ptr (list task_ptr)) e ws :
  (remove t <$> m) !! e = Some ws → ∃ ws', m !! e = Some ws' ∧ ws = remove t ws'.
Proof. rewrite lookup_fmap, fmap_Some. naive_solver. Qed.

(** The waited-for events after [t] left the queue of the event it waits for. *)
Lemma drop_event_spec a t r e' :
  inv running a → uniq a → ainfo a !! t = Some r →
  (∀ e, waiting_event r = Some e → is_Some (waitq a !! e)) →
  e' ∈ drop_event (waiting_event r) (a_waitq (fmap (remove t)) a) ↔
  ∃ ws, (remove t <$> waitq a) !! e' = Some ws ∧ ws ≠ [].
Proof.
  intros Hi Hu Hr Hev. pose proof (inv_wevs _ _ Hi e') as Hw.
  assert (waiting_event r ≠ Some e' → ∀ ws, waitq a !! e' = Some ws → remove t ws = ws) as Hsame.
  { intros Hne ws He'. apply remove_notin. intros Hin. apply Hne.
    by apply (inv_wait _ _ Hi _ _ _ _ He' Hin Hr). }
  rewrite lookup_fmap.
  assert (e' ∈ wevs a → waiting_event r ≠ Some e' →
          ∃ ws, remove t <$> waitq a !! e' = Some ws ∧ ws ≠ []) as Hl.
  { intros Hin Hne. apply Hw in Hin as (ws & He' & Hws). exists ws.
    rewrite He'. simpl. by rewrite (Hsame Hne ws). }
  assert ((∃ ws, remove t <$> waitq a !! e' = Some ws ∧ ws ≠ []) → e' ∈ wevs a) as Hr'.
  { intros (ws & Hws & Hne). apply fmap_Some in Hws as (ws' & He' & ->).
    apply Hw. exists ws'. split; [done|]. by intros ->. }
  unfold drop_event. destruct (waiting_event r) as [e|]; [|naive_solver].
  proj. rewrite lookup_fmap. case_bool_decide as Hemp.
  - rewrite elem_of_remove. split; [intros [? Hee]; apply Hl; congruence|].
    intros Hx. split; [auto|]. intros ->. rewrite Hemp in Hx. naive_solver.
  - split; [|auto]. intros Hin. destruct (decide (e = e')) as [->|]; [|apply Hl; congruence].
    destruct (Hev e' eq_refl) as [ws He']. rewrite He' in *. simpl in *.
    exists (remove t ws). split; [done|]. congruence.
Qed.

Lemma cancellable_runnable a t r :
  inv running a → cancellable a t → ainfo a !! t = Some r → runnable t r.
Proof.
  intros Hi (Hne & Hk & Hid & _) Hr. destruct Hk as [?|[Hq|(e & ws & He & Hin)]]; [done|..].
  - by apply (inv_run _ _ Hi).
  - destruct (inv_wait _ _ Hi _ _ _ _ He Hin Hr) as (Hm & Hcl & Hf & _).
    split; [done|]. destruct t; [done|auto].
Qed.

Lemma cancelled_inv a t r rc :
  inv running a → uniq a → cancellable a t → ainfo a !! t = Some r →
  ainfo a !! acur a = Some rc → inv running (cancelled a t r rc).
Proof.
  intros Hi Hu Hca Hr Hrc. pose proof (cancellable_runnable _ _ _ Hi Hca Hr) as Hrun.
  destruct Hca as (Hne & Hkn & Hid & Hev). pose proof Hi as [Hw Hmn Hc Hk Hrn Hwt Hidl Ht Hall].
  split; cbn [cancelled a_wevs runq waitq wevs idle acur ainfo].
  - intros e'. apply (drop_event_spec a t r e' Hi Hu Hr). eauto.
  - destruct Hmn as [?|Hmn]; [by left|right]. rewrite elem_of_app, elem_of_remove.
    destruct (decide (main_task = t)); set_solver.
  - done.
  - intros t' Hkn'. assert (known t' a) as Hka; [|solve_present (Hk t' Hka)].
    unfold known in *; cbn [cancelled a_wevs runq waitq idle] in Hkn'.
    destruct Hkn' as [?|[Hin|(e & ws & He & Hin)]]; [by left|..].
    + apply elem_of_app in Hin as [[? _]%elem_of_remove|Hin]; [by right; left|].
      by apply list_elem_of_singleton in Hin as ->.
    + apply remove_fmap_Some in He as (ws' & He & ->). apply elem_of_remove in Hin as [? _].
      right; right. by exists e, ws'.
  - intros t' r' Hin. assert (acur a ≠ t') as Hct.
    { intros <-. apply elem_of_app in Hin as [[? _]%elem_of_remove|Hin].
      - by apply (uniq_idle _ Hu _ Hc).
      - apply list_elem_of_singleton in Hin. congruence. }
    rewrite lookup_insert_ne by done. rewrite lookup_insert. case_decide as Htt.
    + subst t'. intros [= <-]. by destruct Hrun.
    + apply Hrn. apply elem_of_app in Hin as [[? _]%elem_of_remove|Hin]; [done|].
      apply list_elem_of_singleton in Hin. congruence.
  - intros e ws t' r' He Hin. apply remove_fmap_Some in He as (ws' & He & ->).
    apply elem_of_remove in Hin as [Hin Htt].
    rewrite lookup_insert_ne by (intros <-; by eapply (uniq_idle_wait _ Hu)).
    rewrite lookup_insert_ne by done. by eapply Hwt.
  - intros t' r' Hin Hne'. rewrite lookup_insert_ne by done.
    rewrite lookup_insert_ne by (intros ->; done). by apply Hidl.
  - intros r'. rewrite lookup_insert_eq. intros [= <-]. by apply (Ht rc).
  - intros t' Hs. destruct (decide (t' = t)) as [->|Htt].
    { right; left. cbn. set_solver. }
    assert (is_Some (ainfo a !! t')) as Hs'.
    { revert Hs. rewrite !lookup_insert. repeat case_decide; subst; eauto; congruence. }
    destruct (Hall _ Hs') as [Hin|[Hin|(e & ws & He & Hin)]]; [by left| |].
    + right; left. cbn. rewrite elem_of_app, elem_of_remove. tauto.
    + apply (known_wait _ _ e (remove t ws)); [|by apply elem_of_remove].
      cbn. by rewrite lookup_fmap, He.
Qed.

(** ** Objects coming and going *)

Lemma new_event_inv a e :
  inv running a → waitq a !! e = None → inv running (a_waitq <[e := []]> a).
Proof.
  intros [Hw Hmn Hc Hk Hrn Hwt Hid Ht Hall] He. split; proj; [| | | |done| |done|done|].
  - intros e'. rewrite Hw. setoid_rewrite lookup_insert. case_decide; naive_solver.
  - done.
  - done.
  - intros t Hkn. assert (known t a) as Hka; [|solve_present (Hk t Hka)].
    destruct Hkn as [?|[?|(e' & ws & He' & Hin)]]; [by left|by right; left|].
    right; right. proj. rewrite lookup_insert in He'. case_decide; simplify_eq; [set_solver|].
    by exists e', ws.
  - intros e' ws t r He' Hin. rewrite lookup_insert in He'.
    case_decide; simplify_eq; [set_solver|]. by eapply Hwt.
  - intros t Hs. destruct (Hall t Hs) as [Hin|[Hin|(e' & ws & He' & Hin)]];
      [by left|by right; left|].
    apply (known_wait _ _ e' ws); [|done]. proj. rewrite lookup_insert_ne; congruence.
Qed.

Lemma free_event_inv a n :
  inv running a → waitq a !! Event n = Some [] → inv running (a_waitq (delete (Event n)) a).
Proof.
  intros [Hw Hmn Hc Hk Hrn Hwt Hid Ht Hall] He. split; proj; [| | | |done| |done|done|].
  - intros e'. rewrite Hw. setoid_rewrite lookup_delete. case_decide; naive_solver.
  - done.
  - done.
  - intros t Hkn. assert (known t a) as Hka.
    { destruct Hkn as [?|[?|(e' & ws & He' & Hin)]]; [by left|by right; left|].
      right; right. proj. rewrite lookup_delete in He'. case_decide; [done|].
      by exists e', ws. }
    destruct (Hk t Hka). split; simpl; [done|]. by rewrite lookup_delete_ne.
  - intros e' ws t r He' Hin. rewrite lookup_delete in He'. case_decide; [done|].
    by eapply Hwt.
  - intros t Hs. destruct (Hall t Hs) as [Hin|[Hin|(e' & ws & He' & Hin)]];
      [by left|by right; left|].
    apply (known_wait _ _ e' ws); [|done]. proj. rewrite lookup_delete_ne; [done|].
    intros <-. simplify_eq. set_solver.
Qed.

Lemma new_task_inv a n size entry arg :
  inv running a → ¬ known (Stack n) a → waitq a !! join_event (Stack n) = None →
  inv running (a_runq (λ q, q ++ [Stack n]) (a_waitq <[join_event (Stack n) := []]>
    (a_info <[Stack n := mk_task entry arg None FcEntry size false false]> a))).
Proof.
  intros [Hw Hmn Hc Hk Hrn Hwt Hid Ht Hall] Hn He. set (t := Stack n) in *. split; proj.
  - intros e'. rewrite Hw. setoid_rewrite lookup_insert. case_decide; naive_solver.
  - set_solver.
  - done.
  - intros t' Hkn. destruct (decide (t' = t)) as [->|Hne].
    { split; simpl; rewrite lookup_insert_eq; eauto. }
    assert (known t' a) as Hka; [|solve_present (Hk t' Hka)].
    destruct Hkn as [?|[Hin|(e' & ws & He' & Hin)]]; [by left| |]; proj.
    + right; left. set_solver.
    + right; right. rewrite lookup_insert in He'. case_decide; simplify_eq; [set_solver|].
      by exists e', ws.
  - intros t' r Hin. rewrite lookup_insert. case_decide as Htt.
    + intros [= <-]. subst t'. split; [done|]. simpl. auto.
    + apply Hrn. set_solver.
  - intros e' ws t' r He' Hin. rewrite lookup_insert in He'.
    case_decide; simplify_eq; [set_solver|].
    rewrite lookup_insert_ne; [by eapply Hwt|]. intros E. subst t'. apply Hn. right; right.
    by exists e', ws.
  - intros t' r Hin Hne. rewrite lookup_insert_ne; [by apply Hid|]. intros E. apply Hn. rewrite E. by left.
  - intros r. rewrite lookup_insert_ne; [apply Ht|]. intros E. apply Hn. rewrite E. by left.
  - intros t' Hs. destruct (decide (t' = t)) as [->|Htt].
    { right; left. proj. set_solver. }
    rewrite lookup_insert_ne in Hs by done.
    destruct (Hall _ Hs) as [Hin|[Hin|(e & ws & He' & Hin)]]; [by left| |].
    + right; left. proj. set_solver.
    + apply (known_wait _ _ e ws); [|done]. proj. rewrite lookup_insert_ne; congruence.
Qed.

Lemma free_task_inv a t :
  inv running a → uniq a → t ∈ idle a → t ≠ acur a → waitq a !! join_event t = Some [] →
  inv running (a_idle (λ i, i ∖ {[t]}) (a_waitq (delete (join_event t)) (a_info (delete t) a))).
Proof.
  intros [Hw Hmn Hc Hk Hrn Hwt Hid Ht Hall] Hu Hi Hne He. split; proj.
  - intros e'. rewrite Hw. setoid_rewrite lookup_delete. case_decide; naive_solver.
  - done.
  - set_solver.
  - intros t' Hkn. assert (known t' a ∧ t' ≠ t) as [Hka Htt].
    { destruct Hkn as [Hin|[Hin|(e' & ws & He' & Hin)]]; proj.
      - split; [left|]; set_solver.
      - split; [by right; left|]. intros ->. by apply (uniq_idle _ Hu _ Hi).
      - rewrite lookup_delete in He'. case_decide; [done|].
        split; [right; right; by exists e', ws|]. intros ->.
        by apply (uniq_idle_wait _ Hu _ _ _ Hi He'). }
    destruct (Hk t' Hka). split; simpl; rewrite lookup_delete_ne; congruence || done.
  - intros t' r Hin Hr. apply lookup_delete_Some in Hr as [? Hr]. by apply Hrn.
  - intros e' ws t' r He' Hin Hr. apply lookup_delete_Some in Hr as [? Hr].
    apply lookup_delete_Some in He' as [? He']. by eapply Hwt.
  - intros t' r Hin Hnc Hr. apply lookup_delete_Some in Hr as [? Hr]. apply (Hid t'); set_solver.
  - intros r Hr. apply lookup_delete_Some in Hr as [? Hr]. by apply Ht.
  - intros t' [r Hs]. apply lookup_delete_Some in Hs as [Htt Hs].
    destruct (Hall t' (mk_is_Some _ _ Hs)) as [Hin|[Hin|(e & ws & He' & Hin)]].
    + left. proj. set_solver.
    + by right; left.
    + apply (known_wait _ _ e ws); [|done]. proj. rewrite lookup_delete_ne; [done|].
      intros <-. simplify_eq. set_solver.
Qed.

(** ** The interface as a transition system *)

(** A call made by the running code, to be judged against the contract. *)
Inductive call : Type :=
  | CWait (e : event_ptr)                       (* s_event_wait *)
  | CYield                                      (* s_task_yield *)
  | CSet (e : event_ptr)                        (* s_event_set *)
  | CCancel (t : task_ptr)                      (* s_task_cancel_wait *)
  | CLoop                                       (* s_task_main_loop_once *)
  | CReturn                                     (* the entry function returns *)
  | CNewEvent (junk : s_list_t lnode) (n : nat) (* an event, and s_event_init *)
  | CFreeEvent (n : nat)
  | CCreate (junk : s_list_t lnode) (junk_task : s_task_t) (n : nat) (size entry arg : Z)
  | CFreeTask (t : task_ptr).

Definition returning (m : SM unit) : SM outcome := m;; mret CallReturned.

Definition exec (c : call) : SM outcome :=
  match c with
  | CWait e => s_event_wait e
  | CYield => s_task_yield
  | CSet e => returning (s_event_set e)
  | CCancel t => returning (s_task_cancel_wait t)
  | CLoop => s_task_main_loop_once
  | CReturn => s_task_context_entry_return
  | CNewEvent junk n => returning (new_event junk (Event n))
  | CFreeEvent n => returning (free_event (Event n))
  | CCreate junk junk_task n size entry arg =>
      returning (new_task junk junk_task (Stack n) size entry arg)
  | CFreeTask t => returning (free_task t)
  end.

Definition aexec (c : call) : AM outcome :=
  match c with
  | CWait e => a_wait e
  | CYield => a_yield
  | CSet e => a_set e;; mret CallReturned
  | CCancel t => a_cancel_wait t;; mret CallReturned
  | CLoop => a_main_loop_once
  | CReturn => a_exit
  | CNewEvent junk n => a_new_event (Event n);; mret CallReturned
  | CFreeEvent n => a_free_event (Event n);; mret CallReturned
  | CCreate junk junk_task n size entry arg =>
      a_new_task (Stack n) size entry arg;; mret CallReturned
  | CFreeTask t => a_free_task t;; mret CallReturned
  end.

(** What a caller must ensure: only coroutines suspend, only the main task
    runs the loop, an event that is used is alive and is freed with nobody
    waiting for it, a task that is freed is finished. *)
Definition contract (c : call) (a : astate) : Prop :=
  match c with
  | CWait e => acur a ≠ main_task ∧ is_Some (waitq a !! e)
  | CYield => acur a ≠ main_task
  | CSet e => is_Some (waitq a !! e)
  | CCancel t => cancellable a t
  | CLoop => acur a = main_task
  | CReturn => acur a ≠ main_task
  | CNewEvent _ n => waitq a !! Event n = None
  | CFreeEvent n => waitq a !! Event n = Some []
  | CCreate _ _ n _ _ _ =>
      ¬ known (Stack n) a ∧ waitq a !! join_event (Stack n) = None ∧ ainfo a !! Stack n = None
  | CFreeTask t => t ∈ idle a ∧ t ≠ acur a ∧ waitq a !! join_event t = Some []
  end.

#[export] Instance refines_exec c : Refines (exec c) (aexec c).
Proof. destruct c; unfold exec, aexec, returning; apply _. Qed.

(** Leaving the processor always finds somebody to run: the main task. *)
Lemma next_runner a :
  inv running a → uniq a → acur a ≠ main_task →
  ∃ r t q, ainfo a !! acur a = Some r ∧ runq a = t :: q ∧ acur a ≠ t.
Proof.
  intros Hi Hu Hm.
  destruct (inv_known _ _ Hi (acur a)) as [[r Hr] _]; [left; apply (inv_cur _ _ Hi)|].
  destruct (inv_main _ _ Hi) as [?|Hmq]; [done|].
  destruct (runq a) as [|t q] eqn:Hq; [set_solver|]. exists r, t, q. split_and!; [done..|].
  intros <-. apply (uniq_idle _ Hu (acur a)); [apply (inv_cur _ _ Hi)|]. rewrite Hq. left.
Qed.

(** A call that suspends: if its first half ends in a switch to a runnable
    task, the whole call is defined and keeps the invariant. *)
Lemma suspend_ok F g a (m : SM switch) (f : AM switch) a1 :
  Refines m f → sim F g a → f a = Some (Jumped, a1) → inv runnable a1 →
  ∃ o a', (s ← f; match s with Jumped => a_resume | Returned => fault end) a = Some (o, a') ∧
    inv running a'.
Proof.
  intros Hm Hs Hf Hi. destruct (Hm F g a _ _ Hs Hf) as (g1 & _ & Hs1).
  destruct (resume_inv a1 Hi (sim_uniq _ _ _ Hs1)) as (o & a' & Hr & Hi').
  exists o, a'. split; [|done]. by st_step Hf.
Qed.

Lemma wait_ok F g a e ws :
  ok F g a → acur a ≠ main_task → waitq a !! e = Some ws →
  ∃ o a', a_wait e a = Some (o, a') ∧ inv running a'.
Proof.
  intros [Hs Hi] Hm He. pose proof (sim_uniq _ _ _ Hs) as Hu.
  destruct (next_runner a Hi Hu Hm) as (r & t & q & Hr & Hq & Ht).
  eapply (suspend_ok F g a (s_event_wait_begin e)); [apply _|done|by apply a_wait_begin_run|].
  by apply waited_inv.
Qed.

Lemma yield_ok F g a :
  ok F g a → acur a ≠ main_task → ∃ o a', a_yield a = Some (o, a') ∧ inv running a'.
Proof.
  intros [Hs Hi] Hm. pose proof (sim_uniq _ _ _ Hs) as Hu.
  destruct (next_runner a Hi Hu Hm) as (r & t & q & Hr & Hq & Ht).
  eapply (suspend_ok F g a s_task_yield_begin); [apply _|done|by apply a_yield_begin_run|].
  by apply yielded_inv.
Qed.

Lemma return_ok F g a :
  ok F g a → acur a ≠ main_task → ∃ o a', a_exit a = Some (o, a') ∧ inv running a'.
Proof.
  intros [Hs Hi] Hm. pose proof (sim_uniq _ _ _ Hs) as Hu.
  destruct (next_runner a Hi Hu Hm) as (r & t & q & Hr & Hq & Ht).
  destruct (inv_known _ _ Hi (acur a)) as [_ [ws He]]; [left; apply (inv_cur _ _ Hi)|].
  set (a1 := a_info <[acur a := set_closed true r]> a).
  assert (inv leaving a1) as Hi1 by (subst a1; eapply inv_upd_cur; by eauto).
  assert (uniq a1) as Hu1 by (destruct Hu; by split).
  assert (ainfo a1 !! acur a1 = Some (set_closed true r)) as Hr1 by apply lookup_insert_eq.
  set (a2 := was_set a1 (join_event (acur a)) ws (set_closed true r)).
  assert (inv leaving a2) as Hi2 by (apply was_set_inv; done).
  assert (sim F g a → ∃ g2, sim F g2 a2) as Hs2.
  { intros _. destruct (refines_bind _ _ _ _ (refines_upd (acur a) (set_closed true))
      (λ _, refines_set (join_event (acur a))) F g a tt a2 Hs) as (g2 & _ & ?); [|eauto].
    st_step (a_upd_run _ (set_closed true) _ _ Hr). by apply a_set_run. }
  destruct (Hs2 Hs) as [g2 Hsim2].
  assert (ainfo a2 !! acur a2 = Some (set_waiting_event None (set_closed true r))) as Hr2
    by apply lookup_insert_eq.
  eapply (suspend_ok F g a s_task_context_exit); [apply _|done| |].
  - unfold a_context_exit. rewrite a_cur_bind. st_step (a_upd_run _ (set_closed true) _ _ Hr).
    st_step (a_set_run a1 (join_event (acur a)) ws (set_closed true r) He Hr1).
    apply (a_next_run _ a2 _ t (q ++ ws) Hr2); [|done]. cbn. by rewrite Hq.
  - apply (left_behind_inv a2); [done|by eapply sim_uniq|done| |done]. cbn. by rewrite Hq.
Qed.

(** Every call within the contract is defined, does what the queue machine
    does, and keeps the invariant. *)
Lemma call_ok F g a c :
  ok F g a → contract c a →
  ∃ o g' a', exec c g = Some (o, g') ∧ aexec c a = Some (o, a') ∧ ok F g' a'.
Proof.
  intros [Hs Hi] Hc. pose proof (sim_uniq _ _ _ Hs) as Hu.
  assert (∃ o a', aexec c a = Some (o, a') ∧ inv running a') as (o & a' & Ha & Hi').
  { destruct (inv_known _ _ Hi (acur a)) as [[r Hr] _]; [left; apply (inv_cur _ _ Hi)|].
    destruct c; simpl in Hc |- *.
    - destruct Hc as [Hm [ws He]]. by eapply (wait_ok F g).
    - by eapply (yield_ok F g).
    - destruct Hc as [ws He]. st_step (a_set_run _ _ _ _ He Hr).
      eexists _, _. split; [done|]. apply was_set_inv; done.
    - destruct (inv_known _ _ Hi t) as [[rt Hrt] _]; [apply Hc|].
      st_step (a_cancel_wait_run _ _ _ _ Hc Hrt Hr).
      eexists _, _. split; [done|]. by apply cancelled_inv.
    - rewrite Hc in Hr. destruct (main_loop_inv _ _ Hi Hu Hc Hr) as (o & a' & ? & ? & _). eauto.
    - by eapply (return_ok F g).
    - unfold a_new_event, mbind, ST_bind. rewrite Hc. eexists _, _. split; [done|].
      by apply new_event_inv.
    - unfold a_free_event, mbind, ST_bind. rewrite bool_decide_eq_true_2.
      + eexists _, _. split; [done|]. by apply free_event_inv.
      + split; [done|]. rewrite (inv_wevs _ _ Hi). naive_solver.
    - destruct Hc as (Hk & He & Hin). unfold a_new_task, mbind, ST_bind.
      rewrite bool_decide_eq_true_2 by done. eexists _, _. split; [done|].
      by apply new_task_inv.
    - destruct Hc as (Hid & Hne & He). unfold a_free_task, mbind, ST_bind.
      destruct (inv_known _ _ Hi t) as [Hpr _]; [by left|].
      rewrite bool_decide_eq_true_2.
      + eexists _, _. split; [done|]. by apply free_task_inv.
      + split_and!; [done..| |done]. rewrite (inv_wevs _ _ Hi). naive_solver. }
  destruct (refines_exec c F g a o a' Hs Ha) as (g' & Hg & Hs').
  by exists o, g', a'.
Qed.

(** ** Reachable states *)

(** Static storage before [s_task_init_system_]: the fields of [g_globals]
    with arbitrary contents, and the initialised list [all_tasks] of
    src/se_libs.c. *)
Definition boot (junk : s_list_t lnode) : s_task_globals_t :=
  mk_globals
    (<[active_tasks := junk]> (<[waiting_events := junk]> (<[task_node main_task := junk]>
      (<[wait_list (join_event main_task) := junk]> (<[self (join_event main_task) := junk]>
        {[all_tasks := mk_s_list all_tasks all_tasks]})))))
    {[main_task := mk_task 0 0 None FcRunning 0 false false]} main_task.

Definition ainit : astate :=
  mk_astate [] {[join_event main_task := []]} [] {[main_task]} main_task
    {[main_task := mk_task 0 0 None FcRunning 0 false false]}.

Definition booted : s_task_globals_t :=
  mk_globals
    (list_to_map ((λ x, (x, mk_s_list x x)) <$>
      [active_tasks; waiting_events; task_node main_task; wait_list (join_event main_task);
       self (join_event main_task); all_tasks]))
    {[main_task := mk_task 0 0 None FcRunning 0 false false]} main_task.

Lemma boot_run junk : s_task_init_system_ (boot junk) = Some (tt, booted).
Proof. destruct junk. vm_compute. reflexivity. Qed.

Lemma booted_ok : ok [(all_tasks, [])] booted ainit.
Proof.
  split; [split|split].
  - change (layout ainit ++ [(all_tasks, [])]) with
      ((λ x, (x, [] : list lnode)) <$> [active_tasks; waiting_events;
        wait_list (join_event main_task); self (join_event main_task);
        task_node main_task; all_tasks]).
    split; [split|].
    + refine (bool_decide_unpack _ _). by vm_compute.
    + apply Forall_forall. intros r Hr. apply list_elem_of_fmap in Hr as (x & -> & Hx).
      repeat (apply elem_of_cons in Hx as [->|Hx]; [by repeat split; vm_compute|]). set_solver.
    + refine (bool_decide_unpack _ _). by vm_compute.
  - by repeat constructor.
  - intros e He. simpl in He. set_solver.
  - done.
  - done.
  - intros e. simpl. split; [set_solver|]. intros (ws & He & Hne).
    by apply lookup_singleton_Some in He as [_ <-].
  - by left.
  - simpl. set_solver.
  - intros t [Ht|[Ht|(e & ws & He & Ht)]]; simpl in *; [|set_solver|].
    + apply elem_of_singleton in Ht as ->. by repeat econstructor.
    + apply lookup_singleton_Some in He as [_ <-]. set_solver.
  - simpl. set_solver.
  - intros e ws t r He. simpl in He. apply lookup_singleton_Some in He as [_ <-]. set_solver.
  - intros t r Ht Hne. simpl in *. set_solver.
  - intros r. simpl. rewrite lookup_singleton_eq. by intros [= <-].
  - intros t [r Hr]. simpl in Hr. apply lookup_singleton_Some in Hr as [<- _].
    left. simpl. set_solver.
Qed.

(** States of the scheduler that calls within the contract lead to. *)
Inductive reachable : s_task_globals_t → astate → Prop :=
  | reach_init junk g : s_task_init_system_ (boot junk) = Some (tt, g) → reachable g ainit
  | reach_call g a c o g' a' :
      reachable g a → contract c a → exec c g = Some (o, g') → aexec c a = Some (o, a') →
      reachable g' a'.

Lemma reachable_ok g a : reachable g a → ok [(all_tasks, [])] g a.
Proof.
  induction 1 as [junk g Hg|g a c o g' a' Hr IH Hc Hg Ha].
  - rewrite boot_run in Hg. simplify_eq. apply booted_ok.
  - destruct (call_ok _ _ _ _ IH Hc) as (o2 & g2 & a2 & Hg2 & Ha2 & Hok). by simplify_eq.
Qed.
