(* ===== verification/SchedTheorems.v ===== *)
(** * What the coroutine scheduler guarantees

    The properties of s_task.c and s_event.c that their clients rely on,
    stated over the reachable states of [SchedInv]. *)

From S2P Require Import Prelude SList STask SchedSpec SchedInv.

(** ** Concrete runs *)

(** The event a task last waited for, if any, is in memory. *)
Definition event_alive (a : astate) (t : task_ptr) : Prop :=
  match ainfo a !! t with
  | Some r => match waiting_event r with Some e => is_Some (waitq a !! e) | None => True end
  | None => True
  end.

#[export] Instance event_alive_dec a t : Decision (event_alive a t).
Proof. unfold event_alive. repeat case_match; apply _. Defined.

Lemma cancellable_alt a t :
  cancellable a t ↔ t ≠ acur a ∧ known t a ∧ (t ∉ idle a) ∧ event_alive a t.
Proof.
  unfold cancellable, event_alive. do 3 f_equiv.
  destruct (ainfo a !! t) as [r|]; [|naive_solver].
  destruct (waiting_event r) as [e|] eqn:He; [|naive_solver]. split; [by eauto|].
  intros Hx r' e' [= <-] He'. congruence.
Qed.

#[export] Instance cancellable_dec a t : Decision (cancellable a t).
Proof.
  refine (cast_if (decide (t ≠ acur a ∧ known t a ∧ (t ∉ idle a) ∧ event_alive a t)));
    by rewrite cancellable_alt.
Defined.

#[export] Instance contract_dec c a : Decision (contract c a).
Proof. destruct c; simpl; apply _. Defined.

(** Run both machines side by side as long as the contract is respected. *)
Definition run_call (s : s_task_globals_t * astate) (c : call) :
    option (s_task_globals_t * astate) :=
  if bool_decide (contract c s.2) then
    match exec c s.1, aexec c s.2 with
    | Some (_, g), Some (_, a) => Some (g, a)
    | _, _ => None
    end
  else None.

Fixpoint run_calls (s : s_task_globals_t * astate) (cs : list call) :
    option (s_task_globals_t * astate) :=
  match cs with
  | [] => Some s
  | c :: cs => s' ← run_call s c; run_calls s' cs
  end.

Lemma run_call_reachable s c s' :
  reachable s.1 s.2 → run_call s c = Some s' → reachable s'.1 s'.2.
Proof.
  intros Hr. unfold run_call. case_bool_decide as Hc; [|done].
  destruct (call_ok _ _ _ _ (reachable_ok _ _ Hr) Hc) as (o & g' & a' & Hg & Ha & _).
  rewrite Hg, Ha. intros [= <-]. by eapply reach_call.
Qed.

Lemma run_calls_reachable cs s s' :
  reachable s.1 s.2 → run_calls s cs = Some s' → reachable s'.1 s'.2.
Proof.
  revert s; induction cs as [|c cs IH]; intros s Hr; simpl; [by intros [= <-]|].
  destruct (run_call s c) as [s1|] eqn:H1; [|done]. simpl.
  apply IH. by eapply run_call_reachable.
Qed.

(** Two tasks are created; in the first round task 1 waits for event 7 and
    task 2 yields once and waits for the same event. *)
Definition demo : list call :=
  let j := mk_s_list active_tasks all_tasks in
  let jt := mk_task 9 9 (Some (Event 3)) FcExit 9 true true in
  [CCreate j jt 1 4096 10 20; CCreate j jt 2 4096 11 21; CNewEvent j 7; CLoop;
   CWait (Event 7); CYield; CWait (Event 7)].

(** The states after the first [n] calls of [demo]. *)
Definition demo_at (n : nat) : s_task_globals_t * astate :=
  default (booted, ainit) (run_calls (booted, ainit) (take n demo)).

Lemma demo_reachable n : reachable (demo_at n).1 (demo_at n).2.
Proof.
  assert (reachable booted ainit) as H0
    by (eapply (reach_init (mk_s_list active_tasks active_tasks)), boot_run).
  unfold demo_at. destruct (run_calls _ _) as [s|] eqn:Hs; simpl; [|done].
  by apply (run_calls_reachable _ (booted, ainit) _ H0 Hs).
Qed.

Example demo_runs : bool_decide (is_Some (run_calls (booted, ainit) demo)) = true.
Proof. vm_compute. reflexivity. Qed.

(** ** Safety and refinement *)

(** C2. The linked lists implement the queues, without a fault: in every
    reachable state, every call that respects the interface's contract
    (waiting, yielding, setting an event, cancelling a wait, running the main
    loop, ending a task, creating and releasing events and tasks) returns
    without touching memory that is not there or resuming a dead context,
    with the outcome of the abstract machine over plain lists, and leads to a
    reachable state again. *)
Theorem scheduler_safe g a c :
  reachable g a → contract c a →
  ∃ o g' a', exec c g = Some (o, g') ∧ aexec c a = Some (o, a') ∧ reachable g' a'.
Proof.
  intros Hr Hc.
  destruct (call_ok _ _ _ _ (reachable_ok _ _ Hr) Hc) as (o & g' & a' & Hg & Ha & _).
  exists o, g', a'. split_and!; [done..|]. by eapply reach_call.
Qed.

Lemma scheduler_safe_witness :
  contract (CWait (Event 7)) (demo_at 6).2 ∧
  ∃ o g' a', exec (CWait (Event 7)) (demo_at 6).1 = Some (o, g') ∧
    aexec (CWait (Event 7)) (demo_at 6).2 = Some (o, a') ∧ reachable g' a'.
Proof.
  assert (contract (CWait (Event 7)) (demo_at 6).2) as Hc
    by (refine (bool_decide_unpack _ _); vm_compute; exact I).
  split; [exact Hc|]. apply scheduler_safe; [apply demo_reachable|exact Hc].
Defined.

(** C7. No task is lost: in every reachable state a task that has not ended
    is the current one, on the run queue, or on the queue of exactly one
    event, and in one of these places only; the current task is on none of
    the lists. *)
Theorem no_task_lost g a t r :
  reachable g a → tasks g !! t = Some r → closed r = false →
  (t = acur a ∧ (t ∉ runq a) ∧ ∀ e ws, waitq a !! e = Some ws → t ∉ ws) ∨
  (t ≠ acur a ∧ t ∈ runq a ∧ ∀ e ws, waitq a !! e = Some ws → t ∉ ws) ∨
  (t ≠ acur a ∧ (t ∉ runq a) ∧
   ∃ e ws, waitq a !! e = Some ws ∧ t ∈ ws ∧
     ∀ e' ws', waitq a !! e' = Some ws' → t ∈ ws' → e' = e).
Proof.
  intros Hre Hr Hcl. destruct (reachable_ok _ _ Hre) as [Hs Hi].
  pose proof (sim_uniq _ _ _ Hs) as Hu. rewrite (sim_tasks _ _ _ Hs) in Hr.
  pose proof (inv_cur _ _ Hi) as Hc.
  destruct (inv_all _ _ Hi t (mk_is_Some _ _ Hr)) as [Hin|[Hin|(e & ws & He & Hin)]].
  - destruct (decide (t = acur a)) as [->|Hne].
    + left. split_and!; [done|by apply (uniq_idle _ Hu)|]. intros. by eapply (uniq_idle_wait _ Hu).
    + destruct (inv_idle _ _ Hi t r Hin Hne Hr). congruence.
  - right; left. split_and!; [|done|].
    + intros ->. by apply (uniq_idle _ Hu _ Hc).
    + intros e ws He. by eapply (uniq_run_wait _ Hu).
  - right; right. split_and!.
    + intros ->. by apply (uniq_idle_wait _ Hu _ _ _ Hc He).
    + intros Hq. by apply (uniq_run_wait _ Hu _ _ _ Hq He).
    + exists e, ws. split_and!; [done..|]. intros e' ws' He' Hin'. by eapply (uniq_wait _ Hu).
Qed.

Lemma no_task_lost_witness :
  tasks (demo_at 5).1 !! Stack 1 =
    Some (mk_task 10 20 (Some (Event 7)) FcWait 4096 false false) ∧
  (Stack 1 ≠ acur (demo_at 5).2).
Proof.
  assert (tasks (demo_at 5).1 !! Stack 1 =
    Some (mk_task 10 20 (Some (Event 7)) FcWait 4096 false false)) as H1
    by (vm_compute; reflexivity).
  split; [exact H1|].
  destruct (no_task_lost _ _ _ _ (demo_reachable 5) H1 eq_refl) as [[_ [_ Hw]]|[[H _]|[H _]]];
    [|exact H|exact H].
  exfalso. refine (Hw (Event 7) [Stack 1] _ _); [vm_compute; reflexivity|left].
Defined.

(** ** Waking up *)

Lemma reachable_sim g a : reachable g a → sim [(all_tasks, [])] g a.
Proof. intros Hr. apply (reachable_ok _ _ Hr). Qed.

Lemma reachable_cur g a : reachable g a → ∃ r, ainfo a !! acur a = Some r.
Proof.
  intros Hr. destruct (reachable_ok _ _ Hr) as [_ Hi].
  destruct (inv_known _ _ Hi (acur a)) as [[r Hc] _]; [left; apply (inv_cur _ _ Hi)|eauto].
Qed.

(** C16. [s_event_set] wakes everybody, in order: all tasks blocked on the
    event, and nobody else, go to the end of the run queue in the order they
    came; the event's queue is empty, the event is off the list of waited-for
    events, no other queue changes, and every woken [s_event_wait] will
    return 0. *)
Theorem event_set_wakes_all g a e ws :
  reachable g a → waitq a !! e = Some ws →
  ∃ g' a', s_event_set e g = Some (tt, g') ∧ reachable g' a' ∧
    runq a' = runq a ++ ws ∧ waitq a' !! e = Some [] ∧ (e ∉ wevs a') ∧
    (∀ e', e' ≠ e → waitq a' !! e' = waitq a !! e') ∧
    (∀ t, t ∈ ws → ∃ r, tasks g' !! t = Some r ∧ observed r = WaitReturned 0).
Proof.
  intros Hre He. destruct (reachable_ok _ _ Hre) as [Hs Hi].
  destruct (reachable_cur _ _ Hre) as [rc Hrc].
  destruct (refines_set e _ g a _ _ Hs (a_set_run _ _ _ _ He Hrc)) as (g' & Hg & Hs').
  exists g', (was_set a e ws rc). split_and!; [done| |done| | | |].
  - apply (reach_call g a (CSet e) CallReturned); [done|by exists ws| |]; simpl.
    + unfold returning. by st_step Hg.
    + by st_step (a_set_run _ _ _ _ He Hrc).
  - apply lookup_insert_eq.
  - simpl. rewrite elem_of_remove. naive_solver.
  - intros e' Hne. simpl. by rewrite lookup_insert_ne.
  - intros t Ht. rewrite (sim_tasks _ _ _ Hs'). simpl.
    destruct (inv_known _ _ Hi t) as [[r Hr] _]; [by eapply known_wait|].
    destruct (inv_wait _ _ Hi _ _ _ _ He Ht Hr) as (_ & _ & Hf & _ & Hca).
    exists r. split; [|by unfold observed; rewrite Hf, Hca].
    rewrite lookup_insert_ne; [done|]. intros <-.
    by apply (uniq_idle_wait _ (sim_uniq _ _ _ Hs) _ _ _ (inv_cur _ _ Hi) He).
Qed.

Lemma event_set_wakes_all_witness :
  waitq (demo_at 7).2 !! Event 7 = Some [Stack 1; Stack 2] ∧
  ∃ g' a', s_event_set (Event 7) (demo_at 7).1 = Some (tt, g') ∧ runq a' = [Stack 1; Stack 2].
Proof.
  assert (waitq (demo_at 7).2 !! Event 7 = Some [Stack 1; Stack 2]) as Hw
    by (vm_compute; reflexivity).
  split; [exact Hw|].
  destruct (event_set_wakes_all _ _ _ _ (demo_reachable 7) Hw) as (g' & a' & Hg & _ & Hq & _).
  exists g', a'. split; [exact Hg|]. rewrite Hq.
  assert (runq (demo_at 7).2 = []) as -> by (vm_compute; reflexivity). reflexivity.
Defined.

(** [s_task_cancel_wait] takes one blocked task out: it leaves the queue
    of its event for the end of the run queue and its [s_event_wait] will
    return -1; the other waiters and the other queues keep their order, and
    the event stays on the list of waited-for events exactly if somebody
    still waits for it. *)
Theorem cancel_wait_wakes_one g a e ws t :
  reachable g a → waitq a !! e = Some ws → t ∈ ws →
  ∃ g' a', s_task_cancel_wait t g = Some (tt, g') ∧ reachable g' a' ∧
    runq a' = runq a ++ [t] ∧ waitq a' !! e = Some (remove t ws) ∧
    (e ∈ wevs a' ↔ remove t ws ≠ []) ∧
    (∀ e', e' ≠ e → waitq a' !! e' = waitq a !! e') ∧
    (∃ r, tasks g' !! t = Some r ∧ observed r = WaitReturned (-1)).
Proof.
  intros Hre He Ht. destruct (reachable_ok _ _ Hre) as [Hs Hi].
  pose proof (sim_uniq _ _ _ Hs) as Hu. pose proof (inv_cur _ _ Hi) as Hc.
  destruct (reachable_cur _ _ Hre) as [rc Hrc].
  destruct (inv_known _ _ Hi t) as [[r Hr] _]; [by eapply known_wait|].
  destruct (inv_wait _ _ Hi _ _ _ _ He Ht Hr) as (_ & _ & Hf & Hwe & _).
  assert (t ≠ acur a) as Htc by (intros ->; by apply (uniq_idle_wait _ Hu _ _ _ Hc He)).
  assert (cancellable a t) as Hca.
  { split_and!; [done|by eapply known_wait| |].
    - intros Hid. by apply (uniq_idle_wait _ Hu _ _ _ Hid He).
    - intros r' e' Hr' He'. simplify_eq. eauto. }
  pose proof (a_cancel_wait_run _ _ _ _ Hca Hr Hrc) as Ha.
  destruct (refines_cancel_wait t _ g a _ _ Hs Ha) as (g' & Hg & Hs').
  pose proof (cancelled_inv _ _ _ _ Hi Hu Hca Hr Hrc) as Hi'.
  exists g', (cancelled a t r rc). split_and!; [done| | | | | |].
  - apply (reach_call g a (CCancel t) CallReturned); [done..| |]; simpl.
    + unfold returning. by st_step Hg.
    + by st_step Ha.
  - simpl. rewrite remove_notin; [done|]. intros Hq. by apply (uniq_run_wait _ Hu _ _ _ Hq He).
  - simpl. by rewrite lookup_fmap, He.
  - rewrite (inv_wevs _ _ Hi'). simpl. rewrite lookup_fmap, He. simpl. naive_solver.
  - intros e' Hne. simpl. rewrite lookup_fmap. destruct (waitq a !! e') as [ws'|] eqn:He'; [|done].
    simpl. f_equal. apply remove_notin. intros Hin. apply Hne. by eapply (uniq_wait _ Hu).
  - rewrite (sim_tasks _ _ _ Hs'). simpl. rewrite lookup_insert_ne by done.
    rewrite lookup_insert_eq. eexists. split; [done|]. unfold observed. simpl. by rewrite Hf.
Qed.

Lemma cancel_wait_wakes_one_witness :
  ∃ g' a', s_task_cancel_wait (Stack 1) (demo_at 7).1 = Some (tt, g') ∧
    runq a' = [Stack 1] ∧ waitq a' !! Event 7 = Some [Stack 2].
Proof.
  destruct (cancel_wait_wakes_one _ _ (Event 7) [Stack 1; Stack 2] (Stack 1) (demo_reachable 7))
    as (g' & a' & Hg & _ & Hq & Hw & _); [vm_compute; reflexivity|left|].
  exists g', a'. split; [exact Hg|]. rewrite Hq, Hw.
  split; [|reflexivity].
  assert (runq (demo_at 7).2 = []) as -> by (vm_compute; reflexivity). reflexivity.
Defined.
