(* ===== verification/SchedLive.v ===== *)
(** * Order and progress of the coroutine scheduler

    Who runs next after each call of s_task.c and s_event.c, and that a task
    on the run queue gets the processor after a bounded number of switches. *)

From S2P Require Import Prelude SList STask SchedSpec SchedInv SchedTheorems.

(** ** Who runs next *)

(** After a switch to [acur a]: it continues, or it is the main task, whose
    loop returns when nobody is runnable and otherwise queues the main task
    again and switches to the head of the queue. *)
Inductive next_runs (a : astate) (o : outcome) (a' : astate) : Prop :=
  | next_task :
      acur a ≠ main_task → acur a' = acur a → runq a' = runq a → next_runs a o a'
  | next_loop_returns :
      acur a = main_task → runq a = [] → acur a' = main_task → runq a' = [] → o = LoopReturned →
      next_runs a o a'
  | next_loop_switches t q :
      acur a = main_task → runq a = t :: q → t ≠ main_task → acur a' = t →
      runq a' = q ++ [main_task] → next_runs a o a'.

Lemma a_main_loop_spec a rm :
  inv running a → uniq a → acur a = main_task → ainfo a !! main_task = Some rm →
  ∃ o a', a_main_loop_once a = Some (o, a') ∧ next_runs a o a' ∧ waitq a' = waitq a.
Proof.
  intros Hi Hu Hc Hr. destruct (runq a) as [|t q] eqn:Hq.
  - rewrite (a_main_loop_once_nil _ Hq). eexists _, _. split_and!; [done| |done].
    by apply next_loop_returns.
  - destruct (main_switched_inv _ _ _ _ Hi Hu Hc Hr Hq) as [Hi' Ht].
    pose proof (inv_cur _ _ Hi) as Hci. rewrite Hc in Hci.
    rewrite (a_main_loop_once_cons _ _ _ _ Hc Hci Hr Hq Ht).
    destruct (inv_known _ _ Hi' t) as [[r Htr] _]; [left; apply (inv_cur _ _ Hi')|].
    rewrite (a_resume_coroutine_run (main_switched a rm t q) r Ht Htr (inv_this _ _ Hi' _ Htr)).
    eexists _, _. split_and!; [done| |done]. by eapply next_loop_switches.
Qed.

Lemma a_resume_spec a :
  inv runnable a → uniq a →
  ∃ o a', a_resume a = Some (o, a') ∧ next_runs a o a' ∧ waitq a' = waitq a.
Proof.
  intros Hi Hu.
  destruct (inv_known _ _ Hi (acur a)) as [[r Hr] _]; [left; apply (inv_cur _ _ Hi)|].
  pose proof (inv_this _ _ Hi _ Hr) as Hrr.
  unfold a_resume. rewrite a_cur_bind. st_step (a_get_run _ _ _ Hr).
  destruct (decide (acur a = main_task)) as [Hm|Hm].
  - rewrite Hm in *. destruct Hrr as [Hcl Hf]. rewrite bool_decide_eq_true_2 by done.
    st_step (a_upd_run _ (set_fc FcRunning) _ _ Hr).
    set (a1 := a_info <[main_task := set_fc FcRunning r]> a).
    destruct (a_main_loop_spec a1 (set_fc FcRunning r)) as (o & a' & ? & Hn & Hw);
      [| |done|apply lookup_insert_eq|].
    + subst a1. rewrite <-Hm. eapply inv_upd_cur; [done| |by rewrite Hm|done]. by intros t ? [? _].
    + by destruct Hu; split.
    + exists o, a'. split_and!; [done| |done]. destruct Hn; simpl in *;
        [by rewrite Hm in *|by apply next_loop_returns|by eapply next_loop_switches].
  - rewrite bool_decide_eq_false_2.
    + rewrite (a_resume_coroutine_run _ _ Hm Hr Hrr).
      eexists _, _. split_and!; [done| |done]. by apply next_task.
    + destruct (acur a); [done|]. destruct Hrr as [_ Hrr]. intros E. rewrite E in Hrr.
      by destruct Hrr as [|[|]].
Qed.

(** The state a call that suspends the current task leaves behind when it
    switches. *)
Definition suspended (c : call) (a a1 : astate) : Prop :=
  match c with
  | CWait e => ∃ ws r t q, waitq a !! e = Some ws ∧ runq a = t :: q ∧ a1 = waited a e ws r t q
  | CYield => ∃ r t q, runq a = t :: q ∧ a1 = yielded a r t q
  | CReturn => ∃ ws t q, waitq a !! join_event (acur a) = Some ws ∧ runq a = t :: q ∧
      acur a1 = t ∧ runq a1 = q ++ ws ∧ waitq a1 = <[join_event (acur a) := []]> (waitq a)
  | _ => False
  end.

Lemma a_context_exit_run F g a r t q ws :
  ok F g a → waitq a !! join_event (acur a) = Some ws → ainfo a !! acur a = Some r →
  runq a = t :: q → acur a ≠ t → acur a ≠ main_task →
  ∃ a1, a_context_exit a = Some (Jumped, a1) ∧ inv runnable a1 ∧
    acur a1 = t ∧ runq a1 = q ++ ws ∧ waitq a1 = <[join_event (acur a) := []]> (waitq a) ∧
    ∃ r', ainfo a1 !! acur a = Some r' ∧ closed r' = true ∧
      ∀ t', t' ≠ acur a → ainfo a1 !! t' = ainfo a !! t'.
Proof.
  intros [Hs Hi] He Hr Hq Ht Hm. pose proof (sim_uniq _ _ _ Hs) as Hu.
  set (a1 := a_info <[acur a := set_closed true r]> a).
  assert (inv leaving a1) as Hi1 by (subst a1; eapply inv_upd_cur; by eauto).
  assert (uniq a1) as Hu1 by (destruct Hu; by split).
  assert (ainfo a1 !! acur a1 = Some (set_closed true r)) as Hr1 by apply lookup_insert_eq.
  set (a2 := was_set a1 (join_event (acur a)) ws (set_closed true r)).
  assert (inv leaving a2) as Hi2 by (apply was_set_inv; done).
  destruct (refines_bind _ _ _ _ (refines_upd (acur a) (set_closed true))
      (λ _, refines_set (join_event (acur a))) F g a tt a2 Hs) as (g2 & _ & Hs2).
  { st_step (a_upd_run _ (set_closed true) _ _ Hr). by apply a_set_run. }
  assert (ainfo a2 !! acur a2 = Some (set_waiting_event None (set_closed true r))) as Hr2
    by apply lookup_insert_eq.
  eexists. split.
  - unfold a_context_exit. rewrite a_cur_bind. st_step (a_upd_run _ (set_closed true) _ _ Hr).
    st_step (a_set_run a1 (join_event (acur a)) ws (set_closed true r) He Hr1).
    apply (a_next_run _ a2 _ t (q ++ ws) Hr2); [|done]. cbn. by rewrite Hq.
  - split; [apply (left_behind_inv a2); [done|by eapply sim_uniq|done| |done]; cbn; by rewrite Hq|].
    split_and!; [done..|]. eexists. split; [apply lookup_insert_eq|]. split; [done|].
    intros t' Ht'. cbn. by rewrite !lookup_insert_ne.
Qed.

Definition suspending (c : call) : bool :=
  match c with CWait _ | CYield | CReturn | CLoop => true | _ => false end.

(** A call that suspends a coroutine: it switches to the head of the run
    queue. *)
Lemma suspend_spec F g a c :
  ok F g a → contract c a → acur a ≠ main_task → suspending c = true →
  ∃ a1 o a', suspended c a a1 ∧ aexec c a = Some (o, a') ∧ next_runs a1 o a' ∧
    waitq a' = waitq a1.
Proof.
  intros [Hs Hi] Hc Hm Hsu. pose proof (sim_uniq _ _ _ Hs) as Hu.
  destruct (next_runner a Hi Hu Hm) as (r & t & q & Hr & Hq & Ht).
  assert (∃ m f a1, Refines m f ∧ f a = Some (Jumped, a1) ∧ inv runnable a1 ∧ suspended c a a1 ∧
    aexec c a = (s ← f; match s with Jumped => a_resume | Returned => fault end) a)
    as (m & f & a1 & Href & Hf & Hi1 & Hsp & Hex).
  { destruct c; try done; simpl in Hc.
    - destruct Hc as [_ [ws He]]. pose proof (a_wait_begin_run _ _ _ _ _ _ Hi Hu He Hr Hq Ht) as Hw.
      exists (s_event_wait_begin e), (a_wait_begin e), (waited a e ws r t q).
      split_and!; [apply _|done|by apply waited_inv|naive_solver|]. simpl. unfold a_wait. by st_step Hw.
    - pose proof (a_yield_begin_run _ _ _ _ Hi Hr Hq Ht) as Hw.
      exists s_task_yield_begin, a_yield_begin, (yielded a r t q).
      split_and!; [apply _|done|by apply yielded_inv|naive_solver|]. simpl. unfold a_yield. by st_step Hw.
    - destruct (inv_known _ _ Hi (acur a)) as [_ [ws He]]; [left; apply (inv_cur _ _ Hi)|].
      destruct (a_context_exit_run F g a r t q ws (conj Hs Hi) He Hr Hq Ht Hm)
        as (a1 & Hx & Hi1 & Hx1 & Hx2 & Hx3 & _).
      exists s_task_context_exit, a_context_exit, a1.
      split_and!; [apply _|done|done|naive_solver|]. simpl. unfold a_exit. by st_step Hx. }
  destruct (Href F g a _ _ Hs Hf) as (g1 & _ & Hs1).
  destruct (a_resume_spec a1 Hi1 (sim_uniq _ _ _ Hs1)) as (o & a' & Hres & Hn & Hw).
  exists a1, o, a'. split_and!; [done| |done|done]. rewrite Hex. by st_step Hf.
Qed.

(** ** The place of a task in the run queue *)

Lemma remove_lookup {A} `{EqDecision A} (x y : A) l i :
  l !! i = Some y → y ≠ x → ∃ j, remove x l !! j = Some y ∧ j ≤ i.
Proof.
  intros Hi Hne. revert i Hi; induction l as [|z l IH]; intros [|i] Hi; simplify_eq/=.
  - exists 0. unfold remove. rewrite filter_cons_True by done. done.
  - destruct (IH _ Hi) as (j & Hj & Hle). unfold remove in *. rewrite filter_cons.
    case_decide; [exists (S j)|exists j]; split; [done|lia|done|lia].
Qed.

(** A call that does not suspend does not move anybody back, except a task
    whose wait it cancels. *)
Lemma call_rank_stays a c o a' t i :
  inv running a → contract c a → suspending c = false → c ≠ CCancel t →
  aexec c a = Some (o, a') → runq a !! i = Some t → ∃ j, runq a' !! j = Some t ∧ j ≤ i.
Proof.
  intros Hi Hc Hsu Hnc Ha Ht.
  destruct (inv_known _ _ Hi (acur a)) as [[r Hr] _]; [left; apply (inv_cur _ _ Hi)|].
  destruct c as [| |e|t'| | |junk n|n|junk jt n size entry arg|t']; try done; simpl in Ha, Hc.
  - destruct Hc as [ws He]. rewrite (ST_bind_run _ _ _ _ _ (a_set_run _ _ _ _ He Hr)) in Ha.
    injection Ha as <- <-. exists i. split; [by apply lookup_app_l_Some|done].
  - destruct (inv_known _ _ Hi t') as [[rt Hrt] _]; [apply Hc|].
    rewrite (ST_bind_run _ _ _ _ _ (a_cancel_wait_run _ _ _ _ Hc Hrt Hr)) in Ha. injection Ha as <- <-.
    destruct (remove_lookup t' t (runq a) i Ht ltac:(congruence)) as (j & Hj & Hle).
    exists j. split; [|done]. cbn. by apply lookup_app_l_Some.
  - unfold a_new_event, mbind, ST_bind in Ha. repeat case_match; simplify_eq; injection Ha as <- <-. by exists i.
  - unfold a_free_event, mbind, ST_bind in Ha. case_bool_decide; [|done]; injection Ha as <- <-. by exists i.
  - unfold a_new_task, mbind, ST_bind in Ha. case_bool_decide; [|done]; injection Ha as <- <-.
    exists i. split; [by apply lookup_app_l_Some|done].
  - unfold a_free_task, mbind, ST_bind in Ha. case_bool_decide; [|done]; injection Ha as <- <-. by exists i.
Qed.

Lemma next_runs_rank a1 o a' t t0 i :
  next_runs a1 o a' → t ≠ main_task → acur a1 = t0 → (t0 :: runq a1) !! i = Some t →
  acur a' = t ∨ ∃ j, runq a' !! j = Some t ∧ j < i.
Proof.
  intros Hn Ht <- Hi. destruct Hn as [Hm Hc' Hq|Hm Hq Hc' Hq' _|t1 q Hm Hq Ht1 Hc' Hq'].
  - destruct i as [|j]; [injection Hi as <-; by left|].
    right. exists j. split; [by rewrite Hq|lia].
  - rewrite Hq in Hi. destruct i as [|[|i]]; [|done..]. injection Hi as <-. by rewrite Hm in Ht.
  - rewrite Hq in Hi. destruct i as [|[|j]].
    + injection Hi as Hi. by rewrite Hi in Hm.
    + injection Hi as Hi. left. by rewrite Hc'.
    + simpl in Hi. right. exists j. rewrite Hq'. split; [by apply lookup_app_l_Some|lia].
Qed.

Lemma call_rank_advances F g a c o a' t i :
  ok F g a → contract c a → suspending c = true → t ≠ main_task →
  aexec c a = Some (o, a') → runq a !! i = Some t →
  acur a' = t ∨ ∃ j, runq a' !! j = Some t ∧ j < i.
Proof.
  intros Hok Hc Hsu Hm Ha Ht. destruct (decide (acur a = main_task)) as [Hcm|Hcm].
  - destruct Hok as [Hs Hi].
    destruct (inv_known _ _ Hi (acur a)) as [[r Hr] _]; [left; apply (inv_cur _ _ Hi)|].
    rewrite Hcm in Hr. destruct c; try done; simpl in Hc; [by destruct Hc..|].
    destruct (a_main_loop_spec _ _ Hi (sim_uniq _ _ _ Hs) Hcm Hr) as (o1 & a1 & Ha1 & Hn & _).
    simpl in Ha. simplify_eq. destruct Hn as [?|? Hq|t1 q _ Hq Ht1 Hc' Hq']; [done| |].
    + by rewrite Hq in Ht.
    + rewrite Hq in Ht. destruct i as [|j]; simplify_eq/=; [by left|].
      right. exists j. rewrite Hq'. split; [by apply lookup_app_l_Some|lia].
  - destruct (suspend_spec F g a c Hok Hc Hcm Hsu) as (a1 & o1 & a2 & Hsp & Ha2 & Hn & _).
    rewrite Ha in Ha2. injection Ha2 as <- <-.
    assert (∃ t0, acur a1 = t0 ∧ (t0 :: runq a1) !! i = Some t) as (t0 & Hc0 & Hi0);
      [|by eapply next_runs_rank].
    destruct c; try done; simpl in Hsp.
    + destruct Hsp as (ws & r & t0 & q & _ & Hq & ->). exists t0. split; [done|]. by rewrite Hq in Ht.
    + destruct Hsp as (r & t0 & q & Hq & ->). exists t0. split; [done|]. rewrite Hq in Ht.
      destruct i; [done|]. by apply lookup_app_l_Some.
    + destruct Hsp as (ws & t0 & q & _ & Hq & Hc1 & Hq1 & _). exists t0. split; [done|].
      rewrite Hq in Ht. rewrite Hq1. destruct i; [done|]. by apply lookup_app_l_Some.
Qed.

(** The calls of a run, and how often it suspends somebody. *)
Definition suspensions (cs : list call) : nat := length (filter (λ c, suspending c = true) cs).

(** ** Claims *)

(** First come, first served: a coroutine that waits for an event goes to
    the end of the event's queue, every other queue is unchanged, and the
    processor goes to the head of the run queue; if that is the main task, its
    loop returns when nobody else is runnable and otherwise queues the main
    task again and runs the next one. *)
Theorem event_wait_fifo g a e ws :
  reachable g a → acur a ≠ main_task → waitq a !! e = Some ws →
  ∃ o g' a' t q, s_event_wait e g = Some (o, g') ∧ reachable g' a' ∧
    waitq a' = <[e := ws ++ [acur a]]> (waitq a) ∧ runq a = t :: q ∧
    (t ≠ main_task → acur a' = t ∧ runq a' = q) ∧
    (t = main_task →
     match q with
     | [] => o = LoopReturned ∧ acur a' = main_task ∧ runq a' = []
     | t' :: q' => acur a' = t' ∧ runq a' = q' ++ [main_task]
     end).
Proof.
  intros Hre Hm He. pose proof (reachable_ok _ _ Hre) as Hok.
  assert (contract (CWait e) a) as Hc by (split; [done|by exists ws]).
  destruct (suspend_spec _ _ _ _ Hok Hc Hm eq_refl) as (a1 & o & a' & Hsp & Ha & Hn & Hw).
  destruct (call_ok _ _ _ _ Hok Hc) as (o2 & g' & a2 & Hg & Ha2 & _). rewrite Ha in Ha2. injection Ha2 as <- <-.
  destruct Hsp as (ws' & r & t & q & He' & Hq & ->). simplify_eq.
  exists o, g', a', t, q.
  split_and!; [done|by eapply (reach_call g a (CWait e))|done|done| |].
  - intros Ht. destruct Hn as [Hx Hc' Hq'|Hx|t1 q1 Hx]; simpl in *; [done|congruence..].
  - intros ->. destruct Hn as [Hx Hc' Hq'|Hx Hq1 Hc' Hq' Ho|t1 q1 Hx Hq1 Ht1 Hc' Hq']; simpl in *;
      [done|by subst q|by subst q].
Qed.

Lemma event_wait_fifo_witness :
  acur (demo_at 6).2 ≠ main_task ∧
  ∃ o g', s_event_wait (Event 7) (demo_at 6).1 = Some (o, g').
Proof.
  assert (acur (demo_at 6).2 ≠ main_task) as Hm by (vm_compute; discriminate).
  split; [exact Hm|].
  destruct (event_wait_fifo _ _ (Event 7) [Stack 1] (demo_reachable 6) Hm)
    as (o & g' & a' & t & q & Hg & _); [vm_compute; reflexivity|].
  exists o, g'. exact Hg.
Defined.

(** C22. No starvation: a task other than the main task, at place [i] of the run
    queue, gets the processor before the running code has given it up [i + 1]
    times, whatever other calls come in between, provided that nobody calls
    [s_task_cancel_wait] on the task itself meanwhile (which sends a runnable
    task back to the end of the queue, as an interrupt of the task does). *)
Theorem no_starvation s cs s' t i :
  reachable s.1 s.2 → run_calls s cs = Some s' → runq s.2 !! i = Some t → t ≠ main_task →
  Forall (λ c, c ≠ CCancel t) cs → i < suspensions cs →
  ∃ n s1, n ≤ length cs ∧ run_calls s (take n cs) = Some s1 ∧ acur s1.2 = t.
Proof.
  revert s i; induction cs as [|c cs IH]; intros s i Hr Hrun Hi Hm Hnc Hlt;
    unfold suspensions in *; [simpl in Hlt; lia|].
  apply Forall_cons in Hnc as [Hn Hnc]. simpl in Hrun.
  destruct (run_call s c) as [s1|] eqn:H1; [|done]. simpl in Hrun.
  pose proof (run_call_reachable _ _ _ Hr H1) as Hr1.
  assert (acur s1.2 = t ∨ ∃ j, runq s1.2 !! j = Some t ∧ j ≤ i ∧ (suspending c = true → j < i))
    as [Hc|(j & Hj & Hle & Hsu)].
  { unfold run_call in H1. case_bool_decide as Hct; [|done].
    pose proof (reachable_ok _ _ Hr) as Hok.
    destruct (exec c s.1) as [[o g']|]; [|done].
    destruct (aexec c s.2) as [[o' a']|] eqn:Ha; [|done]. simplify_eq/=.
    destruct (suspending c) eqn:Hs.
    - destruct (call_rank_advances _ _ _ _ _ _ _ _ Hok Hct Hs Hm Ha Hi) as [?|(j & ? & ?)];
        [by left|]. right. exists j. split_and!; [done|lia|done].
    - destruct (call_rank_stays _ _ _ _ _ _ (proj2 Hok) Hct Hs Hn Ha Hi) as (j & ? & ?).
      right. by exists j. }
  - exists 1, s1. split_and!; [simpl; lia| |done]. simpl. by rewrite H1.
  - destruct (IH s1 j Hr1 Hrun Hj Hm Hnc) as (n & s2 & Hn2 & Hs2 & Hc2).
    + rewrite filter_cons in Hlt. case_decide as Hs; simpl in Hlt; [specialize (Hsu Hs); lia|lia].
    + exists (S n), s2. split_and!; [simpl; lia| |done]. simpl. by rewrite H1.
Qed.

Lemma no_starvation_witness :
  ∃ n s1, n ≤ 4 ∧ run_calls (demo_at 3) (take n (drop 3 demo)) = Some s1 ∧ acur s1.2 = Stack 2.
Proof.
  destruct (run_calls (demo_at 3) (drop 3 demo)) as [s'|] eqn:Hs; [|vm_compute in Hs; discriminate].
  refine (no_starvation (demo_at 3) (drop 3 demo) s' (Stack 2) 1 (demo_reachable 3) Hs _ _ _ _).
  - vm_compute. reflexivity.
  - discriminate.
  - repeat constructor; discriminate.
  - vm_compute. lia.
Defined.

(** The wrong [waiting_event] is cleared: [s_event_set] and
    [s_task_cancel_wait] reset the field of the task that calls them instead
    of the task they wake. A task that was woken by [s_event_set] still
    points to the event; once the event's owner has released it, which the
    interface allows since nobody waits, cancelling the woken task before it
    ran goes through the stale pointer. *)
Theorem event_set_leaves_stale_pointer :
  match exec (CSet (Event 7)) (demo_at 7).1 with
  | Some (_, g1) =>
      (waiting_event <$> tasks g1 !! Stack 1) = Some (Some (Event 7)) ∧
      match exec (CFreeEvent 7) g1 with
      | Some (_, g2) => s_task_cancel_wait (Stack 1) g2 = None
      | None => False
      end
  | None => False
  end.
Proof. vm_compute. by split. Qed.

(** ** The end of a task and its joiners *)

(** Everybody who joined a task returns when it ends: the tasks that wait in
    [s_task_join] go to the end of the run queue, in order; when such a task
    continues, its wait gives 0, the task it joined is found closed, and
    [s_task_join] returns 0 without waiting again. A cancelled wait ends the
    join with its -1. *)
Theorem joiners_return g a ws :
  reachable g a → acur a ≠ main_task → waitq a !! join_event (acur a) = Some ws →
  ∃ g1 a1, s_task_context_exit g = Some (Jumped, g1) ∧ sim [(all_tasks, [])] g1 a1 ∧
    runq a1 = tail (runq a) ++ ws ∧
    (∀ t, t ∈ ws → ∃ r, tasks g1 !! t = Some r ∧ observed r = WaitReturned 0) ∧
    s_task_join_resumed (acur a) 0 g1 = Some (inl 0%Z, g1) ∧
    s_task_join_resumed (acur a) (-1) g1 = Some (inl (-1)%Z, g1).
Proof.
  intros Hre Hm He. destruct (reachable_ok _ _ Hre) as [Hs Hi].
  destruct (next_runner a Hi (sim_uniq _ _ _ Hs) Hm) as (r & t & q & Hr & Hq & Ht).
  destruct (a_context_exit_run _ g a r t q ws (conj Hs Hi) He Hr Hq Ht Hm)
    as (a1 & Hx & _ & _ & Hq1 & _ & r' & Hr' & Hcl & Hsame).
  destruct (refines_context_exit _ g a _ _ Hs Hx) as (g1 & Hg & Hs1).
  assert (tasks g1 = ainfo a1) as Ht1 by apply (sim_tasks _ _ _ Hs1).
  exists g1, a1. split_and!; [done|done|by rewrite Hq1, Hq| |
    |by unfold s_task_join_resumed].
  - intros t' Ht'. destruct (inv_known _ _ Hi t') as [[r0 Hr0] _]; [by eapply known_wait|].
    destruct (inv_wait _ _ Hi _ _ _ _ He Ht' Hr0) as (_ & _ & Hf & _ & Hca).
    exists r0. rewrite Ht1, Hsame; [by unfold observed; rewrite Hf, Hca|]. intros ->.
    by apply (uniq_idle_wait _ (sim_uniq _ _ _ Hs) _ _ _ (inv_cur _ _ Hi) He).
  - unfold s_task_join_resumed, s_task_join. cbn [Z.eqb].
    assert (get_task (acur a) g1 = Some (r', g1)) as Hg1
      by (unfold get_task, gets; by rewrite Ht1, Hr').
    st_step Hg1. by rewrite Hcl.
Qed.
