(* ===== verification/SeTask.v ===== *)
(** * Tasks of the event loop (src/se_libs.c, first part)

    [se_task_create] puts a coroutine, its bookkeeping ([struct se_task_arg])
    and the list node by which the daemon finds it into one allocation; the
    task ends by asking the event loop to free it. The functions run over the
    scheduler of [STask]; the list [all_tasks] lives in the same store as the
    scheduler's lists. *)

From S2P Require Import Prelude SList STask SchedSpec SchedInv SchedTheorems.

(** ** State *)

(** [struct se_task_arg], except its [list_node] and [stack], which are the
    node [list_node n] and the task [Stack n] of the allocation [n].
    [memory_to_free] is the linked list of cleanups, the last registered
    first; a function pointer and its argument are numbers. *)
Record se_task_arg : Type := mk_se_arg {
  entry : Z;
  arg : Z;
  source : bool;
  task_id : Z;
  memory_to_free : list (Z * Z);
  interrupt_disabled : bool;
  interrupt_reason : Z;
}.

Definition set_source (b : bool) (r : se_task_arg) : se_task_arg :=
  mk_se_arg (entry r) (arg r) b (task_id r) (memory_to_free r) (interrupt_disabled r)
    (interrupt_reason r).
Definition set_memory (l : list (Z * Z)) (r : se_task_arg) : se_task_arg :=
  mk_se_arg (entry r) (arg r) (source r) (task_id r) l (interrupt_disabled r) (interrupt_reason r).
Definition set_disabled (b : bool) (r : se_task_arg) : se_task_arg :=
  mk_se_arg (entry r) (arg r) (source r) (task_id r) (memory_to_free r) b (interrupt_reason r).
Definition set_reason (z : Z) (r : se_task_arg) : se_task_arg :=
  mk_se_arg (entry r) (arg r) (source r) (task_id r) (memory_to_free r) (interrupt_disabled r) z.

(** The scheduler, the live allocations, [g_task_seq], the deferred calls of
    [se_task_end_handler] the event loop holds, and the cleanups run so far,
    the latest first. *)
Record se_state : Type := mk_se {
  sched : s_task_globals_t;
  args : gmap nat se_task_arg;
  g_task_seq : Z;
  deferred : list nat;
  freed : list (Z * Z);
}.

Abbreviation SE := (ST se_state).

Definition on_sched {A} (m : SM A) : SE A := λ s,
  match m (sched s) with
  | Some (x, g) => Some (x, mk_se g (args s) (g_task_seq s) (deferred s) (freed s))
  | None => None
  end.

Definition get_arg (n : nat) : SE se_task_arg := gets (λ s, args s !! n).
Definition upd_arg (n : nat) (f : se_task_arg → se_task_arg) : SE unit := λ s,
  match args s !! n with
  | Some r => Some (tt, mk_se (sched s) (<[n := f r]> (args s)) (g_task_seq s) (deferred s) (freed s))
  | None => None
  end.

(** The allocation of the task that runs; the main task has none. *)
Definition get_current_task_arg : SE nat :=
  t ← on_sched s_task_get_current_stack;
  match t with Stack n => mret n | main_task => fault end.

(** Memory for an allocation, with [se_task_create]'s assignments to its
    fields; its release; the deferred calls; a cleanup that ran. *)
Definition new_arg (n : nat) (fn a : Z) : SE unit := λ s,
  match args s !! n with
  | Some _ => None
  | None => Some (tt, mk_se (sched s)
      (<[n := mk_se_arg fn a false (g_task_seq s) [] false 0]> (args s))
      (u64 (g_task_seq s + 1)) (deferred s) (freed s))
  end.
Definition delete_arg (n : nat) : SE unit := λ s,
  Some (tt, mk_se (sched s) (delete n (args s)) (g_task_seq s) (deferred s) (freed s)).
Definition add_defer (n : nat) : SE unit := λ s,
  Some (tt, mk_se (sched s) (args s) (g_task_seq s) (deferred s ++ [n]) (freed s)).
Definition drop_defer (n : nat) : SE unit := λ s,
  if bool_decide (n ∈ deferred s)
  then Some (tt, mk_se (sched s) (args s) (g_task_seq s) (remove n (deferred s)) (freed s))
  else None.
Definition log_freed (m : Z * Z) : SE unit := λ s,
  Some (tt, mk_se (sched s) (args s) (g_task_seq s) (deferred s) (m :: freed s)).

(** ** Operations *)

(** The code pointer of [se_task_entry]. *)
Definition se_task_entry_fn : Z := 1.

(** [se_task_create] with the result of its [malloc]: a fresh allocation with
    arbitrary contents, or a null pointer. *)
Definition se_task_create (malloc : option nat) (junk : s_list_t lnode) (junk_task : s_task_t)
    (size fn a : Z) : SE Z :=
  match malloc with
  | None => mret (- ENOMEM)%Z
  | Some n =>
      on_sched (on_mem (alloc_node (list_node n) junk));;
      new_arg n fn a;;
      on_sched (on_mem (s_list_init (list_node n)));;
      on_sched (on_mem (s_list_attach all_tasks (list_node n)));;
      on_sched (new_task junk junk_task (Stack n) size se_task_entry_fn (Z.of_nat n));;
      mret 0%Z
  end.

Definition se_task_register_memory_to_free (mem free_fn : Z) : SE unit :=
  n ← get_current_task_arg;
  r ← get_arg n;
  upd_arg n (set_memory ((mem, free_fn) :: memory_to_free r)).

Definition get_interrupt_reason : SE Z :=
  n ← get_current_task_arg; r ← get_arg n; mret (interrupt_reason r).

Definition get_current_task_id : SE Z :=
  n ← get_current_task_arg; r ← get_arg n; mret (task_id r).

Definition set_interrupt_disabled (disabled : Z) : SE unit :=
  n ← get_current_task_arg; upd_arg n (set_disabled (negb (disabled =? 0)%Z)).

Definition interrupt_task (n : nat) (reason : Z) : SE unit :=
  r ← get_arg n;
  if interrupt_disabled r then mret tt else
  upd_arg n (set_reason reason);;
  on_sched (s_task_cancel_wait (Stack n)).

Definition arg_of_list_node (x : lnode) : SE nat :=
  match x with list_node n => mret n | _ => fault end.

Fixpoint interrupt_loop (fuel : nat) (node : lnode) (reason : Z) : SE unit :=
  match fuel with
  | O => fault
  | S fuel =>
      if bool_decide (node = all_tasks) then mret tt else
      n ← arg_of_list_node node;
      nxt ← on_sched (on_mem (s_list_get_next node));
      interrupt_task n reason;;
      interrupt_loop fuel nxt reason
  end.

(** No ring has more nodes than the store. *)
Definition interrupt_all_tasks (reason : Z) : SE unit := λ s,
  (first ← on_sched (on_mem (s_list_get_next all_tasks));
   interrupt_loop (S (size (mem (sched s)))) first reason) s.

Definition is_task_empty : SE bool := on_sched (on_mem (s_list_is_empty all_tasks)).

(** The loop of [se_task_entry] over the cleanups. *)
Fixpoint free_memory (mem : list (Z * Z)) : SE unit :=
  match mem with
  | [] => mret tt
  | m :: mem => log_freed m;; free_memory mem
  end.

(** [se_task_entry] from the return of the task's function, through the end
    of the coroutine; [rc] is the result of [sd_event_add_defer]. *)
Definition se_task_entry_return (rc : Z) : SE outcome :=
  n ← get_current_task_arg;
  r ← get_arg n;
  (if (rc <? 0)%Z then mret tt
   else upd_arg n (set_source true);; add_defer n);;
  free_memory (memory_to_free r);;
  if (rc <? 0)%Z then fault (* abort() *)
  else on_sched s_task_context_entry_return.

(** [se_task_end_handler], called by the event loop for a deferred [n]. *)
Definition se_task_end_handler (n : nat) : SE unit :=
  r ← get_arg n;
  on_sched (on_mem (s_list_detach (list_node n)));;
  drop_defer n;;
  on_sched (on_mem (free_node (list_node n)));;
  on_sched (free_task (Stack n));;
  delete_arg n.

(** ** What the scheduler leaves alone *)

(** The same tasks, ended or not, and the same join events, as long as nobody
    waits for one (the daemon never calls [s_task_join]). *)
Definition same_roster (a a' : astate) : Prop :=
  closed <$> ainfo a' = closed <$> ainfo a ∧
  ∀ t, (∀ ws, waitq a !! join_event t = Some ws → ws = []) →
       waitq a' !! join_event t = waitq a !! join_event t.

#[export] Instance same_roster_pre : PreOrder same_roster.
Proof.
  split; [done|]. intros a b c [H1 H2] [H3 H4]. split; [congruence|].
  intros t Ht. rewrite H4; [by apply H2|]. rewrite H2; [done|done].
Qed.

Class KeepsRoster {A} (f : AM A) : Prop :=
  keeps_roster : ∀ a x a', f a = Some (x, a') → same_roster a a'.
#[export] Hint Mode KeepsRoster - ! : typeclass_instances.

#[export] Instance roster_ret {A} (x : A) : KeepsRoster (mret x : AM A).
Proof. intros a y a' H. by injection H as _ <-. Qed.
#[export] Instance roster_fault {A} : KeepsRoster (fault : AM A).
Proof. by intros ???. Qed.
#[export] Instance roster_bind {A B} (f : AM A) (k : A → AM B) :
  KeepsRoster f → (∀ x, KeepsRoster (k x)) → KeepsRoster (f ≫= k).
Proof.
  intros Hf Hk a y a' H. apply ST_bind_inv in H as (x & a1 & H1 & H2).
  etrans; [by eapply Hf|by eapply Hk].
Qed.
#[export] Instance roster_gets {A} (f : astate → option A) : KeepsRoster (gets f).
Proof. intros a x a' H. unfold gets in H. case_match; by simplify_eq. Qed.
#[export] Instance roster_get t : KeepsRoster (a_get t).
Proof. apply _. Qed.
#[export] Instance roster_cur : KeepsRoster a_cur.
Proof. apply _. Qed.
#[export] Instance roster_if {A} (b : bool) (f h : AM A) :
  KeepsRoster f → KeepsRoster h → KeepsRoster (if b then f else h).
Proof. by destruct b. Qed.

Lemma closed_insert (m : gmap task_ptr s_task_t) t r r' :
  m !! t = Some r → closed r' = closed r → closed <$> <[t := r']> m = closed <$> m.
Proof.
  intros Hr Hc. rewrite fmap_insert, insert_id; [done|]. by rewrite lookup_fmap, Hr, Hc.
Qed.

Lemma roster_upd t f : (∀ r, closed (f r) = closed r) → KeepsRoster (a_upd t f).
Proof.
  intros Hf a x a' H. unfold a_upd in H. destruct (ainfo a !! t) as [r|] eqn:Hr; simplify_eq/=.
  split; [|done]. by eapply closed_insert.
Qed.
#[export] Instance roster_upd_cancelled t b : KeepsRoster (a_upd t (set_waiting_cancelled b)).
Proof. by apply roster_upd. Qed.
#[export] Instance roster_upd_event t e : KeepsRoster (a_upd t (set_waiting_event e)).
Proof. by apply roster_upd. Qed.
#[export] Instance roster_upd_fc t k : KeepsRoster (a_upd t (set_fc k)).
Proof. by apply roster_upd. Qed.

(** Operations that only touch the queues of other events. *)
Ltac roster_done H := unfold mbind, option_bind in H; repeat case_match; simplify_eq/=; split;
  [done|intros ? ?; simpl; rewrite ?lookup_insert_ne, ?lookup_delete_ne by done; done].

#[export] Instance roster_attach_active t : KeepsRoster (a_attach_active t).
Proof. intros a x a' H. unfold a_attach_active in H. roster_done H. Qed.
#[export] Instance roster_attach_wait n t : KeepsRoster (a_attach_wait (Event n) t).
Proof. intros a x a' H. unfold a_attach_wait in H. roster_done H. Qed.
#[export] Instance roster_detach_self e : KeepsRoster (a_detach_self e).
Proof. intros a x a' H. unfold a_detach_self in H. roster_done H. Qed.
#[export] Instance roster_attach_self e : KeepsRoster (a_attach_self e).
Proof. intros a x a' H. unfold a_attach_self in H. roster_done H. Qed.
#[export] Instance roster_new_event n : KeepsRoster (a_new_event (Event n)).
Proof. intros a x a' H. unfold a_new_event in H. roster_done H. Qed.
#[export] Instance roster_free_event n : KeepsRoster (a_free_event (Event n)).
Proof. intros a x a' H. unfold a_free_event in H. roster_done H. Qed.
#[export] Instance roster_detach t : KeepsRoster (a_detach t).
Proof.
  intros a x a' H. unfold a_detach in H. case_bool_decide; simplify_eq/=. split; [done|].
  intros t' He. simpl. rewrite lookup_fmap. destruct (waitq a !! join_event t') as [ws|]; [|done].
  by rewrite (He ws eq_refl).
Qed.
#[export] Instance roster_wake e : KeepsRoster (a_wake e).
Proof.
  intros a x a' H. unfold a_wake in H. destruct (waitq a !! e) as [ws|] eqn:He; simplify_eq/=.
  split; [done|]. intros t' Hj. simpl. destruct (decide (e = join_event t')) as [->|].
  - rewrite lookup_insert_eq, He. f_equal. symmetry. by apply Hj.
  - by rewrite lookup_insert_ne.
Qed.
#[export] Instance roster_call_next k : KeepsRoster (a_call_next k).
Proof.
  intros a x a' H. unfold a_call_next in H. destruct (runq a) as [|t q]; [by simplify_eq|].
  case_bool_decide; [|by simplify_eq].
  destruct (ainfo a !! acur a) as [r|] eqn:Hr; simplify_eq/=. split; [|done].
  by eapply closed_insert.
Qed.

#[export] Instance roster_active_empty : KeepsRoster a_active_empty.
Proof. apply _. Qed.
#[export] Instance roster_event_empty e : KeepsRoster (a_event_empty e).
Proof. apply _. Qed.
#[export] Instance roster_next k : KeepsRoster (a_next k).
Proof. unfold a_next. apply _. Qed.
#[export] Instance roster_main_loop_iter : KeepsRoster a_main_loop_iter.
Proof. unfold a_main_loop_iter. apply _. Qed.
#[export] Instance roster_yield_begin : KeepsRoster a_yield_begin.
Proof. unfold a_yield_begin. apply _. Qed.
#[export] Instance roster_yield_end : KeepsRoster a_yield_end.
Proof. unfold a_yield_end. apply _. Qed.
#[export] Instance roster_add_waiting e : KeepsRoster (a_add_waiting e).
Proof. unfold a_add_waiting. apply _. Qed.
#[export] Instance roster_remove_waiting e : KeepsRoster (a_remove_waiting e).
Proof. unfold a_remove_waiting. apply _. Qed.
#[export] Instance roster_wait_begin n : KeepsRoster (a_wait_begin (Event n)).
Proof. unfold a_wait_begin. apply _. Qed.
#[export] Instance roster_wait_end : KeepsRoster a_wait_end.
Proof. unfold a_wait_end. apply _. Qed.
#[export] Instance roster_set e : KeepsRoster (a_set e).
Proof. unfold a_set. apply _. Qed.
#[export] Instance roster_cancel_wait t : KeepsRoster (a_cancel_wait t).
Proof.
  unfold a_cancel_wait. do 3 (apply roster_bind; [apply _|intros ?]).
  apply roster_bind; [apply _|intros r]. destruct (waiting_event r); apply _.
Qed.
#[export] Instance roster_resume_coroutine : KeepsRoster a_resume_coroutine.
Proof.
  unfold a_resume_coroutine. do 2 (apply roster_bind; [apply _|intros ?]).
  apply roster_bind; [apply _|intros _]. case_match; apply _.
Qed.
#[export] Instance roster_main_loop_once : KeepsRoster a_main_loop_once.
Proof. unfold a_main_loop_once. apply roster_bind; [apply _|]. intros [[]|]; apply _. Qed.
#[export] Instance roster_resume : KeepsRoster a_resume.
Proof. unfold a_resume. apply _. Qed.
#[export] Instance roster_wait n : KeepsRoster (a_wait (Event n)).
Proof. unfold a_wait. apply roster_bind; [apply _|]. intros []; apply _. Qed.
#[export] Instance roster_yield : KeepsRoster a_yield.
Proof. unfold a_yield. apply roster_bind; [apply _|]. intros []; apply _. Qed.

(** ** The invariant *)

#[export] Instance list_node_inj : Inj (=) (=) list_node.
Proof. by intros ?? [= ->]. Qed.

(** [ns] are the allocations on [all_tasks], in order. *)
Record se_inv (s : se_state) (a : astate) (ns : list nat) : Prop := mk_se_inv {
  si_ok : ok [(all_tasks, list_node <$> ns)] (sched s) a;
  si_args n : is_Some (args s !! n) ↔ n ∈ ns;
  si_tasks n : is_Some (ainfo a !! Stack n) ↔ n ∈ ns;
  si_join t : waitq a !! join_event t = (λ _, []) <$> ainfo a !! t;
  si_nodup : NoDup (deferred s);
  si_deferred n : n ∈ deferred s ↔ closed <$> ainfo a !! Stack n = Some true;
}.

Lemma se_inv_NoDup s a ns : se_inv s a ns → NoDup ns.
Proof.
  intros Hi. destruct (si_ok _ _ _ Hi) as [Hs _]. pose proof (proj1 (sim_store _ _ _ Hs)) as [Hnd _].
  unfold nodes in Hnd. rewrite bind_app in Hnd. apply NoDup_app in Hnd as (_ & _ & Hnd).
  simpl in Hnd. rewrite app_nil_r in Hnd. apply NoDup_cons in Hnd as [_ Hnd].
  by eapply NoDup_fmap_1.
Qed.

(** A step of the scheduler that keeps the roster. *)
Lemma se_inv_roster s a ns g a' :
  se_inv s a ns → ok [(all_tasks, list_node <$> ns)] g a' → same_roster a a' →
  se_inv (mk_se g (args s) (g_task_seq s) (deferred s) (freed s)) a' ns.
Proof.
  intros [Hok Har Hta Hj Hnd Hd] Hok' [Hcl Hjo].
  assert (∀ t, closed <$> ainfo a' !! t = closed <$> ainfo a !! t) as Hc
    by (intros t; by rewrite <-!lookup_fmap, Hcl).
  split; simpl; [done|done| | |done|].
  - intros n. rewrite <-Hta. specialize (Hc (Stack n)).
    destruct (ainfo a' !! Stack n), (ainfo a !! Stack n); simplify_eq/=;
      split; intros Hx; try (by destruct Hx); by eexists.
  - intros t. rewrite Hjo by (intros ws; rewrite Hj; destruct (ainfo a !! t); by intros [= <-]).
    rewrite Hj. specialize (Hc t). destruct (ainfo a' !! t), (ainfo a !! t); by simplify_eq/=.
  - intros n. by rewrite Hd, Hc.
Qed.

(** *** Calls of the scheduler by the tasks and the event handlers *)

Definition client_call (c : call) : Prop :=
  match c with
  | CWait (Event _) | CYield | CSet (Event _) | CLoop | CNewEvent _ _ | CFreeEvent _ => True
  | _ => False
  end.

#[export] Instance roster_client c : client_call c → KeepsRoster (aexec c).
Proof. destruct c as [[]| |[]| | | | | | |]; simpl; try done; intros _; apply _. Qed.

Lemma client_call_ok s a ns c :
  se_inv s a ns → client_call c → contract c a →
  ∃ o s' a', on_sched (exec c) s = Some (o, s') ∧ aexec c a = Some (o, a') ∧ se_inv s' a' ns ∧
    args s' = args s ∧ freed s' = freed s.
Proof.
  intros Hi Hcl Hc. destruct (call_ok _ _ _ _ (si_ok _ _ _ Hi) Hc) as (o & g' & a' & Hg & Ha & Hok).
  eexists _, _, a'. unfold on_sched. rewrite Hg. split_and!; [done|done| |done|done].
  eapply se_inv_roster; [done|done|]. by eapply (roster_client c Hcl).
Qed.

(** *** Creating a task *)

Lemma on_sched_run {A} (m : SM A) s x g :
  m (sched s) = Some (x, g) →
  on_sched m s = Some (x, mk_se g (args s) (g_task_seq s) (deferred s) (freed s)).
Proof. unfold on_sched. by intros ->. Qed.

Lemma foreign_all_tasks ns : Forall foreign_node (nodes [(all_tasks, list_node <$> ns)]).
Proof.
  unfold nodes. simpl. rewrite app_nil_r. constructor; [done|].
  apply Forall_fmap, Forall_true. done.
Qed.

(** Putting a new node on [all_tasks]. *)
Lemma all_tasks_add g a ns n junk :
  sim [(all_tasks, list_node <$> ns)] g a → n ∉ ns →
  ∃ h1 h2 h3, alloc_node (list_node n) junk (mem g) = Some (tt, h1) ∧
    s_list_init (list_node n) h1 = Some (tt, h2) ∧
    s_list_attach all_tasks (list_node n) h2 = Some (tt, h3) ∧
    sim [(all_tasks, list_node <$> (ns ++ [n]))] (mk_globals h3 (tasks g) (current_task g)) a.
Proof.
  intros [Hst Hfo Hw Ht Hc] Hn. set (L := layout a ++ [(all_tasks, list_node <$> ns)]) in *.
  assert (list_node n ∉ nodes L) as Hfresh.
  { subst L. rewrite nodes_layout, nodes_events, nodes_idles.
    intros [?|[?|[?|[?|[?|[?|Hin]]]]]]; [naive_solver..|].
    unfold nodes in Hin. simpl in Hin. rewrite app_nil_r in Hin. apply elem_of_cons in Hin as [?|Hin]; [done|].
    apply list_elem_of_fmap in Hin as (n' & ? & ?). by simplify_eq. }
  destruct Hst as [Hr Hd].
  assert (list_node n ∉ dom (mem g)) as Hnd by (by rewrite Hd, elem_of_list_to_set).
  exists (<[list_node n := junk]> (mem g)).
  destruct (init_store (<[list_node n := junk]> (mem g)) (list_node n) L ∅) as (h2 & R2 & Hr2 & Hd2).
  { by apply alloc_rings. }
  { rewrite dom_insert_L, Hd. by rewrite (right_id_L ∅ (∪)). }
  { done. }
  { apply not_elem_of_empty. }
  rewrite (left_id_L ∅ (∪)) in Hd2. exists h2.
  assert (store h2 ((all_tasks, list_node <$> ns) :: (list_node n, []) :: layout a)) as Hs2.
  { refine (proj1 (store_perm _ _ _ _) (conj Hr2 Hd2)). subst L. solve_Permutation. }
  destruct (connect_store _ _ _ _ _ _ Hs2) as (h3 & R3 & Hs3). exists h3.
  split_and!; [|done|done|].
  - unfold alloc_node. by rewrite bool_decide_eq_false_2.
  - split; simpl; [|apply foreign_all_tasks|done..].
    rewrite fmap_app. refine (proj1 (store_perm _ _ _ _) Hs3). simpl. solve_Permutation.
Qed.

Lemma se_task_create_ok s a ns n junk junk_task size fn x :
  se_inv s a ns → n ∉ ns →
  ∃ s' a', se_task_create (Some n) junk junk_task size fn x s = Some (0%Z, s') ∧
    se_inv s' a' (ns ++ [n]) ∧ runq a' = runq a ++ [Stack n] ∧
    args s' = <[n := mk_se_arg fn x false (g_task_seq s) [] false 0]> (args s) ∧
    deferred s' = deferred s ∧ freed s' = freed s ∧
    aexec (CCreate junk junk_task n size se_task_entry_fn (Z.of_nat n)) a = Some (CallReturned, a').
Proof.
  intros Hi Hn. pose proof Hi as [[Hs Hinv] Har Hta Hj Hnd Hd].
  destruct (all_tasks_add _ _ _ n junk Hs Hn) as (h1 & h2 & h3 & R1 & R2 & R3 & Hs3).
  assert (ainfo a !! Stack n = None) as Hno.
  { destruct (ainfo a !! Stack n) eqn:E; [|done]. exfalso. apply Hn, Hta. by rewrite E. }
  assert (contract (CCreate junk junk_task n size se_task_entry_fn (Z.of_nat n)) a) as Hc.
  { split_and!; [|by rewrite Hj, Hno|done]. intros Hk.
    destruct (inv_known _ _ Hinv _ Hk) as [[r Hr] _]. congruence. }
  destruct (call_ok _ _ _ _ (conj Hs3 Hinv) Hc) as (o & g' & a' & Hg & Ha & Hok).
  pose proof Ha as Ha0.
  simpl in Hg, Ha. apply ST_bind_inv in Hg as ([] & g1 & Hg & Hret). injection Hret as <- <-.
  unfold a_new_task, mbind, ST_bind in Ha. case_bool_decide; [|done]. injection Ha as <-.
  assert (args s !! n = None) as Hna.
  { destruct (args s !! n) eqn:E; [|done]. exfalso. apply Hn, Har. by rewrite E. }
  destruct s as [[h ts c] ar seq df fr]; simpl in *. eexists _, _. split.
  - unfold se_task_create.
    st_step (on_sched_run (on_mem (alloc_node (list_node n) junk)) (mk_se (mk_globals h ts c) ar seq df fr)
      tt _ (on_mem_run _ _ _ _ R1)).
    unfold new_arg, mbind at 1, ST_bind. simpl. rewrite Hna.
    st_step (on_sched_run (on_mem (s_list_init (list_node n)))
      (mk_se (mk_globals h1 ts c) (<[n := mk_se_arg fn x false seq [] false 0]> ar) (u64 (seq + 1)) df fr)
      tt _ (on_mem_run _ _ _ _ R2)). simpl.
    st_step (on_sched_run (on_mem (s_list_attach all_tasks (list_node n)))
      (mk_se (mk_globals h2 ts c) (<[n := mk_se_arg fn x false seq [] false 0]> ar) (u64 (seq + 1)) df fr)
      tt _ (on_mem_run _ _ _ _ R3)). simpl.
    by st_step (on_sched_run (new_task junk junk_task (Stack n) size se_task_entry_fn (Z.of_nat n))
      (mk_se (mk_globals h3 ts c) (<[n := mk_se_arg fn x false seq [] false 0]> ar) (u64 (seq + 1)) df fr)
      tt _ Hg).
  - split_and!; [|simpl..]. 1: split; [exact Hok|..]; simpl.
    + intros m. rewrite elem_of_app, list_elem_of_singleton, <-Har, lookup_insert.
      case_decide; naive_solver.
    + intros m. rewrite elem_of_app, list_elem_of_singleton, <-Hta, lookup_insert.
      case_decide as E; [|naive_solver]. injection E as <-. naive_solver.
    + intros t. rewrite !lookup_insert. repeat case_decide; simplify_eq; [done|apply Hj].
    + exact Hnd.
    + intros m. rewrite Hd, lookup_insert. case_decide as E; [|done]. injection E as <-.
      by rewrite Hno.
    + done.
    + done.
    + done.
    + done.
    + exact Ha0.
Qed.

(** *** The end of a task *)

Lemma get_current_task_arg_run s a ns n :
  se_inv s a ns → acur a = Stack n → get_current_task_arg s = Some (n, s).
Proof.
  intros Hi Hc. destruct (si_ok _ _ _ Hi) as [Hs _]. unfold get_current_task_arg.
  assert (on_sched s_task_get_current_stack s = Some (Stack n, s)) as Hr.
  { unfold on_sched, s_task_get_current_stack, cur, gets. rewrite (sim_cur _ _ _ Hs), Hc.
    by destruct s. }
  by st_step Hr.
Qed.

Lemma get_arg_run n s r : args s !! n = Some r → get_arg n s = Some (r, s).
Proof. unfold get_arg, gets. by intros ->. Qed.

Lemma upd_arg_run n f s r :
  args s !! n = Some r →
  upd_arg n f s =
    Some (tt, mk_se (sched s) (<[n := f r]> (args s)) (g_task_seq s) (deferred s) (freed s)).
Proof. unfold upd_arg. by intros ->. Qed.

Lemma free_memory_run mem s :
  free_memory mem s =
    Some (tt, mk_se (sched s) (args s) (g_task_seq s) (deferred s) (reverse mem ++ freed s)).
Proof.
  revert s; induction mem as [|m mem IH]; intros s; simpl; [by destruct s|].
  unfold mbind, ST_bind, log_freed. rewrite IH. simpl. by rewrite reverse_cons, <-app_assoc.
Qed.

(** The end of a coroutine marks it as closed and does nothing else to the
    roster. *)
Lemma exit_roster a o a' :
  a_exit a = Some (o, a') →
  closed <$> ainfo a' = <[acur a := true]> (closed <$> ainfo a) ∧
  ∀ t, (∀ ws, waitq a !! join_event t = Some ws → ws = []) →
       waitq a' !! join_event t = waitq a !! join_event t.
Proof.
  unfold a_exit, a_context_exit. intros H. apply ST_bind_inv in H as (x & a1 & H1 & H2).
  rewrite a_cur_bind in H1. apply ST_bind_inv in H1 as ([] & a2 & H3 & H4).
  assert (same_roster a2 a') as [Hcl Hj].
  { etrans.
    - eapply (keeps_roster (f := a_set (join_event (acur a));; a_next FcExit)). exact H4.
    - destruct x; [done|]. by eapply (keeps_roster (f := a_resume)). }
  unfold a_upd in H3. destruct (ainfo a !! acur a) as [r|]; simplify_eq/=.
  split; [by rewrite Hcl, fmap_insert|]. exact Hj.
Qed.

Lemma se_task_entry_return_ok s a ns n rc r :
  se_inv s a ns → acur a = Stack n → args s !! n = Some r → (0 <= rc)%Z →
  ∃ o s' a', se_task_entry_return rc s = Some (o, s') ∧ se_inv s' a' ns ∧
    deferred s' = deferred s ++ [n] ∧ freed s' = reverse (memory_to_free r) ++ freed s ∧
    args s' = <[n := set_source true r]> (args s) ∧ aexec CReturn a = Some (o, a').
Proof.
  intros Hi Hc Hr Hrc. pose proof Hi as [[Hs Hinv] Har Hta Hj Hnd Hd].
  assert (contract CReturn a) as Hct by (simpl; by rewrite Hc).
  destruct (call_ok _ _ _ _ (conj Hs Hinv) Hct) as (o & g' & a' & Hg & Ha & Hok). simpl in Hg, Ha.
  destruct (exit_roster _ _ _ Ha) as [Hcl Hjo].
  assert (∀ t, closed <$> ainfo a' !! t =
    if decide (t = Stack n) then Some true else closed <$> ainfo a !! t) as Hcl'.
  { intros t. rewrite <-!lookup_fmap, Hcl, Hc, lookup_insert.
    repeat case_decide; subst; done || congruence. }
  assert (ainfo a !! Stack n ≠ None) as Hsome.
  { intros E. destruct (inv_known _ _ Hinv (acur a)) as [[x Hx] _]; [left; apply (inv_cur _ _ Hinv)|].
    rewrite Hc in Hx. congruence. }
  assert (n ∉ deferred s) as Hnn.
  { rewrite Hd. destruct (ainfo a !! Stack n) as [x|] eqn:Hx; [|done]. simpl. intros [= Hcx].
    rewrite <-Hc in Hx. pose proof (inv_this _ _ Hinv _ Hx). unfold running in *. destruct_and?. congruence. }
  exists o, (mk_se g' (<[n := set_source true r]> (args s)) (g_task_seq s) (deferred s ++ [n])
    (reverse (memory_to_free r) ++ freed s)), a'.
  split_and!; [| |done..].
  - unfold se_task_entry_return. st_step (get_current_task_arg_run _ _ _ _ Hi Hc).
    st_step (get_arg_run _ _ _ Hr). rewrite (proj2 (Z.ltb_ge _ _) Hrc).
    assert ((upd_arg n (set_source true);; add_defer n) s = Some (tt, mk_se (sched s)
      (<[n := set_source true r]> (args s)) (g_task_seq s) (deferred s ++ [n]) (freed s))) as Hm
      by (by st_step (upd_arg_run n (set_source true) _ _ Hr)).
    st_step Hm. st_step (free_memory_run (memory_to_free r) (mk_se (sched s)
      (<[n := set_source true r]> (args s)) (g_task_seq s) (deferred s ++ [n]) (freed s))).
    unfold on_sched. simpl. by rewrite Hg.
  - split; simpl; [done| | | | |].
    + intros m. rewrite lookup_insert, <-Har. case_decide; [|done]. subst m. rewrite Hr. naive_solver.
    + intros m. rewrite <-Hta. specialize (Hcl' (Stack m)). case_decide as E.
      * injection E as ->. destruct (ainfo a' !! Stack n), (ainfo a !! Stack n); simplify_eq/=; naive_solver.
      * destruct (ainfo a' !! Stack m), (ainfo a !! Stack m); simplify_eq/=; naive_solver.
    + intros t. rewrite Hjo by (intros ws; rewrite Hj; destruct (ainfo a !! t); by intros [= <-]).
      rewrite Hj. specialize (Hcl' t). case_decide as E; [subst t|];
        destruct (ainfo a' !! _), (ainfo a !! _); by simplify_eq/=.
    + apply NoDup_app. split_and!; [done|set_solver|apply NoDup_singleton].
    + intros m. rewrite elem_of_app, list_elem_of_singleton, Hd, Hcl'.
      case_decide as E; simplify_eq; naive_solver.
Qed.

(** Taking a node off [all_tasks] and releasing it. *)
Lemma all_tasks_drop g a ns n :
  sim [(all_tasks, list_node <$> ns)] g a → n ∈ ns →
  ∃ h1 h2, s_list_detach (list_node n) (mem g) = Some (tt, h1) ∧
    free_node (list_node n) h1 = Some (tt, h2) ∧
    sim [(all_tasks, list_node <$> remove n ns)] (mk_globals h2 (tasks g) (current_task g)) a.
Proof.
  intros [Hst Hfo Hw Ht Hc] Hn.
  apply list_elem_of_split in Hn as (l1 & l2 & ->).
  assert (store (mem g) ((all_tasks, (list_node <$> l1) ++ list_node n :: (list_node <$> l2)) ::
    layout a)) as Hs1.
  { rewrite fmap_app in Hst. refine (proj1 (store_perm _ _ _ _) Hst). solve_Permutation. }
  assert (NoDup (l1 ++ n :: l2)) as Hnd.
  { destruct Hs1 as [[Hnd _] _]. rewrite nodes_cons in Hnd. apply NoDup_cons in Hnd as [_ Hnd].
    apply NoDup_app in Hnd as [Hnd _]. apply (NoDup_fmap_1 list_node). by rewrite fmap_app. }
  apply NoDup_app in Hnd as (_ & Hd1 & Hnd). apply NoDup_cons in Hnd as [Hd2 _].
  rewrite remove_middle; [|set_solver|done].
  destruct (detach_store _ _ _ _ _ _ Hs1) as (h1 & R1 & Hs2). exists h1.
  assert (store h1 ((list_node n, []) :: (all_tasks, list_node <$> (l1 ++ l2)) :: layout a)) as Hs3.
  { rewrite fmap_app. refine (proj1 (store_perm _ _ _ _) Hs2). solve_Permutation. }
  destruct (free_store _ _ _ Hs3) as [R2 Hs4].
  exists (delete (list_node n) h1). split_and!; [done..|].
  split; simpl; [|apply foreign_all_tasks|done..].
  refine (proj1 (store_perm _ _ _ _) Hs4). solve_Permutation.
Qed.

Lemma se_task_end_handler_ok s a ns n :
  se_inv s a ns → acur a = main_task → n ∈ deferred s →
  ∃ s' a', se_task_end_handler n s = Some (tt, s') ∧ se_inv s' a' (remove n ns) ∧
    runq a' = runq a ∧ acur a' = acur a ∧ deferred s' = remove n (deferred s) ∧
    args s' = delete n (args s) ∧ freed s' = freed s ∧
    aexec (CFreeTask (Stack n)) a = Some (CallReturned, a').
Proof.
  intros Hi Hc Hn. pose proof Hi as [[Hs Hinv] Har Hta Hj Hnd Hd].
  pose proof (sim_uniq _ _ _ Hs) as Hu.
  pose proof (proj1 (Hd n) Hn) as Hcl.
  destruct (ainfo a !! Stack n) as [r|] eqn:Hr; [|done]. simpl in Hcl.
  assert (n ∈ ns) as Hns by (apply Hta; by rewrite Hr).
  assert (contract (CFreeTask (Stack n)) a) as Hct.
  { split_and!; [|by rewrite Hc|by rewrite Hj, Hr].
    destruct (inv_all _ _ Hinv (Stack n)) as [?|[Hq|(e & ws & He & Hin)]]; [by eexists|done|..].
    - destruct (inv_run _ _ Hinv _ _ Hq Hr) as [? _]. congruence.
    - destruct (inv_wait _ _ Hinv _ _ _ _ He Hin Hr) as (_ & ? & _). congruence. }
  destruct (all_tasks_drop _ _ _ n Hs Hns) as (h1 & h2 & R1 & R2 & Hs2).
  destruct (call_ok _ _ _ _ (conj Hs2 Hinv) Hct) as (o & g' & a' & Hg & Ha & Hok).
  pose proof Ha as Ha0.
  simpl in Hg, Ha. apply ST_bind_inv in Hg as ([] & g1 & Hg & Hret). injection Hret as <- <-.
  unfold a_free_task, mbind, ST_bind in Ha. case_bool_decide; [|done]. injection Ha as <-.
  destruct (proj2 (Har n) Hns) as [ar Hna].
  exists (mk_se g1 (delete n (args s)) (g_task_seq s) (remove n (deferred s)) (freed s)).
  eexists. split_and!; [|split; [exact Hok|..]; simpl|done..|exact Ha0].
  - unfold se_task_end_handler. st_step (get_arg_run _ _ _ Hna).
    destruct s as [[h ts c] arg seq df fr]; simpl in *.
    st_step (on_sched_run (on_mem (s_list_detach (list_node n))) (mk_se (mk_globals h ts c) arg seq df fr)
      tt _ (on_mem_run _ _ _ _ R1)). simpl.
    unfold drop_defer, mbind at 1, ST_bind. simpl. rewrite bool_decide_eq_true_2 by done.
    st_step (on_sched_run (on_mem (free_node (list_node n)))
      (mk_se (mk_globals h1 ts c) arg seq (remove n df) fr) tt _ (on_mem_run _ _ _ _ R2)). simpl.
    by st_step (on_sched_run (free_task (Stack n))
      (mk_se (mk_globals h2 ts c) arg seq (remove n df) fr) tt _ Hg).
  - intros m. rewrite elem_of_remove, <-Har, lookup_delete. case_decide; naive_solver.
  - intros m. rewrite elem_of_remove, <-Hta, lookup_delete. case_decide; naive_solver.
  - intros t. rewrite !lookup_delete. repeat case_decide; simplify_eq; [done|apply Hj].
  - by apply NoDup_filter.
  - intros m. rewrite elem_of_remove, Hd, lookup_delete. case_decide; simplify_eq; naive_solver.
Qed.

(** *** Interrupts *)

(** The task accepts interrupts. *)
Definition enabled (s : se_state) (n : nat) : Prop :=
  interrupt_disabled <$> args s !! n = Some false.

#[export] Instance enabled_dec s n : Decision (enabled s n).
Proof. unfold enabled. apply _. Defined.

(** The scheduler's view of an interrupt of the tasks [ms]. *)
Fixpoint a_interrupts (s : se_state) (ms : list nat) : AM unit :=
  match ms with
  | [] => mret tt
  | n :: ms =>
      if bool_decide (enabled s n) then a_cancel_wait (Stack n);; a_interrupts s ms
      else a_interrupts s ms
  end.

(** The effect of interrupting the tasks [ts], in this order: each of them has
    the reason, leaves every queue for the end of the run queue, and is marked
    as cancelled; nothing else changes. *)
Record interrupted (reason : Z) (ts : list nat) (s s' : se_state) (a a' : astate) : Prop := {
  int_args n : args s' !! n = if decide (n ∈ ts) then set_reason reason <$> args s !! n
                              else args s !! n;
  int_run : runq a' = filter (λ t, t ∉ Stack <$> ts) (runq a) ++ (Stack <$> ts);
  int_wait e : waitq a' !! e = filter (λ t, t ∉ Stack <$> ts) <$> waitq a !! e;
  int_info n : ainfo a' !! Stack n =
    if decide (n ∈ ts) then set_waiting_cancelled true <$> ainfo a !! Stack n
    else ainfo a !! Stack n;
  int_cur : acur a' = acur a;
  int_idle : idle a' = idle a;
  int_deferred : deferred s' = deferred s;
  int_freed : freed s' = freed s;
}.

Lemma filter_notin_nil (l : list task_ptr) : filter (λ t, t ∉ Stack <$> []) l = l.
Proof. induction l as [|x l IH]; [done|]. rewrite filter_cons_True by set_solver. by rewrite IH. Qed.

Lemma interrupted_nil reason s a : interrupted reason [] s s a a.
Proof.
  split; [| | | |done..].
  - intros n. by rewrite decide_False by set_solver.
  - by rewrite filter_notin_nil, app_nil_r.
  - intros e. destruct (waitq a !! e) as [ws|]; [|done]. simpl. by rewrite filter_notin_nil.
  - intros n. by rewrite decide_False by set_solver.
Qed.

Lemma interrupted_cons reason n ts s s1 s' a a1 a' :
  interrupted reason [n] s s1 a a1 → interrupted reason ts s1 s' a1 a' → n ∉ ts →
  interrupted reason (n :: ts) s s' a a'.
Proof.
  intros [A1 R1 W1 I1 C1 D1 F1 G1] [A2 R2 W2 I2 C2 D2 F2 G2] Hn.
  assert (∀ l : list task_ptr, filter (λ t, t ∉ Stack <$> ts) (filter (λ t, t ∉ Stack <$> [n]) l) =
    filter (λ t, t ∉ Stack <$> n :: ts) l) as Hf.
  { intros l. rewrite list_filter_filter. apply list_filter_iff. intros t. simpl. set_solver. }
  split; [| | | |congruence..].
  - intros m. rewrite A2, A1. repeat case_decide; set_solver.
  - rewrite R2, R1, filter_app, Hf, <-app_assoc. f_equal. simpl.
    rewrite filter_cons_True; [done|]. intros Hin. apply list_elem_of_fmap in Hin as (m & [= <-] & ?). done.
  - intros e. rewrite W2, W1. destruct (waitq a !! e) as [ws|]; [|done]. simpl. by rewrite <-Hf.
  - intros m. rewrite I2, I1. repeat case_decide; set_solver.
Qed.

Lemma interrupt_task_ok reason s a ns n :
  se_inv s a ns → enabled s n → cancellable a (Stack n) → acur a = main_task →
  ∃ s' a', interrupt_task n reason s = Some (tt, s') ∧ se_inv s' a' ns ∧
    interrupted reason [n] s s' a a' ∧ a_cancel_wait (Stack n) a = Some (tt, a') ∧
    ∀ m, cancellable a (Stack m) → cancellable a' (Stack m).
Proof.
  intros Hi Hen Hca Hc. destruct (args s !! n) as [r|] eqn:Hr; [|by unfold enabled in Hen; rewrite Hr in Hen].
  unfold enabled in Hen. rewrite Hr in Hen. injection Hen as Hen.
  destruct (si_ok _ _ _ Hi) as [Hs Hinv].
  destruct (inv_known _ _ Hinv (Stack n)) as [[rt Hrt] _]; [apply Hca|].
  destruct (inv_known _ _ Hinv (acur a)) as [[rc Hrc] _]; [left; apply (inv_cur _ _ Hinv)|].
  destruct (call_ok _ _ _ (CCancel (Stack n)) (si_ok _ _ _ Hi) Hca) as (o & g' & a' & Hg & Ha & Hok).
  simpl in Hg, Ha. apply ST_bind_inv in Hg as ([] & g1 & Hg & Hret). injection Hret as <- <-.
  pose proof (a_cancel_wait_run _ _ _ _ Hca Hrt Hrc) as Hrun.
  rewrite (ST_bind_run _ _ _ _ _ Hrun) in Ha. injection Ha as <-.
  pose proof (se_inv_roster _ _ _ _ _ Hi Hok (roster_cancel_wait _ _ _ _ Hrun)) as Hi'.
  exists (mk_se g1 (<[n := set_reason reason r]> (args s)) (g_task_seq s) (deferred s) (freed s)).
  eexists. split_and!.
  - unfold interrupt_task. st_step (get_arg_run _ _ _ Hr). rewrite Hen.
    st_step (upd_arg_run n (set_reason reason) _ _ Hr). unfold on_sched. simpl. by rewrite Hg.
  - destruct Hi' as [Hok' Har' Hta' Hj' Hnd' Hd']. split; simpl in *; [done| |done..].
    intros m. rewrite <-Har', lookup_insert. case_decide; [subst; rewrite Hr; naive_solver|done].
  - assert (∀ l : list task_ptr, filter (λ t, t ∉ Stack <$> [n]) l = remove (Stack n) l) as Hf.
    { intros l. unfold remove. apply list_filter_iff. intros t. simpl. set_solver. }
    split; [| | | |done..].
    + intros m. simpl args. rewrite lookup_insert.
      repeat case_decide; subst; [by rewrite Hr|set_solver|set_solver|done].
    + by rewrite Hf.
    + intros e. cbn [cancelled a_wevs waitq]. rewrite lookup_fmap.
      destruct (waitq a !! e) as [ws|]; [|done]. cbn. by rewrite Hf.
    + intros m. cbn [cancelled a_wevs ainfo]. rewrite Hc, lookup_insert_ne by done. rewrite lookup_insert.
      repeat case_decide; simplify_eq; [by rewrite Hrt|set_solver|set_solver|done].
  - exact Hrun.
  - intros m (H1 & H2 & H3 & H4). split_and!; simpl; [by rewrite Hc|..].
    + destruct (inv_known _ _ Hinv _ H2) as [Hp _]. apply (inv_all _ _ (proj2 Hok)). simpl.
      rewrite Hc, lookup_insert_ne by done. rewrite lookup_insert. case_decide; [by eexists|done].
    + done.
    + intros r' e. rewrite Hc, lookup_insert_ne by done. rewrite lookup_insert, lookup_fmap.
      case_decide as E; intros Hx Hy; simplify_eq.
      * destruct (H4 _ _ Hrt Hy) as [ws ->]. by eexists.
      * destruct (H4 _ _ Hx Hy) as [ws ->]. by eexists.
Qed.

(** The next node of [all_tasks] after [list_node n]. *)
Lemma all_tasks_next F g a pre n ms :
  sim ((all_tasks, list_node <$> (pre ++ n :: ms)) :: F) g a →
  s_list_get_next (list_node n) (mem g) =
    Some (default all_tasks (head (list_node <$> ms)), mem g).
Proof.
  intros [[Hr _] _ _ _ _].
  assert (rings (mem g) ((list_node n, (list_node <$> ms) ++ all_tasks :: (list_node <$> pre)) ::
    layout a ++ F)) as Hr'.
  { apply rings_rotate. rewrite fmap_app in Hr. refine (proj1 (rings_perm _ _ _ _) Hr).
    solve_Permutation. }
  rewrite (get_next_rings _ _ _ _ Hr'). by destruct ms.
Qed.

Lemma all_tasks_first F g a ns :
  sim ((all_tasks, list_node <$> ns) :: F) g a →
  s_list_get_next all_tasks (mem g) = Some (default all_tasks (head (list_node <$> ns)), mem g).
Proof.
  intros [[Hr _] _ _ _ _]. apply (get_next_rings _ _ _ (layout a ++ F)).
  refine (proj1 (rings_perm _ _ _ _) Hr). solve_Permutation.
Qed.

Lemma get_next_sched s x y :
  s_list_get_next x (mem (sched s)) = Some (y, mem (sched s)) →
  on_sched (on_mem (s_list_get_next x)) s = Some (y, s).
Proof.
  intros H. rewrite (on_sched_run _ s y (sched s)); [by destruct s|].
  rewrite (on_mem_run _ _ _ _ H). by destruct (sched s).
Qed.

Lemma interrupt_loop_ok reason ms : ∀ pre fuel s a,
  se_inv s a (pre ++ ms) → acur a = main_task →
  (∀ n, n ∈ ms → enabled s n → cancellable a (Stack n)) → length ms < fuel →
  ∃ s' a', interrupt_loop fuel (default all_tasks (head (list_node <$> ms))) reason s = Some (tt, s') ∧
    se_inv s' a' (pre ++ ms) ∧ interrupted reason (filter (enabled s) ms) s s' a a' ∧
    a_interrupts s ms a = Some (tt, a').
Proof.
  induction ms as [|n ms IH]; intros pre [|fuel] s a Hi Hc Hca Hf; simpl in Hf; [lia| |lia|].
  - exists s, a. split_and!; [done|done|apply interrupted_nil|done].
  - pose proof (se_inv_NoDup _ _ _ Hi) as Hnd. apply NoDup_app in Hnd as (_ & _ & Hnd).
    apply NoDup_cons in Hnd as [Hn Hnd].
    cbn [fmap list_fmap head default interrupt_loop]. rewrite bool_decide_eq_false_2 by done.
    st_step (eq_refl : arg_of_list_node (list_node n) s = Some (n, s)).
    st_step (get_next_sched _ _ _ (all_tasks_next _ _ _ _ _ _ (proj1 (si_ok _ _ _ Hi)))).
    replace (pre ++ n :: ms) with ((pre ++ [n]) ++ ms) in * by (by rewrite <-app_assoc).
    rewrite filter_cons. case_decide as Hen.
    + destruct (interrupt_task_ok reason _ _ _ n Hi Hen (Hca n ltac:(left) Hen) Hc)
        as (s1 & a1 & R1 & Hi1 & Hint & Ha1 & Hkeep). st_step R1.
      assert (∀ m, m ∈ ms → enabled s1 m ↔ enabled s m) as Hen1.
      { intros m Hm. unfold enabled. rewrite (int_args _ _ _ _ _ _ Hint), decide_False; [done|].
        set_solver. }
      destruct (IH (pre ++ [n]) fuel s1 a1) as (s' & a' & R2 & Hi2 & Hint2 & Ha2);
        [done|by rewrite (int_cur _ _ _ _ _ _ Hint)| |lia|].
      { intros m Hm Hx. apply Hkeep, Hca; [by right|by apply Hen1]. }
      assert (∀ x, a_interrupts s1 ms x = a_interrupts s ms x) as Hai.
      { clear -Hen1. intros x. revert x; induction ms as [|m ms IHm]; intros x; [done|]. simpl.
        rewrite (bool_decide_ext (enabled s1 m) (enabled s m) (Hen1 m ltac:(left))).
        assert (∀ k, k ∈ ms → enabled s1 k ↔ enabled s k) as Hen2 by (intros; apply Hen1; by right).
        specialize (IHm Hen2). case_bool_decide; [|done].
        unfold mbind, ST_bind. case_match; [|done]. case_match. apply IHm. }
      exists s', a'. split_and!; [done|done| |].
      2: { simpl. rewrite bool_decide_eq_true_2 by done. st_step Ha1. by rewrite <-Hai. }
      assert (filter (enabled s1) ms = filter (enabled s) ms) as Heq.
      { clear -Hen1. induction ms as [|m ms IHm]; [done|]. rewrite !filter_cons.
        rewrite IHm by (intros; apply Hen1; by right).
        pose proof (Hen1 m ltac:(left)). repeat case_decide; naive_solver. }
      rewrite Heq in Hint2. eapply interrupted_cons; [done..|].
      rewrite list_elem_of_filter. tauto.
    + destruct (IH (pre ++ [n]) fuel s a) as (s' & a' & R2 & Hi2 & Hint2 & Ha2);
        [done..|intros m Hm; apply Hca; by right|lia|].
      assert (interrupt_task n reason s = Some (tt, s)) as R1.
      { destruct (proj2 (si_args _ _ _ Hi n)) as [r Hr]; [set_solver|].
        unfold interrupt_task. st_step (get_arg_run _ _ _ Hr). unfold enabled in Hen. rewrite Hr in Hen.
        destruct (interrupt_disabled r) eqn:E; [done|]. destruct Hen. simpl. by rewrite E. }
      st_step R1. exists s', a'. split_and!; [done..|]. simpl. by rewrite bool_decide_eq_false_2.
Qed.

Lemma interrupt_all_ok reason s a ns :
  se_inv s a ns → acur a = main_task →
  (∀ n, n ∈ ns → enabled s n → cancellable a (Stack n)) →
  ∃ s' a', interrupt_all_tasks reason s = Some (tt, s') ∧ se_inv s' a' ns ∧
    interrupted reason (filter (enabled s) ns) s s' a a' ∧ a_interrupts s ns a = Some (tt, a').
Proof.
  intros Hi Hc Hca. unfold interrupt_all_tasks.
  st_step (get_next_sched _ _ _ (all_tasks_first _ _ _ _ (proj1 (si_ok _ _ _ Hi)))).
  apply (interrupt_loop_ok reason ns []); [done..|].
  pose proof (sim_store _ _ _ (proj1 (si_ok _ _ _ Hi))) as [_ Hd].
  rewrite <-size_dom, Hd. clear -Hi.
  assert (length ns ≤ size (list_to_set (list_node <$> ns) : gset lnode)) as Hlen.
  { rewrite size_list_to_set; [by rewrite length_fmap|].
    apply (NoDup_fmap_2 list_node). by eapply se_inv_NoDup. }
  apply Nat.lt_succ_r. etrans; [exact Hlen|]. apply subseteq_size. intros x.
  rewrite !elem_of_list_to_set, nodes_app, elem_of_app. intros Hx. right.
  unfold nodes. simpl. rewrite app_nil_r. by right.
Qed.

(** ** The tasks of the daemon as a transition system *)

(** What runs: a scheduler call by a task or an event handler, the creation
    of a task, the end of the current one, its release by the event loop, an
    interrupt of one task or of all, and the accesses of a task to its own
    bookkeeping. *)
Inductive se_action : Type :=
  | ACall (c : call)
  | ACreate (n : nat) (junk : s_list_t lnode) (junk_task : s_task_t) (size fn x : Z)
  | AReturn (rc : Z)
  | AEnd (n : nat)
  | AInterrupt (n : nat) (reason : Z)
  | AInterruptAll (reason : Z)
  | ARegister (mem free_fn : Z)
  | ADisable (disabled : Z).

Definition se_exec (x : se_action) : SE outcome :=
  match x with
  | ACall c => on_sched (exec c)
  | ACreate n junk junk_task size fn x => se_task_create (Some n) junk junk_task size fn x;; mret CallReturned
  | AReturn rc => se_task_entry_return rc
  | AEnd n => se_task_end_handler n;; mret CallReturned
  | AInterrupt n reason => interrupt_task n reason;; mret CallReturned
  | AInterruptAll reason => interrupt_all_tasks reason;; mret CallReturned
  | ARegister mem free_fn => se_task_register_memory_to_free mem free_fn;; mret CallReturned
  | ADisable disabled => set_interrupt_disabled disabled;; mret CallReturned
  end.

(** A task that accepts interrupts can take one. *)
Definition interruptible (s : se_state) (a : astate) (n : nat) : Prop :=
  enabled s n → cancellable a (Stack n).

Definition se_contract (x : se_action) (s : se_state) (a : astate) (ns : list nat) : Prop :=
  match x with
  | ACall c => client_call c ∧ contract c a
  | ACreate n _ _ _ _ _ => n ∉ ns
  | AReturn rc => acur a ≠ main_task ∧ (0 <= rc)%Z
  | AEnd n => acur a = main_task ∧ n ∈ deferred s
  | AInterrupt n _ => acur a = main_task ∧ n ∈ ns ∧ interruptible s a n
  | AInterruptAll _ => acur a = main_task ∧ Forall (interruptible s a) ns
  | ARegister _ _ | ADisable _ => acur a ≠ main_task
  end.

(** The scheduler's view of an action. *)
Definition se_aexec (x : se_action) (s : se_state) (ns : list nat) : AM outcome :=
  match x with
  | ACall c => aexec c
  | ACreate n junk junk_task size _ _ =>
      aexec (CCreate junk junk_task n size se_task_entry_fn (Z.of_nat n))
  | AReturn _ => aexec CReturn
  | AEnd n => aexec (CFreeTask (Stack n))
  | AInterrupt n _ => a_interrupts s [n];; mret CallReturned
  | AInterruptAll _ => a_interrupts s ns;; mret CallReturned
  | ARegister _ _ | ADisable _ => mret CallReturned
  end.

(** The list [all_tasks] afterwards. *)
Definition roster_after (x : se_action) (ns : list nat) : list nat :=
  match x with ACreate n _ _ _ _ _ => ns ++ [n] | AEnd n => remove n ns | _ => ns end.

(** A task's change to its own record keeps the invariant. *)
Lemma upd_arg_ok s a ns n f :
  se_inv s a ns → n ∈ ns →
  ∃ s', upd_arg n f s = Some (tt, s') ∧ se_inv s' a ns ∧ args s' = alter f n (args s) ∧
    freed s' = freed s.
Proof.
  intros Hi Hn. destruct (proj2 (si_args _ _ _ Hi n) Hn) as [r Hr].
  eexists. split; [by apply upd_arg_run|]. destruct Hi as [Hok Har Hta Hj Hnd Hd].
  split_and!; simpl.
  - split; simpl; [done| |done..]. intros m. rewrite <-Har, lookup_insert.
    case_decide; [subst; rewrite Hr; naive_solver|done].
  - apply map_eq. intros m. destruct (decide (n = m)) as [->|Hne].
    + by rewrite lookup_insert_eq, lookup_alter_eq, Hr.
    + by rewrite lookup_insert_ne, lookup_alter_ne.
  - done.
Qed.

Lemma current_allocated s a ns :
  se_inv s a ns → acur a ≠ main_task → ∃ n, acur a = Stack n ∧ n ∈ ns.
Proof.
  intros Hi Hm. destruct (acur a) as [|n] eqn:Hc; [done|]. exists n. split; [done|].
  apply (si_tasks _ _ _ Hi). destruct (si_ok _ _ _ Hi) as [_ Hinv]. rewrite <-Hc.
  apply (inv_known _ _ Hinv). left. apply (inv_cur _ _ Hinv).
Qed.

(** Every action within the contract is defined and keeps the invariant. *)
Lemma se_step_ok s a ns x :
  se_inv s a ns → se_contract x s a ns →
  ∃ o s' a', se_exec x s = Some (o, s') ∧ se_inv s' a' (roster_after x ns) ∧
    se_aexec x s ns a = Some (o, a').
Proof.
  intros Hi Hc. destruct x as [c|n junk jt size fn x|rc|n|n reason|reason|mem fn|dis]; simpl in *.
  - destruct Hc as [Hcl Hc]. destruct (client_call_ok _ _ _ _ Hi Hcl Hc) as (o & s' & a' & ? & ? & ? & _).
    by exists o, s', a'.
  - destruct (se_task_create_ok _ _ _ n junk jt size fn x Hi Hc) as (s' & a' & R & Hi' & _ & _ & _ & _ & Ha).
    exists CallReturned, s', a'. by st_step R.
  - destruct Hc as [Hm Hrc]. destruct (current_allocated _ _ _ Hi Hm) as (n & Hn & Hns).
    destruct (proj2 (si_args _ _ _ Hi n) Hns) as [r Hr].
    destruct (se_task_entry_return_ok _ _ _ _ _ _ Hi Hn Hr Hrc) as (o & s' & a' & ? & ? & _ & _ & _ & ?).
    by exists o, s', a'.
  - destruct Hc as [Hm Hn].
    destruct (se_task_end_handler_ok _ _ _ _ Hi Hm Hn)
      as (s' & a' & R & Hi' & _ & _ & _ & _ & _ & Ha).
    exists CallReturned, s', a'. by st_step R.
  - destruct Hc as (Hm & Hn & Hx). destruct (decide (enabled s n)) as [He|He].
    + destruct (interrupt_task_ok reason _ _ _ _ Hi He (Hx He) Hm) as (s' & a' & R & Hi' & _ & Ha & _).
      exists CallReturned, s', a'. split; [by st_step R|]. split; [done|].
      rewrite bool_decide_eq_true_2 by done.
      rewrite (ST_bind_run _ (λ _, mret CallReturned) a tt a'); [done|]. by st_step Ha.
    + destruct (proj2 (si_args _ _ _ Hi n) Hn) as [r Hr]. exists CallReturned, s, a.
      unfold interrupt_task. unfold enabled in He. rewrite Hr in He.
      assert (interrupt_disabled r = true) as Hd by (destruct (interrupt_disabled r) eqn:E; [done|];
        destruct He; simpl; by rewrite E).
      split; [unfold mbind, ST_bind, get_arg, gets; by rewrite Hr, Hd|]. split; [done|].
      rewrite bool_decide_eq_false_2; [done|]. unfold enabled. by rewrite Hr.
  - destruct Hc as [Hm Hx]. rewrite Forall_forall in Hx.
    destruct (interrupt_all_ok reason _ _ _ Hi Hm Hx) as (s' & a' & R & Hi' & _ & Ha).
    exists CallReturned, s', a'. split; [by st_step R|]. split; [done|]. by st_step Ha.
  - destruct (current_allocated _ _ _ Hi Hc) as (n & Hn & Hns).
    destruct (proj2 (si_args _ _ _ Hi n) Hns) as [r Hr].
    destruct (upd_arg_ok _ _ _ n (set_memory ((mem, fn) :: memory_to_free r)) Hi Hns) as (s' & R & Hi' & _).
    exists CallReturned, s', a. split; [|done].
    unfold se_task_register_memory_to_free.
    rewrite (ST_bind_run _ (λ _, mret CallReturned) s tt s'); [done|].
    st_step (get_current_task_arg_run _ _ _ _ Hi Hn). by st_step (get_arg_run _ _ _ Hr).
  - destruct (current_allocated _ _ _ Hi Hc) as (n & Hn & Hns).
    destruct (upd_arg_ok _ _ _ n (set_disabled (negb (dis =? 0)%Z)) Hi Hns) as (s' & R & Hi' & _).
    exists CallReturned, s', a. split; [|done]. unfold set_interrupt_disabled.
    rewrite (ST_bind_run _ (λ _, mret CallReturned) s tt s'); [done|].
    by st_step (get_current_task_arg_run _ _ _ _ Hi Hn).
Qed.
