(* ===== verification/SeTheorems.v ===== *)
(** * What the task layer of src/se_libs.c guarantees

    Properties of the reachable states of [SeTask], and the one way the
    daemon breaks its contract. *)

From S2P Require Import Prelude SList STask SchedSpec SchedInv SchedTheorems SeTask.

(** ** Reachable states *)

(** The static storage of se_libs.c after [s_task_init_system]. *)
Definition se_boot : se_state := mk_se booted ∅ 1 [] [].

Inductive se_reachable : se_state → astate → list nat → Prop :=
  | se_reach_init : se_reachable se_boot ainit []
  | se_reach_step s a ns x o s' a' :
      se_reachable s a ns → se_contract x s a ns → se_exec x s = Some (o, s') →
      se_aexec x s ns a = Some (o, a') → se_reachable s' a' (roster_after x ns).

Lemma se_boot_inv : se_inv se_boot ainit [].
Proof.
  split; simpl.
  - exact booted_ok.
  - intros n. rewrite lookup_empty. split; [by intros []|set_solver].
  - intros n. rewrite lookup_singleton_ne by done. split; [by intros []|set_solver].
  - intros [|n]; [done|]. by rewrite !lookup_singleton_ne.
  - constructor.
  - intros n. rewrite lookup_singleton_ne by done. split; [set_solver|done].
Qed.

Lemma se_reachable_inv s a ns : se_reachable s a ns → se_inv s a ns.
Proof.
  induction 1 as [|s a ns x o s' a' _ IH Hc Hx Ha]; [apply se_boot_inv|].
  destruct (se_step_ok _ _ _ _ IH Hc) as (o2 & s2 & a2 & Hx2 & Hi & Ha2). by simplify_eq.
Qed.

(** ** Concrete runs *)

#[export] Instance client_call_dec c : Decision (client_call c).
Proof. destruct c as [[]| |[]| | | | | | |]; simpl; apply _. Defined.
#[export] Instance interruptible_dec s a n : Decision (interruptible s a n).
Proof. unfold interruptible. apply _. Defined.
#[export] Instance se_contract_dec x s a ns : Decision (se_contract x s a ns).
Proof. destruct x; simpl; apply _. Defined.

Definition se_view : Type := se_state * astate * list nat.

Definition run_action (v : se_view) (x : se_action) : option se_view :=
  let '(s, a, ns) := v in
  if bool_decide (se_contract x s a ns) then
    match se_exec x s, se_aexec x s ns a with
    | Some (_, s'), Some (_, a') => Some (s', a', roster_after x ns)
    | _, _ => None
    end
  else None.

Fixpoint run_actions (v : se_view) (xs : list se_action) : option se_view :=
  match xs with [] => Some v | x :: xs => v' ← run_action v x; run_actions v' xs end.

Definition view_ok (v : se_view) : Prop := se_reachable v.1.1 v.1.2 v.2.

Lemma run_actions_ok xs v v' : view_ok v → run_actions v xs = Some v' → view_ok v'.
Proof.
  revert v; induction xs as [|x xs IH]; intros v Hv; simpl; [by intros [= <-]|].
  destruct (run_action v x) as [v1|] eqn:H1; [|done]. simpl. apply IH. clear IH.
  destruct v as [[s a] ns]. unfold run_action in H1. case_bool_decide as Hc; [|done].
  destruct (se_step_ok _ _ _ _ (se_reachable_inv _ _ _ Hv) Hc) as (o & s' & a' & Hx & _ & Ha).
  simpl in Hx, Ha. rewrite Hx, Ha in H1. injection H1 as <-. by eapply se_reach_step.
Qed.

(** Task 1 registers two cleanups and waits for event 7, task 2 waits for
    event 7 with interrupts disabled, task 3 ends. *)
Definition se_demo : list se_action :=
  let j := mk_s_list active_tasks all_tasks in
  let jt := mk_task 9 9 (Some (Event 3)) FcExit 9 true true in
  [ACall (CNewEvent j 7); ACreate 1 j jt 4096 10 20; ACreate 2 j jt 4096 11 21;
   ACreate 3 j jt 4096 12 22; ACall CLoop; ARegister 100 1; ARegister 200 2; ACall (CWait (Event 7));
   ADisable 1; ACall (CWait (Event 7)); AReturn 0; AEnd 3].

Definition se_demo_at (n : nat) : se_view :=
  default (se_boot, ainit, []) (run_actions (se_boot, ainit, []) (take n se_demo)).

Lemma se_demo_ok n : view_ok (se_demo_at n).
Proof.
  unfold se_demo_at. destruct (run_actions _ _) as [v|] eqn:Hv; simpl; [|apply se_reach_init].
  eapply run_actions_ok, Hv. apply se_reach_init.
Qed.

Example se_demo_runs : bool_decide (is_Some (run_actions (se_boot, ainit, []) se_demo)) = true.
Proof. vm_compute. reflexivity. Qed.

(** ** Claims *)

(** C5. Tasks come and go safely: in every state reached by actions within the
    contract, every action within the contract (scheduler calls of tasks and
    handlers, creating a task, its end, its release by the event loop,
    interrupts, registering cleanups) runs without touching freed or foreign
    memory, as the abstract machine does, and leads to such a state again. The
    contract is [se_contract]: scheduler calls respect the scheduler's own
    contract, a task returns no negative value, the event loop releases only
    tasks that were handed to it, and an interrupt, or an interrupt of all, is
    made only while every task it reaches and that accepts interrupts is in a
    queue or blocked on a live event. That leaves out the interrupt of a task
    that has ended and waits for its release, which the code does not prevent
    and which touches freed memory ([exit_signal_revives_ended_task]). *)
Theorem se_actions_safe s a ns x :
  se_reachable s a ns → se_contract x s a ns →
  ∃ o s' a', se_exec x s = Some (o, s') ∧ se_aexec x s ns a = Some (o, a') ∧
    se_reachable s' a' (roster_after x ns).
Proof.
  intros Hr Hc. destruct (se_step_ok _ _ _ _ (se_reachable_inv _ _ _ Hr) Hc) as (o & s' & a' & Hx & _ & Ha).
  exists o, s', a'. split_and!; [done..|]. by eapply se_reach_step.
Qed.

Lemma se_actions_safe_witness :
  se_contract (AEnd 3) (se_demo_at 11).1.1 (se_demo_at 11).1.2 (se_demo_at 11).2 ∧
  ∃ o s', se_exec (AEnd 3) (se_demo_at 11).1.1 = Some (o, s').
Proof.
  assert (se_contract (AEnd 3) (se_demo_at 11).1.1 (se_demo_at 11).1.2 (se_demo_at 11).2) as Hc
    by (refine (bool_decide_unpack _ _); vm_compute; exact I).
  split; [exact Hc|].
  destruct (se_actions_safe _ _ _ _ (se_demo_ok 11) Hc) as (o & s' & a' & Hx & _).
  exists o, s'. exact Hx.
Defined.

(** [is_task_empty] tells the truth: in every reachable state the list
    [all_tasks] holds exactly the allocated tasks, each once, a task that is
    waiting for its release is one that has ended, and [is_task_empty] answers
    whether there is any task left. *)
Theorem all_tasks_are_the_live_ones s a ns :
  se_reachable s a ns →
  is_task_empty s = Some (bool_decide (args s = ∅), s) ∧ NoDup ns ∧
  (∀ n, n ∈ ns ↔ is_Some (args s !! n)) ∧
  (∀ n, n ∈ deferred s ↔ closed <$> tasks (sched s) !! Stack n = Some true).
Proof.
  intros Hr. pose proof (se_reachable_inv _ _ _ Hr) as Hi.
  destruct (si_ok _ _ _ Hi) as [Hs _]. split_and!.
  - unfold is_task_empty, on_sched, on_mem.
    rewrite (is_empty_store _ all_tasks (list_node <$> ns) (layout a)).
    2: { refine (proj1 (store_perm _ _ _ _) (sim_store _ _ _ Hs)). solve_Permutation. }
    destruct s as [[h ts c] ar seq df fr]; simpl in *. f_equal. f_equal.
    apply bool_decide_ext. split; intros He.
    + apply fmap_nil_inv in He. subst ns. apply map_empty. intros n.
      destruct (ar !! n) eqn:E; [|done]. pose proof (proj1 (si_args _ _ _ Hi n)) as Hn. simpl in Hn.
      rewrite E in Hn. specialize (Hn ltac:(by eexists)). set_solver.
    + destruct ns as [|n ns]; [done|]. exfalso.
      destruct (proj2 (si_args _ _ _ Hi n)) as [r Hn]; [left|]. simpl in Hn. by rewrite He in Hn.
  - by eapply se_inv_NoDup.
  - intros n. by rewrite (si_args _ _ _ Hi).
  - intros n. by rewrite (sim_tasks _ _ _ Hs), (si_deferred _ _ _ Hi).
Qed.

Lemma all_tasks_are_the_live_ones_witness :
  is_task_empty (se_demo_at 12).1.1 = Some (false, (se_demo_at 12).1.1).
Proof.
  destruct (all_tasks_are_the_live_ones _ _ _ (se_demo_ok 12)) as [H _].
  rewrite H. vm_compute. reflexivity.
Defined.

(** The event a task last waited for, if any, is in memory. *)
Definition points_alive (a : astate) (r : s_task_t) : Prop :=
  match waiting_event r with Some e => is_Some (waitq a !! e) | None => True end.

#[export] Instance points_alive_dec a r : Decision (points_alive a r).
Proof. unfold points_alive. case_match; apply _. Defined.

Lemma live_cancellable s a ns n :
  se_inv s a ns → acur a = main_task → deferred s = [] → n ∈ ns →
  (∀ r e, ainfo a !! Stack n = Some r → waiting_event r = Some e → is_Some (waitq a !! e)) →
  cancellable a (Stack n).
Proof.
  intros Hi Hc Hd Hn Hev. destruct (si_ok _ _ _ Hi) as [_ Hinv].
  destruct (proj2 (si_tasks _ _ _ Hi n) Hn) as [r Hr]. split_and!; [by rewrite Hc| | |done].
  - by apply (inv_all _ _ Hinv).
  - intros Hid. destruct (inv_idle _ _ Hinv (Stack n) r Hid ltac:(by rewrite Hc) Hr) as [Hcl _].
    assert (n ∈ deferred s) as Hx by (apply (si_deferred _ _ _ Hi); by rewrite Hr; simpl; rewrite Hcl).
    rewrite Hd in Hx. set_solver.
Qed.

(** C23. [interrupt_all_tasks] reaches everybody: called by the main task while
    no ended task waits for its release ([deferred s = []]) and while no task
    has a stale pointer to an event that is gone ([points_alive]), it
    terminates; every task that accepts interrupts gets the reason, is
    runnable, and if it was blocked its wait will return -1; a task that has
    interrupts disabled is left alone. The code checks neither condition:
    without the first it revives an ended task
    ([exit_signal_revives_ended_task]), without the second the scheduler
    writes through the stale pointer. *)
Theorem interrupt_all_reaches_everyone s a ns reason :
  se_reachable s a ns → acur a = main_task → deferred s = [] →
  map_Forall (λ _, points_alive a) (tasks (sched s)) →
  ∃ s' a', interrupt_all_tasks reason s = Some (tt, s') ∧ se_reachable s' a' ns ∧
    ∀ n r, args s !! n = Some r →
      if interrupt_disabled r then
        args s' !! n = Some r ∧ tasks (sched s') !! Stack n = tasks (sched s) !! Stack n
      else
        args s' !! n = Some (set_reason reason r) ∧ Stack n ∈ runq a' ∧
        ∀ e ws, waitq a !! e = Some ws → Stack n ∈ ws →
          ∃ rt, tasks (sched s') !! Stack n = Some rt ∧ observed rt = WaitReturned (-1).
Proof.
  intros Hre Hc Hd Hev. pose proof (se_reachable_inv _ _ _ Hre) as Hi.
  destruct (si_ok _ _ _ Hi) as [Hs Hinv]. rewrite (sim_tasks _ _ _ Hs) in Hev |- *.
  assert (∀ n, n ∈ ns → enabled s n → cancellable a (Stack n)) as Hca
    by (intros n Hn _; apply (live_cancellable _ _ _ _ Hi Hc Hd Hn);
      intros r e Hr He; specialize (Hev _ _ Hr); unfold points_alive in Hev; by rewrite He in Hev).
  destruct (interrupt_all_ok reason _ _ _ Hi Hc Hca) as (s' & a' & R & Hi' & Hint & Ha).
  exists s', a'. split_and!; [done| |].
  { eapply (se_reach_step s a ns (AInterruptAll reason) CallReturned); [done|..].
    - split; [done|]. by apply Forall_forall.
    - simpl. by st_step R.
    - simpl. by st_step Ha. }
  intros n r Hr. destruct (si_ok _ _ _ Hi') as [Hs' _]. rewrite (sim_tasks _ _ _ Hs').
  assert (n ∈ filter (enabled s) ns ↔ interrupt_disabled r = false) as Hin.
  { rewrite list_elem_of_filter, <-(si_args _ _ _ Hi), Hr. unfold enabled. rewrite Hr. simpl.
    split; [intros [H _]; by injection H|intros ->; split; [done|by eexists]]. }
  destruct (interrupt_disabled r) eqn:Hdis.
  - rewrite (int_args _ _ _ _ _ _ Hint), (int_info _ _ _ _ _ _ Hint), !decide_False by (by rewrite Hin). done.
  - rewrite (int_args _ _ _ _ _ _ Hint), (int_info _ _ _ _ _ _ Hint), !decide_True by (by apply Hin).
    rewrite Hr. split_and!; [done| |].
    + rewrite (int_run _ _ _ _ _ _ Hint). apply elem_of_app. right.
      apply list_elem_of_fmap. exists n. split; [done|]. by apply Hin.
    + intros e ws He Hws. destruct (inv_known _ _ Hinv (Stack n)) as [[rt Hrt] _]; [by eapply known_wait|].
      destruct (inv_wait _ _ Hinv _ _ _ _ He Hws Hrt) as (_ & _ & Hf & _).
      rewrite Hrt. eexists. split; [done|]. unfold observed. simpl. by rewrite Hf.
Qed.

Lemma interrupt_all_reaches_everyone_witness :
  ∃ s' a', interrupt_all_tasks 5 (se_demo_at 12).1.1 = Some (tt, s') ∧ Stack 1 ∈ runq a' ∧
    ∃ rt, tasks (sched s') !! Stack 1 = Some rt ∧ observed rt = WaitReturned (-1).
Proof.
  destruct (interrupt_all_reaches_everyone _ _ _ 5 (se_demo_ok 12)) as (s' & a' & R & _ & H);
    [vm_compute; reflexivity|vm_compute; reflexivity| |].
  - refine (bool_decide_unpack _ _). vm_compute. exact I.
  - exists s', a'. split; [exact R|].
    assert (args (se_demo_at 12).1.1 !! 1 = Some (mk_se_arg 10 20 false 1 [(200, 2); (100, 1)] false 0)%Z)
      as H1 by (vm_compute; reflexivity).
    destruct (H _ _ H1) as (_ & Hq & Hw). split; [exact Hq|].
    apply (Hw (Event 7) [Stack 1; Stack 2]); [vm_compute; reflexivity|left].
Defined.

(** Registering cleanups one after the other. *)
Fixpoint register_all (ms : list (Z * Z)) : SE unit :=
  match ms with
  | [] => mret tt
  | m :: ms => se_task_register_memory_to_free m.1 m.2;; register_all ms
  end.

Lemma register_all_run ms s a ns n r :
  se_inv s a ns → acur a = Stack n → args s !! n = Some r →
  ∃ s' r', register_all ms s = Some (tt, s') ∧ se_inv s' a ns ∧ args s' !! n = Some r' ∧
    memory_to_free r' = reverse ms ++ memory_to_free r ∧ freed s' = freed s ∧
    deferred s' = deferred s ∧ ∀ m, m ≠ n → args s' !! m = args s !! m.
Proof.
  revert s r; induction ms as [|m ms IH]; intros s r Hi Hc Hr; simpl; [by exists s, r|].
  set (r1 := set_memory ((m.1, m.2) :: memory_to_free r) r).
  assert (n ∈ ns) as Hn by (apply (si_args _ _ _ Hi); by rewrite Hr).
  destruct (upd_arg_ok _ _ _ n (set_memory ((m.1, m.2) :: memory_to_free r)) Hi Hn)
    as (s1 & R1 & Hi1 & Hargs & Hfr).
  assert (args s1 !! n = Some r1) as Hr1 by (rewrite Hargs, lookup_alter_eq, Hr; done).
  destruct (IH s1 r1 Hi1 Hc Hr1) as (s' & r' & R2 & Hi2 & Hr2 & Hm & Hf & Hd & Ho).
  rewrite (upd_arg_run _ _ _ _ Hr) in R1. injection R1 as <-.
  exists s', r'. split_and!; [|done|done| |by rewrite Hf|by rewrite Hd|].
  - unfold se_task_register_memory_to_free.
    assert ((n0 ← get_current_task_arg; r0 ← get_arg n0;
      upd_arg n0 (set_memory ((m.1, m.2) :: memory_to_free r0))) s =
      Some (tt, mk_se (sched s) (<[n := r1]> (args s)) (g_task_seq s) (deferred s) (freed s))) as R1.
    { st_step (get_current_task_arg_run _ _ _ _ Hi Hc). st_step (get_arg_run _ _ _ Hr).
      by rewrite (upd_arg_run _ _ _ _ Hr). }
    by st_step R1.
  - rewrite Hm. subst r1. simpl. destruct m. by rewrite reverse_cons, <-app_assoc.
  - intros k Hk. rewrite Ho by done. simpl. by rewrite lookup_insert_ne.
Qed.

(** C29. Cleanups run once each, the last one first: if the running task
    registers the cleanups [ms] and then ends, exactly these, after those it
    had registered before, are run in the opposite order of their
    registration ([freed] lists them the latest first), and the task is
    handed to the event loop for release exactly once. *)
Theorem cleanups_run_in_reverse s a ns n r ms :
  se_reachable s a ns → acur a = Stack n → args s !! n = Some r →
  ∃ s1 o s', register_all ms s = Some (tt, s1) ∧ se_task_entry_return 0 s1 = Some (o, s') ∧
    freed s' = reverse (memory_to_free r) ++ ms ++ freed s ∧
    deferred s' = deferred s ++ [n] ∧ n ∉ deferred s.
Proof.
  intros Hre Hc Hr. pose proof (se_reachable_inv _ _ _ Hre) as Hi.
  destruct (register_all_run ms _ _ _ _ _ Hi Hc Hr) as (s1 & r1 & R1 & Hi1 & Hr1 & Hm & Hf & Hd & _).
  destruct (se_task_entry_return_ok _ _ _ _ 0 _ Hi1 Hc Hr1 ltac:(done))
    as (o & s' & a' & R2 & Hi' & Hd' & Hf' & _).
  exists s1, o, s'. split_and!; [done|done| |by rewrite Hd', Hd|].
  - by rewrite Hf', Hm, Hf, reverse_app, reverse_involutive, <-app_assoc.
  - pose proof (si_nodup _ _ _ Hi') as Hnd. rewrite Hd', Hd in Hnd.
    apply NoDup_app in Hnd as (_ & Hx & _). intros Hn. apply (Hx n Hn). set_solver.
Qed.

Lemma cleanups_run_in_reverse_witness :
  acur (se_demo_at 7).1.2 = Stack 1 ∧
  ∃ s1 o s', register_all [(300, 3)]%Z (se_demo_at 7).1.1 = Some (tt, s1) ∧
    se_task_entry_return 0 s1 = Some (o, s') ∧ freed s' = [(100, 1); (200, 2); (300, 3)]%Z.
Proof.
  assert (acur (se_demo_at 7).1.2 = Stack 1) as Hc by (vm_compute; reflexivity).
  split; [exact Hc|].
  destruct (cleanups_run_in_reverse _ _ _ 1 (mk_se_arg 10 20 false 1 [(200, 2); (100, 1)] false 0)%Z
    [(300, 3)]%Z (se_demo_ok 7) Hc) as (s1 & o & s' & R1 & R2 & Hf & _); [vm_compute; reflexivity|].
  exists s1, o, s'. split; [exact R1|]. split; [exact R2|]. rewrite Hf. vm_compute. reflexivity.
Defined.

(** The exit signal can revive a dead task: when a task has ended and the
    event loop has not released it yet, [interrupt_all_tasks], called by the
    handler of SIGTERM, still finds it on [all_tasks] and puts it back on the
    run queue. In the state of [se_demo_at 11] task 3 has just ended; after the
    signal the main loop runs task 1, whose wait was interrupted, and when
    that yields, the scheduler switches to the context of task 3, whose
    function is over: the model faults, as the C code has undefined
    behaviour. *)
Theorem exit_signal_revives_ended_task :
  deferred (se_demo_at 11).1.1 = [3] ∧
  match interrupt_all_tasks 5 (se_demo_at 11).1.1 with
  | Some (_, s1) =>
      (closed <$> tasks (sched s1) !! Stack 3) = Some true ∧
      match on_sched s_task_main_loop_once s1 with
      | Some (o, s2) => o = WaitReturned (-1) ∧ on_sched s_task_yield s2 = None
      | None => False
      end
  | None => False
  end.
Proof. vm_compute. by split_and!. Qed.
