(* ===== verification/RateLimit.v ===== *)
(** * The packet scheduler (src/cgroup_rate_limit.bpf.c)

    The eBPF classifier [cgroup_rate_limit], run by the kernel on every
    outgoing packet: what it decides for one packet, and what a sequence of
    packets, of configuration changes by the daemon and of evictions by the
    kernel adds up to. Machine words are [Z] with their wrap-around written
    out. The kernel's LRU hash map is a parameter with its documented laws. *)

From S2P Require Import Prelude.

#[local] Open Scope Z_scope.

(** ** Data (include/bpf_protocol.h and the map declarations) *)

Record rate_limit : Type := mk_rate_limit { byte_rate : Z; packet_rate : Z }.

Definition RATE_UNLIMITED : Z := u64 (Z.lnot 0).
Definition NS_PER_SEC : Z := 1000000000.
Definition DROP_HORIZON : Z := 2 * NS_PER_SEC.

#[export] Instance rate_limit_eq : EqDecision rate_limit.
Proof. solve_decision. Defined.

(** What the program uses of the packet: its length, its cgroup and the
    departure time it leaves to the fq queueing discipline. *)
Record sk_buff : Type := mk_skb { len : Z; cgroup_id : Z; tstamp : Z }.

Definition set_tstamp (t : Z) (skb : sk_buff) : sk_buff := mk_skb (len skb) (cgroup_id skb) t.

Inductive tc_act : Type := TC_ACT_OK | TC_ACT_SHOT.

(** [rate_limit_map] and [rate_limit_priv_map]; a [rate_limit_priv] is its
    only field, [next_avail_ts]. *)
Record bpf_state : Type := mk_bpf {
  rate_limit_map : gmap Z rate_limit;
  rate_limit_priv_map : gmap Z Z;
}.

(** [bpf_map_update_elem] on an LRU hash with BPF_ANY: other entries may be
    evicted but never changed, and the entry is written unless the update
    fails. *)
Class LruHash (update : gmap Z Z → Z → Z → gmap Z Z) : Prop := {
  lru_written m k v : update m k v !! k = Some v ∨ update m k v !! k = m !! k;
  lru_others m k v k' : k' ≠ k → update m k v !! k' = m !! k' ∨ update m k v !! k' = None;
}.

(** A map of at most [cap] entries that makes room by dropping its first one. *)
Definition lru_insert (cap : nat) (m : gmap Z Z) (k v : Z) : gmap Z Z :=
  if bool_decide (size m < cap)%nat then <[k := v]> m
  else match map_to_list m with
       | [] => m
       | (k0, _) :: _ => <[k := v]> (delete k0 m)
       end.

#[export] Instance lru_insert_lru cap : LruHash (lru_insert cap).
Proof.
  split; intros m k v; unfold lru_insert.
  - case_bool_decide; [left; apply lookup_insert_eq|].
    destruct (map_to_list m) as [|[k0 v0] l]; [by right|left; apply lookup_insert_eq].
  - intros k' Hk. case_bool_decide; [left; by rewrite lookup_insert_ne|].
    destruct (map_to_list m) as [|[k0 v0] l]; [by left|]. rewrite lookup_insert_ne by done.
    destruct (decide (k0 = k')) as [->|]; [right; apply lookup_delete_eq|left].
    by rewrite lookup_delete_ne.
Qed.

(** ** The program *)

Section program.
Context (update : gmap Z Z → Z → Z → gmap Z Z).

(** The nanoseconds one packet takes at the configured rates, rounded to the
    nearest. *)
Definition packet_delay (rlcf : rate_limit) (this_pkt_len : Z) : Z :=
  let delay_ns_byte :=
    if byte_rate rlcf =? RATE_UNLIMITED then 0
    else u64 (u64 (this_pkt_len * NS_PER_SEC) + byte_rate rlcf / 2) / byte_rate rlcf in
  let delay_ns_pkt :=
    if packet_rate rlcf =? RATE_UNLIMITED then 0
    else u64 (NS_PER_SEC + packet_rate rlcf / 2) / packet_rate rlcf in
  if delay_ns_byte <? delay_ns_pkt then delay_ns_pkt else delay_ns_byte.

Definition cgroup_rate_limit (now : Z) (skb : sk_buff) (s : bpf_state) :
    tc_act * sk_buff * bpf_state :=
  let cgid := cgroup_id skb in
  match rate_limit_map s !! cgid with
  | None => (TC_ACT_OK, skb, s)
  | Some rlcf =>
      if (byte_rate rlcf =? 0) || (packet_rate rlcf =? 0) then (TC_ACT_SHOT, skb, s) else
      let delay_ns := packet_delay rlcf (len skb) in
      match rate_limit_priv_map s !! cgid with
      | Some next_avail_ts =>
          if next_avail_ts <? now then
            (TC_ACT_OK, set_tstamp now skb,
             mk_bpf (rate_limit_map s) (<[cgid := u64 (now + delay_ns)]> (rate_limit_priv_map s)))
          else if u64 (now + DROP_HORIZON) <? next_avail_ts then (TC_ACT_SHOT, skb, s)
          else
            (TC_ACT_OK, set_tstamp next_avail_ts skb,
             mk_bpf (rate_limit_map s)
               (<[cgid := u64 (next_avail_ts + delay_ns)]> (rate_limit_priv_map s)))
      | None =>
          (TC_ACT_OK, set_tstamp now skb,
           mk_bpf (rate_limit_map s)
             (update (rate_limit_priv_map s) cgid (u64 (now + delay_ns))))
      end
  end.

End program.

(** ** Delays *)

Definition limit_ok (rl : rate_limit) : Prop := in_u 64 (byte_rate rl) ∧ in_u 64 (packet_rate rl).

(** The longest delay: a packet of [2 ^ 32 - 1] bytes at one byte per second. *)
Definition MAX_DELAY : Z := (2 ^ 32 - 1) * NS_PER_SEC.

(** Round-to-nearest division. *)
Definition div_round (a b : Z) : Z := (a + b / 2) / b.

Definition unlimited_delay (rate amount : Z) : Z :=
  if rate =? RATE_UNLIMITED then 0 else div_round (amount * NS_PER_SEC) rate.

Lemma div_round_near a b : 0 < b → 2 * Z.abs (b * div_round a b - a) <= b.
Proof.
  intros Hb. unfold div_round.
  pose proof (Z.div_mod (a + b / 2) b ltac:(lia)) as H1.
  pose proof (Z.mod_pos_bound (a + b / 2) b Hb) as H2.
  pose proof (Z.div_mod b 2 ltac:(lia)) as H3. pose proof (Z.mod_pos_bound b 2 ltac:(lia)) as H4.
  lia.
Qed.

Lemma div_round_le a b : 0 <= a → 0 < b → 0 <= div_round a b <= a.
Proof.
  intros Ha Hb. unfold div_round. split.
  - apply Z.div_pos; [|done]. pose proof (Z.div_pos b 2). lia.
  - destruct (decide (a = 0)) as [->|].
    + rewrite Z.add_0_l. pose proof (Z.div_lt b 2 Hb ltac:(lia)).
      rewrite Z.div_small; [done|]. pose proof (Z.div_pos b 2); lia.
    + apply Z.lt_succ_r, Z.div_lt_upper_bound; [done|].
      pose proof (Z.div_lt b 2 Hb ltac:(lia)). nia.
Qed.

(** The 64-bit arithmetic of the delay is exact. *)
Lemma packet_delay_exact rl n :
  limit_ok rl → byte_rate rl ≠ 0 → packet_rate rl ≠ 0 → in_u 32 n →
  packet_delay rl n =
    Z.max (unlimited_delay (byte_rate rl) n) (unlimited_delay (packet_rate rl) 1).
Proof.
  unfold limit_ok, in_u. intros [Hb Hp] Hb0 Hp0 Hn. unfold packet_delay, unlimited_delay, div_round.
  assert (forall x, 0 < x < 2 ^ 64 → 0 <= x / 2 < 2 ^ 63) as Hhalf.
  { intros x Hx. split; [apply Z.div_pos; lia|apply Z.div_lt_upper_bound; lia]. }
  pose proof (Hhalf (byte_rate rl) ltac:(lia)). pose proof (Hhalf (packet_rate rl) ltac:(lia)).
  unfold NS_PER_SEC in *. rewrite (wrapu_small 64 (n * _)) by (unfold in_u; lia).
  rewrite !wrapu_small by (unfold in_u; lia).
  rewrite Z.mul_1_l. case_match; case_match; case_match; lia.
Qed.

Lemma unlimited_delay_range rate n :
  0 < rate → in_u 32 n → 0 <= unlimited_delay rate n <= MAX_DELAY.
Proof.
  intros Hr Hn. unfold unlimited_delay, MAX_DELAY, in_u in *. case_match; [unfold NS_PER_SEC; lia|].
  pose proof (div_round_le (n * NS_PER_SEC) rate). unfold NS_PER_SEC in *. lia.
Qed.

Lemma packet_delay_range rl n :
  limit_ok rl → byte_rate rl ≠ 0 → packet_rate rl ≠ 0 → in_u 32 n →
  0 <= packet_delay rl n <= MAX_DELAY.
Proof.
  intros Hl Hb Hp Hn. rewrite packet_delay_exact by done. destruct Hl as [H1 H2]. unfold in_u in *.
  pose proof (unlimited_delay_range (byte_rate rl) n ltac:(lia) Hn).
  pose proof (unlimited_delay_range (packet_rate rl) 1 ltac:(lia) ltac:(unfold in_u; lia)). lia.
Qed.

(** ** Sequences of packets

    One CPU: the program runs to completion between two events. *)

Inductive bpf_event : Type :=
  | Packet (now : Z) (skb : sk_buff)
  | Configure (cg : Z) (limit : option rate_limit)
  | Evict (cg : Z).

(** A packet that was let through under a limit. *)
Record departure : Type := mk_departure {
  d_now : Z; d_ts : Z; d_cg : Z; d_len : Z; d_limit : rate_limit;
}.

Definition d_delay (d : departure) : Z := packet_delay (d_limit d) (d_len d).

Section runs.
Context (update : gmap Z Z → Z → Z → gmap Z Z) `{!LruHash update}.

Definition bpf_step (s : bpf_state) (ev : bpf_event) : option departure * bpf_state :=
  match ev with
  | Packet now skb =>
      match cgroup_rate_limit update now skb s, rate_limit_map s !! cgroup_id skb with
      | (TC_ACT_OK, skb', s'), Some rl =>
          (Some (mk_departure now (tstamp skb') (cgroup_id skb) (len skb) rl), s')
      | (_, _, s'), _ => (None, s')
      end
  | Configure cg (Some rl) => (None, mk_bpf (<[cg := rl]> (rate_limit_map s)) (rate_limit_priv_map s))
  | Configure cg None => (None, mk_bpf (delete cg (rate_limit_map s)) (rate_limit_priv_map s))
  | Evict cg => (None, mk_bpf (rate_limit_map s) (delete cg (rate_limit_priv_map s)))
  end.

(** The packets let through under a limit, in the order they came. *)
Fixpoint departures (s : bpf_state) (evs : list bpf_event) : list departure :=
  match evs with
  | [] => []
  | ev :: evs =>
      match bpf_step s ev with
      | (Some d, s') => d :: departures s' evs
      | (None, s') => departures s' evs
      end
  end.

Fixpoint bpf_run (s : bpf_state) (evs : list bpf_event) : bpf_state :=
  match evs with [] => s | ev :: evs => bpf_run (bpf_step s ev).2 evs end.

(** The clock does not go back and stays below [2 ^ 62] ns (146 years of
    uptime); lengths and rates have their widths. *)
Definition event_ok (ev : bpf_event) : Prop :=
  match ev with
  | Packet now skb => 0 <= now < 2 ^ 62 ∧ in_u 32 (len skb)
  | Configure _ (Some rl) => limit_ok rl
  | _ => True
  end.

Definition event_time (t : Z) (ev : bpf_event) : Z :=
  match ev with Packet now _ => now | _ => t end.

Fixpoint timely (t : Z) (evs : list bpf_event) : Prop :=
  match evs with
  | [] => True
  | ev :: evs => t <= event_time t ev ∧ event_ok ev ∧ timely (event_time t ev) evs
  end.

(** The kernel keeps the entry of [cg] once a packet of [cg] made one. *)
Definition keeps (cg : Z) (s : bpf_state) (ev : bpf_event) : Prop :=
  match bpf_step s ev with
  | (Some d, s') =>
      (is_Some (rate_limit_priv_map s !! cg) ∨ d_cg d = cg) → is_Some (rate_limit_priv_map s' !! cg)
  | (None, s') => is_Some (rate_limit_priv_map s !! cg) → is_Some (rate_limit_priv_map s' !! cg)
  end.

Fixpoint kept (cg : Z) (s : bpf_state) (evs : list bpf_event) : Prop :=
  match evs with
  | [] => True
  | ev :: evs => keeps cg s ev ∧ kept cg (bpf_step s ev).2 evs
  end.

(** *** The invariant *)

Record bpf_inv (t : Z) (s : bpf_state) : Prop := {
  bi_time : 0 <= t < 2 ^ 62;
  bi_limits cg rl : rate_limit_map s !! cg = Some rl → limit_ok rl;
  bi_avail cg v : rate_limit_priv_map s !! cg = Some v → 0 <= v <= t + DROP_HORIZON + MAX_DELAY;
}.

(** What one packet does under the invariant, in exact arithmetic. *)
Inductive packet_case (now : Z) (skb : sk_buff) (s : bpf_state) :
    tc_act * sk_buff * bpf_state → Prop :=
  | case_unlimited :
      rate_limit_map s !! cgroup_id skb = None → packet_case now skb s (TC_ACT_OK, skb, s)
  | case_zero rl :
      rate_limit_map s !! cgroup_id skb = Some rl → byte_rate rl = 0 ∨ packet_rate rl = 0 →
      packet_case now skb s (TC_ACT_SHOT, skb, s)
  | case_full rl v :
      rate_limit_map s !! cgroup_id skb = Some rl → byte_rate rl ≠ 0 → packet_rate rl ≠ 0 →
      rate_limit_priv_map s !! cgroup_id skb = Some v → now + DROP_HORIZON < v →
      packet_case now skb s (TC_ACT_SHOT, skb, s)
  | case_queued rl v :
      rate_limit_map s !! cgroup_id skb = Some rl → byte_rate rl ≠ 0 → packet_rate rl ≠ 0 →
      rate_limit_priv_map s !! cgroup_id skb = Some v → v <= now + DROP_HORIZON →
      let ts := Z.max v now in
      packet_case now skb s
        (TC_ACT_OK, set_tstamp ts skb,
         mk_bpf (rate_limit_map s)
           (<[cgroup_id skb := ts + packet_delay rl (len skb)]> (rate_limit_priv_map s)))
  | case_first rl :
      rate_limit_map s !! cgroup_id skb = Some rl → byte_rate rl ≠ 0 → packet_rate rl ≠ 0 →
      rate_limit_priv_map s !! cgroup_id skb = None →
      packet_case now skb s
        (TC_ACT_OK, set_tstamp now skb,
         mk_bpf (rate_limit_map s)
           (update (rate_limit_priv_map s) (cgroup_id skb) (now + packet_delay rl (len skb)))).

Lemma cgroup_rate_limit_cases t now skb s :
  bpf_inv t s → t <= now < 2 ^ 62 → in_u 32 (len skb) →
  packet_case now skb s (cgroup_rate_limit update now skb s).
Proof.
  intros [Ht Hl Hv] Hn Hlen. unfold cgroup_rate_limit.
  destruct (rate_limit_map s !! cgroup_id skb) as [rl|] eqn:Hrl; [|by apply case_unlimited].
  destruct ((byte_rate rl =? 0) || (packet_rate rl =? 0)) eqn:H0.
  { apply orb_true_iff in H0. rewrite !Z.eqb_eq in H0. by eapply case_zero. }
  apply orb_false_iff in H0. rewrite !Z.eqb_neq in H0. destruct H0 as [Hb Hp].
  pose proof (packet_delay_range rl (len skb) (Hl _ _ Hrl) Hb Hp Hlen) as Hd.
  assert (∀ x, 0 <= x <= 2 ^ 63 + 2 ^ 62 → u64 x = x) as Hu
    by (intros x Hx; apply wrapu_small; unfold in_u; lia).
  unfold DROP_HORIZON, MAX_DELAY, NS_PER_SEC in *.
  destruct (rate_limit_priv_map s !! cgroup_id skb) as [v|] eqn:Hpr.
  - pose proof (Hv _ _ Hpr) as Hvr. rewrite !Hu by lia.
    destruct (Z.ltb_spec v now).
    + replace now with (Z.max v now) at 2 3 by lia. apply case_queued; try done.
      unfold DROP_HORIZON, NS_PER_SEC. lia.
    + destruct (Z.ltb_spec (now + 2 * 1000000000) v); [by eapply case_full|].
      replace v with (Z.max v now) at 1 2 by lia. by apply case_queued.
  - rewrite Hu by lia. by apply case_first.
Qed.

Lemma bpf_step_inv t s ev :
  bpf_inv t s → t <= event_time t ev → event_ok ev →
  bpf_inv (event_time t ev) (bpf_step s ev).2.
Proof using LruHash0.
  intros Hi Ht He. pose proof Hi as [Ht0 Hl Hv]. destruct ev as [now skb|cg [rl|]|cg]; simpl in *.
  - destruct He as [Hnow Hlen].
    pose proof (cgroup_rate_limit_cases t now skb s Hi ltac:(lia) Hlen) as Hc.
    assert (bpf_inv now s) as Hi'
      by (split; [lia|done|]; intros cg v Hpr; pose proof (Hv _ _ Hpr); lia).
    destruct Hc as [Hrl|rl Hrl|rl v Hrl|rl v Hrl Hb Hp Hpr Hle|rl Hrl Hb Hp Hpr]; try rewrite Hrl;
      simpl; try done; (split; simpl; [lia|done|]); intros k w;
      pose proof (packet_delay_range rl (len skb) (Hl _ _ Hrl) Hb Hp Hlen);
      pose proof (bi_avail _ _ Hi' k) as Hk.
    + destruct (decide (cgroup_id skb = k)) as [<-|].
      * rewrite lookup_insert_eq. intros [= <-]. unfold DROP_HORIZON, NS_PER_SEC in *.
        pose proof (Hv _ _ Hpr). lia.
      * rewrite lookup_insert_ne by done. apply Hk.
    + destruct (decide (k = cgroup_id skb)) as [->|].
      * destruct (lru_written (rate_limit_priv_map s) (cgroup_id skb)
          (now + packet_delay rl (len skb))) as [-> | ->]; [|apply Hk].
        intros [= <-]. unfold DROP_HORIZON, NS_PER_SEC in *. lia.
      * destruct (lru_others (rate_limit_priv_map s) (cgroup_id skb)
          (now + packet_delay rl (len skb)) k) as [-> | ->]; [done|apply Hk|done].
  - split; simpl; [done| |done]. intros k rl'. destruct (decide (cg = k)) as [->|].
    + rewrite lookup_insert_eq. by intros [= <-].
    + rewrite lookup_insert_ne by done. apply Hl.
  - split; simpl; [done| |done]. intros k rl'. rewrite lookup_delete_Some. intros [_ Hk]. by eapply Hl.
  - split; simpl; [done|done|]. intros k v. rewrite lookup_delete_Some. intros [_ Hk]. by eapply Hv.
Qed.

Lemma bpf_run_inv t s evs :
  bpf_inv t s → timely t evs → ∃ t', t <= t' ∧ bpf_inv t' (bpf_run s evs).
Proof using LruHash0.
  revert t s; induction evs as [|ev evs IH]; intros t s Hi; simpl; [by exists t|].
  intros (Ht & He & Hevs). destruct (IH _ _ (bpf_step_inv _ _ _ Hi Ht He) Hevs) as (t' & Ht' & Hi').
  exists t'. split; [lia|done].
Qed.

(** *** One event, as its departures see it *)

(** A departure is well formed and within the horizon. *)
Definition departure_ok (d : departure) : Prop :=
  limit_ok (d_limit d) ∧ byte_rate (d_limit d) ≠ 0 ∧ packet_rate (d_limit d) ≠ 0 ∧
  in_u 32 (d_len d) ∧ d_now d <= d_ts d <= d_now d + DROP_HORIZON.

(** The departure [d] of [cg] is not before the time [avail] reserved so far. *)
Definition not_before (avail : option Z) (d : departure) : Prop :=
  match avail with Some v => v <= d_ts d | None => True end.

Lemma bpf_step_departure cg t s ev :
  bpf_inv t s → t <= event_time t ev → event_ok ev → keeps cg s ev →
  match bpf_step s ev with
  | (Some d, s') =>
      departure_ok d ∧
      if decide (d_cg d = cg)
      then not_before (rate_limit_priv_map s !! cg) d ∧
           rate_limit_priv_map s' !! cg = Some (d_ts d + d_delay d)
      else rate_limit_priv_map s' !! cg = rate_limit_priv_map s !! cg
  | (None, s') => rate_limit_priv_map s' !! cg = rate_limit_priv_map s !! cg
  end.
Proof using LruHash0.
  intros Hi Ht He. unfold keeps. destruct ev as [now skb|cg' [rl|]|cg']; simpl in *; [|done..|].
  - destruct He as [Hnow Hlen].
    pose proof (cgroup_rate_limit_cases t now skb s Hi ltac:(lia) Hlen) as Hc.
    destruct Hc as [Hrl|rl Hrl|rl v Hrl|rl v Hrl Hb Hp Hpr Hle|rl Hrl Hb Hp Hpr]; try rewrite Hrl;
      simpl; try done; intros Hkeep; (split; [split_and!; simpl; try done;
        [by eapply (bi_limits _ _ Hi)|unfold DROP_HORIZON, NS_PER_SEC in *; lia..]|]);
      unfold d_delay; case_decide as Hcg; simpl.
    + subst cg. rewrite Hpr, lookup_insert_eq. simpl. split; [lia|done].
    + by rewrite lookup_insert_ne.
    + subst cg. rewrite Hpr. split; [done|].
      destruct (lru_written (rate_limit_priv_map s) (cgroup_id skb)
        (now + packet_delay rl (len skb))) as [H|H]; [done|].
      destruct Hkeep as [v Hv]; [by right|congruence].
    + destruct (lru_others (rate_limit_priv_map s) (cgroup_id skb)
        (now + packet_delay rl (len skb)) cg) as [H|H]; [done..|].
      destruct (rate_limit_priv_map s !! cg) as [v|]; [|done].
      destruct Hkeep as [v' Hv']; [by left|congruence].
  - destruct (decide (cg' = cg)) as [->|]; [|by rewrite lookup_delete_ne].
    rewrite lookup_delete_eq. destruct (rate_limit_priv_map s !! cg); [|done].
    intros Hk. by destruct Hk.
Qed.

(** *** Sequences of departures *)

(** Each departure is at least the delay of the one before later, and the
    first not before the time reserved. *)
Fixpoint spaced_from (avail : option Z) (ds : list departure) : Prop :=
  match ds with
  | [] => True
  | d :: ds => not_before avail d ∧ spaced_from (Some (d_ts d + d_delay d)) ds
  end.

(** The departures of one cgroup. *)
Definition departures_of (cg : Z) (s : bpf_state) (evs : list bpf_event) : list departure :=
  filter (λ d, d_cg d = cg) (departures s evs).

Lemma departures_spaced_from cg t s evs :
  bpf_inv t s → timely t evs → kept cg s evs →
  spaced_from (rate_limit_priv_map s !! cg) (departures_of cg s evs) ∧
  Forall departure_ok (departures_of cg s evs).
Proof using LruHash0.
  unfold departures_of. revert t s; induction evs as [|ev evs IH]; intros t s Hi; simpl; [done|].
  intros (Ht & He & Hevs) [Hk Hks].
  pose proof (bpf_step_departure cg t s ev Hi Ht He Hk) as Hd.
  pose proof (bpf_step_inv t s ev Hi Ht He) as Hi'.
  destruct (bpf_step s ev) as [[d|] s']; simpl in *.
  - destruct Hd as [Hok Hd]. rewrite filter_cons. case_decide as Hcg.
    + destruct Hd as [Hnb Hv]. destruct (IH _ _ Hi' Hevs Hks) as [Hsp Hall]. rewrite Hv in Hsp.
      split; [done|by constructor].
    + destruct (IH _ _ Hi' Hevs Hks) as [Hsp Hall]. by rewrite Hd in Hsp.
  - destruct (IH _ _ Hi' Hevs Hks) as [Hsp Hall]. by rewrite Hd in Hsp.
Qed.

End runs.

(** Consecutive departures: each is later than the one before by its delay. *)
Fixpoint spaced (ds : list departure) : Prop :=
  match ds with
  | d :: (d' :: _) as ds' => d_ts d + d_delay d <= d_ts d' ∧ spaced ds'
  | _ => True
  end.

Lemma spaced_from_spaced o ds : spaced_from o ds → spaced ds.
Proof.
  revert o; induction ds as [|d [|d' ds] IH]; intros o; simpl; [done..|].
  intros (_ & Hd & Hds). split; [done|]. by apply (IH (Some (d_ts d + d_delay d))).
Qed.

Definition total_bytes (ds : list departure) : Z := foldr (λ d n, d_len d + n) 0 ds.

(** The time between the first and the last departure. *)
Definition span (d : departure) (ds : list departure) : Z :=
  d_ts (default d (last ds)) - d_ts d.

Lemma span_cons d d' ds : span d (d' :: ds) = d_ts d' - d_ts d + span d' ds.
Proof.
  unfold span. rewrite last_cons. destruct (last ds); simpl; lia.
Qed.

Lemma delay_charges d r n :
  departure_ok d →
  (byte_rate (d_limit d) = r ∧ n = d_len d) ∨ (packet_rate (d_limit d) = r ∧ n = 1) →
  r ≠ RATE_UNLIMITED → 0 < r ∧ 2 * n * NS_PER_SEC <= r * (2 * d_delay d + 1).
Proof.
  intros (Hl & Hb & Hp & Hlen & _) Hr Hunl. pose proof Hl as [Hl1 Hl2]. unfold in_u in Hl1, Hl2.
  assert (0 < r) as Hr0 by (destruct Hr as [[<- _]|[<- _]]; lia). split; [done|].
  assert (unlimited_delay r n <= d_delay d) as Hd.
  { unfold d_delay. rewrite packet_delay_exact by done. destruct Hr as [[<- ->]|[<- ->]]; lia. }
  unfold unlimited_delay in Hd. rewrite (proj2 (Z.eqb_neq _ _) Hunl) in Hd.
  pose proof (div_round_near (n * NS_PER_SEC) r Hr0). nia.
Qed.

(** An amount [n d] that the delay of [d] charges at rate [r] cannot exceed
    the rate over the departures, up to half a nanosecond per packet. *)
Lemma amount_bound (n : departure → Z) r d ds :
  spaced (d :: ds) → Forall (λ x, 0 < r ∧ 2 * n x * NS_PER_SEC <= r * (2 * d_delay x + 1)) (d :: ds) →
  2 * NS_PER_SEC * foldr (λ x a, n x + a) 0 (removelast (d :: ds)) <=
    r * (2 * span d ds + Z.of_nat (length ds)).
Proof.
  revert d; induction ds as [|d' ds IH]; intros d Hsp Hall.
  - simpl. unfold span. simpl. lia.
  - destruct Hsp as [Hdd Hsp]. apply Forall_cons in Hall as [[Hr Hd] Hall].
    specialize (IH d' Hsp Hall). rewrite span_cons.
    change (removelast (d :: d' :: ds)) with (d :: removelast (d' :: ds)).
    cbn [foldr length]. rewrite Nat2Z.inj_succ.
    remember (foldr _ _ _) as tot. assert (0 <= r * (d_ts d' - d_ts d - d_delay d)) by nia. lia.
Qed.

(** ** What the limiter guarantees *)

(** A state to start from: freshly loaded maps, or any state the program
    reaches from one. *)
Definition bpf_loaded (limits : gmap Z rate_limit) : bpf_state := mk_bpf limits ∅.

Lemma bpf_loaded_inv limits :
  map_Forall (λ _, limit_ok) limits → bpf_inv 0 (bpf_loaded limits).
Proof. intros Hl. split; [lia|done|]. intros cg v Hv. simpl in Hv. set_solver. Qed.

(** Decidability of the hypotheses, for concrete runs. *)
#[export] Instance in_u_dec w z : Decision (in_u w z).
Proof. unfold in_u. apply _. Defined.
#[export] Instance limit_ok_dec rl : Decision (limit_ok rl).
Proof. unfold limit_ok. apply _. Defined.
#[export] Instance event_ok_dec ev : Decision (event_ok ev).
Proof. destruct ev as [?? | ? [?|] |?]; simpl; apply _. Defined.
#[export] Instance timely_dec t evs : Decision (timely t evs).
Proof. revert t; induction evs; intros t; simpl; apply _. Defined.
#[export] Instance keeps_dec u cg s ev : Decision (keeps u cg s ev).
Proof. unfold keeps. destruct (bpf_step u s ev) as [[d|] s']; apply _. Defined.
#[export] Instance kept_dec u cg s evs : Decision (kept u cg s evs).
Proof. revert s; induction evs; intros s; simpl; apply _. Defined.

(** A cgroup limited to 1 MB/s and 1000 packets/s, and one that is blocked;
    three packets, the second while the first one's slot is taken. *)
Definition ex_limits : gmap Z rate_limit :=
  {[ 7 := mk_rate_limit 1000000 1000; 8 := mk_rate_limit 0 RATE_UNLIMITED ]}.
Definition ex_events : list bpf_event :=
  [Packet 5000 (mk_skb 1500 7 0); Packet 6000 (mk_skb 500 7 0); Packet 6000 (mk_skb 500 8 0);
   Configure 9 (Some (mk_rate_limit 5 5)); Packet 10000000 (mk_skb 1500 7 0)].

Lemma ex_limits_ok : map_Forall (λ _, limit_ok) ex_limits.
Proof. refine (bool_decide_unpack _ _). vm_compute. exact I. Qed.

(** The delay of a packet is exact: for every 32-bit length and every
    pair of non-zero 64-bit rates the 64-bit arithmetic of the program does
    not overflow; the delay is the larger of the byte delay and the packet
    delay, each zero for RATE_UNLIMITED and otherwise within half a
    nanosecond of amount / rate seconds. *)
Theorem delay_correct rl n :
  limit_ok rl → byte_rate rl ≠ 0 → packet_rate rl ≠ 0 → in_u 32 n →
  ∃ db dp, packet_delay rl n = Z.max db dp ∧ 0 <= db <= MAX_DELAY ∧ 0 <= dp <= MAX_DELAY ∧
    (if decide (byte_rate rl = RATE_UNLIMITED) then db = 0
     else 2 * Z.abs (byte_rate rl * db - n * NS_PER_SEC) <= byte_rate rl) ∧
    (if decide (packet_rate rl = RATE_UNLIMITED) then dp = 0
     else 2 * Z.abs (packet_rate rl * dp - NS_PER_SEC) <= packet_rate rl).
Proof.
  intros Hl Hb Hp Hn. pose proof Hl as [H1 H2]. unfold in_u in H1, H2.
  exists (unlimited_delay (byte_rate rl) n), (unlimited_delay (packet_rate rl) 1).
  split_and!; [by apply packet_delay_exact|by apply unlimited_delay_range; [lia|]..| | |];
    try (apply unlimited_delay_range; [lia|unfold in_u; lia]); unfold unlimited_delay;
    case_decide as Hd; rewrite ?Hd, ?Z.eqb_refl; try done.
  - rewrite (proj2 (Z.eqb_neq _ _) Hd). apply div_round_near. lia.
  - rewrite (proj2 (Z.eqb_neq _ _) Hd). rewrite Z.mul_1_l. apply div_round_near. lia.
Qed.

Lemma delay_correct_witness :
  ∃ db dp, packet_delay (mk_rate_limit 1000000 1000) 1500 = Z.max db dp ∧
    0 <= db <= MAX_DELAY ∧ 2 * Z.abs (1000000 * db - 1500 * NS_PER_SEC) <= 1000000.
Proof.
  destruct (delay_correct (mk_rate_limit 1000000 1000) 1500) as (db & dp & H & Hb & _ & Hn & _);
    [by refine (bool_decide_unpack _ _); vm_compute|done|done|by unfold in_u|].
  exists db, dp. split; [exact H|]. split; [exact Hb|].
  rewrite decide_False in Hn by (vm_compute; done). exact Hn.
Defined.

(** C10. Spacing, on one CPU (the program is one step between two events) and
    as long as the kernel keeps the cgroup's entry in the LRU map ([kept]):
    the packets of a limited cgroup leave at times that are each later than
    the previous one by at least its delay at the rates it was admitted under,
    whatever other cgroups do and however the limits are changed in between;
    no packet is dated before its arrival or more than two seconds after it.
    The clock starts at zero, does not go back and stays below [2 ^ 62]
    ([timely]). *)
Theorem departures_spaced update `{!LruHash update} limits cg evs :
  map_Forall (λ _, limit_ok) limits → timely 0 evs → kept update cg (bpf_loaded limits) evs →
  let ds := departures_of update cg (bpf_loaded limits) evs in
  spaced ds ∧ Forall (λ d, d_now d <= d_ts d <= d_now d + DROP_HORIZON) ds.
Proof.
  intros Hl Ht Hk.
  destruct (departures_spaced_from update cg _ _ _ (bpf_loaded_inv _ Hl) Ht Hk) as [Hs Hf].
  split; [by eapply spaced_from_spaced|].
  eapply Forall_impl; [exact Hf|]. intros d Hd. apply Hd.
Qed.

Lemma departures_spaced_witness :
  let ds := departures_of (lru_insert 1024) 7 (bpf_loaded ex_limits) ex_events in
  map d_ts ds = [5000; 1505000; 10000000] ∧ spaced ds.
Proof.
  split; [vm_compute; reflexivity|].
  apply (departures_spaced (lru_insert 1024) ex_limits 7 ex_events ex_limits_ok);
    refine (bool_decide_unpack _ _); vm_compute; exact I.
Defined.

(** The rates bound what departs, from any state the program reaches. *)
Lemma throughput_from update `{!LruHash update} t s cg evs rl d ds :
  bpf_inv t s → timely t evs → kept update cg s evs →
  departures_of update cg s evs = d :: ds →
  Forall (λ x, d_limit x = rl) (d :: ds) →
  (byte_rate rl ≠ RATE_UNLIMITED →
   2 * NS_PER_SEC * total_bytes (removelast (d :: ds)) <=
     byte_rate rl * (2 * span d ds + Z.of_nat (length ds))) ∧
  (packet_rate rl ≠ RATE_UNLIMITED →
   2 * NS_PER_SEC * Z.of_nat (length ds) <=
     packet_rate rl * (2 * span d ds + Z.of_nat (length ds))).
Proof.
  intros Hl Ht Hk Hds Hrl.
  destruct (departures_spaced_from update cg _ _ _ Hl Ht Hk) as [Hs Hf].
  rewrite Hds in Hs, Hf. apply spaced_from_spaced in Hs.
  assert (∀ n r, (∀ x, d_limit x = rl → (byte_rate rl = r ∧ n x = d_len x) ∨
      (packet_rate rl = r ∧ n x = 1)) → r ≠ RATE_UNLIMITED →
    2 * NS_PER_SEC * foldr (λ x a, n x + a) 0 (removelast (d :: ds)) <=
      r * (2 * span d ds + Z.of_nat (length ds))) as Hb.
  { intros n r Hn Hr. apply amount_bound; [done|].
    apply Forall_forall. intros x Hx. rewrite Forall_forall in Hf, Hrl.
    apply delay_charges; [by apply Hf| |done]. rewrite (Hrl x Hx). by apply Hn, Hrl. }
  split; intros Hr.
  - apply (Hb d_len); [by left|done].
  - specialize (Hb (λ _, 1) (packet_rate rl) ltac:(by right) Hr). etrans; [|exact Hb].
    assert (∀ l d, foldr (λ (_ : departure) a, 1 + a) 0 (removelast (d :: l)) = Z.of_nat (length l))
      as ->; [|done].
    clear. induction l as [|y l IH]; intros d; [done|].
    change (removelast (d :: y :: l)) with (d :: removelast (y :: l)).
    cbn [foldr]. rewrite IH. cbn [length]. lia.
Qed.

(** C4. Throughput, on one CPU (the program is one step between two events)
    and as long as the kernel keeps the cgroup's entry in the LRU map
    ([kept]): over any departures of a cgroup that were all admitted under the
    same byte rate and packet rate, the bytes (and the number) of all packets
    but the last one are at most what the rate allows for the time between the
    first and the last departure, up to half a nanosecond of rate per
    packet. *)
Theorem throughput_bounded update `{!LruHash update} limits cg evs rl d ds :
  map_Forall (λ _, limit_ok) limits → timely 0 evs → kept update cg (bpf_loaded limits) evs →
  departures_of update cg (bpf_loaded limits) evs = d :: ds →
  Forall (λ x, d_limit x = rl) (d :: ds) →
  (byte_rate rl ≠ RATE_UNLIMITED →
   2 * NS_PER_SEC * total_bytes (removelast (d :: ds)) <=
     byte_rate rl * (2 * span d ds + Z.of_nat (length ds))) ∧
  (packet_rate rl ≠ RATE_UNLIMITED →
   2 * NS_PER_SEC * Z.of_nat (length ds) <=
     packet_rate rl * (2 * span d ds + Z.of_nat (length ds))).
Proof. intros Hl. by apply throughput_from, bpf_loaded_inv. Qed.

Lemma throughput_bounded_witness :
  ∃ d ds, departures_of (lru_insert 1024) 7 (bpf_loaded ex_limits) ex_events = d :: ds ∧
    2 * NS_PER_SEC * total_bytes (removelast (d :: ds)) <=
      1000000 * (2 * span d ds + Z.of_nat (length ds)).
Proof.
  destruct (departures_of (lru_insert 1024) 7 (bpf_loaded ex_limits) ex_events) as [|d ds] eqn:H;
    [vm_compute in H; discriminate|].
  exists d, ds. split; [reflexivity|].
  destruct (throughput_bounded (lru_insert 1024) ex_limits 7 ex_events (mk_rate_limit 1000000 1000)
    d ds ex_limits_ok) as [Hb _];
    [refine (bool_decide_unpack _ _); vm_compute; exact I..|exact H| |].
  - rewrite <- H. refine (bool_decide_unpack _ _). vm_compute. exact I.
  - apply Hb. vm_compute. discriminate.
Defined.

(** Drops: in every state the program reaches, a packet is dropped
    exactly if its cgroup has a limit that is zero, or its departure would be
    more than two seconds ahead; a drop, and a packet of a cgroup without a
    limit, change nothing, not even the packet. *)
Theorem dropped_iff update `{!LruHash update} limits evs now skb :
  map_Forall (λ _, limit_ok) limits → timely 0 (evs ++ [Packet now skb]) →
  let s := bpf_run update (bpf_loaded limits) evs in
  let '(act, skb', s') := cgroup_rate_limit update now skb s in
  (act = TC_ACT_SHOT ↔
     ∃ rl, rate_limit_map s !! cgroup_id skb = Some rl ∧
       (byte_rate rl = 0 ∨ packet_rate rl = 0 ∨
        ∃ v, rate_limit_priv_map s !! cgroup_id skb = Some v ∧ now + DROP_HORIZON < v)) ∧
  (act = TC_ACT_SHOT ∨ rate_limit_map s !! cgroup_id skb = None → skb' = skb ∧ s' = s).
Proof.
  intros Hl Ht s.
  assert (∃ t, bpf_inv t s ∧ t <= now < 2 ^ 62 ∧ in_u 32 (len skb)) as (t & Hi & Hn & Hlen).
  { subst s. revert Ht. generalize (bpf_loaded_inv _ Hl). generalize (bpf_loaded limits).
    generalize 0 at 1 2. clear Hl. induction evs as [|ev evs IH]; intros t s Hi.
    - intros (Ht & [Hr Hlen] & _). exists t. simpl in *. split_and!; [done|lia..|done].
    - intros (Ht & He & Hevs). by apply (IH _ _ (bpf_step_inv update _ _ _ Hi Ht He)). }
  destruct (cgroup_rate_limit_cases update t now skb s Hi Hn Hlen)
    as [Hrl|rl Hrl H0|rl v Hrl Hb Hp Hpr Hlt|rl v Hrl Hb Hp Hpr Hle|rl Hrl Hb Hp Hpr]; rewrite Hrl;
    (split; [split; [try discriminate|intros (rl' & [= <-] & [?|[?|(v' & Hv & ?)]])]|]);
    try done; try congruence.
  - intros _. exists rl. naive_solver.
  - intros _. exists rl. split; [done|]. right; right. eauto.
  - rewrite Hv in Hpr. injection Hpr as ->. lia.
  - intros [?|?]; congruence.
  - intros [?|?]; congruence.
Qed.

Lemma dropped_iff_witness :
  timely 0 (ex_events ++ [Packet 11000000 (mk_skb 60 8 0)]) ∧
  (cgroup_rate_limit (lru_insert 1024) 11000000 (mk_skb 60 8 0)
    (bpf_run (lru_insert 1024) (bpf_loaded ex_limits) ex_events)).1.1 = TC_ACT_SHOT.
Proof.
  assert (timely 0 (ex_events ++ [Packet 11000000 (mk_skb 60 8 0)])) as Ht
    by (refine (bool_decide_unpack _ _); vm_compute; exact I).
  split; [exact Ht|].
  pose proof (dropped_iff (lru_insert 1024) ex_limits ex_events 11000000 (mk_skb 60 8 0)
    ex_limits_ok Ht) as H.
  cbv zeta in H. destruct (cgroup_rate_limit _ _ _ _) as [[act skb'] s'].
  apply H. exists (mk_rate_limit 0 RATE_UNLIMITED). split; [vm_compute; reflexivity|by left].
Defined.
