(* ===== verification/RateRace.v ===== *)
(** * The packet scheduler on several CPUs (src/cgroup_rate_limit.bpf.c)

    The kernel runs [cgroup_rate_limit] on every CPU at once, and packets of
    one cgroup share its [next_avail_ts]. Here the program for one limited
    cgroup is cut at its accesses to shared memory: the map lookup, the
    reading of the clock, the reading of [next_avail_ts], and its update (a
    plain store, an atomic addition, or the creation of the entry). Schedules
    are explicit lists of actions. The entry, once created, is not evicted. *)

From S2P Require Import Prelude RateLimit.

#[local] Open Scope Z_scope.

(** ** The program, step by step *)

(** Where one CPU is in [cgroup_rate_limit], with the delay of its packet. *)
Inductive cpu : Type :=
  | Idle
  | Arrived (delay_ns : Z)                          (* before the lookup of priv *)
  | Looked (delay_ns : Z) (priv : bool)             (* before bpf_ktime_get_ns *)
  | Timed (delay_ns : Z) (priv : bool) (now : Z)    (* before next_avail_ts is read *)
  | Resetting (delay_ns now : Z)                    (* before the plain store *)
  | Adding (delay_ns now next_avail_ts : Z).        (* before __sync_fetch_and_add *)

(** How the packets that were let through updated the entry. *)
Inductive charge : Type := ByReset | ByAdd | ByCreate.

Record pass : Type := mk_pass { p_now : Z; p_ts : Z; p_delay : Z; p_charge : charge }.

(** The clock, the cgroup's entry, the CPUs, and the packets let through so
    far, the last one first. *)
Record machine : Type := mk_machine {
  clock : Z; next_avail : option Z; cpus : list cpu; passed : list pass;
}.

#[export] Instance charge_eq : EqDecision charge.
Proof. solve_decision. Defined.
#[export] Instance cpu_eq : EqDecision cpu.
Proof. solve_decision. Defined.
#[export] Instance pass_eq : EqDecision pass.
Proof. solve_decision. Defined.
#[export] Instance machine_eq : EqDecision machine.
Proof. solve_decision. Defined.

(** One step of the program on one CPU: its new state, the entry and the
    packet let through, if any. *)
Definition cpu_step (now : Z) (slot : option Z) (c : cpu) : option (cpu * option Z * option pass) :=
  match c with
  | Idle => None
  | Arrived d => Some (Looked d (bool_decide (is_Some slot)), slot, None)
  | Looked d f => Some (Timed d f now, slot, None)
  | Timed d false t =>
      Some (Idle, Some (u64 (t + d)), Some (mk_pass t t d ByCreate))
  | Timed d true t =>
      v ← slot;
      if v <? t then Some (Resetting d t, slot, None)
      else if u64 (t + DROP_HORIZON) <? v then Some (Idle, slot, None)
      else Some (Adding d t v, slot, None)
  | Resetting d t => Some (Idle, Some (u64 (t + d)), Some (mk_pass t t d ByReset))
  | Adding d t v =>
      v' ← slot; Some (Idle, Some (u64 (v' + d)), Some (mk_pass t v d ByAdd))
  end.

Inductive action : Type :=
  | Tick (t : Z)             (* time goes by *)
  | Arrive (i : nat) (d : Z) (* CPU i gets a packet with delay d *)
  | Run (i : nat).           (* CPU i does its next step *)

Definition mstep (m : machine) (a : action) : option machine :=
  match a with
  | Tick t => if clock m <=? t then Some (mk_machine t (next_avail m) (cpus m) (passed m)) else None
  | Arrive i d =>
      c ← cpus m !! i;
      match c with
      | Idle => Some (mk_machine (clock m) (next_avail m) (<[i := Arrived d]> (cpus m)) (passed m))
      | _ => None
      end
  | Run i =>
      c ← cpus m !! i;
      r ← cpu_step (clock m) (next_avail m) c;
      Some (mk_machine (clock m) r.1.2 (<[i := r.1.1]> (cpus m))
        (match r.2 with Some p => p :: passed m | None => passed m end))
  end.

Fixpoint mrun (m : machine) (acts : list action) : option machine :=
  match acts with [] => Some m | a :: acts => m' ← mstep m a; mrun m' acts end.

(** Nothing has happened yet on [n] CPUs. *)
Definition quiet (t : Z) (slot : option Z) (n : nat) : machine :=
  mk_machine t slot (replicate n Idle) [].

(** ** The invariant *)

(** What a CPU is committed to add to the entry. *)
Definition pending (c : cpu) : Z := match c with Adding d _ _ => d | _ => 0 end.
Definition total_pending (cs : list cpu) : Z := foldr (λ c n, pending c + n) 0 cs.

Definition window (now ts : Z) : Prop := 0 <= now <= ts ∧ ts <= now + DROP_HORIZON.

Definition cpu_ok (D t : Z) (c : cpu) : Prop :=
  match c with
  | Idle => True
  | Arrived d | Looked d _ => 0 <= d <= D
  | Timed d _ now | Resetting d now => 0 <= d <= D ∧ 0 <= now <= t
  | Adding d now v => 0 <= d <= D ∧ now <= t ∧ window now v
  end.

Definition pass_ok (D t : Z) (p : pass) : Prop :=
  0 <= p_delay p <= D ∧ p_now p <= t ∧ window (p_now p) (p_ts p).

(** An action within the bounds: delays up to [D], the clock below [2 ^ 62]. *)
Definition action_ok (D : Z) (a : action) : Prop :=
  match a with Tick t => t < 2 ^ 62 | Arrive _ d => 0 <= d <= D | Run _ => True end.

Section race.
Context (D : Z) (n : nat).

Record machine_inv (m : machine) : Prop := {
  mi_clock : 0 <= clock m < 2 ^ 62;
  mi_cpus : Forall (cpu_ok D (clock m)) (cpus m);
  mi_count : length (cpus m) = n;
  mi_passed : Forall (pass_ok D (clock m)) (passed m);
  mi_slot v : next_avail m = Some v →
    0 <= v ∧ v + total_pending (cpus m) <= clock m + DROP_HORIZON + Z.of_nat n * D;
}.

Context (HD : 0 <= D) (HnD : Z.of_nat n * D <= 2 ^ 62).

Lemma pending_range t c : cpu_ok D t c → 0 <= pending c <= D.
Proof. destruct c; simpl; lia. Qed.

Lemma total_pending_insert cs i c c' :
  cs !! i = Some c → total_pending (<[i := c']> cs) = total_pending cs - pending c + pending c'.
Proof.
  revert i; induction cs as [|x cs IH]; intros [|i]; simpl; [done..| |].
  - intros [= ->]. lia.
  - intros H. specialize (IH _ H). lia.
Qed.

Lemma total_pending_range t cs :
  Forall (cpu_ok D t) cs → 0 <= total_pending cs <= Z.of_nat (length cs) * D.
Proof.
  induction 1 as [|c cs Hc _ IH]; cbn [total_pending foldr length]; [lia|].
  pose proof (pending_range _ _ Hc). unfold total_pending in IH. lia.
Qed.

Lemma total_pending_others t cs i c :
  Forall (cpu_ok D t) cs → cs !! i = Some c → length cs = n →
  0 <= total_pending cs - pending c <= (Z.of_nat n - 1) * D.
Proof.
  intros Hall Hi Hn.
  assert (Forall (cpu_ok D t) (delete i cs)) as Hd by by apply Forall_delete.
  pose proof (total_pending_range _ _ Hd) as Hr.
  pose proof (length_delete cs i ltac:(by eexists)) as Hlen.
  pose proof (lookup_lt_Some _ _ _ Hi).
  assert (total_pending (delete i cs) = total_pending cs - pending c) as <-.
  { clear -Hi. revert i Hi; induction cs as [|x cs IH]; intros [|i]; simpl; [done..| |].
    - intros [= ->]. lia.
    - intros H. specialize (IH _ H). lia. }
  rewrite Hlen in Hr. by replace (Z.of_nat (length cs - 1)) with (Z.of_nat n - 1) in Hr by lia.
Qed.

Lemma cpu_ok_mono t t' c : t <= t' → cpu_ok D t c → cpu_ok D t' c.
Proof. intros Ht. destruct c; simpl; unfold window; intuition lia. Qed.

Lemma pass_ok_mono t t' p : t <= t' → pass_ok D t p → pass_ok D t' p.
Proof. intros Ht. unfold pass_ok. intuition lia. Qed.

(** One step of one CPU keeps the invariant. *)
Lemma cpu_step_inv m i c c' slot o :
  machine_inv m → cpus m !! i = Some c →
  cpu_step (clock m) (next_avail m) c = Some (c', slot, o) →
  machine_inv (mk_machine (clock m) slot (<[i := c']> (cpus m))
    (match o with Some p => p :: passed m | None => passed m end)) ∧
  ∀ v, slot = Some v → v <= clock m + DROP_HORIZON + Z.of_nat n * D.
Proof.
  intros [Hcl Hcs Hn Hps Hs] Hi Hst.
  pose proof (proj1 (Forall_lookup _ _) Hcs _ _ Hi) as Hc.
  pose proof (total_pending_others _ _ _ _ Hcs Hi Hn) as Hoth.
  pose proof (λ x, total_pending_insert (cpus m) i c x Hi) as Hins.
  assert (∀ x, 0 <= x <= 2 ^ 63 + 2 ^ 62 → u64 x = x) as Hu
    by (intros x Hx; apply wrapu_small; unfold in_u; lia).
  assert (cpu_ok D (clock m) c' ∧ (match o with Some p => pass_ok D (clock m) p | None => True end) ∧
    ∀ v, slot = Some v → 0 <= v ∧
      v + (total_pending (cpus m) - pending c + pending c') <=
        clock m + DROP_HORIZON + Z.of_nat n * D) as (Hc' & Ho & Hslot).
  { unfold pass_ok, window, DROP_HORIZON, NS_PER_SEC in *.
    destruct c as [|d|d f|d [] t|d t|d t w]; simpl in *; simplify_eq; simpl.
    - split_and!; try done; try lia. intros v Hv. specialize (Hs v Hv). lia.
    - split_and!; try done; try lia. intros v Hv. specialize (Hs v Hv). lia.
    - destruct (next_avail m) as [v|]; [|done]. simpl in Hst. specialize (Hs v eq_refl).
      unfold DROP_HORIZON, NS_PER_SEC in Hst. rewrite Hu in Hst by lia.
      destruct (Z.ltb_spec v t); [|destruct (Z.ltb_spec (t + 2 * 1000000000) v)];
        simplify_eq; simpl; unfold window, DROP_HORIZON, NS_PER_SEC;
        (split_and!; try done; try lia); intros ? [= <-]; lia.
    - split_and!; try done; try lia. intros v [= <-]. rewrite Hu by lia. lia.
    - split_and!; try done; try lia. intros v [= <-]. rewrite Hu by lia. lia.
    - destruct (next_avail m) as [v|]; [|done]. simpl in Hst. simplify_eq. simpl.
      specialize (Hs v eq_refl). unfold window, DROP_HORIZON, NS_PER_SEC in *.
      split_and!; try done; try lia. intros ? [= <-]. rewrite Hu by lia. lia. }
  split.
  - split; simpl; [done|by apply Forall_insert|by rewrite length_insert| |].
    + destruct o; [by constructor|done].
    + intros v Hv. rewrite Hins. by apply Hslot.
  - intros v Hv. destruct (Hslot v Hv). pose proof (pending_range _ _ Hc'). lia.
Qed.

Lemma mstep_inv m a m' :
  machine_inv m → action_ok D a → mstep m a = Some m' → machine_inv m'.
Proof.
  intros Hi Ha Hst. pose proof Hi as [Hcl Hcs Hn Hps Hs]. destruct a as [t|i d|i]; simpl in *.
  - destruct (Z.leb_spec (clock m) t) as [Ht|]; simplify_eq. split; simpl; [lia| |done| |].
    + eapply Forall_impl; [exact Hcs|]. intros c. by apply cpu_ok_mono.
    + eapply Forall_impl; [exact Hps|]. intros c. by apply pass_ok_mono.
    + intros v Hv. specialize (Hs v Hv). lia.
  - destruct (cpus m !! i) as [[]|] eqn:Hc; simplify_eq/=.
    split; simpl; [done|by apply Forall_insert|by rewrite length_insert|done|].
    intros v Hv. rewrite (total_pending_insert _ _ _ _ Hc). specialize (Hs v Hv). simpl. lia.
  - destruct (cpus m !! i) as [c|] eqn:Hc; [|done]. simpl in Hst.
    destruct (cpu_step _ _ _) as [[[c' slot] o]|] eqn:Hcs'; [|done]. simplify_eq/=.
    by eapply cpu_step_inv.
Qed.

Lemma mrun_inv m acts m' :
  machine_inv m → Forall (action_ok D) acts → mrun m acts = Some m' → machine_inv m'.
Proof.
  revert m; induction acts as [|a acts IH]; intros m Hi Ha; simpl; [by intros [= <-]|].
  apply Forall_cons in Ha as [Ha Has]. destruct (mstep m a) as [m1|] eqn:Hm; [|done]. simpl.
  apply IH; [|done]. by eapply mstep_inv.
Qed.

Lemma quiet_inv t slot :
  0 <= t < 2 ^ 62 → (∀ v, slot = Some v → 0 <= v <= t + DROP_HORIZON) → machine_inv (quiet t slot n).
Proof.
  intros Ht Hs. assert (total_pending (replicate n Idle) = 0) as H0.
  { clear. induction n as [|k IH]; [done|]. change (0 + total_pending (replicate k Idle) = 0). lia. }
  split; simpl; [done| |by rewrite length_replicate|done|].
  - by apply Forall_replicate.
  - intros v Hv. rewrite H0. specialize (Hs v Hv). nia.
Qed.

End race.

(** ** Charges *)

Definition total_charge (ps : list pass) : Z := foldr (λ p c, p_delay p + c) 0 ps.

(** The packets let through between two states. *)
Definition passed_since (m m' : machine) : list pass :=
  take (length (passed m') - length (passed m)) (passed m').

Lemma mstep_passed m a m' :
  mstep m a = Some m' → ∃ ps, passed m' = ps ++ passed m.
Proof.
  destruct a as [t|i d|i]; simpl.
  - case_match; intros; simplify_eq. by exists [].
  - destruct (cpus m !! i) as [[]|]; intros; simplify_eq/=. by exists [].
  - destruct (cpus m !! i) as [c|]; [|done]. simpl.
    destruct (cpu_step _ _ _) as [[[c' slot] [p|]]|]; intros; simplify_eq/=;
      [by exists [p]|by exists []].
Qed.

Lemma mrun_passed m acts m' :
  mrun m acts = Some m' → ∃ ps, passed m' = ps ++ passed m.
Proof.
  revert m; induction acts as [|a acts IH]; intros m; simpl; [intros [= ->]; by exists []|].
  destruct (mstep m a) as [m1|] eqn:Hm; [|done]. simpl. intros Hr.
  destruct (IH _ Hr) as [ps Hps]. destruct (mstep_passed _ _ _ Hm) as [qs Hqs].
  exists (ps ++ qs). by rewrite Hps, Hqs, (assoc_L (++)).
Qed.

Lemma passed_since_app m m' ps : passed m' = ps ++ passed m → passed_since m m' = ps.
Proof.
  intros H. unfold passed_since. rewrite H, length_app.
  replace (length ps + length (passed m) - length (passed m))%nat with (length ps) by lia.
  by rewrite take_app_length.
Qed.

Section charges.
Context (D : Z) (n : nat) (HD : 0 <= D) (HnD : Z.of_nat n * D <= 2 ^ 62).

(** One step adds the delay of the packet it lets through, unless it stores. *)
Lemma mstep_charge m a m' ps v :
  machine_inv D n m → mstep m a = Some m' → passed m' = ps ++ passed m →
  next_avail m = Some v → Forall (λ p, p_charge p = ByAdd) ps →
  next_avail m' = Some (v + total_charge ps).
Proof using HD HnD.
  intros Hi Hst Hps Hv Hadd.
  assert (ps = [] ∨ ∃ p, ps = [p]) as Hlen.
  { destruct ps as [|p [|q ps]]; [by left|by right; exists p|]. exfalso.
    apply (f_equal length) in Hps. simpl in Hps. rewrite length_app in Hps.
    destruct a as [t|i d|i]; simpl in Hst.
    - case_match; simplify_eq. simpl in Hps. lia.
    - destruct (cpus m !! i) as [[]|]; simplify_eq/=. lia.
    - destruct (cpus m !! i) as [c|]; [|done]. simpl in Hst.
      destruct (cpu_step _ _ _) as [[[c' slot] [p'|]]|]; simplify_eq/=; lia. }
  destruct a as [t|i d|i]; simpl in Hst.
  - case_match; simplify_eq. simpl in *. apply (app_inv_tail _ []) in Hps. subst ps. simpl.
    rewrite Hv. f_equal. lia.
  - destruct (cpus m !! i) as [[]|]; simplify_eq/=. apply (app_inv_tail _ []) in Hps. subst ps. simpl.
    rewrite Hv. f_equal. lia.
  - destruct (cpus m !! i) as [c|] eqn:Hc; [|done]. simpl in Hst.
    destruct (cpu_step _ _ c) as [[[c' slot] o]|] eqn:Hcs; [|done]. simplify_eq/=.
    destruct (cpu_step_inv D n HD HnD _ _ _ _ _ _ Hi Hc Hcs) as [_ Hle].
    pose proof (proj1 (Forall_lookup _ _) (mi_cpus _ _ _ Hi) _ _ Hc) as Hcok.
    pose proof (mi_clock _ _ _ Hi). destruct (mi_slot _ _ _ Hi _ Hv) as [Hv0 Hvle].
    pose proof (total_pending_others _ _ HD _ _ _ _ (mi_cpus _ _ _ Hi) Hc (mi_count _ _ _ Hi)).
    destruct o as [p|].
    + destruct Hlen as [->|[q ->]]; [apply (f_equal length) in Hps; simpl in Hps; lia|].
      simpl in Hps. simplify_eq. apply Forall_cons in Hadd as [Hadd _].
      rewrite Hv in Hcs. destruct c as [|?|??|?[]?|??|d t w]; simpl in *; repeat case_match;
        simplify_eq/=. f_equal. rewrite wrapu_small; [lia|].
      unfold in_u, DROP_HORIZON, NS_PER_SEC in *. lia.
    + apply (app_inv_tail _ []) in Hps. subst ps. simpl. rewrite Z.add_0_r, <- Hv.
      rewrite Hv in Hcs. destruct c as [|?|??|?[]?|??|d t w]; simpl in *; repeat case_match;
        simplify_eq/=; congruence.
Qed.

Lemma mrun_charge m acts m' v :
  machine_inv D n m → Forall (action_ok D) acts → mrun m acts = Some m' →
  next_avail m = Some v → Forall (λ p, p_charge p = ByAdd) (passed_since m m') →
  next_avail m' = Some (v + total_charge (passed_since m m')).
Proof using HD HnD.
  revert m v; induction acts as [|a acts IH]; intros m v Hi Ha; simpl.
  - intros [= ->] Hv _. rewrite (passed_since_app _ _ []) by done. simpl. rewrite Hv. f_equal. lia.
  - apply Forall_cons in Ha as [Ha Has]. destruct (mstep m a) as [m1|] eqn:Hm; [|done].
    simpl. intros Hr Hv. destruct (mstep_passed _ _ _ Hm) as [qs Hqs].
    destruct (mrun_passed _ _ _ Hr) as [ps Hps].
    rewrite (passed_since_app m m' (ps ++ qs)) by (by rewrite Hps, Hqs, (assoc_L (++))).
    intros [Hp Hq]%Forall_app.
    pose proof (mstep_charge _ _ _ _ _ Hi Hm Hqs Hv Hq) as Hv1.
    rewrite (IH m1 _ (mstep_inv D n HD HnD _ _ _ Hi Ha Hm) Has Hr Hv1); rewrite
      (passed_since_app m1 m' ps Hps); [|done].
    f_equal. unfold total_charge. rewrite foldr_app.
    assert (∀ l x, foldr (λ p c, p_delay p + c) x l = foldr (λ p c, p_delay p + c) 0 l + x) as Hf.
    { intros l x. induction l; simpl; lia. }
    rewrite (Hf ps (foldr _ _ qs)). lia.
Qed.

End charges.

(** ** What holds under every schedule *)

#[export] Instance action_ok_dec D a : Decision (action_ok D a).
Proof. destruct a; simpl; apply _. Defined.

(** The steps are those of the program: a packet of a cgroup with
    non-zero limits that is processed without interruption, on one of any
    number of CPUs, updates the entry and is dated exactly as by
    [cgroup_rate_limit], when the kernel accepts a new entry. *)
Theorem uninterrupted_is_cgroup_rate_limit now skb s rl ps cs i :
  rate_limit_map s !! cgroup_id skb = Some rl → byte_rate rl ≠ 0 → packet_rate rl ≠ 0 →
  cs !! i = Some Idle →
  let d := packet_delay rl (len skb) in
  let '(act, skb', s') := cgroup_rate_limit (λ m k v, <[k := v]> m) now skb s in
  ∃ k ps', mrun (mk_machine now (rate_limit_priv_map s !! cgroup_id skb) cs ps)
      (Arrive i d :: replicate k (Run i)) =
    Some (mk_machine now (rate_limit_priv_map s' !! cgroup_id skb) cs (ps' ++ ps)) ∧
    match act with
    | TC_ACT_OK => ∃ c, ps' = [mk_pass now (tstamp skb') d c]
    | TC_ACT_SHOT => ps' = []
    end.
Proof.
  intros Hrl Hb Hp Hi d. unfold cgroup_rate_limit. rewrite Hrl.
  rewrite (proj2 (Z.eqb_neq _ _) Hb), (proj2 (Z.eqb_neq _ _) Hp). cbn [orb].
  assert (∀ x l, l !! i = Some Idle → <[i := x]> l !! i = Some x) as Hl
    by (intros x l Hx; apply list_lookup_insert_eq; by eapply lookup_lt_Some).
  assert (∀ x y : cpu, <[i := x]> (<[i := y]> cs) = <[i := x]> cs) as Hll
    by (intros; apply list_insert_insert_eq).
  assert (<[i := Idle]> cs = cs) as Hid by by apply list_insert_id.
  destruct (rate_limit_priv_map s !! cgroup_id skb) as [v|] eqn:Hpr.
  - destruct (v <? now) eqn:H1; [|destruct (u64 (now + DROP_HORIZON) <? v) eqn:H2].
    + exists 4%nat, [mk_pass now now d ByReset].
      repeat (simpl; rewrite ?Hi, ?Hl, ?Hll, ?H1 by done).
      rewrite Hid, lookup_insert_eq. split; [done|by eexists].
    + exists 3%nat, [].
      repeat (simpl; rewrite ?Hi, ?Hl, ?Hll, ?H1, ?H2 by done). by rewrite Hid, Hpr.
    + exists 4%nat, [mk_pass now v d ByAdd].
      repeat (simpl; rewrite ?Hi, ?Hl, ?Hll, ?H1, ?H2 by done).
      rewrite Hid, lookup_insert_eq. split; [done|by eexists].
  - exists 3%nat, [mk_pass now now d ByCreate].
    repeat (simpl; rewrite ?Hi, ?Hl, ?Hll by done).
    rewrite Hid, lookup_insert_eq. split; [done|by eexists].
Qed.

Lemma uninterrupted_is_cgroup_rate_limit_witness :
  ∃ k ps, mrun (mk_machine 6000 (Some 1505000) [Idle; Idle] [])
      (Arrive 1 1000000 :: replicate k (Run 1)) =
    Some (mk_machine 6000 (Some 2505000) [Idle; Idle] ps).
Proof.
  pose proof (uninterrupted_is_cgroup_rate_limit 6000 (mk_skb 500 7 0)
    (mk_bpf ex_limits {[7 := 1505000]}) (mk_rate_limit 1000000 1000) [] [Idle; Idle] 1
    ltac:(vm_compute; reflexivity) ltac:(done) ltac:(done) ltac:(done)) as H.
  cbv zeta in H. destruct (cgroup_rate_limit _ _ _ _) as [[act skb'] s'] eqn:He.
  destruct H as (k & ps & H & _). vm_compute in He. injection He as <- <- <-.
  exists k, (ps ++ []). exact H.
Defined.

(** No interleaving runs away: on [n] CPUs with delays up to [D], after
    any schedule, every packet let through is dated between its arrival and
    two seconds later, the entry is never more than the two seconds and [n]
    delays ahead of the clock, and the 64-bit additions never wrap. *)
Theorem race_bounded D n t slot acts m :
  0 <= D → Z.of_nat n * D <= 2 ^ 62 → 0 <= t < 2 ^ 62 →
  (∀ v, slot = Some v → 0 <= v <= t + DROP_HORIZON) →
  Forall (action_ok D) acts → mrun (quiet t slot n) acts = Some m →
  (∀ v, next_avail m = Some v → 0 <= v <= clock m + DROP_HORIZON + Z.of_nat n * D) ∧
  Forall (λ p, p_now p <= p_ts p <= p_now p + DROP_HORIZON) (passed m).
Proof.
  intros HD HnD Ht Hs Ha Hr.
  pose proof (mrun_inv D n HD HnD _ _ _ (quiet_inv D n HD HnD t slot Ht Hs) Ha Hr) as [_ Hc Hn Hp Hv].
  split.
  - intros v H. pose proof (total_pending_range D n HD _ _ Hc). specialize (Hv v H). lia.
  - eapply Forall_impl; [exact Hp|]. unfold pass_ok, window. intros p. lia.
Qed.

(** Two CPUs take a slot each while the queue is busy. *)
Definition ex_busy : list action :=
  [Arrive 0 400; Arrive 1 900; Run 0; Run 1; Run 0; Run 1; Run 0; Run 1; Run 1; Tick 60; Run 0].

Lemma race_bounded_witness :
  ∃ m, mrun (quiet 50 (Some 100) 2) ex_busy = Some m ∧
    ∀ v, next_avail m = Some v → 0 <= v <= clock m + DROP_HORIZON + 2 * 900.
Proof.
  eexists. split; [vm_compute; reflexivity|].
  refine (proj1 (race_bounded 900 2 50 (Some 100) ex_busy _ _ _ _ _ _ _));
    [lia|lia|lia| |refine (bool_decide_unpack _ _); vm_compute; exact I|vm_compute; reflexivity].
  intros v [= <-]. unfold DROP_HORIZON, NS_PER_SEC. lia.
Defined.

(** C26. The atomic additions lose nothing: on [n] CPUs with delays up to [D],
    that started idle with the entry at most two seconds ahead, while the
    queue is busy, that is, as long as no CPU stores or creates the
    entry (and the kernel does not evict it), the entry advances by exactly
    the sum of the delays of all packets let through, whatever the
    interleaving, even where two of them were dated the same; so these delays
    sum to at most the time from the entry's value to the clock, two seconds,
    and one delay per CPU. *)
Theorem race_charges_all D n t slot acts1 m1 acts2 m2 v :
  0 <= D → Z.of_nat n * D <= 2 ^ 62 → 0 <= t < 2 ^ 62 →
  (∀ v, slot = Some v → 0 <= v <= t + DROP_HORIZON) →
  Forall (action_ok D) (acts1 ++ acts2) →
  mrun (quiet t slot n) acts1 = Some m1 → mrun m1 acts2 = Some m2 →
  next_avail m1 = Some v → Forall (λ p, p_charge p = ByAdd) (passed_since m1 m2) →
  next_avail m2 = Some (v + total_charge (passed_since m1 m2)) ∧
  total_charge (passed_since m1 m2) <= clock m2 - v + DROP_HORIZON + Z.of_nat n * D.
Proof.
  intros HD HnD Ht Hs [Ha1 Ha2]%Forall_app Hr1 Hr2 Hv Hadd.
  pose proof (mrun_inv D n HD HnD _ _ _ (quiet_inv D n HD HnD t slot Ht Hs) Ha1 Hr1) as Hi1.
  assert (next_avail m2 = Some (v + total_charge (passed_since m1 m2))) as E by by eapply mrun_charge.
  split; [done|]. destruct (mrun_inv D n HD HnD _ _ _ Hi1 Ha2 Hr2) as [_ Hc _ _ Hsl].
  pose proof (total_pending_range D n HD _ _ Hc). destruct (Hsl _ E). lia.
Qed.

Lemma race_charges_all_witness :
  ∃ m, mrun (quiet 50 (Some 100) 2) ex_busy = Some m ∧
    map p_ts (passed m) = [100; 100] ∧ next_avail m = Some (100 + (400 + 900)).
Proof.
  eexists. split; [vm_compute; reflexivity|]. split; [reflexivity|].
  refine (proj1 (race_charges_all 900 2 50 (Some 100) [] (quiet 50 (Some 100) 2) ex_busy _ 100
    _ _ _ _ _ _ _ _ _));
    [lia|lia|lia| |refine (bool_decide_unpack _ _); vm_compute; exact I|reflexivity
    |vm_compute; reflexivity|reflexivity|refine (bool_decide_unpack _ _); vm_compute; exact I].
  intros v [= <-]. unfold DROP_HORIZON, NS_PER_SEC. lia.
Defined.

(** The plain store can lose a charge: the comment at the store expects
    racing CPUs to store the same value, but the value depends on the length
    of the packet. Two CPUs that find the cgroup idle at the same time both
    let their packets through at once, and the store of the shorter packet
    overwrites that of the longer one: 1000 ns of delay are never charged. *)
Theorem race_store_loses_charge :
  ∃ acts m, mrun (quiet 50 (Some 0) 2) acts = Some m ∧ Forall (action_ok 1000) acts ∧
    map p_ts (passed m) = [50; 50] ∧ total_charge (passed m) = 1001 ∧ next_avail m = Some 51.
Proof.
  exists [Arrive 0 1000; Arrive 1 1; Run 0; Run 1; Run 0; Run 1; Run 0; Run 1; Run 0; Run 1].
  eexists. split; [vm_compute; reflexivity|].
  split_and!; [refine (bool_decide_unpack _ _); vm_compute; exact I|reflexivity..].
Qed.
