(* ===== verification/Protocol.v ===== *)
(** * The control protocol (include/protocol.h)

    The messages between client and daemon as bytes, with the layout the
    x86-64 and arm64 ABIs give the C structs: little-endian, [uint32_t] and
    enums in 4 bytes, [uint64_t] in 8, no padding. One packet of the
    SOCK_SEQPACKET socket carries one message. *)

From S2P Require Import Prelude RateLimit.

#[local] Open Scope Z_scope.

(** ** Little-endian integers *)

Fixpoint le (n : nat) (z : Z) : list Z :=
  match n with O => [] | S n => z mod 256 :: le n (z / 256) end.

Fixpoint unle (bs : list Z) : Z :=
  match bs with [] => 0 | b :: bs => b + 256 * unle bs end.

(** A field of [n] bytes at offset [off]. *)
Definition field (off n : nat) (bs : list Z) : Z := unle (take n (drop off bs)).

Lemma length_le n z : length (le n z) = n.
Proof. revert z; induction n; intros z; simpl; [done|]. by rewrite IHn. Qed.

Lemma unle_le n z : unle (le n z) = z mod 2 ^ (8 * Z.of_nat n).
Proof.
  revert z; induction n as [|n IH]; intros z; [simpl; by rewrite Z.mod_1_r|].
  cbn [le unle]. rewrite IH.
  replace (2 ^ (8 * Z.of_nat (S n))) with (256 * 2 ^ (8 * Z.of_nat n))
    by (change 256 with (2 ^ 8); rewrite <-Z.pow_add_r by lia; f_equal; lia).
  rewrite Z.rem_mul_r by lia. lia.
Qed.

Lemma unle_le_id n z : in_u (8 * Z.of_nat n) z → unle (le n z) = z.
Proof. intros Hz. rewrite unle_le. by apply Z.mod_small. Qed.

(** Reading a field of a message that is put together from fields. *)
Lemma field_here n z bs : field 0 n (le n z ++ bs) = z mod 2 ^ (8 * Z.of_nat n).
Proof.
  unfold field. rewrite drop_0, take_app_length'; [apply unle_le|by rewrite length_le].
Qed.

Lemma field_skip m z off n bs : field (m + off) n (le m z ++ bs) = field off n bs.
Proof. unfold field. by rewrite drop_app_add' by by rewrite length_le. Qed.

(** ** Messages *)

Definition RATE_LIMIT_REQ : Z := 0.
Definition RATE_LIMIT_FAIL : Z := 1.
Definition RATE_LIMIT_LOG : Z := 2.
Definition RATE_LIMIT_PROCEED : Z := 3.

Definition RATE_LIMIT_REQ_NOWAIT : Z := Z.shiftl 1 0.

Definition RATE_LIMIT_FAIL_UNKNOWN : Z := 0.
Definition RATE_LIMIT_FAIL_WILL_WAIT : Z := 1.
Definition RATE_LIMIT_FAIL_INTERNAL : Z := 2.
Definition RATE_LIMIT_FAIL_NORESOURCE : Z := 3.
Definition RATE_LIMIT_FAIL_YOUR_ERROR : Z := 4.

(** sizeof of the three structs. *)
Definition MSG_SIZE : nat := 8.
Definition REQ_ATTR_SIZE : nat := 24.
Definition FAIL_ATTR_SIZE : nat := 4.

(** [struct rate_limit_msg] with [struct rate_limit_req_attr]. *)
Record rate_limit_req : Type := mk_req {
  req_length : Z; req_type : Z; req_limit : rate_limit; req_flags : Z;
}.

Definition encode_req (r : rate_limit_req) : list Z :=
  le 4 (req_length r) ++ le 4 (req_type r) ++ le 8 (byte_rate (req_limit r)) ++
  le 8 (packet_rate (req_limit r)) ++ le 8 (req_flags r).

Definition decode_req (bs : list Z) : rate_limit_req :=
  mk_req (field 0 4 bs) (field 4 4 bs) (mk_rate_limit (field 8 8 bs) (field 16 8 bs))
    (field 24 8 bs).

Definition req_ok (r : rate_limit_req) : Prop :=
  in_u 32 (req_length r) ∧ in_u 32 (req_type r) ∧ limit_ok (req_limit r) ∧ in_u 64 (req_flags r).

Lemma length_encode_req r : length (encode_req r) = (MSG_SIZE + REQ_ATTR_SIZE)%nat.
Proof. unfold encode_req. by rewrite !length_app, !length_le. Qed.

Lemma decode_encode_req r bs : req_ok r → decode_req (encode_req r ++ bs) = r.
Proof.
  intros (H1 & H2 & [H3 H4] & H5). destruct r as [l t [b p] f]; cbn [req_length req_type req_limit req_flags byte_rate packet_rate] in *.
  unfold decode_req, encode_req. cbn [req_length req_type req_limit req_flags byte_rate packet_rate].

  rewrite <-!(assoc_L (++)).
  rewrite field_here, (field_skip 4 l 0), field_here, (field_skip 4 l 4), (field_skip 4 t 0), field_here.
  rewrite (field_skip 4 l 12), (field_skip 4 t 8), (field_skip 8 b 0), field_here.
  rewrite (field_skip 4 l 20), (field_skip 4 t 16), (field_skip 8 b 8), (field_skip 8 p 0), field_here.
  unfold in_u in *. rewrite !Z.mod_small by (simpl; lia). done.
Qed.

(** ** The daemon's replies (src/main.c) *)

(** [write_rate_limit_msg] up to the write: the bytes, or the error. *)
Definition rate_limit_msg (kind code : Z) : Z + list Z :=
  if kind =? RATE_LIMIT_FAIL then
    inr (le 4 (Z.of_nat (MSG_SIZE + FAIL_ATTR_SIZE)) ++ le 4 kind ++ le 4 code)
  else if kind =? RATE_LIMIT_PROCEED then
    inr (le 4 (Z.of_nat MSG_SIZE) ++ le 4 kind)
  else inl (- EINVAL).

(** [write_rate_limit_log] up to the write, for the formatted text: the
    string is copied without its terminating zero. *)
Definition rate_limit_log (text : list Z) : list Z :=
  le 4 (Z.of_nat (length text + MSG_SIZE)) ++ le 4 RATE_LIMIT_LOG ++ text.

(** ** The daemon's view of a request (src/main.c) *)

(** What [client_handler_async] makes of the result [rc] of its read and the
    bytes it read: an error and whether it is the client's, or the limit. *)
Inductive request_result : Type :=
  | ReqInterrupted
  | ReqError (client_error : bool) (rc : Z)
  | ReqLimit (limit : rate_limit).

Definition read_request (rc : Z) (buf : list Z) : request_result :=
  if rc <? 0 then
    if rc =? - EINTR then ReqInterrupted
    else ReqError (rc =? - ETIMEDOUT) rc
  else if rc =? 0 then ReqError true (- ECONNRESET)
  else if rc <? Z.of_nat (MSG_SIZE + REQ_ATTR_SIZE) then ReqError true (- EINVAL)
  else if field 0 4 buf <? Z.of_nat (MSG_SIZE + REQ_ATTR_SIZE) then ReqError true (- EINVAL)
  else ReqLimit (req_limit (decode_req buf)).
