(* ===== verification/Client.v ===== *)
(** * The client (src/client.c)

    Parsing of rates and times, the options, the request it sends and its
    loop over the daemon's replies. Strings are lists of character codes
    without the terminating zero; getopt_long is represented by the options
    it reports. *)

From S2P Require Import Prelude RateLimit Protocol.

#[local] Open Scope Z_scope.

(** ** sscanf("%lu%c") *)

Definition isspace (c : Z) : bool := (c =? 32) || ((9 <=? c) && (c <=? 13)).
Definition isdigit (c : Z) : bool := (48 <=? c) && (c <=? 57).

Fixpoint skip_space (s : list Z) : list Z :=
  match s with c :: s' => if isspace c then skip_space s' else s | [] => [] end.

(** The digits at the start of [s], their value added to [acc], the rest and
    whether there was a digit. *)
Fixpoint scan_digits (s : list Z) (acc : Z) (some : bool) : Z * list Z * bool :=
  match s with
  | c :: s' => if isdigit c then scan_digits s' (10 * acc + (c - 48)) true else (acc, s, some)
  | [] => (acc, [], some)
  end.

Definition ULONG_MAX : Z := 2 ^ 64 - 1.

Definition scan_sign (s : list Z) : bool * list Z :=
  match s with
  | c :: s' => if c =? 45 then (true, s') else if c =? 43 then (false, s') else (false, s)
  | [] => (false, [])
  end.

(** The conversion of %lu, that of strtoul: an optional sign, which negates
    the result, and ULONG_MAX for a value that does not fit. *)
Definition scan_lu (s : list Z) : option (Z * list Z) :=
  let '(neg, s) := scan_sign (skip_space s) in
  match scan_digits s 0 false with
  | (v, rest, true) =>
      Some (if ULONG_MAX <? v then ULONG_MAX else if neg : bool then u64 (- v) else v, rest)
  | _ => None
  end.

(** How many conversions succeeded, with their values. *)
Inductive scanned : Type := Scanned0 | Scanned1 (v : Z) | Scanned2 (v c : Z).

Definition sscanf_lu_c (s : list Z) : scanned :=
  match scan_lu s with
  | None => Scanned0
  | Some (v, []) => Scanned1 v
  | Some (v, c :: _) => Scanned2 v c
  end.

(** ** Rates and times *)

Inductive parse_suffix_result : Type :=
  | PARSE_SUFFIX_OK (v : Z)
  | PARSE_SUFFIX_INVALID
  | PARSE_SUFFIX_INVALID_SUFFIX.

(** The switch over the suffix, with its fall-throughs; letters by code. *)
Definition rate_multiplier (c : Z) : option Z :=
  let k := u64 (1 * 1000) in
  let m := u64 (k * 1000) in
  let g := u64 (m * 1000) in
  let t := u64 (g * 1000) in
  if (c =? 84) || (c =? 116) then Some t
  else if (c =? 71) || (c =? 103) then Some g
  else if (c =? 77) || (c =? 109) then Some m
  else if (c =? 75) || (c =? 107) then Some k
  else None.

Definition parseRate (string : list Z) : parse_suffix_result :=
  match sscanf_lu_c string with
  | Scanned0 => PARSE_SUFFIX_INVALID
  | Scanned1 raw_rate => PARSE_SUFFIX_OK (u64 (raw_rate * 1))
  | Scanned2 raw_rate c =>
      match rate_multiplier c with
      | Some multiplier => PARSE_SUFFIX_OK (u64 (raw_rate * multiplier))
      | None => PARSE_SUFFIX_INVALID_SUFFIX
      end
  end.

Definition time_multiplier (c : Z) : option Z :=
  if (c =? 100) || (c =? 68) then Some (u64 (u64 (u64 (1 * 24) * 60) * 60))
  else if (c =? 104) || (c =? 72) then Some (u64 (u64 (1 * 60) * 60))
  else if (c =? 109) || (c =? 77) then Some (u64 (1 * 60))
  else None.

(** [raw_time] is an [int64_t] that %lu writes to; the product is computed as
    [uint64_t] and stored as [int64_t]. *)
Definition parseTime (string : list Z) : parse_suffix_result :=
  match sscanf_lu_c string with
  | Scanned0 => PARSE_SUFFIX_INVALID
  | Scanned1 v =>
      let raw_time := s64 v in
      if raw_time <? 0 then PARSE_SUFFIX_INVALID else PARSE_SUFFIX_OK (s64 (u64 (raw_time * 1)))
  | Scanned2 v c =>
      let raw_time := s64 v in
      if raw_time <? 0 then PARSE_SUFFIX_INVALID else
      match time_multiplier c with
      | Some multiplier => PARSE_SUFFIX_OK (s64 (u64 (raw_time * multiplier)))
      | None => PARSE_SUFFIX_INVALID_SUFFIX
      end
  end.

(** ** Options *)

Record client_options : Type := mk_options {
  opt_packet_rate : Z;
  opt_byte_rate : Z;
  opt_wait_time : Z;
  opt_control_socket : list Z;
  opt_debug_fork : bool;
}.

(** /run/traffic-limitd.sock *)
Definition DEFAULT_CONTROL_SOCKET : list Z :=
  [47; 114; 117; 110; 47; 116; 114; 97; 102; 102; 105; 99; 45; 108; 105; 109; 105; 116; 100; 46;
   115; 111; 99; 107].

Definition default_options : client_options := mk_options 0 0 (-1) DEFAULT_CONTROL_SOCKET false.

(** What getopt_long reports. *)
Inductive option_item : Type :=
  | OptPacketRate (optarg : list Z)
  | OptBitRate (optarg : list Z)
  | OptWait (optarg : list Z)
  | OptControlSocket (optarg : list Z)
  | OptHelp
  | OptFork
  | OptUnknown.

(** The loop over the options: an exit status, or the options. *)
Fixpoint parse_options (items : list option_item) (o : client_options) : Z + client_options :=
  match items with
  | [] => inr o
  | OptPacketRate s :: items =>
      match parseRate s with
      | PARSE_SUFFIX_OK v =>
          parse_options items
            (mk_options v (opt_byte_rate o) (opt_wait_time o) (opt_control_socket o) (opt_debug_fork o))
      | _ => inl 1
      end
  | OptBitRate s :: items =>
      match parseRate s with
      | PARSE_SUFFIX_OK v =>
          parse_options items
            (mk_options (opt_packet_rate o) (v / 8) (opt_wait_time o) (opt_control_socket o)
              (opt_debug_fork o))
      | _ => inl 1
      end
  | OptWait s :: items =>
      match parseTime s with
      | PARSE_SUFFIX_OK v =>
          parse_options items
            (mk_options (opt_packet_rate o) (opt_byte_rate o) v (opt_control_socket o) (opt_debug_fork o))
      | _ => inl 1
      end
  | OptControlSocket s :: items =>
      parse_options items
        (mk_options (opt_packet_rate o) (opt_byte_rate o) (opt_wait_time o) s (opt_debug_fork o))
  | OptHelp :: _ => inl 0
  | OptFork :: items =>
      parse_options items
        (mk_options (opt_packet_rate o) (opt_byte_rate o) (opt_wait_time o) (opt_control_socket o) true)
  | OptUnknown :: _ => inl 1
  end.

(** ** The request *)

Definition client_request (o : client_options) : rate_limit_req :=
  mk_req (Z.of_nat (MSG_SIZE + REQ_ATTR_SIZE)) RATE_LIMIT_REQ
    (mk_rate_limit
      (if opt_byte_rate o =? 0 then RATE_UNLIMITED else opt_byte_rate o)
      (if opt_packet_rate o =? 0 then RATE_UNLIMITED else opt_packet_rate o))
    (Z.lor 0 (if opt_wait_time o <? 0 then RATE_LIMIT_REQ_NOWAIT else 0)).

(** ** Replies *)

Inductive fail_text : Type :=
  | ReasonUnknown | NoEnoughResource | InternalError | TooManyTasks.

(** What the client makes of one packet; a log text whose printed length is
    negative is read up to a zero byte, beyond the packet if there is none. *)
Inductive reply : Type :=
  | ReplyInvalid
  | ReplyFail (reason : fail_text)
  | ReplyLog (text : list Z)
  | ReplyLogUnbounded
  | ReplyProceed.

Definition fail_reason (r : Z) : fail_text :=
  if r =? RATE_LIMIT_FAIL_WILL_WAIT then NoEnoughResource
  else if r =? RATE_LIMIT_FAIL_INTERNAL then InternalError
  else if r =? RATE_LIMIT_FAIL_NORESOURCE then TooManyTasks
  else ReasonUnknown.

Definition reason_text (t : fail_text) : string :=
  match t with
  | ReasonUnknown => "reason unknown"
  | NoEnoughResource => "no enough resource"
  | InternalError => "internal error"
  | TooManyTasks => "too many rate limited tasks"
  end.

(** What %s prints: up to a zero byte. *)
Fixpoint until_zero (s : list Z) : list Z :=
  match s with c :: s => if c =? 0 then [] else c :: until_zero s | [] => [] end.

Definition client_reply (recv_buf : list Z) : reply :=
  let len := Z.of_nat (length recv_buf) in
  if len <? Z.of_nat MSG_SIZE then ReplyInvalid else
  let resp_length := field 0 4 recv_buf in
  let resp_type := field 4 4 recv_buf in
  let len := if resp_length <? len then resp_length else len in
  if resp_type =? RATE_LIMIT_FAIL then
    if len <? Z.of_nat (FAIL_ATTR_SIZE + MSG_SIZE) then ReplyInvalid
    else ReplyFail (fail_reason (field 8 4 recv_buf))
  else if resp_type =? RATE_LIMIT_LOG then
    let precision := s32 (u64 (len - Z.of_nat MSG_SIZE)) in
    if precision <? 0 then ReplyLogUnbounded
    else ReplyLog (until_zero (take (Z.to_nat precision) (drop MSG_SIZE recv_buf)))
  else if resp_type =? RATE_LIMIT_PROCEED then ReplyProceed
  else ReplyInvalid.

(** ** The receive loop *)

(** One iteration, as the kernel answers it: the result of the peeking recv
    (a length or a negative errno), of the second one (the packet or a
    negative errno), and whether the alarm has gone off by then. *)
Record recv_iter : Type := mk_iter { it_peek : Z; it_recv : Z + list Z; it_alarm : bool }.

(** The client exits with a status, goes on to execute the command, or is
    still waiting; and what it has printed of the daemon's log. *)
Inductive recv_result : Type := RecvExit (status : Z) | RecvExec | RecvWaiting | RecvOverread.

Fixpoint recv_loop (wait_time : Z) (its : list recv_iter) : recv_result * list (list Z) :=
  match its with
  | [] => (RecvWaiting, [])
  | it :: its =>
      let interrupted :=
        if (0 <? wait_time) && it_alarm it then (RecvExit 1, []) else recv_loop wait_time its in
      if it_peek it <? 0 then
        if it_peek it =? - EINTR then interrupted else (RecvExit 1, [])
      else if it_peek it =? 0 then (RecvExit 1, [])
      else
        match it_recv it with
        | inl e =>
            if e =? - EINTR then interrupted
            else if e =? - EWOULDBLOCK then recv_loop wait_time its
            else (RecvExit 1, [])
        | inr [] => (RecvExit 1, [])
        | inr buf =>
            match client_reply buf with
            | ReplyInvalid | ReplyFail _ => (RecvExit 1, [])
            | ReplyLog text => let '(r, log) := recv_loop wait_time its in (r, text :: log)
            | ReplyLogUnbounded => (RecvOverread, [])
            | ReplyProceed => (RecvExec, [])
            end
        end
  end.

(** ** Decimal numerals *)

Definition digit (d : Z) : Prop := 0 <= d <= 9.
Definition numeral (ds : list Z) : list Z := (λ d, 48 + d) <$> ds.
Definition value (ds : list Z) : Z := foldl (λ a d, 10 * a + d) 0 ds.

(** The text after a numeral: nothing, or something that is not a digit. *)
Definition after_numeral (rest : list Z) : Prop :=
  match rest with [] => True | c :: _ => isdigit c = false end.

Lemma isdigit_numeral d : digit d → isdigit (48 + d) = true.
Proof. intros Hd. unfold isdigit, digit in *. apply andb_true_iff. lia. Qed.

Lemma scan_digits_numeral ds rest acc b :
  Forall digit ds → after_numeral rest →
  scan_digits (numeral ds ++ rest) acc b =
    (foldl (λ a d, 10 * a + d) acc ds, rest, match ds with [] => b | _ => true end).
Proof.
  intros Hds Hr. revert acc b. induction Hds as [|d ds Hd Hds IH]; intros acc b; simpl.
  - destruct rest as [|c rest]; simpl; [done|]. by rewrite Hr.
  - rewrite isdigit_numeral by done. rewrite IH.
    replace (48 + d - 48) with d by lia. by destruct ds.
Qed.

Lemma value_nonneg ds acc : Forall digit ds → 0 <= acc → 0 <= foldl (λ a d, 10 * a + d) acc ds.
Proof.
  intros Hds. revert acc; induction Hds as [|d ds Hd Hds IH]; intros acc Ha; simpl; [done|].
  apply IH. unfold digit in Hd. lia.
Qed.

Lemma scan_lu_numeral d ds rest :
  Forall digit (d :: ds) → after_numeral rest →
  scan_lu (numeral (d :: ds) ++ rest) = Some (Z.min (value (d :: ds)) ULONG_MAX, rest).
Proof.
  intros Hds Hr. pose proof (Forall_inv Hds) as Hd.
  pose proof (scan_digits_numeral (d :: ds) rest 0 false Hds Hr) as Hs.
  assert (skip_space (numeral (d :: ds) ++ rest) = numeral (d :: ds) ++ rest) as Hsp.
  { simpl. destruct (isspace (48 + d)) eqn:E; [|done]. exfalso.
    unfold isspace, digit in *. apply orb_true_iff in E as [E|E]; [lia|apply andb_true_iff in E; lia]. }
  unfold scan_lu. rewrite Hsp. fold (value (d :: ds)) in Hs.
  assert (scan_sign (numeral (d :: ds) ++ rest) = (false, numeral (d :: ds) ++ rest)) as Hsign.
  { unfold digit in Hd. simpl. by rewrite !(proj2 (Z.eqb_neq _ _)) by lia. }
  rewrite Hsign, Hs. f_equal. f_equal. destruct (Z.ltb_spec ULONG_MAX (value (d :: ds))); lia.
Qed.

(** The reading of a numeral and what follows it, in full. *)
Lemma sscanf_numeral d ds rest :
  Forall digit (d :: ds) → after_numeral rest →
  sscanf_lu_c (numeral (d :: ds) ++ rest) =
    match rest with
    | [] => Scanned1 (Z.min (value (d :: ds)) ULONG_MAX)
    | c :: _ => Scanned2 (Z.min (value (d :: ds)) ULONG_MAX) c
    end.
Proof. intros Hd Hr. unfold sscanf_lu_c. rewrite scan_lu_numeral by done. by destruct rest. Qed.

(** The units of the help text: K, M, G, T and m, h, d. *)
Definition rate_unit (c : Z) : option Z :=
  if (c =? 75) || (c =? 107) then Some (10 ^ 3)
  else if (c =? 77) || (c =? 109) then Some (10 ^ 6)
  else if (c =? 71) || (c =? 103) then Some (10 ^ 9)
  else if (c =? 84) || (c =? 116) then Some (10 ^ 12)
  else None.

Definition time_unit (c : Z) : option Z :=
  if (c =? 109) || (c =? 77) then Some 60
  else if (c =? 104) || (c =? 72) then Some 3600
  else if (c =? 100) || (c =? 68) then Some 86400
  else None.

Lemma rate_multiplier_unit c : rate_multiplier c = rate_unit c.
Proof.
  unfold rate_multiplier, rate_unit.
  repeat match goal with |- context [?x =? ?k] => destruct (Z.eqb_spec x k) end;
    cbn [orb]; reflexivity || (exfalso; lia).
Qed.

Lemma time_multiplier_unit c : time_multiplier c = time_unit c.
Proof.
  unfold time_multiplier, time_unit.
  repeat match goal with |- context [?x =? ?k] => destruct (Z.eqb_spec x k) end;
    cbn [orb]; reflexivity || (exfalso; lia).
Qed.

(** ** Ranges *)

Lemma parseRate_range s v : parseRate s = PARSE_SUFFIX_OK v → in_u 64 v.
Proof.
  unfold parseRate. repeat case_match; intros; simplify_eq; by apply wrapu_range.
Qed.

Definition options_ok (o : client_options) : Prop :=
  in_u 64 (opt_packet_rate o) ∧ in_u 64 (opt_byte_rate o).

Lemma parse_options_ok items o o' :
  options_ok o → parse_options items o = inr o' → options_ok o'.
Proof.
  unfold options_ok. revert o; induction items as [|it items IH]; intros o Ho; simpl;
    [by intros [= <-]|].
  destruct it; try done; try (apply IH; by destruct o);
    [destruct (parseRate optarg) as [v| |] eqn:Hp|destruct (parseRate optarg) as [v| |] eqn:Hp|
     destruct (parseTime optarg) as [v| |] eqn:Hp]; try done; apply IH; simpl.
  - split; [by apply parseRate_range in Hp|apply Ho].
  - apply parseRate_range in Hp. split; [apply Ho|]. unfold in_u in *.
    split; [apply Z.div_pos; lia|]. apply Z.div_lt_upper_bound; lia.
  - done.
Qed.

Lemma client_request_ok o : options_ok o → req_ok (client_request o).
Proof.
  intros [Hp Hb]. unfold req_ok, limit_ok, client_request.
  cbn [req_length req_type req_limit req_flags byte_rate packet_rate].
  assert (in_u 64 RATE_UNLIMITED) as Hu by (vm_compute; split; [discriminate|reflexivity]).
  split; [by vm_compute; split|]. split; [by vm_compute; split|]. split; [split|].
  - destruct (opt_byte_rate o =? 0); done.
  - destruct (opt_packet_rate o =? 0); done.
  - destruct (opt_wait_time o <? 0); by vm_compute; split.
Qed.

(** ** Claims *)

(** Rates and times are read as the help text says: a numeral followed by
    nothing or by one of the units stands for the number times the unit,
    provided it fits ([2 ^ 64] for rates, [2 ^ 63] seconds for times), and any
    other character after the numeral is refused. (What follows the unit is
    ignored.) *)
Theorem numerals_parsed d ds rest :
  Forall digit (d :: ds) → after_numeral rest →
  let n := value (d :: ds) in
  let s := numeral (d :: ds) ++ rest in
  (match (match rest with [] => Some 1 | c :: _ => rate_unit c end) with
   | None => parseRate s = PARSE_SUFFIX_INVALID_SUFFIX
   | Some k => n * k < 2 ^ 64 → parseRate s = PARSE_SUFFIX_OK (n * k)
   end) ∧
  (match (match rest with [] => Some 1 | c :: _ => time_unit c end) with
   | None => n < 2 ^ 63 → parseTime s = PARSE_SUFFIX_INVALID_SUFFIX
   | Some k => n * k < 2 ^ 63 → parseTime s = PARSE_SUFFIX_OK (n * k)
   end).
Proof.
  intros Hd Hr n s. pose proof (sscanf_numeral d ds rest Hd Hr) as Hs.
  pose proof (value_nonneg (d :: ds) 0 Hd ltac:(done)) as Hn. fold (value (d :: ds)) in Hn.
  unfold parseRate, parseTime. subst s n. rewrite Hs.
  set (n := value (d :: ds)) in *. unfold ULONG_MAX.
  assert (∀ x, 0 <= x < 2 ^ 64 → u64 x = x) as Hu by (intros; by apply wrapu_small).
  assert (∀ x, 0 <= x < 2 ^ 63 → s64 x = x) as Hs64.
  { intros x Hx. unfold wraps. rewrite Z.mod_small; lia. }
  assert (∀ c k, rate_unit c = Some k ∨ time_unit c = Some k → 1 <= k) as Hk.
  { intros c k. unfold rate_unit, time_unit. repeat case_match; intros [|]; simplify_eq; lia. }
  destruct rest as [|c rest].
  - split; intros Hlt; rewrite Z.min_l by lia; rewrite ?Z.mul_1_r in *.
    + by rewrite Hu.
    + rewrite Hs64 by lia. rewrite (proj2 (Z.ltb_ge _ _)) by lia. rewrite ?Z.mul_1_r, Hu by lia.
      by rewrite Hs64.
  - rewrite rate_multiplier_unit, time_multiplier_unit. split.
    + destruct (rate_unit c) as [k|] eqn:E; [|done]. intros Hlt. specialize (Hk c k (or_introl E)).
      rewrite Z.min_l by nia. rewrite Hu; [done|nia].
    + destruct (time_unit c) as [k|] eqn:E.
      * intros Hlt. specialize (Hk c k (or_intror E)). rewrite Z.min_l by nia.
        rewrite Hs64 by nia. rewrite (proj2 (Z.ltb_ge _ _)) by lia.
        rewrite Hu by nia. rewrite Hs64; [done|nia].
      * intros Hlt. rewrite Z.min_l by lia. rewrite Hs64 by lia. by rewrite (proj2 (Z.ltb_ge _ _)) by lia.
Qed.

(** "10M" *)
Lemma numerals_parsed_witness :
  Forall digit [1; 0] ∧ parseRate [49; 48; 77] = PARSE_SUFFIX_OK 10000000.
Proof.
  assert (Forall digit [1; 0]) as Hd by (repeat constructor; unfold digit; lia).
  split; [exact Hd|].
  destruct (numerals_parsed 1 [0] [77] Hd eq_refl) as [H _]. apply H. vm_compute. reflexivity.
Defined.

(** ** What options ask for *)

(** The argument of the option for the packet rate, and of that for the bit
    rate. *)
Definition packet_arg (it : option_item) : option (list Z) :=
  match it with OptPacketRate s => Some s | _ => None end.
Definition bit_arg (it : option_item) : option (list Z) :=
  match it with OptBitRate s => Some s | _ => None end.

(** The text [s] says [v] as the help text has it: a decimal numeral, alone or
    with one of the letters K, M, G, T, and [v] is less than [2 ^ 64]. *)
Definition says (s : list Z) (v : Z) : Prop :=
  ∃ d ds unit k, Forall digit (d :: ds) ∧ s = numeral (d :: ds) ++ unit ∧
    (unit = [] ∧ k = 1 ∨ ∃ c, unit = [c] ∧ rate_unit c = Some k) ∧
    v = value (d :: ds) * k ∧ v < 2 ^ 64.

(** The last option of a kind counts; no option is a rate of 0. *)
Definition asks_rate (arg : option_item → option (list Z)) (items : list option_item) (v : Z) : Prop :=
  match last (omap arg items) with Some s => says s v | None => v = 0 end.

Lemma rate_unit_not_digit c k : rate_unit c = Some k → isdigit c = false.
Proof.
  unfold rate_unit, isdigit.
  repeat match goal with |- context [?x =? ?n] => destruct (Z.eqb_spec x n) as [->|] end; done.
Qed.

Lemma says_parsed s v : says s v → parseRate s = PARSE_SUFFIX_OK v.
Proof.
  intros (d & ds & unit & k & Hd & -> & Hu & -> & Hv).
  destruct (numerals_parsed d ds unit Hd) as [H _].
  - destruct Hu as [[-> _]|(c & -> & Hc)]; [done|]. by eapply rate_unit_not_digit.
  - destruct Hu as [[-> ->]|(c & -> & Hc)]; [by apply H|]. rewrite Hc in H. by apply H.
Qed.

(** What the loop over the options makes of the two rates. *)
Lemma parse_options_rates items : ∀ o o',
  parse_options items o = inr o' →
  match last (omap packet_arg items) with
  | Some s => parseRate s = PARSE_SUFFIX_OK (opt_packet_rate o')
  | None => opt_packet_rate o' = opt_packet_rate o
  end ∧
  match last (omap bit_arg items) with
  | Some s => ∃ v, parseRate s = PARSE_SUFFIX_OK v ∧ opt_byte_rate o' = v / 8
  | None => opt_byte_rate o' = opt_byte_rate o
  end.
Proof.
  induction items as [|it items IH]; intros o o'; cbn [parse_options]; [by intros [= <-]|].
  destruct it as [s|s|s|s| | |]; try done; try (apply IH).
  - change (omap packet_arg (OptPacketRate s :: items)) with (s :: omap packet_arg items).
    destruct (parseRate s) as [v| |] eqn:Hs; [|done..]. intros [H1 H2]%IH. split; [|exact H2].
    rewrite last_cons. destruct (last (omap packet_arg items)); [done|]. by rewrite H1.
  - change (omap bit_arg (OptBitRate s :: items)) with (s :: omap bit_arg items).
    destruct (parseRate s) as [v| |] eqn:Hs; [|done..]. intros [H1 H2]%IH. split; [exact H1|].
    rewrite last_cons. destruct (last (omap bit_arg items)); [done|]. by exists v.
  - destruct (parseTime s) as [v| |] eqn:Hs; [|done..]. intros [H1 H2]%IH. split; [exact H1|exact H2].
  - intros [H1 H2]%IH. split; [exact H1|exact H2].
  - intros [H1 H2]%IH. split; [exact H1|exact H2].
Qed.

(** C32. The daemon reads what the client was asked for: whatever options the
    client accepts, its request arrives as a limit whose rates fit and are not
    zero (a zero rate would block the cgroup). If the last option for each of
    the two rates says a number as the help text has it, with its unit and
    less than [2 ^ 64], the limit has that packet rate and an eighth of that
    bit rate, rounded down; where there is no such option, or the rate is zero
    (or less than 8 bits per second), it has RATE_UNLIMITED, [2 ^ 64 - 1]. *)
Theorem request_understood items o :
  parse_options items default_options = inr o →
  ∃ l, read_request 32 (encode_req (client_request o)) = ReqLimit l ∧
    limit_ok l ∧ byte_rate l ≠ 0 ∧ packet_rate l ≠ 0 ∧
    (∀ v, asks_rate packet_arg items v → packet_rate l = if v =? 0 then 2 ^ 64 - 1 else v) ∧
    (∀ v, asks_rate bit_arg items v → byte_rate l = if v <? 8 then 2 ^ 64 - 1 else v / 8).
Proof.
  intros Hp. exists (req_limit (client_request o)). assert (options_ok o) as Ho.
  { eapply parse_options_ok; [|exact Hp]. by vm_compute; repeat split. }
  pose proof (client_request_ok _ Ho) as Hok. destruct (parse_options_rates _ _ _ Hp) as [Hpk Hbt].
  assert (decode_req (encode_req (client_request o)) = client_request o) as Hde
    by (rewrite <-(app_nil_r (encode_req _)); by apply decode_encode_req).
  assert (field 0 4 (encode_req (client_request o)) = 32) as Hlen.
  { change (req_length (decode_req (encode_req (client_request o))) = 32). by rewrite Hde. }
  split_and!.
  - unfold read_request. change (32 <? 0) with false. change (32 =? 0) with false.
    cbn [Z.of_nat MSG_SIZE REQ_ATTR_SIZE]. rewrite Hlen. simpl Z.ltb. by rewrite Hde.
  - apply Hok.
  - simpl. destruct (Z.eqb_spec (opt_byte_rate o) 0); [by vm_compute|done].
  - simpl. destruct (Z.eqb_spec (opt_packet_rate o) 0); [by vm_compute|done].
  - unfold asks_rate. intros v Hv. cbn [client_request req_limit packet_rate].
    assert (opt_packet_rate o = v) as ->; [|done].
    destruct (last (omap packet_arg items)) as [s|]; [|by subst].
    apply says_parsed in Hv. congruence.
  - unfold asks_rate. intros v Hv. cbn [client_request req_limit byte_rate].
    assert (opt_byte_rate o = v / 8 ∧ 0 <= v) as [-> Hpos].
    { destruct (last (omap bit_arg items)) as [s|]; [|by subst].
      apply says_parsed in Hv. destruct Hbt as (v' & Hs & ->).
      assert (v' = v) as -> by congruence. split; [done|]. apply parseRate_range in Hv. apply Hv. }
    destruct (Z.ltb_spec v 8) as [Hlt|Hge].
    + by rewrite Z.div_small by lia.
    + assert (1 <= v / 8) by (apply Z.div_le_lower_bound; lia).
      by rewrite (proj2 (Z.eqb_neq _ _)) by lia.
Qed.

(** "-b 8M -w 1h" *)
Lemma request_understood_witness :
  ∃ o l, parse_options [OptBitRate [56; 77]; OptWait [49; 104]] default_options = inr o ∧
    read_request 32 (encode_req (client_request o)) = ReqLimit l ∧
    byte_rate l = 1000000 ∧ packet_rate l = 2 ^ 64 - 1.
Proof.
  destruct (parse_options [OptBitRate [56; 77]; OptWait [49; 104]] default_options) as [?|o] eqn:E;
    [vm_compute in E; discriminate|].
  destruct (request_understood _ o E) as (l & Hl & _ & _ & _ & Hp & Hb).
  exists o, l. split; [reflexivity|]. split; [exact Hl|]. split.
  - apply (Hb 8000000). exists 8, [], [77], (10 ^ 6).
    split; [repeat constructor; unfold digit; lia|]. split; [reflexivity|].
    split; [right; exists 77; split; reflexivity|]. split; [reflexivity|vm_compute; reflexivity].
  - apply (Hp 0). reflexivity.
Defined.

Lemma until_zero_id s : Forall (λ c, c ≠ 0) s → until_zero s = s.
Proof.
  induction 1 as [|c s Hc _ IH]; [done|]. simpl. by rewrite (proj2 (Z.eqb_neq _ _) Hc), IH.
Qed.

Lemma reason_texts code :
  (code = 1 → reason_text (fail_reason code) = "no enough resource"%string) ∧
  (code = 2 → reason_text (fail_reason code) = "internal error"%string) ∧
  (code = 3 → reason_text (fail_reason code) = "too many rate limited tasks"%string) ∧
  (code < 1 ∨ 3 < code → reason_text (fail_reason code) = "reason unknown"%string).
Proof.
  unfold fail_reason, RATE_LIMIT_FAIL_WILL_WAIT, RATE_LIMIT_FAIL_INTERNAL, RATE_LIMIT_FAIL_NORESOURCE.
  split_and!; [by intros ->..|]. intros H. by rewrite !(proj2 (Z.eqb_neq _ _)) by lia.
Qed.

(** C33. The client understands the daemon's replies: of the failure codes, 1
    (WILL_WAIT) is told to the user as "no enough resource", 2 (INTERNAL) as
    "internal error", 3 (NORESOURCE) as "too many rate limited tasks" and every
    other one, YOUR_ERROR among them, as "reason unknown"; PROCEED is
    permission to start, and a log text (of less than 2 GB, without zero
    bytes) is printed in full. *)
Theorem replies_understood code text :
  in_u 32 code → Forall (λ c, c ≠ 0) text → Z.of_nat (length text) < 2 ^ 31 - 8 →
  (∃ bs t, rate_limit_msg RATE_LIMIT_FAIL code = inr bs ∧ client_reply bs = ReplyFail t ∧
    (code = 1 → reason_text t = "no enough resource"%string) ∧
    (code = 2 → reason_text t = "internal error"%string) ∧
    (code = 3 → reason_text t = "too many rate limited tasks"%string) ∧
    (code < 1 ∨ 3 < code → reason_text t = "reason unknown"%string)) ∧
  (∃ bs, rate_limit_msg RATE_LIMIT_PROCEED code = inr bs ∧ client_reply bs = ReplyProceed) ∧
  client_reply (rate_limit_log text) = ReplyLog text.
Proof.
  intros Hc Ht Hl. split_and!.
  - eexists _, (fail_reason code). split; [reflexivity|]. split; [|by split_and!; try apply reason_texts].
    unfold client_reply. rewrite !length_app, !length_le. cbn [Nat.add Z.of_nat].
    rewrite field_here, (field_skip 4 _ 0), field_here, (field_skip 4 _ 4), (field_skip 4 _ 0).
    rewrite <-(app_nil_r (le 4 code)), field_here, (Z.mod_small code) by (unfold in_u in Hc; simpl; lia).
    reflexivity.
  - eexists. split; reflexivity.
  - unfold client_reply, rate_limit_log. rewrite !length_app, !length_le, field_here.
    rewrite (field_skip 4 _ 0), field_here.
    set (n := Z.of_nat (length text)) in *.
    replace (Z.of_nat (4 + (4 + length text))) with (n + 8) by lia.
    replace (Z.of_nat (length text + MSG_SIZE)) with (n + 8) by (unfold MSG_SIZE; lia).
    unfold MSG_SIZE. rewrite (proj2 (Z.ltb_ge (n + 8) _)) by lia.
    rewrite (Z.mod_small (n + 8)) by (simpl; lia).
    rewrite Z.ltb_irrefl. change (RATE_LIMIT_LOG mod 2 ^ (8 * Z.of_nat 4)) with RATE_LIMIT_LOG.
    change (RATE_LIMIT_LOG =? RATE_LIMIT_FAIL) with false. rewrite Z.eqb_refl.
    replace (n + 8 - Z.of_nat 8) with n by lia.
    rewrite (wrapu_small 64) by (unfold in_u; lia).
    assert (s32 n = n) as -> by (unfold wraps; rewrite Z.mod_small; lia).
    rewrite (proj2 (Z.ltb_ge _ _)) by lia. f_equal.
    assert (drop 8 (le 4 (n + 8) ++ le 4 RATE_LIMIT_LOG ++ text) = text) as ->.
    { rewrite (assoc_L (++)). apply drop_app_length'. by rewrite length_app, !length_le. }
    subst n. rewrite Nat2Z.id, firstn_all. by apply until_zero_id.
Qed.

(** "hi" *)
Lemma replies_understood_witness :
  (∃ bs t, rate_limit_msg RATE_LIMIT_FAIL RATE_LIMIT_FAIL_NORESOURCE = inr bs ∧
     client_reply bs = ReplyFail t ∧ reason_text t = "too many rate limited tasks"%string) ∧
  client_reply (rate_limit_log [104; 105]) = ReplyLog [104; 105].
Proof.
  destruct (replies_understood RATE_LIMIT_FAIL_NORESOURCE [104; 105]) as ((bs & t & H1 & H2 & _ & _ & H4 & _) & _ & H3);
    [by vm_compute; split|repeat constructor; discriminate|vm_compute; reflexivity|].
  split; [exists bs, t; split; [exact H1|]; split; [exact H2|apply H4; reflexivity]|exact H3].
Defined.

(** An iteration of the loop that goes round: a wait cut short by a signal, a
    packet that was not there after all, or a log message. *)
Definition goes_on (wait_time : Z) (it : recv_iter) : Prop :=
  (it_peek it = - EINTR ∧ (wait_time <= 0 ∨ it_alarm it = false)) ∨
  (0 < it_peek it ∧
   ((it_recv it = inl (- EINTR) ∧ (wait_time <= 0 ∨ it_alarm it = false)) ∨
    it_recv it = inl (- EWOULDBLOCK) ∨
    ∃ buf text, it_recv it = inr buf ∧ client_reply buf = ReplyLog text)).

Lemma alarm_goes_on wait_time b :
  (0 <? wait_time) && b = false → wait_time <= 0 ∨ b = false.
Proof. destruct (Z.ltb_spec 0 wait_time); destruct b; simpl; auto with lia. Qed.

(** The command is started only on the daemon's word: the client leaves
    its loop towards execvp exactly at the first packet that says PROCEED,
    after nothing but interruptions before the time limit, spurious wake-ups
    and log messages. *)
Theorem exec_only_after_proceed wait_time its log :
  recv_loop wait_time its = (RecvExec, log) →
  ∃ before it after buf, its = before ++ it :: after ∧ Forall (goes_on wait_time) before ∧
    0 < it_peek it ∧ it_recv it = inr buf ∧ client_reply buf = ReplyProceed.
Proof.
  revert log; induction its as [|it its IH]; intros log; [done|]. simpl.
  assert (∀ log', recv_loop wait_time its = (RecvExec, log') → goes_on wait_time it →
    ∃ before it0 after buf, it :: its = before ++ it0 :: after ∧ Forall (goes_on wait_time) before ∧
      0 < it_peek it0 ∧ it_recv it0 = inr buf ∧ client_reply buf = ReplyProceed) as Hgo.
  { intros log' Hlog Hg. destruct (IH _ Hlog) as (b & it0 & af & buf & -> & Hb & Hrest).
    exists (it :: b), it0, af, buf. split_and!; [done|by constructor|by apply Hrest..]. }
  assert (∀ log', (if (0 <? wait_time) && it_alarm it then (RecvExit 1, []) else recv_loop wait_time its) =
      (RecvExec, log') → recv_loop wait_time its = (RecvExec, log') ∧
      (wait_time <= 0 ∨ it_alarm it = false)) as Hint.
  { intros log'. destruct ((0 <? wait_time) && it_alarm it) eqn:E; [done|]. intros H. split; [done|].
    by apply alarm_goes_on. }
  destruct (Z.ltb_spec (it_peek it) 0) as [Hp|Hp].
  { destruct (Z.eqb_spec (it_peek it) (- EINTR)); [|done]. intros H.
    destruct (Hint _ H) as [Hl Ha]. eapply Hgo; [done|]. by left. }
  destruct (Z.eqb_spec (it_peek it) 0) as [|Hp0]; [done|]. assert (0 < it_peek it) as Hpos by lia.
  destruct (it_recv it) as [e|[|c buf]] eqn:Hr; [|done|].
  - destruct (Z.eqb_spec e (- EINTR)) as [->|].
    + intros H. destruct (Hint _ H) as [Hl Ha]. eapply Hgo; [done|]. right. rewrite Hr. auto.
    + destruct (Z.eqb_spec e (- EWOULDBLOCK)) as [->|]; [|done]. intros H.
      eapply Hgo; [done|]. right. rewrite Hr. auto.
  - destruct (client_reply (c :: buf)) as [| |text| |] eqn:Hc; try done.
    + destruct (recv_loop wait_time its) as [r log1] eqn:Hl. intros [= -> <-].
      eapply Hgo; [done|]. right. rewrite Hr. eauto 10.
    + intros _. by exists [], it, its, (c :: buf).
Qed.

(** A log message, a spurious wake-up, PROCEED. *)
Lemma exec_only_after_proceed_witness :
  ∃ before it after buf,
    [mk_iter 10 (inr (rate_limit_log [104; 105])) false; mk_iter 8 (inl (- EWOULDBLOCK)) false;
     mk_iter 8 (inr [8; 0; 0; 0; 3; 0; 0; 0]) false] = before ++ it :: after ∧
    it_recv it = inr buf ∧ client_reply buf = ReplyProceed.
Proof.
  destruct (exec_only_after_proceed 60
    [mk_iter 10 (inr (rate_limit_log [104; 105])) false; mk_iter 8 (inl (- EWOULDBLOCK)) false;
     mk_iter 8 (inr [8; 0; 0; 0; 3; 0; 0; 0]) false] [[104; 105]])
    as (b & it & af & buf & H & _ & _ & Hr & Hc); [vm_compute; reflexivity|].
  exists b, it, af, buf. split; [exact H|]. split; [exact Hr|exact Hc].
Defined.

(** ** The daemon's word

    Packets by their header, as protocol.h has it: 4 bytes of length and 4
    bytes of type, 2 for a log message and 3 for permission to proceed. *)
Definition packet_of (type : Z) (buf : list Z) : Prop :=
  (8 <= length buf)%nat ∧ field 4 4 buf = type.

(** A log message whose text lies in the packet. *)
Definition readable_log (buf : list Z) : Prop :=
  packet_of 2 buf ∧ 8 <= field 0 4 buf ∧ Z.of_nat (length buf) < 2 ^ 31.

(** What does not end the wait: a signal that is not the alarm of a limited
    wait, a packet that was not there after all, or a log message. *)
Definition patient (log : list Z → Prop) (wait_time : Z) (it : recv_iter) : Prop :=
  (it_peek it = -4 ∧ (wait_time <= 0 ∨ it_alarm it = false)) ∨
  (0 < it_peek it ∧
   ((it_recv it = inl (-4) ∧ (wait_time <= 0 ∨ it_alarm it = false)) ∨
    it_recv it = inl (-11) ∨ ∃ buf, it_recv it = inr buf ∧ log buf)).

(** After nothing but that, permission to proceed arrives. *)
Definition proceeds (log : list Z → Prop) (wait_time : Z) (its : list recv_iter) : Prop :=
  ∃ before it after buf, its = before ++ it :: after ∧ Forall (patient log wait_time) before ∧
    0 < it_peek it ∧ it_recv it = inr buf ∧ packet_of 3 buf.

Lemma reply_log_packet buf text : client_reply buf = ReplyLog text → packet_of 2 buf.
Proof.
  unfold client_reply, packet_of. change (Z.of_nat MSG_SIZE) with 8. destruct (Z.ltb_spec (Z.of_nat (length buf)) 8); [done|].
  destruct (_ =? RATE_LIMIT_FAIL); [by case_match|].
  destruct (Z.eqb_spec (field 4 4 buf) RATE_LIMIT_LOG) as [E|]; [|by case_match].
  intros _. split; [lia|exact E].
Qed.

Lemma reply_proceed_packet buf : client_reply buf = ReplyProceed ↔ packet_of 3 buf.
Proof.
  unfold client_reply, packet_of. change (Z.of_nat MSG_SIZE) with 8. destruct (Z.ltb_spec (Z.of_nat (length buf)) 8) as [H|H].
  { split; [done|lia]. }
  destruct (Z.eqb_spec (field 4 4 buf) RATE_LIMIT_FAIL) as [E|_].
  { rewrite E. split; [by case_match|by intros []]. }
  destruct (Z.eqb_spec (field 4 4 buf) RATE_LIMIT_LOG) as [E|_].
  { rewrite E. split; [by case_match|by intros []]. }
  destruct (Z.eqb_spec (field 4 4 buf) RATE_LIMIT_PROCEED) as [E|E].
  - split; [|done]. intros _. split; [lia|exact E].
  - split; [done|]. intros [_ E']. by destruct E.
Qed.

Lemma readable_log_reply buf : readable_log buf → ∃ text, client_reply buf = ReplyLog text.
Proof.
  intros ([H1 H2] & H3 & H4). unfold client_reply. change (Z.of_nat MSG_SIZE) with 8. rewrite H2.
  rewrite (proj2 (Z.ltb_ge _ _)) by lia. change (2 =? RATE_LIMIT_FAIL) with false.
  change (2 =? RATE_LIMIT_LOG) with true. cbn [Z.of_nat].
  set (len := if field 0 4 buf <? Z.of_nat (length buf) then field 0 4 buf else Z.of_nat (length buf)).
  assert (8 <= len < 2 ^ 31) as Hl.
  { unfold len. destruct (Z.ltb_spec (field 0 4 buf) (Z.of_nat (length buf))); lia. }
  rewrite wrapu_small by (unfold in_u; lia).
  assert (s32 (len - 8) = len - 8) as -> by (unfold wraps; rewrite Z.mod_small; lia).
  rewrite (proj2 (Z.ltb_ge _ _)) by lia. by eexists.
Qed.

(** The loop ends in the command only on the daemon's word. *)
Lemma exec_proceeds wait_time its log :
  recv_loop wait_time its = (RecvExec, log) → proceeds (packet_of 2) wait_time its.
Proof.
  intros (before & it & after & buf & -> & Hb & Hp & Hr & Hc)%exec_only_after_proceed.
  exists before, it, after, buf. split_and!; [done| |done|done|by apply reply_proceed_packet].
  eapply Forall_impl; [exact Hb|]. intros x [?|(? & [?|[?|(b & t & ? & Ht)]])]; [by left|right..]; (split; [done|]).
  - by left.
  - by right; left.
  - right. right. exists b. split; [done|]. by eapply reply_log_packet.
Qed.

(** And on the daemon's word it does. *)
Lemma proceeds_exec wait_time its :
  proceeds readable_log wait_time its → ∃ log, recv_loop wait_time its = (RecvExec, log).
Proof.
  intros (before & it & after & buf & -> & Hb & Hp & Hr & Hc%reply_proceed_packet).
  induction Hb as [|x before Hx _ [log IH]]; cbn [app recv_loop].
  - rewrite (proj2 (Z.ltb_ge _ _)), (proj2 (Z.eqb_neq _ _)) by lia. rewrite Hr.
    destruct buf; [done|]. rewrite Hc. by eexists.
  - assert ((wait_time <= 0 ∨ it_alarm x = false) → (0 <? wait_time) && it_alarm x = false) as Ha.
    { intros [?| ->]; [by rewrite (proj2 (Z.ltb_ge _ _)) by lia|apply andb_false_r]. }
    destruct Hx as [[Hx Hal]|(Hx & Hrest)].
    { rewrite Hx. change (-4 <? 0) with true. change (-4 =? - EINTR) with true. rewrite Ha by done. by exists log. }
    rewrite (proj2 (Z.ltb_ge _ _)), (proj2 (Z.eqb_neq _ _)) by lia.
    destruct Hrest as [[Hrx Hal]|[Hrx|(b & Hrx & Hlog)]]; rewrite Hrx.
    + change (-4 =? - EINTR) with true. rewrite Ha by done. by exists log.
    + change (-11 =? - EINTR) with false. change (-11 =? - EWOULDBLOCK) with true. by exists log.
    + destruct (readable_log_reply b Hlog) as [text Ht].
      destruct b as [|z b]; [destruct Hlog as [[H _] _]; simpl in H; lia|]. rewrite Ht, IH. by eexists.
Qed.

(** Rates that do not come out as asked for: below 8 bit/s the byte rate
    is rounded to 0 and the limit becomes no limit at all; a number and unit
    whose product exceeds [2 ^ 64] wraps around to a small rate (here
    18446744073709552K gives 384 bit/s); a negative number is taken as a huge
    one ("-1" is no packet limit); what follows the unit is ignored. *)
Theorem odd_rates :
  (∀ o v, parse_options [OptBitRate [48 + v]] default_options = inr o → 0 <= v < 8 →
    byte_rate (req_limit (client_request o)) = RATE_UNLIMITED) ∧
  parseRate (numeral [1;8;4;4;6;7;4;4;0;7;3;7;0;9;5;5;2] ++ [75]) = PARSE_SUFFIX_OK 384 ∧
  parseRate [45; 49] = PARSE_SUFFIX_OK RATE_UNLIMITED ∧
  parseRate ([49; 75] ++ [106; 117; 110; 107]) = PARSE_SUFFIX_OK 1000.
Proof.
  split_and!; [|vm_compute; reflexivity..].
  intros o v Hp Hv. assert (v = 0 ∨ v = 1 ∨ v = 2 ∨ v = 3 ∨ v = 4 ∨ v = 5 ∨ v = 6 ∨ v = 7) as H by lia.
  destruct H as [->|[->|[->|[->|[->|[->|[->| ->]]]]]]]; vm_compute in Hp; injection Hp as <-; reflexivity.
Qed.

(** The wait flag is the wrong way round: the help text says that
    WAIT_TIME 0 fails immediately when there is no resource and that the
    default is to wait for ever; the request carries RATE_LIMIT_REQ_NOWAIT
    exactly if the client would wait for ever. *)
Theorem nowait_flag_inverted o :
  (req_flags (client_request o) = RATE_LIMIT_REQ_NOWAIT ↔ opt_wait_time o < 0) ∧
  req_flags (client_request default_options) = RATE_LIMIT_REQ_NOWAIT ∧
  (∃ o0, parse_options [OptWait [48]] default_options = inr o0 ∧ req_flags (client_request o0) = 0).
Proof.
  split_and!; [|reflexivity|eexists; split; vm_compute; reflexivity].
  unfold client_request. cbn [req_flags]. destruct (Z.ltb_spec (opt_wait_time o) 0).
  - split; [done|reflexivity].
  - split; [discriminate|lia].
Qed.
