(* ===== verification/ClientMain.v ===== *)
(** * The client's main function (src/client.c)

    [main] from the options to the command, as a program over its system
    calls; the options, the request and the receive loop are those of
    [Client]. *)

From S2P Require Import Prelude RateLimit Protocol Client Effects.

#[local] Open Scope Z_scope.

(** sizeof(sun_path). *)
Definition SUN_PATH_SIZE : nat := 108.

(** What connect(2) finds in [sun_path]: the name up to a zero byte. The struct
    is not initialised and strncpy is given one byte less than its size, so a
    long name is cut and followed by whatever is in the last byte. *)
Definition sun_path (junk : Z) (s : list Z) : list Z :=
  if (length s <? SUN_PATH_SIZE - 1)%nat then s
  else take (SUN_PATH_SIZE - 1) s ++ (if junk =? 0 then [] else [junk]).

Inductive client_io : Type → Type :=
  | Socket : client_io Z
  | Connect (path : list Z) : client_io Z
  | Sleep (seconds : Z) : client_io unit
  | Fork : client_io Z
  | Send (bs : list Z) : client_io Z
  | SigactionAlrm : client_io Z
  | Alarm (seconds : Z) : client_io unit
  | RecvLoop : client_io (list recv_iter)     (* what the two recv of each iteration give *)
  | SignalDfl : client_io bool                (* not SIG_ERR *)
  | Execvp (argv : list (list Z)) : client_io bool.   (* false: it returned *)

(** How the client ends: with a status, as the command, as the child that
    prints for ever, or it waits for the daemon. *)
Inductive client_end : Type :=
  | Exit (status : Z) | Command | PrintingChild | Waiting | Overread.

(** The forks of the debugging option: [None] to go on. *)
Definition debug_forks : prog client_io (option client_end) :=
  ask (Sleep 1);;
  rc ← ask Fork;
  if rc <? 0 then mret (Some (Exit 1))
  else if rc =? 0 then
    rc ← ask Fork;
    if rc <? 0 then mret (Some (Exit 1))
    else if rc =? 0 then mret (Some PrintingChild)
    else mret (Some (Exit 0))
  else mret None.

(** From the reply that lets the command start. *)
Definition start_command (o : client_options) (argv : list (list Z)) : prog client_io client_end :=
  restored ← (if 0 <? opt_wait_time o then ask (Alarm 0);; ask SignalDfl else mret true);
  if negb restored then mret (Exit 1)
  else
    started ← ask (Execvp argv);
    mret (if (started : bool) then Command else Exit 1).

(** From the request on. *)
Definition request_and_wait (o : client_options) (argv : list (list Z)) : prog client_io client_end :=
  rc ← ask (Send (encode_req (client_request o)));
  if rc <? 0 then mret (Exit 1)
  else
    rc ← (if 0 <? opt_wait_time o then
            rc ← ask SigactionAlrm;
            if rc <? 0 then mret rc else ask (Alarm (u32 (opt_wait_time o)));; mret 0
          else mret 0);
    if rc <? 0 then mret (Exit 1)
    else
      its ← ask RecvLoop;
      match (recv_loop (opt_wait_time o) its).1 with
      | RecvExit status => mret (Exit status)
      | RecvWaiting => mret Waiting
      | RecvOverread => mret Overread
      | RecvExec => start_command o argv
      end.

(** [main] for the number of arguments, what getopt_long reports and the
    arguments it leaves. *)
Definition client_main (junk argc : Z) (items : list option_item) (argv : list (list Z))
  : prog client_io client_end :=
  if argc =? 1 then mret (Exit 0)
  else
    match parse_options items default_options with
    | inl status => mret (Exit status)
    | inr o =>
        match argv with
        | [] => mret (Exit 1)
        | _ =>
            fd ← ask Socket;
            if fd <? 0 then mret (Exit 1)
            else
              rc ← ask (Connect (sun_path junk (opt_control_socket o)));
              if rc <? 0 then mret (Exit 1)
              else
                early ← (if opt_debug_fork o then debug_forks else mret None);
                match early with
                | Some e => mret e
                | None => request_and_wait o argv
                end
        end
    end.

(** ** What a trace shows *)




Abbreviation any := (λ (B : Type) (_ : client_io B) (_ : B), True).












(** ** Properties *)


(** A daemon that sends a line for the log and then lets the command start. *)
Definition willing_daemon (n : nat) (B : Type) (q : client_io B) : B :=
  match q with
  | RecvLoop =>
      [mk_iter 10 (inr (rate_limit_log [104; 105])) false;
       mk_iter 8 (inr (default [] (match rate_limit_msg RATE_LIMIT_PROCEED 0 with inr b => Some b | _ => None end))) false]
  | Sleep _ | Alarm _ => tt
  | SignalDfl | Execvp _ => true
  | _ => 3
  end.


(** With an option for the wait, nine calls end in the command. *)
Example example_client :
  let run := exec willing_daemon 0 (client_main 0 4 [OptWait [53]] [[108; 115]]) in
  (run.2, length run.1) = (Some Command, 9%nat).
Proof. vm_compute. reflexivity. Qed.

(** ** What the code does not mean to do *)

(** A wait of 2 ^ 32 seconds sets no timer: alarm takes 32 bits. *)
Lemma long_wait_sets_no_timer : u32 (2 ^ 32) = 0.
Proof. reflexivity. Qed.

(** A name of 107 bytes or more is used with a byte that was never set. *)
Lemma long_path_reads_junk s j :
  (107 <= length s)%nat → j ≠ 0 → sun_path j s = take 107 s ++ [j].
Proof.
  intros Hs Hj. unfold sun_path, SUN_PATH_SIZE. rewrite (proj2 (Nat.ltb_ge _ _)) by lia.
  by rewrite (proj2 (Z.eqb_neq _ _)).
Qed.
