(* ===== verification/MsgStream.v ===== *)
(** * Message streams (src/se_libs.c, second part)

    A connection to a client as a coroutine uses it: the callbacks of the
    event loop, and reading and writing with a timeout. The state is the
    stream and what the scheduler knows of the coroutine that owns it; the
    results of system calls and of the event loop's calls are arguments. Calls
    that block the coroutine are cut where it is suspended in [s_event_wait]:
    [..._begin] up to there, [..._end] from there. *)

From S2P Require Import Prelude Protocol.

#[local] Open Scope Z_scope.

(** ** State *)

Definition EPOLLIN : Z := 1.
Definition EPOLLOUT : Z := 4.
Definition EPOLLERR : Z := 8.
Definition EPOLLHUP : Z := 16.

Inductive ms_state : Type := NOOP | WRITE | READ | ERR | END.

#[export] Instance ms_state_eq : EqDecision ms_state.
Proof. solve_decision. Defined.

(** What the event loop knows of an I/O source. *)
Record io_source : Type := mk_source { events : Z; enabled : bool }.

(** [struct msg_stream] without [event], [cred] and [event_loop], which the
    operations below do not change; [io_buf.buf] is what is in the buffer, and
    the timer is its timeout. [lost_timers] are armed timers the stream has no
    pointer to any more. *)
Record msg_stream : Type := mk_stream {
  ms_st : ms_state;
  source : option io_source;
  timer : option Z;
  lost_timers : nat;
  target_task : bool;      (* interrupt.target_task is set, to the owner *)
  reason : Z;
  io_buf : list Z;
  io_len : Z;
  error : Z;
}.

(** Where the owner is blocked. *)
Inductive place : Type := OnStream | Elsewhere.

#[export] Instance place_eq : EqDecision place.
Proof. solve_decision. Defined.

(** The owner, as [s_task_t] and [se_task_arg] have it. *)
Record owner : Type := mk_owner {
  blocked : option place;
  waiting_cancelled : bool;
  interrupt_disabled : bool;
  interrupt_reason : Z;
}.

Record session : Type := mk_session { strm : msg_stream; own : owner }.

Definition get_stream : ST session msg_stream := λ s, Some (strm s, s).
Definition upd (f : msg_stream → msg_stream) : ST session unit :=
  modify (λ s, mk_session (f (strm s)) (own s)).

Definition set_st (x : ms_state) (m : msg_stream) : msg_stream :=
  mk_stream x (source m) (timer m) (lost_timers m) (target_task m) (reason m) (io_buf m) (io_len m) (error m).
Definition set_source (x : option io_source) (m : msg_stream) : msg_stream :=
  mk_stream (ms_st m) x (timer m) (lost_timers m) (target_task m) (reason m) (io_buf m) (io_len m) (error m).
Definition set_timer (x : option Z) (m : msg_stream) : msg_stream :=
  mk_stream (ms_st m) (source m) x (lost_timers m) (target_task m) (reason m) (io_buf m) (io_len m) (error m).
Definition set_lost (n : nat) (m : msg_stream) : msg_stream :=
  mk_stream (ms_st m) (source m) (timer m) n (target_task m) (reason m) (io_buf m) (io_len m) (error m).
Definition set_interrupt (x : bool) (r : Z) (m : msg_stream) : msg_stream :=
  mk_stream (ms_st m) (source m) (timer m) (lost_timers m) x r (io_buf m) (io_len m) (error m).
Definition set_buf (b : list Z) (n : Z) (m : msg_stream) : msg_stream :=
  mk_stream (ms_st m) (source m) (timer m) (lost_timers m) (target_task m) (reason m) b n (error m).
Definition set_error (x : Z) (m : msg_stream) : msg_stream :=
  mk_stream (ms_st m) (source m) (timer m) (lost_timers m) (target_task m) (reason m) (io_buf m) (io_len m) x.

(** ** The calls into the scheduler and the event loop *)

(** [s_event_set] on the stream's event: only the owner waits for it. *)
Definition event_set : ST session unit := modify (λ s,
  match blocked (own s) with
  | Some OnStream => mk_session (strm s)
      (mk_owner None (waiting_cancelled (own s)) (interrupt_disabled (own s)) (interrupt_reason (own s)))
  | _ => s
  end).

(** [interrupt_task] on the owner: [s_task_cancel_wait] makes it runnable
    wherever it is blocked. *)
Definition interrupt_owner (r : Z) : ST session unit := modify (λ s,
  if interrupt_disabled (own s) then s
  else mk_session (strm s) (mk_owner None true false r)).

(** [sd_event_source_set_io_events] and [..._set_enabled(SD_EVENT_OFF)] with
    result [rc]; the source must be there. *)
Definition set_io_events (ev rc : Z) : ST session unit :=
  m ← get_stream;
  match source m with
  | None => fault
  | Some src => if rc <? 0 then mret tt else upd (set_source (Some (mk_source ev (enabled src))))
  end.

Definition source_off (rc : Z) : ST session unit :=
  m ← get_stream;
  match source m with
  | None => fault
  | Some src => if rc <? 0 then mret tt else upd (set_source (Some (mk_source (events src) false)))
  end.

(** [read] or [write] on the socket: the result, errno and the bytes read. *)
Record sys_io : Type := mk_io { io_rc : Z; io_errno : Z; io_bytes : list Z }.

(** ** The callbacks *)

(** The body of the branches of [msg_stream_handler] for input and output. *)
Definition handle_io (op : ms_state) (r : sys_io) (ev_rc : Z) : ST session unit :=
  m ← get_stream;
  if bool_decide (ms_st m = op) then
    let rc := if io_len m =? 0 then 0 else io_rc r in
    if (rc <? 0) && (io_errno r =? EAGAIN) then mret tt else
    upd (set_error (if rc <? 0 then - io_errno r else 0));;
    upd (set_buf (if bool_decide (op = READ) && (0 <? rc) then io_bytes r else io_buf m) (u64 rc));;
    upd (set_st NOOP);;
    event_set;;
    set_io_events 0 ev_rc;;
    if ev_rc <? 0 then upd (set_error ev_rc) else mret tt
  else mret tt.

Definition msg_stream_handler (revents : Z) (r : sys_io) (ev_rc off_rc : Z) : ST session unit :=
  upd (set_timer None);;
  if negb (Z.land revents EPOLLIN =? 0) then handle_io READ r ev_rc
  else if negb (Z.land revents EPOLLOUT =? 0) then handle_io WRITE r ev_rc
  else
    (if negb (Z.land revents EPOLLHUP =? 0)
     then upd (set_st END);; upd (set_error 0)
     else upd (set_st ERR);; upd (set_error (- EIO)));;
    source_off off_rc;;
    event_set;;
    m ← get_stream;
    if negb (bool_decide (ms_st m = WRITE)) && negb (bool_decide (ms_st m = READ)) then
      if target_task m then interrupt_owner (reason m) else mret tt
    else mret tt.

Definition io_timer_handler (ev_rc : Z) : ST session unit :=
  upd (set_st NOOP);;
  upd (set_error (- ETIMEDOUT));;
  set_io_events 0 ev_rc;;
  (if ev_rc <? 0 then upd (set_error ev_rc) else mret tt);;
  event_set;;
  upd (set_timer None).

Definition msg_stream_reg_interrupt (r : Z) : ST session unit :=
  if r =? 0 then upd (set_interrupt false 0) else upd (set_interrupt true r).

(** ** Reading and writing *)

(** Block the owner; [s_task_next] clears [waiting_cancelled]. *)
Definition wait_begin : ST session unit := modify (λ s,
  mk_session (strm s)
    (mk_owner (Some OnStream) false (interrupt_disabled (own s)) (interrupt_reason (own s)))).

(** What [s_event_wait] returns when the owner runs again. *)
Definition wait_end : ST session Z := λ s,
  let o := own s in
  match blocked o with
  | Some _ => None
  | None => Some (if waiting_cancelled o then -1 else 0,
      mk_session (strm s) (mk_owner None false (interrupt_disabled o) (interrupt_reason o)))
  end.

(** [sd_event_add_time_relative] writes the new timer over [stream->timer]. *)
Definition arm_timer (usec : Z) (m : msg_stream) : msg_stream :=
  set_timer (Some usec) (set_lost (match timer m with Some _ => S (lost_timers m) | None => lost_timers m end) m).

(** [Some rc] is a return, [None] that the coroutine is blocked. *)
Definition msg_stream_do_io_begin (op : ms_state) (buf : list Z) (size usec : Z) (timer_rc ev_rc : Z) :
    ST session (option Z) :=
  m ← get_stream;
  match source m with
  | None => fault
  | Some _ =>
      match ms_st m with
      | ERR => mret (Some (error m))
      | END => mret (Some (if bool_decide (op = READ) then 0 else - EPIPE))
      | _ =>
          upd (set_st op);;
          upd (set_buf buf size);;
          if negb (usec =? 0) && (timer_rc <? 0) then mret (Some timer_rc) else
          (if usec =? 0 then mret tt else upd (arm_timer usec));;
          set_io_events (if bool_decide (op = READ) then EPOLLIN else EPOLLOUT) ev_rc;;
          if ev_rc <? 0 then mret (Some ev_rc) else
          wait_begin;;
          mret None
      end
  end.

Definition msg_stream_do_io_end (ev_rc : Z) : ST session Z :=
  rc ← wait_end;
  if rc <? 0 then
    upd (set_timer None);;
    set_io_events 0 ev_rc;;
    upd (set_st NOOP);;
    mret (- EINTR)
  else
    m ← get_stream;
    mret (if error m <? 0 then error m else s64 (io_len m)).

Definition msg_stream_read_begin (buf : list Z) (size usec timer_rc ev_rc : Z) :=
  msg_stream_do_io_begin READ buf size usec timer_rc ev_rc.
Definition msg_stream_write_begin (buf : list Z) (size usec timer_rc ev_rc : Z) :=
  msg_stream_do_io_begin WRITE buf size usec timer_rc ev_rc.

(** ** Shutting down *)

(** The loop that drains the read buffer, for the results of [recv]: [None] if
    they do not end it, [Some rc] with [rc < 0] for an error. *)
Fixpoint drain (recvs : list (Z * Z)) : option Z :=
  match recvs with
  | [] => None
  | (rc, errno) :: recvs =>
      if rc =? 0 then Some 0
      else if rc <? 0 then
        if errno =? EWOULDBLOCK then Some 0
        else if errno =? EINTR then drain recvs
        else Some (- errno)
      else drain recvs
  end.

Definition shutdown_msg_stream_begin (recvs : list (Z * Z)) (ev_rc : Z) : ST session (option Z) :=
  m ← get_stream;
  match source m, drain recvs with
  | Some _, Some rc => if rc <? 0 then mret (Some rc) else msg_stream_write_begin [] 0 0 0 ev_rc
  | _, _ => fault
  end.

(** After the empty write: [off_rc], [fd] and [sd_rc] (with [errno]) are the
    results of disabling the source, of asking for the socket and of
    shutdown(2). *)
Definition shutdown_msg_stream_end (rc off_rc fd sd_rc errno : Z) : ST session Z :=
  if rc <? 0 then mret rc else
  source_off off_rc;;
  if off_rc <? 0 then mret off_rc else
  upd (set_timer None);;
  if fd <? 0 then mret fd else
  if sd_rc <? 0 then mret (- errno) else
  upd (set_source None);;
  m ← get_stream;
  (if bool_decide (ms_st m = ERR) then mret tt else upd (set_st END);; upd (set_error 0));;
  mret 0.

(** ** A stream and its owner over time

    The owner is running, inside an operation of the stream, or inside a wait
    for something else; callbacks of the event loop happen only while it is
    not running. The results of the calls into the event loop are part of the
    events. [failed] says that an operation returned before it was started,
    because the event loop refused its timer or its I/O events. *)

Inductive pc : Type := Runs | InIo (op : ms_state) | InOther.

Record config : Type := mk_config { sess : session; at_pc : pc; results : list Z; failed : bool }.

Inductive io_event : Type :=
  | Call (op : ms_state) (buf : list Z) (size usec : Z) (timer_rc ev_rc : Z)
  | WaitOther
  | RegInterrupt (r : Z)
  | Io (revents : Z) (r : sys_io) (ev_rc off_rc : Z)
  | Timeout (lost : bool) (ev_rc : Z)
  | Interrupt (r : Z)
  | OtherDone
  | Resume (ev_rc : Z).

(** epoll reports what was asked for, errors and hangups. *)
Definition may_report (src : io_source) (revents : Z) : bool :=
  enabled src && negb (revents =? 0) &&
  ((Z.land revents EPOLLIN =? 0) || negb (Z.land (events src) EPOLLIN =? 0)) &&
  ((Z.land revents EPOLLOUT =? 0) || negb (Z.land (events src) EPOLLOUT =? 0)).

Definition set_blocked (b : option place) (s : session) : session :=
  mk_session (strm s) (mk_owner b (waiting_cancelled (own s)) (interrupt_disabled (own s)) (interrupt_reason (own s))).

(** The stream has ended, or failed for good. *)
Definition closed (m : msg_stream) : bool :=
  bool_decide (ms_st m = ERR) || bool_decide (ms_st m = END).

(** The armed timer that goes off: a lost one, or the stream's. *)
Definition timer_fires (lost : bool) (m : msg_stream) : option msg_stream :=
  if lost then match lost_timers m with O => None | S n => Some (set_lost n m) end
  else match timer m with None => None | Some _ => Some m end.

Definition io_step (c : config) (e : io_event) : option config :=
  let s := sess c in
  match e, at_pc c with
  | Call op buf size usec timer_rc ev_rc, Runs =>
      if bool_decide (op = READ) || bool_decide (op = WRITE) then
        r ← msg_stream_do_io_begin op buf size usec timer_rc ev_rc s;
        match r with
        | (Some rc, s') => Some (mk_config s' Runs (rc :: results c) (failed c || negb (closed (strm s))))
        | (None, s') => Some (mk_config s' (InIo op) (results c) (failed c))
        end
      else None
  | RegInterrupt r, Runs =>
      x ← msg_stream_reg_interrupt r s; Some (mk_config x.2 Runs (results c) (failed c))
  | WaitOther, Runs =>
      Some (mk_config (mk_session (strm s) (mk_owner (Some Elsewhere) false
        (interrupt_disabled (own s)) (interrupt_reason (own s)))) InOther (results c) (failed c))
  | Resume ev_rc, InIo _ =>
      x ← msg_stream_do_io_end ev_rc s; Some (mk_config x.2 Runs (x.1 :: results c) (failed c))
  | Resume _, InOther => x ← wait_end s; Some (mk_config x.2 Runs (results c) (failed c))
  | Io revents r ev_rc off_rc, (InIo _ | InOther) =>
      src ← source (strm s);
      if may_report src revents then
        x ← msg_stream_handler revents r ev_rc off_rc s;
        Some (mk_config x.2 (at_pc c) (results c) (failed c))
      else None
  | Timeout lost ev_rc, (InIo _ | InOther) =>
      m ← timer_fires lost (strm s);
      x ← io_timer_handler ev_rc (mk_session m (own s));
      Some (mk_config x.2 (at_pc c) (results c) (failed c))
  | Interrupt r, (InIo _ | InOther) =>
      x ← interrupt_owner r s; Some (mk_config x.2 (at_pc c) (results c) (failed c))
  | OtherDone, InOther =>
      if bool_decide (blocked (own s) = Some Elsewhere)
      then Some (mk_config (set_blocked None s) InOther (results c) (failed c)) else None
  | _, _ => None
  end.

Fixpoint io_run (c : config) (es : list io_event) : option config :=
  match es with [] => Some c | e :: es => c' ← io_step c e; io_run c' es end.

(** ** The invariant *)

Definition mask (op : ms_state) : Z := if bool_decide (op = READ) then EPOLLIN else EPOLLOUT.

(** No operation, no timer. *)
Definition at_rest (m : msg_stream) : Prop :=
  timer m = None ∧ lost_timers m = 0%nat ∧ is_Some (source m) ∧ ms_st m ≠ READ ∧ ms_st m ≠ WRITE.

Definition in_progress (op : ms_state) (m : msg_stream) : Prop :=
  ms_st m = op ∧ (op = READ ∨ op = WRITE) ∧ ∃ b, source m = Some (mk_source (mask op) b).

Definition io_inv (c : config) : Prop :=
  let m := strm (sess c) in
  let o := own (sess c) in
  match at_pc c with
  | Runs => (failed c = false → at_rest m) ∧ blocked o = None ∧ waiting_cancelled o = false
  | InOther => (failed c = false → at_rest m) ∧ blocked o ≠ Some OnStream
  | InIo op =>
      match blocked o with
      | Some OnStream =>
          in_progress op m ∧ waiting_cancelled o = false ∧ (failed c = false → lost_timers m = 0%nat)
      | Some Elsewhere => False
      | None => failed c = false →
          at_rest m ∨ (in_progress op m ∧ waiting_cancelled o = true ∧ lost_timers m = 0%nat)
      end
  end.

(** *** Lemmas *)

(** Evaluate the state monad. *)
Ltac run_st :=
  unfold handle_io, event_set, interrupt_owner, set_io_events, source_off, wait_begin, wait_end,
    msg_stream_reg_interrupt, upd, get_stream, mbind, ST_bind, mret, ST_ret, modify, fault;
  cbn -[Z.land u64 mask Z.ltb Z.eqb].

(** The owner after [s_event_set] on the stream's event. *)
Definition woken (o : owner) : owner :=
  mk_owner (if decide (blocked o = Some OnStream) then None else blocked o)
    (waiting_cancelled o) (interrupt_disabled o) (interrupt_reason o).

(** [m'] is the stream after the operation that was in progress in [m]. *)
Definition settled (m m' : msg_stream) : Prop :=
  timer m' = None ∧ lost_timers m' = lost_timers m ∧ is_Some (source m') ∧ ms_st m' ≠ READ ∧ ms_st m' ≠ WRITE.

(** An I/O callback ends the operation it is for, or changes nothing. *)
Lemma handle_io_cases op r ev_rc m o src :
  source m = Some src → timer m = None →
  ∃ s', handle_io op r ev_rc (mk_session m o) = Some (tt, s') ∧
    (s' = mk_session m o ∨ (ms_st m = op ∧ settled m (strm s') ∧ own s' = woken o)).
Proof.
  destruct m as [st src' tm lt tk rs bf ln er], o as [bl wc dis rsn]. cbn. intros -> ->. run_st.
  case_bool_decide as E; [|by eauto]. set (rc := if ln =? 0 then 0 else io_rc r).
  destruct ((rc <? 0) && (io_errno r =? EAGAIN)); [by eauto|].
  destruct bl as [[]|]; cbn -[u64 Z.ltb]; destruct (ev_rc <? 0); eexists; (split; [done|]);
    right; by split_and!.
Qed.

(** The invariant does not depend on the timer, as long as it is disarmed. *)
Lemma io_inv_disarm c :
  io_inv c → io_inv (mk_config (mk_session (set_timer None (strm (sess c))) (own (sess c)))
    (at_pc c) (results c) (failed c)).
Proof.
  unfold io_inv, at_rest, in_progress. destruct c as [[m o] p rs f]. cbn.
  destruct p; [naive_solver| |naive_solver]. destruct (blocked o) as [[]|]; naive_solver.
Qed.

(** The end of an operation keeps the invariant. *)
Lemma settled_inv c s' :
  io_inv c → at_pc c ≠ Runs → settled (strm (sess c)) (strm s') →
  (own s' = woken (own (sess c)) ∨ blocked (own s') = None) →
  io_inv (mk_config s' (at_pc c) (results c) (failed c)).
Proof.
  unfold io_inv. cbn. destruct c as [[m o] p rs f]. cbn. intros Hinv Hp (H1 & H2 & H3 & H4 & H5) Ho.
  assert (lost_timers m = 0%nat → at_rest (strm s')) as Hrest by (intros; unfold at_rest; by rewrite H2).
  destruct p as [|op|]; [done| |].
  - assert (blocked (own s') = None) as ->.
    { destruct Ho as [->|?]; [|done]. cbn. destruct (blocked o) as [[]|]; [|done|];
        case_decide; done. }
    intros Hf. left. apply Hrest. destruct (blocked o) as [[]|]; [naive_solver|done|].
    destruct (Hinv Hf) as [(_ & ? & _)|(_ & _ & ?)]; done.
  - destruct Hinv as [Hr Hb]. split.
    + intros Hf. apply Hrest. by destruct (Hr Hf) as (_ & ? & _).
    + destruct Ho as [->| ->]; [|done]. cbn. by case_decide.
Qed.

(** After an I/O callback for [op] the owner is woken, or nothing happened. *)
Lemma handle_io_inv c op r ev_rc src :
  io_inv c → at_pc c ≠ Runs → source (strm (sess c)) = Some src →
  ∃ s', handle_io op r ev_rc (mk_session (set_timer None (strm (sess c))) (own (sess c))) = Some (tt, s') ∧
    io_inv (mk_config s' (at_pc c) (results c) (failed c)).
Proof.
  intros Hinv Hpc Hsrc.
  destruct (handle_io_cases op r ev_rc (set_timer None (strm (sess c))) (own (sess c)) src) as (s' & E & Hs');
    [done..|].
  exists s'. split; [done|]. destruct Hs' as [->|(_ & Hs & Ho)]; [by apply io_inv_disarm|].
  apply settled_inv; [done|done|exact Hs|by left].
Qed.

(** A hangup or an error ends everything: the owner is not left blocked on
    the stream. *)
Lemma hangup_inv c st err off_rc src :
  (st = END ∨ st = ERR) →
  at_pc c ≠ Runs → io_inv c → source (strm (sess c)) = Some src →
  ∃ s', (source_off off_rc;; event_set;; m ← get_stream;
         if negb (bool_decide (ms_st m = WRITE)) && negb (bool_decide (ms_st m = READ)) then
           if target_task m then interrupt_owner (reason m) else mret tt
         else mret tt)
      (mk_session (set_error err (set_st st (set_timer None (strm (sess c))))) (own (sess c))) = Some (tt, s') ∧
    io_inv (mk_config s' (at_pc c) (results c) (failed c)).
Proof.
  intros Hst Hpc Hinv Hsrc.
  assert (∃ s', (source_off off_rc;; event_set;; m ← get_stream;
         if negb (bool_decide (ms_st m = WRITE)) && negb (bool_decide (ms_st m = READ)) then
           if target_task m then interrupt_owner (reason m) else mret tt
         else mret tt)
      (mk_session (set_error err (set_st st (set_timer None (strm (sess c))))) (own (sess c))) = Some (tt, s') ∧
    settled (strm (sess c)) (strm s') ∧ (own s' = woken (own (sess c)) ∨ blocked (own s') = None))
    as (s' & E & Hs & Ho); [|exists s'; split; [done|by apply settled_inv]].
  destruct c as [[m o] p rs f]. cbn in Hsrc |- *.
  destruct m as [st0 src0 tm lt tk rsn bf ln er], o as [bl wc dis ir]. cbn in Hsrc. subst src0. run_st.
  destruct bl as [[]|], (off_rc <? 0); cbn; destruct Hst as [->| ->]; cbn; destruct tk; cbn;
    try destruct dis; eexists; (split; [done|]); (split; [by split_and!|]);
    first [by left|by right].
Qed.

Lemma handler_inv c revents r ev_rc off_rc src :
  io_inv c → at_pc c ≠ Runs → source (strm (sess c)) = Some src →
  ∃ s', msg_stream_handler revents r ev_rc off_rc (sess c) = Some (tt, s') ∧
    io_inv (mk_config s' (at_pc c) (results c) (failed c)).
Proof.
  intros Hinv Hpc Hsrc. unfold msg_stream_handler.
  rewrite (ST_bind_run _ _ _ tt (mk_session (set_timer None (strm (sess c))) (own (sess c)))) by done.
  destruct (negb (Z.land revents EPOLLIN =? 0)); [by eapply handle_io_inv|].
  destruct (negb (Z.land revents EPOLLOUT =? 0)); [by eapply handle_io_inv|].
  destruct (negb (Z.land revents EPOLLHUP =? 0)).
  - refine (hangup_inv c END 0 off_rc src _ Hpc Hinv Hsrc). by left.
  - refine (hangup_inv c ERR (- EIO) off_rc src _ Hpc Hinv Hsrc). by right.
Qed.

(** The timer ends the operation, if it is called at all. *)
Lemma timer_settles ev_rc m o x :
  io_timer_handler ev_rc (mk_session m o) = Some x →
  settled m (strm x.2) ∧ own x.2 = woken o.
Proof.
  destruct m as [st src tm lt tk rsn bf ln er], o as [bl wc dis ir]. unfold io_timer_handler. run_st.
  destruct src as [src|]; [|done].
  destruct bl as [[]|], (ev_rc <? 0); cbn; intros [= <-]; by split_and!.
Qed.

Lemma timer_fires_lost lost m m' :
  timer_fires lost m = Some m' →
  ms_st m' = ms_st m ∧ source m' = source m ∧ (lost_timers m = 0%nat → m' = m ∧ is_Some (timer m)).
Proof.
  unfold timer_fires. destruct lost.
  - destruct (lost_timers m) eqn:E; [done|]. intros [= <-]. by split_and!.
  - destruct (timer m) eqn:E; [|done]. intros [= <-]. split_and!; [done..|]. by eexists.
Qed.

Lemma timer_inv c lost ev_rc m x :
  io_inv c → at_pc c ≠ Runs → timer_fires lost (strm (sess c)) = Some m →
  io_timer_handler ev_rc (mk_session m (own (sess c))) = Some x →
  io_inv (mk_config x.2 (at_pc c) (results c) (failed c)).
Proof.
  intros Hinv Hp Hf Hx. destruct (timer_fires_lost _ _ _ Hf) as (Hst & Hsrc & Hm).
  apply timer_settles in Hx as [Hs Ho].
  apply (settled_inv (mk_config (mk_session m (own (sess c))) (at_pc c) (results c) (failed c)) x.2);
    [|done|done|by left].
  unfold io_inv, in_progress in *. cbn. rewrite Hst, Hsrc.
  destruct (at_pc c) as [|op|]; [done| |].
  - destruct (blocked (own (sess c))) as [[]|]; [|done|].
    + destruct Hinv as (? & ? & Hl). split; [done|]. split; [done|]. intros Hff. specialize (Hl Hff).
      by destruct (Hm Hl) as [-> _].
    + intros H. destruct (Hinv H) as [Hr|(? & ? & Hl)].
      * pose proof Hr as (Ht & Hl & _). destruct (Hm Hl) as [-> [? ?]]. congruence.
      * right. destruct (Hm Hl) as [-> _]. done.
  - destruct Hinv as [Hr ?]. split; [|done]. intros Hff. pose proof (Hr Hff) as (Ht & Hl & _).
    destruct (Hm Hl) as [-> _]. by apply Hr.
Qed.

Lemma call_inv c op buf size usec timer_rc ev_rc x s' :
  io_inv c → at_pc c = Runs → (op = READ ∨ op = WRITE) →
  msg_stream_do_io_begin op buf size usec timer_rc ev_rc (sess c) = Some (x, s') →
  match x with
  | Some _ => ∀ rs, io_inv (mk_config s' Runs rs (failed c || negb (closed (strm (sess c)))))
  | None => io_inv (mk_config s' (InIo op) (results c) (failed c))
  end.
Proof.
  intros Hinv Hpc Hop. destruct c as [[m o] p rs f]. unfold io_inv in *. cbn in *. subst p.
  destruct m as [st src tm lt tk rsn bf ln er], o as [bl wc dis ir]. cbn in *.
  destruct Hinv as (Hrest & -> & ->). unfold msg_stream_do_io_begin. run_st.
  destruct src as [[ev b]|]; [|done].
  assert (∀ tm' lt' src', (op = READ ∨ op = WRITE) → (f = false → lt' = 0%nat) →
    src' = Some (mk_source (mask op) b) →
    in_progress op (mk_stream op src' tm' lt' tk rsn buf size er) ∧ false = false ∧ (f = false → lt' = 0%nat))
    as Hgo by (intros tm' lt' src' ? ? ->; split; [by split; [|split; [|exists b]]|done]).
  destruct st; [| | |intros [= <- <-] rs'; by rewrite orb_false_r
    |intros [= <- <-] rs'; by rewrite orb_false_r];
    (destruct (negb (usec =? 0) && (timer_rc <? 0));
      [intros [= <- <-] rs'; split_and!; [|done|done]; by destruct f|]);
    destruct (usec =? 0); run_st; destruct (ev_rc <? 0); intros [= <- <-];
    try (intros rs'; split_and!; [|done|done]; by destruct f);
    (apply Hgo; [done| |done]); intros Hf; destruct (Hrest Hf) as (Ht & Hl & _); cbn in *; by subst.
Qed.

Lemma io_resume_inv c op ev_rc x s' :
  io_inv c → at_pc c = InIo op → msg_stream_do_io_end ev_rc (sess c) = Some (x, s') →
  ∀ rs, io_inv (mk_config s' Runs rs (failed c)).
Proof.
  intros Hinv Hpc. destruct c as [[m o] p rs f]. unfold io_inv in *. cbn in *. subst p.
  destruct m as [st src tm lt tk rsn bf ln er], o as [bl wc dis ir]. cbn in *.
  unfold msg_stream_do_io_end. run_st. destruct bl; [done|]. destruct wc; run_st.
  - destruct src as [[ev b]|]; [|done]. destruct (ev_rc <? 0); intros [= <- <-] rs'; (split_and!; [|done|done]);
      intros Hf; (split_and!; [done| |done|done|done]); cbn;
      destruct (Hinv Hf) as [(_ & ? & _)|(_ & _ & ?)]; done.
  - intros [= <- <-] rs'. split_and!; [|done|done]. intros Hf. by destruct (Hinv Hf) as [?|(_ & ? & _)].
Qed.

Lemma io_step_inv c e c' : io_inv c → io_step c e = Some c' → io_inv c'.
Proof.
  intros Hinv E. destruct e; unfold io_step in E.
  - destruct (at_pc c) eqn:Hp; try done.
    destruct (bool_decide (op = READ) || bool_decide (op = WRITE)) eqn:Hop; [|done].
    apply orb_prop in Hop. rewrite !bool_decide_eq_true in Hop.
    destruct (msg_stream_do_io_begin _ _ _ _ _ _ _) as [[x s']|] eqn:R; [|done].
    pose proof (call_inv _ _ _ _ _ _ _ _ _ Hinv Hp Hop R) as H. cbn in E.
    destruct x; simplify_eq; [apply H|exact H].
  - destruct (at_pc c) eqn:Hp; try done. simplify_eq. unfold io_inv in *. rewrite Hp in Hinv.
    by destruct Hinv as [? _].
  - destruct (at_pc c) eqn:Hp; try done. unfold msg_stream_reg_interrupt in E. unfold io_inv in *.
    rewrite Hp in Hinv. destruct Hinv as (H1 & H2 & H3).
    destruct (r =? 0); cbn in E; simplify_eq; split_and!; done.
  - destruct (at_pc c) eqn:Hp; try done;
      (destruct (source (strm (sess c))) as [src|] eqn:Hs; [|done]); cbn in E;
      (destruct (may_report src revents) eqn:Hr; [|done]);
      (destruct (handler_inv c revents r ev_rc off_rc src) as (s' & R & H); [done|by rewrite Hp|done|]);
      rewrite R in E; cbn in E; simplify_eq; by rewrite Hp in H.
  - destruct (at_pc c) eqn:Hp; try done;
      (destruct (timer_fires lost (strm (sess c))) as [m|] eqn:Hs; [|done]); cbn in E;
      (destruct (io_timer_handler _ _) as [x|] eqn:R; [|done]); cbn in E; simplify_eq; rewrite <-Hp;
      (eapply timer_inv; [done|by rewrite Hp|done|done]).
  - destruct (at_pc c) eqn:Hp; try done; unfold interrupt_owner in E; cbn in E; simplify_eq;
      unfold io_inv in *; cbn; rewrite Hp in Hinv; destruct (interrupt_disabled (own (sess c))); try done; cbn.
    + intros Hf. destruct (blocked (own (sess c))) as [[]|]; [|done|].
      * right. destruct Hinv as (? & ? & ?). split_and!; [done|done|auto].
      * destruct (Hinv Hf) as [?|(? & _ & ?)]; [by left|by right].
    + by destruct Hinv as [? _].
  - destruct (at_pc c) eqn:Hp; try done. case_bool_decide; [|done]. simplify_eq. unfold io_inv in *.
    rewrite Hp in Hinv. by destruct Hinv as [? _].
  - destruct (at_pc c) as [|op|] eqn:Hp; [done| |].
    + destruct (msg_stream_do_io_end _ _) as [[x s']|] eqn:R; [|done]. cbn in E. simplify_eq.
      by eapply io_resume_inv.
    + unfold wait_end in E. destruct (blocked (own (sess c))) eqn:Hb; [done|]. cbn in E. simplify_eq.
      unfold io_inv in *. rewrite Hp in Hinv. by destruct Hinv as [? _].
Qed.

Lemma io_run_inv es : ∀ c c', io_inv c → io_run c es = Some c' → io_inv c'.
Proof.
  induction es as [|e es IH]; intros c c' Hinv; [by intros [= <-]|]. cbn [io_run].
  destruct (io_step c e) as [c1|] eqn:E; [|done]. intros Hr. eapply IH; [|done]. by eapply io_step_inv.
Qed.

(** ** A new stream *)

(** What [init_msg_stream] leaves: [b] is whether interrupts are disabled. *)
Definition fresh_stream : msg_stream :=
  mk_stream NOOP (Some (mk_source 0 true)) None 0 false 0 [] 0 0.
Definition fresh (dis : bool) : config :=
  mk_config (mk_session fresh_stream (mk_owner None false dis 0)) Runs [] false.

Definition stream_reachable (c : config) : Prop := ∃ dis es, io_run (fresh dis) es = Some c.

Lemma stream_reachable_inv c : stream_reachable c → io_inv c.
Proof.
  intros (dis & es & H). eapply io_run_inv; [|done]. split; [intros _|done]. by split_and!.
Qed.

(** ** Ways an operation ends *)

Inductive wakeup : Type :=
  | ByIo (revents : Z) (r : sys_io) (ev_rc : Z)   (* the socket is ready, the system call was made *)
  | ByHangup (revents off_rc : Z)                 (* hangup or error, nothing to read or write *)
  | ByTimeout (ev_rc : Z)
  | ByInterrupt (r : Z).

Definition event_of (w : wakeup) : io_event :=
  match w with
  | ByIo revents r ev_rc => Io revents r ev_rc 0
  | ByHangup revents off_rc => Io revents (mk_io 0 0 []) 0 off_rc
  | ByTimeout ev_rc => Timeout false ev_rc
  | ByInterrupt r => Interrupt r
  end.

Definition ready (op : ms_state) (revents : Z) : bool :=
  if bool_decide (op = READ) then negb (Z.land revents EPOLLIN =? 0)
  else (Z.land revents EPOLLIN =? 0) && negb (Z.land revents EPOLLOUT =? 0).

(** What can happen to a blocked operation. *)
Definition can_wake (op : ms_state) (s : session) (w : wakeup) : Prop :=
  match w with
  | ByIo revents r _ =>
      (∃ src, source (strm s) = Some src ∧ may_report src revents = true) ∧ ready op revents = true ∧
      (0 <= io_rc r < 2 ^ 31 ∨ io_rc r < 0 ∧ 0 < io_errno r ∧ io_errno r ≠ EAGAIN)
  | ByHangup revents _ =>
      (∃ src, source (strm s) = Some src ∧ may_report src revents = true) ∧
      Z.land revents EPOLLIN = 0 ∧ Z.land revents EPOLLOUT = 0
  | ByTimeout _ => is_Some (timer (strm s))
  | ByInterrupt _ => interrupt_disabled (own s) = false
  end.

(** What the operation then returns. *)
Definition io_result (s : session) (w : wakeup) : Z :=
  match w with
  | ByIo _ r ev_rc =>
      if ev_rc <? 0 then ev_rc
      else if io_len (strm s) =? 0 then 0 else if io_rc r <? 0 then - io_errno r else io_rc r
  | ByHangup revents _ =>
      if target_task (strm s) && negb (interrupt_disabled (own s)) then - EINTR
      else if negb (Z.land revents EPOLLHUP =? 0) then s64 (io_len (strm s)) else - EIO
  | ByTimeout ev_rc => if ev_rc <? 0 then ev_rc else - ETIMEDOUT
  | ByInterrupt _ => - EINTR
  end.

Lemma s64_u64 x : 0 <= x < 2 ^ 31 → s64 (u64 x) = x.
Proof. intros Hx. rewrite wrapu_small by (unfold in_u; lia). unfold wraps. rewrite Z.mod_small; lia. Qed.

(** An operation in progress, with its owner blocked. *)
Definition blocked_in (op : ms_state) (b : bool) (tm : option Z) (lt : nat) (tk : bool) (rsn : Z)
    (bf : list Z) (ln er : Z) (dis : bool) (ir : Z) : session :=
  mk_session (mk_stream op (Some (mk_source (mask op) b)) tm lt tk rsn bf ln er)
    (mk_owner (Some OnStream) false dis ir).

Lemma woken_by_io op b tm lt tk rsn bf ln er dis ir revents r ev_rc end_rc :
  (op = READ ∨ op = WRITE) → ready op revents = true →
  (0 <= io_rc r < 2 ^ 31 ∨ io_rc r < 0 ∧ 0 < io_errno r ∧ io_errno r ≠ EAGAIN) →
  let s := blocked_in op b tm lt tk rsn bf ln er dis ir in
  ∃ s1 s2, msg_stream_handler revents r ev_rc 0 s = Some (tt, s1) ∧
    msg_stream_do_io_end end_rc s1 = Some (io_result s (ByIo revents r ev_rc), s2) ∧
    (op = READ → 0 < io_rc r → ln ≠ 0 → io_buf (strm s2) = io_bytes r).
Proof.
  intros Hop Hr Hrc s. set (rc := if ln =? 0 then 0 else io_rc r).
  assert (msg_stream_handler revents r ev_rc 0 s =
    handle_io op r ev_rc (mk_session (set_timer None (strm s)) (own s))) as ->.
  { unfold msg_stream_handler, ready in *. destruct Hop as [->| ->].
    - change (negb (Z.land revents EPOLLIN =? 0) = true) in Hr. by rewrite Hr.
    - change ((Z.land revents EPOLLIN =? 0) && negb (Z.land revents EPOLLOUT =? 0) = true) in Hr.
      apply andb_prop in Hr as [-> Hr]. cbn [negb]. by rewrite Hr. }
  assert (bool_decide (op = op) = true) as Heq by by apply bool_decide_eq_true.
  assert ((rc <? 0) && (io_errno r =? EAGAIN) = false) as Hne.
  { unfold rc. destruct (ln =? 0); [done|]. destruct Hrc as [Hrc|(Hrc & _ & Hne)].
    - by rewrite (proj2 (Z.ltb_ge _ _)) by lia.
    - rewrite (proj2 (Z.eqb_neq _ _) Hne). by rewrite andb_false_r. }
  unfold s, blocked_in, handle_io, get_stream, mbind, ST_bind. cbn -[u64 Z.ltb Z.eqb].
  rewrite Heq. fold rc. rewrite Hne. run_st.
  assert (∀ x, 0 < io_rc r → ln ≠ 0 → (if 0 <? rc then io_bytes r else x) = io_bytes r) as Hbuf.
  { intros x Hpos Hln. unfold rc. rewrite (proj2 (Z.eqb_neq _ _) Hln). by rewrite (proj2 (Z.ltb_lt _ _) Hpos). }
  destruct (ev_rc <? 0) eqn:Hev; (eexists _, _; split; [done|]);
    unfold msg_stream_do_io_end; cbn -[u64 wraps Z.ltb Z.eqb]; change (0 <? 0) with false;
    (split; [apply (f_equal (λ z, Some (z, _)))|intros ->; cbn; apply Hbuf]);
    cbn -[u64 wraps Z.ltb Z.eqb]; rewrite ?Hev; [done|].
  unfold rc. destruct (ln =? 0); [done|].
  destruct (Z.ltb_spec (io_rc r) 0); cbn -[u64 wraps Z.ltb].
  - by rewrite (proj2 (Z.ltb_lt (- io_errno r) 0)) by lia.
  - change (0 <? 0) with false. cbn. apply s64_u64. lia.
Qed.

Lemma woken_by_hangup op b tm lt tk rsn bf ln er dis ir revents off_rc end_rc :
  Z.land revents EPOLLIN = 0 → Z.land revents EPOLLOUT = 0 →
  let s := blocked_in op b tm lt tk rsn bf ln er dis ir in
  ∃ s1 s2, msg_stream_handler revents (mk_io 0 0 []) 0 off_rc s = Some (tt, s1) ∧
    msg_stream_do_io_end end_rc s1 = Some (io_result s (ByHangup revents off_rc), s2).
Proof.
  intros H1 H2 s. unfold msg_stream_handler, s, blocked_in, io_result. rewrite H1, H2.
  change (0 =? 0) with true. cbn [negb]. run_st.
  destruct (negb (Z.land revents EPOLLHUP =? 0)); run_st; destruct (off_rc <? 0); run_st;
    destruct tk, dis, (end_rc <? 0) eqn:Hend; (eexists _, _; split; [done|]);
    unfold msg_stream_do_io_end; run_st; by rewrite ?Hend.
Qed.

Lemma woken_by_timeout op b usec lt tk rsn bf ln er dis ir ev_rc end_rc :
  let s := blocked_in op b (Some usec) lt tk rsn bf ln er dis ir in
  ∃ s1 s2, io_timer_handler ev_rc s = Some (tt, s1) ∧
    msg_stream_do_io_end end_rc s1 = Some (io_result s (ByTimeout ev_rc), s2).
Proof.
  intros s. unfold s, blocked_in, io_timer_handler, io_result, msg_stream_do_io_end. run_st.
  destruct (ev_rc <? 0) eqn:Hev; eexists _, _; (split; [done|]); run_st;
    change (0 <? 0) with false; cbn -[Z.ltb u64 wraps]; by rewrite ?Hev.
Qed.

Lemma woken_by_interrupt op b tm lt tk rsn bf ln er ir r end_rc :
  let s := blocked_in op b tm lt tk rsn bf ln er false ir in
  ∃ s1 s2, interrupt_owner r s = Some (tt, s1) ∧
    msg_stream_do_io_end end_rc s1 = Some (- EINTR, s2) ∧ interrupt_reason (own s2) = r.
Proof.
  intros s. unfold s, blocked_in, msg_stream_do_io_end. run_st.
  destruct (end_rc <? 0) eqn:Hend; (eexists _, _; split; [done|]); run_st;
    change (-1 <? 0) with true; cbn -[Z.ltb]; by rewrite ?Hend.
Qed.

(** ** Claims *)

(** C21. Streams are left clean: whatever sequence of operations, socket
    events, timeouts, interrupts and failing calls of the event loop a stream
    sees, its owner runs only while it is blocked nowhere, and, unless an
    operation has failed to start, while no timer of the stream is armed and
    no operation is in progress; while the owner is blocked on the stream, the
    operation in progress is the owner's and the event loop is asked for just
    its readiness. An operation fails to start when the event loop refuses its
    timer or its I/O events; it leaves its state, and its timer, behind. *)
Theorem stream_left_clean c :
  stream_reachable c →
  (at_pc c = Runs →
    blocked (own (sess c)) = None ∧ waiting_cancelled (own (sess c)) = false ∧
    (failed c = false →
      timer (strm (sess c)) = None ∧ lost_timers (strm (sess c)) = 0%nat ∧
      ms_st (strm (sess c)) ≠ READ ∧ ms_st (strm (sess c)) ≠ WRITE)) ∧
  (blocked (own (sess c)) = Some OnStream →
    ∃ op b, at_pc c = InIo op ∧ ms_st (strm (sess c)) = op ∧ (op = READ ∨ op = WRITE) ∧
      source (strm (sess c)) = Some (mk_source (mask op) b)).
Proof.
  intros Hinv%stream_reachable_inv. unfold io_inv in Hinv. split; [intros Hp|intros Hb].
  - rewrite Hp in Hinv. destruct Hinv as (H1 & H2 & H3). split_and!; [done|done|].
    intros Hf. by destruct (H1 Hf) as (? & ? & _ & ? & ?).
  - destruct (at_pc c) as [|op|]; [naive_solver| |naive_solver]. rewrite Hb in Hinv.
    destruct Hinv as ((H1 & H2 & b & H3) & _). by exists op, b.
Qed.

(** A read of 32 bytes with a timeout, and a message of two bytes for it. *)
Definition example_read : list io_event := [RegInterrupt 1; Call READ [] 32 300000 0 0].
Definition example_input : io_event := Io EPOLLIN (mk_io 2 0 [104; 105]) 0 0.

Lemma stream_left_clean_witness :
  ∃ c, io_run (fresh false) (example_read ++ [example_input; Resume 0]) = Some c ∧
    results c = [2] ∧ timer (strm (sess c)) = None.
Proof.
  eexists. split; [vm_compute; reflexivity|]. split; [reflexivity|].
  refine (proj1 (proj2 (proj2 (proj1 (stream_left_clean _ _) _)) _)); [|reflexivity|reflexivity].
  exists false, (example_read ++ [example_input; Resume 0]). vm_compute. reflexivity.
Defined.

(** C20. What ends a blocked operation decides its result: the number of bytes
    or the error of the system call once the socket is ready, ETIMEDOUT when
    its time is over, EINTR when the owner is interrupted; a hangup or an
    error of the socket interrupts the owner if it registered for that, and
    an event loop that refuses to go back to no I/O events fails the
    operation. In each case the owner is runnable at once and the operation
    returns. *)
Theorem operation_result c op w end_rc :
  stream_reachable c → at_pc c = InIo op → blocked (own (sess c)) = Some OnStream →
  can_wake op (sess c) w →
  ∃ c1 c2, io_step c (event_of w) = Some c1 ∧ io_step c1 (Resume end_rc) = Some c2 ∧
    at_pc c2 = Runs ∧ results c2 = io_result (sess c) w :: results c ∧
    match w with
    | ByIo _ r _ => op = READ → 0 < io_rc r → io_len (strm (sess c)) ≠ 0 → io_buf (strm (sess c2)) = io_bytes r
    | ByInterrupt r => interrupt_reason (own (sess c2)) = r
    | _ => True
    end.
Proof.
  intros Hinv%stream_reachable_inv Hp Hb Hw. unfold io_inv in Hinv. rewrite Hp, Hb in Hinv.
  destruct Hinv as ((Hst & Hop & b & Hsrc) & Hc & _).
  destruct c as [[[st src tm lt tk rsn bf ln er] [bl wc dis ir]] p rs f]. cbn in *. subst.
  set (s := mk_session _ _). change s with (blocked_in op b tm lt tk rsn bf ln er dis ir).
  unfold event_of, io_step. destruct w as [revents r ev_rc|revents off_rc|ev_rc|r]; cbn [at_pc sess strm own].
  - destruct Hw as ((src & [= <-] & Hrep) & Hr & Hrc).
    destruct (woken_by_io op b tm lt tk rsn bf ln er dis ir revents r ev_rc end_rc Hop Hr Hrc)
      as (s1 & s2 & E1 & E2 & Hbuf).
    cbn. rewrite Hrep, E1. cbn. eexists (mk_config s1 (InIo op) rs f), _. split; [done|]. cbn.
    rewrite E2. split_and!; [done|done|done|exact Hbuf].
  - destruct Hw as ((src & [= <-] & Hrep) & H1 & H2).
    destruct (woken_by_hangup op b tm lt tk rsn bf ln er dis ir revents off_rc end_rc H1 H2)
      as (s1 & s2 & E1 & E2).
    cbn. rewrite Hrep, E1. cbn. eexists (mk_config s1 (InIo op) rs f), _. split; [done|]. cbn.
    rewrite E2. by split_and!.
  - destruct Hw as [usec Ht]. cbn in Ht. subst tm.
    destruct (woken_by_timeout op b usec lt tk rsn bf ln er dis ir ev_rc end_rc) as (s1 & s2 & E1 & E2).
    unfold blocked_in in *. cbn [timer_fires timer strm own mbind option_bind]. rewrite E1. cbn [mbind option_bind].
    eexists (mk_config s1 (InIo op) rs f), _. split; [done|]. cbn [at_pc sess]. rewrite E2. by split_and!.
  - cbn in Hw. subst dis.
    destruct (woken_by_interrupt op b tm lt tk rsn bf ln er ir r end_rc) as (s1 & s2 & E1 & E2 & Hreason).
    rewrite E1. cbn [mbind option_bind]. eexists (mk_config s1 (InIo op) rs f), _. split; [done|].
    cbn [at_pc sess]. rewrite E2. by split_and!.
Qed.

Lemma operation_result_witness :
  ∃ c c1 c2, io_run (fresh false) example_read = Some c ∧ io_step c example_input = Some c1 ∧
    io_step c1 (Resume 0) = Some c2 ∧ results c2 = [2].
Proof.
  set (c := default (fresh false) (io_run (fresh false) example_read)).
  destruct (operation_result c READ (ByIo EPOLLIN (mk_io 2 0 [104; 105]) 0) 0)
    as (c1 & c2 & H1 & H2 & _ & H3 & _).
  - exists false, example_read. vm_compute. reflexivity.
  - vm_compute. reflexivity.
  - vm_compute. reflexivity.
  - split; [|split; [reflexivity|left; vm_compute; split; [discriminate|reflexivity]]].
    eexists. split; [vm_compute; reflexivity|]. vm_compute. reflexivity.
  - exists c, c1, c2. split; [vm_compute; reflexivity|]. split; [exact H1|]. split; [exact H2|].
    rewrite H3. vm_compute. reflexivity.
Defined.

(** ** Where streams go wrong *)

(** An operation whose I/O events the event loop refuses returns with the
    stream still in the state of the operation and its timer armed; the next
    operation with a timeout then arms a second timer over the pointer to the
    first, which nothing can disarm any more and which ends that operation
    early. *)
Lemma failed_start_leaves_timer :
  ∃ c c', io_run (fresh false) [Call READ [] 32 300000 0 (-12)] = Some c ∧
    results c = [-12] ∧ at_pc c = Runs ∧
    ms_st (strm (sess c)) = READ ∧ timer (strm (sess c)) = Some 300000 ∧
    io_run c [Call WRITE [1] 1 300000 0 0; Timeout true 0; Resume 0] = Some c' ∧
    results c' = [- ETIMEDOUT; -12].
Proof.
  eexists. eexists. split; [vm_compute; reflexivity|]. do 4 (split; [reflexivity|]).
  split; [vm_compute; reflexivity|reflexivity].
Qed.

(** A hangup while a write is blocked, and the owner did not register for
    interrupts, makes the write return its full length: [io_buf.len] still
    has the number of bytes asked for, none of which was written. *)
Lemma hangup_counts_as_written :
  (results <$> io_run (fresh false)
    [Call WRITE [1; 2; 3] 3 300000 0 0; Io EPOLLHUP (mk_io 0 0 []) 0 0; Resume 0]) = Some [3].
Proof. reflexivity. Qed.

(** A spurious wake-up (EAGAIN) disarms the timeout of the operation, which
    goes on without. *)
Lemma eagain_drops_timeout :
  ∃ c, io_run (fresh false) [Call READ [] 32 300000 0 0; Io EPOLLIN (mk_io (-1) EAGAIN []) 0 0] = Some c ∧
    blocked (own (sess c)) = Some OnStream ∧ timer (strm (sess c)) = None.
Proof. eexists. split; [vm_compute; reflexivity|]. by split. Qed.

(** A hangup that interrupts a blocked operation is forgotten: the stream is
    NOOP again while its source stays switched off. An operation without
    timeout, such as the empty write of [shutdown_msg_stream], then blocks and
    no event of the socket and no timeout can end it. *)
Lemma hangup_forgotten :
  ∃ c, io_run (fresh false)
      [RegInterrupt 1; Call READ [] 32 300000 0 0; Io EPOLLHUP (mk_io 0 0 []) 0 0; Resume 0;
       Call WRITE [] 0 0 0 0] = Some c ∧
    results c = [- EINTR] ∧ blocked (own (sess c)) = Some OnStream ∧
    (∀ lost ev_rc, io_step c (Timeout lost ev_rc) = None) ∧
    ∀ revents r ev_rc off_rc, io_step c (Io revents r ev_rc off_rc) = None.
Proof. eexists. split; [vm_compute; reflexivity|]. split_and!; [done|done|by intros []|done]. Qed.

(** ** Creating and destroying a stream

    The resources a stream holds: allocated memory, a reference to the event
    loop, an event source, and whether the source owns the socket (and closes
    it when it goes). *)

Record held_resources : Type := mk_held {
  memory : Z; loop_refs : Z; sources : Z; socket_closed : Z;
}.

Definition nothing_held : held_resources := mk_held 0 0 0 0.

Definition UCRED_SIZE : Z := 12.

(** [init_msg_stream] for the results of malloc (with [errno]), getsockopt
    (and the length it returns), sd_event_add_io and
    sd_event_source_set_io_fd_own: its result and what is held after it. *)
Definition init_msg_stream (malloc_ok : bool) (errno getsockopt_rc cred_len add_rc own_rc : Z) :
    Z * held_resources :=
  if negb malloc_ok then (- errno, nothing_held) else
  let h := mk_held 1 1 0 0 in
  (* err_free_stream *)
  let err_free_stream rc h := (rc, mk_held (memory h - 1) (loop_refs h - 1) (sources h) (socket_closed h)) in
  if getsockopt_rc <? 0 then err_free_stream getsockopt_rc h else
  if negb (cred_len =? UCRED_SIZE) then err_free_stream (- EIO) h else
  if add_rc <? 0 then err_free_stream add_rc h else
  let h := mk_held (memory h) (loop_refs h) (sources h + 1) (socket_closed h) in
  if own_rc <? 0 then
    (* err_free_source *)
    err_free_stream own_rc (mk_held (memory h) (loop_refs h) (sources h - 1) (socket_closed h))
  else (own_rc, h).

(** [destroy_msg_stream]: a source that is still there owns the socket. *)
Definition destroy_msg_stream (source_there : bool) (h : held_resources) : held_resources :=
  let h := if source_there
           then mk_held (memory h) (loop_refs h) (sources h - 1) (socket_closed h + 1) else h in
  mk_held (memory h - 1) (loop_refs h - 1) (sources h) (socket_closed h).

(** Streams do not leak: a failed [init_msg_stream] holds nothing and has
    not closed the socket (its caller does), a successful one holds memory, a
    reference and a source, and [destroy_msg_stream] releases each of them and
    closes the socket once. *)
Theorem streams_do_not_leak malloc_ok errno gs_rc cred_len add_rc own_rc rc h :
  0 < errno → init_msg_stream malloc_ok errno gs_rc cred_len add_rc own_rc = (rc, h) →
  (rc < 0 → h = nothing_held) ∧
  (0 <= rc → h = mk_held 1 1 1 0 ∧ destroy_msg_stream true h = mk_held 0 0 0 1).
Proof.
  intros He. unfold init_msg_stream. destruct malloc_ok; cbn [negb]; [|intros; simplify_eq; split; [done|lia]].
  unfold EIO. repeat case_match; intros; simplify_eq/=; rewrite ?Z.ltb_lt, ?Z.ltb_ge in *;
    split; intros; first [done|lia].
Qed.

Lemma streams_do_not_leak_witness :
  destroy_msg_stream true (init_msg_stream true 12 0 12 0 0).2 = mk_held 0 0 0 1.
Proof.
  refine (proj2 (proj2 (streams_do_not_leak true 12 0 12 0 0 0 _ _ _) _));
    [reflexivity|reflexivity|discriminate].
Defined.
