(* ===== verification/PidfdEvent.v ===== *)
(** * Waiting for a process and sleeping (src/se_libs.c, last part and first part)

    [pidfd_event]: the callback of the event loop when a process ends, and the
    coroutine that waits for it or wants to be interrupted by it; and
    [se_task_usleep]. As for streams, the state has what the scheduler knows
    of the coroutine, results of system calls are arguments, and blocking
    calls are cut where the coroutine is suspended. *)

From S2P Require Import Prelude Protocol.

#[local] Open Scope Z_scope.

(** ** State *)

(** [struct pidfd_event]; [armed] is whether its (one-shot) source is
    enabled. *)
Record pidfd_event : Type := mk_pidfd {
  armed : bool;
  terminated : bool;
  wait_for_exit : bool;
  pf_target : bool;      (* interrupt.target_task is set, to the owner *)
  pf_reason : Z;
}.

Inductive waits : Type := OnExit | OnOther.

#[export] Instance waits_eq : EqDecision waits.
Proof. solve_decision. Defined.

(** The event, what its owner waits for, and the owner's interrupt state. *)
Record pf_state : Type := mk_pf {
  pfd : pidfd_event;
  pf_blocked : option waits;
  pf_cancelled : bool;
  pf_disabled : bool;
  pf_interrupt_reason : Z;
}.

Definition with_pfd (f : pidfd_event → pidfd_event) (s : pf_state) : pf_state :=
  mk_pf (f (pfd s)) (pf_blocked s) (pf_cancelled s) (pf_disabled s) (pf_interrupt_reason s).

(** [s_event_set] on the event, and [interrupt_task] on the owner. *)
Definition exit_event_set (s : pf_state) : pf_state :=
  if bool_decide (pf_blocked s = Some OnExit)
  then mk_pf (pfd s) None (pf_cancelled s) (pf_disabled s) (pf_interrupt_reason s) else s.

Definition pf_interrupt (r : Z) (s : pf_state) : pf_state :=
  if pf_disabled s then s else mk_pf (pfd s) None true false r.

(** ** Operations *)

Definition pidfd_event_handler (s : pf_state) : pf_state :=
  let s := with_pfd (λ e, mk_pidfd (armed e) true (wait_for_exit e) (pf_target e) (pf_reason e)) s in
  if wait_for_exit (pfd s) then
    let s := exit_event_set s in
    with_pfd (λ e, mk_pidfd (armed e) (terminated e) false (pf_target e) (pf_reason e)) s
  else if pf_target (pfd s) then pf_interrupt (pf_reason (pfd s)) s
  else s.

Definition pidfd_event_reg_interrupt (r : Z) (s : pf_state) : pf_state :=
  with_pfd (λ e, mk_pidfd (armed e) (terminated e) (wait_for_exit e) (negb (r =? 0)) (if r =? 0 then 0 else r)) s.

(** [Some rc] is a return, [None] that the coroutine is blocked. *)
Definition pidfd_event_wait_for_exit_begin (s : pf_state) : option Z * pf_state :=
  if terminated (pfd s) then (Some 0, s)
  else
    (None, mk_pf (mk_pidfd (armed (pfd s)) (terminated (pfd s)) true (pf_target (pfd s)) (pf_reason (pfd s)))
             (Some OnExit) false (pf_disabled s) (pf_interrupt_reason s)).

(** After [s_event_wait]; [off_rc] is the result of disabling the source. *)
Definition pidfd_event_wait_for_exit_end (off_rc : Z) (s : pf_state) : Z * pf_state :=
  let s' := mk_pf (pfd s) (pf_blocked s) false (pf_disabled s) (pf_interrupt_reason s) in
  if pf_cancelled s then
    (- EINTR,
     if off_rc <? 0 then s'
     else with_pfd (λ e, mk_pidfd false (terminated e) (wait_for_exit e) (pf_target e) (pf_reason e)) s')
  else (0, s').

(** ** Creating and destroying

    What is held: memory, an event source, and the descriptor, which must be
    closed once; a source that owns it closes it. *)

Record pf_held : Type := mk_pf_held { pf_memory : Z; pf_sources : Z; pf_opened : Z; pf_closed : Z }.

Definition init_pidfd_event (malloc_ok : bool) (errno pidfd open_errno add_rc own_rc enable_rc : Z) :
    Z * pf_held :=
  if negb malloc_ok then (- errno, mk_pf_held 0 0 0 0) else
  (* err_free_event, err_close_pidfd and err_free_source *)
  let err_free_event rc h := (rc, mk_pf_held (pf_memory h - 1) (pf_sources h) (pf_opened h) (pf_closed h)) in
  let err_close_pidfd rc (pidfd_owned : bool) h :=
    err_free_event rc (mk_pf_held (pf_memory h) (pf_sources h) (pf_opened h)
      (if pidfd_owned then pf_closed h else pf_closed h + 1)) in
  let err_free_source rc (pidfd_owned : bool) h :=
    err_close_pidfd rc pidfd_owned (mk_pf_held (pf_memory h) (pf_sources h - 1) (pf_opened h)
      (if pidfd_owned then pf_closed h + 1 else pf_closed h)) in
  let h := mk_pf_held 1 0 0 0 in
  if pidfd <? 0 then err_free_event (- open_errno) h else
  let h := mk_pf_held (pf_memory h) (pf_sources h) (pf_opened h + 1) (pf_closed h) in
  if add_rc <? 0 then err_close_pidfd add_rc false h else
  let h := mk_pf_held (pf_memory h) (pf_sources h + 1) (pf_opened h) (pf_closed h) in
  if own_rc <? 0 then err_free_source own_rc false h else
  if enable_rc <? 0 then err_free_source enable_rc true h else
  (enable_rc, h).

Definition destroy_pidfd_event (source_there : bool) (h : pf_held) : pf_held :=
  let h := if source_there
           then mk_pf_held (pf_memory h) (pf_sources h - 1) (pf_opened h) (pf_closed h + 1) else h in
  mk_pf_held (pf_memory h - 1) (pf_sources h) (pf_opened h) (pf_closed h).

(** ** The event over time

    The process ends once; the callback runs when it has and the source is
    armed, and only while the owner is not running. *)

Inductive pf_pc : Type := PfRuns | PfInWait | PfInOther.

Record pf_config : Type := mk_pfc { pf_sess : pf_state; pf_at : pf_pc; dead : bool; pf_results : list Z }.

Inductive pf_event : Type :=
  | Dies            (* the process ends *)
  | Notified        (* the event loop calls the handler *)
  | Waits           (* the owner calls pidfd_event_wait_for_exit *)
  | WaitsElse       (* the owner blocks in another call *)
  | Registers (r : Z)
  | OtherOver       (* the other call is answered *)
  | Interrupted (r : Z)
  | GoesOn.         (* the owner runs again *)

Definition pf_step (c : pf_config) (e : pf_event) : option pf_config :=
  let s := pf_sess c in
  match e, pf_at c with
  | Dies, _ => if dead c then None else Some (mk_pfc s (pf_at c) true (pf_results c))
  | Notified, (PfInWait | PfInOther) =>
      if dead c && armed (pfd s) then
        (* one-shot: the source is disabled when it is dispatched *)
        let s := with_pfd (λ e, mk_pidfd false (terminated e) (wait_for_exit e) (pf_target e) (pf_reason e)) s in
        Some (mk_pfc (pidfd_event_handler s) (pf_at c) true (pf_results c))
      else None
  | Registers r, PfRuns => Some (mk_pfc (pidfd_event_reg_interrupt r s) PfRuns (dead c) (pf_results c))
  | Waits, PfRuns =>
      match pidfd_event_wait_for_exit_begin s with
      | (Some rc, s') => Some (mk_pfc s' PfRuns (dead c) (rc :: pf_results c))
      | (None, s') => Some (mk_pfc s' PfInWait (dead c) (pf_results c))
      end
  | WaitsElse, PfRuns =>
      Some (mk_pfc (mk_pf (pfd s) (Some OnOther) false (pf_disabled s) (pf_interrupt_reason s))
        PfInOther (dead c) (pf_results c))
  | OtherOver, PfInOther =>
      if bool_decide (pf_blocked s = Some OnOther)
      then Some (mk_pfc (mk_pf (pfd s) None (pf_cancelled s) (pf_disabled s) (pf_interrupt_reason s))
        PfInOther (dead c) (pf_results c)) else None
  | Interrupted r, (PfInWait | PfInOther) =>
      Some (mk_pfc (pf_interrupt r s) (pf_at c) (dead c) (pf_results c))
  | GoesOn, PfInWait =>
      match pf_blocked s with
      | Some _ => None
      | None => let '(rc, s') := pidfd_event_wait_for_exit_end 0 s in
                Some (mk_pfc s' PfRuns (dead c) (rc :: pf_results c))
      end
  | GoesOn, PfInOther =>
      match pf_blocked s with
      | Some _ => None
      | None => Some (mk_pfc (mk_pf (pfd s) None false (pf_disabled s) (pf_interrupt_reason s))
                  PfRuns (dead c) (pf_results c))
      end
  | _, _ => None
  end.

Fixpoint pf_run (c : pf_config) (es : list pf_event) : option pf_config :=
  match es with [] => Some c | e :: es => c' ← pf_step c e; pf_run c' es end.

(** What [init_pidfd_event] leaves. *)
Definition pf_fresh (dis : bool) : pf_config :=
  mk_pfc (mk_pf (mk_pidfd true false false false 0) None false dis 0) PfRuns false [].

(** ** The invariant *)

Definition pf_waiting (c : pf_config) : Prop :=
  let s := pf_sess c in
  match pf_at c with
  | PfRuns => pf_blocked s = None ∧ pf_cancelled s = false
  | PfInWait =>
      (pf_blocked s = Some OnExit ∧ pf_cancelled s = false ∧ terminated (pfd s) = false ∧
       wait_for_exit (pfd s) = true) ∨
      (pf_blocked s = None ∧
       (pf_cancelled s = true ∨ terminated (pfd s) = true ∧ wait_for_exit (pfd s) = false))
  | PfInOther => pf_blocked s ≠ Some OnExit
  end.

Record pf_inv (c : pf_config) : Prop := {
  pi_waiting : pf_waiting c;
  pi_dead : terminated (pfd (pf_sess c)) = true → dead c = true;
  pi_zero : 0 ∈ pf_results c → dead c = true;
  pi_armed : - EINTR ∉ pf_results c →
    (armed (pfd (pf_sess c)) = true ∨ terminated (pfd (pf_sess c)) = true) ∧
    (wait_for_exit (pfd (pf_sess c)) = true → pf_at c = PfInWait);
}.

(** The cases of the invariant are propositional. *)
Ltac pf_cases := split; unfold pf_waiting in *; cbn in *; rewrite ?not_elem_of_cons, ?elem_of_cons;
  intuition (first [congruence | unfold EINTR in *; lia]).

Lemma pf_step_inv c e c' : pf_inv c → pf_step c e = Some c' → pf_inv c'.
Proof.
  destruct c as [[[ar te wf tg rs] bl ca di ir] at_ de res]. intros [Hw Hd Hz Ha] E.
  unfold pf_waiting in Hw. cbn in *.
  destruct e, at_; cbn in E; try done.
  1-3: destruct de; [done|]; simplify_eq; pf_cases.
  - destruct (de && ar) eqn:Hda; [|done]. apply andb_prop in Hda as [-> ->]. simplify_eq.
    unfold pidfd_event_handler, exit_event_set, pf_interrupt. cbn.
    destruct Hw as [(-> & -> & -> & ->)|[-> Hw]]; [pf_cases|].
    destruct wf; [pf_cases|]. destruct tg, di; pf_cases.
  - destruct (de && ar) eqn:Hda; [|done]. apply andb_prop in Hda as [-> ->]. simplify_eq.
    unfold pidfd_event_handler, exit_event_set, pf_interrupt. cbn.
    destruct wf; cbn.
    + rewrite bool_decide_eq_false_2 by done. pf_cases.
    + destruct tg, di; pf_cases.
  - unfold pidfd_event_wait_for_exit_begin in E. cbn in E. destruct te; simplify_eq; pf_cases.
  - simplify_eq. pf_cases.
  - simplify_eq. unfold pidfd_event_reg_interrupt. pf_cases.
  - case_bool_decide; simplify_eq. pf_cases.
  - simplify_eq. unfold pf_interrupt. cbn. destruct di; pf_cases.
  - simplify_eq. unfold pf_interrupt. cbn. destruct di; pf_cases.
  - destruct bl; [done|]. unfold pidfd_event_wait_for_exit_end in E. cbn in E. destruct ca; simplify_eq; pf_cases.
  - destruct bl; [done|]. simplify_eq. pf_cases.
Qed.

Lemma pf_run_inv es : ∀ c c', pf_inv c → pf_run c es = Some c' → pf_inv c'.
Proof.
  induction es as [|e es IH]; intros c c' Hinv; [by intros [= <-]|]. cbn [pf_run].
  destruct (pf_step c e) as [c1|] eqn:E; [|done]. intros Hr. eapply IH; [|done]. by eapply pf_step_inv.
Qed.

Lemma pf_fresh_inv dis : pf_inv (pf_fresh dis).
Proof. split; cbn; try done; [set_solver|by intros _; split; [left|]]. Qed.

(** ** Claims *)

(** C31. The end of the process is seen: a wait for it returns 0 only when the
    process has ended; as long as no wait was interrupted, a wait that is
    blocked returns 0 once the process has ended and the event loop has told
    so, and a wait that starts after that returns 0 at once. *)
Theorem process_exit_seen dis es c :
  pf_run (pf_fresh dis) es = Some c →
  (0 ∈ pf_results c → dead c = true) ∧
  (- EINTR ∉ pf_results c → pf_blocked (pf_sess c) = Some OnExit →
    ∃ c', pf_run c ((if dead c then [] else [Dies]) ++ [Notified; GoesOn]) = Some c' ∧
      pf_results c' = 0 :: pf_results c) ∧
  (terminated (pfd (pf_sess c)) = true → pf_at c = PfRuns →
    ∃ c', pf_run c [Waits] = Some c' ∧ pf_results c' = 0 :: pf_results c).
Proof.
  intros Hr. pose proof (pf_run_inv es _ _ (pf_fresh_inv dis) Hr) as [Hw Hd Hz Ha]. split; [done|].
  destruct c as [[[ar te wf tg rs] bl ca di ir] at_ de res]. unfold pf_waiting in Hw. cbn in *. split.
  - intros Hres ->. destruct (Ha Hres) as [Har _]. destruct at_; [naive_solver| |naive_solver].
    destruct Hw as [(_ & -> & -> & ->)|[? _]]; [|done]. destruct Har as [->|?]; [|done].
    destruct de; by eexists.
  - intros -> ->. by eexists.
Qed.

Lemma process_exit_seen_witness :
  ∃ c c', pf_run (pf_fresh false) [Registers 2; Waits] = Some c ∧
    pf_run c [Dies; Notified; GoesOn] = Some c' ∧ pf_results c' = [0].
Proof.
  set (c := default (pf_fresh false) (pf_run (pf_fresh false) [Registers 2; Waits])).
  assert (pf_run (pf_fresh false) [Registers 2; Waits] = Some c) as Hc by (vm_compute; reflexivity).
  destruct (proj1 (proj2 (process_exit_seen false [Registers 2; Waits] c Hc))) as (c' & H1 & H2).
  - vm_compute. intros H. inversion H.
  - vm_compute. reflexivity.
  - exists c, c'. split; [exact Hc|]. split; [exact H1|exact H2].
Defined.

(** Process events do not leak: a failed [init_pidfd_event] has freed its
    memory and source and closed the descriptor it opened exactly once,
    whether or not the source owned it already; after a successful one
    [destroy_pidfd_event] does. *)
Theorem pidfds_do_not_leak malloc_ok errno pidfd oerrno add_rc own_rc en_rc rc h :
  0 < errno → 0 < oerrno →
  init_pidfd_event malloc_ok errno pidfd oerrno add_rc own_rc en_rc = (rc, h) →
  (rc < 0 → pf_memory h = 0 ∧ pf_sources h = 0 ∧ pf_closed h = pf_opened h) ∧
  (0 <= rc → h = mk_pf_held 1 1 1 0 ∧ destroy_pidfd_event true h = mk_pf_held 0 0 1 1).
Proof.
  intros He Ho. unfold init_pidfd_event. destruct malloc_ok; cbn [negb]; [|intros; simplify_eq; split; [done|lia]].
  repeat case_match; intros; simplify_eq/=; rewrite ?Z.ltb_lt, ?Z.ltb_ge in *;
    split; intros; first [done|lia].
Qed.

Lemma pidfds_do_not_leak_witness :
  pf_closed (init_pidfd_event true 12 7 1 0 0 (-22)).2 = 1.
Proof.
  destruct (proj1 (pidfds_do_not_leak true 12 7 1 0 0 (-22) (-22) _ eq_refl eq_refl eq_refl) eq_refl)
    as (_ & _ & H). exact H.
Defined.
