(* ===== verification/MainLoop.v ===== *)
(** * The main loop and the end of the daemon (src/main.c); sleeping (src/se_libs.c)

    When the daemon exits: on SIGINT or SIGTERM, once all tasks have ended,
    or after twenty seconds without a task. One iteration of the main loop
    runs the coroutines, lets the event loop dispatch one callback, and looks
    at the task list. The results of the event loop's calls are arguments. *)

From S2P Require Import Prelude Protocol.

#[local] Open Scope Z_scope.

Inductive exit_req : Type := NOEXIT | EXIT_REQ_SENT | WAIT_TASKS.

#[export] Instance exit_req_eq : EqDecision exit_req.
Proof. solve_decision. Defined.

(** [g_exit_req], whether the sleep timer is enabled, how many tasks there
    were at each call of sd_event_exit, and how often all tasks were told that
    the system exits. *)
Record loop_state : Type := mk_loop {
  g_exit_req : exit_req;
  sleep_timer : bool;
  exit_calls : list nat;
  interrupts_sent : nat;
}.

(** ** Callbacks *)

Definition exit_req_handler (s : loop_state) : loop_state :=
  if bool_decide (g_exit_req s = NOEXIT)
  then mk_loop EXIT_REQ_SENT (sleep_timer s) (exit_calls s) (S (interrupts_sent s))
  else s.

(** [tasks] is the number of tasks; a failed exit is ignored here. *)
Definition sleep_timer_handler (tasks : nat) (s : loop_state) : loop_state :=
  if bool_decide (tasks = 0%nat)
  then mk_loop (g_exit_req s) (sleep_timer s) (tasks :: exit_calls s) (interrupts_sent s)
  else s.

(** ** The part of the loop after sd_event_run *)

(** Results of sd_event_run, sd_event_exit, sd_event_source_get_enabled,
    ..._set_time_relative and ..._set_enabled. *)
Record loop_rcs : Type := mk_rcs { run_rc : Z; exit_rc : Z; get_rc : Z; time_rc : Z; set_rc : Z }.

Inductive loop_next : Type :=
  | LoopBreak
  | LoopReturn (status : Z)
  | LoopAgain (s : loop_state).

Definition set_sleep_timer (b : bool) (s : loop_state) : loop_state :=
  mk_loop (g_exit_req s) b (exit_calls s) (interrupts_sent s).

Definition main_loop_tail (r : loop_rcs) (tasks : nat) (s : loop_state) : loop_next :=
  if run_rc r =? - ESTALE then LoopBreak
  else if run_rc r <? 0 then LoopReturn (-1)
  else if bool_decide (g_exit_req s = EXIT_REQ_SENT) && bool_decide (tasks = 0%nat) then
    if exit_rc r <? 0 then LoopReturn (-1)
    else LoopAgain (mk_loop WAIT_TASKS (sleep_timer s) (tasks :: exit_calls s) (interrupts_sent s))
  else if bool_decide (tasks = 0%nat) then
    if get_rc r <? 0 then LoopReturn (-1)
    else if negb (sleep_timer s) then
      if time_rc r <? 0 then LoopReturn (-1)
      else if set_rc r <? 0 then LoopReturn (-1)
      else LoopAgain (set_sleep_timer true s)
    else LoopAgain s
  else
    if get_rc r <? 0 then LoopReturn (-1)
    else if sleep_timer s then
      if set_rc r <? 0 then LoopReturn (-1)
      else LoopAgain (set_sleep_timer false s)
    else LoopAgain s.

(** ** Iterations *)

(** What the event loop dispatches: a signal, the timer (one-shot: it is
    disabled then, and it does not fire when it is disabled), or something
    else. *)
Inductive dispatch : Type := Signal | SleepTimer | Other.

(** One iteration: [tasks1] tasks when the callback runs, [tasks2] after it;
    only callbacks of other sources change the number of tasks. *)
Definition main_loop_iteration (d : dispatch) (tasks1 tasks2 : nat) (r : loop_rcs) (s : loop_state) :
    option loop_next :=
  match d with
  | Signal => if bool_decide (tasks1 = tasks2) then Some (main_loop_tail r tasks2 (exit_req_handler s)) else None
  | SleepTimer =>
      if bool_decide (tasks1 = tasks2) && sleep_timer s
      then Some (main_loop_tail r tasks2 (sleep_timer_handler tasks1 (set_sleep_timer false s)))
      else None
  | Other => Some (main_loop_tail r tasks2 s)
  end.

Definition loop_start : loop_state := mk_loop NOEXIT false [] 0.

(** [looped s n]: after some iterations of the main loop, of which the last
    found [n] tasks. *)
Inductive looped : loop_state → nat → Prop :=
  | loop_once d t1 t2 r s :
      main_loop_iteration d t1 t2 r loop_start = Some (LoopAgain s) → looped s t2
  | loop_more d t1 t2 r s n s' :
      looped s n → main_loop_iteration d t1 t2 r s = Some (LoopAgain s') → looped s' t2.

(** ** The invariant *)

Record loop_inv (s : loop_state) : Prop := {
  li_exits : Forall (λ n, n = 0%nat) (exit_calls s);
  li_wait : g_exit_req s = WAIT_TASKS → exit_calls s ≠ [];
  li_sent : interrupts_sent s = match g_exit_req s with NOEXIT => 0%nat | _ => 1%nat end;
}.

(** What the last iteration settled. *)
Definition settled (s : loop_state) (n : nat) : Prop :=
  (g_exit_req s = EXIT_REQ_SENT → n ≠ 0%nat) ∧
  (sleep_timer s = true → n = 0%nat) ∧
  (n = 0%nat → sleep_timer s = true ∨ g_exit_req s = WAIT_TASKS).

Lemma tail_inv r n s s' :
  loop_inv s → main_loop_tail r n s = LoopAgain s' → loop_inv s' ∧ settled s' n.
Proof.
  intros [H1 H2 H3] E. destruct s as [q t xs k]. unfold main_loop_tail in E. cbn in *.
  destruct (run_rc r =? - ESTALE); [done|]. destruct (run_rc r <? 0); [done|].
  destruct (bool_decide (q = EXIT_REQ_SENT) && bool_decide (n = 0%nat)) eqn:Hexit.
  - apply andb_prop in Hexit as [Hq Hn]. rewrite bool_decide_eq_true in Hq, Hn. subst.
    destruct (exit_rc r <? 0); [done|]. simplify_eq. split; [split; cbn|]; [by constructor|done|done|].
    by split_and!; cbn; [|by destruct t|right].
  - assert (q = EXIT_REQ_SENT → n ≠ 0%nat) as Hs.
    { intros -> ->. by rewrite !bool_decide_eq_true_2 in Hexit. }
    destruct (bool_decide (n = 0%nat)) eqn:Hn; rewrite ?bool_decide_eq_true, ?bool_decide_eq_false in Hn;
      (destruct (get_rc r <? 0); [done|]); destruct t; cbn in E; repeat case_match; simplify_eq;
      (split; [by split|]); unfold settled; cbn; split_and!; naive_solver.
Qed.

Lemma exit_req_handler_inv s : loop_inv s → loop_inv (exit_req_handler s).
Proof.
  intros [H1 H2 H3]. unfold exit_req_handler. case_bool_decide as E; [|by split].
  split; cbn; [done|done|]. rewrite E in H3. lia.
Qed.

Lemma sleep_timer_handler_inv n s :
  loop_inv s → loop_inv (sleep_timer_handler n (set_sleep_timer false s)).
Proof.
  intros [H1 H2 H3]. unfold sleep_timer_handler, set_sleep_timer. case_bool_decide as E; cbn; [|by split].
  split; cbn; [by constructor|done|done].
Qed.

Lemma iteration_inv d t1 t2 r s s' :
  loop_inv s → main_loop_iteration d t1 t2 r s = Some (LoopAgain s') → loop_inv s' ∧ settled s' t2.
Proof.
  intros Hinv E. unfold main_loop_iteration in E. destruct d.
  - case_bool_decide; [|done]. injection E as E. eapply tail_inv; [|done]. by apply exit_req_handler_inv.
  - destruct (_ && _); [|done]. injection E as E. eapply tail_inv; [|done]. by apply sleep_timer_handler_inv.
  - injection E as E. by eapply tail_inv.
Qed.

Lemma looped_inv s n : looped s n → loop_inv s ∧ settled s n.
Proof.
  induction 1 as [d t1 t2 r s E|d t1 t2 r s n s' _ [IH _] E]; (eapply iteration_inv; [|done]); [|done].
  split; cbn; [constructor|done|done].
Qed.

(** ** Claims *)

(** C30. The daemon exits only when it is idle, and it does: every call of
    sd_event_exit is made when there is no task; once an exit was requested,
    no iteration ends without tasks and without the exit being called; the
    sleep timer is armed at the end of an iteration just when there is no task
    (or the exit was called already); and the tasks are interrupted once, by
    the first signal. *)
Theorem exits_only_when_idle s n :
  looped s n →
  Forall (λ k, k = 0%nat) (exit_calls s) ∧
  (g_exit_req s ≠ NOEXIT → n = 0%nat → exit_calls s ≠ []) ∧
  (sleep_timer s = true → n = 0%nat) ∧
  (n = 0%nat → sleep_timer s = true ∨ exit_calls s ≠ []) ∧
  (interrupts_sent s <= 1)%nat.
Proof.
  intros [[H1 H2 H3] (H4 & H5 & H6)]%looped_inv. split_and!; [done| |done| |].
  - intros Hq Hn. destruct (g_exit_req s); [done|by destruct (H4 eq_refl)|by apply H2].
  - intros Hn. destruct (H6 Hn) as [?|?]; [by left|right; by apply H2].
  - rewrite H3. destruct (g_exit_req s); lia.
Qed.

(** A connection comes, then SIGTERM, then its task ends. *)
Definition ok_rcs : loop_rcs := mk_rcs 1 0 0 0 0.

Lemma exits_only_when_idle_witness :
  ∃ s, looped s 0 ∧ exit_calls s = [0%nat] ∧ Forall (λ k, k = 0%nat) (exit_calls s).
Proof.
  assert (looped (mk_loop WAIT_TASKS false [0%nat] 1) 0) as H.
  { apply (loop_more Other 1 0 ok_rcs (mk_loop EXIT_REQ_SENT false [] 1) 1); [|reflexivity].
    apply (loop_more Signal 1 1 ok_rcs (mk_loop NOEXIT false [] 0) 1); [|reflexivity].
    apply (loop_once Other 0 1 ok_rcs). reflexivity. }
  exists (mk_loop WAIT_TASKS false [0%nat] 1). split; [exact H|]. split; [reflexivity|].
  exact (proj1 (exits_only_when_idle _ _ H)).
Defined.

(** ** Sleeping *)

(** [struct se_timer_arg], the coroutine blocked on it, and whether its timer
    source is held. *)
Record sleep_state : Type := mk_sleep {
  sl_error : Z; sl_blocked : bool; sl_cancelled : bool; sl_source : bool;
}.

(** [timer_handler]; [off_rc] is the result of disabling the timer. *)
Definition timer_handler (off_rc : Z) (s : sleep_state) : sleep_state :=
  mk_sleep (if off_rc <? 0 then off_rc else sl_error s) false (sl_cancelled s) (sl_source s).

(** [se_task_usleep] up to its wait and after it; [add_rc] is the result of
    adding the timer. *)
Definition se_task_usleep_begin (add_rc : Z) : option Z * sleep_state :=
  if add_rc <? 0 then (Some add_rc, mk_sleep 0 false false false)
  else (None, mk_sleep 0 true false true).

Definition se_task_usleep_end (s : sleep_state) : Z * sleep_state :=
  let wait_rc := if sl_cancelled s then -1 else 0 in
  let rc := if wait_rc <? 0 then - EINTR
            else if negb (sl_error s =? 0) then sl_error s else wait_rc in
  (rc, mk_sleep (sl_error s) (sl_blocked s) false false).

(** Interrupting the sleeper. *)
Definition interrupt_sleep (s : sleep_state) : sleep_state :=
  mk_sleep (sl_error s) false true (sl_source s).

(** Sleeping ends with 0 when the time is over, with EINTR when it was
    interrupted, also if both happened, and always gives its timer back. *)
Lemma usleep_result add_rc s :
  0 <= add_rc → (se_task_usleep_begin add_rc).2 = s →
  sl_blocked s = true ∧
  se_task_usleep_end (timer_handler 0 s) = (0, mk_sleep 0 false false false) ∧
  se_task_usleep_end (interrupt_sleep s) = (- EINTR, mk_sleep 0 false false false) ∧
  se_task_usleep_end (interrupt_sleep (timer_handler 0 s)) = (- EINTR, mk_sleep 0 false false false).
Proof. intros Ha. unfold se_task_usleep_begin. by rewrite (proj2 (Z.ltb_ge _ _) Ha); intros <-. Qed.
