(* ===== verification/BpfMaps.v ===== *)
(** * The daemon's side of the rate limit map (src/tcbpf_util.c, last part)

    Setting, removing and looking up the limit of a cgroup through bpf(2),
    and the size given to the maps when the program is loaded. The system
    call on a hash map is a parameter with its documented laws. *)

From S2P Require Import Prelude RateLimit.

#[local] Open Scope Z_scope.

(** ** The kernel *)

Abbreviation limit_map := (gmap Z rate_limit).

Definition E2BIG : Z := 7.

(** The three commands on a BPF_MAP_TYPE_HASH of [max_entries] entries: the
    result of syscall(2), the value of errno if it is negative, and the map or
    the entry. BPF_ANY creates or overwrites; a full map refuses a new key. *)
Class KernelMap : Type := {
  max_entries : Z;
  sys_update : limit_map → Z → rate_limit → Z * Z * limit_map;
  sys_delete : limit_map → Z → Z * Z * limit_map;
  sys_lookup : limit_map → Z → Z * Z * option rate_limit;
}.

Class KernelMapLaws (K : KernelMap) : Prop := {
  update_done m k v rc e m' :
    sys_update m k v = (rc, e, m') → 0 <= rc → m' = <[k := v]> m;
  update_failed m k v rc e m' :
    sys_update m k v = (rc, e, m') → rc < 0 → m' = m ∧ 0 < e;
  update_room m k v rc e m' :
    sys_update m k v = (rc, e, m') → Z.of_nat (size m) < max_entries ∨ is_Some (m !! k) → 0 <= rc;
  delete_there m k rc e m' :
    sys_delete m k = (rc, e, m') → is_Some (m !! k) → 0 <= rc ∧ m' = delete k m;
  delete_not_there m k rc e m' :
    sys_delete m k = (rc, e, m') → m !! k = None → rc < 0 ∧ e = ENOENT ∧ m' = m;
  lookup_there m k v :
    m !! k = Some v → ∃ rc e, sys_lookup m k = (rc, e, Some v) ∧ 0 <= rc;
  lookup_not_there m k :
    m !! k = None → ∃ rc, sys_lookup m k = (rc, ENOENT, None) ∧ rc < 0;
}.

(** A map that follows the documentation. *)
Definition hash_map (n : Z) : KernelMap := {|
  max_entries := n;
  sys_update m k v :=
    if (Z.of_nat (size m) <? n) || bool_decide (is_Some (m !! k)) then (0, 0, <[k := v]> m)
    else (-1, E2BIG, m);
  sys_delete m k := if bool_decide (is_Some (m !! k)) then (0, 0, delete k m) else (-1, ENOENT, m);
  sys_lookup m k := match m !! k with Some v => (0, 0, Some v) | None => (-1, ENOENT, None) end;
|}.

#[export] Instance hash_map_laws n : KernelMapLaws (hash_map n).
Proof.
  split; simpl; intros m k.
  - intros v rc e m'. case_match; intros; simplify_eq; [done|lia].
  - intros v rc e m'. case_match; intros; simplify_eq; [lia|by vm_compute].
  - intros v rc e m' Hu Hr. destruct (Z.ltb_spec (Z.of_nat (size m)) n); simpl in Hu; [by simplify_eq|].
    case_bool_decide; simplify_eq; [done|]. destruct Hr; [lia|done].
  - intros rc e m' Hd Hs. rewrite bool_decide_eq_true_2 in Hd by done. by simplify_eq.
  - intros rc e m' Hd Hs. rewrite bool_decide_eq_false_2 in Hd by (rewrite Hs; by intros []).
    by simplify_eq.
  - intros v ->. by exists 0, 0.
  - intros ->. by eexists.
Qed.

(** ** The wrappers *)

Section wrappers.
Context `{K : KernelMap}.

Definition bpf_map_update_elem (m : limit_map) (k : Z) (v : rate_limit) : Z * limit_map :=
  let '(rc, errno, m') := sys_update m k v in (if rc <? 0 then - errno else rc, m').

Definition bpf_map_delete_elem (m : limit_map) (k : Z) : Z * limit_map :=
  let '(rc, errno, m') := sys_delete m k in (if rc <? 0 then - errno else rc, m').

Definition bpf_lookup_elem (m : limit_map) (k : Z) : Z * option rate_limit :=
  let '(rc, errno, v) := sys_lookup m k in (if rc <? 0 then - errno else rc, v).

Definition cgroup_rate_limit_set (m : limit_map) (cg_id : Z) (limit : rate_limit) : Z * limit_map :=
  bpf_map_update_elem m cg_id limit.

Definition cgroup_rate_limit_unset (m : limit_map) (cg_id : Z) : Z * limit_map :=
  bpf_map_delete_elem m cg_id.

Definition cgroup_rate_limit_check (m : limit_map) (cg_id : Z) : Z :=
  let '(rc, _) := bpf_lookup_elem m cg_id in
  if rc <? 0 then if rc =? - ENOENT then 0 else rc else 1.

Context `{!KernelMapLaws K}.

Lemma set_spec m k v :
  let '(rc, m') := cgroup_rate_limit_set m k v in
  (0 <= rc ∧ m' = <[k := v]> m) ∨ (rc < 0 ∧ m' = m).
Proof.
  unfold cgroup_rate_limit_set, bpf_map_update_elem.
  destruct (sys_update m k v) as [[rc e] m'] eqn:E. destruct (Z.ltb_spec rc 0).
  - destruct (update_failed _ _ _ _ _ _ E) as [-> ?]; [done|]. right. split; [lia|done].
  - left. split; [done|]. by eapply update_done.
Qed.

Lemma set_room m k v :
  Z.of_nat (size m) < max_entries ∨ is_Some (m !! k) →
  ∃ rc, cgroup_rate_limit_set m k v = (rc, <[k := v]> m) ∧ 0 <= rc.
Proof.
  intros Hr. unfold cgroup_rate_limit_set, bpf_map_update_elem.
  destruct (sys_update m k v) as [[rc e] m'] eqn:E.
  pose proof (update_room _ _ _ _ _ _ E Hr) as Hrc. exists rc.
  rewrite (proj2 (Z.ltb_ge _ _) Hrc). split; [|done]. f_equal. by eapply update_done.
Qed.

Lemma unset_spec m k :
  let '(rc, m') := cgroup_rate_limit_unset m k in
  m' = delete k m ∧ (0 <= rc ↔ is_Some (m !! k)).
Proof.
  unfold cgroup_rate_limit_unset, bpf_map_delete_elem.
  destruct (sys_delete m k) as [[rc e] m'] eqn:E. destruct (m !! k) as [v|] eqn:Hk.
  - destruct (delete_there _ _ _ _ _ E) as [H ->]; [by eexists|].
    rewrite (proj2 (Z.ltb_ge _ _) H). naive_solver.
  - destruct (delete_not_there _ _ _ _ _ E Hk) as (H & -> & ->).
    rewrite (proj2 (Z.ltb_lt _ _) H). split; [by rewrite delete_id|].
    unfold ENOENT. split; [lia|by intros []].
Qed.

Lemma check_spec m k :
  cgroup_rate_limit_check m k = if bool_decide (is_Some (m !! k)) then 1 else 0.
Proof.
  unfold cgroup_rate_limit_check, bpf_lookup_elem. destruct (m !! k) as [v|] eqn:Hk.
  - destruct (lookup_there _ _ _ Hk) as (rc & e & -> & H).
    rewrite (proj2 (Z.ltb_ge _ _) H), (proj2 (Z.ltb_ge _ _) H).
    by rewrite bool_decide_eq_true_2 by by eexists.
  - destruct (lookup_not_there _ _ Hk) as (rc & -> & H). rewrite (proj2 (Z.ltb_lt _ _) H).
    rewrite bool_decide_eq_false_2 by (by intros []). reflexivity.
Qed.

End wrappers.

(** ** The size of the maps *)

(** [open_and_load_bpf_obj]: what it passes to bpf_map__set_max_entries; the
    additions are on [int]. *)
Definition map_size (max_tasks : Z) : option Z :=
  if (INT_MAX <? max_tasks + 7) || (INT_MAX <? max_tasks + (max_tasks + 7) / 8) then None
  else Some (max_tasks + (max_tasks + 7) / 8).

(** ** Claims *)

(** The daemon sees the map as it is: after a successful
    [cgroup_rate_limit_set] the check finds the cgroup and the packet
    scheduler sees the limit; after [cgroup_rate_limit_unset] neither does,
    whether or not there was a limit; a failed set changes nothing and other
    cgroups are never affected; a set fails only if the map is full. *)
Theorem limits_set_and_unset `{KL : KernelMapLaws} m k v :
  (∀ rc m', cgroup_rate_limit_set m k v = (rc, m') →
    (0 <= rc → m' !! k = Some v ∧ cgroup_rate_limit_check m' k = 1) ∧
    (rc < 0 → m' = m ∧ max_entries <= Z.of_nat (size m)) ∧
    ∀ k', k' ≠ k → m' !! k' = m !! k') ∧
  (∀ rc m', cgroup_rate_limit_unset m k = (rc, m') →
    m' !! k = None ∧ cgroup_rate_limit_check m' k = 0 ∧ (rc < 0 ↔ m !! k = None) ∧
    ∀ k', k' ≠ k → m' !! k' = m !! k').
Proof.
  split; intros rc m' E.
  - pose proof (set_spec m k v) as Hs. rewrite E in Hs. destruct Hs as [[Hrc ->]|[Hrc ->]].
    + split_and!; [|lia|intros; by rewrite lookup_insert_ne].
      intros _. rewrite lookup_insert_eq, check_spec, lookup_insert_eq.
      by rewrite bool_decide_eq_true_2 by by eexists.
    + split_and!; [lia| |done]. intros _. split; [done|].
      destruct (decide (Z.of_nat (size m) < max_entries)) as [Hlt|]; [|lia].
      destruct (set_room m k v (or_introl Hlt)) as (rc' & E' & Hrc'). rewrite E in E'. simplify_eq. lia.
  - pose proof (unset_spec m k) as Hs. rewrite E in Hs. destruct Hs as [-> Hrc].
    rewrite check_spec, lookup_delete_eq. split_and!; [done| | |intros; by rewrite lookup_delete_ne].
    + rewrite bool_decide_eq_false_2; [done|by intros []].
    + destruct (m !! k) as [w|]; [|split; [done|]; intros _].
      * split; [|done]. intros. assert (0 <= rc) by (apply Hrc; by eexists). lia.
      * destruct (decide (0 <= rc)) as [H|]; [|lia]. apply Hrc in H. by destruct H.
Qed.

Lemma limits_set_and_unset_witness :
  ∃ rc m', @cgroup_rate_limit_set (hash_map 1125) ∅ 42 (mk_rate_limit 1 1) = (rc, m') ∧
    @cgroup_rate_limit_check (hash_map 1125) m' 42 = 1.
Proof.
  eexists _, _. split; [vm_compute; reflexivity|].
  refine (proj2 (proj1 (proj1 (limits_set_and_unset (K := hash_map 1125) ∅ 42 (mk_rate_limit 1 1)) _ _ _) _));
    [vm_compute; reflexivity|done].
Defined.

(** The maps are large enough: for every positive number of tasks up to
    1,900,000,000 the size the maps are created with is computed without
    overflow and leaves at least one entry in nine, and one more, free; for the
    daemon's 1000 tasks it is 1125. *)
Theorem map_size_suffices max_tasks :
  0 < max_tasks <= 1900000000 →
  ∃ n, map_size max_tasks = Some n ∧ max_tasks < n ∧ 9 * max_tasks <= 8 * n ∧ map_size 1000 = Some 1125.
Proof.
  intros Hm. unfold map_size, INT_MAX.
  pose proof (Z.div_mod (max_tasks + 7) 8 ltac:(lia)). pose proof (Z.mod_pos_bound (max_tasks + 7) 8 ltac:(lia)).
  rewrite !(proj2 (Z.ltb_ge _ _)) by lia. eexists. split_and!; [done|lia|lia|done].
Qed.

Lemma map_size_suffices_witness : ∃ n, map_size 1000 = Some n ∧ 1000 < n.
Proof.
  destruct (map_size_suffices 1000 ltac:(lia)) as (n & H & Hlt & _). exists n. split; [exact H|exact Hlt].
Defined.
