(* ===== verification/Netlink.v ===== *)
(** * Netlink messages as bytes (src/tcbpf_util.c, linux/netlink.h)

    The requests that set up traffic control are built in place, in a struct
    of fixed size; the answer about an interface is read in place. Memory is
    the list of its bytes: an access outside of it is a fault, and so is the
    [abort] of [addattr_l]. Layout as in [Protocol]: little-endian. *)

From S2P Require Import Prelude RateLimit Protocol.

#[local] Open Scope Z_scope.

(** ** Constants of the kernel's headers *)

Definition RTM_NEWLINK : Z := 16.
Definition RTM_DELLINK : Z := 17.
Definition RTM_GETLINK : Z := 18.
Definition RTM_NEWQDISC : Z := 36.
Definition RTM_DELQDISC : Z := 37.
Definition RTM_NEWTFILTER : Z := 44.
Definition RTM_DELTFILTER : Z := 45.
Definition NLM_F_REQUEST : Z := 1.
Definition NLM_F_MULTI : Z := 2.
Definition NLM_F_ACK : Z := 4.
Definition NLM_F_REPLACE : Z := 256.
Definition NLM_F_CREATE : Z := 1024.
Definition NLMSG_ERROR : Z := 2.
Definition NLMSG_DONE : Z := 3.
Definition NLA_F_NESTED : Z := 32768.
Definition IFLA_QDISC : Z := 6.
Definition IFLA_NUM_TX_QUEUES : Z := 31.
Definition TCA_KIND : Z := 1.
Definition TCA_OPTIONS : Z := 2.
Definition TCA_BPF_FD : Z := 6.
Definition TCA_BPF_NAME : Z := 7.
Definition TCA_BPF_FLAGS : Z := 8.
Definition TCA_BPF_FLAG_ACT_DIRECT : Z := 1.
Definition TC_H_UNSPEC : Z := 0.
Definition TC_H_ROOT : Z := 4294967295.
Definition TC_H_CLSACT : Z := 4294967281.
Definition TC_H_MIN_EGRESS : Z := 65523.
Definition AF_UNSPEC : Z := 0.

(** [htons(ETH_P_ALL)]. *)
Definition ETH_P_ALL_BE : Z := 768.

(** sizeof of struct nlmsghdr, tcmsg, ifinfomsg, rtattr and nlmsgerr. *)
Definition NLMSGHDR_SIZE : Z := 16.
Definition TCMSG_SIZE : Z := 20.
Definition IFINFOMSG_SIZE : Z := 16.
Definition RTATTR_SIZE : Z := 4.
Definition NLMSGERR_SIZE : Z := 20.

Definition TCA_BUF_MAX : Z := 64 * 1024.

(** The macros of the headers; the alignments are computed in 32 bits. *)
Definition NLMSG_ALIGN (len : Z) : Z := u32 (Z.land (len + 3) (Z.lnot 3)).
Definition RTA_ALIGN (len : Z) : Z := u32 (Z.land (len + 3) (Z.lnot 3)).
Definition NLMSG_LENGTH (len : Z) : Z := len + NLMSGHDR_SIZE.
Definition RTA_LENGTH (len : Z) : Z := RTATTR_SIZE + len.
Definition TC_H_MAKE (maj min : Z) : Z :=
  Z.lor (Z.land (u32 maj) 4294901760) (Z.land (u32 min) 65535).

(** A literal of the source as the bytes of its characters, without the
    terminating zero. *)
Definition bytes (s : string) : list Z :=
  (λ c, Z.of_N (Ascii.N_of_ascii c)) <$> String.list_ascii_of_string s.

(** ** Memory *)

(** Reading [n] bytes at [off] as a little-endian integer. *)
Definition rd (n off : Z) (mem : list Z) : option Z :=
  if (0 <=? off) && (off + n <=? Z.of_nat (length mem))
  then Some (field (Z.to_nat off) (Z.to_nat n) mem) else None.

(** Writing bytes at [off]. *)
Definition splice (off : nat) (bs mem : list Z) : list Z :=
  take off mem ++ bs ++ drop (off + length bs) mem.

Definition wr (off : Z) (bs : list Z) : ST (list Z) unit := λ mem,
  if (0 <=? off) && (off + Z.of_nat (length bs) <=? Z.of_nat (length mem))
  then Some (tt, splice (Z.to_nat off) bs mem) else None.

(** ** Building messages *)

(** [NLMSG_TAIL]: the offset of the next attribute. *)
Definition NLMSG_TAIL : ST (list Z) Z :=
  len ← gets (rd 4 0); mret (NLMSG_ALIGN len).

Definition addattr_l (maxlen type : Z) (data : list Z) : ST (list Z) Z :=
  let len := s32 (RTA_LENGTH (Z.of_nat (length data))) in
  nlmsg_len ← gets (rd 4 0);
  if maxlen <? u32 (NLMSG_ALIGN nlmsg_len + RTA_ALIGN len) then fault
  else
    rta ← NLMSG_TAIL;
    wr (rta + 2) (le 2 type);;
    wr rta (le 2 len);;
    wr (rta + RTATTR_SIZE) data;;
    wr 0 (le 4 (u32 (NLMSG_ALIGN nlmsg_len + RTA_ALIGN len)));;
    mret 0.

Definition addattr32 (maxlen type data : Z) : ST (list Z) Z :=
  addattr_l maxlen type (le 4 data).

Definition addattrstrz (maxlen type : Z) (str : list Z) : ST (list Z) Z :=
  addattr_l maxlen type (str ++ [0]).

(** ** The requests *)

Definition nlmsghdr_bytes (len type flags seq pid : Z) : list Z :=
  le 4 len ++ le 2 type ++ le 2 flags ++ le 4 seq ++ le 4 pid.

(** [struct tcmsg]: family and three bytes of padding, ifindex, handle,
    parent, info. *)
Definition tcmsg_bytes (ifindex handle parent info : Z) : list Z :=
  le 4 AF_UNSPEC ++ le 4 ifindex ++ le 4 handle ++ le 4 parent ++ le 4 info.

(** The struct [req] of the functions below as it is initialised: what is not
    named is zero. *)
Definition tc_req (flags type ifindex handle parent info : Z) : list Z :=
  nlmsghdr_bytes (NLMSG_LENGTH TCMSG_SIZE) type flags 0 0 ++
  tcmsg_bytes ifindex handle parent info ++ replicate (Z.to_nat TCA_BUF_MAX) 0.

Definition REQ_SIZE : Z := NLMSGHDR_SIZE + TCMSG_SIZE + TCA_BUF_MAX.

Inductive qidsc_kind : Type :=
  | QDISC_KIND_MQ | QDISC_KIND_FQ | QDISC_KIND_NOQUEUE | QDISC_KIND_CLSACT | QDISC_KIND_OTHER.

#[export] Instance qidsc_kind_eq : EqDecision qidsc_kind.
Proof. solve_decision. Defined.

Definition qdisc_name (q : qidsc_kind) : option (list Z) :=
  match q with
  | QDISC_KIND_FQ => Some (bytes "fq")
  | QDISC_KIND_MQ => Some (bytes "mq")
  | QDISC_KIND_NOQUEUE => Some (bytes "noqueue")
  | QDISC_KIND_CLSACT => Some (bytes "clsact")
  | QDISC_KIND_OTHER => None
  end.

(** The struct [req] that [tc_replace_qdisc] passes to [rtnl_talk]. *)
Definition replace_qdisc_req (ifindex parent handle : Z) (kind_name : list Z) : option (list Z) :=
  '(_, req) ← addattrstrz REQ_SIZE TCA_KIND kind_name
    (tc_req (NLM_F_REQUEST + NLM_F_CREATE + NLM_F_REPLACE) RTM_NEWQDISC ifindex handle parent 0);
  Some req.

Definition del_qdisc_req (ifindex parent handle : Z) : list Z :=
  tc_req NLM_F_REQUEST RTM_DELQDISC ifindex handle parent 0.

Definition del_filter_req (ifindex parent prio : Z) : list Z :=
  tc_req NLM_F_REQUEST RTM_DELTFILTER ifindex 0 parent (TC_H_MAKE (Z.shiftl prio 16) 0).

(** The attributes of [tc_replace_bpf_filter], with the options nested. *)
Definition bpf_filter_attrs (bpf_fd : Z) (name : list Z) : ST (list Z) unit :=
  addattrstrz REQ_SIZE TCA_KIND (bytes "bpf");;
  tail ← NLMSG_TAIL;
  addattr_l REQ_SIZE TCA_OPTIONS [];;
  addattr32 REQ_SIZE TCA_BPF_FD bpf_fd;;
  addattr32 REQ_SIZE TCA_BPF_FD bpf_fd;;
  addattrstrz REQ_SIZE TCA_BPF_NAME name;;
  addattr32 REQ_SIZE TCA_BPF_FLAGS TCA_BPF_FLAG_ACT_DIRECT;;
  nlmsg_len ← gets (rd 4 0);
  wr tail (le 2 (nlmsg_len - tail)).

Definition replace_bpf_filter_req (ifindex parent prio handle bpf_fd : Z) (name : list Z)
  : option (list Z) :=
  '(_, req) ← bpf_filter_attrs bpf_fd name
    (tc_req (NLM_F_REQUEST + NLM_F_CREATE) RTM_NEWTFILTER ifindex handle parent
      (TC_H_MAKE (Z.shiftl prio 16) ETH_P_ALL_BE));
  Some req.

(** ** Reading attributes *)

(** [RTA_OK] reads the length only if a header fits in [len]. *)
Definition RTA_OK (mem : list Z) (rta len : Z) : option bool :=
  if len <? RTATTR_SIZE then Some false
  else
    rta_len ← rd 2 rta mem;
    Some ((RTATTR_SIZE <=? rta_len) && (rta_len <=? len)).

Definition RTA_DATA (rta : Z) : Z := rta + RTATTR_SIZE.

(** [strcmp(s, lit) == 0] for a string in memory and a literal. *)
Fixpoint streq (mem : list Z) (s : Z) (lit : list Z) : option bool :=
  b ← rd 1 s mem;
  match lit with
  | [] => Some (b =? 0)
  | c :: lit => if b =? c then streq mem (s + 1) lit else Some false
  end.

Record iface_attr : Type := mk_iface { num_tx_queues : Z; qdisc_kind : qidsc_kind }.

(** The comparisons of [get_iface_props] with the names it knows. *)
Definition kind_of_name (mem : list Z) (s : Z) : option qidsc_kind :=
  is_fq ← streq mem s (bytes "fq");
  if is_fq : bool then Some QDISC_KIND_FQ
  else
    is_mq ← streq mem s (bytes "mq");
    if is_mq : bool then Some QDISC_KIND_MQ
    else
      is_noqueue ← streq mem s (bytes "noqueue");
      if is_noqueue : bool then Some QDISC_KIND_NOQUEUE
      else
        is_clsact ← streq mem s (bytes "clsact");
        if is_clsact : bool then Some QDISC_KIND_CLSACT else Some QDISC_KIND_OTHER.

(** One iteration's effect on [found] and [found_result]. *)
Definition props_visit (mem : list Z) (rt_attr : Z) (found : Z) (result : iface_attr)
  : option (Z * iface_attr) :=
  rta_type ← rd 2 (rt_attr + 2) mem;
  let type := Z.land rta_type (Z.lnot NLA_F_NESTED) in
  if type =? IFLA_NUM_TX_QUEUES then
    v ← rd 4 (RTA_DATA rt_attr) mem;
    Some (Z.lor found 1, mk_iface (s32 v) (qdisc_kind result))
  else if type =? IFLA_QDISC then
    k ← kind_of_name mem (RTA_DATA rt_attr);
    Some (Z.lor found 2, mk_iface (num_tx_queues result) k)
  else Some (found, result).

(** The loop: [None] is a fault, [Some None] is out of fuel. *)
Fixpoint props_loop (fuel : nat) (mem : list Z) (rt_attr attr_len found : Z) (result : iface_attr)
  : option (option (Z * iface_attr)) :=
  match fuel with
  | O => Some None
  | S fuel =>
      ok ← RTA_OK mem rt_attr attr_len;
      if negb ok then Some (Some (found, result))
      else
        '(found, result) ← props_visit mem rt_attr found result;
        if Z.land found 3 =? 3 then Some (Some (found, result))
        else
          rta_len ← rd 2 rt_attr mem;
          props_loop fuel mem (rt_attr + RTA_ALIGN rta_len) (s32 (attr_len - RTA_ALIGN rta_len))
            found result
  end.

(** [get_iface_props] from the answer on: [answer] is the offset of the
    message in the buffer. An attribute takes at least four bytes. *)
Definition iface_props_of_answer (mem : list Z) (answer : Z) : option (option (Z + iface_attr)) :=
  type ← rd 2 (answer + 4) mem;
  if negb (type =? RTM_NEWLINK) && negb (type =? RTM_DELLINK) then Some (Some (inl (- EINVAL)))
  else
    nlmsg_len ← rd 4 answer mem;
    let attr_len := s32 (nlmsg_len - NLMSG_LENGTH IFINFOMSG_SIZE) in
    r ← props_loop (S (Z.to_nat attr_len)) mem (answer + NLMSGHDR_SIZE + IFINFOMSG_SIZE)
      attr_len 0 (mk_iface 0 QDISC_KIND_MQ);
    match r with
    | None => Some None
    | Some (found, result) =>
        Some (Some (if negb (Z.land found 3 =? 3) then inl (- EINVAL) else inr result))
    end.

(** The request of [get_iface_props]. *)
Definition getlink_req (ifindex : Z) : list Z :=
  nlmsghdr_bytes (NLMSG_LENGTH IFINFOMSG_SIZE) RTM_GETLINK NLM_F_REQUEST 0 0 ++
  le 4 AF_UNSPEC ++ le 4 ifindex ++ le 4 0 ++ le 4 0 ++ replicate 1024%nat 0.

(** ** Lemmas on the macros and on memory *)

Lemma align4 len : 0 <= len < 2 ^ 32 - 3 →
  u32 (Z.land (len + 3) (Z.lnot 3)) = 4 * ((len + 3) / 4).
Proof.
  intros H. change 3 with (Z.ones 2) at 2.
  rewrite <-Z.ldiff_land, Z.ldiff_ones_r, Z.shiftl_mul_pow2, Z.shiftr_div_pow2 by lia.
  change (2 ^ 2) with 4. rewrite (Z.mul_comm 4). apply wrapu_small. unfold in_u.
  Z.to_euclidean_division_equations. lia.
Qed.

Lemma NLMSG_ALIGN_spec len : 0 <= len < 2 ^ 32 - 3 → NLMSG_ALIGN len = 4 * ((len + 3) / 4).
Proof. apply align4. Qed.

Lemma RTA_ALIGN_spec len : 0 <= len < 2 ^ 32 - 3 → RTA_ALIGN len = 4 * ((len + 3) / 4).
Proof. apply align4. Qed.

Lemma NLMSG_ALIGN_mult len : 0 <= len < 2 ^ 32 - 3 → len mod 4 = 0 → NLMSG_ALIGN len = len.
Proof. intros ??. rewrite NLMSG_ALIGN_spec by done. Z.to_euclidean_division_equations; lia. Qed.

Lemma s32_small z : - 2 ^ 31 <= z < 2 ^ 31 → s32 z = z.
Proof. intros Hz. unfold wraps. rewrite Z.mod_small; simpl in *; lia. Qed.

Lemma wrap_u32_small z : 0 <= z < 2 ^ 32 → u32 z = z.
Proof. apply wrapu_small. Qed.

(** The bytes [bs] lie at [off]. *)
Definition lies_at (mem : list Z) (off : Z) (bs : list Z) : Prop :=
  ∃ pre post, mem = pre ++ bs ++ post ∧ Z.of_nat (length pre) = off.

Lemma lies_at_app mem off bs1 bs2 : lies_at mem off (bs1 ++ bs2) →
  lies_at mem off bs1 ∧ lies_at mem (off + Z.of_nat (length bs1)) bs2.
Proof.
  intros (pre & post & -> & <-). split.
  - exists pre, (bs2 ++ post). by rewrite <-(assoc_L (++)).
  - exists (pre ++ bs1), post. rewrite !length_app, <-!(assoc_L (++)). split; [done|lia].
Qed.

Lemma lies_at_here mem bs post : mem = bs ++ post → lies_at mem 0 bs.
Proof. intros ->. by exists [], post. Qed.

Lemma field_lies bs n mem pre post :
  mem = pre ++ bs ++ post → length bs = n → field (length pre) n mem = unle bs.
Proof.
  intros -> <-. unfold field. by rewrite drop_app_length, take_app_length.
Qed.

Lemma rd_lies n off mem bs :
  lies_at mem off bs → Z.of_nat (length bs) = n → rd n off mem = Some (unle bs).
Proof.
  intros (pre & post & -> & <-) <-. unfold rd. rewrite !length_app.
  rewrite (proj2 (Z.leb_le _ _)), (proj2 (Z.leb_le _ _)) by lia. cbn [andb].
  rewrite !Nat2Z.id. f_equal. by eapply field_lies.
Qed.

(** Reading a field that was written. *)
Lemma rd_le n off mem w z :
  lies_at mem off (le w z) → n = Z.of_nat w → in_u (8 * n) z → rd n off mem = Some z.
Proof.
  intros H -> Hz. rewrite (rd_lies _ _ _ _ H) by (by rewrite length_le). by rewrite unle_le_id.
Qed.

Lemma wr_lies off bs old mem pre post :
  mem = pre ++ old ++ post → Z.of_nat (length pre) = off → length bs = length old →
  wr off bs mem = Some (tt, pre ++ bs ++ post).
Proof.
  intros -> <- Hl. unfold wr. rewrite !length_app, Hl.
  rewrite (proj2 (Z.leb_le _ _)), (proj2 (Z.leb_le _ _)) by lia. cbn [andb].
  rewrite Nat2Z.id. do 2 f_equal. unfold splice. rewrite take_app_length.
  rewrite drop_app_add, Hl, drop_app_length. done.
Qed.

(** ** What a message holds *)

Definition pad4 (n : nat) : nat := Z.to_nat (4 * ((Z.of_nat n + 3) / 4)) - n.

(** An attribute as the headers lay it out, padded to four bytes. *)
Definition attr_bytes (a : Z * list Z) : list Z :=
  le 2 (RTA_LENGTH (Z.of_nat (length a.2))) ++ le 2 a.1 ++ a.2 ++ replicate (pad4 (length a.2)) 0.

Definition attrs_bytes (l : list (Z * list Z)) : list Z := concat (attr_bytes <$> l).

Lemma length_attr_bytes a :
  Z.of_nat (length (attr_bytes a)) = 4 * ((RTA_LENGTH (Z.of_nat (length a.2)) + 3) / 4).
Proof.
  unfold attr_bytes, pad4, RTA_LENGTH, RTATTR_SIZE.
  rewrite !length_app, !length_le, length_replicate.
  Z.to_euclidean_division_equations. lia.
Qed.

Lemma attrs_bytes_app l1 l2 : attrs_bytes (l1 ++ l2) = attrs_bytes l1 ++ attrs_bytes l2.
Proof. unfold attrs_bytes. by rewrite fmap_app, concat_app. Qed.

Lemma attrs_bytes_cons a l : attrs_bytes (a :: l) = attr_bytes a ++ attrs_bytes l.
Proof. done. Qed.

Lemma length_attrs_bytes l : Z.of_nat (length (attrs_bytes l)) mod 4 = 0.
Proof.
  induction l as [|a l IH]; [done|]. rewrite attrs_bytes_cons, length_app, Nat2Z.inj_add.
  pose proof (length_attr_bytes a). Z.to_euclidean_division_equations; lia.
Qed.

(** A message under construction: its length, what is in it, and room for
    more. *)
Definition building (mem body : list Z) (room : nat) : Prop :=
  mem = le 4 (4 + Z.of_nat (length body)) ++ body ++ replicate room 0 ∧
  Z.of_nat (length body) mod 4 = 0.

Lemma building_len mem body room :
  building mem body room → 4 + Z.of_nat (length body) < 2 ^ 32 →
  rd 4 0 mem = Some (4 + Z.of_nat (length body)).
Proof.
  intros [-> _] Hb. eapply (rd_le _ _ _ 4); [by eapply lies_at_here|done|].
  unfold in_u. change (2 ^ (8 * 4)) with (2 ^ 32). lia.
Qed.

Lemma tail_building mem body room :
  building mem body room → 4 + Z.of_nat (length body) < 2 ^ 32 - 3 →
  NLMSG_TAIL mem = Some (4 + Z.of_nat (length body), mem).
Proof.
  intros Hm Hb. unfold NLMSG_TAIL, mbind, ST_bind, gets.
  rewrite (building_len _ _ _ Hm) by lia. unfold mret, ST_ret. do 2 f_equal.
  destruct Hm as [_ Hm]. apply NLMSG_ALIGN_mult; [lia|]. Z.to_euclidean_division_equations; lia.
Qed.

(** The room an attribute takes, and that it is enough. *)
Definition fits (maxlen : Z) (body : list Z) (room : nat) (a : Z * list Z) : Prop :=
  Z.of_nat (length (attr_bytes a)) <= Z.of_nat room ∧
  4 + Z.of_nat (length body) + Z.of_nat (length (attr_bytes a)) <= maxlen.

(** The three writes into the room after a message. *)
Lemma addattr_writes {A} (k : ST (list Z) A) (L body : list Z) (room : nat) (t : Z)
    (data : list Z) rta (len : list Z) :
  Z.of_nat (length (L ++ body)) = rta → length len = 2%nat →
  Z.of_nat (length (attr_bytes (t, data))) <= Z.of_nat room →
  (wr (rta + 2) (le 2 t);; wr rta len;; wr (rta + RTATTR_SIZE) data;; k)
    (L ++ body ++ replicate room 0) =
  k (L ++ body ++ len ++ le 2 t ++ data ++
    replicate (pad4 (length data)) 0 ++ replicate (room - length (attr_bytes (t, data))) 0).
Proof.
  intros Hrta Hlen Hroom. set (p := pad4 (length data)).
  set (r := (room - length (attr_bytes (t, data)))%nat).
  assert (length (attr_bytes (t, data)) = 4 + length data + p)%nat as Ha.
  { unfold attr_bytes. rewrite !length_app, !length_le, length_replicate. simpl. subst p. lia. }
  assert (replicate room 0 = replicate 2 0 ++ replicate 2 0 ++ replicate (length data) 0 ++
    replicate p 0 ++ replicate r 0) as ->.
  { rewrite <-!replicate_add. f_equal. subst r. lia. }
  rewrite length_app in Hrta.
  erewrite ST_bind_run; [|eapply (wr_lies _ _ (replicate 2 0) _ (L ++ body ++ replicate 2 0));
    [by rewrite <-!(assoc_L (++))|rewrite !length_app, length_replicate; lia|by rewrite length_le]].
  erewrite ST_bind_run; [|eapply (wr_lies _ _ (replicate 2 0) _ (L ++ body));
    [by rewrite <-!(assoc_L (++))|rewrite !length_app; lia|by rewrite Hlen]].
  etrans; [eapply ST_bind_run, (wr_lies _ _ (replicate (length data) 0) _ (L ++ body ++ len ++ le 2 t));
    [by rewrite <-!(assoc_L (++))| |by rewrite length_replicate]|by rewrite <-!(assoc_L (++))].
  rewrite !length_app, length_le, Hlen. unfold RTATTR_SIZE. lia.
Qed.

Lemma addattr_l_ok maxlen mem body room t data :
  building mem body room → fits maxlen body room (t, data) →
  maxlen < 2 ^ 31 → RTA_LENGTH (Z.of_nat (length data)) < 2 ^ 16 →
  ∃ mem', addattr_l maxlen t data mem = Some (0, mem') ∧
    building mem' (body ++ attr_bytes (t, data)) (room - length (attr_bytes (t, data))).
Proof.
  intros Hm [Hroom Hmax] Hlim Hd.
  pose proof (length_attr_bytes (t, data)) as Hal. cbn [snd] in Hal.
  unfold addattr_l. assert (0 <= RTA_LENGTH (Z.of_nat (length data))) by (unfold RTA_LENGTH, RTATTR_SIZE; lia).
  rewrite s32_small by lia.
  erewrite ST_bind_run; [|unfold gets; by rewrite (building_len _ _ _ Hm) by lia].
  destruct Hm as [Hmem Hmod] eqn:E; clear E.
  rewrite NLMSG_ALIGN_mult by (Z.to_euclidean_division_equations; lia).
  rewrite RTA_ALIGN_spec, <-Hal by lia. rewrite wrap_u32_small by lia.
  rewrite (proj2 (Z.ltb_ge _ _)) by lia.
  erewrite ST_bind_run; [|by eapply tail_building; [exact Hm|lia]].
  rewrite Hmem, addattr_writes by (rewrite ?length_app, ?length_le; lia).
  erewrite ST_bind_run;
    [|by eapply (wr_lies _ _ (le 4 (4 + Z.of_nat (length body))) _ []); [done|done|rewrite !length_le]].
  eexists. split; [reflexivity|]. split.
  - rewrite length_app, Nat2Z.inj_add, Z.add_assoc. cbn [app]. f_equal.
    rewrite <-(assoc_L (++)). f_equal. unfold attr_bytes at 2. by rewrite <-!(assoc_L (++)).
  - rewrite length_app, Nat2Z.inj_add, Hal. Z.to_euclidean_division_equations; lia.
Qed.

(** ** Reading what was built *)

Definition attr_ok (a : Z * list Z) : Prop :=
  in_u 16 a.1 ∧ RTA_LENGTH (Z.of_nat (length a.2)) < 2 ^ 16.

Lemma attr_lies mem off t data :
  lies_at mem off (attr_bytes (t, data)) → attr_ok (t, data) →
  rd 2 off mem = Some (RTA_LENGTH (Z.of_nat (length data))) ∧
  rd 2 (off + 2) mem = Some t ∧ lies_at mem (RTA_DATA off) data.
Proof.
  intros Hl [Ht Hd]. unfold attr_bytes in Hl. cbn [fst snd] in *.
  apply lies_at_app in Hl as [H1 Hl]. apply lies_at_app in Hl as [H2 Hl].
  apply lies_at_app in Hl as [H3 _]. rewrite !length_le in *.
  unfold RTA_DATA, RTATTR_SIZE. replace (off + Z.of_nat 2 + Z.of_nat 2) with (off + 4) in H3 by lia.
  repeat split; [eapply rd_le; [done|done|]|eapply rd_le; [done|done|done]|done].
  unfold in_u, RTA_LENGTH, RTATTR_SIZE in *. simpl in *. lia.
Qed.

Lemma RTA_OK_attr mem off t data len :
  lies_at mem off (attr_bytes (t, data)) → attr_ok (t, data) →
  Z.of_nat (length (attr_bytes (t, data))) <= len → RTA_OK mem off len = Some true.
Proof.
  intros Hl Hok Hlen. destruct (attr_lies _ _ _ _ Hl Hok) as (H1 & _ & _). unfold RTA_OK.
  rewrite length_attr_bytes in Hlen. cbn [snd] in Hlen.
  assert (RTA_LENGTH (Z.of_nat (length data)) <= len)
    by (unfold RTA_LENGTH, RTATTR_SIZE in *; Z.to_euclidean_division_equations; lia).
  unfold RTA_LENGTH, RTATTR_SIZE in *.
  rewrite (proj2 (Z.ltb_ge _ _)), H1 by lia. cbn [mbind option_bind].
  by rewrite (proj2 (Z.leb_le 4 _)), (proj2 (Z.leb_le _ len)) by lia.
Qed.

(** The reader of the other side: the attributes of a region, by the same
    macros. *)
Fixpoint rta_list (fuel : nat) (mem : list Z) (rta len : Z) : option (list (Z * list Z)) :=
  match fuel with
  | O => None
  | S fuel =>
      ok ← RTA_OK mem rta len;
      if negb ok then Some []
      else
        rta_len ← rd 2 rta mem;
        type ← rd 2 (rta + 2) mem;
        l ← rta_list fuel mem (rta + RTA_ALIGN rta_len) (len - RTA_ALIGN rta_len);
        Some ((type, take (Z.to_nat (rta_len - RTATTR_SIZE))
                       (drop (Z.to_nat (RTA_DATA rta)) mem)) :: l)
  end.

Lemma RTA_ALIGN_attr t data : attr_ok (t, data) →
  RTA_ALIGN (RTA_LENGTH (Z.of_nat (length data))) = Z.of_nat (length (attr_bytes (t, data))).
Proof.
  intros [_ Hd]. cbn [snd] in Hd. rewrite RTA_ALIGN_spec, length_attr_bytes; [done|].
  unfold RTA_LENGTH, RTATTR_SIZE in *. lia.
Qed.

Lemma rta_list_attrs l mem off fuel :
  lies_at mem off (attrs_bytes l) → Forall attr_ok l → (length l < fuel)%nat →
  rta_list fuel mem off (Z.of_nat (length (attrs_bytes l))) = Some l.
Proof.
  revert off fuel. induction l as [|[t data] l IH]; intros off fuel Hl Hok Hf;
    (destruct fuel as [|fuel]; [simpl in Hf; lia|]); [done|].
  apply Forall_cons in Hok as [Ha Hok]. rewrite attrs_bytes_cons in *.
  apply lies_at_app in Hl as [Hl Hrest]. cbn [rta_list].
  rewrite (RTA_OK_attr _ _ _ _ _ Hl Ha) by (rewrite length_app; lia). cbn [mbind option_bind negb].
  destruct (attr_lies _ _ _ _ Hl Ha) as (-> & -> & Hdata). cbn [mbind option_bind].
  rewrite (RTA_ALIGN_attr t) by done. rewrite length_app, Nat2Z.inj_add.
  replace (_ + _ - _) with (Z.of_nat (length (attrs_bytes l))) by lia.
  rewrite IH by (done || simpl in Hf; lia). cbn [mbind option_bind]. do 3 f_equal.
  destruct Hdata as (pre & post & -> & <-). unfold RTA_LENGTH, RTATTR_SIZE.
  rewrite Nat2Z.id, drop_app_length. apply take_app_length'. lia.
Qed.

(** A traffic-control request as the kernel reads it: the header's fields,
    the [struct tcmsg] and the attributes. *)
Record tc_msg : Type := mk_tc {
  tc_type : Z; tc_flags : Z; tc_ifindex : Z; tc_handle : Z; tc_parent : Z; tc_info : Z;
  tc_attrs : list (Z * list Z);
}.

Definition read_tc (mem : list Z) : option tc_msg :=
  len ← rd 4 0 mem; type ← rd 2 4 mem; flags ← rd 2 6 mem;
  ifindex ← rd 4 20 mem; handle ← rd 4 24 mem; parent ← rd 4 28 mem; info ← rd 4 32 mem;
  attrs ← rta_list (Z.to_nat len) mem (NLMSG_LENGTH TCMSG_SIZE) (len - NLMSG_LENGTH TCMSG_SIZE);
  Some (mk_tc type flags ifindex handle parent info attrs).

(** A message with these fields and a sequence number, without its length. *)
Definition tc_body_seq (sq : Z) (m : tc_msg) : list Z :=
  le 2 (tc_type m) ++ le 2 (tc_flags m) ++ le 4 sq ++ le 4 0 ++
  tcmsg_bytes (tc_ifindex m) (tc_handle m) (tc_parent m) (tc_info m) ++ attrs_bytes (tc_attrs m).

Abbreviation tc_body := (tc_body_seq 0).

Definition tc_msg_ok (m : tc_msg) : Prop :=
  in_u 16 (tc_type m) ∧ in_u 16 (tc_flags m) ∧ in_u 32 (tc_ifindex m) ∧ in_u 32 (tc_handle m) ∧
  in_u 32 (tc_parent m) ∧ in_u 32 (tc_info m) ∧ Forall attr_ok (tc_attrs m).

Lemma length_tc_body sq m : length (tc_body_seq sq m) = (32 + length (attrs_bytes (tc_attrs m)))%nat.
Proof. unfold tc_body_seq, tcmsg_bytes. rewrite !length_app, !length_le. lia. Qed.

Lemma length_attrs_le l : (4 * length l <= length (attrs_bytes l))%nat.
Proof.
  induction l as [|a l IH]; [done|]. rewrite attrs_bytes_cons, length_app. cbn [length].
  pose proof (length_attr_bytes a). unfold RTA_LENGTH, RTATTR_SIZE in *.
  Z.to_euclidean_division_equations; lia.
Qed.

(** Evaluate the places of fields. *)
Ltac offsets :=
  repeat match goal with
  | H : lies_at _ ?o _ |- _ => progress (let o' := eval vm_compute in o in change o with o' in H)
  end.

(** Read a field whose place in memory is known. *)
Ltac rd_field :=
  match goal with
  | H : lies_at ?mem ?o (le ?w ?z) |- context [rd ?n ?o ?mem] =>
      rewrite (rd_le n o mem w z H eq_refl) by assumption
  end.

Lemma read_tc_built sq m mem room :
  building mem (tc_body_seq sq m) room → tc_msg_ok m → Z.of_nat (length (tc_body m)) + 4 < 2 ^ 32 →
  read_tc mem = Some m.
Proof.
  intros Hb (Ht & Hfl & Hi & Hh & Hp & Hin & Ha) Hlen. unfold read_tc.
  rewrite length_tc_body in Hlen.
  rewrite (building_len _ _ _ Hb) by (rewrite length_tc_body; lia). cbn [mbind option_bind].
  destruct Hb as [Hmem _]. assert (lies_at mem 4 (tc_body_seq sq m)) as Hl.
  { eexists (le 4 _), _. split; [exact Hmem|by rewrite length_le]. }
  unfold tc_body_seq, tcmsg_bytes in Hl. rewrite <-!(assoc_L (++)) in Hl.
  repeat (apply lies_at_app in Hl as [? Hl]; rewrite ?length_le in *).
  offsets.
  repeat (rd_field; cbn [mbind option_bind]).
  rewrite length_tc_body. replace (4 + _ - _) with (Z.of_nat (length (attrs_bytes (tc_attrs m))))
    by (unfold NLMSG_LENGTH, TCMSG_SIZE, NLMSGHDR_SIZE; lia).
  pose proof (length_attrs_le (tc_attrs m)).
  rewrite rta_list_attrs by (done || lia). cbn [mbind option_bind]. by destruct m.
Qed.

(** ** The requests *)

Lemma tc_req_building flags type ifindex handle parent info :
  building (tc_req flags type ifindex handle parent info)
    (tc_body (mk_tc type flags ifindex handle parent info [])) (Z.to_nat TCA_BUF_MAX).
Proof.
  split; [|by rewrite length_tc_body].
  unfold tc_req, nlmsghdr_bytes. rewrite length_tc_body. unfold tc_body_seq. cbn [tc_type tc_flags tc_ifindex
    tc_handle tc_parent tc_info tc_attrs]. change (attrs_bytes []) with (@nil Z).
  rewrite app_nil_r, <-!(assoc_L (++)). done.
Qed.

(** Adding an attribute to a message, in terms of the message. *)
Definition add_attr (m : tc_msg) (a : Z * list Z) : tc_msg :=
  mk_tc (tc_type m) (tc_flags m) (tc_ifindex m) (tc_handle m) (tc_parent m) (tc_info m)
    (tc_attrs m ++ [a]).

Lemma tc_body_add m a : tc_body (add_attr m a) = tc_body m ++ attr_bytes a.
Proof.
  unfold tc_body_seq, add_attr. cbn [tc_type tc_flags tc_ifindex tc_handle tc_parent tc_info tc_attrs].
  rewrite attrs_bytes_app, <-!(assoc_L (++)). unfold attrs_bytes at 2. simpl. by rewrite app_nil_r.
Qed.

(** A request whose message [m] has [room] bytes left of its struct. *)
Definition request (mem : list Z) (m : tc_msg) (room : Z) : Prop :=
  building mem (tc_body m) (Z.to_nat room) ∧ 0 <= room ∧
  4 + Z.of_nat (length (tc_body m)) + room = REQ_SIZE.

Lemma addattr_request mem m room t data :
  request mem m room → Z.of_nat (length (attr_bytes (t, data))) <= room →
  RTA_LENGTH (Z.of_nat (length data)) < 2 ^ 16 →
  ∃ mem', addattr_l REQ_SIZE t data mem = Some (0, mem') ∧
    request mem' (add_attr m (t, data)) (room - Z.of_nat (length (attr_bytes (t, data)))).
Proof.
  intros (Hb & H0 & Hr) Hfit Hd. destruct (addattr_l_ok REQ_SIZE mem _ _ t data Hb) as (mem' & He & Hb').
  - split; lia.
  - done.
  - done.
  - exists mem'. split; [done|]. unfold request. rewrite tc_body_add, length_app.
    replace (Z.to_nat _) with (Z.to_nat room - length (attr_bytes (t, data)))%nat by lia.
    split; [done|lia].
Qed.

Lemma tc_req_request flags type ifindex handle parent info :
  request (tc_req flags type ifindex handle parent info)
    (mk_tc type flags ifindex handle parent info []) TCA_BUF_MAX.
Proof. split; [apply tc_req_building|]. rewrite length_tc_body. done. Qed.

Lemma request_read mem m room : request mem m room → tc_msg_ok m → read_tc mem = Some m.
Proof.
  intros (Hb & ? & ?) Hm. eapply read_tc_built; [done|done|]. unfold REQ_SIZE, NLMSGHDR_SIZE,
    TCMSG_SIZE, TCA_BUF_MAX in *. lia.
Qed.

(** Setting the length of an attribute to that of what follows it makes what
    follows its content. *)
Lemma nest_attrs mem body room t l :
  building mem (body ++ attr_bytes (t, []) ++ attrs_bytes l) room →
  ∃ mem', wr (4 + Z.of_nat (length body)) (le 2 (RTA_LENGTH (Z.of_nat (length (attrs_bytes l))))) mem =
      Some (tt, mem') ∧
    building mem' (body ++ attr_bytes (t, attrs_bytes l)) room.
Proof.
  intros [-> Hmod]. pose proof (length_attrs_bytes l) as Hl.
  assert (attr_bytes (t, attrs_bytes l) = le 2 (RTA_LENGTH (Z.of_nat (length (attrs_bytes l)))) ++
    le 2 t ++ attrs_bytes l) as Hat.
  { unfold attr_bytes. cbn [fst snd]. unfold pad4.
    replace (_ - _)%nat with 0%nat by (Z.to_euclidean_division_equations; lia).
    by rewrite app_nil_r. }
  set (L := le 4 _). assert (length L = 4%nat) as HL by apply length_le.
  eexists. split.
  - eapply (wr_lies _ _ (le 2 4) _ (L ++ body)).
    + unfold attr_bytes. cbn [fst snd length app]. rewrite <-!(assoc_L (++)). reflexivity.
    + rewrite length_app, HL. lia.
    + by rewrite !length_le.
  - assert (length (attr_bytes (t, attrs_bytes l)) =
      length (attr_bytes (t, []) ++ attrs_bytes l))%nat as Hlen.
    { rewrite Hat, !length_app, !length_le. unfold attr_bytes. cbn [snd fst]. simpl. lia. }
    split; [|by rewrite length_app, Hlen, <-length_app].
    rewrite length_app, Hlen, <-length_app, Hat. fold L.
    cbn [app]. by rewrite <-!(assoc_L (++)).
Qed.

Lemma replace_qdisc_req_ok ifindex parent handle kind name :
  qdisc_name kind = Some name →
  ∃ req room, replace_qdisc_req ifindex parent handle name = Some req ∧
    request req (mk_tc RTM_NEWQDISC (NLM_F_REQUEST + NLM_F_CREATE + NLM_F_REPLACE) ifindex handle parent 0
      [(TCA_KIND, name ++ [0])]) room.
Proof.
  intros Hn. assert (length (name ++ [0%Z]) <= 8)%nat as Hlen.
  { destruct kind; simplify_eq/=; lia. }
  edestruct addattr_request as (req & He & Hr);
    [apply (tc_req_request (NLM_F_REQUEST + NLM_F_CREATE + NLM_F_REPLACE) RTM_NEWQDISC ifindex handle parent 0)|
      shelve|shelve|].
  exists req. eexists. split; [|exact Hr].
  unfold replace_qdisc_req, addattrstrz. by rewrite He.
  Unshelve.
  - rewrite length_attr_bytes. cbn [snd]. unfold RTA_LENGTH, RTATTR_SIZE, TCA_BUF_MAX.
    Z.to_euclidean_division_equations; lia.
  - unfold RTA_LENGTH, RTATTR_SIZE. lia.
Qed.

(** The options of the filter. *)
Definition bpf_options (bpf_fd : Z) (name : list Z) : list (Z * list Z) :=
  [(TCA_BPF_FD, le 4 bpf_fd); (TCA_BPF_FD, le 4 bpf_fd); (TCA_BPF_NAME, name ++ [0]);
   (TCA_BPF_FLAGS, le 4 TCA_BPF_FLAG_ACT_DIRECT)].

Definition bpf_filter_msg (ifindex parent prio handle bpf_fd : Z) (name : list Z) : tc_msg :=
  mk_tc RTM_NEWTFILTER (NLM_F_REQUEST + NLM_F_CREATE) ifindex handle parent
    (TC_H_MAKE (Z.shiftl prio 16) ETH_P_ALL_BE)
    [(TCA_KIND, bytes "bpf" ++ [0]); (TCA_OPTIONS, attrs_bytes (bpf_options bpf_fd name))].

Lemma length_bpf_options bpf_fd name :
  Z.of_nat (length (attrs_bytes (bpf_options bpf_fd name))) =
  24 + 4 * ((Z.of_nat (length name) + 8) / 4).
Proof.
  unfold bpf_options. rewrite !attrs_bytes_cons, !length_app, !Nat2Z.inj_add, !length_attr_bytes.
  cbn [snd]. rewrite !length_le, length_app. unfold RTA_LENGTH, RTATTR_SIZE. simpl.
  Z.to_euclidean_division_equations; lia.
Qed.

Lemma bpf_options_bytes bpf_fd name :
  attr_bytes (TCA_BPF_FD, le 4 bpf_fd) ++ attr_bytes (TCA_BPF_FD, le 4 bpf_fd) ++
  attr_bytes (TCA_BPF_NAME, name ++ [0]) ++ attr_bytes (TCA_BPF_FLAGS, le 4 TCA_BPF_FLAG_ACT_DIRECT) =
  attrs_bytes (bpf_options bpf_fd name).
Proof. unfold bpf_options. rewrite !attrs_bytes_cons. by rewrite (app_nil_r (attr_bytes _)). Qed.

(** One attribute more, of a size that is known to fit. *)
Lemma addattr_step {A} (k : Z → ST (list Z) A) (Q : option (A * list Z) → Prop) mem m room t data :
  request mem m room → Z.of_nat (length data) + 8 <= room → Z.of_nat (length data) < 65000 →
  (∀ mem', request mem' (add_attr m (t, data)) (room - Z.of_nat (length (attr_bytes (t, data)))) →
    Q (k 0 mem')) →
  Q ((addattr_l REQ_SIZE t data ≫= k) mem).
Proof.
  intros Hr Hfit Hd HQ. destruct (addattr_request mem m room t data Hr) as (mem' & He & Hr').
  - rewrite length_attr_bytes. cbn [snd]. unfold RTA_LENGTH, RTATTR_SIZE.
    Z.to_euclidean_division_equations; lia.
  - unfold RTA_LENGTH, RTATTR_SIZE. lia.
  - rewrite (ST_bind_run _ _ _ _ _ He). by apply HQ.
Qed.

Ltac attr_size :=
  rewrite ?length_attr_bytes; cbn [snd]; rewrite ?length_app, ?length_le;
  unfold RTA_LENGTH, RTATTR_SIZE, TCA_BUF_MAX; change (length (bytes "bpf")) with 3%nat;
  cbn [length];
  Z.to_euclidean_division_equations; lia.

Ltac request_size :=
  match goal with
  | H : request _ _ _ |- _ => destruct H as (_ & ? & ?)
  end; unfold REQ_SIZE, NLMSGHDR_SIZE, TCMSG_SIZE, TCA_BUF_MAX in *; lia.

Lemma bpf_filter_attrs_ok mem m bpf_fd name :
  request mem m TCA_BUF_MAX → tc_attrs m = [] → Z.of_nat (length name) < 60000 →
  ∃ mem' room, bpf_filter_attrs bpf_fd name mem = Some (tt, mem') ∧
    request mem' (add_attr (add_attr m (TCA_KIND, bytes "bpf" ++ [0]))
      (TCA_OPTIONS, attrs_bytes (bpf_options bpf_fd name))) room.
Proof.
  intros Hr Hm Hn. unfold bpf_filter_attrs, addattr32, addattrstrz.
  set (M := add_attr (add_attr m _) _).
  set (Q := λ r : option (unit * list Z), ∃ mem' room, r = Some (tt, mem') ∧ request mem' M room).
  apply (addattr_step _ Q _ _ _ _ _ Hr); [attr_size..|]. clear mem Hr. intros mem Hr.
  set (m1 := add_attr m (TCA_KIND, bytes "bpf" ++ [0])) in *.
  erewrite ST_bind_run; [|eapply tail_building; [apply Hr|by request_size]].
  apply (addattr_step _ Q _ _ _ _ _ Hr); [attr_size..|]. clear mem Hr. intros mem Hr.
  apply (addattr_step _ Q _ _ _ _ _ Hr); [attr_size..|]. clear mem Hr. intros mem Hr.
  apply (addattr_step _ Q _ _ _ _ _ Hr); [attr_size..|]. clear mem Hr. intros mem Hr.
  apply (addattr_step _ Q _ _ _ _ _ Hr); [attr_size..|]. clear mem Hr. intros mem Hr.
  apply (addattr_step _ Q _ _ _ _ _ Hr); [attr_size..|]. clear mem Hr. intros mem Hr.
  destruct Hr as (Hb & Hroom & Hsize). rewrite !tc_body_add in Hb, Hsize.
  erewrite ST_bind_run; [|unfold gets; rewrite (building_len _ _ _ Hb); [done|]]; cycle 1.
  { unfold REQ_SIZE, NLMSGHDR_SIZE, TCMSG_SIZE, TCA_BUF_MAX in *. lia. }
  rewrite <-!(assoc_L (++)) in Hb, Hsize |- *. rewrite bpf_options_bytes in Hb, Hsize |- *.
  revert Hb Hroom Hsize. generalize (TCA_BUF_MAX - Z.of_nat (length (attr_bytes (TCA_KIND, bytes "bpf" ++ [0])))
    - Z.of_nat (length (attr_bytes (TCA_OPTIONS, []))) - Z.of_nat (length (attr_bytes (TCA_BPF_FD, le 4 bpf_fd)))
    - Z.of_nat (length (attr_bytes (TCA_BPF_FD, le 4 bpf_fd)))
    - Z.of_nat (length (attr_bytes (TCA_BPF_NAME, name ++ [0])))
    - Z.of_nat (length (attr_bytes (TCA_BPF_FLAGS, le 4 TCA_BPF_FLAG_ACT_DIRECT)))).
  intros r Hb Hroom Hsize. destruct (nest_attrs _ _ _ _ _ Hb) as (mem' & He & Hb').
  exists mem', r. split; [|].
  - rewrite <-He. f_equal. f_equal. rewrite !length_app. unfold RTA_LENGTH, RTATTR_SIZE.
    change (length (attr_bytes (TCA_OPTIONS, []))) with 4%nat. lia.
  - unfold request. subst M. rewrite tc_body_add. split; [done|]. split; [done|]. rewrite <-Hsize.
    rewrite !length_app. pose proof (length_attr_bytes (TCA_OPTIONS, attrs_bytes (bpf_options bpf_fd name))) as Hl.
    cbn [snd] in Hl. rewrite !Nat2Z.inj_add, Hl. change (length (attr_bytes (TCA_OPTIONS, []))) with 4%nat.
    pose proof (length_attrs_bytes (bpf_options bpf_fd name)). unfold RTA_LENGTH, RTATTR_SIZE.
    Z.to_euclidean_division_equations; lia.
Qed.

Lemma replace_bpf_filter_req_ok ifindex parent prio handle bpf_fd name :
  Z.of_nat (length name) < 60000 →
  ∃ req room, replace_bpf_filter_req ifindex parent prio handle bpf_fd name = Some req ∧
    request req (bpf_filter_msg ifindex parent prio handle bpf_fd name) room.
Proof.
  intros Hn. destruct (bpf_filter_attrs_ok _ _ bpf_fd name
    (tc_req_request (NLM_F_REQUEST + NLM_F_CREATE) RTM_NEWTFILTER ifindex handle parent
      (TC_H_MAKE (Z.shiftl prio 16) ETH_P_ALL_BE)) eq_refl Hn) as (req & room & He & Hr).
  exists req, room. split; [|exact Hr]. unfold replace_bpf_filter_req. by rewrite He.
Qed.

Lemma TC_H_MAKE_range maj min : in_u 32 (TC_H_MAKE maj min).
Proof.
  unfold in_u, TC_H_MAKE.
  assert (0 <= Z.land (u32 maj) 4294901760 < 2 ^ 32 ∧ 0 <= Z.land (u32 min) 65535 < 2 ^ 32) as [H1 H2].
  { split; (split; [apply Z.land_nonneg; right; lia|]); apply Z.log2_lt_cancel.
    - eapply Z.le_lt_trans; [apply Z.log2_land; [apply wrapu_range|]; lia|]. simpl. lia.
    - eapply Z.le_lt_trans; [apply Z.log2_land; [apply wrapu_range|]; lia|]. simpl. lia. }
  split; [apply Z.lor_nonneg; lia|]. apply Z.log2_lt_cancel. rewrite Z.log2_lor by lia.
  apply Z.max_lub_lt; [destruct (decide (Z.land (u32 maj) 4294901760 = 0)) as [->|]|
    destruct (decide (Z.land (u32 min) 65535 = 0)) as [->|]]; simpl; try lia.
  - apply Z.log2_lt_pow2; lia.
  - apply Z.log2_lt_pow2; lia.
Qed.

(** ** Reading the answer *)

(** No loop on a message of any content: an attribute takes at least four of
    the bytes that are left. *)
Lemma props_loop_ends fuel mem rta len found result :
  - 2 ^ 31 <= len < 2 ^ 31 → len < Z.of_nat fuel →
  (0 < fuel)%nat → props_loop fuel mem rta len found result ≠ Some None.
Proof.
  revert rta len found result. induction fuel as [|fuel IH]; intros rta len found result Hlen Hf H0; [lia|].
  cbn [props_loop]. unfold RTA_OK. destruct (Z.ltb_spec len RTATTR_SIZE) as [|Hge]; [done|].
  destruct (rd 2 rta mem) as [n|]; [|done]. cbn [mbind option_bind].
  destruct (_ && _) eqn:E; [|done]. apply andb_true_iff in E as [E1%Z.leb_le E2%Z.leb_le].
  cbn [negb]. destruct (props_visit _ _ _ _) as [[f' r']|]; [|done]. cbn [mbind option_bind].
  destruct (_ =? _); [done|]. unfold RTATTR_SIZE in *. rewrite RTA_ALIGN_spec by lia.
  apply IH; [|rewrite s32_small|]; Z.to_euclidean_division_equations; try lia.
  rewrite s32_small; lia.
Qed.

(** What a qdisc's name means to [get_iface_props]. *)
Definition kind_named (name : list Z) : qidsc_kind :=
  if decide (name = bytes "fq") then QDISC_KIND_FQ
  else if decide (name = bytes "mq") then QDISC_KIND_MQ
  else if decide (name = bytes "noqueue") then QDISC_KIND_NOQUEUE
  else if decide (name = bytes "clsact") then QDISC_KIND_CLSACT
  else QDISC_KIND_OTHER.

Lemma rd1_lies mem off b bs : lies_at mem off (b :: bs) → rd 1 off mem = Some b.
Proof.
  intros H. apply (lies_at_app _ _ [b]) in H as [H _].
  rewrite (rd_lies _ _ _ _ H) by done. simpl. f_equal. lia.
Qed.

Lemma streq_name mem s name lit :
  lies_at mem s (name ++ [0]) → 0 ∉ name → 0 ∉ lit →
  streq mem s lit = Some (bool_decide (name = lit)).
Proof.
  revert s name. induction lit as [|c lit IH]; intros s name Hl Hn Hlit.
  - destruct name as [|b name]; cbn [app] in Hl; cbn [streq]; rewrite (rd1_lies _ _ _ _ Hl); [done|].
    cbn [mbind option_bind]. apply not_elem_of_cons in Hn as [Hb _].
    by rewrite (proj2 (Z.eqb_neq _ _)), bool_decide_false by done.
  - apply not_elem_of_cons in Hlit as [Hc Hlit].
    destruct name as [|b name]; cbn [app] in Hl; cbn [streq]; rewrite (rd1_lies _ _ _ _ Hl);
      cbn [mbind option_bind].
    + by rewrite (proj2 (Z.eqb_neq _ _)), bool_decide_false by done.
    + apply not_elem_of_cons in Hn as [Hb Hn]. destruct (Z.eqb_spec b c) as [->|Hbc].
      * apply (lies_at_app _ _ [c]) in Hl as [_ Hl]. rewrite (IH (s + 1) name) by done.
        f_equal. apply bool_decide_ext. naive_solver.
      * rewrite bool_decide_false; [done|]. naive_solver.
Qed.

Lemma kind_of_name_ok mem s name :
  lies_at mem s (name ++ [0]) → 0 ∉ name → kind_of_name mem s = Some (kind_named name).
Proof.
  intros Hl Hn. unfold kind_of_name, kind_named.
  assert (∀ lit, forallb (λ c, negb (c =? 0)) lit = true → 0 ∉ lit) as Hz.
  { intros lit H Hin. apply list_elem_of_In in Hin. by apply (proj1 (forallb_forall _ _) H) in Hin. }
  rewrite !(streq_name _ _ name) by (done || by apply Hz). cbn [mbind option_bind].
  by repeat (case_bool_decide || case_decide).
Qed.

(** What an attribute says, if it is one of the two. *)
Definition attr_type (a : Z * list Z) : Z := Z.land a.1 (Z.lnot NLA_F_NESTED).

Definition attr_queues (a : Z * list Z) : option Z :=
  if attr_type a =? IFLA_NUM_TX_QUEUES then Some (s32 (unle a.2)) else None.

Definition attr_kind (a : Z * list Z) : option qidsc_kind :=
  if attr_type a =? IFLA_QDISC then Some (kind_named (take (length a.2 - 1) a.2)) else None.

(** The kernel's documented format: the number of queues is a [__u32], the
    qdisc's name a string with its terminating zero. *)
Definition link_attr_ok (a : Z * list Z) : Prop :=
  attr_ok a ∧ (attr_type a = IFLA_NUM_TX_QUEUES → length a.2 = 4%nat) ∧
  (attr_type a = IFLA_QDISC → ∃ name, a.2 = name ++ [0] ∧ 0 ∉ name).

(** [found] and [found_result] from what was seen. *)
Definition found_bits (q : option Z) (k : option qidsc_kind) : Z :=
  Z.lor (if q is Some _ then 1 else 0) (if k is Some _ then 2 else 0).

Definition found_iface (q : option Z) (k : option qidsc_kind) : iface_attr :=
  mk_iface (default 0 q) (default QDISC_KIND_MQ k).

Definition seen {A} (old new : option A) : option A := if new is Some _ then new else old.

Lemma props_visit_ok mem off a q k :
  lies_at mem off (attr_bytes a) → link_attr_ok a →
  props_visit mem off (found_bits q k) (found_iface q k) =
  Some (found_bits (seen q (attr_queues a)) (seen k (attr_kind a)),
        found_iface (seen q (attr_queues a)) (seen k (attr_kind a))).
Proof.
  destruct a as [t data]. intros Hl (Hok & Hq & Hk). destruct (attr_lies _ _ _ _ Hl Hok) as (_ & H2 & Hd).
  unfold props_visit. rewrite H2. cbn [mbind option_bind].
  unfold attr_queues, attr_kind, attr_type in *. cbn [fst snd] in *.
  destruct (Z.eqb_spec (Z.land t (Z.lnot NLA_F_NESTED)) IFLA_NUM_TX_QUEUES) as [Ht|Ht].
  - rewrite (rd_lies _ _ _ _ Hd) by (rewrite Hq; done). cbn [mbind option_bind].
    rewrite (proj2 (Z.eqb_neq _ IFLA_QDISC)) by (rewrite Ht; done). by destruct q, k.
  - destruct (Z.eqb_spec (Z.land t (Z.lnot NLA_F_NESTED)) IFLA_QDISC) as [Ht'|Ht']; [|by destruct q, k].
    destruct (Hk Ht') as (name & -> & Hn). rewrite (kind_of_name_ok _ _ name) by done.
    cbn [mbind option_bind]. rewrite take_app_length' by (rewrite length_app; simpl; lia).
    by destruct q, k.
Qed.

(** The loop on the list of attributes: it stops when it has seen both. *)
Fixpoint props_scan (l : list (Z * list Z)) (q : option Z) (k : option qidsc_kind)
  : option Z * option qidsc_kind :=
  match l with
  | [] => (q, k)
  | a :: l =>
      let q := seen q (attr_queues a) in
      let k := seen k (attr_kind a) in
      match q, k with Some _, Some _ => (q, k) | _, _ => props_scan l q k end
  end.

Lemma props_loop_ok l mem off fuel q k :
  lies_at mem off (attrs_bytes l) → Forall link_attr_ok l → (length l < fuel)%nat →
  Z.of_nat (length (attrs_bytes l)) < 2 ^ 31 →
  props_loop fuel mem off (Z.of_nat (length (attrs_bytes l))) (found_bits q k) (found_iface q k) =
  Some (Some (let '(q, k) := props_scan l q k in (found_bits q k, found_iface q k))).
Proof.
  revert off fuel q k. induction l as [|[t data] l IH]; intros off fuel q k Hl Hok Hf Hlen;
    (destruct fuel as [|fuel]; [simpl in Hf; lia|]); [done|].
  apply Forall_cons in Hok as [Ha Hok]. rewrite attrs_bytes_cons in *.
  apply lies_at_app in Hl as [Hl Hrest]. cbn [props_loop]. destruct Ha as [Hat Ha'] eqn:E; clear E.
  rewrite (RTA_OK_attr _ _ _ _ _ Hl Hat) by (rewrite length_app; lia). cbn [mbind option_bind negb].
  rewrite (props_visit_ok _ _ (t, data)) by done. cbn [mbind option_bind props_scan].
  destruct (attr_lies _ _ _ _ Hl Hat) as (-> & _ & _). cbn [mbind option_bind].
  rewrite (RTA_ALIGN_attr t) by done. rewrite length_app in *. rewrite Nat2Z.inj_add in *.
  rewrite s32_small by lia. replace (_ + _ - _) with (Z.of_nat (length (attrs_bytes l))) by lia.
  set (q' := seen q _). set (k' := seen k _).
  assert (props_loop fuel mem (off + Z.of_nat (length (attr_bytes (t, data))))
    (Z.of_nat (length (attrs_bytes l))) (found_bits q' k') (found_iface q' k') =
    Some (Some (let '(q, k) := props_scan l q' k' in (found_bits q k, found_iface q k)))) as ->.
  { apply IH; [done|done|simpl in Hf; lia|lia]. }
  by destruct q', k'.
Qed.

(** What the loop has seen at the end, for attributes that occur at most
    once. *)
Lemma props_scan_spec l q k :
  (q = None ∨ omap attr_queues l = []) → (k = None ∨ omap attr_kind l = []) →
  (length (omap attr_queues l) <= 1)%nat → (length (omap attr_kind l) <= 1)%nat →
  props_scan l q k = (seen q (head (omap attr_queues l)), seen k (head (omap attr_kind l))).
Proof.
  revert q k. induction l as [|a l IH]; intros q k Hq Hk Hlq Hlk; [by destruct q, k|].
  cbn [props_scan omap list_omap] in *.
  destruct (attr_queues a) as [n|] eqn:Eq, (attr_kind a) as [kk|] eqn:Ek;
    cbn [length head seen] in *;
    repeat match goal with
    | H : (S (length ?x) <= 1)%nat |- _ => assert (x = []) by (destruct x; [done|simpl in H; lia]); clear H
    | H : _ ∨ _ :: _ = [] |- _ => destruct H as [->|H]; [|done]
    end; try done.
  - destruct k as [k|].
    + destruct Hk as [?|Hk]; [done|]. change (list_omap _ _ attr_kind l) with (omap attr_kind l) in *.
      by rewrite Hk.
    + rewrite IH by (auto || match goal with H : ?x = [] |- (length ?x <= _)%nat => rewrite H; simpl; lia end).
      by repeat match goal with H : ?x = [] |- context [?x] => rewrite H end.
  - destruct q as [q|].
    + destruct Hq as [?|Hq]; [done|]. change (list_omap _ _ attr_queues l) with (omap attr_queues l) in *.
      by rewrite Hq.
    + rewrite IH by (auto || match goal with H : ?x = [] |- (length ?x <= _)%nat => rewrite H; simpl; lia end).
      by repeat match goal with H : ?x = [] |- context [?x] => rewrite H end.
  - destruct q as [q|], k as [k|]; try (by apply IH).
    destruct Hq as [?|Hq]; [done|]. destruct Hk as [?|Hk]; [done|].
    change (list_omap _ _ attr_queues l) with (omap attr_queues l) in *.
    change (list_omap _ _ attr_kind l) with (omap attr_kind l) in *. by rewrite Hq, Hk.
Qed.

(** An answer about an interface, as the kernel sends it. *)
Definition link_msg (type flags seq pid : Z) (ifinfo : list Z) (l : list (Z * list Z)) : list Z :=
  nlmsghdr_bytes (32 + Z.of_nat (length (attrs_bytes l))) type flags seq pid ++ ifinfo ++ attrs_bytes l.

Lemma wraps_range w z : 0 < w → - 2 ^ (w - 1) <= wraps w z < 2 ^ (w - 1).
Proof.
  intros Hw. unfold wraps. pose proof (Z.mod_pos_bound (z + 2 ^ (w - 1)) (2 ^ w)) as H.
  assert (2 ^ w = 2 * 2 ^ (w - 1)) as E.
  { rewrite <-Z.pow_succ_r by lia. f_equal. lia. }
  rewrite E in *. assert (0 < 2 ^ (w - 1)) by (apply Z.pow_pos_nonneg; lia). lia.
Qed.

(** The answer in the kernel's format. *)
Lemma iface_props_ok mem answer type flags seq pid ifinfo l :
  lies_at mem answer (link_msg type flags seq pid ifinfo l) →
  type = RTM_NEWLINK ∨ type = RTM_DELLINK → length ifinfo = 16%nat → Forall link_attr_ok l →
  Z.of_nat (length (attrs_bytes l)) < 2 ^ 31 - 32 →
  (length (omap attr_queues l) <= 1)%nat → (length (omap attr_kind l) <= 1)%nat →
  iface_props_of_answer mem answer =
  Some (Some (match head (omap attr_queues l), head (omap attr_kind l) with
    | Some n, Some k => inr (mk_iface n k)
    | _, _ => inl (- EINVAL)
    end)).
Proof.
  intros Hl Ht Hif Hok Hlen H1 H2. unfold link_msg, nlmsghdr_bytes in Hl. rewrite <-!(assoc_L (++)) in Hl.
  repeat (apply lies_at_app in Hl as [? Hl]; rewrite ?length_le, ?Hif in * ).
  unfold iface_props_of_answer.
  replace (answer + 4) with (answer + Z.of_nat 4) by lia.
  erewrite (rd_le 2 _ _ 2 type) by (done || by destruct Ht as [->| ->]). cbn [mbind option_bind].
  replace (negb _ && negb _) with false by (by destruct Ht as [->| ->]).
  erewrite (rd_le 4 _ _ 4) by (done || (unfold in_u; simpl; lia)). cbn [mbind option_bind].
  replace (s32 _) with (Z.of_nat (length (attrs_bytes l)))
    by (unfold NLMSG_LENGTH, IFINFOMSG_SIZE, NLMSGHDR_SIZE; rewrite s32_small; lia).
  replace (answer + NLMSGHDR_SIZE + IFINFOMSG_SIZE) with
    (answer + Z.of_nat 4 + Z.of_nat 2 + Z.of_nat 2 + Z.of_nat 4 + Z.of_nat 4 + Z.of_nat 16)
    by (unfold NLMSGHDR_SIZE, IFINFOMSG_SIZE; lia).
  pose proof (length_attrs_le l).
  rewrite (props_loop_ok l _ _ _ None None) by (done || lia). cbn [mbind option_bind].
  rewrite props_scan_spec by auto. by destruct (head _), (head _).
Qed.

(** ** Properties *)

(** C24. The requests that set up traffic control fit in their structs (no
    write outside, no abort) and read back as what was meant: the header, the
    [struct tcmsg], the attributes, and for the filter the options nested in
    one of them. *)
Theorem requests_read_back ifindex parent handle prio bpf_fd kind kind_name name :
  in_u 32 ifindex → in_u 32 parent → in_u 32 handle →
  qdisc_name kind = Some kind_name → Z.of_nat (length name) < 60000 →
  (replace_qdisc_req ifindex parent handle kind_name ≫= read_tc) =
    Some (mk_tc RTM_NEWQDISC (NLM_F_REQUEST + NLM_F_CREATE + NLM_F_REPLACE) ifindex handle parent 0
            [(TCA_KIND, kind_name ++ [0])]) ∧
  read_tc (del_qdisc_req ifindex parent handle) =
    Some (mk_tc RTM_DELQDISC NLM_F_REQUEST ifindex handle parent 0 []) ∧
  read_tc (del_filter_req ifindex parent prio) =
    Some (mk_tc RTM_DELTFILTER NLM_F_REQUEST ifindex 0 parent (TC_H_MAKE (Z.shiftl prio 16) 0) []) ∧
  (replace_bpf_filter_req ifindex parent prio handle bpf_fd name ≫= read_tc) =
    Some (bpf_filter_msg ifindex parent prio handle bpf_fd name) ∧
  (let opts := attrs_bytes (bpf_options bpf_fd name) in
   rta_list (length opts) opts 0 (Z.of_nat (length opts)) = Some (bpf_options bpf_fd name)).
Proof.
  intros Hi Hp Hh Hk Hn. pose proof (TC_H_MAKE_range (Z.shiftl prio 16)) as Hinfo.
  assert (attr_ok (TCA_KIND, kind_name ++ [0])) as Hka.
  { split; [done|]. destruct kind; simplify_eq/=; done. }
  assert (Forall attr_ok (bpf_options bpf_fd name)) as Hopts.
  { repeat constructor; unfold RTA_LENGTH, RTATTR_SIZE; cbn [fst snd]; try done; try lia.
    rewrite length_app; simpl; lia. }
  pose proof (length_bpf_options bpf_fd name) as Hlo.
  split_and!.
  - destruct (replace_qdisc_req_ok ifindex parent handle kind kind_name Hk) as (req & room & -> & Hr).
    eapply request_read; [exact Hr|]. repeat split; try done; try apply Hi; try apply Hh; try apply Hp.
    by constructor.
  - eapply request_read; [apply tc_req_request|]. repeat split; try apply Hi; try apply Hh; try apply Hp; done.
  - eapply request_read; [apply tc_req_request|]. by repeat split; try apply Hi; try apply Hp; try apply Hinfo.
  - destruct (replace_bpf_filter_req_ok ifindex parent prio handle bpf_fd name Hn) as (req & room & -> & Hr).
    eapply request_read; [exact Hr|]. repeat split; try apply Hi; try apply Hh; try apply Hp; try apply Hinfo; try done.
    repeat constructor; try done. cbn [snd]. rewrite Hlo. unfold RTA_LENGTH, RTATTR_SIZE.
    Z.to_euclidean_division_equations; lia.
  - cbn zeta. pose proof (length_attrs_le (bpf_options bpf_fd name)).
    apply rta_list_attrs; [by apply (lies_at_here _ _ []); rewrite app_nil_r|done|].
    simpl in *. lia.
Qed.

Lemma requests_read_back_witness :
  (replace_bpf_filter_req 2 (TC_H_MAKE TC_H_CLSACT TC_H_MIN_EGRESS) 49151 1 7 (bytes "cgroup_rate_limit")
    ≫= read_tc) =
  Some (bpf_filter_msg 2 (TC_H_MAKE TC_H_CLSACT TC_H_MIN_EGRESS) 49151 1 7 (bytes "cgroup_rate_limit")).
Proof.
  apply (requests_read_back 2 (TC_H_MAKE TC_H_CLSACT TC_H_MIN_EGRESS) 1 49151 7 QDISC_KIND_FQ (bytes "fq")
    (bytes "cgroup_rate_limit")); vm_compute; split; congruence || reflexivity.
Defined.

(** C35. Reading the answer about an interface ends, whatever the bytes are:
    the loop over the attributes never runs out of its fuel, one iteration for
    each byte the message can have. *)
Theorem iface_props_terminates mem answer : iface_props_of_answer mem answer ≠ Some None.
Proof.
  unfold iface_props_of_answer. destruct (rd 2 _ _) as [type|]; [|done]. cbn [mbind option_bind].
  destruct (_ && _); [done|]. destruct (rd 4 _ _) as [n|]; [|done]. cbn [mbind option_bind].
  set (len := s32 _). assert (- 2 ^ 31 <= len < 2 ^ 31) as Hlen by (by apply (wraps_range 32)).
  pose proof (props_loop_ends (S (Z.to_nat len)) mem (answer + NLMSGHDR_SIZE + IFINFOMSG_SIZE) len 0
    (mk_iface 0 QDISC_KIND_MQ) Hlen ltac:(lia) ltac:(lia)).
  destruct (props_loop _ _ _ _ _ _) as [[[??]|]|]; done.
Qed.

(** C25. [get_iface_props] reads an answer in the kernel's format right: the
    number of queues and the kind of the root qdisc wherever they stand among
    the attributes, and -EINVAL if one is missing. No byte outside of the
    buffer is read. *)
Theorem iface_props_understood mem answer type flags seq pid ifinfo l :
  lies_at mem answer (link_msg type flags seq pid ifinfo l) →
  type = RTM_NEWLINK ∨ type = RTM_DELLINK → length ifinfo = 16%nat → Forall link_attr_ok l →
  Z.of_nat (length (attrs_bytes l)) < 2 ^ 31 - 32 →
  (length (omap attr_queues l) <= 1)%nat → (length (omap attr_kind l) <= 1)%nat →
  iface_props_of_answer mem answer =
  Some (Some (match head (omap attr_queues l), head (omap attr_kind l) with
    | Some n, Some k => inr (mk_iface n k)
    | _, _ => inl (- EINVAL)
    end)).
Proof. apply iface_props_ok. Qed.

Definition example_link : list Z :=
  link_msg RTM_NEWLINK 0 7 9 (replicate 16 0)
    [(3, bytes "eth0" ++ [0]); (IFLA_QDISC, bytes "mq" ++ [0]); (IFLA_NUM_TX_QUEUES, le 4 4)].

Lemma iface_props_understood_witness :
  iface_props_of_answer example_link 0 = Some (Some (inr (mk_iface 4 QDISC_KIND_MQ))).
Proof.
  refine (iface_props_understood example_link 0 RTM_NEWLINK 0 7 9 (replicate 16 0)
    [(3, bytes "eth0" ++ [0]); (IFLA_QDISC, bytes "mq" ++ [0]); (IFLA_NUM_TX_QUEUES, le 4 4)]
    _ (or_introl eq_refl) eq_refl _ eq_refl _ _).
  - by apply (lies_at_here _ _ []); rewrite app_nil_r.
  - repeat constructor; try done. intros _. exists (bytes "mq"). split; [done|].
    intros H%list_elem_of_In. vm_compute in H. intuition congruence.
  - vm_compute. lia.
  - vm_compute. lia.
Defined.
