(* ===== verification/Rtnl.v ===== *)
(** * Talking to the kernel over netlink (src/rtnl_util.c)

    The socket is what the kernel has queued on it: errors to report and
    datagrams, in order. A receive call on an empty socket waits for ever
    ([Waits]); touching memory that is not there is [Faults]. The kernel's
    side of the socket, memory allocation and the clock are parameters. *)

From S2P Require Import Prelude RateLimit Protocol Netlink.

#[local] Open Scope Z_scope.

Definition AF_NETLINK : Z := 16.

(** sizeof(struct sockaddr_nl). *)
Definition SOCKADDR_NL_SIZE : Z := 12.

(** ** State *)

Inductive sock_ev : Type :=
  | SockErr (errno : Z)
  | SockMsg (bs : list Z) (nl_pid addr_len : Z).

(** [struct rtnl_handle] without the descriptor, the kernel, the socket, and
    the number of blocks that are allocated. *)
Record net {K : Type} : Type := mk_net {
  kernel : K; sock : list sock_ev; seq : Z; local_pid : Z; live : Z;
}.
Arguments net : clear implicits.
Arguments mk_net {K} _ _ _ _ _.

Inductive outcome (A : Type) : Type := Returns (a : A) | Waits | Faults.
Arguments Returns {A} a.
Arguments Waits {A}.
Arguments Faults {A}.

(** ** Receiving *)

Definition MIN_BUF_LEN : Z := 32768.

(** What a receive call gives: the result, the bytes, the sender. *)
Record received : Type := mk_received { rcv_rc : Z; rcv_bytes : list Z; rcv_pid : Z; rcv_addr_len : Z }.

(** [recvfrom] with MSG_PEEK | MSG_TRUNC and no buffer gives the size and
    leaves the datagram, without flags it gives what fits in [len] bytes and
    takes the datagram. [rtnl_recvfrom] tries again on EINTR and EAGAIN. *)
Fixpoint rtnl_recvfrom (peek : bool) (len : Z) (s : list sock_ev) : outcome (received * list sock_ev) :=
  match s with
  | [] => Waits
  | SockErr e :: s' =>
      if (e =? EINTR) || (e =? EAGAIN) then rtnl_recvfrom peek len s'
      else Returns (mk_received (- e) [] 0 0, s')
  | SockMsg bs pid alen :: s' =>
      let rc := if peek then Z.of_nat (length bs) else Z.min len (Z.of_nat (length bs)) in
      let got := if peek then [] else take (Z.to_nat len) bs in
      Returns (mk_received (if rc =? 0 then - ENODATA else rc) got pid alen,
               if peek then s else s')
  end.

Section Talk.
Context {K : Type}.

(** [handle k req] is the kernel's reaction to a request: its new state, the
    error of [sendto] (0 for none) and what it queues on the socket. *)
Context (handle : K → list Z → K * Z * list sock_ev).

(** [malloc n]: [None] is NULL, otherwise the block with what is in it. *)
Context (malloc : Z → option (list Z)).

Definition set_sock (n : net K) (s : list sock_ev) : net K :=
  mk_net (kernel n) s (seq n) (local_pid n) (live n).
Definition set_live (n : net K) (l : Z) : net K :=
  mk_net (kernel n) (sock n) (seq n) (local_pid n) l.

(** [rtnl_recv] with a place for the answer, as [rtnl_talk] calls it: the
    result and, if it is not an error, the block and the sender. *)
Definition rtnl_recv (n : net K) : outcome (Z * list Z * Z * Z * net K) :=
  match rtnl_recvfrom true 0 (sock n) with
  | Waits => Waits
  | Faults => Faults
  | Returns (r, s) =>
      if rcv_rc r <? 0 then Returns (rcv_rc r, [], 0, 0, set_sock n s)
      else
        let length := if rcv_rc r <? MIN_BUF_LEN then MIN_BUF_LEN else 0 in
        match malloc length with
        | None => Returns (- ENOMEM, [], 0, 0, set_sock n s)
        | Some buf =>
            match rtnl_recvfrom false length s with
            | Waits => Waits
            | Faults => Faults
            | Returns (r, s) =>
                if rcv_rc r <? 0 then Returns (rcv_rc r, [], 0, 0, set_sock n s)
                else
                  let buf := rcv_bytes r ++ drop (List.length (rcv_bytes r)) buf in
                  Returns (rcv_rc r, buf, rcv_pid r, rcv_addr_len r,
                           set_live (set_sock n s) (live n + 1))
            end
        end
  end.

(** ** The loop over the messages of a datagram *)

(** [NLMSG_OK] reads the length only if a header fits. *)
Definition NLMSG_OK (mem : list Z) (nlhdr len : Z) : option bool :=
  if len <? NLMSGHDR_SIZE then Some false
  else
    nlmsg_len ← rd 4 nlhdr mem;
    Some ((NLMSGHDR_SIZE <=? nlmsg_len) && (nlmsg_len <=? len)).

(** How the loop ends: with a result, or at a message that is an answer. *)
Inductive talk_end : Type := TalkRc (rc : Z) | TalkAnswer (nlhdr : Z).

(** A message that is ours and tells an error or success. *)
Definition talk_error (mem : list Z) (nlhdr : Z) : option talk_end :=
  nlmsg_len ← rd 4 nlhdr mem;
  if nlmsg_len <? NLMSG_LENGTH NLMSGERR_SIZE then Some (TalkRc (- EINVAL))
  else
    error ← rd 4 (nlhdr + NLMSGHDR_SIZE) mem;
    Some (TalkRc (if s32 error <? 0 then s32 error else 0)).

(** [None] is a fault, [Some None] is out of fuel. *)
Fixpoint talk_loop (fuel : nat) (mem : list Z) (src_pid pid this_seq nlhdr answer_len : Z)
  : option (option talk_end) :=
  match fuel with
  | O => Some None
  | S fuel =>
      ok ← NLMSG_OK mem nlhdr answer_len;
      if negb ok then Some (Some (TalkRc (- EINVAL)))
      else
        nlmsg_pid ← rd 4 (nlhdr + 12) mem;
        nlmsg_seq ← rd 4 (nlhdr + 8) mem;
        if negb (src_pid =? 0) || negb (nlmsg_pid =? pid) || negb (nlmsg_seq =? this_seq) then
          flags ← rd 2 (nlhdr + 6) mem;
          if negb (Z.land flags NLMSG_DONE =? 0) then Some (Some (TalkRc (- ENOMSG)))
          else
            nlmsg_len ← rd 4 nlhdr mem;
            talk_loop fuel mem src_pid pid this_seq (nlhdr + NLMSG_ALIGN nlmsg_len)
              (s32 (answer_len - NLMSG_ALIGN nlmsg_len))
        else
          type ← rd 2 (nlhdr + 4) mem;
          if type =? NLMSG_ERROR then Some <$> talk_error mem nlhdr
          else Some (Some (TalkAnswer nlhdr))
  end.

(** ** [rtnl_talk] *)

(** What the caller gets: the result, and the block with the place in it that
    [*answer] points to, if it was set. *)
Record talked : Type := mk_talked { tk_rc : Z; tk_answer : option (list Z * Z) }.

(** The request as it is sent: the flag that asks for an acknowledgement if
    no answer is wanted, and the sequence number. *)
Definition talk_prepare (want_answer : bool) (this_seq : Z) (n : list Z) : option (list Z) :=
  flags ← rd 2 6 n;
  '(_, n) ← wr 6 (le 2 (if want_answer then flags else Z.lor flags NLM_F_ACK)) n;
  '(_, n) ← wr 8 (le 4 this_seq) n;
  Some n.

Definition rtnl_talk (n : list Z) (want_answer : bool) (st : net K) : outcome (talked * net K) :=
  let this_seq := seq st in
  let st := mk_net (kernel st) (sock st) (u32 (seq st + 1)) (local_pid st) (live st) in
  match talk_prepare want_answer this_seq n with
  | None => Faults
  | Some n =>
      match rd 4 0 n with
      | None => Faults
      | Some nlmsg_len =>
          let '(k, e, evs) := handle (kernel st) (take (Z.to_nat nlmsg_len) n) in
          let st := mk_net k (sock st ++ evs) (seq st) (local_pid st) (live st) in
          if negb (e =? 0) then Returns (mk_talked (- e) None, st)
          else
            match rtnl_recv st with
            | Waits => Waits
            | Faults => Faults
            | Returns (rc, buf, src_pid, addr_len, st) =>
                if rc <? 0 then Returns (mk_talked rc None, st)
                else if negb (addr_len =? SOCKADDR_NL_SIZE) then
                  Returns (mk_talked (- EINVAL) None, set_live st (live st - 1))
                else
                  match talk_loop (S (Z.to_nat rc)) buf src_pid (local_pid st) this_seq 0 rc with
                  | None | Some None => Faults
                  | Some (Some (TalkRc rc)) =>
                      Returns (mk_talked rc None, set_live st (live st - 1))
                  | Some (Some (TalkAnswer nlhdr)) =>
                      if want_answer then Returns (mk_talked 0 (Some (buf, nlhdr)), st)
                      else Returns (mk_talked 0 None, set_live st (live st - 1))
                  end
            end
      end
  end.

End Talk.

(** ** The loop over messages *)

Lemma rd_in mem n off : 0 <= off → off + n <= Z.of_nat (length mem) → ∃ v, rd n off mem = Some v.
Proof.
  intros H1 H2. unfold rd. rewrite (proj2 (Z.leb_le _ _)), (proj2 (Z.leb_le _ _)) by lia. eauto.
Qed.

Lemma wr_in off bs mem : 0 <= off → off + Z.of_nat (length bs) <= Z.of_nat (length mem) →
  ∃ mem', wr off bs mem = Some (tt, mem') ∧ length mem' = length mem.
Proof.
  intros H1 H2. unfold wr. rewrite (proj2 (Z.leb_le _ _)), (proj2 (Z.leb_le _ _)) by lia.
  eexists. split; [done|]. unfold splice. rewrite !length_app, length_take, length_drop. lia.
Qed.

(** Read the field at [o], which is in bounds, whatever it is. *)
Ltac rd_some n o mem v :=
  destruct (rd_in mem n o) as [v ->];
  [unfold NLMSG_LENGTH, NLMSGHDR_SIZE, NLMSGERR_SIZE in *; lia..|]; cbn [mbind option_bind].

(** What the loop can end with: an error or success, or a message that lies
    in the bytes received. *)
Definition talk_end_ok (mem : list Z) (e : talk_end) : Prop :=
  match e with
  | TalkRc rc => rc <= 0
  | TalkAnswer p => 0 <= p ∧ ∃ len, rd 4 p mem = Some len ∧ NLMSGHDR_SIZE <= len ∧
      p + len <= Z.of_nat (length mem)
  end.

Lemma talk_loop_total fuel mem src_pid pid this_seq nlhdr len :
  0 <= nlhdr → nlhdr + len <= Z.of_nat (length mem) → - 2 ^ 31 <= len < 2 ^ 31 →
  len < Z.of_nat fuel → (0 < fuel)%nat →
  ∃ e, talk_loop fuel mem src_pid pid this_seq nlhdr len = Some (Some e) ∧ talk_end_ok mem e.
Proof.
  revert nlhdr len. induction fuel as [|fuel IH]; intros nlhdr len H0 Hin Hlen Hf Hf0; [lia|].
  cbn [talk_loop]. unfold NLMSG_OK.
  destruct (Z.ltb_spec len NLMSGHDR_SIZE) as [|Hge]; [by eexists|].
  destruct (rd_in mem 4 nlhdr) as [n Hn]; [unfold NLMSGHDR_SIZE in *; lia..|].
  rewrite Hn. cbn [mbind option_bind].
  destruct (_ && _) eqn:E; [|by eexists]. apply andb_true_iff in E as [E1%Z.leb_le E2%Z.leb_le].
  cbn [negb]. rd_some 4 (nlhdr + 12) mem p. rd_some 4 (nlhdr + 8) mem q. destruct (_ || _).
  - rd_some 2 (nlhdr + 6) mem f. destruct (negb _); [by eexists|]. unfold NLMSGHDR_SIZE in *.
    rewrite NLMSG_ALIGN_spec by lia.
    apply IH; rewrite ?s32_small; Z.to_euclidean_division_equations; lia.
  - rd_some 2 (nlhdr + 4) mem t. destruct (_ =? _).
    + unfold talk_error. rewrite Hn. cbn [mbind option_bind].
      destruct (Z.ltb_spec n (NLMSG_LENGTH NLMSGERR_SIZE)); [by eexists|]. rd_some 4 (nlhdr + NLMSGHDR_SIZE) mem e.
      eexists. split; [done|]. unfold talk_end_ok. destruct (Z.ltb_spec (s32 e) 0); lia.
    + eexists. split; [done|]. split; [done|]. exists n. split; [done|]. lia.
Qed.

(** A netlink message, as sender and receiver mean it. *)
Record nlmsg : Type := mk_nlmsg { nm_type : Z; nm_flags : Z; nm_seq : Z; nm_pid : Z; nm_data : list Z }.

Definition nlmsg_bytes (m : nlmsg) : list Z :=
  nlmsghdr_bytes (NLMSG_LENGTH (Z.of_nat (length (nm_data m)))) (nm_type m) (nm_flags m) (nm_seq m)
    (nm_pid m) ++ nm_data m ++ replicate (pad4 (length (nm_data m))) 0.

Definition nlmsg_ok (m : nlmsg) : Prop :=
  in_u 16 (nm_type m) ∧ in_u 16 (nm_flags m) ∧ in_u 32 (nm_seq m) ∧ in_u 32 (nm_pid m) ∧
  Z.of_nat (length (nm_data m)) < 2 ^ 30.

Lemma length_nlmsg_bytes m :
  Z.of_nat (length (nlmsg_bytes m)) = 4 * ((NLMSG_LENGTH (Z.of_nat (length (nm_data m))) + 3) / 4).
Proof.
  unfold nlmsg_bytes, nlmsghdr_bytes, NLMSG_LENGTH, NLMSGHDR_SIZE, pad4.
  rewrite !length_app, !length_le, length_replicate. Z.to_euclidean_division_equations; lia.
Qed.

Lemma nlmsg_lies mem off m :
  lies_at mem off (nlmsg_bytes m) → nlmsg_ok m →
  rd 4 off mem = Some (NLMSG_LENGTH (Z.of_nat (length (nm_data m)))) ∧
  rd 2 (off + 4) mem = Some (nm_type m) ∧ rd 2 (off + 6) mem = Some (nm_flags m) ∧
  rd 4 (off + 8) mem = Some (nm_seq m) ∧ rd 4 (off + 12) mem = Some (nm_pid m) ∧
  lies_at mem (off + NLMSGHDR_SIZE) (nm_data m).
Proof.
  intros Hl (Ht & Hf & Hs & Hp & Hd). unfold nlmsg_bytes, nlmsghdr_bytes in Hl.
  rewrite <-!(assoc_L (++)) in Hl.
  do 6 (apply lies_at_app in Hl as [? Hl]; rewrite ?length_le in *).
  repeat split; [eapply (rd_le _ _ _ 4); [done|done|]|..].
  - unfold in_u, NLMSG_LENGTH, NLMSGHDR_SIZE. simpl. lia.
  - replace (off + 4) with (off + Z.of_nat 4) by lia. by eapply rd_le.
  - replace (off + 6) with (off + Z.of_nat 4 + Z.of_nat 2) by lia. by eapply rd_le.
  - replace (off + 8) with (off + Z.of_nat 4 + Z.of_nat 2 + Z.of_nat 2) by lia. by eapply rd_le.
  - replace (off + 12) with (off + Z.of_nat 4 + Z.of_nat 2 + Z.of_nat 2 + Z.of_nat 4) by lia.
    by eapply rd_le.
  - replace (off + NLMSGHDR_SIZE) with (off + Z.of_nat 4 + Z.of_nat 2 + Z.of_nat 2 + Z.of_nat 4 + Z.of_nat 4)
      by (unfold NLMSGHDR_SIZE; lia). done.
Qed.

(** The reference: what the messages of a datagram from the kernel mean for
    the request [this_seq] of the port [pid]. *)
Definition ours (pid this_seq : Z) (m : nlmsg) : bool := (nm_pid m =? pid) && (nm_seq m =? this_seq).

Definition msg_meaning (off : Z) (m : nlmsg) : talk_end :=
  if nm_type m =? NLMSG_ERROR then
    if Z.of_nat (length (nm_data m)) <? NLMSGERR_SIZE then TalkRc (- EINVAL)
    else TalkRc (Z.min (s32 (unle (take 4 (nm_data m)))) 0)
  else TalkAnswer off.

Fixpoint talk_ref (pid this_seq : Z) (ms : list nlmsg) (off : Z) : talk_end :=
  match ms with
  | [] => TalkRc (- EINVAL)
  | m :: ms =>
      if ours pid this_seq m then msg_meaning off m
      else if Z.land (nm_flags m) NLMSG_DONE =? 0 then
        talk_ref pid this_seq ms (off + Z.of_nat (length (nlmsg_bytes m)))
      else TalkRc (- ENOMSG)
  end.

Definition datagram (ms : list nlmsg) : list Z := concat (nlmsg_bytes <$> ms).

Lemma talk_error_ok mem off m :
  lies_at mem off (nlmsg_bytes m) → nlmsg_ok m → nm_type m = NLMSG_ERROR →
  talk_error mem off = Some (msg_meaning off m).
Proof.
  intros Hl Hm Ht. destruct (nlmsg_lies _ _ _ Hl Hm) as (H1 & _ & _ & _ & _ & Hd).
  unfold talk_error, msg_meaning. rewrite H1, Ht. cbn [mbind option_bind]. rewrite Z.eqb_refl.
  unfold NLMSG_LENGTH, NLMSGERR_SIZE, NLMSGHDR_SIZE in *.
  destruct (Z.ltb_spec (Z.of_nat (length (nm_data m)) + 16) (20 + 16)) as [Hs|Hs].
  - by rewrite (proj2 (Z.ltb_lt _ _)) by lia.
  - rewrite (proj2 (Z.ltb_ge _ _)) by lia.
    rewrite <-(take_drop 4 (nm_data m)) in Hd. apply lies_at_app in Hd as [Hd _].
    rewrite (rd_lies _ _ _ _ Hd) by (rewrite length_take; lia). cbn [mbind option_bind]. do 2 f_equal.
    destruct (Z.ltb_spec (s32 (unle (take 4 (nm_data m)))) 0); lia.
Qed.

Lemma datagram_cons m ms : datagram (m :: ms) = nlmsg_bytes m ++ datagram ms.
Proof. done. Qed.

Lemma NLMSG_OK_msg mem off m len :
  lies_at mem off (nlmsg_bytes m) → nlmsg_ok m → Z.of_nat (length (nlmsg_bytes m)) <= len →
  NLMSG_OK mem off len = Some true.
Proof.
  intros Hl Hm Hlen. destruct (nlmsg_lies _ _ _ Hl Hm) as (H1 & _). rewrite length_nlmsg_bytes in Hlen.
  unfold NLMSG_OK. assert (NLMSG_LENGTH (Z.of_nat (length (nm_data m))) <= len)
    by (Z.to_euclidean_division_equations; lia).
  unfold NLMSG_LENGTH, NLMSGHDR_SIZE in *. rewrite (proj2 (Z.ltb_ge _ _)), H1 by lia.
  cbn [mbind option_bind]. by rewrite (proj2 (Z.leb_le 16 _)), (proj2 (Z.leb_le _ len)) by lia.
Qed.

Lemma talk_loop_ref ms mem off fuel pid this_seq :
  lies_at mem off (datagram ms) → Forall nlmsg_ok ms → (length ms < fuel)%nat →
  Z.of_nat (length (datagram ms)) < 2 ^ 31 →
  talk_loop fuel mem 0 pid this_seq off (Z.of_nat (length (datagram ms))) =
  Some (Some (talk_ref pid this_seq ms off)).
Proof.
  revert off fuel. induction ms as [|m ms IH]; intros off fuel Hl Hok Hf Hlen;
    (destruct fuel as [|fuel]; [simpl in Hf; lia|]); [done|].
  apply Forall_cons in Hok as [Hm Hok]. rewrite datagram_cons in *.
  apply lies_at_app in Hl as [Hl Hrest]. cbn [talk_loop talk_ref].
  rewrite (NLMSG_OK_msg _ _ _ _ Hl Hm) by (rewrite length_app; lia). cbn [mbind option_bind negb].
  destruct (nlmsg_lies _ _ _ Hl Hm) as (H1 & H2 & H3 & H4 & H5 & _).
  rewrite H5, H4. cbn [mbind option_bind]. unfold ours. cbn [Z.eqb negb orb].
  destruct ((nm_pid m =? pid) && (nm_seq m =? this_seq)) eqn:E.
  - replace (negb _ || negb _) with false by (rewrite <-negb_andb, E; done).
    rewrite H2. cbn [mbind option_bind]. destruct (Z.eqb_spec (nm_type m) NLMSG_ERROR) as [Ht|Ht].
    + by rewrite (talk_error_ok _ _ m).
    + unfold msg_meaning. by rewrite (proj2 (Z.eqb_neq _ _)).
  - replace (negb _ || negb _) with true by (rewrite <-negb_andb, E; done).
    rewrite H3. cbn [mbind option_bind]. destruct (Z.eqb_spec (Z.land (nm_flags m) NLMSG_DONE) 0); [|done].
    cbn [negb]. rewrite H1. cbn [mbind option_bind].
    rewrite NLMSG_ALIGN_spec, <-length_nlmsg_bytes
      by (destruct Hm as (_ & _ & _ & _ & ?); unfold NLMSG_LENGTH, NLMSGHDR_SIZE; lia).
    rewrite length_app in *. rewrite Nat2Z.inj_add in *. rewrite s32_small by lia.
    replace (_ + _ - _) with (Z.of_nat (length (datagram ms))) by lia.
    apply IH; [done|done|simpl in Hf; lia|lia].
Qed.

(** Messages that are not ours, of the kinds that the loop skips, do not
    matter. *)
Lemma talk_ref_skips pid this_seq skipped ms off :
  Forall (λ m, ours pid this_seq m = false ∧ Z.land (nm_flags m) NLMSG_DONE = 0) skipped →
  talk_ref pid this_seq (skipped ++ ms) off =
  talk_ref pid this_seq ms (off + Z.of_nat (length (datagram skipped))).
Proof.
  intros H. revert off. induction H as [|m skipped [Ho Hf] _ IH]; intros off; cbn [app].
  - f_equal. simpl. lia.
  - cbn [talk_ref]. rewrite Ho, Hf, Z.eqb_refl, IH, datagram_cons, length_app. f_equal. lia.
Qed.

(** ** [rtnl_talk] *)

(** errno is positive. *)
Definition sock_ok (s : list sock_ev) : Prop :=
  Forall (λ ev, match ev with SockErr e => 0 < e | SockMsg bs _ _ => Z.of_nat (length bs) < 2 ^ 31 end) s.

Lemma rtnl_recvfrom_ok peek len s r s' :
  sock_ok s → rtnl_recvfrom peek len s = Returns (r, s') → 0 <= len →
  sock_ok s' ∧ rcv_rc r < 2 ^ 31 ∧ (0 <= rcv_rc r → peek = false → rcv_rc r = Z.of_nat (length (rcv_bytes r))).
Proof.
  intros Hs. revert r s'. induction Hs as [|[e|bs p al] s Hev Hs IH]; intros r s'; cbn [rtnl_recvfrom].
  - done.
  - destruct (_ || _); [apply IH|]. intros [= <- <-] _. cbn. split; [done|]. lia.
  - intros [= <- <-] Hlen. cbn [rcv_rc rcv_bytes]. split; [destruct peek; [by constructor|done]|].
    split; [destruct peek, (_ =? _); unfold ENODATA; lia|]. intros Hrc ->.
    rewrite length_take. destruct (_ =? _) eqn:E; [unfold ENODATA in *; lia|]. lia.
Qed.

Lemma rtnl_recvfrom_no_fault peek len s : rtnl_recvfrom peek len s ≠ Faults.
Proof. induction s as [|[e|bs p al] s IH]; cbn [rtnl_recvfrom]; [done| |done]. by destruct (_ || _). Qed.

Section TalkProofs.
Context {K : Type} (handle : K → list Z → K * Z * list sock_ev) (malloc : Z → option (list Z)).

(** What the kernel queues is well formed, and errno is not negative. *)
Definition kernel_ok : Prop :=
  ∀ k req, 0 <= (handle k req).1.2 ∧ sock_ok (handle k req).2.

Lemma rtnl_recv_ok (n : net K) :
  sock_ok (sock n) →
  match rtnl_recv malloc n with
  | Faults => False
  | Waits => True
  | Returns (rc, buf, _, _, n') =>
      sock_ok (sock n') ∧ seq n' = seq n ∧ local_pid n' = local_pid n ∧ rc < 2 ^ 31 ∧
      live n' = live n + (if rc <? 0 then 0 else 1) ∧ (0 <= rc → rc <= Z.of_nat (length buf))
  end.
Proof.
  intros Hs. unfold rtnl_recv. pose proof (rtnl_recvfrom_no_fault true 0 (sock n)) as Hnf.
  destruct (rtnl_recvfrom true 0 (sock n)) as [[r s]| |] eqn:E; [|done|done].
  destruct (rtnl_recvfrom_ok _ _ _ _ _ Hs E) as (Hs' & Hr & _); [done|].
  destruct (rcv_rc r <? 0) eqn:El; [cbn; rewrite El; split_and!; done || lia|].
  set (len := if rcv_rc r <? MIN_BUF_LEN then MIN_BUF_LEN else 0). destruct (malloc len) as [blk|];
    [|unfold ENOMEM; simpl; split_and!; try done; lia].
  pose proof (rtnl_recvfrom_no_fault false len s) as Hnf2.
  destruct (rtnl_recvfrom false len s) as [[r2 s2]| |] eqn:E2; [|done|done].
  destruct (rtnl_recvfrom_ok _ _ _ _ _ Hs' E2) as (Hs2 & Hr2 & Hl2).
  { subst len. unfold MIN_BUF_LEN. by destruct (rcv_rc r <? 32768). }
  destruct (rcv_rc r2 <? 0) eqn:El2; cbn; rewrite El2; split_and!; try done; try lia.
  intros H. rewrite (Hl2 H eq_refl), length_app. lia.
Qed.

(** Receiving a datagram of a size that fits in the buffer. *)
Lemma rtnl_recv_datagram (n : net K) bs pid alen rest blk :
  sock n = SockMsg bs pid alen :: rest → 0 < Z.of_nat (length bs) < MIN_BUF_LEN →
  malloc MIN_BUF_LEN = Some blk →
  rtnl_recv malloc n =
  Returns (Z.of_nat (length bs), bs ++ drop (length bs) blk, pid, alen,
           set_live (set_sock n rest) (live n + 1)).
Proof.
  intros Hs Hlen Hblk. unfold rtnl_recv. rewrite Hs. cbn [rtnl_recvfrom rcv_rc].
  assert ((Z.of_nat (length bs) =? 0) = false) as H0 by (apply Z.eqb_neq; lia).
  assert ((Z.of_nat (length bs) <? 0) = false) as Hpos by (apply Z.ltb_ge; lia).
  assert ((Z.of_nat (length bs) <? MIN_BUF_LEN) = true) as Hm by (apply Z.ltb_lt; lia).
  rewrite H0, Hpos, Hm, Hblk. cbn [rtnl_recvfrom rcv_rc rcv_bytes rcv_pid rcv_addr_len].
  rewrite Z.min_r, H0, Hpos by lia. by rewrite (take_ge bs) by lia.
Qed.

(** A datagram of 32768 bytes or more is not received: the buffer's length
    stays 0, and reading nothing counts as the end of the stream. *)
Lemma large_datagram_rejected (n : net K) bs pid alen rest :
  sock n = SockMsg bs pid alen :: rest → MIN_BUF_LEN <= Z.of_nat (length bs) →
  ∃ rc n', rtnl_recv malloc n = Returns (rc, [], 0, 0, n') ∧ (rc = - ENODATA ∨ rc = - ENOMEM).
Proof.
  intros Hs Hlen. unfold MIN_BUF_LEN in Hlen. unfold rtnl_recv. rewrite Hs. cbn [rtnl_recvfrom rcv_rc].
  assert ((Z.of_nat (length bs) =? 0) = false) as -> by (apply Z.eqb_neq; lia).
  assert ((Z.of_nat (length bs) <? 0) = false) as -> by (apply Z.ltb_ge; lia).
  assert ((Z.of_nat (length bs) <? MIN_BUF_LEN) = false) as -> by (apply Z.ltb_ge; unfold MIN_BUF_LEN; lia).
  destruct (malloc 0); [|eauto]. cbn [rtnl_recvfrom rcv_rc]. rewrite Z.min_l by lia. cbn. eauto.
Qed.

Lemma talk_prepare_ok want this_seq n : (16 <= length n)%nat →
  ∃ n' len, talk_prepare want this_seq n = Some n' ∧ rd 4 0 n' = Some len.
Proof.
  intros Hn. unfold talk_prepare. destruct (rd_in n 2 6) as [f ->]; [lia..|]. cbn [mbind option_bind].
  set (f' := if want then _ else _).
  destruct (wr_in 6 (le 2 f') n) as (n1 & -> & H1); [lia|rewrite length_le; lia|]. cbn [mbind option_bind].
  destruct (wr_in 8 (le 4 this_seq) n1) as (n2 & -> & H2); [lia|rewrite length_le; lia|].
  cbn [mbind option_bind]. destruct (rd_in n2 4 0) as [len Hlen]; [lia..|eauto].
Qed.


Lemma talk_prepare_spec want this_seq (A F S R : list Z) :
  length A = 6%nat → length F = 2%nat → length S = 4%nat →
  talk_prepare want this_seq (A ++ F ++ S ++ R) =
  Some (A ++ le 2 (if want then unle F else Z.lor (unle F) NLM_F_ACK) ++ le 4 this_seq ++ R).
Proof.
  intros HA HF HS. unfold talk_prepare.
  rewrite (rd_lies 2 6 _ F); [|exists A, (S ++ R); split; [done|lia]|lia]. cbn [mbind option_bind].
  rewrite (wr_lies 6 _ F _ A (S ++ R)) by (rewrite ?length_le; done || lia). cbn [mbind option_bind].
  set (fl := le 2 _). assert (length fl = 2%nat) by apply length_le.
  rewrite (wr_lies 8 _ S _ (A ++ fl) R);
    [by cbn [mbind option_bind]; rewrite <-(assoc_L (++))|by rewrite <-(assoc_L (++))|
     rewrite length_app; lia|by rewrite length_le].
Qed.

(** The request as it reaches the kernel: with the flag that asks for an
    acknowledgement and a sequence number. *)
Definition with_ack (m : tc_msg) : tc_msg :=
  mk_tc (tc_type m) (Z.lor (tc_flags m) NLM_F_ACK) (tc_ifindex m) (tc_handle m) (tc_parent m)
    (tc_info m) (tc_attrs m).

Definition sent_bytes (sq : Z) (m : tc_msg) : list Z :=
  le 4 (4 + Z.of_nat (length (tc_body m))) ++ tc_body_seq sq (with_ack m).

Lemma talk_sends mem m room this_seq :
  request mem m room → in_u 16 (tc_flags m) →
  ∃ n, talk_prepare false this_seq mem = Some n ∧
    rd 4 0 n = Some (4 + Z.of_nat (length (tc_body m))) ∧
    take (Z.to_nat (4 + Z.of_nat (length (tc_body m)))) n = sent_bytes this_seq m.
Proof.
  intros ([-> Hmod] & Hroom & Hsize) Hfl. set (L := le 4 _).
  assert (length L = 4%nat) as HL by apply length_le.
  pose proof (talk_prepare_spec false this_seq (L ++ le 2 (tc_type m)) (le 2 (tc_flags m)) (le 4 0)
    (le 4 0 ++ tcmsg_bytes (tc_ifindex m) (tc_handle m) (tc_parent m) (tc_info m) ++
     attrs_bytes (tc_attrs m) ++ replicate (Z.to_nat room) 0)) as Hp.
  rewrite <-!(assoc_L (++)) in Hp. unfold tc_body_seq at 1. rewrite <-!(assoc_L (++)).
  rewrite Hp by (rewrite ?length_app, ?length_le; lia). clear Hp.
  rewrite unle_le_id by done. eexists. split; [reflexivity|]. split.
  - eapply (rd_le _ _ _ 4); [by eapply lies_at_here|done|]. unfold in_u. rewrite !length_tc_body in *.
    unfold REQ_SIZE, NLMSGHDR_SIZE, TCMSG_SIZE, TCA_BUF_MAX in *. simpl. lia.
  - set (l := L ++ _). assert (l = sent_bytes this_seq m ++ replicate (Z.to_nat room) 0) as ->.
    { subst l. unfold sent_bytes, tc_body_seq. by rewrite <-!(assoc_L (++)). }
    apply take_app_length'. unfold sent_bytes. rewrite length_app, length_le, !length_tc_body. cbn [tc_attrs with_ack]. lia.
Qed.

Lemma sent_reads_back sq mem m room :
  request mem m room → tc_msg_ok m → in_u 32 sq →
  read_tc (sent_bytes sq m) = Some (with_ack m) ∧ rd 4 8 (sent_bytes sq m) = Some sq.
Proof.
  intros ([_ Hmod] & Hroom & Hsize) Hm Hsq. rewrite length_tc_body in *. split.
  - eapply (read_tc_built sq _ _ 0).
    + split; [by unfold sent_bytes; rewrite !length_tc_body; cbn [replicate]; rewrite app_nil_r|].
      by rewrite length_tc_body.
    + destruct Hm as (? & Hf & ? & ? & ? & ? & ?). repeat split; cbn [with_ack tc_type tc_flags tc_ifindex
        tc_handle tc_parent tc_info tc_attrs]; try apply H; try apply H0; try apply H1; try apply H2; try apply H3;
        try done; destruct Hf as [Hf1 Hf2].
      * apply Z.lor_nonneg. done.
      * apply Z.log2_lt_cancel. rewrite Z.log2_lor by done. apply Z.max_lub_lt; [|done].
        destruct (decide (tc_flags m = 0)) as [->|]; [done|]. by apply Z.log2_lt_pow2; [lia|].
    + rewrite length_tc_body. cbn [with_ack tc_attrs]. unfold REQ_SIZE, NLMSGHDR_SIZE, TCMSG_SIZE, TCA_BUF_MAX in *. lia.
  - eapply (rd_le _ _ _ 4); [|done|done].
    exists (le 4 (4 + Z.of_nat (length (tc_body m))) ++ le 2 (tc_type m) ++ le 2 (Z.lor (tc_flags m) NLM_F_ACK)).
    eexists. split; [|by rewrite !length_app, !length_le].
    unfold sent_bytes, tc_body_seq. cbn [with_ack tc_type tc_flags]. rewrite <-!(assoc_L (++)). reflexivity.
Qed.

(** One message of ours decides, whatever the request. *)
Lemma rtnl_talk_one n want (st : net K) n' len k' a blk :
  talk_prepare want (seq st) n = Some n' → rd 4 0 n' = Some len →
  handle (kernel st) (take (Z.to_nat len) n') = (k', 0, [SockMsg (nlmsg_bytes a) 0 SOCKADDR_NL_SIZE]) →
  sock st = [] → malloc MIN_BUF_LEN = Some blk → nlmsg_ok a → Z.of_nat (length (nm_data a)) < 32700 →
  ours (local_pid st) (seq st) a = true →
  rtnl_talk handle malloc n want st =
  match msg_meaning 0 a with
  | TalkRc rc => Returns (mk_talked rc None, mk_net k' [] (u32 (seq st + 1)) (local_pid st) (live st))
  | TalkAnswer p =>
      if want then Returns (mk_talked 0 (Some (nlmsg_bytes a ++ drop (length (nlmsg_bytes a)) blk, p)),
        mk_net k' [] (u32 (seq st + 1)) (local_pid st) (live st + 1))
      else Returns (mk_talked 0 None, mk_net k' [] (u32 (seq st + 1)) (local_pid st) (live st))
  end.
Proof.
  intros Hp Hlen Hk Hsock Hblk Ha Hd Hours. unfold rtnl_talk. rewrite Hp, Hlen.
  cbn [kernel sock seq local_pid live]. rewrite Hk, Hsock. cbn [app negb Z.eqb].
  pose proof (length_nlmsg_bytes a) as Hl. unfold NLMSG_LENGTH, NLMSGHDR_SIZE in Hl.
  assert (16 <= Z.of_nat (length (nlmsg_bytes a)) < MIN_BUF_LEN) as Hrange.
  { unfold MIN_BUF_LEN. rewrite Hl. Z.to_euclidean_division_equations; lia. }
  rewrite (rtnl_recv_datagram _ (nlmsg_bytes a) 0 SOCKADDR_NL_SIZE [] blk) by (done || lia).
  cbn [negb local_pid set_live set_sock kernel sock seq live].
  rewrite (proj2 (Z.ltb_ge _ _)), Z.eqb_refl by lia. cbn [negb].
  pose proof (talk_loop_ref [a] (nlmsg_bytes a ++ drop (length (nlmsg_bytes a)) blk) 0
    (S (Z.to_nat (Z.of_nat (length (nlmsg_bytes a))))) (local_pid st) (seq st)) as Hloop.
  unfold datagram in Hloop. cbn [fmap list_fmap concat] in Hloop. rewrite app_nil_r in Hloop.
  rewrite Hloop; [|by eapply lies_at_here|by constructor|simpl; lia|unfold MIN_BUF_LEN in *; lia].
  cbn [talk_ref]. rewrite Hours. replace (live st + 1 - 1) with (live st) by lia. done.
Qed.

(** The kernel's acknowledgement of a request, or its refusal: the error
    number, and at least the header of the request. *)
Definition ack (sq pid err : Z) (extra : list Z) : nlmsg :=
  mk_nlmsg NLMSG_ERROR 0 sq pid (le 4 err ++ extra).

Lemma ack_ok sq pid err extra :
  in_u 32 sq → in_u 32 pid → - 2 ^ 31 <= err < 2 ^ 31 → 16 <= Z.of_nat (length extra) < 32000 →
  nlmsg_ok (ack sq pid err extra) ∧ ours pid sq (ack sq pid err extra) = true ∧
  Z.of_nat (length (nm_data (ack sq pid err extra))) < 32700 ∧
  msg_meaning 0 (ack sq pid err extra) = TalkRc (Z.min err 0).
Proof.
  intros Hsq Hpid Herr Hex. unfold ours, msg_meaning, ack, nlmsg_ok.
  cbn [nm_type nm_flags nm_seq nm_pid nm_data]. rewrite !Z.eqb_refl. cbn [andb].
  rewrite (proj2 (Z.ltb_ge _ _)) by (rewrite length_app, length_le; unfold NLMSGERR_SIZE; lia).
  rewrite take_app_length' by (by rewrite length_le). rewrite unle_le, length_app, length_le.
  split_and!; try done; try apply Hsq; try apply Hpid; try lia. do 2 f_equal.
  unfold wraps. rewrite Zplus_mod_idemp_l. rewrite Z.mod_small; simpl; lia.
Qed.

(** A traffic-control request and its acknowledgement. *)
Lemma rtnl_talk_acked mem m room k' err extra blk (st : net K) :
  request mem m room → tc_msg_ok m → sock st = [] → in_u 32 (seq st) → in_u 32 (local_pid st) →
  - 2 ^ 31 <= err < 2 ^ 31 → 16 <= Z.of_nat (length extra) < 32000 → malloc MIN_BUF_LEN = Some blk →
  (∀ req, read_tc req = Some (with_ack m) → rd 4 8 req = Some (seq st) →
    handle (kernel st) req =
      (k', 0, [SockMsg (nlmsg_bytes (ack (seq st) (local_pid st) err extra)) 0 SOCKADDR_NL_SIZE])) →
  rtnl_talk handle malloc mem false st =
  Returns (mk_talked (Z.min err 0) None, mk_net k' [] (u32 (seq st + 1)) (local_pid st) (live st)).
Proof.
  intros Hr Hm Hsock Hseq Hpid Herr Hex Hblk Hk.
  destruct (talk_sends mem m room (seq st) Hr) as (n & Hp & Hlen & Htake); [apply Hm|].
  destruct (sent_reads_back (seq st) mem m room Hr Hm Hseq) as [H1 H2].
  destruct (ack_ok (seq st) (local_pid st) err extra) as (Ha & Ho & Hd & Hmean); try done.
  rewrite (rtnl_talk_one _ _ st _ _ k' (ack (seq st) (local_pid st) err extra) blk Hp Hlen); [by rewrite Hmean| |done..].
  rewrite Htake. by apply Hk.
Qed.

End TalkProofs.

(** ** Properties *)

(** C18. Whatever the kernel sends, [rtnl_talk] reads no byte outside of the
    block it received into, ends its search, returns 0 or an error, and
    leaves allocated only the block that it gives to the caller: then the
    caller asked for it, the result is 0 and the message lies in the block. *)
Theorem rtnl_talk_safe {K} handle malloc n want (st : net K) :
  kernel_ok handle → sock_ok (sock st) → (16 <= length n)%nat →
  match rtnl_talk handle malloc n want st with
  | Faults => False
  | Waits => True
  | Returns (t, st') =>
      tk_rc t <= 0 ∧ seq st' = u32 (seq st + 1) ∧ sock_ok (sock st') ∧
      match tk_answer t with
      | None => live st' = live st
      | Some (buf, p) => live st' = live st + 1 ∧ want = true ∧ tk_rc t = 0 ∧
          talk_end_ok buf (TalkAnswer p)
      end
  end.
Proof.
  intros Hk Hs Hn. unfold rtnl_talk. destruct (talk_prepare_ok want (seq st) n Hn) as (n' & len & -> & ->).
  cbn [kernel sock seq local_pid live]. set (req := take _ n'). destruct (Hk (kernel st) req) as [He Hevs].
  destruct (handle (kernel st) req) as [[k e] evs]. cbn [fst snd] in *.
  assert (sock_ok (sock st ++ evs)) as Hs' by (by apply Forall_app).
  destruct (Z.eqb_spec e 0) as [_|Hne]; cbn [negb]; [|split_and!; simpl; done || lia].
  pose proof (rtnl_recv_ok malloc (mk_net k (sock st ++ evs) (u32 (seq st + 1)) (local_pid st) (live st)) Hs') as Hr.
  destruct (rtnl_recv malloc _) as [[[[[rc buf] src] alen] st']| |]; [|done|done].
  destruct Hr as (H1 & H2 & H3 & H4 & H5 & H6). cbn [seq local_pid live] in *.
  destruct (Z.ltb_spec rc 0) as [Hrc|Hrc]; [cbn; split_and!; done || lia|].
  destruct (negb _); [cbn; unfold EINVAL; split_and!; done || lia|].
  destruct (talk_loop_total (S (Z.to_nat rc)) buf src (local_pid st') (seq st) 0 rc) as ([r|p] & -> & Hend);
    [lia|rewrite Z.add_0_l; auto|lia|lia|lia| |].
  - cbn. split_and!; [done|done|done|lia].
  - destruct want; cbn; split_and!; try done; try lia; apply Hend.
Qed.

(** C27. The loop over the messages of a datagram agrees with what the messages
    mean: messages for others or for other requests are skipped, provided that
    none of them has one of the flags NLM_F_REQUEST and NLM_F_MULTI set (the
    code tests the flags for NLMSG_DONE, which is 3, and then leaves the
    datagram, [multi_flag_hides_answer]); the first one that answers this
    request decides: an error message by its error number (too short:
    -EINVAL), any other by being the answer. *)
Theorem answer_found mem fuel skipped m rest pid this_seq :
  lies_at mem 0 (datagram (skipped ++ m :: rest)) → Forall nlmsg_ok (skipped ++ m :: rest) →
  Z.of_nat (length (datagram (skipped ++ m :: rest))) < 2 ^ 31 →
  (length (skipped ++ m :: rest) < fuel)%nat →
  Forall (λ m, ours pid this_seq m = false ∧ Z.land (nm_flags m) NLMSG_DONE = 0) skipped →
  ours pid this_seq m = true →
  talk_loop fuel mem 0 pid this_seq 0 (Z.of_nat (length (datagram (skipped ++ m :: rest)))) =
  Some (Some (msg_meaning (Z.of_nat (length (datagram skipped))) m)).
Proof.
  intros Hl Hok Hlen Hf Hskip Hm. rewrite talk_loop_ref by done. rewrite talk_ref_skips by done.
  cbn [talk_ref]. by rewrite Hm.
Qed.

(** A notification of another port, then our acknowledgement. *)
Lemma answer_found_witness :
  let old := mk_nlmsg RTM_NEWLINK 0 4 77 [1; 2; 3] in
  let ack := mk_nlmsg NLMSG_ERROR 0 5 77 (le 4 (-17) ++ replicate 16 0) in
  talk_loop 3 (datagram [old; ack]) 0 77 5 0 56 = Some (Some (TalkRc (-17))).
Proof.
  intros old ack.
  refine (answer_found (datagram [old; ack]) 3 [old] ack [] 77 5 _ _ _ _ _ _).
  - by apply (lies_at_here _ _ []); rewrite app_nil_r.
  - repeat constructor; vm_compute; congruence.
  - vm_compute. reflexivity.
  - vm_compute. lia.
  - repeat constructor.
  - reflexivity.
Defined.

(** C19. A request that was built for traffic control reaches the kernel as it
    was meant, with the flag that asks for an acknowledgement and a fresh
    sequence number; if the kernel acknowledges or refuses it, [rtnl_talk]
    returns just that result, with nothing left on the socket or allocated. *)
Theorem request_acked {K} handle malloc mem m room k' err extra blk (st : net K) :
  request mem m room → tc_msg_ok m → sock st = [] → in_u 32 (seq st) → in_u 32 (local_pid st) →
  - 2 ^ 31 <= err < 2 ^ 31 → 16 <= Z.of_nat (length extra) < 32000 → malloc MIN_BUF_LEN = Some blk →
  (∀ req, read_tc req = Some (with_ack m) → rd 4 8 req = Some (seq st) →
    handle (kernel st) req =
      (k', 0, [SockMsg (nlmsg_bytes (ack (seq st) (local_pid st) err extra)) 0 SOCKADDR_NL_SIZE])) →
  rtnl_talk handle malloc mem false st =
  Returns (mk_talked (Z.min err 0) None, mk_net k' [] (u32 (seq st + 1)) (local_pid st) (live st)).
Proof. apply rtnl_talk_acked. Qed.

(** A kernel that accepts everything and counts the requests. *)
Definition accepting_kernel (pid : Z) (k : Z) (req : list Z) : Z * Z * list sock_ev :=
  (k + 1, 0, [SockMsg (nlmsg_bytes (ack (default 0 (rd 4 8 req)) pid 0 (replicate 16 0))) 0 SOCKADDR_NL_SIZE]).

Definition some_malloc (n : Z) : option (list Z) := Some (replicate (Z.to_nat n) 0).

Lemma request_acked_witness :
  rtnl_talk (accepting_kernel 9) some_malloc (del_qdisc_req 2 TC_H_CLSACT 4294901760) false
    (mk_net 0 [] 100 9 0) = Returns (mk_talked 0 None, mk_net 1 [] 101 9 0).
Proof.
  refine (request_acked (accepting_kernel 9) some_malloc (del_qdisc_req 2 TC_H_CLSACT 4294901760)
    (mk_tc RTM_DELQDISC NLM_F_REQUEST 2 4294901760 TC_H_CLSACT 0 []) TCA_BUF_MAX 1 0 (replicate 16 0) _
    (mk_net 0 [] 100 9 0) (tc_req_request _ _ _ _ _ _) _ eq_refl _ _ _ _ eq_refl _).
  - repeat constructor; vm_compute; congruence.
  - vm_compute; split; congruence.
  - vm_compute; split; congruence.
  - vm_compute; split; congruence.
  - simpl. lia.
  - intros req _ Hrd. unfold accepting_kernel. rewrite Hrd. reflexivity.
Defined.

Lemma rtnl_talk_safe_witness :
  match rtnl_talk (accepting_kernel 9) some_malloc (getlink_req 2) true (mk_net 0 [] 100 9 0) with
  | Faults => False
  | Waits => True
  | Returns (t, st') => tk_rc t <= 0
  end.
Proof.
  pose proof (rtnl_talk_safe (accepting_kernel 9) some_malloc (getlink_req 2) true (mk_net 0 [] 100 9 0)) as H.
  destruct (rtnl_talk _ _ _ _ _) as [[t st']| |].
  - apply H.
    + intros k req. split; [done|]. repeat constructor.
    + constructor.
    + vm_compute. lia.
  - exact I.
  - apply H.
    + intros k req. split; [done|]. repeat constructor.
    + constructor.
    + vm_compute. lia.
Defined.

(** ** What the code does not mean to do *)

(** The end of a multipart answer is a message of type NLMSG_DONE; the loop
    looks for that number among the flags, where it is NLM_F_REQUEST and
    NLM_F_MULTI: behind a part of a multipart answer to an earlier request the
    acknowledgement of this one is not found. *)
Lemma multi_flag_hides_answer :
  let part := mk_nlmsg RTM_NEWLINK NLM_F_MULTI 4 77 [1; 2; 3; 4] in
  let ours := ack 5 77 0 (replicate 16 0) in
  talk_loop 3 (datagram [part; ours]) 0 77 5 0 (Z.of_nat (length (datagram [part; ours]))) =
  Some (Some (TalkRc (- ENOMSG))).
Proof. reflexivity. Qed.

(** An acknowledgement where an answer is expected gives result 0 and no
    answer. *)
Lemma ack_leaves_answer_unset :
  rtnl_talk (accepting_kernel 9) some_malloc (getlink_req 2) true (mk_net 0 [] 100 9 0) =
  Returns (mk_talked 0 None, mk_net 1 [] 101 9 0).
Proof. vm_compute. reflexivity. Qed.

(** ** Opening and closing *)

(** [struct rtnl_handle]. *)
Record rtnl_handle : Type := mk_rth { rth_fd : Z; rth_seq : Z; rth_family : Z; rth_pid : Z }.

(** The results of the system calls of [rtnl_open]: a descriptor or a negative
    errno from socket, errno or 0 from the others, what getsockname writes,
    and the clock. *)
Record open_results : Type := mk_open {
  o_socket : Z; o_sndbuf : Z; o_rcvbuf : Z; o_bind : Z; o_getsockname : Z;
  o_addr_len : Z; o_family : Z; o_pid : Z; o_time : Z;
}.

(** Descriptors that are open, as the calls of [rtnl_open] and [rtnl_close]
    change them. *)
Definition rtnl_open (o : open_results) (fds : list Z) : Z * rtnl_handle * list Z :=
  let fd := o_socket o in
  let rth0 := mk_rth 0 0 0 0 in
  if fd <? 0 then (fd, rth0, fds)
  else
    let fds := fd :: fds in
    let fail_close_fd rc rth := (rc, rth, remove fd fds) in
    let rth := mk_rth fd 0 0 0 in
    if negb (o_sndbuf o =? 0) then fail_close_fd (- o_sndbuf o) rth
    else if negb (o_rcvbuf o =? 0) then fail_close_fd (- o_rcvbuf o) rth
    else
      let rth := mk_rth fd 0 AF_NETLINK 0 in
      if negb (o_bind o =? 0) then fail_close_fd (- o_bind o) rth
      else if negb (o_getsockname o =? 0) then fail_close_fd (- o_getsockname o) rth
      else
        let rth := mk_rth fd 0 (o_family o) (o_pid o) in
        if negb (o_addr_len o =? SOCKADDR_NL_SIZE) then fail_close_fd (- EINVAL) rth
        else if negb (o_family o =? AF_NETLINK) then fail_close_fd (- EINVAL) rth
        else (0, mk_rth fd (u32 (o_time o)) (o_family o) (o_pid o), fds).

(** [None] is the assertion that the handle is open. *)
Definition rtnl_close (rth : rtnl_handle) (fds : list Z) : option (Z * rtnl_handle * list Z) :=
  if rth_fd rth <? 0 then None
  else Some (0, mk_rth (-1) (rth_seq rth) (rth_family rth) (rth_pid rth), remove (rth_fd rth) fds).

(** errno is positive when a call fails, and the kernel gives out descriptors
    that are not open. *)
Definition open_ok (o : open_results) (fds : list Z) : Prop :=
  (o_socket o ∉ fds) ∧ 0 <= o_sndbuf o ∧ 0 <= o_rcvbuf o ∧ 0 <= o_bind o ∧ 0 <= o_getsockname o.

Lemma rtnl_open_ok o fds rc rth fds' :
  open_ok o fds → rtnl_open o fds = (rc, rth, fds') →
  (rc < 0 ∧ fds' = fds) ∨ (rc = 0 ∧ rth_fd rth = o_socket o ∧ 0 <= rth_fd rth ∧ fds' = o_socket o :: fds).
Proof.
  intros (Hfd & H1 & H2 & H3 & H4). unfold rtnl_open.
  rewrite remove_head by done. destruct (Z.ltb_spec (o_socket o) 0); [intros [= <- <- <-]; auto|].
  repeat match goal with
  | |- context [negb (?a =? ?b)] => destruct (Z.eqb_spec a b); cbn [negb];
      [|intros [= <- <- <-]; left; unfold EINVAL; split; [lia|done]]
  end.
  intros [= <- <- <-]. right. cbn. done.
Qed.

Lemma rtnl_close_opened rth fds :
  0 <= rth_fd rth → rth_fd rth ∉ fds →
  ∃ rth', rtnl_close rth (rth_fd rth :: fds) = Some (0, rth', fds) ∧ rth_fd rth' = -1.
Proof.
  intros H0 Hfd. unfold rtnl_close. rewrite (proj2 (Z.ltb_ge _ _)) by done.
  rewrite remove_head by done. eauto.
Qed.
