(* ===== verification/TcSetup.v ===== *)
(** * Setting up traffic control (src/tcbpf_util.c)

    [tc_setup_inferface] and what it calls, as programs over the questions to
    the kernel: requests over netlink are bytes built by [Netlink], their
    results arbitrary ([Rtnl] shows what [rtnl_talk] makes of the kernel's
    messages). *)

From S2P Require Import Prelude RateLimit Protocol Netlink Effects.

#[local] Open Scope Z_scope.

(** The requests are known by what the kernel reads in them. *)
#[local] Opaque replace_qdisc_req replace_bpf_filter_req tc_req.

(** ** Questions *)

Inductive tc_io : Type → Type :=
  | RtnlOpen : tc_io Z                                   (* rtnl_open *)
  | RtnlClose : tc_io unit                               (* rtnl_close *)
  | IfNametoindex (ifname : list Z) : tc_io (Z * Z)      (* the index, or 0 and errno *)
  | Talk (n : list Z) : tc_io Z                          (* rtnl_talk without an answer *)
  | TalkAnswer (n : list Z) : tc_io (Z * option (list Z * Z))  (* the block and the place in it *)
  | FreeAnswer : tc_io unit                              (* free of the answer *)
  | ProgramFd : tc_io Z.                                 (* bpf_program__fd *)

Abbreviation tc := (prog tc_io).

(** ** Requests *)

Definition get_iface_props (ifindex : Z) : tc (Z + iface_attr) :=
  '(rc, answer) ← ask (TalkAnswer (getlink_req ifindex));
  if rc <? 0 then mret (inl rc)
  else
    match answer with
    | None => Crash                      (* dereference of NULL *)
    | Some (mem, p) =>
        match iface_props_of_answer mem p with
        | None | Some None => Crash
        | Some (Some r) =>
            if negb (p =? 0) then Crash  (* free of a place inside of a block *)
            else ask FreeAnswer;; mret r
        end
    end.

(** [rtnl_talk] without an answer, as the four functions below end. *)
Definition talk_rc (req : list Z) : tc Z :=
  rc ← ask (Talk req); if rc <? 0 then mret rc else mret 0.

(** The same for a request under construction, which aborts if it does not
    fit in its struct. *)
Definition talk_built (req : option (list Z)) : tc Z :=
  match req with None => Crash | Some req => talk_rc req end.

Definition tc_replace_qdisc (ifindex parent handle : Z) (kind : qidsc_kind) : tc Z :=
  match qdisc_name kind with
  | None => mret (- EINVAL)
  | Some kind_name =>
      talk_built (replace_qdisc_req ifindex parent handle kind_name)
  end.

Definition tc_del_qdisc (ifindex parent handle : Z) : tc Z :=
  talk_rc (del_qdisc_req ifindex parent handle).

Definition tc_del_filter (ifindex parent prio : Z) : tc Z :=
  talk_rc (del_filter_req ifindex parent prio).

Definition tc_replace_bpf_filter (ifindex parent prio handle bpf_fd : Z) (name : list Z) : tc Z :=
  talk_built (replace_bpf_filter_req ifindex parent prio handle bpf_fd name).

(** ** One interface *)

(** The loop that attaches mq with handle 1:, then 2:. The result is the
    handle it stopped at and the last result. *)
Fixpoint attach_mq (tries : nat) (ifindex root_handle : Z) (rc : Z) : tc (Z * Z) :=
  match tries with
  | O => mret (root_handle, rc)
  | S tries =>
      rc ← tc_replace_qdisc ifindex TC_H_ROOT (TC_H_MAKE (Z.shiftl root_handle 16) 0) QDISC_KIND_MQ;
      if rc <? 0 then attach_mq tries ifindex (root_handle + 1) rc
      else mret (root_handle, rc)
  end.

(** The loop over the tx queues from [i] on. *)
Fixpoint replace_children (n : nat) (ifindex root_handle i : Z) : tc Z :=
  match n with
  | O => mret 0
  | S n =>
      rc ← tc_replace_qdisc ifindex (TC_H_MAKE (Z.shiftl root_handle 16) i)
             (TC_H_MAKE (Z.shiftl (i + root_handle) 16) 0) QDISC_KIND_FQ;
      if rc <? 0 then mret rc else replace_children n ifindex root_handle (i + 1)
  end.

(** The root: fq if there is one queue, otherwise mq with an fq for each. *)
Definition setup_queues (ifindex : Z) (props : iface_attr) : tc Z :=
  if num_tx_queues props =? 1 then
    if decide (qdisc_kind props = QDISC_KIND_FQ) then mret 0
    else tc_replace_qdisc ifindex TC_H_ROOT TC_H_UNSPEC QDISC_KIND_FQ
  else
    '(root_handle, rc) ← attach_mq 2 ifindex 1 0;
    if 2 <? root_handle then mret rc
    else replace_children (Z.to_nat (num_tx_queues props)) ifindex root_handle 1.

(** Replace, and if that fails delete first and try once more: the two loops
    with [nr_try], which end at the second failure. *)
Fixpoint replace_or_delete (tries : nat) (replace del : tc Z) : tc Z :=
  rc ← replace;
  if rc <? 0 then
    match tries with
    | O => mret rc
    | S tries =>
        rc ← del;
        if rc <? 0 then mret rc else replace_or_delete tries replace del
    end
  else mret 0.

Definition PRIO : Z := 49151.
Definition FILTER_HANDLE : Z := 1.

Definition clsact_handle : Z := TC_H_MAKE TC_H_CLSACT 0.
Definition egress_parent : Z := TC_H_MAKE TC_H_CLSACT TC_H_MIN_EGRESS.

(** clsact and the filter. *)
Definition setup_filter (ifindex : Z) : tc Z :=
  rc ← replace_or_delete 1
         (tc_replace_qdisc ifindex TC_H_CLSACT clsact_handle QDISC_KIND_CLSACT)
         (tc_del_qdisc ifindex TC_H_CLSACT clsact_handle);
  if rc <? 0 then mret rc
  else
    bpf_fd ← ask ProgramFd;
    if bpf_fd <? 0 then mret bpf_fd
    else
      replace_or_delete 1
        (tc_replace_bpf_filter ifindex egress_parent PRIO FILTER_HANDLE bpf_fd (bytes "cgroup_rate_limit"))
        (tc_del_filter ifindex egress_parent PRIO).

Definition tc_setup_one_inferface (ifname : list Z) : tc Z :=
  '(ifindex, errno) ← ask (IfNametoindex ifname);
  if ifindex =? 0 then mret (- errno)
  else
    props ← get_iface_props ifindex;
    match props with
    | inl rc => mret rc
    | inr props =>
        if num_tx_queues props =? 0 then mret (- EINVAL)
        else
          rc ← setup_queues ifindex props;
          if rc <? 0 then mret rc else setup_filter ifindex
    end.

(** ** All interfaces *)

Definition COMMA : Z := 44.

(** [strtok_r] with the one delimiter: skip delimiters, then the token up to
    the next delimiter or the end, and what follows that. *)
Fixpoint skip_delims (s : list Z) : list Z :=
  match s with
  | c :: s' => if c =? COMMA then skip_delims s' else s
  | [] => []
  end.

Fixpoint token_of (s : list Z) : list Z * list Z :=
  match s with
  | c :: s' => if c =? COMMA then ([], s') else let '(t, r) := token_of s' in (c :: t, r)
  | [] => ([], [])
  end.

Definition strtok_r (s : list Z) : option (list Z * list Z) :=
  match skip_delims s with
  | [] => None
  | s => Some (token_of s)
  end.

(** The loop over the tokens; a token and its delimiter take at least one
    byte. Out of fuel is a crash. *)
Fixpoint setup_tokens (fuel : nat) (s : list Z) : tc Z :=
  match fuel with
  | O => Crash
  | S fuel =>
      match strtok_r s with
      | None => mret 0
      | Some (token, rest) =>
          rc ← tc_setup_one_inferface token;
          if rc <? 0 then mret rc else setup_tokens fuel rest
      end
  end.

Definition tc_setup_inferface (ifnames : list Z) : tc Z :=
  match ifnames with
  | [] => mret (- EINVAL)
  | _ =>
      rc ← ask RtnlOpen;
      if rc <? 0 then mret rc
      else
        rc ← setup_tokens (S (length ifnames)) ifnames;
        ask RtnlClose;;
        mret rc
  end.

(** ** What the kernel may answer *)

(** [rtnl_talk] gives 0 or an error; an answer about an interface is one
    message at the start of the block, in the kernel's format, with each
    attribute once; an interface has a positive index. *)
Definition link_answer (mem : list Z) : Prop :=
  ∃ type flags sq pid ifinfo l,
    lies_at mem 0 (link_msg type flags sq pid ifinfo l) ∧
    (type = RTM_NEWLINK ∨ type = RTM_DELLINK) ∧ length ifinfo = 16%nat ∧ Forall link_attr_ok l ∧
    Z.of_nat (length (attrs_bytes l)) < 2 ^ 31 - 32 ∧
    (length (omap attr_queues l) <= 1)%nat ∧ (length (omap attr_kind l) <= 1)%nat.

Definition tc_ok (B : Type) (q : tc_io B) : B → Prop :=
  match q in tc_io T return T → Prop with
  | RtnlOpen => λ rc, rc <= 0
  | IfNametoindex _ => λ '(i, e), (i = 0 ∧ 0 < e) ∨ 0 < i < 2 ^ 31
  | Talk _ => λ rc, rc <= 0
  | TalkAnswer _ => λ '(rc, a),
      (rc < 0 ∧ a = None) ∨ rc = 0 ∧ ∃ mem, a = Some (mem, 0) ∧ link_answer mem
  | _ => λ _, True
  end.

(** ** What a trace shows *)

(** The requests the kernel accepted, as it reads them. *)
Definition accepted1 (e : ev tc_io) : option tc_msg :=
  match e with
  | Ev q b =>
      match q in tc_io T return T → option tc_msg with
      | Talk n => λ rc, if rc <? 0 then None else read_tc n
      | _ => λ _, None
      end b
  end.
Definition accepted (tr : list (ev tc_io)) : list tc_msg := omap accepted1 tr.

(** The interfaces that were looked up. *)
Definition looked_up1 (e : ev tc_io) : option (list Z) :=
  match e with
  | Ev q _ => match q with IfNametoindex n => Some n | _ => None end
  end.
Definition looked_up (tr : list (ev tc_io)) : list (list Z) := omap looked_up1 tr.

(** Netlink sockets opened minus closed. *)
Definition sockets1 (e : ev tc_io) : Z :=
  match e with
  | Ev q b =>
      match q in tc_io T return T → Z with
      | RtnlOpen => λ rc, if rc <? 0 then 0 else 1
      | RtnlClose => λ _, -1
      | _ => λ _, 0
      end b
  end.
Definition sockets (tr : list (ev tc_io)) : Z := foldr (λ e n, sockets1 e + n) 0 tr.

(** Blocks handed over by [rtnl_talk] minus blocks freed. *)
Definition blocks1 (e : ev tc_io) : Z :=
  match e with
  | Ev q b =>
      match q in tc_io T return T → Z with
      | TalkAnswer _ => λ '(_, a), if a is Some _ then 1 else 0
      | FreeAnswer => λ _, -1
      | _ => λ _, 0
      end b
  end.
Definition blocks (tr : list (ev tc_io)) : Z := foldr (λ e n, blocks1 e + n) 0 tr.

(** ** Lemmas *)

Definition qdisc_msg (ifindex parent handle : Z) (name : list Z) : tc_msg :=
  mk_tc RTM_NEWQDISC (NLM_F_REQUEST + NLM_F_CREATE + NLM_F_REPLACE) ifindex handle parent 0
    [(TCA_KIND, name ++ [0])].

Definition filter_msg (ifindex bpf_fd : Z) : tc_msg :=
  bpf_filter_msg ifindex egress_parent PRIO FILTER_HANDLE bpf_fd (bytes "cgroup_rate_limit").

(** A program that makes one request, with the message [m] in its struct, and
    returns its result. *)
Definition requests (p : tc Z) (m : tc_msg) : Prop :=
  ∃ req room, request req m room ∧ tc_msg_ok m ∧ p = talk_rc req.

Lemma qdisc_attr_ok kind name :
  qdisc_name kind = Some name → attr_ok (TCA_KIND, name ++ [0]).
Proof. intros H. split; [done|]. destruct kind; simplify_eq/=; done. Qed.

Ltac msg_ok :=
  unfold tc_msg_ok; cbn [tc_type tc_flags tc_ifindex tc_handle tc_parent tc_info tc_attrs qdisc_msg];
  split_and!; try assumption; try done.

Lemma tc_replace_qdisc_requests ifindex parent handle kind name :
  in_u 32 ifindex → in_u 32 parent → in_u 32 handle → qdisc_name kind = Some name →
  requests (tc_replace_qdisc ifindex parent handle kind) (qdisc_msg ifindex parent handle name).
Proof.
  intros Hi Hp Hh Hk. destruct (replace_qdisc_req_ok ifindex parent handle kind name Hk) as (req & room & He & Hr).
  exists req, room. unfold tc_replace_qdisc. rewrite Hk, He. split; [exact Hr|]. split; [clear He Hr|reflexivity].
  msg_ok. constructor; [by eapply qdisc_attr_ok|done].
Qed.

Lemma tc_del_qdisc_requests ifindex parent handle :
  in_u 32 ifindex → in_u 32 parent → in_u 32 handle →
  requests (tc_del_qdisc ifindex parent handle)
    (mk_tc RTM_DELQDISC NLM_F_REQUEST ifindex handle parent 0 []).
Proof.
  intros Hi Hp Hh. eexists _, _. split; [apply tc_req_request|]. split; [|reflexivity]. by msg_ok.
Qed.

Lemma tc_del_filter_requests ifindex parent prio :
  in_u 32 ifindex → in_u 32 parent →
  requests (tc_del_filter ifindex parent prio)
    (mk_tc RTM_DELTFILTER NLM_F_REQUEST ifindex 0 parent (TC_H_MAKE (Z.shiftl prio 16) 0) []).
Proof.
  intros Hi Hp. pose proof (TC_H_MAKE_range (Z.shiftl prio 16) 0) as Hinfo.
  eexists _, _. split; [apply tc_req_request|]. split; [|reflexivity]. by msg_ok.
Qed.

Lemma tc_replace_bpf_filter_requests ifindex bpf_fd :
  in_u 32 ifindex →
  requests (tc_replace_bpf_filter ifindex egress_parent PRIO FILTER_HANDLE bpf_fd (bytes "cgroup_rate_limit"))
    (filter_msg ifindex bpf_fd).
Proof.
  intros Hi. destruct (replace_bpf_filter_req_ok ifindex egress_parent PRIO FILTER_HANDLE bpf_fd
    (bytes "cgroup_rate_limit")) as (req & room & He & Hr); [done|].
  exists req, room. unfold tc_replace_bpf_filter. rewrite He. split; [exact Hr|].
  split; [clear He Hr|reflexivity]. msg_ok; try (vm_compute; split; congruence).
  repeat constructor; vm_compute; congruence.
Qed.

(** ** What requests do to a trace *)

Definition is_talk (e : ev tc_io) : Prop :=
  match e with Ev q _ => match q with Talk _ => True | _ => False end end.

(** The trace grew by requests, of which the kernel accepted [ms]. *)
Definition grew (tr tr' : list (ev tc_io)) (ms : list tc_msg) : Prop :=
  ∃ l, tr' = tr ++ l ∧ Forall is_talk l ∧ accepted l = ms.

Lemma grew_refl tr : grew tr tr [].
Proof. exists []. by rewrite app_nil_r. Qed.

Lemma grew_trans tr1 tr2 tr3 ms1 ms2 : grew tr1 tr2 ms1 → grew tr2 tr3 ms2 → grew tr1 tr3 (ms1 ++ ms2).
Proof.
  intros (l1 & -> & H1 & <-) (l2 & -> & H2 & <-). exists (l1 ++ l2).
  rewrite (assoc_L (++)). split; [done|]. split; [by apply Forall_app|]. apply omap_app.
Qed.

Lemma grew_snoc tr1 tr2 tr3 ms m : grew tr1 tr2 ms → grew tr2 tr3 [m] → grew tr1 tr3 (ms ++ [m]).
Proof. apply grew_trans. Qed.

#[local] Hint Resolve grew_refl : traffic.

Lemma wp_requests p m Q tr :
  requests p m →
  (∀ tr' rc, rc < 0 → grew tr tr' [] → Q tr' rc) → (∀ tr', grew tr tr' [m] → Q tr' 0) →
  wp tc_ok p Q tr.
Proof.
  intros (req & room & Hr & Hm & ->) Hf Hs. pose proof (request_read _ _ _ Hr Hm) as Hreq.
  clear Hr. cbn. intros rc Hrc.
  destruct (Z.ltb_spec rc 0) as [Hneg|Hpos]; cbn.
  - apply Hf; [done|]. eexists. split; [done|]. split; [by repeat constructor|].
    unfold accepted. cbn. by rewrite (proj2 (Z.ltb_lt _ _)).
  - apply Hs. eexists. split; [done|]. split; [by repeat constructor|].
    unfold accepted. cbn. by rewrite (proj2 (Z.ltb_ge _ _)), Hreq.
Qed.

(** Replacing with one retry: at most one deletion, then the replacement is
    the last request accepted. *)
Lemma wp_replace_or_delete replace del m d Q tr :
  requests replace m → requests del d →
  (∀ tr' rc ms, rc < 0 → grew tr tr' ms → Q tr' rc) →
  (∀ tr' ms, grew tr tr' (ms ++ [m]) → Q tr' 0) →
  wp tc_ok (replace_or_delete 1 replace del) Q tr.
Proof.
  intros Hm Hd Hf Hs. cbn [replace_or_delete]. apply wp_bind.
  eapply wp_requests; [exact Hm| |].
  - intros tr1 rc Hrc H1. rewrite (proj2 (Z.ltb_lt _ _)) by done. apply wp_bind.
    eapply wp_requests; [exact Hd| |].
    + intros tr2 rc2 Hrc2 H2. rewrite (proj2 (Z.ltb_lt _ _)) by done. cbn.
      eapply Hf; [done|]. by eapply grew_trans.
    + intros tr2 H2. cbn [Z.ltb Z.compare]. apply wp_bind.
      eapply wp_requests; [exact Hm| |].
      * intros tr3 rc3 Hrc3 H3. rewrite (proj2 (Z.ltb_lt _ _)) by done. cbn.
        eapply Hf; [done|]. eapply grew_trans; [by eapply grew_trans|done].
      * intros tr3 H3. cbn. apply (Hs _ ([] ++ [d])). eapply grew_trans; [by eapply grew_trans|done].
  - intros tr1 H1. cbn. by apply (Hs _ []).
Qed.

(** ** The queues *)

Definition mq_msg (ifindex h : Z) : tc_msg :=
  qdisc_msg ifindex TC_H_ROOT (TC_H_MAKE (Z.shiftl h 16) 0) (bytes "mq").

Definition child_msg (ifindex h i : Z) : tc_msg :=
  qdisc_msg ifindex (TC_H_MAKE (Z.shiftl h 16) i) (TC_H_MAKE (Z.shiftl (i + h) 16) 0) (bytes "fq").

Definition root_fq_msg (ifindex : Z) : tc_msg :=
  qdisc_msg ifindex TC_H_ROOT TC_H_UNSPEC (bytes "fq").

Definition clsact_msg (ifindex : Z) : tc_msg :=
  qdisc_msg ifindex TC_H_CLSACT clsact_handle (bytes "clsact").

(** Every queue of the interface sends through fq, given what was found and
    what was accepted. *)
Definition fq_everywhere (ifindex : Z) (props : iface_attr) (ms : list tc_msg) : Prop :=
  if num_tx_queues props =? 1 then qdisc_kind props = QDISC_KIND_FQ ∨ root_fq_msg ifindex ∈ ms
  else ∃ h, (h = 1 ∨ h = 2) ∧ mq_msg ifindex h ∈ ms ∧
    ∀ i, 1 <= i <= num_tx_queues props → child_msg ifindex h i ∈ ms.

Lemma wp_attach_mq tries ifindex h rc0 Q tr :
  in_u 32 ifindex →
  (∀ tr' rc, grew tr tr' [] → rc < 0 ∨ tries = O ∧ rc = rc0 → Q tr' (h + Z.of_nat tries, rc)) →
  (∀ tr' h', h <= h' < h + Z.of_nat tries → grew tr tr' [mq_msg ifindex h'] → Q tr' (h', 0)) →
  wp tc_ok (attach_mq tries ifindex h rc0) Q tr.
Proof.
  intros Hi. revert h rc0 tr. induction tries as [|tries IH]; intros h rc0 tr Hf Hs; cbn [attach_mq].
  - cbn. replace h with (h + Z.of_nat 0) at 1 by lia. apply Hf; auto with traffic.
  - apply wp_bind. eapply wp_requests; [by apply tc_replace_qdisc_requests; [|done|apply TC_H_MAKE_range|]| |].
    + intros tr1 rc Hrc H1. rewrite (proj2 (Z.ltb_lt _ _)) by done. apply IH.
      * intros tr2 rc2 H2 Hrc2. replace (h + 1 + Z.of_nat tries) with (h + Z.of_nat (S tries)) by lia.
        apply Hf; [by apply (grew_trans _ _ _ [] [] H1 H2)|]. left. lia.
      * intros tr2 h' Hh' H2. apply Hs; [lia|]. by apply (grew_trans _ _ _ [] _ H1 H2).
    + intros tr1 H1. cbn. apply Hs; [lia|done].
Qed.

Lemma wp_replace_children n ifindex h i Q tr :
  in_u 32 ifindex →
  (∀ tr' rc ms, rc < 0 → grew tr tr' ms → Q tr' rc) →
  (∀ tr' ms, grew tr tr' ms → (∀ j, i <= j < i + Z.of_nat n → child_msg ifindex h j ∈ ms) → Q tr' 0) →
  wp tc_ok (replace_children n ifindex h i) Q tr.
Proof.
  intros Hi. revert i tr. induction n as [|n IH]; intros i tr Hf Hs; cbn [replace_children].
  - cbn. eapply Hs; [apply grew_refl|]. intros j Hj. lia.
  - apply wp_bind. eapply wp_requests; [by apply tc_replace_qdisc_requests; [|apply TC_H_MAKE_range..|]| |].
    + intros tr1 rc Hrc H1. rewrite (proj2 (Z.ltb_lt _ _)) by done. cbn. by eapply Hf.
    + intros tr1 H1. cbn [Z.ltb Z.compare]. apply IH.
      * intros tr2 rc ms Hrc H2. eapply Hf; [done|]. by eapply grew_trans.
      * intros tr2 ms H2 Hms. eapply Hs; [by eapply grew_trans|]. intros j Hj.
        apply elem_of_app. destruct (decide (j = i)) as [->|]; [left; by apply list_elem_of_singleton|].
        right. apply Hms. lia.
Qed.

Lemma wp_setup_queues ifindex props Q tr :
  in_u 32 ifindex →
  (∀ tr' rc ms, rc < 0 → grew tr tr' ms → Q tr' rc) →
  (∀ tr' ms, grew tr tr' ms → fq_everywhere ifindex props ms → Q tr' 0) →
  wp tc_ok (setup_queues ifindex props) Q tr.
Proof.
  intros Hi Hf Hs. unfold setup_queues, fq_everywhere in *. destruct (_ =? 1).
  - case_decide; [cbn; eapply Hs; [apply grew_refl|auto]|].
    eapply wp_requests; [by apply tc_replace_qdisc_requests| |].
    + intros tr1 rc Hrc H1. by eapply Hf.
    + intros tr1 H1. eapply Hs; [done|]. right. by apply list_elem_of_singleton.
  - apply wp_bind. apply wp_attach_mq; [done| |].
    + intros tr1 rc H1 [Hrc|[]]; [|done]. cbn. by eapply Hf.
    + intros tr1 h Hh H1. assert ((2 <? h) = false) as -> by (apply Z.ltb_ge; lia).
      apply wp_replace_children; [done| |].
      * intros tr2 rc ms Hrc H2. eapply Hf; [done|]. by eapply grew_trans.
      * intros tr2 ms H2 Hms. eapply Hs; [by eapply grew_trans|]. exists h. split; [lia|].
        split; [by apply elem_of_app; left; apply list_elem_of_singleton|].
        intros i Hr. apply elem_of_app. right. apply Hms. lia.
Qed.

(** ** One interface *)

(** The trace of an interface that was set up: it was looked up, its
    properties were read, the program's descriptor was taken; every queue has
    fq, clsact is there, and the filter with the program came last. *)
Definition one_setup (ifname : list Z) (l : list (ev tc_io)) : Prop :=
  ∃ ifindex e mem props fd,
    Ev (IfNametoindex ifname) (ifindex, e) ∈ l ∧
    Ev (TalkAnswer (getlink_req ifindex)) (0, Some (mem, 0)) ∈ l ∧
    iface_props_of_answer mem 0 = Some (Some (inr props)) ∧ num_tx_queues props ≠ 0 ∧
    Ev ProgramFd fd ∈ l ∧ 0 <= fd ∧
    fq_everywhere ifindex props (accepted l) ∧ clsact_msg ifindex ∈ accepted l ∧
    last (accepted l) = Some (filter_msg ifindex fd).

Lemma accepted_app l1 l2 : accepted (l1 ++ l2) = accepted l1 ++ accepted l2.
Proof. apply omap_app. Qed.
Lemma looked_up_app l1 l2 : looked_up (l1 ++ l2) = looked_up l1 ++ looked_up l2.
Proof. apply omap_app. Qed.
Lemma sockets_app l1 l2 : sockets (l1 ++ l2) = sockets l1 + sockets l2.
Proof. unfold sockets. induction l1 as [|e l1 IH]; cbn; [done|]. rewrite IH. lia. Qed.
Lemma blocks_app l1 l2 : blocks (l1 ++ l2) = blocks l1 + blocks l2.
Proof. unfold blocks. induction l1 as [|e l1 IH]; cbn; [done|]. rewrite IH. lia. Qed.

(** Nothing looked up, no socket and no block held. *)
Definition neutral (l : list (ev tc_io)) : Prop := looked_up l = [] ∧ sockets l = 0 ∧ blocks l = 0.

Lemma talks_neutral l : Forall is_talk l → neutral l.
Proof.
  induction 1 as [|[B q b] l Hq _ (H1 & H2 & H3)]; [done|]. by destruct q.
Qed.

Lemma fq_everywhere_mono ifindex props ms ms' :
  ms ⊆ ms' → fq_everywhere ifindex props ms → fq_everywhere ifindex props ms'.
Proof.
  intros Hms. unfold fq_everywhere. destruct (_ =? 1); [intros [|]; auto|].
  intros (h & Hh & Hm & Hc). exists h. auto.
Qed.

(** clsact and the filter. *)
Lemma wp_setup_filter ifindex Q tr :
  in_u 32 ifindex →
  (∀ l rc, neutral l → rc < 0 → Q (tr ++ l) rc) →
  (∀ l fd, neutral l → 0 <= fd → Ev ProgramFd fd ∈ l → clsact_msg ifindex ∈ accepted l →
    last (accepted l) = Some (filter_msg ifindex fd) → Q (tr ++ l) 0) →
  wp tc_ok (setup_filter ifindex) Q tr.
Proof.
  intros Hi Hf Hs. unfold setup_filter. apply wp_bind.
  eapply wp_replace_or_delete;
    [by apply tc_replace_qdisc_requests; [|done|apply TC_H_MAKE_range|]|
     by apply tc_del_qdisc_requests; [|done|apply TC_H_MAKE_range]| |].
  - intros tr1 rc ms Hrc (l1 & -> & Ht & _). rewrite (proj2 (Z.ltb_lt _ _)) by done. cbn.
    apply Hf; [by apply talks_neutral|done].
  - intros tr1 ms (l1 & -> & Ht1%talks_neutral & Ha1). cbn [Z.ltb Z.compare]. cbn [wp mbind prog_bind ask pbind].
    intros fd _. destruct (Z.ltb_spec fd 0) as [Hfd|Hfd].
    + cbn. rewrite <-(assoc_L (++)). apply Hf; [|done]. destruct Ht1 as (H1 & H2 & H3).
      split_and!; [by rewrite looked_up_app, H1|by rewrite sockets_app, H2|by rewrite blocks_app, H3].
    + eapply wp_replace_or_delete;
        [by apply tc_replace_bpf_filter_requests|by apply tc_del_filter_requests; [|apply TC_H_MAKE_range]| |].
      all: [> intros tr2 rc ms2 Hrc (l2 & -> & Ht2%talks_neutral & Ha2)
            | intros tr2 ms2 (l2 & -> & Ht2%talks_neutral & Ha2)];
        rewrite <-!(assoc_L (++)); destruct Ht1 as (H1 & H2 & H3), Ht2 as (H4 & H5 & H6);
        assert (neutral (l1 ++ [Ev ProgramFd fd] ++ l2)) as Hn
          by (split_and!; [by rewrite !looked_up_app, H1, H4|by rewrite !sockets_app, H2, H5|
              by rewrite !blocks_app, H3, H6]).
      * by apply Hf.
      * apply (Hs _ fd); [done|done|set_solver|..]; rewrite !accepted_app, Ha1, Ha2.
        -- set_solver.
        -- rewrite !(assoc_L (++)). by rewrite last_snoc.
Qed.

Lemma wp_setup_one ifname Q tr :
  (∀ l rc, rc <= 0 → looked_up l = [ifname] → sockets l = 0 → blocks l = 0 →
    (rc = 0 → one_setup ifname l) → Q (tr ++ l) rc) →
  wp tc_ok (tc_setup_one_inferface ifname) Q tr.
Proof.
  intros HQ. unfold tc_setup_one_inferface. cbn [wp mbind prog_bind ask pbind].
  intros [ifindex e] Hidx. destruct (Z.eqb_spec ifindex 0) as [->|Hne].
  { destruct Hidx as [[_ He]|]; [|lia]. cbn. apply HQ; try done; lia. }
  destruct Hidx as [[]|Hidx]; [done|]. assert (in_u 32 ifindex) as Hi by (unfold in_u; simpl; lia).
  unfold get_iface_props. cbn [wp mbind prog_bind ask pbind].
  intros [rc a] [[Hrc ->]|(-> & mem & -> & Hans)].
  { rewrite (proj2 (Z.ltb_lt _ _)) by done. cbn. rewrite <-(assoc_L (++)). apply HQ; try done; lia. }
  cbn [Z.ltb Z.compare].
  destruct Hans as (type & flags & sq & pid & ifinfo & al & Hl & Ht & Hif & Hok & Hlen & H1 & H2).
  pose proof (iface_props_ok mem 0 type flags sq pid ifinfo al Hl Ht Hif Hok Hlen H1 H2) as Hp.
  destruct (match head (omap attr_queues al) with Some _ => _ | None => _ end) as [err|props] eqn:Er;
    rewrite Hp; cbn [Z.eqb negb wp mbind prog_bind ask pbind]; intros [] _; cbn [pbind mret prog_ret]; rewrite <-!(assoc_L (++)).
  { assert (err = - EINVAL) as -> by (repeat case_match; congruence). cbn. apply HQ; done. }
  set (l0 := [_] ++ [_] ++ [_]). destruct (Z.eqb_spec (num_tx_queues props) 0) as [Hn|Hn].
  { cbn. apply HQ; done. }
  apply wp_bind. eapply wp_setup_queues; [done| |].
  - intros tr1 rc ms Hrc (l1 & -> & (N1 & N2 & N3)%talks_neutral & _).
    rewrite (proj2 (Z.ltb_lt _ _)) by done. cbn. rewrite <-(assoc_L (++)).
    apply HQ; [lia|by rewrite looked_up_app, N1|by rewrite sockets_app, N2|by rewrite blocks_app, N3|lia].
  - intros tr1 ms (l1 & -> & (N1 & N2 & N3)%talks_neutral & Ha1) Hfq. cbn [Z.ltb Z.compare].
    apply wp_setup_filter; [done| |].
    + intros l2 rc (N4 & N5 & N6) Hrc. rewrite <-!(assoc_L (++)).
      apply HQ; [lia|by rewrite !looked_up_app, N1, N4|by rewrite !sockets_app, N2, N5|
        by rewrite !blocks_app, N3, N6|lia].
    + intros l2 fd (N4 & N5 & N6) Hfd Hin Hcl Hlast. rewrite <-!(assoc_L (++)).
      apply HQ; [done|by rewrite !looked_up_app, N1, N4|by rewrite !sockets_app, N2, N5|
        by rewrite !blocks_app, N3, N6|]. intros _.
      exists ifindex, e, mem, props, fd. subst l0. rewrite !accepted_app, Ha1.
      split_and!; [set_solver|set_solver|done|done|set_solver|done| | |].
      * eapply fq_everywhere_mono; [|exact Hfq]. set_solver.
      * set_solver.
      * by rewrite !last_app, Hlast.
Qed.

(** ** Tokens *)

(** The parts between commas. *)
Fixpoint split_commas (s : list Z) : list (list Z) :=
  match s with
  | [] => [[]]
  | c :: s =>
      if c =? COMMA then [] :: split_commas s
      else match split_commas s with p :: ps => (c :: p) :: ps | [] => [[c]] end
  end.

(** The names in a list: the parts that are not empty. *)
Definition names (s : list Z) : list (list Z) := filter (λ p, p ≠ []) (split_commas s).

Lemma names_skip s : names (skip_delims s) = names s.
Proof.
  induction s as [|c s IH]; [done|]. cbn [skip_delims]. destruct (c =? COMMA) eqn:E; [|done].
  unfold names in *. cbn [split_commas]. rewrite E, filter_cons_False by (by intros []). done.
Qed.

Lemma token_split s t r : token_of s = (t, r) →
  split_commas s = t :: split_commas r ∨ split_commas s = [t] ∧ r = [].
Proof.
  revert t r. induction s as [|c s IH]; intros t r; cbn [token_of split_commas]; [intros [= <- <-]; auto|].
  destruct (c =? COMMA); [intros [= <- <-]; auto|].
  destruct (token_of s) as [t' r']. intros [= <- <-].
  destruct (IH t' r' eq_refl) as [->|[-> ->]]; auto.
Qed.

Lemma token_shorter s t r : token_of s = (t, r) → (length r <= length s)%nat.
Proof.
  revert t r. induction s as [|c s IH]; intros t r; cbn [token_of]; [intros [= <- <-]; auto|].
  destruct (c =? COMMA); [intros [= <- <-]; simpl; lia|].
  destruct (token_of s) as [t' r'] eqn:E. intros [= <- <-]. specialize (IH t' r' eq_refl). simpl. lia.
Qed.

Lemma skip_head s c s' : skip_delims s = c :: s' → (c =? COMMA) = false ∧ (length s' < length s)%nat.
Proof.
  induction s as [|d s IH]; cbn [skip_delims]; [done|]. destruct (d =? COMMA) eqn:E.
  - intros H. destruct (IH H) as [? ?]. split; [done|]. simpl. lia.
  - intros [= -> ->]. split; [done|]. simpl. lia.
Qed.

(** [strtok_r] gives the first name and a rest that has the others. *)
Lemma strtok_names s :
  match strtok_r s with
  | None => names s = []
  | Some (t, r) => names s = t :: names r ∧ (length r < length s)%nat
  end.
Proof.
  unfold strtok_r. rewrite <-names_skip. destruct (skip_delims s) as [|c s'] eqn:E; [done|].
  destruct (skip_head _ _ _ E) as [Hc Hlen]. cbn [token_of]. rewrite Hc.
  destruct (token_of s') as [t r] eqn:Et. pose proof (token_shorter _ _ _ Et). split; [|lia].
  unfold names. cbn [split_commas]. rewrite Hc.
  destruct (token_split _ _ _ Et) as [->|[-> ->]]; by rewrite filter_cons_True.
Qed.

(** ** All interfaces *)

(** How a run over a list of names ended: all of them set up, in order, or
    the ones before the first that failed, and nothing after it. *)
Definition set_up_in_order (ns : list (list Z)) (rc : Z) (l : list (ev tc_io)) : Prop :=
  (rc = 0 ∧ ∃ ls, l = concat ls ∧ Forall2 one_setup ns ls) ∨
  (rc < 0 ∧ ∃ pre n rest ls lf, ns = pre ++ n :: rest ∧ l = concat ls ++ lf ∧
    Forall2 one_setup pre ls ∧ looked_up lf = [n]).

Lemma set_up_cons n ns rc l1 l :
  one_setup n l1 → set_up_in_order ns rc l → set_up_in_order (n :: ns) rc (l1 ++ l).
Proof.
  intros Hn [[-> (ls & -> & Hls)]|[Hrc (pre & m & rest & ls & lf & -> & -> & Hls & Hlf)]].
  - left. split; [done|]. exists (l1 :: ls). split; [done|]. by constructor.
  - right. split; [done|]. exists (n :: pre), m, rest, (l1 :: ls), lf. split_and!; [done| |by constructor|done].
    cbn. by rewrite (assoc_L (++)).
Qed.

Lemma wp_setup_tokens fuel s Q tr :
  (length s < fuel)%nat →
  (∀ l rc, rc <= 0 → sockets l = 0 → blocks l = 0 → set_up_in_order (names s) rc l → Q (tr ++ l) rc) →
  wp tc_ok (setup_tokens fuel s) Q tr.
Proof.
  revert s tr. induction fuel as [|fuel IH]; intros s tr Hf HQ; [lia|]. cbn [setup_tokens].
  pose proof (strtok_names s) as Hs. destruct (strtok_r s) as [[t r]|].
  - destruct Hs as [Hs Hlen]. apply wp_bind, wp_setup_one.
    intros l rc Hrc Hlk Hso Hbl Hone. destruct (Z.ltb_spec rc 0) as [Hneg|Hpos].
    + cbn. apply HQ; try done. right. split; [done|]. exists [], t, (names r), [], l. by rewrite Hs.
    + assert (rc = 0) as -> by lia. apply IH; [lia|].
      intros l2 rc2 Hrc2 Hso2 Hbl2 Hset. rewrite <-(assoc_L (++)).
      apply HQ; [done|rewrite sockets_app; lia|rewrite blocks_app; lia|].
      rewrite Hs. apply set_up_cons; auto.
  - cbn. rewrite <-(app_nil_r tr). apply HQ; try done. left. split; [done|]. exists []. by rewrite Hs.
Qed.

(** How setting up a list of interfaces can go: refused before anything was
    sent, or the interfaces in order between opening and closing the
    socket. *)
Definition setup_outcome (ifnames : list Z) (tr : list (ev tc_io)) (rc : Z) : Prop :=
  (rc < 0 ∧ (tr = [] ∧ ifnames = [] ∨ tr = [Ev RtnlOpen rc])) ∨
  (∃ l, tr = [Ev RtnlOpen 0] ++ l ++ [Ev RtnlClose ()] ∧ set_up_in_order (names ifnames) rc l ∧
    sockets l = 0 ∧ blocks l = 0).

Lemma wp_setup ifnames : wp tc_ok (tc_setup_inferface ifnames) (setup_outcome ifnames) [].
Proof.
  unfold tc_setup_inferface.
  destruct ifnames as [|c s]; [cbn; left; split; [done|auto]|].
  cbn [wp mbind prog_bind ask pbind app]. intros rc Hrc. cbn in Hrc.
  destruct (Z.ltb_spec rc 0) as [Hneg|Hpos]; [left; auto|].
  assert (rc = 0) as -> by lia. apply wp_bind, wp_setup_tokens; [lia|].
  intros l rc Hrc2 Hso Hbl Hset. cbn [wp mbind prog_bind ask pbind]. intros [] _. cbn [wp mret prog_ret].
  right. exists l. by rewrite <-(assoc_L (++)).
Qed.

(** ** Properties *)

(** C12. Setting up the interfaces of a list, when [rtnl_talk] and
    [if_nametoindex] answer as [tc_ok] says, never crashes: no request
    overflows its struct, no answer is misread, no invalid pointer is freed,
    and the loop over the names ends. [tc_ok] asks that a result is 0 or an
    error, that with result 0 the answer to a question about an interface is
    there, is one message at the start of its block in the kernel's format
    with each attribute once, and that an interface has a positive index. It
    leaves out a result of 0 without an answer, after which
    [get_iface_props] dereferences NULL, and an answer behind another message
    of its datagram, whose block is freed by the wrong pointer. If
    the result is 0, every name in the list was set up, in order: fq on every
    queue, clsact, and the filter with the program. Otherwise the run ended at
    the first interface that failed, the ones before it set up. The netlink
    socket that was opened is closed and every answer freed. *)
Theorem setup_in_order ifnames tr r :
  runs tc_ok (tc_setup_inferface ifnames) tr r → ∃ rc, r = Some rc ∧ setup_outcome ifnames tr rc.
Proof. intros Hr. exact (wp_sound tc_ok _ _ [] tr r (wp_setup ifnames) Hr). Qed.

(** The kernel of the example: two queues, mq at 1: refused, the first filter
    request refused. *)
Definition two_queues : list Z :=
  link_msg RTM_NEWLINK 0 7 9 (replicate 16 0)
    [(3, bytes "eth0" ++ [0]); (IFLA_QDISC, bytes "mq" ++ [0]); (IFLA_NUM_TX_QUEUES, le 4 2)].

Definition example_env (n : nat) (B : Type) (q : tc_io B) : B :=
  match q with
  | RtnlOpen => 0
  | RtnlClose => tt
  | IfNametoindex _ => (2, 0)
  | Talk _ => if decide (n = 4%nat ∨ n = 10%nat) then -17 else 0
  | TalkAnswer _ => (0, Some (two_queues, 0))
  | FreeAnswer => tt
  | ProgramFd => 7
  end.

Lemma two_queues_answer : link_answer two_queues.
Proof.
  exists RTM_NEWLINK, 0, 7, 9, (replicate 16 0),
    [(3, bytes "eth0" ++ [0]); (IFLA_QDISC, bytes "mq" ++ [0]); (IFLA_NUM_TX_QUEUES, le 4 2)].
  split_and!; [by apply (lies_at_here _ _ []); rewrite app_nil_r|by left|done| |done|vm_compute; lia..].
  repeat constructor; try done. intros _. exists (bytes "mq"). split; [done|].
  intros H%list_elem_of_In. vm_compute in H. intuition congruence.
Qed.

Lemma example_env_ok n B (q : tc_io B) : tc_ok B q (example_env n B q).
Proof.
  destruct q; cbn; try done; try lia.
  - case_decide; lia.
  - right. split; [done|]. exists two_queues. split; [done|apply two_queues_answer].
Qed.

Lemma setup_in_order_witness :
  ∃ rc, (exec example_env 0 (tc_setup_inferface (bytes ",eth0,"))).2 = Some rc ∧
    setup_outcome (bytes ",eth0,") (exec example_env 0 (tc_setup_inferface (bytes ",eth0,"))).1 rc.
Proof.
  apply (setup_in_order (bytes ",eth0,")). eapply exec_runs; [apply example_env_ok|apply surjective_pairing].
Defined.

(** The example succeeds, with thirteen questions. *)
Example example_setup :
  (length (exec example_env 0 (tc_setup_inferface (bytes ",eth0,"))).1,
   (exec example_env 0 (tc_setup_inferface (bytes ",eth0,"))).2) = (14%nat, Some 0).
Proof. vm_compute. reflexivity. Qed.

(** A list of commas only is not empty, names nothing, and succeeds without
    setting up any interface. *)
Lemma only_commas_succeed :
  exec example_env 0 (tc_setup_inferface (bytes ",,")) = ([Ev RtnlOpen 0; Ev RtnlClose ()], Some 0).
Proof. reflexivity. Qed.

(** The handles of the qdiscs of a multi-queue interface. *)
Lemma TC_H_MAKE_major x : 0 <= x < 65536 → TC_H_MAKE (Z.shiftl x 16) 0 = x * 65536.
Proof.
  intros Hx. unfold TC_H_MAKE. rewrite Z.lor_0_r, Z.shiftl_mul_pow2 by lia. change (2 ^ 16) with 65536.
  rewrite wrap_u32_small by lia.
  change 4294901760 with (Z.ldiff (Z.ones 32) (Z.ones 16)).
  rewrite Z.ldiff_land, Z.land_assoc, Z.land_ones, Z.mod_small by lia.
  rewrite <-Z.ldiff_land, Z.ldiff_ones_r, Z.shiftr_div_pow2, Z.shiftl_mul_pow2 by lia.
  change (2 ^ 16) with 65536. rewrite Z.div_mul by lia. done.
Qed.

(** For any number of queues the kernel allows (at most 4096, and up to
    32765 before the shift overflows an [int]), the qdiscs of one interface
    get handles that are different from each other and from that of the root,
    whichever of the two root handles was taken. *)
Theorem queue_handles_distinct ifindex h i j :
  h = 1 ∨ h = 2 → 1 <= i < j → j <= 32765 →
  tc_handle (child_msg ifindex h i) ≠ tc_handle (child_msg ifindex h j) ∧
  tc_handle (child_msg ifindex h i) ≠ tc_handle (mq_msg ifindex h) ∧
  Z.shiftl (j + h) 16 <= INT_MAX.
Proof.
  intros Hh Hi Hj. cbn [tc_handle child_msg mq_msg qdisc_msg].
  rewrite !TC_H_MAKE_major, Z.shiftl_mul_pow2 by lia. unfold INT_MAX. change (2 ^ 16) with 65536. lia.
Qed.

Lemma queue_handles_distinct_witness :
  tc_handle (child_msg 2 1 1) ≠ tc_handle (child_msg 2 1 2) ∧
  tc_handle (child_msg 2 1 1) ≠ tc_handle (mq_msg 2 1) ∧ Z.shiftl (2 + 1) 16 <= INT_MAX.
Proof. apply (queue_handles_distinct 2 1 1 2); lia. Defined.
