(* ===== verification/TcNet.v ===== *)
(** * Traffic control over the netlink socket

    [tc_setup_inferface] (src/tcbpf_util.c) with its requests sent by
    [rtnl_talk] (src/rtnl_util.c) to a kernel: the two components put together.
    The kernel is a parameter; what is assumed of it is the documented
    behaviour of rtnetlink, in [rtnetlink]. *)

From S2P Require Import Prelude RateLimit Protocol Netlink Rtnl Effects TcSetup.

#[local] Open Scope Z_scope.
#[local] Opaque replace_qdisc_req replace_bpf_filter_req tc_req.

Section Net.
Context {K : Type} (handle : K → list Z → K * Z * list sock_ev) (malloc : Z → option (list Z)).

(** The results of [rtnl_open], if_nametoindex and bpf_program__fd. *)
Context (open_rc : Z) (nametoindex : list Z → Z * Z) (program_fd : Z).

(** ** Answering the questions of the set-up *)

Definition net_answer {B} (q : tc_io B) (st : net K) : outcome (B * net K) :=
  match q in tc_io T return outcome (T * net K) with
  | RtnlOpen => Returns (open_rc, st)
  | RtnlClose => Returns (tt, st)
  | IfNametoindex ifname => Returns (nametoindex ifname, st)
  | Talk n =>
      match rtnl_talk handle malloc n false st with
      | Returns (t, st) => Returns (tk_rc t, st)
      | Waits => Waits
      | Faults => Faults
      end
  | TalkAnswer n =>
      match rtnl_talk handle malloc n true st with
      | Returns (t, st) => Returns (tk_rc t, tk_answer t, st)
      | Waits => Waits
      | Faults => Faults
      end
  | FreeAnswer => Returns (tt, set_live st (live st - 1))
  | ProgramFd => Returns (program_fd, st)
  end.

(** A program over the socket: its result ([None] for a crash), the questions
    with their answers, and the socket after it. *)
Fixpoint over_net {A} (p : tc A) (st : net K) : outcome (option A * list (ev tc_io) * net K) :=
  match p with
  | Ret x => Returns (Some x, [], st)
  | Crash => Returns (None, [], st)
  | Ask q k =>
      match net_answer q st with
      | Returns (b, st) =>
          match over_net (k b) st with
          | Returns (r, tr, st) => Returns (r, Ev q b :: tr, st)
          | Waits => Waits
          | Faults => Faults
          end
      | Waits => Waits
      | Faults => Faults
      end
  end.

(** ** The kernel *)

(** [serve k m] is what the kernel makes of a request: its new state and 0 or
    a negative error. [link k i] is what it knows of an interface: an error,
    or the struct ifinfomsg and the attributes. *)
Context (serve : K → tc_msg → K * Z) (link : K → Z → Z + list Z * list (Z * list Z)) (pid : Z).

(** The request of [get_iface_props] as it is sent. *)
Definition sent_getlink (sq ifindex : Z) : list Z :=
  nlmsghdr_bytes (NLMSG_LENGTH IFINFOMSG_SIZE) RTM_GETLINK NLM_F_REQUEST sq 0 ++
  le 4 AF_UNSPEC ++ le 4 ifindex ++ le 4 0 ++ le 4 0.

(** The message that answers it. *)
Definition link_reply (sq : Z) (extra : list Z) (l : Z + list Z * list (Z * list Z)) : nlmsg :=
  match l with
  | inl err => ack sq pid err extra
  | inr (ifinfo, attrs) => mk_nlmsg RTM_NEWLINK 0 sq pid (ifinfo ++ attrs_bytes attrs)
  end.

Definition link_ok (l : Z + list Z * list (Z * list Z)) : Prop :=
  match l with
  | inl err => - 4095 <= err < 0
  | inr (ifinfo, attrs) =>
      length ifinfo = 16%nat ∧ Forall link_attr_ok attrs ∧ Z.of_nat (length (attrs_bytes attrs)) < 32000 ∧
      (length (omap attr_queues attrs) <= 1)%nat ∧ (length (omap attr_kind attrs) <= 1)%nat
  end.

(** What rtnetlink documents: a request that asks for an acknowledgement gets
    one, with its sequence number, the port it came from and its result; a
    request for a link gets one message in the known format, or an error.
    Datagrams from the kernel come from port 0. *)
Record rtnetlink : Prop := {
  serve_errno k m : - 4095 <= (serve k m).2 <= 0;
  serve_acks k req m sq :
    read_tc req = Some m → Z.testbit (tc_flags m) 0 = true → Z.testbit (tc_flags m) 2 = true →
    rd 4 8 req = Some sq →
    ∃ extra, 16 <= Z.of_nat (length extra) < 32000 ∧
      handle k req =
        ((serve k m).1, 0, [SockMsg (nlmsg_bytes (ack sq pid (serve k m).2 extra)) 0 SOCKADDR_NL_SIZE]);
  link_format k i : link_ok (link k i);
  link_answers k i sq :
    in_u 32 i → in_u 32 sq →
    ∃ extra, 16 <= Z.of_nat (length extra) < 32000 ∧
      handle k (sent_getlink sq i) =
        (k, 0, [SockMsg (nlmsg_bytes (link_reply sq extra (link k i))) 0 SOCKADDR_NL_SIZE]);
}.

(** ** One question *)

(** What the set-up asks: traffic-control requests in their structs, and links. *)
Definition net_pre (B : Type) (q : tc_io B) : Prop :=
  match q with
  | Talk n => ∃ m room, request n m room ∧ tc_msg_ok m ∧ Z.testbit (tc_flags m) 0 = true
  | TalkAnswer n => ∃ i, n = getlink_req i ∧ in_u 32 i
  | _ => True
  end.

(** Between two questions nothing is on the socket. *)
Definition net_inv (st : net K) : Prop := sock st = [] ∧ in_u 32 (seq st) ∧ local_pid st = pid.

(** The request the kernel got. *)
Definition sent1 (e : ev tc_io) : option tc_msg :=
  match e with
  | Ev q _ => match q with Talk n => with_ack <$> read_tc n | _ => None end
  end.
Definition sent (tr : list (ev tc_io)) : list tc_msg := omap sent1 tr.

(** The kernel after requests, and those of them that it granted. *)
Definition kernel_after (k : K) (ms : list tc_msg) : K := foldl (λ k m, (serve k m).1) k ms.
Fixpoint granted (k : K) (ms : list tc_msg) : list tc_msg :=
  match ms with
  | [] => []
  | m :: ms => (if (serve k m).2 =? 0 then [m] else []) ++ granted (serve k m).1 ms
  end.

Context (Hkernel : rtnetlink) (blk : list Z) (Hblk : malloc MIN_BUF_LEN = Some blk) (Hpid : in_u 32 pid).

Lemma talk_prepare_getlink sq i :
  ∃ n, talk_prepare true sq (getlink_req i) = Some n ∧ rd 4 0 n = Some 32 ∧
    take (Z.to_nat 32) n = sent_getlink sq i.
Proof.
  set (T := le 4 0 ++ le 4 AF_UNSPEC ++ le 4 i ++ le 4 0 ++ le 4 0 ++ replicate 1024%nat 0).
  pose proof (talk_prepare_spec true sq (le 4 32 ++ le 2 RTM_GETLINK) (le 2 NLM_F_REQUEST) (le 4 0) T) as Hp.
  eexists. split; [|split].
  - replace (getlink_req i) with ((le 4 32 ++ le 2 RTM_GETLINK) ++ le 2 NLM_F_REQUEST ++ le 4 0 ++ T).
    + apply Hp; by rewrite ?length_app, ?length_le.
    + unfold getlink_req, nlmsghdr_bytes, T. by rewrite <-!(assoc_L (++)).
  - rewrite <-(assoc_L (++)). eapply (rd_le _ _ _ 4); [by eapply lies_at_here|done|done].
  - unfold T. rewrite !(assoc_L (++)), take_app_length'; [|by rewrite !length_app, !length_le].
    unfold sent_getlink, nlmsghdr_bytes. by rewrite <-!(assoc_L (++)).
Qed.

Lemma link_reply_bytes sq extra ifinfo attrs :
  length ifinfo = 16%nat →
  nlmsg_bytes (link_reply sq extra (inr (ifinfo, attrs))) = link_msg RTM_NEWLINK 0 sq pid ifinfo attrs.
Proof.
  intros Hif. unfold nlmsg_bytes, link_reply, link_msg. cbn [nm_type nm_flags nm_seq nm_pid nm_data].
  pose proof (length_attrs_bytes attrs) as H4. unfold pad4. rewrite length_app, Hif.
  replace (Z.to_nat _ - _)%nat with 0%nat by (Z.to_euclidean_division_equations; lia).
  cbn [replicate]. rewrite app_nil_r. do 2 f_equal. unfold NLMSG_LENGTH, NLMSGHDR_SIZE. lia.
Qed.

(** The properties of an interface: an error, or one answer at the start of
    the block. *)
Lemma net_link st i :
  net_inv st → in_u 32 i →
  ∃ rc a st', net_answer (TalkAnswer (getlink_req i)) st = Returns (rc, a, st') ∧
    tc_ok _ (TalkAnswer (getlink_req i)) (rc, a) ∧ net_inv st' ∧ kernel st' = kernel st ∧
    live st' = live st + (if a is Some _ then 1 else 0).
Proof.
  intros (Hs & Hsq & Hp) Hi. destruct (talk_prepare_getlink (seq st) i) as (n & Hn & Hlen & Htake).
  destruct (link_answers Hkernel (kernel st) i (seq st) Hi Hsq) as (extra & Hex & Hh).
  pose proof (link_format Hkernel (kernel st) i) as Hf. cbn [net_answer].
  assert (in_u 32 (u32 (seq st + 1))) as Hsq' by (apply Z.mod_pos_bound; done).
  set (reply := link_reply (seq st) extra (link (kernel st) i)) in *.
  rewrite <-Htake in Hh.
  pose proof (rtnl_talk_one handle malloc _ true st n 32 (kernel st) reply blk Hn Hlen Hh Hs Hblk) as Htalk.
  rewrite Hp in Htalk.
  destruct (link (kernel st) i) as [err|[ifinfo attrs]] eqn:El; cbn [link_ok] in Hf.
  - destruct (ack_ok (seq st) pid err extra) as (Ha & Ho & Hd & Hm); [done|done|lia|done|].
    subst reply. cbn [link_reply] in *. rewrite (Htalk Ha Hd Ho), Hm. cbn [tk_rc tk_answer]. rewrite Z.min_l by lia.
    eexists _, _, _. split; [done|]. split; [by left; split; [lia|]|]. split; [by split|]. split; [done|]. cbn. lia.
  - destruct Hf as (Hif & Hok & Hl & H1 & H2).
    assert (length (nm_data reply) = (16 + length (attrs_bytes attrs))%nat) as Hdl
      by (subst reply; cbn [link_reply nm_data]; by rewrite length_app, Hif).
    rewrite Htalk.
    + change (msg_meaning 0 reply) with (Rtnl.TalkAnswer 0). cbn [tk_rc tk_answer].
      eexists _, _, _. split; [done|]. split; [|by split].
      right. split; [done|]. eexists. split; [done|]. subst reply. rewrite link_reply_bytes by done.
      eexists RTM_NEWLINK, 0, (seq st), pid, ifinfo, attrs.
      split_and!; [by eapply lies_at_here|by left|done|done|lia|done|done].
    + repeat split; try done; try apply Hsq; try apply Hpid. lia.
    + lia.
    + unfold ours. cbn. by rewrite !Z.eqb_refl.
Qed.

Lemma with_ack_flags m : Z.testbit (tc_flags m) 0 = true →
  Z.testbit (tc_flags (with_ack m)) 0 = true ∧ Z.testbit (tc_flags (with_ack m)) 2 = true.
Proof. intros H. unfold with_ack. cbn [tc_flags]. by rewrite !Z.lor_spec, H, orb_true_r. Qed.

(** A request: the kernel serves it, and its result is the answer. *)
Lemma net_talk st n m room :
  net_inv st → request n m room → tc_msg_ok m → Z.testbit (tc_flags m) 0 = true →
  ∃ st', net_answer (Talk n) st = Returns ((serve (kernel st) (with_ack m)).2, st') ∧
    net_inv st' ∧ kernel st' = (serve (kernel st) (with_ack m)).1 ∧ live st' = live st.
Proof.
  intros (Hs & Hsq & Hp) Hr Hm Hfl. destruct (with_ack_flags m Hfl) as [H0 H2].
  destruct (talk_sends n m room (seq st) Hr) as (n' & Hn & Hlen & Htake); [apply Hm|].
  destruct (sent_reads_back (seq st) n m room Hr Hm Hsq) as [Hread Hseq].
  destruct (serve_acks Hkernel (kernel st) _ _ _ Hread H0 H2 Hseq) as (extra & Hex & Hh).
  pose proof (serve_errno Hkernel (kernel st) (with_ack m)) as Herr.
  destruct (ack_ok (seq st) pid (serve (kernel st) (with_ack m)).2 extra) as (Ha & Ho & Hd & Hmean);
    [done|done|lia|done|].
  assert (in_u 32 (u32 (seq st + 1))) as Hsq' by (apply Z.mod_pos_bound; done).
  cbn [net_answer]. erewrite (rtnl_talk_one handle malloc n false st n' _ _ _ blk Hn Hlen);
    [|by rewrite Htake|done|done|exact Ha|exact Hd|by rewrite Hp].
  rewrite Hmean. cbn [tk_rc]. rewrite Z.min_l by lia. eexists. split; [done|]. by split.
Qed.

(** ** Whole programs *)

Context (Hopen : open_rc <= 0).
Context (Hnames : ∀ ifname, let '(i, e) := nametoindex ifname in (i = 0 ∧ 0 < e) ∨ 0 < i < 2 ^ 31).

(** One question: its answer is one the set-up expects, and the kernel has
    served what was sent. *)
Lemma net_step {B} (q : tc_io B) st :
  net_pre B q → net_inv st →
  ∃ b st', net_answer q st = Returns (b, st') ∧ tc_ok B q b ∧ net_inv st' ∧
    live st' = live st + blocks1 (Ev q b) ∧
    kernel st' = kernel_after (kernel st) (sent [Ev q b]) ∧
    with_ack <$> accepted [Ev q b] = granted (kernel st) (sent [Ev q b]).
Proof.
  intros Hq Hst. destruct q as [| |ifname|n|n| |].
  - eexists _, _. split; [done|]. split_and!; [done..|cbn; lia|done|done].
  - eexists _, _. split; [done|]. split_and!; [done..|cbn; lia|done|done].
  - eexists _, _. split; [done|]. split_and!; [|done|cbn; lia|done|done].
    cbn. specialize (Hnames ifname). by destruct (nametoindex ifname).
  - destruct Hq as (m & room & Hr & Hm & Hfl). destruct (net_talk st n m room Hst Hr Hm Hfl) as (st' & He & Hi & Hk & Hl).
    pose proof (serve_errno Hkernel (kernel st) (with_ack m)) as Herr.
    eexists _, _. split; [exact He|]. unfold accepted, sent. cbn -[read_tc].
    rewrite (request_read _ _ _ Hr Hm). cbn -[read_tc].
    split_and!; [lia|done|lia|done|].
    destruct (Z.ltb_spec (serve (kernel st) (with_ack m)).2 0) as [Hn|Hn].
    + by rewrite (proj2 (Z.eqb_neq _ _)) by lia.
    + by rewrite (proj2 (Z.eqb_eq _ _)) by lia.
  - destruct Hq as (i & -> & Hi). destruct (net_link st i Hst Hi) as (rc & a & st' & He & Hok & Hi' & Hk & Hl).
    eexists _, _. split; [exact He|]. by split_and!.
  - eexists _, _. split; [done|]. split_and!; [done|done|cbn; lia|done|done].
  - eexists _, _. split; [done|]. split_and!; [done..|cbn; lia|done|done].
Qed.

Lemma granted_app k ms1 ms2 :
  granted k (ms1 ++ ms2) = granted k ms1 ++ granted (kernel_after k ms1) ms2.
Proof.
  revert k. induction ms1 as [|m ms1 IH]; intros k; [done|]. cbn [app granted kernel_after foldl].
  by rewrite IH, (assoc_L (++)).
Qed.

Lemma over_net_runs {A} (p : tc A) st :
  asks tc_ok net_pre p → net_inv st →
  ∃ r tr st', over_net p st = Returns (r, tr, st') ∧ runs tc_ok p tr r ∧ net_inv st' ∧
    live st' = live st + blocks tr ∧ kernel st' = kernel_after (kernel st) (sent tr) ∧
    with_ack <$> accepted tr = granted (kernel st) (sent tr).
Proof.
  revert st. induction p as [x| |B q k IH]; intros st Hp Hst; cbn [over_net].
  - eexists _, _, _. split; [done|]. split_and!; [constructor|apply Hst..|cbn; lia|done|done].
  - eexists _, _, _. split; [done|]. split_and!; [constructor|apply Hst..|cbn; lia|done|done].
  - destruct Hp as [Hq Hk]. destruct (net_step q st Hq Hst) as (b & st1 & -> & Hok & Hi1 & Hl1 & Hk1 & Hg1).
    destruct (IH b st1 (Hk b Hok) Hi1) as (r & tr & st2 & -> & Hr & Hi2 & Hl2 & Hk2 & Hg2).
    eexists _, _, _. split; [done|].
    assert (sent (Ev q b :: tr) = sent [Ev q b] ++ sent tr) as Hse by apply (omap_app sent1 [_] tr).
    assert (accepted (Ev q b :: tr) = accepted [Ev q b] ++ accepted tr) as Hac by apply (accepted_app [_] tr).
    split_and!; [by constructor|apply Hi2..| | |].
    + rewrite Hl2, Hl1. cbn. unfold blocks. lia.
    + by rewrite Hk2, Hk1, Hse; unfold kernel_after; rewrite foldl_app.
    + by rewrite Hac, fmap_app, Hg1, Hg2, Hse, granted_app, Hk1.
Qed.

End Net.

(** ** What the set-up asks *)

Abbreviation tc_asks := (asks tc_ok net_pre).

Lemma asks_requests p m : requests p m → Z.testbit (tc_flags m) 0 = true → tc_asks p.
Proof.
  intros (req & room & Hr & Hm & ->) Hfl. apply asks_ask; [by exists m, room|]. intros rc _. by destruct (rc <? 0).
Qed.

Lemma asks_replace_qdisc ifindex parent handle kind name :
  in_u 32 ifindex → in_u 32 parent → in_u 32 handle → qdisc_name kind = Some name →
  tc_asks (tc_replace_qdisc ifindex parent handle kind).
Proof. intros. by eapply asks_requests; [apply tc_replace_qdisc_requests|]. Qed.

Lemma asks_replace_or_delete n replace del :
  tc_asks replace → tc_asks del → tc_asks (replace_or_delete n replace del).
Proof.
  intros Hr Hd. induction n as [|n IH]; cbn [replace_or_delete]; (apply asks_bind; [done|]); intros rc;
    destruct (rc <? 0); try done. apply asks_bind; [done|]. intros rc2. by destruct (rc2 <? 0).
Qed.

Lemma asks_setup_queues ifindex props : in_u 32 ifindex → tc_asks (setup_queues ifindex props).
Proof.
  intros Hi. unfold setup_queues. destruct (_ =? 1).
  - case_decide; [done|]. by eapply asks_replace_qdisc.
  - apply asks_bind.
    + generalize 2%nat 1 0. intros n. induction n as [|n IH]; intros h rc0; cbn [attach_mq]; [done|].
      apply asks_bind; [by eapply asks_replace_qdisc; [|done|apply TC_H_MAKE_range|]|].
      intros rc. by destruct (rc <? 0).
    + intros [h rc]. destruct (2 <? h); [done|]. generalize 1. generalize (Z.to_nat (num_tx_queues props)).
      intros n. induction n as [|n IH]; intros j; cbn [replace_children]; [done|].
      apply asks_bind; [by eapply asks_replace_qdisc; [|apply TC_H_MAKE_range..|]|].
      intros rc'. by destruct (rc' <? 0).
Qed.

Lemma asks_setup_filter ifindex : in_u 32 ifindex → tc_asks (setup_filter ifindex).
Proof.
  intros Hi. unfold setup_filter. apply asks_bind.
  - apply asks_replace_or_delete; [by eapply asks_replace_qdisc; [|done|apply TC_H_MAKE_range|]|].
    by eapply asks_requests; [by apply tc_del_qdisc_requests; [|done|apply TC_H_MAKE_range]|].
  - intros rc. destruct (rc <? 0); [done|]. apply asks_ask; [done|]. intros fd _.
    destruct (fd <? 0); [done|].
    apply asks_replace_or_delete; [by eapply asks_requests; [by apply tc_replace_bpf_filter_requests|]|].
    by eapply asks_requests; [by apply tc_del_filter_requests; [|apply TC_H_MAKE_range]|].
Qed.

Lemma asks_setup_one ifname : tc_asks (tc_setup_one_inferface ifname).
Proof.
  unfold tc_setup_one_inferface. apply asks_ask; [done|]. intros [ifindex e] Hidx.
  destruct (Z.eqb_spec ifindex 0) as [|Hne]; [done|].
  assert (in_u 32 ifindex) as Hi by (destruct Hidx as [[]|]; [done|unfold in_u; simpl; lia]).
  apply asks_bind.
  - unfold get_iface_props. apply asks_ask; [by exists ifindex|]. intros [rc a] _.
    destruct (rc <? 0); [done|].
    destruct a as [[mem p]|]; [|done]. destruct (iface_props_of_answer mem p) as [[r|]|]; [|done|done].
    by destruct (negb _).
  - intros [rc|props]; [done|]. destruct (_ =? 0); [done|].
    apply asks_bind; [by apply asks_setup_queues|]. intros rc. destruct (rc <? 0); [done|].
    by apply asks_setup_filter.
Qed.

Lemma asks_setup_tokens fuel l : tc_asks (setup_tokens fuel l).
Proof.
  revert l. induction fuel as [|fuel IH]; intros l; [exact I|]. cbn [setup_tokens].
  destruct (strtok_r l) as [[t r]|]; [|done].
  apply asks_bind; [apply asks_setup_one|]. intros rc. by destruct (rc <? 0).
Qed.

Lemma asks_setup ifnames : tc_asks (tc_setup_inferface ifnames).
Proof.
  unfold tc_setup_inferface. destruct ifnames as [|c s]; [done|]. apply asks_ask; [done|]. intros rc _.
  destruct (rc <? 0); [done|]. apply asks_bind; [apply asks_setup_tokens|intros rc2; by split].
Qed.

(** ** Properties *)

(** C11. The set-up of traffic control, down to the bytes on the socket, does
    what it means to: with a kernel that behaves as rtnetlink documents, it
    comes back, with a result and without a crash; the kernel has served
    exactly the requests that were sent, in order, and the ones the set-up
    counts as accepted are the ones the kernel granted; with result 0 these
    set up every interface of the list. Nothing is left on the socket and
    nothing stays allocated. *)
Theorem setup_reaches_kernel {K} handle malloc open_rc nametoindex program_fd serve link pid blk ifnames
    (st : net K) :
  rtnetlink handle serve link pid → malloc MIN_BUF_LEN = Some blk → in_u 32 pid → open_rc <= 0 →
  (∀ ifname, let '(i, e) := nametoindex ifname in (i = 0 ∧ 0 < e) ∨ 0 < i < 2 ^ 31) →
  net_inv pid st →
  ∃ rc tr st', over_net handle malloc open_rc nametoindex program_fd (tc_setup_inferface ifnames) st =
      Returns (Some rc, tr, st') ∧
    setup_outcome ifnames tr rc ∧ net_inv pid st' ∧ live st' = live st ∧
    kernel st' = kernel_after serve (kernel st) (sent tr) ∧
    with_ack <$> accepted tr = granted serve (kernel st) (sent tr).
Proof.
  intros Hk Hb Hp Ho Hn Hst.
  destruct (over_net_runs handle malloc open_rc nametoindex program_fd serve link pid Hk blk Hb Hp Ho Hn
    (tc_setup_inferface ifnames) st (asks_setup ifnames) Hst) as (r & tr & st' & He & Hr & Hi & Hl & Hke & Hg).
  destruct (wp_sound tc_ok _ _ [] tr r (wp_setup ifnames) Hr) as (rc & -> & Hout).
  cbn [app] in Hout. exists rc, tr, st'. split_and!; [done|done|apply Hi..| |done|done]. rewrite Hl.
  destruct Hout as [[_ [[-> _]| ->]]|(l & -> & _ & _ & Hbl)]; [cbn; lia..|].
  rewrite (blocks_app [Ev RtnlOpen 0] (l ++ _)), blocks_app, Hbl. cbn. lia.
Qed.

(** A kernel that keeps the requests it granted, refuses handle 1: for mq and
    has one interface with two queues. *)
Definition log_serve (k : list tc_msg) (m : tc_msg) : list tc_msg * Z :=
  if decide (tc_handle m = 65536) then (k, -17) else (k ++ [m], 0).

Definition log_link (k : list tc_msg) (i : Z) : Z + list Z * list (Z * list Z) :=
  if i =? 2 then
    inr (replicate 16 0,
      [(3, bytes "eth0" ++ [0]); (IFLA_QDISC, bytes "mq" ++ [0]); (IFLA_NUM_TX_QUEUES, le 4 2)])
  else inl (-19).

Definition log_handle (k : list tc_msg) (req : list Z) : list tc_msg * Z * list sock_ev :=
  let sq := default 0 (rd 4 8 req) in
  let extra := replicate 16 0 in
  match read_tc req with
  | Some m =>
      ((log_serve k m).1, 0, [SockMsg (nlmsg_bytes (ack sq 9 (log_serve k m).2 extra)) 0 SOCKADDR_NL_SIZE])
  | None =>
      let i := default 0 (rd 4 20 req) in
      (k, 0, [SockMsg (nlmsg_bytes (link_reply 9 sq extra (log_link k i))) 0 SOCKADDR_NL_SIZE])
  end.

Lemma log_rtnetlink : rtnetlink log_handle log_serve log_link 9.
Proof.
  split.
  - intros k m. unfold log_serve. case_decide; cbn; lia.
  - intros k req m sq Hm _ _ Hsq. exists (replicate 16 0). split; [simpl; lia|].
    unfold log_handle. by rewrite Hm, Hsq.
  - intros k i. unfold log_link. destruct (i =? 2); [|cbn; lia].
    split_and!; [done| |vm_compute; done|vm_compute; lia..].
    repeat constructor; try done. intros _. exists (bytes "mq"). split; [done|].
    intros H%list_elem_of_In. vm_compute in H. intuition congruence.
  - intros k i sq Hi Hsq. exists (replicate 16 0). split; [simpl; lia|]. unfold log_handle.
    assert (read_tc (sent_getlink sq i) = None) as ->.
    { unfold read_tc. assert (rd 4 32 (sent_getlink sq i) = None) as ->.
      { unfold rd, sent_getlink, nlmsghdr_bytes. by rewrite !length_app, !length_le. }
      by repeat (destruct (rd _ _ _); [cbn [mbind option_bind]|done]). }
    assert (rd 4 8 (sent_getlink sq i) = Some sq) as ->.
    { eapply (rd_le _ _ _ 4); [|done|done].
      exists (le 4 32 ++ le 2 RTM_GETLINK ++ le 2 NLM_F_REQUEST). eexists.
      split; [|by rewrite !length_app, !length_le].
      unfold sent_getlink, nlmsghdr_bytes. rewrite <-!(assoc_L (++)). reflexivity. }
    assert (rd 4 20 (sent_getlink sq i) = Some i) as ->.
    { eapply (rd_le _ _ _ 4); [|done|done].
      exists (le 4 32 ++ le 2 RTM_GETLINK ++ le 2 NLM_F_REQUEST ++ le 4 sq ++ le 4 0 ++ le 4 AF_UNSPEC). eexists.
      split; [|by rewrite !length_app, !length_le].
      unfold sent_getlink, nlmsghdr_bytes. rewrite <-!(assoc_L (++)). reflexivity. }
    reflexivity.
Qed.

Lemma setup_reaches_kernel_witness :
  ∃ rc tr st', over_net log_handle some_malloc 0 (λ _, (2, 0)) 7 (tc_setup_inferface (bytes "eth0"))
      (mk_net [] [] 100 9 0) = Returns (Some rc, tr, st') ∧
    setup_outcome (bytes "eth0") tr rc ∧ net_inv 9 st' ∧ live st' = 0 ∧
    kernel st' = kernel_after log_serve [] (sent tr) ∧
    with_ack <$> accepted tr = granted log_serve [] (sent tr).
Proof.
  refine (setup_reaches_kernel log_handle some_malloc 0 (λ _, (2, 0)) 7 log_serve log_link 9 _ (bytes "eth0")
    (mk_net [] [] 100 9 0) log_rtnetlink eq_refl _ _ _ _).
  - vm_compute; split; congruence.
  - lia.
  - intros _. right. lia.
  - split; [reflexivity|]. split; [vm_compute; split; congruence|reflexivity].
Defined.

(** The log of the example's kernel: mq with handle 2:, fq on both queues,
    clsact, the filter. *)
Example example_kernel :
  match over_net log_handle some_malloc 0 (λ _, (2, 0)) 7 (tc_setup_inferface (bytes "eth0"))
      (mk_net [] [] 100 9 0) with
  | Returns (Some rc, _, st') => Some (rc, kernel st', seq st')
  | _ => None
  end = Some (0, with_ack <$> [mq_msg 2 2; child_msg 2 2 1; child_msg 2 2 2; clsact_msg 2; filter_msg 2 7], 107).
Proof. vm_compute. reflexivity. Qed.
