(* ===== verification/SdBus.v ===== *)
(** * Calls to systemd (src/sd_bus.c)

    The functions that talk to systemd over its bus, as programs over the
    calls of libsystemd. A wait of the coroutine is a question whose answer
    says which callbacks ran meanwhile and whether the wait was interrupted;
    the callbacks are programs too. Messages, slots, references to the bus and
    allocated strings are resources: a trace shows which are held. *)

From S2P Require Import Prelude RateLimit Protocol Netlink Effects.

#[local] Open Scope Z_scope.

(** A C string, without its terminating zero. *)
Abbreviation cstr := (list Z).

(** An allocated string: its address and its value. *)
Record str : Type := mk_str { s_id : Z; s_val : cstr }.

Record bus_locator : Type := mk_locator { destination : cstr; path : cstr; interface : cstr }.

Definition bus_systemd_mgr : bus_locator :=
  mk_locator (bytes "org.freedesktop.systemd1") (bytes "/org/freedesktop/systemd1")
    (bytes "org.freedesktop.systemd1.Manager").

Definition ENOEXEC : Z := 8.

(** What is appended to a message. *)
Inductive barg : Type := AS (s : cstr) | AU (u : Z) | AI (i : Z).

(** What a reply to a method call is: an error, or a message. *)
Inductive reply : Type := MethodError (errno : Z) | MethodReturn (m : Z).

(** Callbacks of the wait for a job: the signals JobRemoved, with the job and
    its result if they can be read, and Disconnected. *)
Inductive job_cb : Type :=
  | CbJobRemoved (m : option (cstr * cstr))
  | CbDisconnected.

(** ** Questions *)

Inductive sb_io : Type → Type :=
  | NewMethodCall (l : bus_locator) (member : cstr) : sb_io (Z + Z)
  | Append (m : Z) (types : cstr) (args : list barg) : sb_io Z
  | OpenContainer (m : Z) (contents : cstr) : sb_io Z
  | CloseContainer (m : Z) : sb_io Z
  | CallAsync (m usec : Z) : sb_io (Z + Z)
  | WaitReply (slot : Z) : sb_io (bool * option reply)
  | RefMsg (m : Z) : sb_io unit
  | UnrefMsg (m : Z) : sb_io unit
  | UnrefSlot (slot : Z) : sb_io unit
  | RefBus : sb_io unit
  | UnrefBus : sb_io unit
  | EnterVariant (m : Z) (type : cstr) : sb_io Z
  | ReadBasic (m : Z) (type : cstr) : sb_io (Z + cstr)
  | ReadObject (m : Z) : sb_io (Z + cstr)
  | Strdup (s : cstr) : sb_io (Z + Z)
  | FreeStr (s : str) : sb_io unit
  | Randomize : sb_io (Z + cstr)
  | Asprintf (s : cstr) : sb_io (Z + Z)
  | MatchSignal (member : cstr) : sb_io (Z + Z)
  | WaitInstalled : sb_io (option (option Z))
  | JobCallbacks : sb_io (list job_cb)
  | WaitJob (job_obj : cstr) : sb_io (bool * list job_cb).

Abbreviation sb := (prog sb_io).

(** ** Method calls *)

(** [struct sb_bus_call_arg]. *)
Record sb_bus_call_arg : Type := mk_call_arg { ca_result : option Z; ca_error : Z }.

Definition sb_bus_call_cb (r : reply) (arg : sb_bus_call_arg) : sb sb_bus_call_arg :=
  match ca_result arg with
  | Some _ => Crash                       (* assert(arg->result == NULL) *)
  | None =>
      match r with
      | MethodError errno => mret (mk_call_arg None (- errno))
      | MethodReturn m => ask (RefMsg m);; mret (mk_call_arg (Some m) 0)
      end
  end.

(** [sb_bus_call]: the result and the message, if [want] and successful.
    [meanwhile] is what the caller's other callbacks do to their state [x] while
    the coroutine waits. *)
Definition sb_bus_call_with {X} (meanwhile : X → sb X) (x : X) (m : Z) (want : bool) (usec : Z)
  : sb (Z * option Z * X) :=
  slot ← ask (CallAsync m usec);
  match slot with
  | inl rc => mret (rc, None, x)
  | inr slot =>
      '(interrupted, cb) ← ask (WaitReply slot);
      x ← meanwhile x;
      arg ← match cb with
            | Some r => sb_bus_call_cb r (mk_call_arg None 0)
            | None => mret (mk_call_arg None 0)
            end;
      if (interrupted : bool) then ask (UnrefSlot slot);; mret (- EINTR, None, x)
      else if ca_error arg <? 0 then ask (UnrefSlot slot);; mret (ca_error arg, None, x)
      else
        match ca_result arg with
        | None => ask (UnrefSlot slot);; mret (0, None, x)
        | Some r =>
            if want then ask (UnrefSlot slot);; mret (0, Some r, x)
            else ask (UnrefMsg r);; ask (UnrefSlot slot);; mret (0, None, x)
        end
  end.

Definition sb_bus_call (m : Z) (want : bool) (usec : Z) : sb (Z * option Z) :=
  '(rc, r, _) ← sb_bus_call_with mret tt m want usec; mret (rc, r).

Definition sb_bus_call_methodv (l : bus_locator) (member : cstr) (want : bool) (types : cstr)
    (args : list barg) : sb (Z * option Z) :=
  m ← ask (NewMethodCall l member);
  match m with
  | inl rc => mret (rc, None)
  | inr m =>
      rc ← (if decide (types = []) then mret 0 else ask (Append m types args));
      if rc <? 0 then ask (UnrefMsg m);; mret (rc, None)
      else
        r ← sb_bus_call m want 0;
        ask (UnrefMsg m);;
        mret r
  end.

(** [sb_bus_call_method], [sb_bus_call_systemd_method] and
    [sb_bus_call_unit_method]. *)
Definition sb_bus_call_method := sb_bus_call_methodv.

Definition sb_bus_call_systemd_method (member : cstr) (want : bool) (types : cstr) (args : list barg) :=
  sb_bus_call_methodv bus_systemd_mgr member want types args.

Definition sb_bus_call_unit_method (unit_path member : cstr) (want : bool) (types : cstr)
    (args : list barg) :=
  sb_bus_call_methodv
    (mk_locator (destination bus_systemd_mgr) unit_path (bytes "org.freedesktop.systemd1.Unit"))
    member want types args.

(** ** Properties *)

Definition sb_bus_get_property (l : bus_locator) (member type : cstr) : sb (Z * option Z) :=
  '(rc, rep) ← sb_bus_call_method
    (mk_locator (destination l) (path l) (bytes "org.freedesktop.DBus.Properties"))
    (bytes "Get") true (bytes "ss") [AS (interface l); AS member];
  if rc <? 0 then mret (rc, None)
  else
    match rep with
    | None => Crash                       (* a message is expected *)
    | Some rep =>
        rc ← ask (EnterVariant rep type);
        if rc <? 0 then ask (UnrefMsg rep);; mret (rc, None)
        else ask (RefMsg rep);; ask (UnrefMsg rep);; mret (0, Some rep)
    end.

(** The string in a message, copied; the message is given back. *)
Definition dup_string_of (rep : Z) : sb (Z * option str) :=
  s ← ask (ReadBasic rep (bytes "s"));
  match s with
  | inl rc => ask (UnrefMsg rep);; mret (rc, None)
  | inr s =>
      n ← ask (Strdup s);
      match n with
      | inl rc => ask (UnrefMsg rep);; mret (rc, None)
      | inr n => ask (UnrefMsg rep);; mret (0, Some (mk_str n s))
      end
  end.

Definition sb_bus_get_property_string (l : bus_locator) (member : cstr) : sb (Z * option str) :=
  '(rc, rep) ← sb_bus_get_property l member (bytes "s");
  if rc <? 0 then mret (rc, None)
  else match rep with None => Crash | Some rep => dup_string_of rep end.

Definition sb_bus_get_property_trivial (l : bus_locator) (member type : cstr) : sb (Z * option cstr) :=
  '(rc, rep) ← sb_bus_get_property l member type;
  if rc <? 0 then mret (rc, None)
  else
    match rep with
    | None => Crash
    | Some rep =>
        v ← ask (ReadBasic rep type);
        match v with
        | inl rc => ask (UnrefMsg rep);; mret (rc, None)
        | inr v => ask (UnrefMsg rep);; mret (0, Some v)
        end
    end.

(** [sb_sd_Unit_Get_Id] of se_libs.h. *)
Definition sb_sd_Unit_Get_Id (unit_obj : cstr) : sb (Z * option str) :=
  sb_bus_get_property_string
    (mk_locator (destination bus_systemd_mgr) unit_obj (bytes "org.freedesktop.systemd1.Unit"))
    (bytes "Id").

(** ** The interface of a unit's kind *)

Definition DOT : Z := 46.
Definition SD_INTERFACE_NAME : cstr := bytes "org.freedesktop.systemd1.".

Definition toupper (c : Z) : Z := if (97 <=? c) && (c <=? 122) then c - 32 else c.

(** The loop from the last character down to the first: the index after the
    last dot. *)
Fixpoint find_kind (i : nat) (unit_name : cstr) : option nat :=
  match i with
  | O => None
  | S i => if decide (unit_name !! i = Some DOT) then Some (S i) else find_kind i unit_name
  end.

(** [sb_sd_Unit_Get_subprop] up to the call: the error, or the offset of the
    kind and the contents of [interface_buf]. *)
Definition subprop_interface (unit_name : cstr) : Z + nat * cstr :=
  if (length unit_name <? 1)%nat then inl (- EINVAL)
  else
    match find_kind (length unit_name) unit_name with
    | None => inl (- EINVAL)
    | Some k =>
        match drop k unit_name with
        | [] => inl (- EINVAL)
        | c :: rest => inr (k, SD_INTERFACE_NAME ++ toupper c :: rest)
        end
    end.

(** The size of [interface_buf]; sizeof of the literal counts its zero. *)
Definition interface_buf_size (unit_name : cstr) (kind : nat) : Z :=
  Z.of_nat (length SD_INTERFACE_NAME) + 1 + Z.of_nat (length unit_name) - Z.of_nat kind + 10.

Definition sb_sd_Unit_Get_subprop (unit_obj member type : cstr) : sb (Z * option Z) :=
  '(rc, unit_name) ← sb_sd_Unit_Get_Id unit_obj;
  if rc <? 0 then mret (rc, None)
  else
    match unit_name with
    | None => Crash
    | Some unit_name =>
        match subprop_interface (s_val unit_name) with
        | inl rc => ask (FreeStr unit_name);; mret (rc, None)
        | inr (kind, interface_buf) =>
            if interface_buf_size (s_val unit_name) kind <? Z.of_nat (length interface_buf) + 1 then Crash
            else
              '(rc, reply) ← sb_bus_get_property
                (mk_locator (bytes "org.freedesktop.systemd1") unit_obj interface_buf) member type;
              ask (FreeStr unit_name);;
              if rc <? 0 then mret (rc, None) else mret (0, reply)
        end
    end.

Definition sb_Unit_Get_subprop_string (unit_obj member : cstr) : sb (Z * option str) :=
  '(rc, rep) ← sb_sd_Unit_Get_subprop unit_obj member (bytes "s");
  if rc <? 0 then mret (rc, None)
  else match rep with None => Crash | Some rep => dup_string_of rep end.

(** [sb_sd_GetUnitByPID] returns what sd_bus_message_read returned, which is
    positive on success. *)
Definition sb_sd_GetUnitByPID (pid : Z) : sb (Z * option str) :=
  '(rc, result_msg) ← sb_bus_call_systemd_method (bytes "GetUnitByPID") true (bytes "u") [AU pid];
  if rc <? 0 then mret (rc, None)
  else
    match result_msg with
    | None => Crash
    | Some result_msg =>
        unit_obj ← ask (ReadObject result_msg);
        match unit_obj with
        | inl rc => ask (UnrefMsg result_msg);; mret (rc, None)
        | inr unit_obj =>
            unit_dup ← ask (Strdup unit_obj);
            match unit_dup with
            | inl rc => ask (UnrefMsg result_msg);; mret (rc, None)
            | inr n => ask (UnrefMsg result_msg);; mret (1, Some (mk_str n unit_obj))
            end
        end
    end.

Definition get_self_unit_name (self_pid : Z) : sb (Z * option str) :=
  '(rc, unit_obj) ← sb_sd_GetUnitByPID self_pid;
  if rc <? 0 then mret (rc, None)
  else
    match unit_obj with
    | None => Crash
    | Some unit_obj =>
        '(rc, unit_name) ← sb_sd_Unit_Get_Id (s_val unit_obj);
        if rc <? 0 then ask (FreeStr unit_obj);; mret (rc, None)
        else ask (FreeStr unit_obj);; mret (0, unit_name)
    end.

(** ** Waiting for a job *)

(** [struct sb_sd_wait_for_job_arg] without its event; [job_obj] and [result]
    are NULL or strings. *)
Record wait_arg : Type := mk_wait {
  wa_slot_job_removed : option Z; wa_slot_disconnected : option Z;
  wa_job_obj : option cstr; wa_result : option str; wa_rc : Z; wa_closed : bool;
}.

Definition sb_sd_free_wait_for_job (arg : wait_arg) : sb wait_arg :=
  if wa_closed arg then mret arg
  else
    match wa_slot_disconnected arg with Some s => ask (UnrefSlot s) | None => mret tt end;;
    match wa_slot_job_removed arg with Some s => ask (UnrefSlot s) | None => mret tt end;;
    ask UnrefBus;;
    mret (mk_wait None None (wa_job_obj arg) (wa_result arg) (wa_rc arg) true).

(** strdup whose failure is ignored. *)
Definition strdup_or_null (s : cstr) : sb (option str) :=
  n ← ask (Strdup s);
  mret (match n with inl _ => None | inr n => Some (mk_str n s) end).

(** The callbacks: the new argument, and whether the event is set. *)
Definition sb_sd_wait_for_job_bus_disconnected (arg : wait_arg) : sb (wait_arg * bool) :=
  match wa_result arg with
  | Some _ => Crash                       (* assert(arg->result == NULL) *)
  | None =>
      result ← strdup_or_null (bytes "disconnected");
      arg ← sb_sd_free_wait_for_job
        (mk_wait (wa_slot_job_removed arg) (wa_slot_disconnected arg) (wa_job_obj arg) result
           (- ECONNRESET) (wa_closed arg));
      mret (arg, true)
  end.

(** What the result of a job means. *)
Definition job_result_rc (result : cstr) : Z :=
  if decide (result = bytes "cancelled" ∨ result = bytes "collected") then - ECANCELED
  else if decide (result = bytes "timeout") then - ETIMEDOUT
  else if decide (result = bytes "dependency") then - EIO
  else if decide (result = bytes "invalid") then - ENOEXEC
  else if decide (result = bytes "assert") then - EPROTO
  else if decide (result = bytes "unsupported") then - EOPNOTSUPP
  else if decide (result = bytes "once") then - ESTALE
  else if decide (result = bytes "done" ∨ result = bytes "skipped") then 0
  else - EIO.

Definition sb_sd_wait_for_job_job_removed (m : option (cstr * cstr)) (arg : wait_arg)
  : sb (wait_arg * bool) :=
  match wa_result arg with
  | Some _ => Crash                       (* assert(arg->result == NULL) *)
  | None =>
      match wa_job_obj arg, m with
      | None, _ | _, None => mret (arg, false)
      | Some job_obj, Some (job_path, result) =>
          if decide (job_obj = job_path) then
            new_result ← strdup_or_null result;
            mret (mk_wait (wa_slot_job_removed arg) (wa_slot_disconnected arg) None new_result
                    (job_result_rc result) (wa_closed arg), true)
          else mret (arg, false)
      end
  end.

Definition job_callback (cb : job_cb) (arg : wait_arg) : sb (wait_arg * bool) :=
  match cb with
  | CbJobRemoved m => sb_sd_wait_for_job_job_removed m arg
  | CbDisconnected => sb_sd_wait_for_job_bus_disconnected arg
  end.

Fixpoint run_callbacks (cbs : list job_cb) (arg : wait_arg) : sb wait_arg :=
  match cbs with
  | [] => mret arg
  | cb :: cbs => '(arg, _) ← job_callback cb arg; run_callbacks cbs arg
  end.

(** [sb_sd_init_wait_for_job]. While it waits the match for JobRemoved may
    already be active, but [job_obj] is NULL and the callback does nothing;
    [sb_sd_wait_for_job_signal_match_installed] sets [rc] and the event: the
    answer is [None] for an interrupt, [Some None] for success and
    [Some (Some errno)] for a method error. *)
Definition sb_sd_init_wait_for_job : sb (Z * wait_arg) :=
  ask RefBus;;
  let arg := mk_wait None None None None 0 true in
  slot ← ask (MatchSignal (bytes "JobRemoved"));
  match slot with
  | inl rc => ask UnrefBus;; mret (rc, arg)
  | inr slot1 =>
      installed ← ask WaitInstalled;
      match installed with
      | None => ask (UnrefSlot slot1);; ask UnrefBus;; mret (- EINTR, arg)
      | Some e =>
          let arg_rc := match e with Some errno => - errno | None => 0 end in
          let arg := mk_wait (Some slot1) None None None arg_rc true in
          if arg_rc <? 0 then
            ask (UnrefSlot slot1);; ask UnrefBus;;
            mret (arg_rc, mk_wait None None None None arg_rc true)
          else
            slot ← ask (MatchSignal (bytes "Disconnected"));
            match slot with
            | inl rc =>
                ask (UnrefSlot slot1);; ask UnrefBus;;
                mret (rc, mk_wait None None None None arg_rc true)
            | inr slot2 => mret (0, mk_wait (Some slot1) (Some slot2) None None arg_rc false)
            end
      end
  end.

(** [sb_sd_wait_for_job] with a place for the result: the result code, the
    string, and the argument. *)
Definition sb_sd_wait_for_job (arg : wait_arg) (job_obj : cstr) : sb (Z * option str * wait_arg) :=
  if wa_closed arg then
    mret (wa_rc arg, wa_result arg,
      mk_wait (wa_slot_job_removed arg) (wa_slot_disconnected arg) (wa_job_obj arg) None (wa_rc arg) true)
  else
    let arg := mk_wait (wa_slot_job_removed arg) (wa_slot_disconnected arg) (Some job_obj)
                 (wa_result arg) (wa_rc arg) (wa_closed arg) in
    '(interrupted, cbs) ← ask (WaitJob job_obj);
    arg ← run_callbacks cbs arg;
    if (interrupted : bool) then
      new_result ← strdup_or_null (bytes "interrupt");
      arg ← sb_sd_free_wait_for_job arg;
      mret (- EINTR, new_result, arg)
    else
      mret (wa_rc arg, wa_result arg,
        mk_wait (wa_slot_job_removed arg) (wa_slot_disconnected arg) (wa_job_obj arg) None (wa_rc arg)
          (wa_closed arg)).

Definition free_opt (s : option str) : sb unit :=
  match s with Some s => ask (FreeStr s) | None => mret tt end.

(** ** Starting a scope *)

(** Calls in order until one fails. *)
Fixpoint until_error (qs : list (sb_io Z)) : sb Z :=
  match qs with
  | [] => mret 0
  | q :: qs => rc ← ask q; if rc <? 0 then mret rc else until_error qs
  end.

(** The body of the request: name and mode, properties, no auxiliary units. *)
Definition scope_request (m_req : Z) (scope_name slice : cstr) (pid : Z) (types : option cstr)
    (args : list barg) : list (sb_io Z) :=
  [Append m_req (bytes "ss") [AS scope_name; AS (bytes "fail")];
   OpenContainer m_req (bytes "(sv)");
   Append m_req (bytes "(sv)") [AS (bytes "CollectMode"); AS (bytes "s"); AS (bytes "inactive-or-failed")];
   Append m_req (bytes "(sv)") [AS (bytes "Slice"); AS (bytes "s"); AS slice];
   Append m_req (bytes "(sv)") [AS (bytes "PIDs"); AS (bytes "au"); AI 1; AU (u32 pid)]] ++
  match types with Some types => [Append m_req types args] | None => [] end ++
  [CloseContainer m_req;
   Append m_req (bytes "a(sa(sv))") [AI 0]].

(** From the job on: [m_res] is the reply to StartTransientUnit. *)
Definition scope_finish (m_res : Z) (scope_name : cstr) (arg : wait_arg) : sb (Z * option str * wait_arg) :=
  job_obj ← ask (ReadObject m_res);
  match job_obj with
  | inl rc => mret (rc, None, arg)
  | inr job_obj =>
      '(rc, job_result, arg) ← sb_sd_wait_for_job arg job_obj;
      arg ← sb_sd_free_wait_for_job arg;
      free_opt job_result;;
      if rc <? 0 then mret (rc, None, arg)
      else
        '(rc, msg) ← sb_bus_call_systemd_method (bytes "GetUnit") true (bytes "s") [AS scope_name];
        if rc <? 0 then mret (rc, None, arg)
        else
          match msg with
          | None => Crash
          | Some msg =>
              obj ← ask (ReadObject msg);
              match obj with
              | inl rc => ask (UnrefMsg msg);; mret (rc, None, arg)
              | inr obj =>
                  n ← ask (Strdup obj);
                  match n with
                  | inl rc => ask (UnrefMsg msg);; mret (rc, None, arg)
                  | inr n => ask (UnrefMsg msg);; mret (0, Some (mk_str n obj), arg)
                  end
              end
          end
  end.

Definition scope_start (scope_name slice : cstr) (pid : Z) (types : option cstr) (args : list barg)
    (arg : wait_arg) : sb (Z * option str * wait_arg) :=
  m_req ← ask (NewMethodCall bus_systemd_mgr (bytes "StartTransientUnit"));
  match m_req with
  | inl rc => mret (rc, None, arg)
  | inr m_req =>
      rc ← until_error (scope_request m_req scope_name slice pid types args);
      if rc <? 0 then ask (UnrefMsg m_req);; mret (rc, None, arg)
      else
        '(rc, m_res, arg) ← sb_bus_call_with (λ arg, cbs ← ask JobCallbacks; run_callbacks cbs arg) arg
                              m_req true 0;
        if rc <? 0 then ask (UnrefMsg m_req);; mret (rc, None, arg)
        else
          match m_res with
          | None => Crash
          | Some m_res =>
              r ← scope_finish m_res scope_name arg;
              ask (UnrefMsg m_res);;
              ask (UnrefMsg m_req);;
              mret r
          end
  end.

Definition scope_name_of (rnd : cstr) : cstr :=
  bytes "traffic-limitd-scope-" ++ rnd ++ bytes ".scope".

Definition scope_in_slice (slice : cstr) (pid : Z) (types : option cstr) (args : list barg)
  : sb (Z * option (str * str)) :=
  rnd ← ask Randomize;
  match rnd with
  | inl rc => mret (rc, None)
  | inr rnd =>
      n ← ask (Asprintf (scope_name_of rnd));
      match n with
      | inl rc => mret (rc, None)
      | inr n =>
          let scope_name := mk_str n (scope_name_of rnd) in
          '(rc, arg) ← sb_sd_init_wait_for_job;
          if rc <? 0 then ask (FreeStr scope_name);; mret (rc, None)
          else
            '(rc, obj, arg) ← scope_start (s_val scope_name) slice pid types args arg;
            sb_sd_free_wait_for_job arg;;
            match obj with
            | Some obj => mret (rc, Some (scope_name, obj))
            | None => ask (FreeStr scope_name);; mret (rc, None)
            end
      end
  end.

Definition start_transient_scope (pid : Z) (types : option cstr) (args : list barg)
  : sb (Z * option (str * str)) :=
  '(rc, unit_obj) ← sb_sd_GetUnitByPID pid;
  if rc <? 0 then mret (rc, None)
  else
    match unit_obj with
    | None => Crash
    | Some unit_obj =>
        '(rc, slice) ← sb_Unit_Get_subprop_string (s_val unit_obj) (bytes "Slice");
        if rc <? 0 then ask (FreeStr unit_obj);; mret (rc, None)
        else
          match slice with
          | None => Crash
          | Some slice =>
              r ← scope_in_slice (s_val slice) pid types args;
              ask (FreeStr slice);;
              ask (FreeStr unit_obj);;
              mret r
          end
    end.

(** ** Connecting *)

(** [initialize_sd_bus] for the results of sd_bus_default_system and
    sd_bus_attach_event: the result, and whether [daemon->sd_bus] is set and
    its reference held. *)
Definition initialize_sd_bus (default_rc attach_rc : Z) : Z * bool :=
  if default_rc <? 0 then (default_rc, false)
  else if attach_rc <? 0 then (attach_rc, false)
  else (0, true).
