(* ===== verification/SdBusInv.v ===== *)
(** * What calls to systemd hold and give back

    The ledger of resources of a trace, what libsystemd may answer, and a
    specification of every function of [SdBus]: its result and what it leaves
    held. *)

From S2P Require Import Prelude RateLimit Protocol Netlink Effects SdBus.

#[local] Open Scope Z_scope.

(** ** Resources *)

Inductive res : Type := RMsg (m : Z) | RSlot (s : Z) | RStr (n : Z) | RBus.

#[export] Instance res_eq : EqDecision res.
Proof. solve_decision. Defined.

Definition ind (a b : res) : Z := if decide (a = b) then 1 else 0.

Definition got (mk : Z → res) (a : Z + Z) (r : res) : Z :=
  match a with inr n => ind (mk n) r | inl _ => 0 end.

(** What one call adds to the resource [r]. *)
Definition delta1 (e : ev sb_io) (r : res) : Z :=
  match e with
  | Ev q b =>
      match q in sb_io T return T → Z with
      | NewMethodCall _ _ => λ a, got RMsg a r
      | CallAsync _ _ => λ a, got RSlot a r
      | MatchSignal _ => λ a, got RSlot a r
      | Strdup _ => λ a, got RStr a r
      | Asprintf _ => λ a, got RStr a r
      | RefMsg m => λ _, ind (RMsg m) r
      | UnrefMsg m => λ _, - ind (RMsg m) r
      | UnrefSlot s => λ _, - ind (RSlot s) r
      | FreeStr s => λ _, - ind (RStr (s_id s)) r
      | RefBus => λ _, ind RBus r
      | UnrefBus => λ _, - ind RBus r
      | _ => λ _, 0
      end b
  end.

(** How often [r] is held after a trace. *)
Fixpoint held (tr : list (ev sb_io)) (r : res) : Z :=
  match tr with [] => 0 | e :: tr => delta1 e r + held tr r end.

Lemma held_app l1 l2 r : held (l1 ++ l2) r = held l1 r + held l2 r.
Proof. induction l1 as [|e l1 IH]; cbn; [done|]. rewrite IH. lia. Qed.

(** ** What libsystemd may answer *)

(** Errors are negative. A wait ends without an interrupt exactly when a
    callback set the event: the main loop runs every coroutine that can run
    before it dispatches the next callback (src/main.c, [MainLoop]), so there
    is one such callback, the last, and none with an interrupt. *)
Definition is_err {A} (a : Z + A) : Prop := match a with inl rc => rc < 0 | inr _ => True end.

Definition quiet (job_obj : cstr) (cb : job_cb) : Prop :=
  match cb with CbJobRemoved (Some (p, _)) => p ≠ job_obj | CbJobRemoved None => True | CbDisconnected => False end.

Definition wakes (job_obj : cstr) (cb : job_cb) : Prop :=
  match cb with CbJobRemoved (Some (p, _)) => p = job_obj | CbJobRemoved None => False | CbDisconnected => True end.

Definition is_removed (cb : job_cb) : Prop := match cb with CbJobRemoved _ => True | _ => False end.

Definition sb_ok (B : Type) (q : sb_io B) : B → Prop :=
  match q in sb_io T return T → Prop with
  | NewMethodCall _ _ | CallAsync _ _ | MatchSignal _ | Strdup _ | Asprintf _ => is_err
  | ReadBasic _ _ | ReadObject _ | Randomize => is_err
  | WaitReply _ => λ '(interrupted, cb),
      match interrupted, cb with
      | true, None => True
      | false, Some (MethodError e) => 0 < e
      | false, Some (MethodReturn _) => True
      | _, _ => False
      end
  | WaitInstalled => λ a, match a with Some (Some e) => 0 < e | _ => True end
  | JobCallbacks => λ cbs, ∃ pre, Forall is_removed pre ∧ (cbs = pre ∨ cbs = pre ++ [CbDisconnected])
  | WaitJob job_obj => λ '(interrupted, cbs),
      if interrupted : bool then Forall (quiet job_obj) cbs
      else ∃ pre last, cbs = pre ++ [last] ∧ Forall (quiet job_obj) pre ∧ wakes job_obj last
  | _ => λ _, True
  end.

Abbreviation sbspec := (spec sb_ok).

(** ** Automation *)

(** One step of a program: its answers are taken apart, and impossible ones
    ruled out. *)
Ltac sb_step :=
  match goal with
  | |- spec _ (mret _) _ => apply spec_ret
  | |- spec _ (mret _ ≫= _) _ => apply spec_ret_bind
  | |- spec _ ((_ ≫= _) ≫= _) _ => apply spec_assoc
  | |- spec _ (ask _ ≫= _) _ =>
      apply spec_ask; let b := fresh "b" in let Hb := fresh "Hb" in
      intros b Hb; cbn in Hb;
      lazymatch type of b with
      | unit => destruct b
      | (_ + _)%type => destruct b as [?rc|?v]
      | (_ * _)%type => destruct b as [??]
      | _ => idtac
      end
  end; cbn [is_err] in *.

Ltac sb_steps := repeat sb_step.

(** Decide a test on a result whose sign is known. *)
Ltac sb_rc :=
  match goal with
  | |- context [?rc <? 0] =>
      first [rewrite (proj2 (Z.ltb_lt rc 0)) by lia | rewrite (proj2 (Z.ltb_ge rc 0)) by lia]
  end.

(** The ledger of a trace that is known. *)
Ltac ledger :=
  let r := fresh "r" in intros r;
  repeat match goal with H : ∀ r : res, _ |- _ => specialize (H r) end;
  repeat (cbn [held delta1 got app s_id] in * || rewrite held_app in * ); lia.

(** ** Method calls *)

(** The result of a call that gives a resource: an error and nothing, or
    success and one. *)
Definition gives {A} (mk : A → res) (l : list (ev sb_io)) (v : Z * option A) : Prop :=
  (v.1 < 0 ∧ v.2 = None ∧ ∀ r, held l r = 0) ∨
  (0 <= v.1 ∧ ∃ x, v.2 = Some x ∧ ∀ r, held l r = ind (mk x) r).

(** [s] is a part of the trace [l]. *)
Definition within (s l : list (ev sb_io)) : Prop := ∃ before behind, l = before ++ s ++ behind.

Lemma within_refl l : within l l.
Proof. exists [], []. by rewrite app_nil_r. Qed.
Lemma within_app_l s l k : within s l → within s (l ++ k).
Proof. intros (k1 & k2 & ->). exists k1, (k2 ++ k). by rewrite !(assoc_L (++)). Qed.
Lemma within_app_r s l k : within s l → within s (k ++ l).
Proof. intros (k1 & k2 & ->). exists (k ++ k1), k2. by rewrite !(assoc_L (++)). Qed.
Lemma within_cons s l e : within s l → within s (e :: l).
Proof. apply (within_app_r s l [e]). Qed.
Lemma within_trans s l l' : within s l → within l l' → within s l'.
Proof. intros Hs (k1 & k2 & ->). by apply within_app_r, within_app_l. Qed.
Lemma within_sub s l : within s l → s ⊆ l.
Proof. intros (k1 & k2 & ->). set_solver. Qed.

Create HintDb within.
#[local] Hint Resolve within_refl within_app_l within_app_r within_cons : within.

(** The message [m] was sent, and [rep] is the reply. *)
Definition sent (m usec rep : Z) (l : list (ev sb_io)) : Prop :=
  ∃ slot behind, l = Ev (CallAsync m usec) (inr slot) ::
    Ev (WaitReply slot) (false, Some (MethodReturn rep)) :: behind.

Lemma sent_app m usec rep l k : sent m usec rep l → sent m usec rep (l ++ k).
Proof. intros (slot & b & ->). by exists slot, (b ++ k). Qed.

Lemma sb_bus_call_with_spec {X} (meanwhile : X → sb X) (own : X → res → Z)
    (P : list (ev sb_io) → X → Prop) x m want usec :
  (∀ l l' x, l ⊆ l' → P l x → P l' x) → P [] x →
  sbspec (meanwhile x) (λ l x', P l x' ∧ ∀ r, held l r = own x' r - own x r) →
  sbspec (sb_bus_call_with meanwhile x m want usec) (λ l '(rc, rep, x'),
    P l x' ∧
    ((rc < 0 ∧ rep = None ∧ ∀ r, held l r = own x' r - own x r) ∨
     (rc = 0 ∧ want = false ∧ rep = None ∧ ∀ r, held l r = own x' r - own x r) ∨
     (rc = 0 ∧ want = true ∧ ∃ m', rep = Some m' ∧ sent m usec m' l ∧
       ∀ r, held l r = own x' r - own x r + ind (RMsg m') r))).
Proof.
  intros Hmono HP Hmw. unfold sb_bus_call_with. sb_step.
  { sb_steps. split; [by eapply Hmono; [|exact HP]; set_solver|]. left. split_and!; [done|done|]. ledger. }
  sb_step. eapply spec_bind; [exact Hmw|]. intros l1 x1 [HP1 H1].
  destruct b as [|], o as [[e|m']|]; try done; cbn [sb_bus_call_cb ca_result]; sb_steps;
    cbn [ca_error ca_result].
  - split; [by eapply Hmono; [|exact HP1]; set_solver|]. left. split_and!; [done|done|]. ledger.
  - sb_rc. sb_steps. split; [by eapply Hmono; [|exact HP1]; set_solver|].
    left. split_and!; [lia|done|]. ledger.
  - sb_rc. destruct want; sb_steps; (split; [by eapply Hmono; [|exact HP1]; set_solver|]); right.
    + right. split_and!; [done|done|]. exists m'. split; [done|]. split; [by eexists _, _|]. ledger.
    + left. split_and!; [done|done|done|]. ledger.
Qed.

(** A call that wants the reply gives a message, the reply. *)
Lemma sb_bus_call_spec m usec :
  sbspec (sb_bus_call m true usec) (λ l v, gives RMsg l v ∧ ∀ x, v.2 = Some x → sent m usec x l).
Proof.
  unfold sb_bus_call. eapply spec_bind.
  { apply (sb_bus_call_with_spec mret (λ _ _, 0) (λ _ _, True)); [done|done|].
    sb_steps. split; [done|]. ledger. }
  intros l [[rc rep] []] [_ H]. sb_steps. cbn in H.
  destruct H as [(? & -> & H)|[(_ & [=] & _)|(-> & _ & m' & -> & Hs & H)]].
  - split; [|done]. left. split_and!; [done|done|]. ledger.
  - split; [|intros x [= <-]; by apply sent_app]. right. split; [done|]. exists m'. split; [done|]. ledger.
Qed.

(** A call that does not want it gives nothing. *)
Lemma sb_bus_call_nothing_spec m usec :
  sbspec (sb_bus_call m false usec) (λ l '(rc, rep), rc <= 0 ∧ rep = None ∧ ∀ r, held l r = 0).
Proof.
  unfold sb_bus_call. eapply spec_bind.
  { apply (sb_bus_call_with_spec mret (λ _ _, 0) (λ _ _, True)); [done|done|].
    sb_steps. split; [done|]. ledger. }
  intros l [[rc rep] []] [_ H]. sb_steps. cbn in H.
  destruct H as [(? & -> & H)|[(-> & _ & -> & H)|(_ & [=] & _)]]; split_and!; try lia; try done; ledger.
Qed.

(** The call [member] of [loc] was made with these arguments, and [rep] is the
    reply to it. *)
Definition call_made (loc : bus_locator) (member types : cstr) (args : list barg) (rep : Z)
    (l : list (ev sb_io)) : Prop :=
  ∃ m rc l1, 0 <= rc ∧ sent m 0 rep l1 ∧
    within (Ev (NewMethodCall loc member) (inr m) :: Ev (Append m types args) rc :: l1) l.

Lemma call_made_mono loc member types args rep l l' :
  within l l' → call_made loc member types args rep l → call_made loc member types args rep l'.
Proof. intros Hl (m & rc & l1 & H1 & H2 & H3). exists m, rc, l1. split_and!; [done..|by eapply within_trans]. Qed.

Lemma sb_bus_call_methodv_called loc member types args :
  types ≠ [] →
  sbspec (sb_bus_call_methodv loc member true types args)
    (λ l v, gives RMsg l v ∧ ∀ x, v.2 = Some x → call_made loc member types args x l).
Proof.
  intros Ht. unfold sb_bus_call_methodv. sb_step.
  { sb_steps. split; [|done]. left. split_and!; [done|done|]. ledger. }
  rewrite decide_False by done. sb_step. destruct (Z.ltb_spec b 0) as [Hrc|Hrc].
  { sb_steps. split; [|done]. left. split_and!; [done|done|]. ledger. }
  eapply spec_bind; [apply sb_bus_call_spec|]. intros l2 [rc2 rep] [[(H & Hn & H2)|(H & m' & Hs & H2)] Hsent];
    cbn in H, Hn || cbn in H, Hs; subst rep; sb_steps.
  - split; [|done]. left. split_and!; [done|done|]. ledger.
  - split; [right; split; [done|]; exists m'; split; [done|]; ledger|]. intros x [= <-].
    exists v, b, (l2 ++ [Ev (UnrefMsg v) tt]). split_and!; [done|by apply sent_app, Hsent|apply within_refl].
Qed.

Lemma sb_bus_call_methodv_spec loc member types args :
  types ≠ [] → sbspec (sb_bus_call_methodv loc member true types args) (gives RMsg).
Proof. intros Ht. eapply spec_mono; [by apply sb_bus_call_methodv_called|]. by intros l v [H _]. Qed.

(** The same without a reply, as the daemon kills a scope. *)
Lemma sb_bus_call_unit_method_spec unit_path member types args :
  sbspec (sb_bus_call_unit_method unit_path member false types args)
    (λ l '(rc, rep), rep = None ∧ ∀ r, held l r = 0).
Proof.
  unfold sb_bus_call_unit_method, sb_bus_call_methodv. sb_step; [sb_steps; split; [done|ledger]|].
  eapply (spec_bind _ _ _ (λ l rc, ∀ r, held l r = 0)).
  { case_decide; [sb_steps; ledger|]. apply spec_ask_last. intros rc _. ledger. }
  intros l1 rc H1. destruct (rc <? 0); [sb_steps; split; [done|ledger]|].
  eapply spec_bind; [apply sb_bus_call_nothing_spec|]. intros l2 [rc2 rep] (_ & -> & H2).
  sb_steps. split; [done|ledger].
Qed.

(** Take apart what a call gave. *)
Ltac gave H :=
  let Hn := fresh "Hn" in
  destruct H as [(?H & Hn & ?H)|(?H & ?x & Hn & ?H)]; cbn [fst snd] in *; subst; cbn [fst snd] in *.

(** The value of the property [member] of an object was asked for, and [rep] is
    the reply. *)
Definition property_asked (dest obj iface member : cstr) (rep : Z) (l : list (ev sb_io)) : Prop :=
  call_made (mk_locator dest obj (bytes "org.freedesktop.DBus.Properties")) (bytes "Get") (bytes "ss")
    [AS iface; AS member] rep l.

Lemma sb_bus_get_property_asked loc member type :
  sbspec (sb_bus_get_property loc member type) (λ l v, gives RMsg l v ∧
    ∀ x, v.2 = Some x → property_asked (destination loc) (path loc) (interface loc) member x l).
Proof.
  unfold sb_bus_get_property, sb_bus_call_method.
  eapply spec_bind; [by apply sb_bus_call_methodv_called|]. intros l1 [rc rep] [H1 Hc]. gave H1; sb_rc.
  { sb_steps. split; [|done]. left. split_and!; [done|done|]. ledger. }
  sb_step. destruct (Z.ltb_spec b 0); sb_steps.
  - split; [|done]. left. split_and!; [done|done|]. ledger.
  - split; [right; split; [done|]; eexists; split; [done|]; ledger|]. intros y [= <-].
    eapply call_made_mono; [|by apply Hc]. auto with within.
Qed.

Lemma sb_bus_get_property_spec loc member type :
  sbspec (sb_bus_get_property loc member type) (gives RMsg).
Proof. eapply spec_mono; [apply sb_bus_get_property_asked|]. by intros l v [H _]. Qed.

(** The string of a message that is held: the message is given back. *)
Lemma dup_string_of_spec rep :
  sbspec (dup_string_of rep) (λ l v,
    (v.1 < 0 ∧ v.2 = None ∧ ∀ r, held l r = - ind (RMsg rep) r) ∨
    (v.1 = 0 ∧ ∃ s, v.2 = Some s ∧ Ev (ReadBasic rep (bytes "s")) (inr (s_val s)) ∈ l ∧
      ∀ r, held l r = ind (RStr (s_id s)) r - ind (RMsg rep) r)).
Proof.
  unfold dup_string_of. sb_step; [sb_steps; left; split_and!; [done|done|ledger]|].
  sb_step; [sb_steps; left; split_and!; [done|done|ledger]|].
  sb_steps. right. split; [done|]. eexists. split; [done|]. split; [left|]. ledger.
Qed.

(** The string [s] was read from a message of which [asked] holds. *)
Definition read_from (asked : Z → list (ev sb_io) → Prop) (s : cstr) (l : list (ev sb_io)) : Prop :=
  ∃ rep, asked rep l ∧ Ev (ReadBasic rep (bytes "s")) (inr s) ∈ l.

Lemma string_of_property (p : sb (Z * option Z)) (asked : Z → list (ev sb_io) → Prop) :
  (∀ rep l l', within l l' → asked rep l → asked rep l') →
  sbspec p (λ l v, gives RMsg l v ∧ ∀ x, v.2 = Some x → asked x l) →
  sbspec ('(rc, rep) ← p; if rc <? 0 then mret (rc, None)
          else match rep with None => Crash | Some rep => dup_string_of rep end)
    (λ l v, gives (λ s, RStr (s_id s)) l v ∧ ∀ s, v.2 = Some s → read_from asked (s_val s) l).
Proof.
  intros Hmono Hp. eapply spec_bind; [exact Hp|]. intros l1 [rc rep] [H1 Ha]. gave H1; sb_rc.
  { sb_steps. split; [|done]. left. split_and!; [done|done|]. ledger. }
  eapply spec_mono; [apply dup_string_of_spec|].
  intros l2 [rc2 so] [(H3 & Hn & H4)|(H3 & s & Hn & Hread & H4)]; cbn [fst snd] in *; subst.
  - split; [|done]. left. split_and!; [done|done|]. ledger.
  - split; [right; split; [done|]; exists s; split; [done|]; ledger|]. intros s' [= <-].
    exists x. split; [|set_solver]. eapply Hmono; [|by apply Ha]. auto with within.
Qed.

Lemma property_asked_mono dest obj iface member rep l l' :
  within l l' → property_asked dest obj iface member rep l → property_asked dest obj iface member rep l'.
Proof. apply call_made_mono. Qed.

Lemma sb_bus_get_property_string_read loc member :
  sbspec (sb_bus_get_property_string loc member) (λ l v, gives (λ s, RStr (s_id s)) l v ∧
    ∀ s, v.2 = Some s →
      read_from (property_asked (destination loc) (path loc) (interface loc) member) (s_val s) l).
Proof.
  apply string_of_property; [intros rep l l'; apply property_asked_mono|apply sb_bus_get_property_asked].
Qed.

Lemma sb_bus_get_property_trivial_spec loc member type :
  sbspec (sb_bus_get_property_trivial loc member type) (λ l _, ∀ r, held l r = 0).
Proof.
  unfold sb_bus_get_property_trivial. eapply spec_bind; [apply sb_bus_get_property_spec|].
  intros l1 [rc rep] H1. gave H1; sb_rc; [sb_steps; ledger|]. sb_step; sb_steps; ledger.
Qed.

(** ** The interface of a unit's kind *)

Lemma find_kind_last pre post n :
  DOT ∉ post → (length pre < n)%nat → (n <= length (pre ++ DOT :: post))%nat →
  find_kind n (pre ++ DOT :: post) = Some (S (length pre)).
Proof.
  intros Hp. induction n as [|n IH]; intros H1 H2; [lia|]. cbn [find_kind].
  destruct (decide (n = length pre)) as [->|Hne].
  - rewrite list_lookup_middle by done. by rewrite decide_True.
  - rewrite decide_False; [apply IH; lia|]. rewrite lookup_app_r by lia.
    destruct (n - length pre)%nat as [|m] eqn:E; [lia|]. cbn. intros Hm. apply Hp.
    by eapply list_elem_of_lookup_2.
Qed.

Lemma find_kind_none s n : DOT ∉ s → find_kind n s = None.
Proof.
  intros Hs. induction n as [|n IH]; [done|]. cbn [find_kind]. rewrite decide_False; [done|].
  intros H. apply Hs. by eapply list_elem_of_lookup_2.
Qed.

(** The last dot of a name. *)
Lemma split_last_dot (s : cstr) : DOT ∉ s ∨ ∃ pre post, s = pre ++ DOT :: post ∧ DOT ∉ post.
Proof.
  induction s as [|c s [IH|(pre & post & -> & IH)]]; [left; apply not_elem_of_nil| |].
  - destruct (decide (c = DOT)) as [->|Hc]; [right; by exists [], s|left].
    by apply not_elem_of_cons.
  - right. by exists (c :: pre), post.
Qed.

Lemma subprop_interface_spec pre post :
  DOT ∉ post →
  subprop_interface (pre ++ DOT :: post) =
  match post with
  | [] => inl (- EINVAL)
  | c :: rest => inr (S (length pre), SD_INTERFACE_NAME ++ toupper c :: rest)
  end.
Proof.
  intros Hp. unfold subprop_interface. rewrite length_app. cbn [length].
  assert ((length pre + S (length post) <? 1)%nat = false) as -> by (apply Nat.ltb_ge; lia).
  rewrite find_kind_last by (done || rewrite ?length_app; simpl; lia).
  replace (drop (S (length pre)) (pre ++ DOT :: post)) with post; [by destruct post|].
  change (pre ++ DOT :: post) with (pre ++ [DOT] ++ post). rewrite (assoc_L (++)).
  rewrite drop_app_length'; [done|]. rewrite length_app. simpl. lia.
Qed.

Lemma subprop_interface_fits s k buf :
  subprop_interface s = inr (k, buf) → Z.of_nat (length buf) + 1 <= interface_buf_size s k.
Proof.
  destruct (split_last_dot s) as [Hs|(pre & post & -> & Hp)].
  - unfold subprop_interface. destruct (_ <? _)%nat; [done|]. by rewrite find_kind_none.
  - rewrite subprop_interface_spec by done. destruct post as [|c rest]; [done|]. intros Heq.
    assert (k = S (length pre) ∧ buf = SD_INTERFACE_NAME ++ toupper c :: rest) as [-> ->]
      by (split; congruence).
    unfold interface_buf_size. rewrite !length_app, !length_cons. lia.
Qed.

(** A property of a unit, of the interface every unit has. *)
Definition SYSTEMD : cstr := bytes "org.freedesktop.systemd1".

Definition id_of (unit_obj id : cstr) (l : list (ev sb_io)) : Prop :=
  read_from (property_asked SYSTEMD unit_obj (bytes "org.freedesktop.systemd1.Unit") (bytes "Id")) id l.

Lemma read_from_mono asked s l l' :
  (∀ rep l l', within l l' → asked rep l → asked rep l') →
  within l l' → read_from asked s l → read_from asked s l'.
Proof.
  intros Hm Hl (rep & H1 & H2). exists rep. split; [by eapply Hm|]. by eapply within_sub.
Qed.

Lemma id_of_mono unit_obj id l l' : within l l' → id_of unit_obj id l → id_of unit_obj id l'.
Proof. apply read_from_mono. intros rep k k'. apply property_asked_mono. Qed.

Lemma sb_sd_Unit_Get_Id_read unit_obj :
  sbspec (sb_sd_Unit_Get_Id unit_obj) (λ l v, gives (λ s, RStr (s_id s)) l v ∧
    ∀ s, v.2 = Some s → id_of unit_obj (s_val s) l).
Proof. apply sb_bus_get_property_string_read. Qed.

Lemma sb_sd_Unit_Get_Id_spec unit_obj :
  sbspec (sb_sd_Unit_Get_Id unit_obj) (gives (λ s, RStr (s_id s))).
Proof. eapply spec_mono; [apply sb_sd_Unit_Get_Id_read|]. by intros l v [H _]. Qed.

Lemma subprop_interface_err s rc : subprop_interface s = inl rc → rc = - EINVAL.
Proof. unfold subprop_interface. repeat case_match; congruence. Qed.

(** The interface of a unit's kind, as its name has it after the last dot. *)
Definition kind_interface (id iface : cstr) : Prop :=
  ∃ pre c rest, id = pre ++ DOT :: c :: rest ∧ (DOT ∉ c :: rest) ∧
    iface = bytes "org.freedesktop.systemd1." ++ toupper c :: rest.

Lemma subprop_interface_kind s k buf : subprop_interface s = inr (k, buf) → kind_interface s buf.
Proof.
  destruct (split_last_dot s) as [Hs|(pre & post & -> & Hp)].
  - unfold subprop_interface. destruct (_ <? _)%nat; [done|]. by rewrite find_kind_none.
  - rewrite subprop_interface_spec by done. destruct post as [|c rest]; [done|]. intros Heq.
    exists pre, c, rest. split_and!; [done|done|]. change (bytes "org.freedesktop.systemd1.") with SD_INTERFACE_NAME.
    congruence.
Qed.

(** The property [member] of the kind of the unit was asked for. *)
Definition subprop_asked (unit_obj member : cstr) (rep : Z) (l : list (ev sb_io)) : Prop :=
  ∃ id iface, id_of unit_obj id l ∧ kind_interface id iface ∧
    property_asked SYSTEMD unit_obj iface member rep l.

Lemma subprop_asked_mono unit_obj member rep l l' :
  within l l' → subprop_asked unit_obj member rep l → subprop_asked unit_obj member rep l'.
Proof.
  intros Hl (id & iface & H1 & H2 & H3). exists id, iface.
  split_and!; [by eapply id_of_mono|done|by eapply property_asked_mono].
Qed.

Lemma sb_sd_Unit_Get_subprop_spec unit_obj member type :
  sbspec (sb_sd_Unit_Get_subprop unit_obj member type) (λ l v, gives RMsg l v ∧
    ∀ x, v.2 = Some x → subprop_asked unit_obj member x l).
Proof.
  unfold sb_sd_Unit_Get_subprop. eapply spec_bind; [apply sb_sd_Unit_Get_Id_read|].
  intros l1 [rc u] [H1 Hid]. gave H1; sb_rc; [sb_steps; split; [left; split_and!; [done|done|ledger]|done]|].
  destruct (subprop_interface (s_val x)) as [e|[k buf]] eqn:E.
  - sb_steps. split; [|done]. left. cbn. apply subprop_interface_err in E as ->. split_and!; [done|done|ledger].
  - pose proof (subprop_interface_fits _ _ _ E). rewrite (proj2 (Z.ltb_ge _ _)) by done.
    eapply spec_bind; [apply sb_bus_get_property_asked|]. intros l2 [rc2 rep] [H2 Hp].
    gave H2; sb_steps; sb_rc; sb_steps.
    + split; [|done]. left. split_and!; [done|done|ledger].
    + split; [right; split; [done|]; eexists; split; [done|]; ledger|]. intros y [= <-].
      exists (s_val x), buf. split_and!; [|by eapply subprop_interface_kind|].
      * eapply id_of_mono; [|by apply Hid]. auto with within.
      * eapply property_asked_mono; [|by apply Hp]. auto with within.
Qed.

Lemma sb_Unit_Get_subprop_string_read unit_obj member :
  sbspec (sb_Unit_Get_subprop_string unit_obj member) (λ l v, gives (λ s, RStr (s_id s)) l v ∧
    ∀ s, v.2 = Some s → read_from (subprop_asked unit_obj member) (s_val s) l).
Proof.
  apply string_of_property; [intros rep l l'; apply subprop_asked_mono|apply sb_sd_Unit_Get_subprop_spec].
Qed.

Lemma sb_Unit_Get_subprop_string_spec unit_obj member :
  sbspec (sb_Unit_Get_subprop_string unit_obj member) (gives (λ s, RStr (s_id s))).
Proof. eapply spec_mono; [apply sb_Unit_Get_subprop_string_read|]. by intros l v [H _]. Qed.

(** systemd named the unit [unit_obj] for the process [pid]. *)
Definition unit_of (pid : Z) (unit_obj : cstr) (l : list (ev sb_io)) : Prop :=
  ∃ rep, call_made (mk_locator SYSTEMD (bytes "/org/freedesktop/systemd1")
      (bytes "org.freedesktop.systemd1.Manager")) (bytes "GetUnitByPID") (bytes "u") [AU pid] rep l ∧
    Ev (ReadObject rep) (inr unit_obj) ∈ l.

Lemma unit_of_mono pid unit_obj l l' : within l l' → unit_of pid unit_obj l → unit_of pid unit_obj l'.
Proof.
  intros Hl (rep & H1 & H2). exists rep. split; [by eapply call_made_mono|]. by eapply within_sub.
Qed.

Lemma sb_sd_GetUnitByPID_read pid :
  sbspec (sb_sd_GetUnitByPID pid) (λ l v, gives (λ s, RStr (s_id s)) l v ∧
    ∀ s, v.2 = Some s → unit_of pid (s_val s) l).
Proof.
  unfold sb_sd_GetUnitByPID, sb_bus_call_systemd_method.
  eapply spec_bind; [by apply sb_bus_call_methodv_called|]. intros l1 [rc m] [H1 Hc].
  gave H1; sb_rc; [sb_steps; split; [left; split_and!; [done|done|ledger]|done]|].
  sb_step; [sb_steps; split; [left; split_and!; [done|done|ledger]|done]|].
  sb_step; [sb_steps; split; [left; split_and!; [done|done|ledger]|done]|].
  sb_steps. split; [right; split; [done|]; eexists; split; [done|]; ledger|]. intros s [= <-].
  exists x. split; [|set_solver]. eapply call_made_mono; [|by apply Hc]. auto with within.
Qed.

Lemma sb_sd_GetUnitByPID_spec pid :
  sbspec (sb_sd_GetUnitByPID pid) (gives (λ s, RStr (s_id s))).
Proof. eapply spec_mono; [apply sb_sd_GetUnitByPID_read|]. by intros l v [H _]. Qed.

Lemma get_self_unit_name_spec self_pid :
  sbspec (get_self_unit_name self_pid) (gives (λ s, RStr (s_id s))).
Proof.
  unfold get_self_unit_name. eapply spec_bind; [apply sb_sd_GetUnitByPID_spec|]. intros l1 [rc u] H1.
  gave H1; sb_rc; [sb_steps; left; split_and!; [done|done|ledger]|].
  eapply spec_bind; [apply sb_sd_Unit_Get_Id_spec|]. intros l2 [rc2 n] H2.
  gave H2; sb_rc; sb_steps.
  - left. split_and!; [done|done|ledger].
  - right. split; [done|]. eexists. split; [done|]. ledger.
Qed.

(** ** Waiting for a job *)

Definition opt_ind {A} (mk : A → res) (o : option A) (r : res) : Z :=
  match o with Some x => ind (mk x) r | None => 0 end.

Abbreviation RString := (λ s : str, RStr (s_id s)).

(** What the argument of a wait owns. *)
Definition wa_own (arg : wait_arg) (r : res) : Z :=
  opt_ind RSlot (wa_slot_job_removed arg) r + opt_ind RSlot (wa_slot_disconnected arg) r +
  opt_ind RString (wa_result arg) r + (if wa_closed arg then 0 else ind RBus r).

(** A closed argument has no slots. *)
Definition wa_ok (arg : wait_arg) : Prop :=
  wa_closed arg = true → wa_slot_job_removed arg = None ∧ wa_slot_disconnected arg = None.

(** Nothing has happened yet, or the bus was lost. *)
Definition wa_fresh (arg : wait_arg) : Prop :=
  wa_closed arg = false ∧ wa_result arg = None ∧ wa_job_obj arg = None.
Definition wa_lost (arg : wait_arg) : Prop := wa_closed arg = true ∧ wa_rc arg = - ECONNRESET.

(** The ledger with what an argument owns. *)
Ltac wa_ledger :=
  let r := fresh "r" in intros r;
  repeat match goal with H : ∀ r : res, _ |- _ => specialize (H r) end;
  unfold wa_own in *;
  repeat (cbn [held delta1 got app s_id wa_slot_job_removed wa_slot_disconnected wa_job_obj wa_result
    wa_rc wa_closed opt_ind] in * || rewrite held_app in * ); lia.

Lemma free_wait_spec arg :
  wa_ok arg →
  sbspec (sb_sd_free_wait_for_job arg) (λ l arg',
    wa_ok arg' ∧ wa_closed arg' = true ∧ wa_result arg' = wa_result arg ∧ wa_rc arg' = wa_rc arg ∧
    ∀ r, held l r = wa_own arg' r - wa_own arg r).
Proof.
  intros Hok. destruct arg as [s1 s2 j res rc c]. unfold sb_sd_free_wait_for_job.
  cbn [wa_slot_job_removed wa_slot_disconnected wa_job_obj wa_result wa_rc wa_closed]. destruct c.
  - sb_steps. split_and!; try done. wa_ledger.
  - destruct s1, s2; sb_steps; (split_and!; [by intros _|done|done|done|wa_ledger]).
Qed.

Lemma strdup_or_null_spec s :
  sbspec (strdup_or_null s) (λ l o, ∀ r, held l r = opt_ind RString o r).
Proof. unfold strdup_or_null. sb_steps; wa_ledger. Qed.

(** Signals about other jobs do nothing. *)
Lemma run_callbacks_quiet cbs rest arg job :
  wa_result arg = None → wa_job_obj arg = Some job → Forall (quiet job) cbs →
  run_callbacks (cbs ++ rest) arg = run_callbacks rest arg.
Proof.
  intros Hr Hj Hq. induction Hq as [|cb cbs Hcb _ IH]; [done|]. cbn [run_callbacks app].
  destruct cb as [[[p r]|]|]; cbn in Hcb; cbn [job_callback]; unfold sb_sd_wait_for_job_job_removed;
    rewrite ?Hr, ?Hj; [rewrite decide_False by done; exact IH|exact IH|done].
Qed.

(** Before the job is known, no JobRemoved does anything. *)
Lemma run_callbacks_early cbs rest arg :
  wa_result arg = None → wa_job_obj arg = None → Forall is_removed cbs →
  run_callbacks (cbs ++ rest) arg = run_callbacks rest arg.
Proof.
  intros Hr Hj Hq. induction Hq as [|cb cbs Hcb _ IH]; [done|]. cbn [run_callbacks app].
  destruct cb as [m|]; [|done]. cbn [job_callback]. unfold sb_sd_wait_for_job_job_removed.
  rewrite Hr, Hj. exact IH.
Qed.

Lemma disconnected_spec arg :
  wa_result arg = None → wa_ok arg →
  sbspec (sb_sd_wait_for_job_bus_disconnected arg) (λ l '(arg', woke),
    woke = true ∧ wa_ok arg' ∧ wa_lost arg' ∧ ∀ r, held l r = wa_own arg' r - wa_own arg r).
Proof.
  intros Hr Hok. unfold sb_sd_wait_for_job_bus_disconnected. rewrite Hr.
  eapply spec_bind; [apply strdup_or_null_spec|]. intros l1 o H1.
  eapply spec_bind; [apply free_wait_spec; exact Hok|]. intros l2 arg' (Hok' & Hc & _ & Hrc & H2).
  sb_steps. split_and!; [done|done|by split|].
  destruct arg as [s1 s2 j rs rc c]. cbn in Hr. subst rs. wa_ledger.
Qed.

(** The bus was lost while the reply to StartTransientUnit was awaited. *)
Definition lost_early (l : list (ev sb_io)) : Prop :=
  ∃ cbs, Ev JobCallbacks cbs ∈ l ∧ CbDisconnected ∈ cbs.

(** What can happen to the argument while the reply to StartTransientUnit is
    awaited. *)
Lemma early_callbacks_spec arg :
  wa_fresh arg → wa_ok arg →
  sbspec (cbs ← ask JobCallbacks; run_callbacks cbs arg) (λ l arg',
    (wa_ok arg' ∧ (wa_fresh arg' ∨ wa_lost arg' ∧ lost_early l)) ∧
    ∀ r, held l r = wa_own arg' r - wa_own arg r).
Proof.
  intros (Hc & Hr & Hj) Hok. apply spec_ask. intros cbs (pre & Hpre & [->| ->]).
  - rewrite <-(app_nil_r pre), run_callbacks_early by done. cbn [run_callbacks]. sb_steps.
    split; [split; [done|left; done]|]. wa_ledger.
  - rewrite run_callbacks_early by done. cbn [run_callbacks job_callback].
    eapply spec_bind; [by apply disconnected_spec|]. intros l [arg' woke] (_ & Hok' & Hl & H).
    sb_steps. split; [split; [done|right; split; [done|]]|wa_ledger].
    exists (pre ++ [CbDisconnected]). set_solver.
Qed.

Lemma job_result_rc_neg s : job_result_rc s <= 0.
Proof. unfold job_result_rc. repeat case_decide; vm_compute; congruence. Qed.

(** The wait for the job: success only if the job was removed with a good
    result. *)
Lemma wait_for_job_spec arg job :
  wa_ok arg → wa_fresh arg ∨ wa_lost arg →
  sbspec (sb_sd_wait_for_job arg job) (λ l '(rc, res, arg'),
    rc <= 0 ∧ wa_ok arg' ∧ wa_result arg' = None ∧
    (∀ r, held l r = wa_own arg' r + opt_ind RString res r - wa_own arg r) ∧
    (rc = 0 → ∃ pre result, Ev (WaitJob job) (false, pre ++ [CbJobRemoved (Some (job, result))]) ∈ l ∧
      job_result_rc result = 0)).
Proof.
  intros Hok Harg. unfold sb_sd_wait_for_job. destruct (wa_closed arg) eqn:Hc.
  { destruct Harg as [[? _]|[_ Hrc]]; [congruence|]. sb_steps. destruct (Hok Hc) as [H1 H2].
    rewrite Hrc. split_and!; [done|done|done| |done].
    destruct arg as [s1 s2 j rs rc c]. cbn in H1, H2, Hc. subst. wa_ledger. }
  destruct Harg as [(_ & Hr & Hj)|[? _]]; [|congruence]. destruct arg as [s1 s2 j res rc c].
  cbn [wa_slot_job_removed wa_slot_disconnected wa_job_obj wa_result wa_rc wa_closed] in *. subst.
  apply spec_ask. intros [[|] cbs] Hcbs; cbn in Hcbs.
  - rewrite <-(app_nil_r cbs), (run_callbacks_quiet _ _ _ job) by done. cbn [run_callbacks]. sb_step.
    eapply spec_bind; [apply strdup_or_null_spec|]. intros l1 o H1.
    eapply spec_bind; [by apply free_wait_spec|]. intros l2 arg' (Hok' & Hc' & Hres & _ & H2). sb_steps.
    split_and!; [done|done|by rewrite Hres|wa_ledger|done].
  - destruct Hcbs as (pre & last & -> & Hq & Hlast). rewrite (run_callbacks_quiet _ _ _ job) by done.
    cbn [run_callbacks]. destruct last as [[[p result]|]|]; cbn in Hlast; [subst p|done|]; cbn [job_callback].
    + unfold sb_sd_wait_for_job_job_removed.
      cbn [wa_slot_job_removed wa_slot_disconnected wa_job_obj wa_result wa_rc wa_closed].
      rewrite decide_True by done. sb_step. sb_step. eapply spec_bind; [apply strdup_or_null_spec|].
      intros l1 o H1. sb_steps.
      cbn [wa_slot_job_removed wa_slot_disconnected wa_job_obj wa_result wa_rc wa_closed].
      split_and!; [apply job_result_rc_neg|done|done|wa_ledger|]. intros Hz. exists pre, result.
      split; [set_solver|done].
    + apply spec_assoc. eapply spec_bind; [by apply disconnected_spec|].
      intros l [arg' w] (_ & Hok' & [Hc' Hrc'] & H). sb_steps. rewrite Hrc'.
      split_and!; [done|done|done| |done]. destruct arg' as [s1' s2' j' rs' rc' c']. cbn in Hc'. subst. wa_ledger.
Qed.

Lemma init_wait_spec :
  sbspec sb_sd_init_wait_for_job (λ l '(rc, arg),
    (rc < 0 ∧ ∀ r, held l r = 0) ∨
    (rc = 0 ∧ wa_ok arg ∧ wa_fresh arg ∧ ∀ r, held l r = wa_own arg r)).
Proof.
  unfold sb_sd_init_wait_for_job. sb_step. sb_step; [sb_steps; left; split; [done|ledger]|].
  apply spec_ask. intros [[e|]|] He; cbn in He.
  - sb_rc. sb_steps. left. split; [lia|ledger].
  - sb_rc. sb_step; [sb_steps; left; split; [done|ledger]|].
    sb_steps. right. split_and!; [done|done|by split|wa_ledger].
  - sb_steps. left. split; [done|ledger].
Qed.

(** ** Starting a scope *)

(** The calls [qs] were made in this order, and all succeeded. *)
Definition all_done (qs : list (sb_io Z)) (l : list (ev sb_io)) : Prop :=
  Forall2 (λ q e, ∃ b, 0 <= b ∧ e = Ev q b) qs l.

Lemma until_error_spec qs :
  Forall (λ q, ∀ b r, delta1 (Ev q b) r = 0) qs →
  sbspec (until_error qs) (λ l rc, (∀ r, held l r = 0) ∧ (0 <= rc → all_done qs l)).
Proof.
  induction 1 as [|q qs Hq _ IH]; cbn [until_error].
  - sb_steps. split; [done|]. intros _. constructor.
  - apply spec_ask. intros b Hb. destruct (Z.ltb_spec b 0) as [Hneg|Hpos].
    + sb_steps. split; [|lia]. intros r. cbn [held]. by rewrite Hq.
    + eapply spec_mono; [exact IH|]. intros l rc [H1 H2]. split.
      * intros r. cbn [held]. by rewrite Hq, H1.
      * intros Hrc. constructor; [by exists b|by apply H2].
Qed.

Lemma scope_request_neutral m_req scope_name slice pid types args :
  Forall (λ q, ∀ b r, delta1 (Ev q b) r = 0) (scope_request m_req scope_name slice pid types args).
Proof. unfold scope_request. destruct types; repeat constructor. Qed.

(** systemd's own object. *)
Definition MANAGER : bus_locator :=
  mk_locator SYSTEMD (bytes "/org/freedesktop/systemd1") (bytes "org.freedesktop.systemd1.Manager").

(** The job of the reply [m_res] was awaited and ended well, and [obj] is the
    object systemd then gave for the scope's name. *)
Definition job_done (m_res : Z) (scope_name : cstr) (obj : str) (l : list (ev sb_io)) : Prop :=
  ∃ job pre result msg,
    Ev (ReadObject m_res) (inr job) ∈ l ∧
    Ev (WaitJob job) (false, pre ++ [CbJobRemoved (Some (job, result))]) ∈ l ∧
    (result = bytes "done" ∨ result = bytes "skipped") ∧
    call_made MANAGER (bytes "GetUnit") (bytes "s") [AS scope_name] msg l ∧
    Ev (ReadObject msg) (inr (s_val obj)) ∈ l.

Lemma job_result_rc_zero result :
  job_result_rc result = 0 → result = bytes "done" ∨ result = bytes "skipped".
Proof. unfold job_result_rc. repeat case_decide; try (vm_compute; congruence); auto. Qed.

(** An error and nothing more held than before, or success and a string. *)
Definition scope_result (own0 own1 : res → Z) (rc : Z) (obj : option str) (l : list (ev sb_io))
    (good : str → Prop) : Prop :=
  (rc < 0 ∧ obj = None ∧ ∀ r, held l r = own1 r - own0 r) ∨
  (rc = 0 ∧ ∃ s, obj = Some s ∧ good s ∧ ∀ r, held l r = own1 r - own0 r + ind (RStr (s_id s)) r).

Lemma free_opt_spec o : sbspec (free_opt o) (λ l _, ∀ r, held l r = - opt_ind RString o r).
Proof. destruct o; [apply spec_ask_last; intros b _; wa_ledger|apply spec_ret; wa_ledger]. Qed.

Lemma scope_finish_spec m_res scope_name arg :
  wa_ok arg → wa_fresh arg ∨ wa_lost arg →
  sbspec (scope_finish m_res scope_name arg) (λ l '(rc, obj, arg'),
    wa_ok arg' ∧ (wa_result arg = None ∨ 0 <= rc → wa_result arg' = None) ∧
    scope_result (wa_own arg) (wa_own arg') rc obj l (λ s, job_done m_res scope_name s l)).
Proof.
  intros Hok Harg. unfold scope_finish. sb_step.
  { sb_steps. split; [done|]. split; [intros [|]; [done|lia]|]. left. split_and!; [done|done|wa_ledger]. }
  eapply spec_bind; [by apply wait_for_job_spec|]. intros l1 [[rc res] arg1] (Hrc & Hok1 & Hres & H1 & Hjob).
  eapply spec_bind; [by apply free_wait_spec|]. intros l2 arg2 (Hok2 & Hc2 & Hres2 & _ & H2).
  eapply spec_bind; [apply free_opt_spec|]. intros l3 [] H3. destruct (Z.ltb_spec rc 0) as [Hneg|Hpos].
  { sb_steps. split; [done|]. split; [by rewrite Hres2|]. left. split_and!; [done|done|wa_ledger]. }
  destruct Hjob as (pre & result & Hin & Hgood); [lia|].
  eapply spec_bind; [by apply sb_bus_call_methodv_called|]. intros l4 [rc4 msg] [H4 Hcall].
  gave H4; sb_rc.
  { sb_steps. split; [done|]. split; [by rewrite Hres2|]. left. split_and!; [done|done|wa_ledger]. }
  sb_step; [sb_steps; split; [done|]; split; [by rewrite Hres2|]; left; split_and!; [done|done|wa_ledger]|].
  sb_step; [sb_steps; split; [done|]; split; [by rewrite Hres2|]; left; split_and!; [done|done|wa_ledger]|].
  sb_steps. split; [done|]. split; [by rewrite Hres2|]. right. split; [done|]. eexists. split; [done|]. split; [|wa_ledger].
  exists v, pre, result, x.
  split_and!; [set_solver|set_solver|by apply job_result_rc_zero| |set_solver].
  eapply call_made_mono; [|by apply Hcall]. auto 10 with within.
Qed.

(** The body systemd expects of StartTransientUnit: the name and the mode
    "fail"; an array of properties, among them the slice and the process, and
    those of the caller; and no auxiliary units. *)
Definition transient_scope (m : Z) (scope_name slice : cstr) (pid : Z) (types : option cstr)
    (args : list barg) : list (sb_io Z) :=
  Append m (bytes "ss") [AS scope_name; AS (bytes "fail")] ::
  OpenContainer m (bytes "(sv)") ::
  Append m (bytes "(sv)") [AS (bytes "CollectMode"); AS (bytes "s"); AS (bytes "inactive-or-failed")] ::
  Append m (bytes "(sv)") [AS (bytes "Slice"); AS (bytes "s"); AS slice] ::
  Append m (bytes "(sv)") [AS (bytes "PIDs"); AS (bytes "au"); AI 1; AU (pid mod 2 ^ 32)] ::
  match types with
  | Some types => [Append m types args; CloseContainer m; Append m (bytes "a(sa(sv))") [AI 0]]
  | None => [CloseContainer m; Append m (bytes "a(sa(sv))") [AI 0]]
  end.

(** The request to start the scope was built, sent, and the job of the reply
    ended well. *)
Definition scope_started (scope_name slice : cstr) (pid : Z) (types : option cstr) (args : list barg)
    (obj : str) (l : list (ev sb_io)) : Prop :=
  ∃ m_req m_res body answer,
    all_done (transient_scope m_req scope_name slice pid types args) body ∧ sent m_req 0 m_res answer ∧
    within (Ev (NewMethodCall MANAGER (bytes "StartTransientUnit")) (inr m_req) :: body ++ answer) l ∧
    job_done m_res scope_name obj l.

Lemma scope_request_is m scope_name slice pid types args :
  scope_request m scope_name slice pid types args = transient_scope m scope_name slice pid types args.
Proof. by destruct types. Qed.

Lemma job_done_mono m_res scope_name obj l l' :
  within l l' → job_done m_res scope_name obj l → job_done m_res scope_name obj l'.
Proof.
  intros Hl (job & pre & result & msg & H1 & H2 & H3 & H4 & H5). pose proof (within_sub _ _ Hl) as Hs.
  exists job, pre, result, msg. split_and!; auto. by eapply call_made_mono.
Qed.

Lemma scope_started_mono scope_name slice pid types args obj l l' :
  within l l' → scope_started scope_name slice pid types args obj l →
  scope_started scope_name slice pid types args obj l'.
Proof.
  intros Hl (m1 & m2 & b & a & H1 & H2 & H3 & H4). exists m1, m2, b, a.
  split_and!; [done|done|by eapply within_trans|by eapply job_done_mono].
Qed.

Lemma scope_start_spec scope_name slice pid types args arg :
  wa_ok arg → wa_fresh arg →
  sbspec (scope_start scope_name slice pid types args arg) (λ l '(rc, obj, arg'),
    wa_ok arg' ∧ (wa_result arg' = None ∨ rc < 0 ∧ lost_early l) ∧
    scope_result (wa_own arg) (wa_own arg') rc obj l
      (λ s, scope_started scope_name slice pid types args s l)).
Proof.
  intros Hok Hfr. pose proof Hfr as (_ & Hnone & _). unfold scope_start. sb_step.
  { sb_steps. split; [done|]. split; [auto|]. left. split_and!; [done|done|wa_ledger]. }
  eapply spec_bind; [apply until_error_spec, scope_request_neutral|]. intros l1 rc1 [H1 Hall].
  destruct (Z.ltb_spec rc1 0) as [Hneg|Hpos].
  { sb_steps. split; [done|]. split; [auto|]. left. split_and!; [done|done|wa_ledger]. }
  eapply spec_bind.
  { apply (sb_bus_call_with_spec _ wa_own
      (λ l arg', wa_ok arg' ∧ (wa_fresh arg' ∨ wa_lost arg' ∧ lost_early l)));
      [|auto|by apply early_callbacks_spec].
    intros l l' a Hl [? [?|[? (cbs & ? & ?)]]]; (split; [done|]); [by left|right].
    split; [done|]. exists cbs. auto. }
  intros l2 [[rc2 m_res] arg2] [[Hok2 Harg2] H2].
  assert (wa_result arg2 = None ∨ lost_early l2) as Hlost by (destruct Harg2 as [(_ & ? & _)|[_ ?]]; auto).
  destruct H2 as [(Hrc & -> & H2)|[(_ & [=] & _)|(-> & _ & m_res' & -> & Hsent & H2)]]; sb_rc.
  { sb_steps. split; [done|]. split; [|left; split_and!; [done|done|wa_ledger]].
    destruct Hlost as [|(cbs & ? & ?)]; [auto|]. right. split; [done|]. exists cbs. set_solver. }
  eapply spec_bind; [apply (scope_finish_spec m_res' scope_name); [done|naive_solver]|].
  intros l3 [[rc3 obj] arg3] (Hok3 & Hres3 & H3). sb_steps. split; [done|]. split.
  { destruct Hlost as [|(cbs & ? & ?)]; [auto|]. destruct (decide (0 <= rc3)); [auto|].
    right. split; [lia|]. exists cbs. set_solver. }
  destruct H3 as [(Hrc & -> & H3)|(-> & s & -> & Hdone & H3)].
  - left. split_and!; [done|done|wa_ledger].
  - right. split; [done|]. exists s. split; [done|]. split; [|wa_ledger].
    exists v, m_res', l1, (l2 ++ l3 ++ [Ev (UnrefMsg m_res') tt; Ev (UnrefMsg v) tt]).
    split_and!; [by rewrite <-scope_request_is; apply Hall|by apply sent_app|apply within_refl|].
    eapply job_done_mono; [|exact Hdone]. auto 10 with within.
Qed.

(** The result of starting a scope: an error, and nothing is held, unless the
    bus was lost early; or success, and the two strings of the outputs are. *)
Definition scope_outcome (good : str → str → Prop) (l : list (ev sb_io)) (v : Z * option (str * str)) : Prop :=
  (v.1 < 0 ∧ v.2 = None ∧ (lost_early l ∨ ∀ r, held l r = 0)) ∨
  (v.1 = 0 ∧ ∃ name obj, v.2 = Some (name, obj) ∧ good name obj ∧
    ∀ r, held l r = ind (RStr (s_id name)) r + ind (RStr (s_id obj)) r).

Lemma lost_early_mono l l' : l ⊆ l' → lost_early l → lost_early l'.
Proof. intros Hl (cbs & ? & ?). exists cbs. auto. Qed.

Lemma scope_in_slice_spec slice pid types args :
  sbspec (scope_in_slice slice pid types args) (λ l v,
    scope_outcome (λ name obj, (∃ rnd, Ev Randomize (inr rnd) ∈ l ∧ s_val name = scope_name_of rnd) ∧
      scope_started (s_val name) slice pid types args obj l) l v).
Proof.
  unfold scope_in_slice. sb_step; [sb_steps; left; split_and!; [done|done|right; ledger]|].
  sb_step; [sb_steps; left; split_and!; [done|done|right; ledger]|].
  eapply spec_bind; [apply init_wait_spec|]. intros l1 [rc1 arg1] [[Hrc H1]|(-> & Hok & Hfr & H1)]; sb_rc.
  { sb_steps. left. split_and!; [done|done|right; ledger]. }
  cbn [s_val]. eapply spec_bind; [by apply scope_start_spec|].
  intros l2 [[rc2 obj] arg2] (Hok2 & Hres2 & H2).
  eapply spec_bind; [by apply free_wait_spec|]. intros l3 arg3 (Hok3 & Hc3 & Hres3 & _ & H3).
  assert (∀ r, wa_own arg3 r = opt_ind RString (wa_result arg2) r) as Hown.
  { intros r. destruct (Hok3 Hc3) as [Hs1 Hs2]. unfold wa_own. rewrite Hs1, Hs2, Hc3, Hres3. cbn. lia. }
  destruct H2 as [(Hrc & -> & H2)|(-> & s & -> & Hst & H2)]; sb_steps.
  - left. split_and!; [done|done|]. destruct Hres2 as [Hres2|[_ Hl]].
    + right. rewrite Hres2 in Hown; cbn [opt_ind] in Hown. ledger.
    + left. eapply lost_early_mono; [|exact Hl]. set_solver.
  - destruct Hres2 as [Hres2|[]]; [|lia]. rewrite Hres2 in Hown; cbn [opt_ind] in Hown. right. split; [done|].
    eexists _, _. split; [done|]. split; [split; [eexists; split; [by left|done]|]|ledger].
    eapply scope_started_mono; [|exact Hst]. auto 10 with within.
Qed.

(** What a good start of a scope for [pid] is: its name is random, its slice is
    that of the unit systemd named for the process. *)
Definition scope_good (pid : Z) (types : option cstr) (args : list barg) (l : list (ev sb_io))
    (name obj : str) : Prop :=
  ∃ rnd unit_obj slice,
    Ev Randomize (inr rnd) ∈ l ∧ s_val name = bytes "traffic-limitd-scope-" ++ rnd ++ bytes ".scope" ∧
    unit_of pid unit_obj l ∧ read_from (subprop_asked unit_obj (bytes "Slice")) slice l ∧
    scope_started (s_val name) slice pid types args obj l.

Lemma start_transient_scope_spec pid types args :
  sbspec (start_transient_scope pid types args) (λ l v, scope_outcome (scope_good pid types args l) l v).
Proof.
  unfold start_transient_scope. eapply spec_bind; [apply sb_sd_GetUnitByPID_read|]. intros l1 [rc1 u] [H1 Hu].
  gave H1; sb_rc; [sb_steps; left; split_and!; [done|done|right; ledger]|].
  eapply spec_bind; [apply sb_Unit_Get_subprop_string_read|]. intros l2 [rc2 sl] [H2 Hsl].
  gave H2; sb_rc; [sb_steps; left; split_and!; [done|done|right; ledger]|].
  eapply spec_bind; [apply scope_in_slice_spec|].
  intros l3 [rc3 r3] [(Hrc & Hn & Hh)|(Hrc & name & obj & Hn & [(rnd & Hrnd & Hname) Hst] & Hh)];
    cbn [fst snd] in *; subst; sb_steps.
  - left. split_and!; [done|done|]. destruct Hh as [Hl|Hh]; [|right; ledger].
    left. eapply lost_early_mono; [|exact Hl]. set_solver.
  - right. split; [done|]. exists name, obj. split; [done|]. split; [|ledger].
    exists rnd, (s_val x), (s_val x0). split_and!; [set_solver|done| | |].
    + eapply unit_of_mono; [|by apply Hu]. auto with within.
    + eapply read_from_mono; [intros rep k k'; apply subprop_asked_mono| |by apply Hsl]. auto with within.
    + eapply scope_started_mono; [|exact Hst]. auto 10 with within.
Qed.
