(* ===== verification/SdBusTheorems.v ===== *)
(** * Theorems on calls to systemd *)

From S2P Require Import Prelude RateLimit Protocol Netlink Effects SdBus SdBusInv.

#[local] Open Scope Z_scope.

(** ** Properties *)

(** C13. Starting a scope for a process never fails an assertion and never runs
    into a NULL pointer, whatever systemd answers and whenever the wait is
    interrupted or the bus lost, as long as libsystemd calls back as [sb_ok]
    says: errors are negative, and a wait ends right after the callback that
    sets its event, since the main loop runs the coroutine before it
    dispatches again (without that, [second_signal_asserts]). If it succeeds, systemd was asked for the unit
    of the process, and for the slice of that unit; then StartTransientUnit was
    called with exactly a new random name, the mode "fail", that slice, this one
    process and the caller's properties, the job named in the reply was removed
    with the result "done" or "skipped", and the outputs, which are all that is
    still held, are the name and the object systemd gave for it. If it fails
    there is no output, and every message, slot, string and reference taken was
    given back, unless the bus was lost while the reply to StartTransientUnit
    was awaited ([lost_early]): then a string leaks
    ([disconnect_leaks_result]). *)
Theorem scope_started_or_clean pid types args tr r :
  runs sb_ok (start_transient_scope pid types args) tr r →
  ∃ rc out, r = Some (rc, out) ∧
    ((rc < 0 ∧ out = None ∧ (lost_early tr ∨ ∀ x, held tr x = 0)) ∨
     (rc = 0 ∧ ∃ name obj, out = Some (name, obj) ∧ scope_good pid types args tr name obj ∧
       ∀ x, held tr x = ind (RStr (s_id name)) x + ind (RStr (s_id obj)) x)).
Proof.
  intros Hr. destruct (spec_runs _ _ _ _ _ (start_transient_scope_spec pid types args) Hr) as ([rc out] & -> & H).
  exists rc, out. split; [done|exact H].
Qed.

(** systemd of the example: the client's unit is in system.slice, everything
    works. *)
Definition example_bus (n : nat) (B : Type) (q : sb_io B) : B :=
  match q with
  | NewMethodCall _ _ => inr (Z.of_nat n)
  | Append _ _ _ | OpenContainer _ _ | CloseContainer _ | EnterVariant _ _ => 1
  | CallAsync _ _ | MatchSignal _ => inr (Z.of_nat n)
  | WaitReply _ => (false, Some (MethodReturn (Z.of_nat n)))
  | RefMsg _ | UnrefMsg _ | UnrefSlot _ | RefBus | UnrefBus | FreeStr _ => tt
  | ReadBasic _ _ => inr (bytes "session-1.scope")
  | ReadObject _ => inr (bytes "/obj")
  | Strdup _ | Asprintf _ => inr (Z.of_nat n)
  | Randomize => inr (bytes "0123")
  | WaitInstalled => Some None
  | JobCallbacks => []
  | WaitJob job => (false, [CbJobRemoved (Some (job, bytes "done"))])
  end.

Lemma example_bus_ok n B (q : sb_io B) : sb_ok B q (example_bus n B q).
Proof.
  destruct q; cbn; try done; try lia.
  - by exists []; auto.
  - by exists [], (CbJobRemoved (Some (job_obj, bytes "done"))).
Qed.

Lemma scope_started_or_clean_witness :
  let run := exec example_bus 0 (start_transient_scope 42 None []) in
  ∃ name obj, run.2 = Some (0, Some (name, obj)) ∧ scope_good 42 None [] run.1 name obj.
Proof.
  intros run.
  destruct (scope_started_or_clean 42 None [] run.1 run.2) as (rc & out & E & H).
  - eapply exec_runs; [apply example_bus_ok|apply surjective_pairing].
  - destruct H as [(Hrc & -> & _)|(-> & name & obj & -> & Hg & _)].
    + exfalso. vm_compute in E. congruence.
    + exists name, obj. split; [exact E|exact Hg].
Defined.

Example example_scope :
  let '(rc, out) := default (1, None) (exec example_bus 0 (start_transient_scope 42 None [])).2 in
  (rc, (λ '(n, o), (s_val n, s_val o)) <$> out) =
  (0, Some (bytes "traffic-limitd-scope-0123.scope", bytes "/obj")).
Proof. vm_compute. reflexivity. Qed.

(** What a run that gives a string leaves. *)
Definition leaves_string (tr : list (ev sb_io)) (r : option (Z * option str)) : Prop :=
  ∃ rc o, r = Some (rc, o) ∧
    ((rc < 0 ∧ o = None ∧ ∀ x, held tr x = 0) ∨
     (0 <= rc ∧ ∃ s, o = Some s ∧ ∀ x, held tr x = ind (RStr (s_id s)) x)).

Lemma gives_string_runs p tr r :
  spec sb_ok p (gives (λ s, RStr (s_id s))) → runs sb_ok p tr r → leaves_string tr r.
Proof.
  intros Hp Hr. destruct (spec_runs _ _ _ _ _ Hp Hr) as ([rc o] & -> & H). exists rc, o. split; [done|exact H].
Qed.

(** C36. The calls the daemon makes to learn about units, its own name, the unit
    of a process, a property of a unit, never crash when libsystemd answers as
    [sb_ok] says, and leave behind exactly the string they return on success
    and nothing on an error; the call that kills a scope leaves nothing. *)
Theorem bus_calls_leave_result pid unit_obj member types args tr r tr2 r2 tr3 r3 tr4 r4 :
  runs sb_ok (sb_sd_GetUnitByPID pid) tr r → runs sb_ok (get_self_unit_name pid) tr2 r2 →
  runs sb_ok (sb_Unit_Get_subprop_string unit_obj member) tr3 r3 →
  runs sb_ok (sb_bus_call_unit_method unit_obj member false types args) tr4 r4 →
  leaves_string tr r ∧ leaves_string tr2 r2 ∧ leaves_string tr3 r3 ∧
  ∃ rc, r4 = Some (rc, None) ∧ ∀ x, held tr4 x = 0.
Proof.
  intros H1 H2 H3 H4. split_and!.
  - eapply gives_string_runs; [apply sb_sd_GetUnitByPID_spec|exact H1].
  - eapply gives_string_runs; [apply get_self_unit_name_spec|exact H2].
  - eapply gives_string_runs; [apply sb_Unit_Get_subprop_string_spec|exact H3].
  - destruct (spec_runs _ _ _ _ _ (sb_bus_call_unit_method_spec _ _ _ _) H4) as ([rc o] & -> & -> & H).
    by exists rc.
Qed.

Lemma bus_calls_leave_result_witness :
  leaves_string (exec example_bus 0 (sb_sd_GetUnitByPID 42)).1 (exec example_bus 0 (sb_sd_GetUnitByPID 42)).2.
Proof.
  apply (bus_calls_leave_result 42 (bytes "/obj") (bytes "ControlGroup") (bytes "si") [AS (bytes "all"); AI 9]
    _ _ (exec example_bus 0 (get_self_unit_name 42)).1 (exec example_bus 0 (get_self_unit_name 42)).2
    (exec example_bus 0 (sb_Unit_Get_subprop_string (bytes "/obj") (bytes "ControlGroup"))).1
    (exec example_bus 0 (sb_Unit_Get_subprop_string (bytes "/obj") (bytes "ControlGroup"))).2
    (exec example_bus 0 (sb_bus_call_unit_method (bytes "/obj") (bytes "ControlGroup") false (bytes "si")
      [AS (bytes "all"); AI 9])).1
    (exec example_bus 0 (sb_bus_call_unit_method (bytes "/obj") (bytes "ControlGroup") false (bytes "si")
      [AS (bytes "all"); AI 9])).2);
    (eapply exec_runs; [apply example_bus_ok|apply surjective_pairing]).
Defined.

(** The interface that has the properties of a unit is that of the kind
    after the last dot of its name, with a capital first letter, and it fits
    in its buffer; a name without a dot or with the last dot at its end is
    refused. *)
Theorem interface_of_kind unit_name :
  match subprop_interface unit_name with
  | inl rc => rc = - EINVAL ∧ (DOT ∉ unit_name ∨ ∃ pre, unit_name = pre ++ [DOT])
  | inr (kind, buf) =>
      ∃ pre c rest, unit_name = pre ++ DOT :: c :: rest ∧ (DOT ∉ c :: rest) ∧ kind = S (length pre) ∧
        buf = bytes "org.freedesktop.systemd1." ++ toupper c :: rest ∧
        Z.of_nat (length buf) + 1 <= interface_buf_size unit_name kind
  end.
Proof.
  destruct (subprop_interface unit_name) as [rc|[kind buf]] eqn:E.
  - split; [by eapply subprop_interface_err|].
    destruct (split_last_dot unit_name) as [|(pre & post & -> & Hp)]; [auto|right].
    rewrite subprop_interface_spec in E by done. destruct post; [by exists pre|done].
  - pose proof (subprop_interface_fits _ _ _ E) as Hfit.
    destruct (split_last_dot unit_name) as [Hs|(pre & post & -> & Hp)].
    + unfold subprop_interface in E. rewrite find_kind_none in E by done. by destruct (_ <? _)%nat.
    + rewrite subprop_interface_spec in E by done. destruct post as [|c rest]; [done|].
      exists pre, c, rest. change (bytes "org.freedesktop.systemd1.") with SD_INTERFACE_NAME.
      split_and!; [done|done|congruence|congruence|exact Hfit].
Qed.

(** C40. A job counts as done exactly for the results "done" and "skipped"; any
    other result, known or not, is an error. *)
Theorem job_ok_iff result :
  (job_result_rc result = 0 ↔ result = bytes "done" ∨ result = bytes "skipped") ∧ job_result_rc result <= 0.
Proof.
  split; [|apply job_result_rc_neg]. split.
  - apply job_result_rc_zero.
  - intros [->| ->]; reflexivity.
Qed.

(** ** What the code does not mean to do *)

(** The bus is lost while the reply to StartTransientUnit is awaited: the call
    fails, and the string "disconnected" is never freed. *)
Definition losing_bus (n : nat) (B : Type) (q : sb_io B) : B :=
  match q with
  | WaitReply slot => if decide (35 < n)%nat then (false, Some (MethodError ECONNRESET))
                      else (false, Some (MethodReturn (Z.of_nat n)))
  | JobCallbacks => [CbDisconnected]
  | q => example_bus n _ q
  end.

Lemma disconnect_leaks_result :
  let run := exec losing_bus 0 (start_transient_scope 42 None []) in
  run.2 = Some (- ECONNRESET, None) ∧ ∃ n, held run.1 (RStr n) = 1.
Proof. split; [vm_compute; reflexivity|]. exists 54. vm_compute. reflexivity. Qed.

(** A second signal before the coroutine has taken the first result fails the
    assertion of the callback: the code relies on the main loop. *)
Lemma second_signal_asserts job other :
  ∃ tr, runs sb_ok
    (run_callbacks [CbJobRemoved (Some (job, bytes "done")); CbJobRemoved (Some (other, bytes "done"))]
      (mk_wait (Some 1) (Some 2) (Some job) None 0 false)) tr None.
Proof.
  exists [Ev (Strdup (bytes "done")) (inr 7)]. cbn [run_callbacks job_callback].
  unfold sb_sd_wait_for_job_job_removed.
  cbn [wa_slot_job_removed wa_slot_disconnected wa_job_obj wa_result wa_rc wa_closed].
  rewrite decide_True by done. eapply runs_ask; [exact I|]. cbn. constructor.
Qed.
