(* ===== verification/Logging.v ===== *)
(** * Logging (src/log.c, and libbpf_print of src/tcbpf_util.c)

    The logger's state is a level for the standard error stream and an array
    of 32 callbacks. A call of [log_vlog] is the sequence of what it does
    outside: taking and releasing the lock, and what is written where. *)

From S2P Require Import Prelude RateLimit Protocol Netlink.

#[local] Open Scope Z_scope.

Definition MAX_CALLBACKS : nat := 32.

Definition LOG_TRACE : Z := 0.
Definition LOG_DEBUG : Z := 1.
Definition LOG_INFO : Z := 2.
Definition LOG_WARN : Z := 3.
Definition LOG_ERROR : Z := 4.
Definition LOG_FATAL : Z := 5.

(** [log_LogFn]: the one of this file, or another; [udata] is a stream. *)
Inductive log_fn : Type := FileCallback | OtherCallback (f : Z).

(** [Callback]; an entry of the array that is not in use has no [fn]. *)
Record callback : Type := mk_callback { cb_fn : log_fn; cb_udata : Z; cb_level : Z }.

Record logger : Type := mk_logger {
  L_lock : option Z; L_level : Z; L_quiet : bool; L_systemd : bool;
  L_callbacks : list (option callback);
}.

(** The zeroed static variable. *)
Definition L0 : logger := mk_logger None 0 false false (replicate MAX_CALLBACKS None).

(** [log_Event] without its time and arguments. *)
Record log_event : Type := mk_event {
  ev_task_id : Z; ev_level : Z; ev_func : list Z; ev_file : list Z; ev_line : Z; ev_fmt : list Z;
}.

(** What is printed: literal text, a number in decimal, the time, the
    arguments by their format. *)
Inductive piece : Type :=
  | PText (s : list Z) | PDec (z : Z) | PTime (fmt : list Z) | PArgs (fmt : list Z).

(** What a call does. *)
Inductive log_act : Type :=
  | Lock (locked : bool)
  | Print (stream : Z) (text : list piece)
  | Called (f : Z) (udata : Z).

Definition STDERR : Z := 2.

Definition ESC : list Z := [27].

(** ** Printing *)

Definition level_strings : list (list Z) :=
  bytes <$> ["TRACE"; "DEBUG"; "INFO"; "WARN"; "ERROR"; "FATAL"].
(** SD_DEBUG and so on are a priority in angle brackets. *)
Definition level_systemd_strings : list (list Z) :=
  bytes <$> ["<7>"; "<7>"; "<6>"; "<4>"; "<3>"; "<2>"].
Definition level_colors : list (list Z) :=
  (λ s, ESC ++ bytes s) <$> ["[94m"; "[36m"; "[32m"; "[33m"; "[31m"; "[35m"].

(** Indexing with an [int]; outside of the array is a fault. *)
Definition at_level {A} (l : list A) (level : Z) : option A :=
  if level <? 0 then None else l !! Z.to_nat level.

(** ["%-5s"]. *)
Definition pad5 (s : list Z) : list Z := s ++ replicate (5 - length s) 32.

Definition where_ (ev : log_event) : list piece :=
  [PText (ev_func ev); PText (bytes "("); PText (ev_file ev); PText (bytes ":"); PDec (ev_line ev)].

Definition stdout_callback (systemd : bool) (ev : log_event) : option (list piece) :=
  prefix ←
    (if systemd then
       s ← at_level level_systemd_strings (ev_level ev);
       Some ([PText s] ++ where_ ev ++ [PText (bytes "): ")])
     else
       c ← at_level level_colors (ev_level ev);
       s ← at_level level_strings (ev_level ev);
       Some ([PTime (bytes "%H:%M:%S"); PText (bytes " "); PText c; PText (pad5 s);
              PText (ESC ++ bytes "[0m "); PText (ESC ++ bytes "[90m")] ++ where_ ev ++
             [PText (bytes "):"); PText (ESC ++ bytes "[0m ")]));
  let task :=
    if ev_task_id ev =? 0 then []
    else if systemd then [PText (bytes "["); PDec (ev_task_id ev); PText (bytes "] ")]
    else [PText (ESC ++ bytes "[90m["); PDec (ev_task_id ev); PText (bytes "]" ++ ESC ++ bytes "[0m ")] in
  Some (prefix ++ task ++ [PArgs (ev_fmt ev); PText [10]]).

Definition file_callback (ev : log_event) : option (list piece) :=
  s ← at_level level_strings (ev_level ev);
  Some [PTime (bytes "%Y-%m-%d %H:%M:%S"); PText (bytes " "); PText (pad5 s); PText (bytes " ");
        PText (ev_file ev); PText (bytes ":"); PDec (ev_line ev); PText (bytes ": ");
        PArgs (ev_fmt ev); PText [10]].

Definition run_callback (cb : callback) (ev : log_event) : option log_act :=
  match cb_fn cb with
  | FileCallback => text ← file_callback ev; Some (Print (cb_udata cb) text)
  | OtherCallback f => Some (Called f (cb_udata cb))
  end.

(** ** Settings *)

Definition log_level_string (level : Z) : option (list Z) := at_level level_strings level.
Definition log_set_lock (fn : option Z) (l : logger) : logger :=
  mk_logger fn (L_level l) (L_quiet l) (L_systemd l) (L_callbacks l).
Definition log_set_level (level : Z) (l : logger) : logger :=
  mk_logger (L_lock l) level (L_quiet l) (L_systemd l) (L_callbacks l).
Definition log_set_quiet (enable : bool) (l : logger) : logger :=
  mk_logger (L_lock l) (L_level l) enable (L_systemd l) (L_callbacks l).
Definition log_set_systemd (enable : bool) (l : logger) : logger :=
  mk_logger (L_lock l) (L_level l) (L_quiet l) enable (L_callbacks l).

(** The loop of [log_add_callback] from index [i] on: the first entry without
    a function is taken. *)
Fixpoint add_from (fuel i : nat) (cb : callback) (cbs : list (option callback))
  : Z * list (option callback) :=
  match fuel with
  | O => (-1, cbs)
  | S fuel =>
      match cbs !! i with
      | Some None => (0, <[i := Some cb]> cbs)
      | _ => add_from fuel (S i) cb cbs
      end
  end.

Definition log_add_callback (fn : log_fn) (udata level : Z) (l : logger) : Z * logger :=
  let '(rc, cbs) := add_from MAX_CALLBACKS 0 (mk_callback fn udata level) (L_callbacks l) in
  (rc, mk_logger (L_lock l) (L_level l) (L_quiet l) (L_systemd l) cbs).

Definition log_add_fp (fp level : Z) (l : logger) : Z * logger := log_add_callback FileCallback fp level l.

(** ** Logging *)

Definition lock_act (l : logger) (locked : bool) : list log_act :=
  match L_lock l with Some _ => [Lock locked] | None => [] end.

(** The loop over the callbacks, which ends at the first free entry. *)
Fixpoint call_from (fuel i : nat) (ev : log_event) (cbs : list (option callback)) : option (list log_act) :=
  match fuel with
  | O => Some []
  | S fuel =>
      match cbs !! i with
      | Some (Some cb) =>
          a ← (if cb_level cb <=? ev_level ev then a ← run_callback cb ev; Some [a] else Some []);
          rest ← call_from fuel (S i) ev cbs;
          Some (a ++ rest)
      | _ => Some []
      end
  end.

(** [log_vlog], and [log_log], which calls it with its own arguments. *)
Definition log_vlog (l : logger) (ev : log_event) : option (list log_act) :=
  err ← (if negb (L_quiet l) && (L_level l <=? ev_level ev)
         then text ← stdout_callback (L_systemd l) ev; Some [Print STDERR text] else Some []);
  cbs ← call_from MAX_CALLBACKS 0 ev (L_callbacks l);
  Some (lock_act l true ++ err ++ cbs ++ lock_act l false).

(** ** libbpf's messages *)

Inductive libbpf_print_level : Type := LIBBPF_WARN | LIBBPF_INFO | LIBBPF_DEBUG | LIBBPF_OTHER.

(** The loop from the last character down that replaces newlines by zeros:
    what is left is the string up to the first zero. *)
Fixpoint strip_from (i : nat) (buf : list Z) : list Z :=
  match i with
  | O => buf
  | S i => if decide (buf !! i = Some 10) then strip_from i (<[i := 0]> buf) else buf
  end.

Fixpoint c_string (buf : list Z) : list Z :=
  match buf with
  | [] => []
  | c :: buf => if c =? 0 then [] else c :: c_string buf
  end.

Definition libbpf_print (l : logger) (level : libbpf_print_level) (fmt : list Z)
  : option (list log_act) :=
  match (match level with
         | LIBBPF_DEBUG => Some LOG_TRACE
         | LIBBPF_WARN => Some LOG_WARN
         | LIBBPF_INFO => Some LOG_INFO
         | LIBBPF_OTHER => None
         end) with
  | None => Some []
  | Some log_level =>
      let buf := strip_from (length fmt) (fmt ++ [0]) in
      log_vlog l (mk_event 0 log_level [] (bytes "libbpf") 0 (c_string buf))
  end.

(** ** The logger as a list of callbacks *)

(** The abstract logger keeps the callbacks that were added, in order. *)
Definition registered (l : logger) (cs : list callback) : Prop :=
  (length cs <= MAX_CALLBACKS)%nat ∧
  L_callbacks l = (Some <$> cs) ++ replicate (MAX_CALLBACKS - length cs) None.

(** What a callback contributes. *)
Definition contributes (ev : log_event) (cb : callback) : list log_act :=
  if cb_level cb <=? ev_level ev then default [] ((λ a, [a]) <$> run_callback cb ev) else [].

Definition valid_level (level : Z) : Prop := LOG_TRACE <= level <= LOG_FATAL.

Lemma at_level_valid {A} (l : list A) level :
  valid_level level → length l = 6%nat → ∃ x, at_level l level = Some x.
Proof.
  unfold valid_level, LOG_TRACE, LOG_FATAL. intros Hl Hlen. unfold at_level.
  rewrite (proj2 (Z.ltb_ge _ _)) by lia. apply lookup_lt_is_Some_2. lia.
Qed.

Lemma run_callback_valid cb ev : valid_level (ev_level ev) → is_Some (run_callback cb ev).
Proof.
  intros Hl. unfold run_callback, file_callback. destruct (cb_fn cb); [|done].
  destruct (at_level_valid level_strings (ev_level ev) Hl) as [x ->]; done.
Qed.

Lemma stdout_callback_valid systemd ev : valid_level (ev_level ev) → is_Some (stdout_callback systemd ev).
Proof.
  intros Hl. unfold stdout_callback.
  destruct (at_level_valid level_strings (ev_level ev) Hl) as [x1 H1]; [done|].
  destruct (at_level_valid level_systemd_strings (ev_level ev) Hl) as [x2 H2]; [done|].
  destruct (at_level_valid level_colors (ev_level ev) Hl) as [x3 H3]; [done|].
  destruct systemd; rewrite ?H1, ?H2, ?H3; done.
Qed.

Lemma call_from_spec ev cs pre k fuel :
  valid_level (ev_level ev) → (length cs <= fuel)%nat →
  call_from fuel (length pre) ev (pre ++ (Some <$> cs) ++ replicate k None) =
  Some (concat (contributes ev <$> cs)).
Proof.
  intros Hl. revert pre fuel. induction cs as [|cb cs IH]; intros pre fuel Hf.
  - destruct fuel; [done|]. cbn [call_from]. rewrite lookup_app_r, Nat.sub_diag by lia.
    by destruct k.
  - destruct fuel as [|fuel]; [simpl in Hf; lia|]. cbn [call_from].
    rewrite lookup_app_r, Nat.sub_diag by lia. cbn [fmap list_fmap app lookup list_lookup].
    assert ((if cb_level cb <=? ev_level ev then a ← run_callback cb ev; Some [a] else Some []) =
      Some (contributes ev cb)) as ->.
    { unfold contributes. destruct (_ <=? _); [|done]. by destruct (run_callback_valid cb ev Hl) as [a ->]. }
    cbn [mbind option_bind].
    pose proof (IH (pre ++ [Some cb]) fuel) as IH'. rewrite length_app, Nat.add_1_r, <-(assoc_L (++)) in IH'.
    cbn [app] in IH'. rewrite IH' by (simpl in Hf; lia). done.
Qed.

Lemma add_from_spec cb cs pre k fuel :
  (length cs <= fuel)%nat →
  add_from fuel (length pre) cb (pre ++ (Some <$> cs) ++ replicate k None) =
  if decide (k = 0 ∨ fuel = length cs)%nat then (-1, pre ++ (Some <$> cs) ++ replicate k None)
  else (0, pre ++ (Some <$> cs) ++ Some cb :: replicate (k - 1) None).
Proof.
  revert pre fuel. induction cs as [|c cs IH]; intros pre fuel Hf.
  - cbn [fmap list_fmap app length]. destruct k as [|k].
    + rewrite decide_True by auto. rewrite app_nil_r. clear Hf. revert pre.
      assert (∀ i pre, (length pre <= i)%nat → add_from fuel i cb pre = (-1, pre)) as H.
      { induction fuel as [|fuel IH]; intros i pre Hi; [done|]. cbn [add_from].
        rewrite lookup_ge_None_2 by done. apply IH. lia. }
      intros pre. by apply H.
    + destruct fuel as [|fuel]; [by rewrite decide_True by auto|].
      rewrite decide_False by lia. cbn [add_from replicate]. rewrite lookup_app_r, Nat.sub_diag by lia.
      cbn [lookup list_lookup]. rewrite insert_app_r_alt, Nat.sub_diag by lia. cbn. by rewrite ?Nat.sub_0_r.
  - destruct fuel as [|fuel]; [simpl in Hf; lia|]. cbn [add_from length].
    rewrite lookup_app_r, Nat.sub_diag by lia. cbn [fmap list_fmap app lookup list_lookup].
    pose proof (IH (pre ++ [Some c]) fuel) as IH'. rewrite length_app, Nat.add_1_r, <-!(assoc_L (++)) in IH'.
    cbn [app] in IH'. rewrite IH' by (simpl in Hf; lia).
    repeat case_decide; try done; lia.
Qed.

(** ** Properties *)

(** C39. The array of callbacks implements a list: a new logger has none; adding
    one puts it at the end and returns 0, until there are 32, then it is
    refused with -1 and nothing changes. *)
Theorem callbacks_are_a_list l cs fn udata level :
  registered L0 [] ∧
  (registered l cs →
   let '(rc, l') := log_add_callback fn udata level l in
   if decide (length cs < MAX_CALLBACKS)%nat
   then rc = 0 ∧ registered l' (cs ++ [mk_callback fn udata level])
   else rc = -1 ∧ l' = l).
Proof.
  split; [split; [simpl; lia|done]|]. intros [Hlen Hcb]. unfold log_add_callback. rewrite Hcb.
  pose proof (add_from_spec (mk_callback fn udata level) cs [] (MAX_CALLBACKS - length cs) MAX_CALLBACKS Hlen) as H.
  cbn [length app] in H. rewrite H. clear H. case_decide as Hd; case_decide as Hd2.
  - unfold MAX_CALLBACKS in *. lia.
  - split; [done|]. destruct l. cbn in *. by rewrite Hcb.
  - split; [done|]. split.
    + rewrite length_app. simpl. lia.
    + cbn [L_callbacks]. rewrite fmap_app, <-(assoc_L (++)). cbn [fmap list_fmap app]. do 2 f_equal.
      rewrite length_app. simpl. f_equal. lia.
  - unfold MAX_CALLBACKS in *. lia.
Qed.

Lemma callbacks_are_a_list_witness :
  let '(rc, l') := log_add_callback FileCallback 5 LOG_WARN L0 in
  rc = 0 ∧ registered l' ([] ++ [mk_callback FileCallback 5 LOG_WARN]).
Proof.
  exact (proj2 (callbacks_are_a_list L0 [] FileCallback 5 LOG_WARN)
    (proj1 (callbacks_are_a_list L0 [] FileCallback 5 LOG_WARN))).
Defined.

(** A message of a valid level goes to the standard error stream exactly if
    the logger is not quiet and the level is high enough, then to each
    registered callback whose level it reaches, once each and in the order of
    registration, all of it between one pair of lock and unlock if there is a
    lock; no array is read outside of its bounds. *)
Theorem message_goes_where_asked l cs ev :
  registered l cs → valid_level (ev_level ev) →
  ∃ text, stdout_callback (L_systemd l) ev = Some text ∧
  log_vlog l ev = Some (lock_act l true ++
    (if negb (L_quiet l) && (L_level l <=? ev_level ev) then [Print STDERR text] else []) ++
    concat (contributes ev <$> cs) ++ lock_act l false).
Proof.
  intros [Hlen Hcb] Hl. destruct (stdout_callback_valid (L_systemd l) ev Hl) as [text Ht]. exists text.
  split; [done|]. unfold log_vlog. rewrite Ht, Hcb.
  pose proof (call_from_spec ev cs [] (MAX_CALLBACKS - length cs) MAX_CALLBACKS Hl Hlen) as H.
  cbn [length app] in H. rewrite H. by destruct (negb _ && _).
Qed.

Lemma message_goes_where_asked_witness :
  let l := (log_add_callback (OtherCallback 7) 5 LOG_WARN L0).2 in
  let ev := mk_event 3 LOG_ERROR (bytes "f") (bytes "a.c") 1 (bytes "x") in
  ∃ text, stdout_callback false ev = Some text ∧
    log_vlog l ev = Some ([] ++ [Print STDERR text] ++ [Called 7 5] ++ []).
Proof.
  intros l ev. refine (message_goes_where_asked l [mk_callback (OtherCallback 7) 5 LOG_WARN] ev _ _).
  - split; [vm_compute; lia|reflexivity].
  - split; vm_compute; congruence.
Defined.

(** ** libbpf's newlines *)

Lemma strip_newlines pre n k :
  (∀ p, pre ≠ p ++ [10]) → (∀ i, pre !! i ≠ Some 0) →
  strip_from (length pre + n) (pre ++ replicate n 10 ++ replicate k 0) = pre ++ replicate (n + k) 0.
Proof.
  intros Hpre Hz. revert k. induction n as [|n IH]; intros k.
  - rewrite Nat.add_0_r. cbn [replicate app]. destruct pre as [|c pre] using rev_ind; [done|].
    rewrite length_app, Nat.add_1_r. cbn [strip_from].
    rewrite <-(assoc_L (++)). cbn [app]. rewrite list_lookup_middle by done. rewrite decide_False; [by rewrite <-?(assoc_L (++))|].
    intros [= ->]. by apply (Hpre pre).
  - rewrite Nat.add_succ_r. cbn [strip_from].
    assert ((pre ++ replicate (S n) 10 ++ replicate k 0) !! (length pre + n)%nat = Some 10) as Hlk.
    { rewrite lookup_app_r, lookup_app_l by (rewrite ?length_replicate; lia).
      rewrite lookup_replicate_2 by lia. done. }
    rewrite decide_True by done.
    replace (<[(length pre + n)%nat := 0]> (pre ++ replicate (S n) 10 ++ replicate k 0))
      with (pre ++ replicate n 10 ++ replicate (S k) 0).
    + rewrite IH. by rewrite Nat.add_succ_r.
    + rewrite insert_app_r, (replicate_S_end n 10), <-(assoc_L (++)). cbn [app].
      rewrite insert_app_r_alt by (rewrite length_replicate; lia).
      by rewrite length_replicate, Nat.sub_diag.
Qed.

Lemma c_string_zeros pre k : (∀ i, pre !! i ≠ Some 0) → c_string (pre ++ replicate (S k) 0) = pre.
Proof.
  induction pre as [|c pre IH]; intros Hz; [done|]. cbn [app c_string].
  rewrite (proj2 (Z.eqb_neq _ _)) by (intros ->; by apply (Hz 0%nat)). f_equal. apply IH.
  intros i. apply (Hz (S i)).
Qed.

(** libbpf's messages are logged at the matching level, without the
    newlines at their end, which the logger adds itself; a level that is not
    known is not logged. *)
Theorem libbpf_newlines_stripped l level pre n :
  (∀ p, pre ≠ p ++ [10]) → (∀ i, pre !! i ≠ Some 0) →
  libbpf_print l level (pre ++ replicate n 10) =
  match level with
  | LIBBPF_OTHER => Some []
  | LIBBPF_WARN => log_vlog l (mk_event 0 LOG_WARN [] (bytes "libbpf") 0 pre)
  | LIBBPF_INFO => log_vlog l (mk_event 0 LOG_INFO [] (bytes "libbpf") 0 pre)
  | LIBBPF_DEBUG => log_vlog l (mk_event 0 LOG_TRACE [] (bytes "libbpf") 0 pre)
  end.
Proof.
  intros Hpre Hz.
  assert (c_string (strip_from (length (pre ++ replicate n 10)) ((pre ++ replicate n 10) ++ [0])) = pre) as H.
  { rewrite length_app, length_replicate, <-(assoc_L (++)).
    pose proof (strip_newlines pre n 1 Hpre Hz) as Hs. cbn [replicate] in Hs. rewrite Hs.
    rewrite Nat.add_1_r. by apply c_string_zeros. }
  unfold libbpf_print. rewrite H. by destruct level.
Qed.

Lemma libbpf_newlines_stripped_witness :
  libbpf_print L0 LIBBPF_WARN (bytes "oops" ++ [10; 10]) =
  log_vlog L0 (mk_event 0 LOG_WARN [] (bytes "libbpf") 0 (bytes "oops")).
Proof.
  apply (libbpf_newlines_stripped L0 LIBBPF_WARN (bytes "oops") 2).
  - intros p H. apply (f_equal last) in H. rewrite last_snoc in H. discriminate.
  - intros i. do 4 (destruct i as [|i]; [discriminate|]). discriminate.
Defined.
