(* ===== verification/Handler.v ===== *)
(** * The client handler (src/main.c)

    [client_handler_async] and the functions it calls in main.c, as a program
    over questions: questions about the daemon's own state are answered by
    that state, system calls by the system at once, and the calls that block
    the coroutine (bus calls, stream I/O, waiting for a process) by the system
    at some later time, when other handlers may have run in between. *)

From S2P Require Import Prelude RateLimit BpfMaps Protocol.

#[local] Open Scope Z_scope.

(** ** Constants *)

Definition MAX_IO_USEC : Z := 300 * 1000.
Definition MAX_NR_TASKS : Z := 1000.
Definition SIGKILL : Z := 9.

(** The reasons for an interrupt: the handler's own two, and the address of
    [global_interrupt_reasons.SYS_WILL_EXIT]. *)
Definition INT_IO_ERR : Z := 1.
Definition INT_PROC_END : Z := 2.
Definition SYS_WILL_EXIT : Z := 3.

(** ** State *)

(** What [se_task_register_memory_to_free] is given. *)
Inductive cleanup : Type :=
  | DestroyStream
  | DecreaseNrTasks
  | FreeString (s : string)
  | DestroyPidfd
  | ClearRateLimit (cgroup_id : Z).

#[export] Instance cleanup_eq : EqDecision cleanup.
Proof. solve_decision. Defined.

(** [g_nr_tasks], [g_this_unit_name] and the kernel's map. *)
Record daemon_state : Type := mk_daemon {
  g_nr_tasks : Z;
  g_this_unit_name : option string;
  limits : limit_map;
}.

(** What the world has seen of one handler, the latest first. *)
Inductive obs : Type :=
  | OPeer (pid : Z)                                 (* the process of the connection *)
  | OUnitOf (pid : Z) (unit_obj : string)           (* the unit systemd names for a process *)
  | OUnitPath (unit_obj : string) (path : string)   (* ControlGroup of a unit *)
  | OPathId (path : string) (cgroup_id : Z)         (* the id of a cgroup *)
  | OScope (obj : string)                           (* a scope was started *)
  | ORead (rc : Z) (buf : list Z)                   (* the request *)
  | OWrite (bs : list Z)                            (* a message was handed to the stream *)
  | OKill (obj who : string) (signal rc : Z).       (* Kill was called on a unit, and its result *)

(** One handler's cleanups, the last registered first, and observations. *)
Record local_state : Type := mk_local { cleanups : list cleanup; trace : list obs }.

(** The texts of [write_rate_limit_log]. *)
Inductive log_text : Type :=
  | LogRecursive
  | LogStart (limit : rate_limit)
  | LogError (client_error : bool) (rc : Z).

(** ** Questions *)

Inductive io : Type → Type :=
  (* the daemon's own state *)
  | GetNrTasks : io Z
  | IncNrTasks : io unit
  | GetThisUnitName : io (option string)
  | SetThisUnitName (n : string) : io unit
  | Register (c : cleanup) : io unit
  | RateCheck (cgroup_id : Z) : io Z
  | RateSet (cgroup_id : Z) (limit : rate_limit) : io Z
  (* answered by the system at once *)
  | InitMsgStream (fd : Z) : io Z
  | StreamRegInterrupt (reason : Z) : io unit
  | PeerPid : io Z
  | InitPidfdEvent (pid : Z) : io Z
  | PidfdRegInterrupt (reason : Z) : io unit
  | PathGetCgroupId (path : string) : io (Z + Z)
  | SetInterruptDisabled : io unit
  | GetInterruptReason : io Z
  | FormatLog (t : log_text) : io (Z + list Z)
  | CloseFd (fd : Z) : io unit
  (* answered after the coroutine was suspended *)
  | GetSelfUnitName : io (Z + string)
  | GetUnitByPID (pid : Z) : io (Z + string)
  | UnitControlGroup (unit_obj : string) : io (Z + string)
  | StartTransientScope (pid : Z) (this_unit : option string) : io (Z + string * string)
  | StreamRead (size usec : Z) : io (Z * list Z)
  | StreamWrite (bs : list Z) (usec : Z) : io Z
  | ShutdownStream : io Z
  | WaitForExit : io Z
  | KillUnit (obj who : string) (signal : Z) : io Z.

(** Which questions suspend the coroutine. *)
Definition suspends {A} (q : io A) : bool :=
  match q with
  | GetSelfUnitName | GetUnitByPID _ | UnitControlGroup _ | StartTransientScope _ _
  | StreamRead _ _ | StreamWrite _ _ | ShutdownStream | WaitForExit | KillUnit _ _ _ => true
  | _ => false
  end.

Inductive prog (A : Type) : Type :=
  | Ret (x : A)
  | Ask {B : Type} (q : io B) (k : B → prog A).
Arguments Ret {A} x.
Arguments Ask {A B} q k.

Fixpoint pbind {A B} (p : prog A) (f : A → prog B) : prog B :=
  match p with Ret x => f x | Ask q k => Ask q (λ b, pbind (k b) f) end.

Definition ask {A} (q : io A) : prog A := Ask q Ret.

#[export] Instance prog_ret : MRet prog := @Ret.
#[export] Instance prog_bind : MBind prog := λ A B f p, pbind p f.

(** ** The program *)

Definition write_rate_limit_msg (kind code : Z) : prog Z :=
  match rate_limit_msg kind code with
  | inl e => mret e
  | inr bs => ask (StreamWrite bs MAX_IO_USEC)
  end.

Definition write_rate_limit_log (t : log_text) : prog Z :=
  msg ← ask (FormatLog t);
  match msg with
  | inl e => mret e
  | inr text => ask (StreamWrite (rate_limit_log text) MAX_IO_USEC)
  end.

Definition get_Unit_cgroup_id (unit_obj : string) : prog (Z + Z) :=
  path ← ask (UnitControlGroup unit_obj);
  match path with
  | inl rc => mret (inl rc)
  | inr path => ask (PathGetCgroupId path)
  end.

(** Where the body of the handler leaves to. *)
Inductive leave : Type :=
  | Return
  | err_close_stream (client_error : bool) (rc : Z)
  | err_close_fd
  | interrupt (scope_obj : option string) (stream : bool).

(** [if(rc == -EINTR) goto interrupt; ... goto err_close_stream]. *)
Definition failed (scope_obj : option string) (rc : Z) : prog leave :=
  mret (if rc =? - EINTR then interrupt scope_obj true else err_close_stream false rc).

(** From the accepted request on. *)
Definition proceed_and_wait (scope_obj : string) (limit : rate_limit) : prog leave :=
  write_rate_limit_log (LogStart limit);;
  write_rate_limit_msg RATE_LIMIT_PROCEED 0;;
  ask ShutdownStream;;
  rc ← ask WaitForExit;
  if (rc <? 0) && (rc =? - EINTR) then mret (interrupt (Some scope_obj) false) else
  ask (KillUnit scope_obj "all" SIGKILL);;
  mret Return.

(** From the reading of the request on. *)
Definition serve_request (scope_obj : string) (cgroup_id : Z) : prog leave :=
  r ← ask (StreamRead (Z.of_nat (MSG_SIZE + REQ_ATTR_SIZE)) MAX_IO_USEC);
  match read_request r.1 r.2 with
  | ReqInterrupted => mret (interrupt (Some scope_obj) true)
  | ReqError client_error rc => mret (err_close_stream client_error rc)
  | ReqLimit limit =>
      ask (StreamRegInterrupt 0);;
      rc ← ask (RateSet cgroup_id limit);
      if rc <? 0 then mret (err_close_stream false rc) else
      proceed_and_wait scope_obj limit
  end.

(** From the start of the scope on. *)
Definition limit_scope (pid : Z) (scope_name scope_obj : string) : prog leave :=
  ask (Register (FreeString scope_name));;
  ask (Register (FreeString scope_obj));;
  rc ← ask (InitPidfdEvent pid);
  if rc <? 0 then mret (err_close_stream false rc) else
  ask (Register DestroyPidfd);;
  ask (PidfdRegInterrupt INT_PROC_END);;
  cg ← get_Unit_cgroup_id scope_obj;
  match cg with
  | inl rc => failed (Some scope_obj) rc
  | inr cgroup_id =>
      rc ← ask (RateSet cgroup_id (mk_rate_limit 0 0));
      if rc <? 0 then mret (err_close_stream false rc) else
      ask (Register (ClearRateLimit cgroup_id));;
      serve_request scope_obj cgroup_id
  end.

(** From where [g_this_unit_name] is known on. *)
Definition check_and_start (pid : Z) : prog leave :=
  orig ← ask (GetUnitByPID pid);
  match orig with
  | inl rc => failed None rc
  | inr orig_unit =>
      ask (Register (FreeString orig_unit));;
      ocg ← get_Unit_cgroup_id orig_unit;
      match ocg with
      | inl rc => failed None rc
      | inr orig_cgroup_id =>
          rc ← ask (RateCheck orig_cgroup_id);
          if 0 <? rc then
            write_rate_limit_log LogRecursive;;
            mret (err_close_stream true (- ELOOP))
          else
          this_unit ← ask GetThisUnitName;
          scope ← ask (StartTransientScope pid this_unit);
          match scope with
          | inl rc => failed None rc
          | inr (scope_name, scope_obj) => limit_scope pid scope_name scope_obj
          end
      end
  end.

Definition client_handler_body (fd : Z) : prog leave :=
  rc ← ask (InitMsgStream fd);
  if rc <? 0 then mret err_close_fd else
  ask (Register DestroyStream);;
  ask (StreamRegInterrupt INT_IO_ERR);;
  nr ← ask GetNrTasks;
  if MAX_NR_TASKS <=? nr then
    write_rate_limit_msg RATE_LIMIT_FAIL RATE_LIMIT_FAIL_NORESOURCE;;
    ask ShutdownStream;;
    mret Return
  else
  ask IncNrTasks;;
  ask (Register DecreaseNrTasks);;
  pid ← ask PeerPid;
  name ← ask GetThisUnitName;
  match name with
  | Some _ => check_and_start pid
  | None =>
      self_name ← ask GetSelfUnitName;
      match self_name with
      | inl rc => failed None rc
      | inr n =>
          (* another handler may have set it while this one was suspended *)
          name ← ask GetThisUnitName;
          match name with
          | None => ask (SetThisUnitName n);; check_and_start pid
          | Some _ => check_and_start pid
          end
      end
  end.

(** The code at the labels. *)
Definition client_handler_leave (fd : Z) (l : leave) : prog unit :=
  match l with
  | Return => mret tt
  | err_close_fd => ask (CloseFd fd)
  | err_close_stream client_error rc =>
      write_rate_limit_log (LogError client_error rc);;
      write_rate_limit_msg RATE_LIMIT_FAIL
        (if client_error then RATE_LIMIT_FAIL_YOUR_ERROR else RATE_LIMIT_FAIL_INTERNAL);;
      ask ShutdownStream;;
      mret tt
  | interrupt scope_obj stream =>
      ask SetInterruptDisabled;;
      reason ← ask GetInterruptReason;
      (if (reason =? SYS_WILL_EXIT) && stream then
         write_rate_limit_msg RATE_LIMIT_FAIL RATE_LIMIT_FAIL_INTERNAL;;
         ask ShutdownStream;;
         mret tt
       else mret tt);;
      match scope_obj with
      | Some obj => ask (KillUnit obj "all" SIGKILL);; mret tt
      | None => mret tt
      end
  end.

Definition client_handler_async (fd : Z) : prog unit :=
  l ← client_handler_body fd; client_handler_leave fd l.
