(* ===== verification/Startup.v ===== *)
(** * Starting the daemon (src/main.c, src/unix_sock.c, src/cgroup_util.c and
    the BPF object of src/tcbpf_util.c)

    The cgroup hierarchy, the BPF object, the listening socket and the set-up
    sequence of [main]. The results of system and library calls are
    arguments; what is held (descriptors, memory, event sources) is explicit,
    and releasing what is not held is a fault. *)

From S2P Require Import Prelude RateLimit BpfMaps Protocol Handler Netlink Effects.

#[local] Open Scope Z_scope.

Definition ENOMEDIUM : Z := 123.

(** ** The cgroup hierarchy *)

Definition CGROUP2_SUPER_MAGIC : Z := 1667723888.
Definition TMPFS_MAGIC : Z := 16914836.
Definition CGROUP_SUPER_MAGIC : Z := 2613483.
Definition SYSFS_MAGIC : Z := 1650812274.

Definition CG_ROOT : list Z := bytes "/sys/fs/cgroup/".
Definition CG_UNIFIED : list Z := bytes "/sys/fs/cgroup/unified/".
Definition CG_SYSTEMD : list Z := bytes "/sys/fs/cgroup/systemd/".

Section Cgroup.
(** [statfs] gives errno or the type of the file system, [open] errno or a
    descriptor. *)
Context (statfs open : list Z → Z + Z).

(** Where cgroup2 is mounted, or the error. *)
Definition find_cgv2_path : Z + list Z :=
  match statfs CG_ROOT with
  | inl e => inl (- e)
  | inr f_type =>
      if f_type =? CGROUP2_SUPER_MAGIC then inr CG_ROOT
      else if f_type =? TMPFS_MAGIC then
        let unified :=
          match statfs CG_UNIFIED with inr t => t =? CGROUP2_SUPER_MAGIC | inl _ => false end in
        if unified then inr CG_UNIFIED
        else
          match statfs CG_SYSTEMD with
          | inl e => if e =? ENOENT then inl (- ENOMEDIUM) else inl (- e)
          | inr f_type =>
              if f_type =? CGROUP2_SUPER_MAGIC then inr CG_SYSTEMD
              else if f_type =? CGROUP_SUPER_MAGIC then inl (- ENOMEDIUM)
              else inl (- ENOMEDIUM)
          end
      else if f_type =? SYSFS_MAGIC then inl (- ENOMEDIUM)
      else inl (- ENOMEDIUM)
  end.

(** [cg_find_unified] on [cgroupv2_root_fd]: the result and the variable. *)
Definition cg_find_unified (root_fd : Z) : Z * Z :=
  if negb (root_fd =? -1) then (0, root_fd)
  else
    match find_cgv2_path with
    | inl rc => (rc, root_fd)
    | inr cgv2_path =>
        match open cgv2_path with
        | inl e => (- e, root_fd)
        | inr fd => (0, fd)
        end
    end.

End Cgroup.

(** The buffer of [cg_path_get_cgroupid] and what snprintf leaves in it. *)
Definition formatted_path_size (path : list Z) : nat := length path + 1 + 2 + 10.

Definition snprintf (size : nat) (s : list Z) : list Z := take (size - 1) s.

(** [cg_path_get_cgroupid]: [name_to_handle_at] gives errno or the bytes of the
    handle, eight of which are the id. *)
Definition cg_path_get_cgroupid (name_to_handle_at : Z → list Z → Z + list Z) (root_fd : Z) (path : list Z)
  : Z + Z :=
  if root_fd <? 0 then inl (- ENOMEDIUM)
  else
    let formatted_path := snprintf (formatted_path_size path) (bytes "./" ++ path) in
    match name_to_handle_at root_fd formatted_path with
    | inl e => inl (- e)
    | inr f_handle => inr (field 0 8 f_handle)
    end.

(** ** The BPF object *)

(** [cg_rl_skel] and the size of its maps. *)
Record bpf_obj : Type := mk_obj { obj_entries : Z; obj_loaded : bool }.

(** [open_and_load_bpf_obj] for errno of a failed open (0: it worked) and the
    result of load. [None] is a failed assertion, or an overflow. *)
Definition open_and_load_bpf_obj (open_errno load_rc : Z) (max_tasks : Z) (skel : option bpf_obj)
  : option (Z * option bpf_obj) :=
  match skel with
  | Some _ => None
  | None =>
      if max_tasks <=? 0 then None
      else if negb (open_errno =? 0) then Some (- open_errno, None)
      else
        max_tasks ← map_size max_tasks;
        if load_rc <? 0 then Some (load_rc, None)
        else Some (0, Some (mk_obj max_tasks true))
  end.

Definition close_bpf_obj (skel : option bpf_obj) : option (Z * option bpf_obj) :=
  match skel with None => None | Some _ => Some (0, None) end.

(** ** The listening socket *)

(** The event source of the socket: whether it owns the descriptor and has the
    destroy callback. *)
Record source : Type := mk_source { src_owns_fd : bool; src_destroys : bool }.

(** Whether the descriptor passed by systemd is open and the argument of the
    handler allocated, and the source. *)
Record listener : Type := mk_listener { lst_fd : bool; lst_arg : bool; lst_src : option source }.

Definition close_fd : ST listener unit := λ l,
  if lst_fd l then Some (tt, mk_listener false (lst_arg l) (lst_src l)) else None.
Definition free_arg : ST listener unit := λ l,
  if lst_arg l then Some (tt, mk_listener (lst_fd l) false (lst_src l)) else None.
Definition malloc_arg : ST listener unit := λ l, Some (tt, mk_listener (lst_fd l) true (lst_src l)).
Definition set_source (s : option source) : ST listener unit := λ l,
  Some (tt, mk_listener (lst_fd l) (lst_arg l) s).

(** Releasing the source: a descriptor it owns is closed, and
    [unix_server_listen_destroy_handler] frees the argument. *)
Definition unref_source : ST listener unit :=
  s ← gets lst_src;
  set_source None;;
  (if src_owns_fd s then close_fd else mret tt);;
  (if src_destroys s then free_arg else mret tt).

(** The results of the calls of [setup_unix_listening_socket]: numbers of
    descriptors, the socket test, flags or -1, errno of the second fcntl and
    of malloc (0: it worked), and the three results of sd-event. *)
Record listen_results : Type := mk_listen {
  r_listen_fds : Z; r_is_socket : Z; r_getfl : Z; r_getfl_errno : Z; r_setfl_errno : Z;
  r_malloc_errno : Z; r_add_io : Z; r_fd_own : Z; r_destroy : Z;
}.

Definition O_NONBLOCK : Z := 2048.

Definition setup_unix_listening_socket (a : listen_results) : ST listener Z :=
  if r_listen_fds a <? 1 then mret (- EINVAL)
  else if r_is_socket a =? 0 then mret (- EINVAL)
  else if r_getfl a =? -1 then mret (- r_getfl_errno a)
  else if (Z.land (r_getfl a) O_NONBLOCK =? 0) && negb (r_setfl_errno a =? 0) then mret (- r_setfl_errno a)
  else if negb (r_malloc_errno a =? 0) then close_fd;; mret (- r_malloc_errno a)
  else
    malloc_arg;;
    if r_add_io a <? 0 then free_arg;; close_fd;; mret (r_add_io a)
    else
      set_source (Some (mk_source false false));;
      if r_fd_own a <? 0 then unref_source;; free_arg;; close_fd;; mret (r_fd_own a)
      else
        set_source (Some (mk_source true false));;
        if r_destroy a <? 0 then unref_source;; free_arg;; mret (r_destroy a)
        else
          set_source (Some (mk_source true true));;
          mret (r_destroy a).

(** ** Accepting connections *)

(** [unix_server_listen_handler]: [accept] gives errno or a descriptor, which
    [client_handler] passes to [se_task_create], whose result is ignored. *)
Definition unix_server_listen_handler (accept : Z + Z) (create_rc : Z) : Z * option Z * option Z :=
  match accept with
  | inl e => (- e, None, None)
  | inr cfd => (0, Some cfd, if create_rc <? 0 then Some cfd else None)
  end.

(** The service: whether the source is enabled, the clients given to a task,
    and the descriptors that nobody closes. sd-event disables a source whose
    handler returns an error. *)
Record service : Type := mk_service { svc_enabled : bool; svc_clients : list Z; svc_lost : list Z }.

(** A connection is pending; the answers of accept4 and se_task_create. *)
Definition dispatch_listener (accept : Z + Z) (create_rc : Z) (s : service) : service :=
  if svc_enabled s then
    let '(rc, client, lost) := unix_server_listen_handler accept create_rc in
    mk_service (negb (rc <? 0))
      (match client, lost with Some c, None => c :: svc_clients s | _, _ => svc_clients s end)
      (match lost with Some c => c :: svc_lost s | None => svc_lost s end)
  else s.

(** ** [main] up to its loop *)

Definition SIGINT : Z := 2.
Definition SIGTERM : Z := 15.
Definition NO_JOB_SLEEP_DELAY : Z := 20 * 1000 * 1000.

(** [install_signals] for errno of sigprocmask (0: it worked). *)
Definition install_signals (errno : Z) : Z := if negb (errno =? 0) then - errno else 0.

Inductive main_io : Type → Type :=
  | Getenv (name : list Z) : main_io (option (list Z))
  | LogSetSystemd : main_io unit
  | InitSystem : main_io unit                   (* s_task_init_system *)
  | InstallSignals : main_io Z
  | CgFindUnified : main_io Z
  | OpenAndLoad (max_tasks : Z) : main_io Z
  | TcSetup (ifnames : list Z) : main_io Z
  | EventDefault : main_io Z
  | AddSignal (sig : Z) : main_io Z
  | InitializeBus : main_io Z
  | SetupListening : main_io Z
  | AddTimer (usec : Z) : main_io Z
  | TimerOff : main_io Z
  | MainLoop : main_io Z                         (* 0, or -1 for an error *)
  | UnrefDaemonBus : main_io unit
  | UnrefListener : main_io unit
  | UnrefTimer : main_io unit
  | UnrefLoop : main_io unit
  | FreeUnitName : main_io unit
  | HasUnitName : main_io bool
  | CloseBpf : main_io unit.

(** The calls of the set-up that may fail, in order. *)
Definition setup_steps (ifnames : list Z) : list (main_io Z) :=
  [InstallSignals; CgFindUnified; OpenAndLoad MAX_NR_TASKS; TcSetup ifnames; EventDefault;
   AddSignal SIGINT; AddSignal SIGTERM; InitializeBus; SetupListening; AddTimer NO_JOB_SLEEP_DELAY;
   TimerOff].

(** Every call is followed by a test that returns -1. *)
Fixpoint all_or_fail (qs : list (main_io Z)) : prog main_io bool :=
  match qs with
  | [] => mret true
  | q :: qs => rc ← ask q; if rc <? 0 then mret false else all_or_fail qs
  end.

(** What [main] does after its loop. The bus, the listening source and the
    timer were set by the set-up. *)
Definition main_leave : prog main_io Z :=
  ask UnrefDaemonBus;;
  ask UnrefListener;;
  ask UnrefTimer;;
  ask UnrefLoop;;
  named ← ask HasUnitName;
  (if (named : bool) then ask FreeUnitName else mret tt);;
  ask CloseBpf;;
  mret 0.

Definition main : prog main_io Z :=
  systemd ← ask (Getenv (bytes "SYSTEMD"));
  match systemd with Some _ => ask LogSetSystemd | None => mret tt end;;
  ifnames ← ask (Getenv (bytes "IFACES"));
  match ifnames with
  | None => mret (-1)
  | Some ifnames =>
      ask InitSystem;;
      ok ← all_or_fail (setup_steps ifnames);
      if negb ok then mret (-1)
      else
        rc ← ask MainLoop;
        if rc <? 0 then mret (-1) else main_leave
  end.

(** ** Properties *)

(** C38. The cgroup hierarchy: a first call succeeds exactly with a descriptor
    of one of the three known places where a cgroup2 file system is mounted;
    otherwise it fails and leaves no descriptor; once there is one, it is
    kept. Looking up a cgroup asks for its path under that descriptor,
    complete and relative, and for nothing without one. *)
Theorem cgroup_root_is_cgroup2 statfs open handle root_fd path :
  (∀ p e, statfs p = inl e → 0 < e) → (∀ p e, open p = inl e → 0 < e) →
  (let '(rc, fd) := cg_find_unified statfs open (-1) in
   (rc = 0 ∧ ∃ p, p ∈ [CG_ROOT; CG_UNIFIED; CG_SYSTEMD] ∧ statfs p = inr CGROUP2_SUPER_MAGIC ∧
      open p = inr fd) ∨
   (rc < 0 ∧ fd = -1)) ∧
  (root_fd ≠ -1 → cg_find_unified statfs open root_fd = (0, root_fd)) ∧
  (cg_path_get_cgroupid handle root_fd path =
    if root_fd <? 0 then inl (- ENOMEDIUM)
    else match handle root_fd (bytes "./" ++ path) with
         | inl e => inl (- e)
         | inr h => inr (field 0 8 h)
         end).
Proof.
  intros Hs Ho. split; [|split].
  - unfold cg_find_unified. cbn [Z.eqb negb Pos.eqb].
    destruct (find_cgv2_path statfs) as [rc|p] eqn:E.
    + right. split; [|done]. unfold find_cgv2_path in E.
      repeat case_match; simplify_eq; try done; unfold ENOMEDIUM;
        try (match goal with H : statfs _ = inl _ |- _ => apply Hs in H end); lia.
    + destruct (open p) as [e|fd] eqn:Eo; [right; split; [apply Ho in Eo; lia|done]|].
      left. split; [done|]. exists p. unfold find_cgv2_path in E.
      repeat case_match; simplify_eq;
        repeat match goal with H : (_ =? _) = true |- _ => apply Z.eqb_eq in H end; subst;
        (split; [set_solver|split; [congruence|done]]).
  - intros Hfd. unfold cg_find_unified. by rewrite (proj2 (Z.eqb_neq _ _)).
  - unfold cg_path_get_cgroupid, snprintf, formatted_path_size. destruct (root_fd <? 0); [done|].
    rewrite take_ge; [done|]. rewrite length_app. change (length (bytes "./")) with 2%nat. lia.
Qed.

Lemma cgroup_root_is_cgroup2_witness :
  cg_find_unified (λ p, if decide (p = CG_ROOT) then inr TMPFS_MAGIC else inr CGROUP2_SUPER_MAGIC)
    (λ _, inr 5) 7 = (0, 7).
Proof.
  refine (proj1 (proj2 (cgroup_root_is_cgroup2
    (λ p, if decide (p = CG_ROOT) then inr TMPFS_MAGIC else inr CGROUP2_SUPER_MAGIC) (λ _, inr 5)
    (λ _ _, inl 2) 7 [] _ _)) _).
  - intros p e H. destruct (decide (p = CG_ROOT)); discriminate.
  - discriminate.
  - discriminate.
Defined.

(** The state in which systemd starts the daemon. *)
Definition passed_socket : listener := mk_listener true false None.

Definition listen_ok (a : listen_results) : Prop :=
  0 < r_getfl_errno a ∧ 0 <= r_setfl_errno a ∧ 0 <= r_malloc_errno a.

(** C37. Setting up the listening socket releases nothing twice. If it succeeds,
    the event source owns the descriptor and the handler's argument, and
    releasing it later releases both, once; if it fails, there is no source
    and the argument is freed. *)
Theorem listener_owned_once a :
  listen_ok a →
  ∃ rc l, setup_unix_listening_socket a passed_socket = Some (rc, l) ∧
    ((0 <= rc ∧ l = mk_listener true true (Some (mk_source true true)) ∧
      unref_source l = Some (tt, mk_listener false false None)) ∨
     (rc < 0 ∧ lst_arg l = false ∧ lst_src l = None)).
Proof.
  intros (H1 & H2 & H3). unfold setup_unix_listening_socket.
  destruct (Z.ltb_spec (r_listen_fds a) 1); [eexists _, _; split; [done|right; done]|].
  destruct (_ =? 0); [eexists _, _; split; [done|right; done]|].
  destruct (_ =? -1); [eexists _, _; split; [done|right; split; [lia|done]]|].
  destruct (_ && _) eqn:E.
  { apply andb_true_iff in E as [_ E%negb_true_iff%Z.eqb_neq].
    eexists _, _. split; [done|right; split; [lia|done]]. }
  destruct (Z.eqb_spec (r_malloc_errno a) 0); cbn [negb];
    [|eexists _, _; split; [done|right; split; [lia|done]]].
  cbn. destruct (Z.ltb_spec (r_add_io a) 0) as [Hc|]; [eexists _, _; split; [done|right; done]|].
  cbn. destruct (Z.ltb_spec (r_fd_own a) 0) as [Hc|]; [eexists _, _; split; [done|right; done]|].
  cbn. destruct (Z.ltb_spec (r_destroy a) 0) as [Hc|]; [eexists _, _; split; [done|right; done]|].
  eexists _, _. split; [done|left]. split_and!; done || lia.
Qed.

Lemma listener_owned_once_witness :
  ∃ rc l, setup_unix_listening_socket (mk_listen 1 1 2050 1 0 0 0 0 (-12)) passed_socket = Some (rc, l) ∧
    ((0 <= rc ∧ l = mk_listener true true (Some (mk_source true true)) ∧
      unref_source l = Some (tt, mk_listener false false None)) ∨
     (rc < 0 ∧ lst_arg l = false ∧ lst_src l = None)).
Proof. apply (listener_owned_once (mk_listen 1 1 2050 1 0 0 0 0 (-12))). repeat split; lia || done. Defined.

(** The set-up, once it is through, went through every step. *)
Lemma all_or_fail_spec (ok : ∀ B, main_io B → B → Prop) qs :
  spec ok (all_or_fail qs) (λ l r,
    (r = true ∧ ∃ bs, l = zip_with (λ q b, Ev q b) qs bs ∧ length bs = length qs ∧ Forall (Z.le 0) bs) ∨
    (r = false ∧ ∃ done q rest bs b, qs = done ++ q :: rest ∧
      l = zip_with (λ q b, Ev q b) done bs ++ [Ev q b] ∧ length bs = length done ∧ b < 0)).
Proof.
  induction qs as [|q qs IH]; cbn [all_or_fail].
  - apply spec_ret. left. split; [done|]. by exists [].
  - apply spec_ask. intros b _. destruct (Z.ltb_spec b 0) as [Hb|Hb].
    + apply spec_ret. right. split; [done|]. by exists [], q, qs, [], b.
    + eapply spec_mono; [exact IH|].
      intros l r [(-> & bs & -> & Hl & Hbs)|(-> & dn & q' & rest & bs & b' & -> & -> & Hl & Hb')].
      * left. split; [done|]. exists (b :: bs). split; [done|]. split; [by cbn; rewrite Hl|by constructor].
      * right. split; [done|]. exists (q :: dn), q', rest, (b :: bs), b'. split_and!; try done. by cbn; rewrite Hl.
Qed.

(** What is released after the loop. *)
Definition leave_trace (named : bool) : list (ev main_io) :=
  [Ev UnrefDaemonBus (); Ev UnrefListener (); Ev UnrefTimer (); Ev UnrefLoop (); Ev HasUnitName named] ++
  (if named then [Ev FreeUnitName ()] else []) ++ [Ev CloseBpf ()].

Definition is_main_loop (e : ev main_io) : bool :=
  match e with Ev q _ => match q with MainLoop => true | _ => false end end.

(** What has to be there before anybody is served: the signals are blocked, the
    cgroup hierarchy is found, the BPF object is loaded for 1000 tasks and its
    program attached to the interfaces, the event loop handles SIGINT (2) and
    SIGTERM (15), the bus and the listening socket are there, and the timer of
    20 s is, switched off. *)
Definition prepared (ifnames : list Z) (l : list (ev main_io)) : Prop :=
  Forall2 (λ (q : main_io Z) e, ∃ rc, 0 <= rc ∧ e = Ev q rc)
    [InstallSignals; CgFindUnified; OpenAndLoad 1000; TcSetup ifnames; EventDefault; AddSignal 2;
     AddSignal 15; InitializeBus; SetupListening; AddTimer 20000000; TimerOff] l.

(** A run that served: the interfaces, the set-up, the loop with its result,
    and what followed. *)
Definition served (tr : list (ev main_io)) (rc : Z) : Prop :=
  ∃ ifnames pre l b rest,
    tr = pre ++ l ++ Ev MainLoop b :: rest ∧
    Forall (λ e, is_main_loop e = false) pre ∧
    Ev (Getenv (bytes "IFACES")) (Some ifnames) ∈ pre ∧ prepared ifnames l ∧
    ((0 <= b ∧ rc = 0 ∧ ∃ named, rest = leave_trace named) ∨ (b < 0 ∧ rc = -1 ∧ rest = [])).

(** A run that could not be set up: there are no interfaces, or a call failed. *)
Definition not_set_up (tr : list (ev main_io)) : Prop :=
  Ev (Getenv (bytes "IFACES")) None ∈ tr ∨ ∃ (q : main_io Z) b, b < 0 ∧ Ev q b ∈ tr.

Definition main_outcome (tr : list (ev main_io)) (rc : Z) : Prop :=
  (rc = -1 ∧ Forall (λ e, is_main_loop e = false) tr ∧ not_set_up tr) ∨ served tr rc.

Lemma zip_prepared (qs : list (main_io Z)) bs :
  length bs = length qs → Forall (Z.le 0) bs →
  Forall2 (λ (q : main_io Z) e, ∃ rc, 0 <= rc ∧ e = Ev q rc) qs (zip_with (λ q b, Ev q b) qs bs).
Proof.
  revert bs; induction qs as [|q qs IH]; intros [|b bs] Hl Hb; try done.
  apply Forall_cons in Hb as [Hb Hbs]. cbn. constructor; [by exists b|]. apply IH; [by injection Hl|done].
Qed.

Lemma setup_no_loop ifnames dn rest bs :
  setup_steps ifnames = dn ++ rest →
  Forall (λ e, is_main_loop e = false) (zip_with (λ q b, Ev q b) dn bs).
Proof.
  intros H. assert (Forall (λ q : main_io Z, ∀ b, is_main_loop (Ev q b) = false) dn) as Hd.
  { assert (Forall (λ q : main_io Z, ∀ b, is_main_loop (Ev q b) = false) (setup_steps ifnames)) as Hall
      by (repeat constructor). rewrite H in Hall. by apply Forall_app in Hall as [? _]. }
  clear H. revert bs. induction Hd as [|q dn Hq _ IH]; intros [|b bs]; cbn; constructor; auto.
Qed.

Lemma main_leave_spec ok : spec ok main_leave (λ l rc, rc = 0 ∧ ∃ named, l = leave_trace named).
Proof.
  unfold main_leave. do 4 (apply spec_ask; intros [] _). apply spec_ask. intros [|] _.
  - do 2 (apply spec_ask; intros [] _). apply spec_ret. split; [done|by exists true].
  - apply spec_ret_bind. apply spec_ask; intros [] _. apply spec_ret. split; [done|by exists false].
Qed.

(** From the environment on. *)
Lemma main_body_spec ok ifnames :
  spec ok (ask InitSystem;; o ← all_or_fail (setup_steps ifnames);
           if negb o then mret (-1) else rc ← ask MainLoop; if rc <? 0 then mret (-1) else main_leave)
    (λ l rc, ∀ pre, Forall (λ e, is_main_loop e = false) pre →
       Ev (Getenv (bytes "IFACES")) (Some ifnames) ∈ pre → main_outcome (pre ++ l) rc).
Proof.
  apply spec_ask. intros [] _. eapply spec_bind; [apply all_or_fail_spec|].
  intros l o [(-> & bs & -> & Hl & Hbs)|(-> & dn & q & rest & bs & b & Hq & -> & Hl & Hb)]; cbn [negb].
  - apply spec_ask. intros b _. destruct (Z.ltb_spec b 0) as [Hb|Hb].
    + apply spec_ret. intros pre Hp Hin. right. eexists ifnames, (pre ++ [Ev InitSystem ()]), _, b, [].
      split_and!; [by rewrite <-(assoc_L (++))|apply Forall_app; by repeat constructor|set_solver|by apply zip_prepared|by right].
    + eapply spec_mono; [apply main_leave_spec|]. intros l rc (-> & named & ->).
      intros pre Hp Hin; right; eexists ifnames, (pre ++ [Ev InitSystem ()]), _, b, (leave_trace named).
      split_and!;
        [by rewrite <-(assoc_L (++))|apply Forall_app; by repeat constructor|set_solver|by apply zip_prepared|left; eauto].
  - apply spec_ret. intros pre Hp Hin. left. split; [done|].
    split; [|right; exists q, b; split; [done|set_solver]]. apply Forall_app. split; [done|].
    constructor; [done|]. rewrite app_nil_r. apply Forall_app. split; [by eapply setup_no_loop|].
    constructor; [|done]. assert (q ∈ setup_steps ifnames) as Hqin by (rewrite Hq; set_solver).
    unfold setup_steps in Hqin. set_unfold. naive_solver.
Qed.

(** C15. The daemon serves nobody before it is ready: a run of [main] that gets
    to its loop has made, in this order and each with success, the eleven calls
    of [prepared]: signals, the cgroup hierarchy, the BPF object for 1000
    tasks, traffic control on the interfaces of IFACES, the event loop with
    SIGINT and SIGTERM, the bus, the listening socket and the timer, switched
    off. A run that does not get to its loop ends with -1, and IFACES was not
    set or a call failed. The exit status is 0 exactly if the loop ended
    without an error, and then everything is released once. *)
Theorem serves_only_when_ready tr r :
  runs (λ _ _ _, True) main tr r → ∃ rc, r = Some rc ∧ main_outcome tr rc.
Proof.
  intros Hr. refine (spec_runs _ main main_outcome tr r _ Hr). unfold main.
  apply spec_ask. intros sysd _.
  eapply (spec_bind _ _ _ (λ l _, Forall (λ e, is_main_loop e = false) l)).
  { destruct sysd; [apply spec_ask_last; by repeat constructor|by apply spec_ret]. }
  intros l [] Hl. apply spec_ask. intros [ifnames|] _.
  - eapply spec_mono; [apply main_body_spec|]. cbn. intros l2 rc H.
    specialize (H (Ev (Getenv (bytes "SYSTEMD")) sysd :: l ++ [Ev (Getenv (bytes "IFACES")) (Some ifnames)])).
    cbn in H. rewrite <-(assoc_L (++)) in H. apply H; [|set_solver].
    constructor; [done|]. apply Forall_app. split; [done|by repeat constructor].
  - apply spec_ret. left. split; [done|]. split; [|left; set_solver].
    constructor; [done|]. apply Forall_app. split; [done|by repeat constructor].
Qed.

(** Everything works, and the loop ends. *)
Definition example_system (n : nat) (B : Type) (q : main_io B) : B :=
  match q with
  | Getenv name => if decide (name = bytes "IFACES") then Some (bytes "eth0") else None
  | LogSetSystemd | InitSystem | UnrefDaemonBus | UnrefListener | UnrefTimer | UnrefLoop
  | FreeUnitName | CloseBpf => tt
  | HasUnitName => true
  | _ => 0
  end.

Lemma serves_only_when_ready_witness :
  let run := exec example_system 0 main in run.2 = Some 0 ∧ main_outcome run.1 0.
Proof.
  intros run. destruct (serves_only_when_ready run.1 run.2) as (rc & E & H).
  - eapply exec_runs; [done|apply surjective_pairing].
  - assert (run.2 = Some 0) as H0 by (vm_compute; reflexivity).
    rewrite E in H0. injection H0 as ->. split; [exact E|exact H].
Defined.

(** ** What the code does not mean to do *)

(** sd-event disables a source whose handler fails: after one failed accept4,
    the daemon accepts no connection any more. *)
Lemma accept_error_stops_service e create_rc s accepts :
  0 < e →
  svc_clients (foldl (λ s a, dispatch_listener a 0 s) (dispatch_listener (inl e) create_rc s) accepts) =
  svc_clients s.
Proof.
  intros He. unfold dispatch_listener at 2. destruct (svc_enabled s) eqn:E.
  - cbn. rewrite (proj2 (Z.ltb_lt _ _)) by lia. cbn. induction accepts as [|a l IH]; [done|exact IH].
  - induction accepts as [|a l IH]; [done|]. cbn. unfold dispatch_listener at 2. by rewrite E.
Qed.

(** The descriptor of a client for which no task could be created is never
    closed. *)
Lemma create_error_loses_client cfd create_rc s :
  svc_enabled s = true → create_rc < 0 →
  svc_lost (dispatch_listener (inr cfd) create_rc s) = cfd :: svc_lost s.
Proof.
  intros Hs Hc. unfold dispatch_listener. rewrite Hs. cbn. by rewrite (proj2 (Z.ltb_lt _ _)).
Qed.

(** An error of sd_is_socket counts as a socket. *)
Lemma socket_error_accepted :
  setup_unix_listening_socket (mk_listen 1 (-9) 2048 1 0 0 0 0 0) passed_socket =
  Some (0, mk_listener true true (Some (mk_source true true))).
Proof. reflexivity. Qed.
