(* ===== verification/Daemon.v ===== *)
(** * The handlers of the daemon together (src/main.c)

    Any number of [client_handler_async] coroutines, interleaved where they
    are suspended: how the questions of [Handler] are answered, the cleanups
    that run at the end of a handler, and the steps of the daemon. *)

From S2P Require Import Prelude RateLimit BpfMaps Protocol Client Handler.

#[local] Open Scope Z_scope.

(** ** Answers *)

Section daemon.
Context `{K : KernelMap}.

(** [decrease_nr_tasks], [clear_rate_limit] and the other cleanups; [None] is
    the abort of [decrease_nr_tasks]. *)
Definition decrease_nr_tasks (d : daemon_state) : option daemon_state :=
  if 0 <? g_nr_tasks d
  then Some (mk_daemon (g_nr_tasks d - 1) (g_this_unit_name d) (limits d)) else None.

Definition clear_rate_limit (cgroup_id : Z) (d : daemon_state) : daemon_state :=
  mk_daemon (g_nr_tasks d) (g_this_unit_name d) (cgroup_rate_limit_unset (limits d) cgroup_id).2.

Definition run_cleanup (c : cleanup) (d : daemon_state) : option daemon_state :=
  match c with
  | DecreaseNrTasks => decrease_nr_tasks d
  | ClearRateLimit cg => Some (clear_rate_limit cg d)
  | DestroyStream | FreeString _ | DestroyPidfd => Some d
  end.

(** The loop of [se_task_entry] over [memory_to_free]. *)
Fixpoint run_cleanups (cs : list cleanup) (d : daemon_state) : option daemon_state :=
  match cs with [] => Some d | c :: cs => d' ← run_cleanup c d; run_cleanups cs d' end.

(** Questions about the daemon's own state: answer and new state. *)
Definition own {A} (q : io A) (d : daemon_state) (l : local_state) :
    option (A * daemon_state * local_state) :=
  match q in io A return option (A * daemon_state * local_state) with
  | GetNrTasks => Some (g_nr_tasks d, d, l)
  | IncNrTasks => Some (tt, mk_daemon (g_nr_tasks d + 1) (g_this_unit_name d) (limits d), l)
  | GetThisUnitName => Some (g_this_unit_name d, d, l)
  | SetThisUnitName n => Some (tt, mk_daemon (g_nr_tasks d) (Some n) (limits d), l)
  | Register c => Some (tt, d, mk_local (c :: cleanups l) (trace l))
  | RateCheck cg => Some (cgroup_rate_limit_check (limits d) cg, d, l)
  | RateSet cg limit =>
      let '(rc, m) := cgroup_rate_limit_set (limits d) cg limit in
      Some (rc, mk_daemon (g_nr_tasks d) (g_this_unit_name d) m, l)
  | _ => None
  end.

(** What an answer of the system leaves in the trace. *)
Definition observe (x : obs) (l : local_state) : local_state := mk_local (cleanups l) (x :: trace l).

Definition record {A} (q : io A) (a : A) (l : local_state) : local_state :=
  match q in io B return B → local_state with
  | PeerPid => λ a, observe (OPeer a) l
  | GetUnitByPID pid => λ a, match a with inr u => observe (OUnitOf pid u) l | inl _ => l end
  | UnitControlGroup u => λ a, match a with inr path => observe (OUnitPath u path) l | inl _ => l end
  | PathGetCgroupId path => λ a, match a with inr cg => observe (OPathId path cg) l | inl _ => l end
  | StartTransientScope _ _ => λ a, match a with inr (_, obj) => observe (OScope obj) l | inl _ => l end
  | StreamRead _ _ => λ a, observe (ORead a.1 a.2) l
  | StreamWrite bs _ => λ _, observe (OWrite bs) l
  | KillUnit obj who signal => λ rc, observe (OKill obj who signal rc) l
  | _ => λ _, l
  end a.

(** The cgroups a handler will release, and the places it holds. *)
Definition cgroups_of (l : local_state) : list Z :=
  omap (λ c, match c with ClearRateLimit cg => Some cg | _ => None end) (cleanups l).
Definition slots_of (l : local_state) : Z :=
  Z.of_nat (length (filter (λ c, c = DecreaseNrTasks) (cleanups l))).

(** [path] is the control group of a scope this handler started. *)
Definition scope_path (path : string) (tr : list obs) : bool :=
  existsb (λ x, match x with
    | OUnitPath obj p => String.eqb p path &&
        existsb (λ y, match y with OScope obj' => String.eqb obj' obj | _ => false end) tr
    | _ => false
    end) tr.

(** What is assumed of the answers of the system: the cgroup of a new scope
    (whose name is random) has an id that no other limited cgroup has. [taken]
    are the cgroups of all handlers. *)
Definition valid {A} (q : io A) (a : A) (l : local_state) (taken : list Z) : bool :=
  match q in io B return B → bool with
  | PathGetCgroupId path => λ a,
      match a with
      | inr cg => negb (scope_path path (trace l)) || negb (bool_decide (cg ∈ taken))
      | inl _ => true
      end
  | _ => λ _, true
  end a.

(** ** Running a handler up to its next suspension

    [env n] answers the [n]-th question; [ho] are the cgroups of the other
    handlers. *)

Inductive run_result : Type :=
  | Suspended (p : prog unit) (l : local_state)
  | Ended (l : local_state)
  | Aborted
  | Impossible.    (* the system gave an answer it does not give *)

Fixpoint run (env : nat → ∀ A, io A → A) (n : nat) (p : prog unit) (d : daemon_state)
    (l : local_state) (ho : list Z) : run_result * daemon_state :=
  match p with
  | Ret _ => match run_cleanups (cleanups l) d with
             | Some d' => (Ended l, d')
             | None => (Aborted, d)
             end
  | Ask q k =>
      match own q d l with
      | Some (a, d', l') => run env (S n) (k a) d' l' ho
      | None =>
          if suspends q then (Suspended (Ask q k) l, d)
          else if valid q (env n _ q) l (cgroups_of l ++ ho)
               then run env (S n) (k (env n _ q)) d (record q (env n _ q) l) ho
               else (Impossible, d)
      end
  end.

(** ** The daemon *)

Record handler : Type := mk_handler { h_prog : prog unit; h_local : local_state }.

(** The global state, the suspended handlers, and what the ended ones did. *)
Record daemon : Type := mk_config {
  state : daemon_state;
  handlers : list handler;
  finished : list local_state;
}.

Definition held_by (hs : list handler) : list Z := hs ≫= λ h, cgroups_of (h_local h).

(** The daemon at start. *)
Definition daemon_init : daemon := mk_config (mk_daemon 0 None ∅) [] [].

Inductive outcome : Type :=
  | Runs (c : daemon)
  | Crashes                (* abort() *)
  | NotPossible.           (* no such handler, or no such answer *)

(** The daemon after a segment of a handler among the others [hs]; [put]
    places the handler that is suspended again. *)
Definition after (c : daemon) (hs : list handler) (put : handler → list handler)
    (r : run_result * daemon_state) : outcome :=
  match r with
  | (Suspended p l, d) => Runs (mk_config d (put (mk_handler p l)) (finished c))
  | (Ended l, d) => Runs (mk_config d hs (l :: finished c))
  | (Aborted, _) => Crashes
  | (Impossible, _) => NotPossible
  end.

(** A new connection starts a handler; [client_handler] of main.c. *)
Definition accept (env : nat → ∀ A, io A → A) (fd : Z) (c : daemon) : outcome :=
  after c (handlers c) (λ h, handlers c ++ [h])
    (run env 0 (client_handler_async fd) (state c) (mk_local [] []) (held_by (handlers c))).

(** The answer to the question handler [i] is suspended at arrives. *)
Definition answer (env : nat → ∀ A, io A → A) (i : nat) (c : daemon) : outcome :=
  match handlers c !! i with
  | Some (mk_handler (Ask q k) l) =>
      after c (delete i (handlers c)) (λ h, <[i := h]> (handlers c))
        (run env 1 (k (env 0%nat _ q)) (state c) (record q (env 0%nat _ q) l)
          (held_by (delete i (handlers c))))
  | _ => NotPossible
  end.

(** Connections come in and answers arrive in any order. *)
Inductive daemon_step : daemon → daemon → Prop :=
  | step_accept env fd c c' : accept env fd c = Runs c' → daemon_step c c'
  | step_answer env i c c' : answer env i c = Runs c' → daemon_step c c'.

Definition reachable (c : daemon) : Prop := rtc daemon_step daemon_init c.

End daemon.
