(* ===== verification/DaemonInv.v ===== *)
(** * The invariant of the daemon

    What the handlers own together, and a calculus of weakest preconditions
    for the handler program in which the others may change everything that is
    not its own while it is suspended; every step of the daemon keeps the
    invariant. *)

From S2P Require Import Prelude RateLimit BpfMaps Protocol Client Handler Daemon.

#[local] Open Scope Z_scope.

Section daemon_inv.
Context `{K : KernelMap}.

(** ** Consistency

    Every handler owns the places and the cgroups its cleanups will release. *)

Definition total_slots (ls : list local_state) : Z := foldr (λ l n, slots_of l + n) 0 ls.
Definition held (ls : list local_state) : list Z := ls ≫= cgroups_of.

Record consistent_all (d : daemon_state) (ls : list local_state) : Prop := {
  co_slots : g_nr_tasks d = total_slots ls;
  co_max : g_nr_tasks d <= MAX_NR_TASKS;
  co_nodup : NoDup (held ls);
  co_limits cg : is_Some (limits d !! cg) ↔ cg ∈ held ls;
  co_one : Forall (λ l, Z.of_nat (length (cgroups_of l)) <= slots_of l) ls;
}.

(** The other handlers, the limits they have set and the name they know. *)
Record others : Type := mk_others {
  o_locals : list local_state; o_limits : limit_map; o_name : option string;
}.

Definition others_kept (d : daemon_state) (o : others) : Prop :=
  (∀ cg, cg ∈ held (o_locals o) → limits d !! cg = o_limits o !! cg) ∧
  ∀ n, o_name o = Some n → g_this_unit_name d = Some n.

Definition consistent (d : daemon_state) (l : local_state) (o : others) : Prop :=
  consistent_all d (l :: o_locals o) ∧ others_kept d o.

(** Nobody else has touched the limits of [l] or changed the name. *)
Definition agrees (l : local_state) (d d' : daemon_state) : Prop :=
  (∀ cg, cg ∈ cgroups_of l → limits d' !! cg = limits d !! cg) ∧
  ∀ n, g_this_unit_name d = Some n → g_this_unit_name d' = Some n.

(** The handler handed the client a message that it takes as permission to
    start. *)
Definition told (tr : list obs) : Prop := ∃ bs, OWrite bs ∈ tr ∧ client_reply bs = ReplyProceed.

(** The kernel has the limit the client asked for on the cgroup of the scope
    the handler started, and the handler will remove it. *)
Definition may_proceed (d : daemon_state) (l : local_state) : Prop :=
  ∃ obj path cg rc buf limit,
    OScope obj ∈ trace l ∧ OUnitPath obj path ∈ trace l ∧ OPathId path cg ∈ trace l ∧
    ORead rc buf ∈ trace l ∧ read_request rc buf = ReqLimit limit ∧
    limits d !! cg = Some limit ∧ ClearRateLimit cg ∈ cleanups l.

Definition in_force (d : daemon_state) (l : local_state) : Prop := told (trace l) → may_proceed d l.

(** What holds as long as a handler is suspended at [q]. *)
Definition lasting {A} (q : io A) (d : daemon_state) (l : local_state) : Prop :=
  in_force d l ∧
  match q with StreamWrite bs _ => client_reply bs = ReplyProceed → may_proceed d l | _ => True end.

(** What holds when a handler asks [q], too: a scope is started only for a
    client's process, when the cgroup of the unit systemd names for that
    process has no limit, and is bound to the daemon's own unit. *)
Definition permitted {A} (q : io A) (d : daemon_state) (l : local_state) : Prop :=
  lasting q d l ∧
  match q with
  | StartTransientScope pid name =>
      name = g_this_unit_name d ∧ is_Some name ∧
      ∃ orig path cg, OPeer pid ∈ trace l ∧ OUnitOf pid orig ∈ trace l ∧
        OUnitPath orig path ∈ trace l ∧ OPathId path cg ∈ trace l ∧ limits d !! cg = None
  | _ => True
  end.

(** Limits are set only before the client is let start. *)
Definition unsettled {A} (q : io A) (l : local_state) : Prop :=
  match q with RateSet _ _ => ¬ told (trace l) | _ => True end.

(** ** Weakest preconditions *)

Fixpoint wp {A} (p : prog A) (Q : A → daemon_state → local_state → others → Prop)
    (d : daemon_state) (l : local_state) (o : others) : Prop :=
  match p with
  | Ret x => Q x d l o
  | Ask q k =>
      match own q d l with
      | Some (a, d', l') => unsettled q l ∧ wp (k a) Q d' l' o
      | None =>
          if suspends q then
            consistent d l o ∧ permitted q d l ∧
            ∀ a d' o', consistent d' l o' → agrees l d d' → wp (k a) Q d' (record q a l) o'
          else
            ∀ a, valid q a l (held (l :: o_locals o)) = true → wp (k a) Q d (record q a l) o
      end
  end.

Lemma hwp_bind {A B} (p : prog A) (f : A → prog B) Q d l o :
  wp p (λ x, wp (f x) Q) d l o → wp (p ≫= f) Q d l o.
Proof.
  unfold mbind, prog_bind.
  revert d l o; induction p as [x|C q k IH]; intros d l o; simpl; [done|].
  destruct (own q d l) as [[[a d'] l']|]; [intros [Hu Hk]; split; [done|by apply IH]|].
  destruct (suspends q).
  - intros (Hc & Hp & Hk). split_and!; [done..|]. intros a d' o' Hc' Ha. by apply IH, Hk.
  - intros Hk a Ha. by apply IH, Hk.
Qed.

Lemma hwp_mono {A} (p : prog A) (Q R : A → daemon_state → local_state → others → Prop) d l o :
  (∀ x d l o, Q x d l o → R x d l o) → wp p Q d l o → wp p R d l o.
Proof.
  intros HQR. revert d l o; induction p as [x|C q k IH]; intros d l o; simpl; [apply HQR|].
  destruct (own q d l) as [[[a d'] l']|]; [intros [Hu Hk]; split; [done|by apply IH]|].
  destruct (suspends q).
  - intros (Hc & Hp & Hk). split_and!; [done..|]. intros a d' o' Hc' Ha. by apply IH, Hk.
  - intros Hk a Ha. by apply IH, Hk.
Qed.

(** A question about the daemon's own state. *)
Lemma wp_own {A} (q : io A) Q d l o a d' l' :
  own q d l = Some (a, d', l') → unsettled q l → Q a d' l' o → wp (ask q) Q d l o.
Proof. intros H Hu HQ. simpl. by rewrite H. Qed.

(** A question that suspends and leaves no trace. *)
Lemma wp_suspend {A} (q : io A) Q d l o :
  own q d l = None → suspends q = true → consistent d l o → permitted q d l →
  (∀ a d' o', consistent d' l o' → agrees l d d' → Q a d' (record q a l) o') →
  wp (ask q) Q d l o.
Proof. intros H1 H2 Hc Hp HQ. simpl. rewrite H1, H2. by split_and!. Qed.

(** A question the system answers at once. *)
Lemma wp_system {A} (q : io A) Q d l o :
  own q d l = None → suspends q = false →
  (∀ a, valid q a l (held (l :: o_locals o)) = true → Q a d (record q a l) o) →
  wp (ask q) Q d l o.
Proof. intros H1 H2 HQ. simpl. by rewrite H1, H2. Qed.

(** The trace does not matter for consistency. *)
Lemma consistent_trace d l l' o :
  cleanups l' = cleanups l → consistent d l o → consistent d l' o.
Proof.
  intros Hcl [[H1 H2 H3 H4 H5] Ho]. unfold held, total_slots, cgroups_of, slots_of in *.
  split; [split|done]; simpl in *.
  - unfold slots_of. by rewrite Hcl.
  - done.
  - unfold cgroups_of. by rewrite Hcl.
  - intros cg. rewrite H4. unfold cgroups_of. by rewrite Hcl.
  - apply Forall_cons in H5 as [H5 H6]. apply Forall_cons. split; [|done].
    unfold slots_of, cgroups_of in *. by rewrite Hcl.
Qed.

Lemma consistent_all_trace d l l' ls :
  cleanups l' = cleanups l → consistent_all d (l :: ls) → consistent_all d (l' :: ls).
Proof.
  intros Hcl Hc. by apply (consistent_trace d l l' (mk_others ls (limits d) (g_this_unit_name d)) Hcl).
Qed.

Lemma record_cleanups {A} (q : io A) a l : cleanups (record q a l) = cleanups l.
Proof. destruct q; simpl; by repeat case_match. Qed.

Lemma elem_of_cgroups cg l : ClearRateLimit cg ∈ cleanups l → cg ∈ cgroups_of l.
Proof. intros H. unfold cgroups_of. apply list_elem_of_omap. eauto. Qed.

Lemma cgroups_elem_of cg l : cg ∈ cgroups_of l → ClearRateLimit cg ∈ cleanups l.
Proof.
  intros H. apply list_elem_of_omap in H as (c & Hc & E). destruct c; by simplify_eq.
Qed.

(** ** The handler keeps the daemon consistent *)

(** Nothing in the trace gave the client permission to start. *)
Definition silent (tr : list obs) : Prop :=
  ∀ bs, OWrite bs ∈ tr → client_reply bs ≠ ReplyProceed.

(** The trace grew, without permission to start; the cleanups are the same. *)
Definition grows (l l' : local_state) : Prop :=
  cleanups l' = cleanups l ∧ ∃ tr, trace l' = tr ++ trace l ∧ silent tr.

#[local] Instance grows_pre : PreOrder grows.
Proof.
  split.
  - intros l. split; [done|]. exists []. split; [done|]. intros bs Hbs. set_solver.
  - intros l1 l2 l3 [H1 (t1 & E1 & S1)] [H2 (t2 & E2 & S2)]. split; [congruence|].
    exists (t2 ++ t1). rewrite E2, E1, (assoc_L (++)). split; [done|].
    intros bs [?|?]%elem_of_app; [by apply S2|by apply S1].
Qed.

Lemma grows_observe x l :
  (∀ bs, x = OWrite bs → client_reply bs ≠ ReplyProceed) → grows l (observe x l).
Proof.
  intros Hx. split; [done|]. exists [x]. split; [done|]. intros bs Hbs.
  apply list_elem_of_singleton in Hbs. by apply Hx.
Qed.

Lemma grows_in x l l' : grows l l' → x ∈ trace l → x ∈ trace l'.
Proof. intros [_ (tr & -> & _)] Hx. apply elem_of_app. by right. Qed.

Lemma grows_silent l l' : grows l l' → silent (trace l) → silent (trace l').
Proof. intros [_ (tr & -> & Ht)] Hs bs [?|?]%elem_of_app; [by apply Ht|by apply Hs]. Qed.

Lemma may_proceed_mono d d' l l' :
  agrees l d d' → grows l l' → may_proceed d l → may_proceed d' l'.
Proof.
  intros Ha Hg (obj & path & cg & rc & buf & limit & H1 & H2 & H3 & H4 & H5 & H6 & H7).
  exists obj, path, cg, rc, buf, limit. rewrite (proj1 Hg).
  split_and!; try done; try (by eapply grows_in).
  rewrite (proj1 Ha); [done|]. by apply elem_of_cgroups.
Qed.

Lemma may_proceed_observe d l x : may_proceed d l → may_proceed d (observe x l).
Proof.
  intros (obj & path & cg & rc & buf & limit & H1 & H2 & H3 & H4 & H5 & H6 & H7).
  exists obj, path, cg, rc, buf, limit. split_and!; try done; by right.
Qed.

Lemma silent_in_force d l : silent (trace l) → in_force d l.
Proof. intros Hs (bs & Hbs & Hp). by destruct (Hs bs Hbs). Qed.
#[local] Hint Resolve silent_in_force : traffic.

Lemma silent_untold tr : silent tr → ¬ told tr.
Proof. intros Hs (bs & Hbs & Hp). by destruct (Hs bs Hbs). Qed.

Lemma in_force_mono d d' l l' : agrees l d d' → grows l l' → in_force d l → in_force d' l'.
Proof.
  intros Ha Hg Hf (bs & Hbs & Hp). eapply may_proceed_mono; [done|done|]. apply Hf.
  destruct Hg as [_ (tr & E & Ht)]. rewrite E in Hbs. apply elem_of_app in Hbs as [Hbs|Hbs].
  - by destruct (Ht bs Hbs).
  - by exists bs.
Qed.

Lemma record_grows {A} (q : io A) a l :
  match q with StreamWrite bs _ => client_reply bs ≠ ReplyProceed | _ => True end →
  grows l (record q a l).
Proof.
  intros Hq. destruct q; simpl in *; try reflexivity;
    repeat case_match; try reflexivity; apply grows_observe; intros; by simplify_eq.
Qed.

(** Programs that may be suspended but only add to the trace. *)
Definition quiet {A} (p : prog A) : Prop := ∀ Q d l o,
  consistent d l o → in_force d l →
  (∀ x d' l' o', consistent d' l' o' → agrees l d d' → grows l l' → Q x d' l' o') →
  wp p Q d l o.

Lemma agrees_refl l d : agrees l d d.
Proof. by split. Qed.

Lemma agrees_trans l l' d d1 d2 :
  cleanups l' = cleanups l → agrees l d d1 → agrees l' d1 d2 → agrees l d d2.
Proof.
  intros Hcl [H1 N1] [H2 N2]. split; [|naive_solver].
  intros cg Hcg. rewrite H2; [by apply H1|]. unfold cgroups_of in *. by rewrite Hcl.
Qed.

Lemma quiet_ret {A} (x : A) : quiet (Ret x).
Proof. intros Q d l o Hc Hf HQ. simpl. apply HQ; [done|apply agrees_refl|reflexivity]. Qed.

Lemma quiet_bind {A B} (p : prog A) (f : A → prog B) :
  quiet p → (∀ x, quiet (f x)) → quiet (p ≫= f).
Proof.
  intros Hp Hf Q d l o Hc Hi HQ. apply hwp_bind, Hp; [done..|]. intros x d1 l1 o1 Hc1 Ha1 Hg1.
  apply Hf; [done|by eapply in_force_mono|]. intros y d2 l2 o2 Hc2 Ha2 Hg2. apply HQ; [done| |by etrans].
  eapply agrees_trans; [|done..]. apply Hg1.
Qed.

(** Questions to the system that are no permission to start. *)
Lemma quiet_ask {A} (q : io A) :
  (∀ d l, own q d l = None) →
  match q with
  | StreamWrite bs _ => client_reply bs ≠ ReplyProceed
  | StartTransientScope _ _ => False
  | _ => True
  end → quiet (ask q).
Proof.
  intros Hown Hq' Q d l o Hc Hf HQ.
  assert (match q with StreamWrite bs _ => client_reply bs ≠ ReplyProceed | _ => True end) as Hq
    by by destruct q.
  destruct (suspends q) eqn:Hs.
  - apply wp_suspend; [done|done|done| |].
    + by destruct q; (split; [split|]).
    + intros a d' o' Hc' Ha. pose proof (record_grows q a l Hq) as Hg.
      apply HQ; [|done|done]. eapply consistent_trace; [apply Hg|done].
  - apply wp_system; [done|done|]. intros a _. pose proof (record_grows q a l Hq) as Hg.
    apply HQ; [|apply agrees_refl|done]. eapply consistent_trace; [apply Hg|done].
Qed.

Lemma log_is_not_proceed text : client_reply (rate_limit_log text) ≠ ReplyProceed.
Proof.
  unfold client_reply, rate_limit_log. rewrite field_here, (field_skip 4 _ 0), field_here.
  change (RATE_LIMIT_LOG mod 2 ^ (8 * Z.of_nat 4)) with RATE_LIMIT_LOG.
  change (RATE_LIMIT_LOG =? RATE_LIMIT_FAIL) with false. rewrite Z.eqb_refl. by repeat case_match.
Qed.

Lemma fail_is_not_proceed code bs :
  rate_limit_msg RATE_LIMIT_FAIL code = inr bs → client_reply bs ≠ ReplyProceed.
Proof.
  intros [= <-]. unfold client_reply.
  change (le 4 12) with [12; 0; 0; 0]. change (le 4 RATE_LIMIT_FAIL) with [1; 0; 0; 0].
  change (field 4 4 ([12; 0; 0; 0] ++ [1; 0; 0; 0] ++ le 4 code)) with 1. by repeat case_match.
Qed.

Lemma quiet_log t : quiet (write_rate_limit_log t).
Proof.
  apply quiet_bind; [by apply quiet_ask|]. intros [e|text]; [apply quiet_ret|].
  apply quiet_ask; [done|]. apply log_is_not_proceed.
Qed.

Lemma quiet_fail code : quiet (write_rate_limit_msg RATE_LIMIT_FAIL code).
Proof. apply quiet_ask; [done|]. by eapply fail_is_not_proceed. Qed.

Lemma quiet_shutdown : quiet (ask ShutdownStream).
Proof. by apply quiet_ask. Qed.

(** The end of every handler: if the client was given permission to start,
    systemd was asked later to kill all processes of its scope. *)
Definition accounted (l : local_state) : Prop :=
  ∀ bs, OWrite bs ∈ trace l → client_reply bs = ReplyProceed →
    ∃ obj rc later earlier, trace l = later ++ OKill obj "all" SIGKILL rc :: earlier ∧
      OScope obj ∈ earlier ∧ OWrite bs ∈ earlier.

Lemma silent_accounted l : silent (trace l) → accounted l.
Proof. intros Hs bs Hbs Hp. by destruct (Hs bs Hbs). Qed.

Lemma grows_accounted l l' : grows l l' → accounted l → accounted l'.
Proof.
  intros Hg Ha bs Hbs Hp. destruct Hg as [Hcl (tr & E & Ht)] eqn:Hg'. rewrite E in Hbs.
  apply elem_of_app in Hbs as [Hbs|Hbs]; [by destruct (Ht bs)|].
  destruct (Ha bs Hbs Hp) as (obj & rc & t1 & t2 & E2 & H1 & H2).
  exists obj, rc, (tr ++ t1), t2. by rewrite E, E2, (assoc_L (++)).
Qed.

Definition final {A} (_ : A) (d : daemon_state) (l : local_state) (o : others) : Prop :=
  consistent d l o ∧ accounted l.

(** What holds where the body leaves to the labels. *)
Definition left_ok (lv : leave) (d : daemon_state) (l : local_state) (o : others) : Prop :=
  consistent d l o ∧
  match lv with
  | Return | err_close_fd => accounted l
  | err_close_stream _ _ => silent (trace l)
  | interrupt (Some obj) _ => in_force d l ∧ (silent (trace l) ∨ OScope obj ∈ trace l)
  | interrupt None _ => silent (trace l)
  end.

Lemma wp_leave fd lv d l o : left_ok lv d l o → wp (client_handler_leave fd lv) final d l o.
Proof.
  intros [Hc Hl]. destruct lv as [|ce rc| |so st]; unfold client_handler_leave.
  - by split.
  - assert (quiet (write_rate_limit_log (LogError ce rc);;
        write_rate_limit_msg RATE_LIMIT_FAIL
          (if ce then RATE_LIMIT_FAIL_YOUR_ERROR else RATE_LIMIT_FAIL_INTERNAL);;
        ask ShutdownStream;; mret tt)) as Hq.
    { apply quiet_bind; [apply quiet_log|intros _]. apply quiet_bind; [apply quiet_fail|intros _].
      apply quiet_bind; [apply quiet_shutdown|intros _]. apply quiet_ret. }
    apply Hq; [done|auto with traffic|]. intros ? d' l' o' Hc' _ Hg. split; [done|].
    apply silent_accounted. by eapply grows_silent.
  - apply wp_system; [done..|]. intros ? _. by split.
  - assert (in_force d l) as Hf by (destruct so; [apply Hl|auto with traffic]).
    set (p := (ask SetInterruptDisabled;; reason ← ask GetInterruptReason;
       if (reason =? SYS_WILL_EXIT) && st then
         write_rate_limit_msg RATE_LIMIT_FAIL RATE_LIMIT_FAIL_INTERNAL;; ask ShutdownStream;; mret tt
       else mret tt) : prog unit).
    assert (quiet p) as Hq.
    { apply quiet_bind; [by apply quiet_ask|intros _]. apply quiet_bind; [by apply quiet_ask|].
      intros reason. destruct ((reason =? SYS_WILL_EXIT) && st); [|apply quiet_ret].
      apply quiet_bind; [apply quiet_fail|intros _]. apply quiet_bind; [apply quiet_shutdown|intros _].
      apply quiet_ret. }
    refine (hwp_bind p (λ _, match so with Some obj => ask (KillUnit obj "all" SIGKILL);; mret tt | None => mret tt end)
      _ _ _ _ _). apply Hq; [done..|]. intros ? d3 l3 o3 Hc3 Ha Hg.
    assert (in_force d3 l3) as Hf3 by by eapply in_force_mono.
    destruct so as [obj|]; simpl in Hl.
    + apply proj2 in Hl. apply hwp_bind, wp_suspend; [done..|by split|]. intros a d4 o4 Hc4 _. simpl. split.
      { by apply (consistent_trace _ l3). }
      intros bs Hbs Hp. destruct Hl as [Hl|Hl].
      * apply elem_of_cons in Hbs as [?|Hbs]; [done|]. by destruct (grows_silent _ _ Hg Hl bs).
      * apply elem_of_cons in Hbs as [?|Hbs]; [done|].
        exists obj, a, [], (trace l3). split_and!; [done|by eapply grows_in|done].
    + simpl. split; [done|]. apply silent_accounted. by eapply grows_silent.
Qed.

(** Before permission is given only the start of a scope needs a reason. *)
Lemma silent_permitted {A} (q : io A) d l :
  match q with StreamWrite _ _ | StartTransientScope _ _ => False | _ => True end →
  silent (trace l) → permitted q d l.
Proof. intros Hq Hs. split; [split; [auto with traffic|]|]; by destruct q. Qed.

(** *** What registering and setting limits does to consistency *)

Lemma slots_cons c l :
  slots_of (mk_local (c :: cleanups l) (trace l)) =
    (if decide (c = DecreaseNrTasks) then 1 else 0) + slots_of l.
Proof. unfold slots_of. simpl. rewrite filter_cons. case_decide; simpl; lia. Qed.

Lemma cgroups_cons c l :
  cgroups_of (mk_local (c :: cleanups l) (trace l)) =
    match c with ClearRateLimit cg => [cg] | _ => [] end ++ cgroups_of l.
Proof. unfold cgroups_of. simpl. by destruct c. Qed.

Definition plain (c : cleanup) : Prop :=
  match c with DecreaseNrTasks | ClearRateLimit _ => False | _ => True end.

Lemma total_slots_cons l ls : total_slots (l :: ls) = slots_of l + total_slots ls.
Proof. done. Qed.
Lemma held_cons l ls : held (l :: ls) = cgroups_of l ++ held ls.
Proof. done. Qed.

(** Consistency, spelled out for one handler and the others. *)
Lemma consistent_unfold d l o :
  consistent d l o ↔
    g_nr_tasks d = slots_of l + total_slots (o_locals o) ∧ g_nr_tasks d <= MAX_NR_TASKS ∧
    NoDup (cgroups_of l ++ held (o_locals o)) ∧
    (∀ cg, is_Some (limits d !! cg) ↔ cg ∈ cgroups_of l ++ held (o_locals o)) ∧
    Z.of_nat (length (cgroups_of l)) <= slots_of l ∧
    Forall (λ l, Z.of_nat (length (cgroups_of l)) <= slots_of l) (o_locals o) ∧
    (∀ cg, cg ∈ held (o_locals o) → limits d !! cg = o_limits o !! cg) ∧
    ∀ n, o_name o = Some n → g_this_unit_name d = Some n.
Proof.
  split.
  - intros [[H1 H2 H3 H4 H5] [Ho Hn]]. apply Forall_cons in H5 as [H5 H6]. by split_and!.
  - intros (H1 & H2 & H3 & H4 & H5 & H6 & Ho & Hn). split; [split|]; try done. by apply Forall_cons.
Qed.

Lemma consistent_plain d l o c :
  plain c → consistent d l o → consistent d (mk_local (c :: cleanups l) (trace l)) o.
Proof.
  intros Hp. rewrite !consistent_unfold, slots_cons, cgroups_cons.
  rewrite decide_False by by destruct c. by destruct c.
Qed.

Lemma consistent_slot d l o :
  consistent d l o → g_nr_tasks d < MAX_NR_TASKS →
  consistent (mk_daemon (g_nr_tasks d + 1) (g_this_unit_name d) (limits d))
    (mk_local (DecreaseNrTasks :: cleanups l) (trace l)) o.
Proof.
  rewrite !consistent_unfold, slots_cons, cgroups_cons. rewrite decide_True by done.
  intros (H1 & H2 & H3 & H4 & H5 & H6 & Ho & Hn) Hlt. cbn [g_nr_tasks limits app].
  split_and!; [lia|lia|done|apply H4|lia|done|done|done].
Qed.

Lemma consistent_acquire d l o cg v :
  consistent d l o → cg ∉ held (l :: o_locals o) →
  Z.of_nat (length (cgroups_of l)) < slots_of l →
  consistent (mk_daemon (g_nr_tasks d) (g_this_unit_name d) (<[cg := v]> (limits d)))
    (mk_local (ClearRateLimit cg :: cleanups l) (trace l)) o.
Proof.
  rewrite !consistent_unfold, slots_cons, cgroups_cons, held_cons. rewrite decide_False by done.
  intros (H1 & H2 & H3 & H4 & H5 & H6 & Ho & Hn) Hfresh Hlt. cbn [g_nr_tasks limits app length].
  split_and!; [lia|lia|by apply NoDup_cons| |lia|done| |done].
  - intros cg'. rewrite elem_of_cons, <-H4, lookup_insert. case_decide; naive_solver.
  - intros cg' Hin. rewrite lookup_insert_ne; [by apply Ho|]. intros <-. apply Hfresh.
    apply elem_of_app. by right.
Qed.

Lemma consistent_update d l o cg v :
  consistent d l o → cg ∈ cgroups_of l →
  consistent (mk_daemon (g_nr_tasks d) (g_this_unit_name d) (<[cg := v]> (limits d))) l o.
Proof.
  rewrite !consistent_unfold. intros (H1 & H2 & H3 & H4 & H5 & H6 & Ho & Hn) Hin. cbn [g_nr_tasks limits].
  split_and!; try done.
  - intros cg'. rewrite lookup_insert. case_decide as E; [|apply H4]. subst cg'. split; [intros _|done].
    apply elem_of_app. by left.
  - intros cg' Hcg'. rewrite lookup_insert_ne; [by apply Ho|]. intros <-.
    apply NoDup_app in H3 as (_ & Hd & _). by apply (Hd cg).
Qed.

Lemma consistent_name d l o n :
  g_this_unit_name d = None → consistent d l o →
  consistent (mk_daemon (g_nr_tasks d) n (limits d)) l o.
Proof.
  intros Hnone [[H1 H2 H3 H4 H5] [Ho Hn]]. split; [by split|]. split; [done|].
  intros m Hm. apply Hn in Hm. congruence.
Qed.

(** *** The stages of the handler, from the last to the first *)

(** The handler started the scope [obj], whose cgroup is [cg], and will
    release its limit. *)
Definition scope_limited (obj : string) (cg : Z) (l : local_state) : Prop :=
  OScope obj ∈ trace l ∧ (∃ path, OUnitPath obj path ∈ trace l ∧ OPathId path cg ∈ trace l) ∧
  ClearRateLimit cg ∈ cleanups l.

Lemma scope_limited_grows obj cg l l' : grows l l' → scope_limited obj cg l → scope_limited obj cg l'.
Proof.
  intros Hg (H1 & (path & H2 & H3) & H4). split_and!; [by eapply grows_in| |by rewrite (proj1 Hg)].
  exists path. split; by eapply grows_in.
Qed.

Lemma wp_proceed obj cg limit rc buf d l o :
  consistent d l o → scope_limited obj cg l → silent (trace l) → ORead rc buf ∈ trace l →
  read_request rc buf = ReqLimit limit → limits d !! cg = Some limit →
  wp (proceed_and_wait obj limit) left_ok d l o.
Proof.
  intros Hc Hsl Hsi Hr Hreq Hlim. unfold proceed_and_wait.
  apply hwp_bind, quiet_log; [done|auto with traffic|]. intros _ d1 l1 o1 Hc1 Ha1 Hg1.
  pose proof (scope_limited_grows _ _ _ _ Hg1 Hsl) as Hsl1.
  assert (limits d1 !! cg = Some limit) as Hlim1
    by (rewrite (proj1 Ha1); [done|]; apply elem_of_cgroups, Hsl).
  apply hwp_bind. unfold write_rate_limit_msg.
  change (rate_limit_msg RATE_LIMIT_PROCEED 0) with (inr [8; 0; 0; 0; 3; 0; 0; 0] : Z + list Z).
  assert (may_proceed d1 l1) as Hmay.
  { destruct Hsl1 as (H1 & (path & H2 & H3) & H4).
    exists obj, path, cg, rc, buf, limit. split_and!; try done. by eapply grows_in. }
  apply wp_suspend; [done|done|done|by split; [split; intros _|]|].
  intros a2 d2 o2 Hc2 Ha2. simpl record. set (l2 := observe _ l1).
  assert (in_force d2 l2) as Hf2.
  { intros _. eapply may_proceed_observe, may_proceed_mono; [done|reflexivity|done]. }
  assert (consistent d2 l2 o2) as Hc2' by by apply (consistent_trace _ l1).
  assert (OScope obj ∈ trace l2) as Hs2 by (right; apply Hsl1).
  apply hwp_bind, quiet_shutdown; [done..|]. intros _ d3 l3 o3 Hc3 Ha3 Hg3.
  pose proof (in_force_mono _ _ _ _ Ha3 Hg3 Hf2) as Hf3.
  apply hwp_bind, quiet_ask; [done..|]. intros rc4 d4 l4 o4 Hc4 Ha4 Hg4.
  pose proof (in_force_mono _ _ _ _ Ha4 Hg4 Hf3) as Hf4.
  assert (OScope obj ∈ trace l4) as Hs4 by (eapply grows_in; [done|]; by eapply grows_in).
  destruct ((rc4 <? 0) && (rc4 =? - EINTR)).
  - split; [done|]. split; [done|by right].
  - apply hwp_bind, wp_suspend; [done..|by split|]. intros a d5 o5 Hc5 _. split.
    + by apply (consistent_trace _ l4).
    + intros bs Hbs Hp. apply elem_of_cons in Hbs as [?|Hbs]; [done|].
      by exists obj, a, [], (trace l4).
Qed.

Context `{!KernelMapLaws K}.

Lemma wp_rate_set cg v Q d l o :
  silent (trace l) →
  (∀ rc, 0 <= rc → Q rc (mk_daemon (g_nr_tasks d) (g_this_unit_name d) (<[cg := v]> (limits d))) l o) →
  (∀ rc, rc < 0 → Q rc d l o) → wp (ask (RateSet cg v)) Q d l o.
Proof.
  intros Hsi H1 H2. pose proof (set_spec (limits d) cg v) as Hs. simpl.
  destruct (cgroup_rate_limit_set (limits d) cg v) as [rc m]. split; [by apply silent_untold|].
  destruct Hs as [[Hrc ->]|[Hrc ->]]; [by apply H1|]. destruct d. by apply H2.
Qed.

Lemma wp_serve obj cg d l o :
  consistent d l o → scope_limited obj cg l → silent (trace l) →
  wp (serve_request obj cg) left_ok d l o.
Proof.
  intros Hc Hsl Hsi. unfold serve_request.
  apply hwp_bind, wp_suspend; [done..|by apply silent_permitted|]. intros [rc buf] d1 o1 Hc1 Ha1. simpl record.
  set (l1 := observe (ORead rc buf) l).
  assert (grows l l1) as Hg1 by by apply grows_observe.
  assert (consistent d1 l1 o1) as Hc1' by by apply (consistent_trace _ l).
  pose proof (scope_limited_grows _ _ _ _ Hg1 Hsl) as Hsl1.
  pose proof (grows_silent _ _ Hg1 Hsi) as Hsi1. simpl fst; simpl snd.
  destruct (read_request rc buf) as [|ce rc'|limit] eqn:Hreq.
  - split; [done|]. split; [auto with traffic|by left].
  - by split.
  - apply hwp_bind, quiet_ask; [done|done|done|auto with traffic|]. intros _ d2 l2 o2 Hc2 _ Hg2.
    pose proof (scope_limited_grows _ _ _ _ Hg2 Hsl1) as Hsl2.
    pose proof (grows_silent _ _ Hg2 Hsi1) as Hsi2.
    apply hwp_bind, wp_rate_set; [done|..]; intros rc2 Hrc2.
    + rewrite (proj2 (Z.ltb_ge _ _) Hrc2). eapply (wp_proceed _ cg limit rc buf); try done.
      * apply consistent_update; [done|]. apply elem_of_cgroups, Hsl2.
      * eapply grows_in; [done|]. left.
      * apply lookup_insert_eq.
    + rewrite (proj2 (Z.ltb_lt _ _) Hrc2). by split.
Qed.

Lemma scope_path_true obj path tr :
  OUnitPath obj path ∈ tr → OScope obj ∈ tr → scope_path path tr = true.
Proof.
  intros H1 H2. apply existsb_exists. exists (OUnitPath obj path). split; [by apply list_elem_of_In|].
  rewrite String.eqb_refl. apply existsb_exists. exists (OScope obj).
  split; [by apply list_elem_of_In|]. apply String.eqb_refl.
Qed.

Lemma wp_unit_cgroup u Q d l o :
  consistent d l o → silent (trace l) →
  (∀ rc d' l' o', consistent d' l' o' → grows l l' → Q (inl rc) d' l' o') →
  (∀ path cg d' l' o', consistent d' l' o' → agrees l d d' → grows l l' →
    OUnitPath u path ∈ trace l' → OPathId path cg ∈ trace l' →
    (OScope u ∈ trace l → cg ∉ held (l' :: o_locals o')) → Q (inr cg) d' l' o') →
  wp (get_Unit_cgroup_id u) Q d l o.
Proof.
  intros Hc Hsi H1 H2. unfold get_Unit_cgroup_id.
  apply hwp_bind, wp_suspend; [done..|by apply silent_permitted|]. intros [rc|path] d1 o1 Hc1 Ha1; simpl record.
  { simpl. apply H1; [done|reflexivity]. }
  set (l1 := observe (OUnitPath u path) l).
  assert (grows l l1) as Hg1 by by apply grows_observe.
  assert (consistent d1 l1 o1) as Hc1' by by apply (consistent_trace _ l).
  apply wp_system; [done..|]. intros [rc|cg] Hv; simpl record; [by apply H1|].
  apply (H2 path).
  - by apply (consistent_trace _ l1).
  - done.
  - etrans; [done|]. by apply grows_observe.
  - right. left.
  - left.
  - intros Hs Hin. unfold valid in Hv.
    rewrite (scope_path_true u path) in Hv by (by left || by right).
    by rewrite bool_decide_eq_true_2 in Hv.
Qed.

(** What a handler holds. *)
Definition holds (l : local_state) (slots : Z) (cgs : list Z) : Prop :=
  slots_of l = slots ∧ cgroups_of l = cgs.

Lemma holds_grows l l' n cgs : grows l l' → holds l n cgs → holds l' n cgs.
Proof. intros [Hcl _]. unfold holds, slots_of, cgroups_of. by rewrite Hcl. Qed.

Lemma holds_plain l n cgs c :
  plain c → holds l n cgs → holds (mk_local (c :: cleanups l) (trace l)) n cgs.
Proof.
  intros Hp [H1 H2]. unfold holds. rewrite slots_cons, cgroups_cons.
  rewrite decide_False by by destruct c. destruct c; try done; split; (lia || done).
Qed.

(** Registering a cleanup that releases nothing shared. *)
Lemma wp_register c Q d l o n cgs :
  plain c → consistent d l o → holds l n cgs →
  (∀ l', trace l' = trace l → consistent d l' o → holds l' n cgs → Q tt d l' o) →
  wp (ask (Register c)) Q d l o.
Proof.
  intros Hp Hc Hh HQ. eapply wp_own; [done..|].
  apply HQ; [done|by apply consistent_plain|by apply holds_plain].
Qed.

Lemma wp_failed so rc d l o :
  consistent d l o → silent (trace l) → wp (failed so rc) left_ok d l o.
Proof.
  intros Hc Hsi. unfold failed. simpl. split; [done|]. destruct (rc =? - EINTR); [|done].
  destruct so; [split; [auto with traffic|by left]|done].
Qed.

Lemma wp_limit_scope pid name obj d l o :
  consistent d l o → holds l 1 [] → OScope obj ∈ trace l → silent (trace l) →
  wp (limit_scope pid name obj) left_ok d l o.
Proof.
  intros Hc Hh Hs Hsi. unfold limit_scope.
  apply hwp_bind. eapply wp_register; [done..|]. intros l1 E1 Hc1 Hh1.
  apply hwp_bind. eapply wp_register; [done..|]. intros l2 E2 Hc2 Hh2.
  assert (OScope obj ∈ trace l2) as Hs2 by (by rewrite E2, E1).
  assert (silent (trace l2)) as Hsi2 by (by rewrite E2, E1). clear Hs Hsi E1 E2.
  apply hwp_bind, quiet_ask; [done|done|done|auto with traffic|]. intros rc d3 l3 o3 Hc3 _ Hg3.
  pose proof (grows_in _ _ _ Hg3 Hs2) as Hs3. pose proof (grows_silent _ _ Hg3 Hsi2) as Hsi3.
  pose proof (holds_grows _ _ _ _ Hg3 Hh2) as Hh3.
  destruct (rc <? 0); [by split|].
  apply hwp_bind. eapply wp_register; [done..|]. intros l4 E4 Hc4 Hh4.
  rewrite <-E4 in Hs3, Hsi3.
  apply hwp_bind, quiet_ask; [done|done|done|auto with traffic|]. intros _ d5 l5 o5 Hc5 _ Hg5.
  pose proof (grows_in _ _ _ Hg5 Hs3) as Hs5. pose proof (grows_silent _ _ Hg5 Hsi3) as Hsi5.
  pose proof (holds_grows _ _ _ _ Hg5 Hh4) as Hh5.
  apply hwp_bind, wp_unit_cgroup; [done|done|..].
  - intros rc6 d6 l6 o6 Hc6 Hg6. pose proof (grows_silent _ _ Hg6 Hsi5) as Hsi6.
    by apply wp_failed.
  - intros path cg d6 l6 o6 Hc6 _ Hg6 Hup Hpi Hfresh. specialize (Hfresh Hs5).
    pose proof (grows_in _ _ _ Hg6 Hs5) as Hs6. pose proof (grows_silent _ _ Hg6 Hsi5) as Hsi6.
    destruct (holds_grows _ _ _ _ Hg6 Hh5) as [Hsl Hcg].
    apply hwp_bind, wp_rate_set; [done|..]; intros rc7 Hrc7.
    + rewrite (proj2 (Z.ltb_ge _ _) Hrc7). apply hwp_bind. eapply wp_own; [done..|]. apply wp_serve.
      * apply consistent_acquire; [done|done|]. rewrite Hsl, Hcg. done.
      * split_and!; [done|by exists path|left].
      * done.
    + rewrite (proj2 (Z.ltb_lt _ _) Hrc7). by split.
Qed.

Lemma wp_check_and_start pid d l o :
  consistent d l o → holds l 1 [] → silent (trace l) → is_Some (g_this_unit_name d) →
  OPeer pid ∈ trace l →
  wp (check_and_start pid) left_ok d l o.
Proof.
  intros Hc Hh Hsi [n Hn] Hpid. unfold check_and_start.
  apply hwp_bind, wp_suspend; [done..|by apply silent_permitted|]. intros [rc|u] d1 o1 Hc1 Ha1;
    simpl record; [by apply wp_failed|].
  set (l1 := observe (OUnitOf pid u) l). assert (grows l l1) as Hg1 by by apply grows_observe.
  assert (consistent d1 l1 o1) as Hc1' by by apply (consistent_trace _ l).
  pose proof (grows_silent _ _ Hg1 Hsi) as Hsi1.
  apply hwp_bind. eapply wp_register; [done|done|by eapply holds_grows|]. intros l2 E2 Hc2 Hh2.
  assert (OPeer pid ∈ trace l2) as Hpid2 by (rewrite E2; by right).
  assert (OUnitOf pid u ∈ trace l2) as Hof2 by (rewrite E2; left). rewrite <-E2 in Hsi1.
  apply hwp_bind, wp_unit_cgroup; [done|done|..].
  { intros rc d3 l3 o3 Hc3 Hg3. apply wp_failed; [done|]. by eapply grows_silent. }
  intros path cg d3 l3 o3 Hc3 Ha3 Hg3 Hup Hpi _. pose proof (grows_silent _ _ Hg3 Hsi1) as Hsi3.
  assert (g_this_unit_name d3 = Some n) as Hn3 by by apply (proj2 Ha3), (proj2 Ha1).
  pose proof (holds_grows _ _ _ _ Hg3 Hh2) as Hh3.
  apply hwp_bind. eapply wp_own; [done..|].
  rewrite check_spec. case_bool_decide as Hlim; cbn [Z.ltb Z.compare].
  - apply hwp_bind, quiet_log; [done|auto with traffic|]. intros _ d4 l4 o4 Hc4 _ Hg4. split; [done|].
    by eapply grows_silent.
  - apply hwp_bind. eapply wp_own; [done..|]. apply hwp_bind, wp_suspend; [done..| |].
    { split; [split; [auto with traffic|done]|]. split_and!; [done|by rewrite Hn3|].
      exists u, path, cg.
      split_and!; [by eapply grows_in..|done|done|by apply eq_None_not_Some]. }
    intros [rc|[name obj]] d4 o4 Hc4 _; simpl record; [by apply wp_failed|].
    apply wp_limit_scope; [by apply (consistent_trace _ l3)| |left|].
    + by eapply holds_grows; [apply grows_observe|].
    + by eapply grows_silent; [apply grows_observe|].
Qed.

Lemma wp_client_handler fd d o :
  consistent d (mk_local [] []) o → wp (client_handler_async fd) final d (mk_local [] []) o.
Proof.
  intros Hc. set (l := mk_local [] []) in *. apply hwp_bind.
  apply (hwp_mono _ left_ok); [intros lv d' l' o' Hl; by apply wp_leave|].
  assert (holds l 0 []) as Hh by done. assert (silent (trace l)) as Hsi by (intros bs Hbs; set_solver).
  unfold client_handler_body. clearbody l.
  apply hwp_bind, quiet_ask; [done|done|done|auto with traffic|]. intros rc d1 l1 o1 Hc1 _ Hg1.
  pose proof (grows_silent _ _ Hg1 Hsi) as Hsi1. pose proof (holds_grows _ _ _ _ Hg1 Hh) as Hh1.
  destruct (rc <? 0); [split; [done|by apply silent_accounted]|].
  apply hwp_bind. eapply wp_register; [done..|]. intros l2 E2 Hc2 Hh2. rewrite <-E2 in Hsi1.
  apply hwp_bind, quiet_ask; [done|done|done|auto with traffic|]. intros _ d3 l3 o3 Hc3 _ Hg3.
  pose proof (grows_silent _ _ Hg3 Hsi1) as Hsi3. destruct (holds_grows _ _ _ _ Hg3 Hh2) as [Hs3 Hcg3].
  apply hwp_bind. eapply wp_own; [done..|].
  destruct (Z.leb_spec MAX_NR_TASKS (g_nr_tasks d3)) as [|Hlt].
  { apply hwp_bind, quiet_fail; [done|auto with traffic|]. intros _ d4 l4 o4 Hc4 _ Hg4.
    pose proof (grows_silent _ _ Hg4 Hsi3) as Hsi4.
    apply hwp_bind, quiet_shutdown; [done|auto with traffic|]. intros _ d5 l5 o5 Hc5 _ Hg5.
    split; [done|]. apply silent_accounted. by eapply grows_silent. }
  apply hwp_bind. eapply wp_own; [done..|]. apply hwp_bind. eapply wp_own; [done..|].
  pose proof (consistent_slot _ _ _ Hc3 Hlt) as Hc4. set (d4 := mk_daemon _ _ _) in *.
  set (l4 := mk_local (DecreaseNrTasks :: cleanups l3) (trace l3)) in *.
  assert (holds l4 1 []) as Hh4.
  { unfold holds, l4. rewrite slots_cons, cgroups_cons, decide_True, Hs3, Hcg3 by done. done. }
  assert (silent (trace l4)) as Hsi4 by done. clearbody d4 l4.
  apply hwp_bind, wp_system; [done..|]. intros pid _. simpl record.
  set (l5 := observe (OPeer pid) l4). set (d5 := d4). set (o5 := o3).
  assert (grows l4 l5) as Hg5 by by apply grows_observe.
  assert (consistent d5 l5 o5) as Hc5 by by apply (consistent_trace _ l4).
  assert (OPeer pid ∈ trace l5) as Hpid by left. clearbody l5 d5 o5.
  pose proof (grows_silent _ _ Hg5 Hsi4) as Hsi5. pose proof (holds_grows _ _ _ _ Hg5 Hh4) as Hh5.
  apply hwp_bind. eapply wp_own; [done..|].
  destruct (g_this_unit_name d5) as [n|] eqn:Hn5; [by apply wp_check_and_start; rewrite ?Hn5|].
  apply hwp_bind, quiet_ask; [done|done|done|auto with traffic|]. intros [rc6|n] d6 l6 o6 Hc6 _ Hg6;
    pose proof (grows_silent _ _ Hg6 Hsi5) as Hsi6; pose proof (holds_grows _ _ _ _ Hg6 Hh5) as Hh6.
  { by apply wp_failed. }
  apply hwp_bind. eapply wp_own; [done..|].
  destruct (g_this_unit_name d6) as [n'|] eqn:Hn6; [apply wp_check_and_start; [done..|by rewrite Hn6|by eapply grows_in]|].
  apply hwp_bind. eapply wp_own; [done..|]. 
  apply wp_check_and_start; [by apply consistent_name|done..|by eapply grows_in].
Qed.

(** ** Cleanups release what a handler holds *)

Lemma slots_nonneg l : 0 <= slots_of l.
Proof. unfold slots_of. lia. Qed.

Lemma total_slots_nonneg ls : 0 <= total_slots ls.
Proof.
  induction ls as [|l ls IH]; [done|]. rewrite total_slots_cons. pose proof (slots_nonneg l). lia.
Qed.

Lemma run_cleanups_ok cs d o :
  g_nr_tasks d = slots_of (mk_local cs []) + total_slots (o_locals o) →
  NoDup (cgroups_of (mk_local cs []) ++ held (o_locals o)) →
  (∀ cg, is_Some (limits d !! cg) ↔ cg ∈ cgroups_of (mk_local cs []) ++ held (o_locals o)) →
  (∀ cg, cg ∈ held (o_locals o) → limits d !! cg = o_limits o !! cg) →
  ∃ d', run_cleanups cs d = Some d' ∧ g_nr_tasks d' = total_slots (o_locals o) ∧
    (∀ cg, is_Some (limits d' !! cg) ↔ cg ∈ held (o_locals o)) ∧
    (∀ cg, cg ∈ held (o_locals o) → limits d' !! cg = o_limits o !! cg) ∧
    g_this_unit_name d' = g_this_unit_name d.
Proof.
  revert d; induction cs as [|c cs IH]; intros d; [intros H1 H2 H3 H4; by exists d|].
  pose proof (slots_cons c (mk_local cs [])) as Es. pose proof (cgroups_cons c (mk_local cs [])) as Ec.
  cbn [cleanups trace] in Es, Ec. rewrite Es, Ec. clear Es Ec.
  pose proof (slots_nonneg (mk_local cs [])) as Hsn. pose proof (total_slots_nonneg (o_locals o)) as Htn.
  intros H1 H2 H3 H4. cbn [run_cleanups]. destruct c as [| |?| |cg0]; cbn [run_cleanup];
    try (by apply IH).
  - unfold decrease_nr_tasks. rewrite decide_True in H1 by done.
    rewrite (proj2 (Z.ltb_lt _ _)) by lia. cbn. apply (IH (mk_daemon _ _ _)); simpl; [lia|done..].
  - cbn. apply (IH (clear_rate_limit cg0 d)); unfold clear_rate_limit; simpl; pose proof (unset_spec (limits d) cg0) as Hu;
      destruct (cgroup_rate_limit_unset (limits d) cg0) as [rc m]; destruct Hu as [-> _]; simpl.
    + done.
    + by apply NoDup_cons in H2 as [_ ?].
    + clear H1 IH. intros cg. apply NoDup_cons in H2 as [H2 _]. specialize (H3 cg). simpl in H3.
      rewrite elem_of_cons in H3. rewrite lookup_delete. case_decide as E; [subst cg0|naive_solver].
      split; [by intros []|done].
    + intros cg Hcg. rewrite lookup_delete_ne; [by apply H4|]. intros <-.
      apply NoDup_cons in H2 as [H2 _]. apply H2. apply elem_of_app. by right.
Qed.

Lemma consistent_released d l o :
  consistent d l o →
  ∃ d', run_cleanups (cleanups l) d = Some d' ∧ consistent_all d' (o_locals o) ∧ others_kept d' o.
Proof.
  rewrite consistent_unfold. intros (H1 & H2 & H3 & H4 & H5 & H6 & Ho & Hm).
  destruct (run_cleanups_ok (cleanups l) d o) as (d' & R & Hn & Hl & Hv & Hu); [done..|].
  exists d'. split_and!; [done| |by split; [|rewrite Hu]]. split; [done| | |done|done].
  - pose proof (slots_nonneg l). lia.
  - by apply NoDup_app in H3 as (_ & _ & ?).
Qed.

(** ** Running a handler is sound for the calculus *)

(** A handler that is suspended where it may be. *)
Definition handler_ok (d : daemon_state) (p : prog unit) (l : local_state) : Prop :=
  match p with
  | Ret _ => False
  | Ask q k =>
      suspends q = true ∧ lasting q d l ∧
      ∀ a d' o', consistent d' l o' → agrees l d d' → wp (k a) final d' (record q a l) o'
  end.

(** The reasons at the moment of the question. *)
Definition asks_permitted (d : daemon_state) (p : prog unit) (l : local_state) : Prop :=
  match p with Ret _ => False | Ask q _ => permitted q d l end.

Lemma run_sound env p : ∀ n d l o,
  wp p final d l o →
  match run env n p d l (held (o_locals o)) with
  | (Suspended p' l', d') => consistent d' l' o ∧ handler_ok d' p' l' ∧ asks_permitted d' p' l'
  | (Ended l', d') =>
      accounted l' ∧ consistent_all d' (o_locals o) ∧ others_kept d' o
  | (Aborted, _) => False
  | (Impossible, _) => True
  end.
Proof.
  induction p as [x|B q k IH]; intros n d l o; simpl.
  - intros [Hc Ha]. destruct (consistent_released _ _ _ Hc) as (d' & -> & Hd). by split.
  - destruct (own q d l) as [[[a d'] l']|]; [intros [_ Hk]; by apply IH|].
    destruct (suspends q) eqn:Hs.
    + intros (Hc & Hp & Hk). split; [done|]. split; [|done]. split_and!; [done|apply Hp|done].
    + intros Hk. destruct (valid q (env n B q) l (cgroups_of l ++ held (o_locals o))) eqn:Hv; [|done].
      apply IH, Hk. done.
Qed.

Lemma own_settled {A} (q : io A) d l a d' l' :
  own q d l = Some (a, d', l') → unsettled q l → told (trace l) →
  limits d' = limits d ∧ cleanups l ⊆ cleanups l' ∧ trace l' = trace l.
Proof.
  intros Hown Hu Ht. destruct q; simpl in *; try done; simplify_eq/=; split_and!; try done.
  intros x Hx. by right.
Qed.

Lemma record_trace {A} (q : io A) a l : trace l ⊆ trace (record q a l).
Proof. destruct q; simpl; repeat case_match; try done; intros x Hx; by right. Qed.

Lemma told_mono tr tr' : tr ⊆ tr' → told tr → told tr'.
Proof. intros Hs (bs & Hbs & Hp). exists bs. split; [by apply Hs|done]. Qed.

(** A handler that has let its client start changes no limit until it ends. *)
Lemma run_settled env p : ∀ n d l o p' l' d',
  wp p final d l o → told (trace l) →
  run env n p d l (held (o_locals o)) = (Suspended p' l', d') →
  limits d' = limits d ∧ cleanups l ⊆ cleanups l' ∧ told (trace l').
Proof.
  induction p as [x|B q k IH]; intros n d l o p' l' d'; simpl.
  - intros _ _ Hr. by case_match.
  - destruct (own q d l) as [[[a d1] l1]|] eqn:Hown.
    + intros [Hu Hk] Ht Hr. destruct (own_settled _ _ _ _ _ _ Hown Hu Ht) as (E1 & H2 & E3).
      destruct (IH a _ _ _ _ _ _ _ Hk (eq_ind_r told Ht E3) Hr) as (E4 & H5 & H6).
      split_and!; [congruence|by etrans|done].
    + destruct (suspends q).
      { intros _ Ht Hr. by simplify_eq. }
      intros Hk Ht Hr. destruct (valid q _ l _) eqn:Hv; [|done].
      destruct (IH _ _ _ _ _ _ _ _ (Hk _ Hv) (told_mono _ _ (record_trace q _ l) Ht) Hr)
        as (E4 & H5 & H6).
      by rewrite record_cleanups in H5.
Qed.

(** ** The invariant of the daemon *)

Definition locals (c : daemon) : list local_state := h_local <$> handlers c.

Record daemon_inv (c : daemon) : Prop := {
  di_consistent : consistent_all (state c) (locals c);
  di_handlers : Forall (λ h, handler_ok (state c) (h_prog h) (h_local h)) (handlers c);
  di_finished : Forall accounted (finished c);
}.

#[local] Instance consistent_all_perm d : Proper ((≡ₚ) ==> iff) (consistent_all d).
Proof.
  assert (∀ ls ls', ls ≡ₚ ls' → consistent_all d ls → consistent_all d ls') as Hgo.
  { intros ls ls' Hp [H1 H2 H3 H4 H5].
    assert (held ls ≡ₚ held ls') as Hh by (unfold held; by rewrite Hp).
    split; [|done|by rewrite <-Hh| |by rewrite <-Hp].
    - rewrite H1. clear -Hp. induction Hp; rewrite ?total_slots_cons; try lia; done.
    - intros cg. by rewrite H4, Hh. }
  intros ls ls' Hp. split; by apply Hgo.
Qed.

Lemma held_by_held hs : held_by hs = held (h_local <$> hs).
Proof. induction hs as [|h hs IH]; [done|]. exact (f_equal (app (cgroups_of (h_local h))) IH). Qed.

Lemma handler_ok_agrees d d' p l : agrees l d d' → handler_ok d p l → handler_ok d' p l.
Proof.
  intros Ha. destruct p as [x|B q k]; [done|]. intros (Hs & [Hf Hp] & Hk). split_and!; [done| |].
  - split; [by eapply in_force_mono|]. destruct q; simpl in *; try done.
    intros Hr. eapply may_proceed_mono; [done|reflexivity|by apply Hp].
  - intros a d'' o' Hc Ha'. apply Hk; [done|]. by eapply agrees_trans.
Qed.

Lemma others_ok (d d' : daemon_state) (hs : list handler) :
  Forall (λ h, handler_ok d (h_prog h) (h_local h)) hs →
  others_kept d' (mk_others (h_local <$> hs) (limits d) (g_this_unit_name d)) →
  Forall (λ h, handler_ok d' (h_prog h) (h_local h)) hs.
Proof.
  intros Hall [Hcg Hn]. apply Forall_forall. intros h Hh. rewrite Forall_forall in Hall.
  eapply handler_ok_agrees; [|by apply Hall]. split; [|done]. intros cg Hin. apply Hcg.
  apply list_elem_of_bind. exists (h_local h). split; [done|]. by apply list_elem_of_fmap_2.
Qed.

(** A segment of one handler among the others [hs]. *)
Lemma segment_ok env n p d l hs :
  consistent_all d (l :: (h_local <$> hs)) →
  Forall (λ h, handler_ok d (h_prog h) (h_local h)) hs →
  (∀ o, consistent d l o → wp p final d l o) →
  match run env n p d l (held_by hs) with
  | (Suspended p' l', d') =>
      consistent_all d' (l' :: (h_local <$> hs)) ∧ handler_ok d' p' l' ∧ asks_permitted d' p' l' ∧
      Forall (λ h, handler_ok d' (h_prog h) (h_local h)) hs
  | (Ended l', d') =>
      accounted l' ∧ consistent_all d' (h_local <$> hs) ∧
      Forall (λ h, handler_ok d' (h_prog h) (h_local h)) hs
  | (Aborted, _) => False
  | (Impossible, _) => True
  end.
Proof.
  intros Hc Hall Hwp. set (o := mk_others (h_local <$> hs) (limits d) (g_this_unit_name d)).
  assert (consistent d l o) as Hco by (split; [done|by split]).
  pose proof (run_sound env p n d l o (Hwp o Hco)) as Hr. rewrite held_by_held.
  change (held (h_local <$> hs)) with (held (o_locals o)).
  destruct (run env n p d l (held (o_locals o))) as [[p' l'|l'| |] d'].
  - destruct Hr as ([Hc' Hcg] & Hok & Hask). split_and!; [done..|]. by eapply others_ok.
  - destruct Hr as (Ha & Hc' & Hcg). split_and!; [done|done|]. by eapply others_ok.
  - done.
  - done.
Qed.

Lemma insert_Permutation {A} (i : nat) (xs : list A) (x y : A) :
  xs !! i = Some x → <[i := y]> xs ≡ₚ y :: delete i xs.
Proof.
  intros Hi. rewrite (delete_Permutation (<[i:=y]> xs) i y)
    by (apply list_lookup_insert_eq; by eapply lookup_lt_Some).
  by rewrite !delete_take_drop, take_insert_ge, drop_insert_lt by lia.
Qed.

(** Consistency with the handlers in another order. *)
Lemma consistent_moved d l hs hs' h :
  h_local h = l → hs' ≡ₚ h :: hs →
  consistent_all d (l :: (h_local <$> hs)) ↔ consistent_all d (h_local <$> hs').
Proof. intros <- Hp. by rewrite Hp. Qed.

(** A good step: the invariant holds after it, and the question of a handler
    that was not suspended before it is permitted. *)
Definition step_ok (hs : list handler) (r : outcome) : Prop :=
  match r with
  | Runs c' => daemon_inv c' ∧
      ∀ h, h ∈ handlers c' → h ∈ hs ∨ asks_permitted (state c') (h_prog h) (h_local h)
  | Crashes => False
  | NotPossible => True
  end.

Lemma after_ok env n p l hs put c :
  daemon_inv c → (∀ h, put h ≡ₚ h :: hs) →
  consistent_all (state c) (l :: (h_local <$> hs)) →
  Forall (λ h, handler_ok (state c) (h_prog h) (h_local h)) hs →
  (∀ o, consistent (state c) l o → wp p final (state c) l o) →
  step_ok hs (after c hs put (run env n p (state c) l (held_by hs))).
Proof.
  intros Hinv Hput Hc Hall Hwp. pose proof (segment_ok env n p _ l hs Hc Hall Hwp) as Hr.
  destruct (run _ _ _ _ _ _) as [[p' l'|l'| |] d']; [| |done|done]; cbn [after step_ok].
  - destruct Hr as (Hc' & Hok & Hask & Hall'). split; [split|]; cbn [state handlers finished].
    + exact (proj1 (consistent_moved d' l' hs _ (mk_handler p' l') eq_refl (Hput _)) Hc').
    + rewrite Hput. by apply Forall_cons.
    + apply Hinv.
    + intros h. rewrite Hput, elem_of_cons. intros [->|Hh]; [by right|by left].
  - destruct Hr as (Ha & Hc' & Hall'). split; [split|]; cbn [state handlers finished]; [done|done| |by left].
    apply Forall_cons. split; [done|apply Hinv].
Qed.

(** A new handler holds nothing. *)
Lemma consistent_all_new d ls : consistent_all d ls → consistent_all d (mk_local [] [] :: ls).
Proof.
  intros [H1 H2 H3 H4 H5].
  split; [rewrite total_slots_cons; by rewrite H1|done|done|done|by apply Forall_cons].
Qed.

Lemma accept_ok env fd c : daemon_inv c → step_ok (handlers c) (accept env fd c).
Proof.
  intros Hinv. apply after_ok; [done| |by apply consistent_all_new, Hinv|apply Hinv|].
  - intros h. by rewrite <-Permutation_cons_append.
  - intros o Ho. by apply wp_client_handler.
Qed.

(** What holds when the answer for handler [i] arrives. *)
Lemma answer_pre {B} (env : nat → ∀ A, io A → A) i c (q : io B) k l :
  daemon_inv c → handlers c !! i = Some (mk_handler (Ask q k) l) →
  (∀ h, <[i := h]> (handlers c) ≡ₚ h :: delete i (handlers c)) ∧
  consistent_all (state c) (record q (env 0%nat B q) l :: (h_local <$> delete i (handlers c))) ∧
  ∀ o, consistent (state c) (record q (env 0%nat B q) l) o →
    wp (k (env 0%nat B q)) final (state c) (record q (env 0%nat B q) l) o.
Proof.
  intros Hinv Hi. pose proof (delete_Permutation _ _ _ Hi) as Hp. pose proof (di_handlers _ Hinv) as Hall.
  rewrite Hp in Hall. apply Forall_cons in Hall as [(Hs & Hq & Hk) _]. cbn [h_prog h_local] in *.
  assert (consistent_all (state c) (l :: (h_local <$> delete i (handlers c)))) as Hc.
  { rewrite (consistent_moved _ l _ (handlers c) (mk_handler (Ask q k) l)); [apply Hinv|done|done]. }
  split_and!.
  - intros h. by apply (insert_Permutation i _ (mk_handler (Ask q k) l)).
  - by eapply consistent_all_trace; [apply record_cleanups|].
  - intros o Ho. apply Hk; [|apply agrees_refl]. eapply consistent_trace; [|exact Ho].
    by rewrite record_cleanups.
Qed.

Lemma answer_ok env i c : daemon_inv c → step_ok (delete i (handlers c)) (answer env i c).
Proof.
  intros Hinv. unfold answer. destruct (handlers c !! i) as [[[x|B q k] l]|] eqn:Hi; [done| |done].
  destruct (answer_pre env i c q k l Hinv Hi) as (Hput & Hc & Hwp). apply after_ok; [done..| |done].
  pose proof (di_handlers _ Hinv) as Hall. rewrite (delete_Permutation _ _ _ Hi) in Hall.
  by apply Forall_cons in Hall as [_ ?].
Qed.

Lemma daemon_step_ok c c' :
  daemon_inv c → daemon_step c c' →
  daemon_inv c' ∧
    ∀ h, h ∈ handlers c' → h ∈ handlers c ∨ asks_permitted (state c') (h_prog h) (h_local h).
Proof.
  intros Hinv Hs. destruct Hs as [env fd c c' E|env i c c' E].
  - pose proof (accept_ok env fd c Hinv) as H. by rewrite E in H.
  - pose proof (answer_ok env i c Hinv) as H. rewrite E in H. destruct H as [H1 H2]. split; [done|].
    intros h Hh. destruct (H2 h Hh) as [Hd|?]; [left|by right].
    by eapply list_elem_of_delete_inv.
Qed.

(** *** Limits last *)

(** A handler runs that will clear the limit of [cg] when it ends. *)
Definition kept_by (cg : Z) (h : handler) : Prop := ClearRateLimit cg ∈ cleanups (h_local h).
Definition has_keeper (cg : Z) (c : daemon) : Prop := Exists (kept_by cg) (handlers c).

(** This handler has let its client start. *)
Definition has_started (cg : Z) (c : daemon) : Prop :=
  Exists (λ h, kept_by cg h ∧ told (trace (h_local h))) (handlers c).

#[export] Instance kept_by_dec cg h : Decision (kept_by cg h).
Proof. unfold kept_by. apply _. Defined.

Lemma kept_by_held cg h hs : h ∈ hs → kept_by cg h → cg ∈ held_by hs.
Proof. intros Hh Hk. apply list_elem_of_bind. exists h. split; [by apply elem_of_cgroups|done]. Qed.

(** A segment of one handler leaves the limits of the others. *)
Lemma segment_keeps env n p d l hs r d' cg :
  consistent_all d (l :: (h_local <$> hs)) → (∀ o, consistent d l o → wp p final d l o) →
  run env n p d l (held_by hs) = (r, d') →
  match r with Suspended _ _ | Ended _ => True | _ => False end →
  cg ∈ held_by hs → limits d' !! cg = limits d !! cg.
Proof.
  intros Hc Hwp. set (o := mk_others (h_local <$> hs) (limits d) (g_this_unit_name d)).
  assert (consistent d l o) as Hco by (split; [done|by split]).
  pose proof (run_sound env p n d l o (Hwp o Hco)) as Hr. rewrite held_by_held.
  change (held (h_local <$> hs)) with (held (o_locals o)). intros E Hok Hcg. rewrite E in Hr.
  destruct r; try done; [destruct Hr as ([_ [Hk _]] & _)|destruct Hr as (_ & _ & Hk & _)]; by apply Hk.
Qed.

(** In a step without the handler that keeps the limit. *)
Lemma after_keeps env n p l hs put c c' cg :
  (∀ h, put h ≡ₚ h :: hs) → consistent_all (state c) (l :: (h_local <$> hs)) →
  (∀ o, consistent (state c) l o → wp p final (state c) l o) →
  after c hs put (run env n p (state c) l (held_by hs)) = Runs c' →
  Exists (λ h, kept_by cg h ∧ told (trace (h_local h))) hs →
  has_started cg c' ∧ limits (state c') !! cg = limits (state c) !! cg.
Proof.
  intros Hput Hc Hwp E Hs.
  assert (cg ∈ held_by hs) as Hcg.
  { apply Exists_exists in Hs as (h & Hh & Hk & _). by eapply kept_by_held. }
  destruct (run env n p (state c) l (held_by hs)) as [r d'] eqn:Er.
  pose proof (λ H, segment_keeps _ _ _ _ _ _ _ _ cg Hc Hwp Er H Hcg) as Hl.
  destruct r as [p' l'|l'| |]; simplify_eq/=; (split; [|by apply Hl]); unfold has_started; simpl; [|done].
  rewrite Hput. by right.
Qed.

(** In a step of the handler itself: it ends, or its limit stays. *)
Lemma after_own_keeps env n p l hs put c c' cg :
  (∀ h, put h ≡ₚ h :: hs) → consistent_all (state c) (l :: (h_local <$> hs)) →
  (∀ o, consistent (state c) l o → wp p final (state c) l o) →
  after c hs put (run env n p (state c) l (held_by hs)) = Runs c' →
  ClearRateLimit cg ∈ cleanups l → told (trace l) → has_keeper cg c' →
  has_started cg c' ∧ limits (state c') !! cg = limits (state c) !! cg.
Proof.
  intros Hput Hc Hwp E Hcl Ht Hk.
  set (o := mk_others (h_local <$> hs) (limits (state c)) (g_this_unit_name (state c))).
  assert (consistent (state c) l o) as Hco by (split; [done|by split]).
  pose proof (λ p' l' d', run_settled env p n _ l o p' l' d' (Hwp o Hco) Ht) as Hr.
  rewrite held_by_held in E. change (held (h_local <$> hs)) with (held (o_locals o)) in E.
  destruct (run env n p (state c) l (held (o_locals o))) as [[p' l'|l'| |] d'] eqn:Er; simplify_eq/=.
  - destruct (Hr p' l' d' eq_refl) as (-> & Hsub & Ht'). split; [|done].
    unfold has_started. simpl. rewrite Hput. left. split; [by apply Hsub|done].
  - exfalso. apply Exists_exists in Hk as (h & Hh & Hk).
    destruct Hc as [_ _ Hn _ _]. rewrite held_cons, <-held_by_held in Hn.
    apply NoDup_app in Hn as (_ & Hd & _). apply (Hd cg); [by apply elem_of_cgroups|].
    by eapply kept_by_held.
Qed.

Lemma daemon_step_keeps c c' cg :
  daemon_inv c → daemon_step c c' → has_started cg c → has_keeper cg c' →
  has_started cg c' ∧ limits (state c') !! cg = limits (state c) !! cg.
Proof.
  intros Hinv Hs Hst Hk. destruct Hs as [env fd c c' E|env i c c' E].
  - eapply after_keeps; [| | |exact E|done].
    + intros h. by rewrite <-Permutation_cons_append.
    + by apply consistent_all_new, Hinv.
    + intros o Ho. by apply wp_client_handler.
  - unfold answer in E. destruct (handlers c !! i) as [[[x|B q k] l]|] eqn:Hi; [done| |done].
    destruct (answer_pre env i c q k l Hinv Hi) as (Hput & Hc & Hwp).
    unfold has_started in Hst. rewrite (delete_Permutation _ _ _ Hi) in Hst.
    apply Exists_cons in Hst as [[Hcl Ht]|Hst]; [|exact (after_keeps _ _ _ _ _ _ _ _ _ Hput Hc Hwp E Hst)].
    apply (after_own_keeps _ _ _ _ _ _ _ _ _ Hput Hc Hwp E); [| |done].
    + by rewrite record_cleanups.
    + eapply told_mono; [apply record_trace|done].
Qed.

Lemma daemon_init_inv : daemon_inv daemon_init.
Proof.
  split; [|by constructor..]. split; simpl; try done; [constructor|].
  intros cg. rewrite lookup_empty. split; [by intros []|]. intros H. set_solver.
Qed.

Lemma reachable_inv c : reachable c → daemon_inv c.
Proof.
  apply (rtc_ind_r daemon_inv); [apply daemon_init_inv|].
  intros c1 c2 _ Hs Hinv. by apply (daemon_step_ok c1).
Qed.

End daemon_inv.
