(* ===== verification/DaemonTheorems.v ===== *)
(** * What the daemon guarantees (src/main.c)

    Theorems about every state the daemon can reach, however connections and
    answers of the system are interleaved. *)

From S2P Require Import Prelude RateLimit BpfMaps Protocol Client Handler Daemon DaemonInv.

#[local] Open Scope Z_scope.

Section theorems.
Context `{KL : KernelMapLaws}.

(** ** Facts about the invariant *)

Lemma told_lasts c h :
  daemon_inv c → h ∈ handlers c → handler_ok (state c) (h_prog h) (h_local h).
Proof. intros Hi Hh. pose proof (di_handlers _ Hi) as Hall. rewrite Forall_forall in Hall. auto. Qed.

(** A cgroup is in the cleanups of at most one of the handlers. *)
Lemma held_once (ls : list local_state) i j li lj cg :
  NoDup (held ls) → ls !! i = Some li → ls !! j = Some lj →
  cg ∈ cgroups_of li → cg ∈ cgroups_of lj → i = j.
Proof.
  revert i j; induction ls as [|l ls IH]; intros i j Hn Hi Hj Hci Hcj; [done|].
  rewrite held_cons in Hn. apply NoDup_app in Hn as (_ & Hd & Hn).
  assert (∀ k lk, ls !! k = Some lk → cg ∈ cgroups_of lk → cg ∈ held ls) as Hin.
  { intros k lk Hk Hc. apply list_elem_of_bind. exists lk. split; [done|].
    by eapply list_elem_of_lookup_2. }
  destruct i, j; simplify_eq/=; [done| | |by f_equal; eapply IH].
  - by destruct (Hd cg Hci); eapply Hin.
  - by destruct (Hd cg Hcj); eapply Hin.
Qed.

Lemma held_lookup (ls : list local_state) cg :
  cg ∈ held ls → ∃ i l, ls !! i = Some l ∧ cg ∈ cgroups_of l.
Proof.
  intros H. apply list_elem_of_bind in H as (l & Hc & Hl).
  apply list_elem_of_lookup in Hl as [i Hi]. by exists i, l.
Qed.

(** Every limit is paid for with a place. *)
Lemma held_slots (ls : list local_state) :
  Forall (λ l, Z.of_nat (length (cgroups_of l)) <= slots_of l) ls →
  Z.of_nat (length (held ls)) <= total_slots ls.
Proof.
  induction 1 as [|l ls Hl _ IH]; [done|].
  rewrite held_cons, length_app, total_slots_cons. lia.
Qed.

Lemma size_held c :
  daemon_inv c → Z.of_nat (size (limits (state c))) <= g_nr_tasks (state c).
Proof.
  intros [[H1 H2 H3 H4 H5] _ _]. rewrite H1. etrans; [|by apply held_slots].
  rewrite <-size_dom. rewrite <-(size_list_to_set (C := gset Z) (held (locals c))) by done.
  apply Nat2Z.inj_le, subseteq_size. intros cg. rewrite elem_of_dom, elem_of_list_to_set. apply H4.
Qed.

End theorems.

(** ** A daemon at work

    A system that answers every question, for examples: one client, whose
    process 1234 is in a session scope, asks for 1000 bytes and 10 packets per
    second. *)

Definition example_request : rate_limit_req :=
  mk_req 32 RATE_LIMIT_REQ (mk_rate_limit 1000 10) 0.

Definition example_system (_ : nat) (A : Type) (q : io A) : A :=
  match q in io A return A with
  | GetNrTasks => 0
  | IncNrTasks => tt
  | GetThisUnitName => None
  | SetThisUnitName _ => tt
  | Register _ => tt
  | RateCheck _ => 0
  | RateSet _ _ => 0
  | InitMsgStream _ => 0
  | StreamRegInterrupt _ => tt
  | PeerPid => 1234
  | InitPidfdEvent _ => 0
  | PidfdRegInterrupt _ => tt
  | PathGetCgroupId path => inr (Z.of_nat (String.length path))
  | SetInterruptDisabled => tt
  | GetInterruptReason => 0
  | FormatLog _ => inr [104; 105]
  | CloseFd _ => tt
  | GetSelfUnitName => inr "traffic-limitd.service"%string
  | GetUnitByPID _ => inr "session"%string
  | UnitControlGroup u => inr ("/" +:+ u)%string
  | StartTransientScope _ _ => inr ("limit-1.scope", "limit_scope")%string
  | StreamRead _ _ => (32, encode_req example_request)
  | StreamWrite bs _ => Z.of_nat (length bs)
  | ShutdownStream => 0
  | WaitForExit => 0
  | KillUnit _ _ _ => 0
  end.

Inductive event : Type := Connects (fd : Z) | Arrives (i : nat).

Definition happens `{K : KernelMap} (e : event) (c : daemon) : outcome :=
  match e with
  | Connects fd => accept example_system fd c
  | Arrives i => answer example_system i c
  end.

(** The daemon after an event, or as it was if the event cannot happen. *)
Definition play `{K : KernelMap} (c : daemon) (e : event) : daemon :=
  match happens e c with Runs c' => c' | _ => c end.

Lemma play_reachable `{K : KernelMap} c e : reachable c → reachable (play c e).
Proof.
  intros Hc. unfold play, happens.
  destruct e; case_match; try done; (eapply rtc_r; [done|]); by econstructor.
Qed.

(** A connection, and [n] answers for its handler. *)
Fixpoint example_daemon (n : nat) : daemon :=
  match n with
  | O => play (K := hash_map 1125) daemon_init (Connects 5)
  | S n => play (K := hash_map 1125) (example_daemon n) (Arrives 0)
  end.

Lemma example_reachable n : reachable (K := hash_map 1125) (example_daemon n).
Proof. induction n; apply play_reachable; [apply rtc_refl|done]. Qed.

Definition example_runs (n : nat) : bool :=
  match answer (K := hash_map 1125) example_system 0 (example_daemon n) with Runs _ => true | _ => false end.

Lemma example_step n :
  example_runs n = true →
  daemon_step (K := hash_map 1125) (example_daemon n) (example_daemon (S n)).
Proof.
  unfold example_runs. cbn [example_daemon]. unfold play, happens. intros H. case_match; try done.
  by eapply step_answer.
Qed.

(** The daemon asks for a scope. *)
Definition asks_scope (h : handler) : bool :=
  match h_prog h with Ask (StartTransientScope _ _) _ => true | _ => false end.
Definition example_asks (n : nat) : bool := existsb asks_scope (handlers (example_daemon n)).

Lemma example_asks_true n :
  example_asks n = true →
  ∃ h pid name k, h ∈ handlers (example_daemon n) ∧ h_prog h = Ask (StartTransientScope pid name) k.
Proof.
  intros (h & Hh & E)%existsb_exists. exists h. unfold asks_scope in E.
  destruct (h_prog h) as [|B q k]; [done|]. destruct q; try done.
  eexists _, _, _. split; [by apply list_elem_of_In|done].
Qed.

Lemma example_asks_false n h pid name k :
  example_asks n = false → h_prog h = Ask (StartTransientScope pid name) k →
  h ∉ handlers (example_daemon n).
Proof.
  intros H E Hh%list_elem_of_In. apply not_true_iff_false in H. apply H, existsb_exists.
  exists h. split; [done|]. unfold asks_scope. by rewrite E.
Qed.

Definition writes_proceed (x : obs) : bool :=
  match x with OWrite bs => bool_decide (bs = [8; 0; 0; 0; 3; 0; 0; 0]) | _ => false end.

Lemma writes_proceed_told tr :
  existsb writes_proceed tr = true → OWrite [8; 0; 0; 0; 3; 0; 0; 0] ∈ tr.
Proof.
  intros (x & Hx & E)%existsb_exists. destruct x; try done. apply bool_decide_eq_true in E as ->.
  by apply list_elem_of_In.
Qed.

(** The first handler, or an ended one, has let its client start. *)
Definition example_told (n : nat) : bool :=
  match handlers (example_daemon n) with h :: _ => existsb writes_proceed (trace (h_local h)) | [] => false end.
Definition example_ended (n : nat) : bool :=
  match finished (example_daemon n) with l :: _ => existsb writes_proceed (trace l) | [] => false end.

Lemma example_told_true n :
  example_told n = true →
  ∃ h, handlers (example_daemon n) !! 0%nat = Some h ∧ told (trace (h_local h)).
Proof.
  unfold example_told. destruct (handlers (example_daemon n)) as [|h hs]; [done|].
  intros H. exists h. split; [done|]. eexists. by split; [apply writes_proceed_told|].
Qed.

Lemma example_ended_true n :
  example_ended n = true →
  ∃ l, l ∈ finished (example_daemon n) ∧ OWrite [8; 0; 0; 0; 3; 0; 0; 0] ∈ trace l.
Proof.
  unfold example_ended. destruct (finished (example_daemon n)) as [|l ls]; [done|].
  intros H. exists l. split; [left|]. by apply writes_proceed_told.
Qed.

(** ** Claims *)

(** The daemon never aborts: whatever order connections and answers come
    in, the counter of tasks is never decreased below zero. *)
Theorem daemon_never_aborts `{KL : KernelMapLaws} c env fd i :
  reachable c → accept env fd c ≠ Crashes ∧ answer env i c ≠ Crashes.
Proof.
  intros Hr%reachable_inv. split; intros E.
  - pose proof (accept_ok env fd c Hr) as H. by rewrite E in H.
  - pose proof (answer_ok env i c Hr) as H. by rewrite E in H.
Qed.

Lemma daemon_never_aborts_witness :
  length (finished (example_daemon 11)) = 1%nat ∧
  answer (K := hash_map 1125) example_system 0 (example_daemon 10) ≠ Crashes.
Proof.
  split; [vm_compute; reflexivity|].
  exact (proj2 (daemon_never_aborts (example_daemon 10) example_system 5 0 (example_reachable 10))).
Defined.

(** C8. Admission: [g_nr_tasks] is the number of places the handlers hold and
    at most MAX_NR_TASKS; every limited cgroup is paid for with a place, so
    that in maps of the size the daemon gives them there is always room for
    one more limit. *)
Theorem tasks_counted `{KL : KernelMapLaws} c cg v :
  reachable c → map_size MAX_NR_TASKS = Some max_entries →
  g_nr_tasks (state c) = total_slots (locals c) ∧ 0 <= g_nr_tasks (state c) <= MAX_NR_TASKS ∧
  Z.of_nat (size (limits (state c))) <= g_nr_tasks (state c) ∧
  ∃ rc m, cgroup_rate_limit_set (limits (state c)) cg v = (rc, m) ∧ 0 <= rc ∧ m !! cg = Some v.
Proof.
  intros Hr%reachable_inv Hm. change (map_size MAX_NR_TASKS) with (Some 1125) in Hm.
  injection Hm as Hm. pose proof (size_held c Hr) as Hs.
  destruct Hr as [[H1 H2 H3 H4 H5] _ _]. pose proof (total_slots_nonneg (locals c)).
  split_and!; [done|lia|done|done|].
  destruct (set_room (limits (state c)) cg v) as (rc & E & Hrc).
  { left. unfold MAX_NR_TASKS in *. lia. }
  exists rc, (<[cg := v]> (limits (state c))). by rewrite lookup_insert_eq.
Qed.

Lemma tasks_counted_witness :
  g_nr_tasks (state (example_daemon 8)) = 1 ∧ total_slots (locals (example_daemon 8)) = 1.
Proof.
  assert (g_nr_tasks (state (example_daemon 8)) = 1) as H by (vm_compute; reflexivity).
  split; [exact H|]. rewrite <-H. symmetry.
  refine (proj1 (tasks_counted (K := hash_map 1125) (example_daemon 8) 3 (mk_rate_limit 1 1) _ _));
    [apply example_reachable|vm_compute; reflexivity].
Defined.

(** C6. Every limit in the kernel belongs to exactly one suspended handler,
    which will remove it when it ends; when no handler is left, the kernel has
    no limit and all places are free. *)
Theorem limits_owned `{KL : KernelMapLaws} c :
  reachable c →
  (∀ cg, is_Some (limits (state c) !! cg) →
    ∃ i h, handlers c !! i = Some h ∧ ClearRateLimit cg ∈ cleanups (h_local h) ∧
      ∀ j h', handlers c !! j = Some h' → ClearRateLimit cg ∈ cleanups (h_local h') → j = i) ∧
  (handlers c = [] → limits (state c) = ∅ ∧ g_nr_tasks (state c) = 0).
Proof.
  intros Hr%reachable_inv. destruct Hr as [[H1 H2 H3 H4 H5] _ _]. unfold locals in *. split.
  - intros cg Hcg. apply H4, held_lookup in Hcg as (i & l & Hi & Hcg).
    rewrite list_lookup_fmap in Hi. apply fmap_Some in Hi as (h & Hi & ->). exists i, h.
    split_and!; [done|by apply cgroups_elem_of|]. intros j h' Hj Hc'.
    eapply held_once; [done|rewrite list_lookup_fmap, Hj; done|rewrite list_lookup_fmap, Hi; done| |done].
    by apply elem_of_cgroups.
  - intros E. rewrite E in H1, H4. split; [|done]. apply map_eq. intros cg. rewrite lookup_empty.
    apply eq_None_not_Some. rewrite H4. set_solver.
Qed.

Lemma limits_owned_witness :
  limits (state (example_daemon 8)) !! 12 = Some (mk_rate_limit 1000 10) ∧
  limits (state (example_daemon 11)) = ∅.
Proof.
  split; [vm_compute; reflexivity|].
  refine (proj1 (proj2 (limits_owned (K := hash_map 1125) (example_daemon 11) _) _));
    [apply example_reachable|vm_compute; reflexivity].
Defined.

(** C3. The client runs only under its limit: from the moment a handler hands
    the message that lets the client start to the stream until the handler
    ends, the kernel's map has, for the cgroup of the scope the handler
    started, exactly the limit of the request the handler read. *)
Theorem client_runs_limited `{KL : KernelMapLaws} c i h :
  reachable c → handlers c !! i = Some h →
  told (trace (h_local h)) ∨
    (∃ bs usec k, h_prog h = Ask (StreamWrite bs usec) k ∧ client_reply bs = ReplyProceed) →
  ∃ obj path cg rc buf limit,
    OScope obj ∈ trace (h_local h) ∧ OUnitPath obj path ∈ trace (h_local h) ∧
    OPathId path cg ∈ trace (h_local h) ∧ ORead rc buf ∈ trace (h_local h) ∧
    read_request rc buf = ReqLimit limit ∧ limits (state c) !! cg = Some limit.
Proof.
  intros Hr%reachable_inv Hi Ht. apply list_elem_of_lookup_2 in Hi.
  pose proof (told_lasts c h Hr Hi) as Hok.
  assert (may_proceed (state c) (h_local h)) as Hm.
  { destruct Ht as [Ht|(bs & usec & k & E & Hp)].
    - destruct (h_prog h); [done|]. destruct Hok as (_ & [Hf _] & _). by apply Hf.
    - rewrite E in Hok. destruct Hok as (_ & [_ Hw] & _). by apply Hw. }
  destruct Hm as (obj & path & cg & rc & buf & limit & Hm). exists obj, path, cg, rc, buf, limit. naive_solver.
Qed.

Lemma client_runs_limited_witness :
  ∃ h, handlers (example_daemon 9) !! 0%nat = Some h ∧
  ∃ obj path cg rc buf limit,
    OScope obj ∈ trace (h_local h) ∧ OUnitPath obj path ∈ trace (h_local h) ∧
    OPathId path cg ∈ trace (h_local h) ∧ ORead rc buf ∈ trace (h_local h) ∧
    read_request rc buf = ReqLimit limit ∧ limits (state (example_daemon 9)) !! cg = Some limit.
Proof.
  destruct (example_told_true 9) as (h & E & Ht); [vm_compute; reflexivity|].
  exists h. split; [exact E|].
  refine (client_runs_limited (K := hash_map 1125) (example_daemon 9) 0 h _ E (or_introl Ht)).
  apply example_reachable.
Defined.

(** C9. A handler that let its client start has asked systemd, later and before
    it ended, to send signal 9 (SIGKILL) to all processes of the scope it
    started. The answer [rc] may be an error: the code logs it at most, and
    does not ask again. *)
Theorem scope_killed `{KL : KernelMapLaws} c l bs :
  reachable c → l ∈ finished c → OWrite bs ∈ trace l → client_reply bs = ReplyProceed →
  ∃ obj rc later earlier, trace l = later ++ OKill obj "all" 9 rc :: earlier ∧
    OScope obj ∈ earlier ∧ OWrite bs ∈ earlier.
Proof.
  intros Hr%reachable_inv Hl Hw Hp. pose proof (di_finished _ Hr) as Hf. rewrite Forall_forall in Hf.
  by eapply Hf.
Qed.

Lemma scope_killed_witness :
  ∃ l, l ∈ finished (example_daemon 11) ∧
    ∃ obj rc later earlier, trace l = later ++ OKill obj "all" 9 rc :: earlier ∧
      OScope obj ∈ earlier ∧ OWrite [8; 0; 0; 0; 3; 0; 0; 0] ∈ earlier.
Proof.
  destruct (example_ended_true 11) as (l & Hl & Hw); [vm_compute; reflexivity|].
  exists l. split; [exact Hl|].
  refine (scope_killed (K := hash_map 1125) (example_daemon 11) l [8; 0; 0; 0; 3; 0; 0; 0] _ Hl Hw _);
    [apply example_reachable|vm_compute; reflexivity].
Defined.

(** C17. Limits are not nested: when a handler asks for a scope for a process,
    the process is the peer of its connection, systemd has named the unit of
    that process to it, and the cgroup of that unit has no limit at this
    moment; the scope is bound to the daemon's own unit, whose name is
    known. *)
Theorem limits_not_nested `{KL : KernelMapLaws} c c' h pid name k :
  reachable c → daemon_step c c' → h ∈ handlers c' → h ∉ handlers c →
  h_prog h = Ask (StartTransientScope pid name) k →
  name = g_this_unit_name (state c') ∧ is_Some name ∧
  ∃ orig path cg, OPeer pid ∈ trace (h_local h) ∧ OUnitOf pid orig ∈ trace (h_local h) ∧
    OUnitPath orig path ∈ trace (h_local h) ∧ OPathId path cg ∈ trace (h_local h) ∧
    limits (state c') !! cg = None.
Proof.
  intros Hr%reachable_inv Hs Hh Hnew E. destruct (daemon_step_ok c c' Hr Hs) as [_ Hask].
  destruct (Hask h Hh) as [|Hp]; [done|]. rewrite E in Hp. apply Hp.
Qed.

Lemma limits_not_nested_witness :
  ∃ h pid name k, h ∈ handlers (example_daemon 3) ∧
    h_prog h = Ask (StartTransientScope pid name) k ∧ name = g_this_unit_name (state (example_daemon 3)).
Proof.
  destruct (example_asks_true 3) as (h & pid & name & k & Hh & Hk); [vm_compute; reflexivity|].
  exists h, pid, name, k. split; [exact Hh|]. split; [exact Hk|].
  refine (proj1 (limits_not_nested (K := hash_map 1125) (example_daemon 2) (example_daemon 3) h pid name k
    _ _ Hh _ Hk)).
  - apply example_reachable.
  - apply example_step. vm_compute. reflexivity.
  - apply (example_asks_false 2 h pid name k); [vm_compute; reflexivity|exact Hk].
Defined.

(** C28. A full daemon refuses: when MAX_NR_TASKS places are taken, a new
    connection gets a message the client reads as "too many tasks"; its
    handler holds nothing but its stream, and after the message is written and
    the stream shut down it is gone and no place and no limit has changed. *)
Theorem full_daemon_refuses `{KL : KernelMapLaws} c (env : nat → ∀ A, io A → A) fd :
  MAX_NR_TASKS <= g_nr_tasks (state c) → 0 <= env 0%nat Z (InitMsgStream fd) →
  ∃ bs k c1, accept env fd c = Runs c1 ∧ state c1 = state c ∧
    handlers c1 = handlers c ++
      [mk_handler (Ask (StreamWrite bs MAX_IO_USEC) k) (mk_local [DestroyStream] [])] ∧
    client_reply bs = ReplyFail TooManyTasks ∧
    ∀ env1 env2, ∃ c2 c3,
      answer env1 (length (handlers c)) c1 = Runs c2 ∧ answer env2 (length (handlers c)) c2 = Runs c3 ∧
      state c3 = state c ∧ handlers c3 = handlers c.
Proof.
  intros Hfull Hinit. exists [12; 0; 0; 0; 1; 0; 0; 0; 3; 0; 0; 0].
  eexists _, (mk_config (state c) (handlers c ++ [_]) (finished c)). split.
  { unfold accept, client_handler_async, client_handler_body. cbn.
    rewrite (proj2 (Z.ltb_ge _ _) Hinit). cbn. by rewrite (proj2 (Z.leb_le _ _) Hfull). }
  split_and!; [done|done|done|]. intros env1 env2.
  eexists (mk_config (state c) (handlers c ++ [_]) (finished c)), (mk_config (state c) (handlers c) _).
  split_and!; [| |done|done]; unfold answer; cbn [handlers].
  - rewrite list_lookup_middle by done. cbn. by rewrite insert_app_r_alt, Nat.sub_diag by lia.
  - rewrite list_lookup_middle by done. cbn. rewrite delete_middle, app_nil_r. done.
Qed.

Lemma full_daemon_refuses_witness :
  let c := mk_config (mk_daemon 1000 None ∅) [] [] in
  ∃ c1, accept (K := hash_map 1125) example_system 5 c = Runs c1 ∧ state c1 = state c.
Proof.
  intros c.
  destruct (full_daemon_refuses (K := hash_map 1125) c example_system 5) as (bs & k & c1 & H1 & H2 & _).
  - apply Z.leb_le. vm_compute. reflexivity.
  - apply Z.leb_le. vm_compute. reflexivity.
  - exists c1. split; [exact H1|exact H2].
Defined.
