(* ===== verification/EndToEnd.v ===== *)
(** * From the request to the packets

    The two halves of the program together: the limits the daemon keeps in the
    kernel's map are the ones the packet scheduler reads. *)

From S2P Require Import Prelude RateLimit BpfMaps Protocol Client Handler Daemon DaemonInv DaemonTheorems.

#[local] Open Scope Z_scope.

(** [ev] does not change the limit of [cg]. *)
Definition leaves_limit (cg : Z) (ev : bpf_event) : Prop :=
  match ev with Configure cg' _ => cg' ≠ cg | _ => True end.

#[export] Instance leaves_limit_dec cg ev : Decision (leaves_limit cg ev).
Proof. destruct ev; simpl; apply _. Defined.

Section packets.
Context (update : gmap Z Z → Z → Z → gmap Z Z).

Lemma cgroup_rate_limit_keeps_limits now skb s :
  rate_limit_map (cgroup_rate_limit update now skb s).2 = rate_limit_map s.
Proof. unfold cgroup_rate_limit. by repeat case_match. Qed.

Lemma bpf_step_limit cg s ev :
  leaves_limit cg ev → rate_limit_map (bpf_step update s ev).2 !! cg = rate_limit_map s !! cg.
Proof.
  destruct ev as [now skb|cg' [rl|]|cg']; simpl; intros Hl.
  - pose proof (cgroup_rate_limit_keeps_limits now skb s) as H.
    destruct (cgroup_rate_limit update now skb s) as [[act skb'] s']. simpl in H.
    destruct act, (rate_limit_map s !! cgroup_id skb); simpl; by rewrite H.
  - by rewrite lookup_insert_ne.
  - by rewrite lookup_delete_ne.
  - done.
Qed.

Lemma bpf_step_departs s ev d :
  (bpf_step update s ev).1 = Some d → rate_limit_map s !! d_cg d = Some (d_limit d).
Proof.
  destruct ev as [now skb|cg' [rl|]|cg']; simpl; try done.
  destruct (cgroup_rate_limit update now skb s) as [[[] skb'] s'];
    destruct (rate_limit_map s !! cgroup_id skb) eqn:E; simpl; intros [= <-]. done.
Qed.

(** While the limit of a cgroup stays, its packets depart under it. *)
Lemma departures_under cg rl evs : ∀ s,
  rate_limit_map s !! cg = Some rl → Forall (leaves_limit cg) evs →
  Forall (λ d, d_limit d = rl) (departures_of update cg s evs).
Proof.
  unfold departures_of. induction evs as [|ev evs IH]; intros s Hs Hl; simpl; [constructor|].
  apply Forall_cons in Hl as [Hev Hl]. pose proof (bpf_step_limit cg s ev Hev) as Hstep.
  pose proof (bpf_step_departs s ev) as Hd. destruct (bpf_step update s ev) as [[d|] s']; simpl in *.
  - rewrite filter_cons. specialize (Hd d eq_refl).
    case_decide as E; [constructor; [congruence|]|]; apply IH; congruence.
  - apply IH; congruence.
Qed.

Lemma bpf_run_app s evs1 evs2 :
  bpf_run update s (evs1 ++ evs2) = bpf_run update (bpf_run update s evs1) evs2.
Proof. revert s; induction evs1 as [|ev evs1 IH]; intros s; simpl; [done|apply IH]. Qed.

Lemma bpf_step_keeps_limits s ev :
  match ev with Configure _ _ => False | _ => True end →
  rate_limit_map (bpf_step update s ev).2 = rate_limit_map s.
Proof.
  destruct ev as [now skb|?|cg']; simpl; [intros _|done..].
  pose proof (cgroup_rate_limit_keeps_limits now skb s) as H.
  by destruct (cgroup_rate_limit update now skb s) as [[[] ?] ?], (rate_limit_map s !! cgroup_id skb).
Qed.

End packets.

(** ** The daemon and the packets *)

(** The cgroups whose limits differ. *)
Definition changed (m m' : limit_map) : list Z :=
  filter (λ cg, m !! cg ≠ m' !! cg) (elements (dom m ∪ dom m')).

Lemma elem_of_changed cg m m' : cg ∈ changed m m' ↔ m !! cg ≠ m' !! cg.
Proof.
  unfold changed. rewrite list_elem_of_filter, elem_of_elements, elem_of_union, !elem_of_dom.
  split; [naive_solver|]. intros H. split; [done|]. destruct (m !! cg), (m' !! cg); eauto. done.
Qed.

(** How a segment of the daemon that turns the limits [m] into [m'] looks to
    the packet scheduler. *)
Definition reconfigure (m m' : limit_map) : list bpf_event :=
  (λ cg, Configure cg (m' !! cg)) <$> changed m m'.

Lemma bpf_run_configure update (m' : limit_map) cgs : ∀ s cg,
  rate_limit_map (bpf_run update s ((λ cg, Configure cg (m' !! cg)) <$> cgs)) !! cg =
    if decide (cg ∈ cgs) then m' !! cg else rate_limit_map s !! cg.
Proof.
  induction cgs as [|cg' cgs IH]; intros s cg; [done|]. cbn [fmap list_fmap bpf_run]. rewrite IH.
  destruct (decide (cg ∈ cgs)) as [Hin|Hin].
  { rewrite decide_True; [done|by right]. }
  destruct (decide (cg = cg')) as [->|Hne].
  - rewrite decide_True by left. simpl.
    destruct (m' !! cg'); simpl; [apply lookup_insert_eq|apply lookup_delete_eq].
  - rewrite decide_False by (rewrite elem_of_cons; naive_solver). simpl.
    destruct (m' !! cg'); simpl; [by rewrite lookup_insert_ne|by rewrite lookup_delete_ne].
Qed.

(** The scheduler then reads the new limits. *)
Lemma reconfigure_run update s m' :
  rate_limit_map (bpf_run update s (reconfigure (rate_limit_map s) m')) = m'.
Proof.
  apply map_eq. intros cg. unfold reconfigure. rewrite bpf_run_configure.
  destruct (decide (cg ∈ _)) as [|H]; [done|]. rewrite elem_of_changed in H.
  destruct (decide (rate_limit_map s !! cg = m' !! cg)); [done|]. by destruct H.
Qed.

Lemma reconfigure_leaves cg m m' : m' !! cg = m !! cg → Forall (leaves_limit cg) (reconfigure m m').
Proof.
  intros E. apply Forall_fmap, Forall_forall. intros cg' H. simpl. intros ->.
  by apply elem_of_changed in H.
Qed.

(** Packets and evictions, and between them segments of the daemon, after each
    of which a handler still runs that will clear the limit of [cg]. The
    changes of a segment are made at once: no segment changes the limit of
    [cg] at all, as [meanwhile_limits] shows. *)
Inductive meanwhile `{K : KernelMap} (cg : Z) : daemon → list bpf_event → daemon → Prop :=
  | nothing_more c : meanwhile cg c [] c
  | packet_next now skb c evs c' :
      meanwhile cg c evs c' → meanwhile cg c (Packet now skb :: evs) c'
  | eviction_next cg' c evs c' :
      meanwhile cg c evs c' → meanwhile cg c (Evict cg' :: evs) c'
  | segment_next c c1 evs c' :
      daemon_step c c1 → has_keeper cg c1 → meanwhile cg c1 evs c' →
      meanwhile cg c (reconfigure (limits (state c)) (limits (state c1)) ++ evs) c'.

(** A handler that has let its client start keeps the limit until it ends, and
    the scheduler reads the limits of the daemon all the time. *)
Lemma meanwhile_limits `{KL : KernelMapLaws} update cg c evs c' s :
  meanwhile cg c evs c' → daemon_inv c → has_started cg c → rate_limit_map s = limits (state c) →
  Forall (leaves_limit cg) evs ∧ rate_limit_map (bpf_run update s evs) = limits (state c') ∧
  limits (state c') !! cg = limits (state c) !! cg.
Proof.
  intros Hm. revert s.
  induction Hm as [c|now skb c evs c' _ IH|cg' c evs c' _ IH|c c1 evs c' Hs Hk _ IH];
    intros s Hinv Hst Hmap; [by split_and!| | |].
  - destruct (IH (bpf_step update s (Packet now skb)).2 Hinv Hst) as (H1 & H2 & H3);
      [by rewrite bpf_step_keeps_limits|]. split_and!; [by constructor|done|done].
  - destruct (IH (bpf_step update s (Evict cg')).2 Hinv Hst) as (H1 & H2 & H3); [done|].
    split_and!; [by constructor|done|done].
  - destruct (daemon_step_keeps c c1 cg Hinv Hs Hst Hk) as [Hst1 Hl].
    destruct (IH (bpf_run update s (reconfigure (limits (state c)) (limits (state c1))))
      (proj1 (daemon_step_ok c c1 Hinv Hs)) Hst1) as (H1 & H2 & H3).
    { rewrite <-Hmap. apply reconfigure_run. }
    split_and!; [|by rewrite bpf_run_app|congruence].
    apply Forall_app. split; [by apply reconfigure_leaves|done].
Qed.

(** ** Claims *)

(** C1. The client's traffic keeps to the client's limit: once a handler has
    let its client start, and as long as the handler runs, whatever the other
    handlers do meanwhile, the packet scheduler reads the limit of the client's
    request for the cgroup of the client's scope; the bytes and packets that
    depart, the last one left out, are bounded by the requested rates over the
    time between the first and the last departure, up to half a nanosecond of
    rate per packet. Conditions: one CPU runs the scheduler (the program is one
    step), the kernel does not drop the cgroup's entry from the LRU map
    ([kept]), and the clock and the widths are in range ([timely]). *)
Theorem client_traffic_bounded `{KL : KernelMapLaws} update `{!LruHash update} c i h t s :
  reachable c → handlers c !! i = Some h → told (trace (h_local h)) →
  bpf_inv t s → rate_limit_map s = limits (state c) →
  ∃ obj path cg rc buf limit,
    OScope obj ∈ trace (h_local h) ∧ OUnitPath obj path ∈ trace (h_local h) ∧
    OPathId path cg ∈ trace (h_local h) ∧ ORead rc buf ∈ trace (h_local h) ∧
    read_request rc buf = ReqLimit limit ∧ kept_by cg h ∧
    ∀ evs c', meanwhile cg c evs c' →
      rate_limit_map (bpf_run update s evs) = limits (state c') ∧ limits (state c') !! cg = Some limit ∧
      ∀ d ds, timely t evs → kept update cg s evs → departures_of update cg s evs = d :: ds →
        (byte_rate limit ≠ RATE_UNLIMITED →
         2 * NS_PER_SEC * total_bytes (removelast (d :: ds)) <=
           byte_rate limit * (2 * span d ds + Z.of_nat (length ds))) ∧
        (packet_rate limit ≠ RATE_UNLIMITED →
         2 * NS_PER_SEC * Z.of_nat (length ds) <=
           packet_rate limit * (2 * span d ds + Z.of_nat (length ds))).
Proof.
  intros Hr%reachable_inv Hi Ht Hinv Hmap. apply list_elem_of_lookup_2 in Hi.
  pose proof (told_lasts c h Hr Hi) as Hok. destruct (h_prog h) as [|B q k]; [done|].
  destruct Hok as (_ & [Hf _] & _).
  destruct (Hf Ht) as (obj & path & cg & rc & buf & limit & H1 & H2 & H3 & H4 & H5 & H6 & H7).
  exists obj, path, cg, rc, buf, limit. split_and!; [done..|]. intros evs c' Hm.
  destruct (meanwhile_limits update cg c evs c' s Hm Hr) as (Hl & Hrun & Hstay); [|done|].
  { apply Exists_exists. by exists h. }
  split_and!; [done|congruence|]. intros d ds Htm Hk Hds. eapply throughput_from; [done..|].
  rewrite <-Hds. apply departures_under; [by rewrite Hmap|done].
Qed.

(** Two packets of the client's cgroup, and between them another connection. *)
Definition example_events : list bpf_event :=
  [Packet 5000 (mk_skb 1500 12 0)] ++
  reconfigure (limits (state (example_daemon 9)))
    (limits (state (play (K := hash_map 1125) (example_daemon 9) (Connects 6)))) ++
  [Packet 6000 (mk_skb 500 12 0)].

Lemma example_meanwhile :
  meanwhile (K := hash_map 1125) 12 (example_daemon 9) example_events
    (play (K := hash_map 1125) (example_daemon 9) (Connects 6)).
Proof.
  apply packet_next. apply segment_next.
  - unfold play, happens. destruct (accept (K := hash_map 1125) example_system 6 (example_daemon 9)) eqn:E.
    + by eapply step_accept.
    + exfalso. revert E. by vm_compute.
    + exfalso. revert E. by vm_compute.
  - refine (bool_decide_unpack _ _). vm_compute. exact I.
  - apply packet_next, nothing_more.
Qed.

(** The client's cgroup is 12. *)
Lemma example_cgroup h cg :
  handlers (example_daemon 9) !! 0%nat = Some h → kept_by cg h → cg = 12.
Proof.
  assert ((cgroups_of ∘ h_local) <$> handlers (example_daemon 9) !! 0%nat = Some [12]) as H
    by (vm_compute; reflexivity).
  intros E Hk%elem_of_cgroups. rewrite E in H. injection H as H. rewrite H in Hk.
  by apply list_elem_of_singleton in Hk.
Qed.

Lemma client_traffic_bounded_witness :
  let s := bpf_loaded (limits (state (example_daemon 9))) in
  ∃ limit d ds, departures_of (lru_insert 1125) 12 s example_events = d :: ds ∧ length ds = 1%nat ∧
    byte_rate limit = 1000 ∧
    2 * NS_PER_SEC * total_bytes (removelast (d :: ds)) <=
      byte_rate limit * (2 * span d ds + Z.of_nat (length ds)).
Proof.
  intros s. destruct (example_told_true 9) as (h & E & Ht); [vm_compute; reflexivity|].
  destruct (client_traffic_bounded (K := hash_map 1125) (lru_insert 1125) (example_daemon 9) 0 h 0
    s (example_reachable 9) E Ht)
    as (obj & path & cg & rc & buf & limit & _ & _ & _ & _ & _ & Hcg & H).
  - apply bpf_loaded_inv. refine (bool_decide_unpack _ _). vm_compute. exact I.
  - reflexivity.
  - apply (example_cgroup h cg E) in Hcg. subst cg.
    destruct (H _ _ example_meanwhile) as (_ & Hl & Hb).
    assert (limits (state (play (K := hash_map 1125) (example_daemon 9) (Connects 6))) !! 12 =
      Some (mk_rate_limit 1000 10)) as Hl' by (vm_compute; reflexivity).
    rewrite Hl in Hl'. injection Hl' as ->.
    destruct (departures_of (lru_insert 1125) 12 s example_events) as [|d ds] eqn:Hds;
      [vm_compute in Hds; discriminate|].
    exists (mk_rate_limit 1000 10), d, ds. split; [reflexivity|]. split.
    { apply (f_equal length) in Hds. vm_compute in Hds. injection Hds as Hds. exact (eq_sym Hds). }
    split; [reflexivity|].
    refine (proj1 (Hb d ds _ _ eq_refl) _); [refine (bool_decide_unpack _ _); vm_compute; exact I..|].
    vm_compute. discriminate.
Defined.
